(* ===== verification/_CoqProject ===== *)
-Q . S2P
Prelude.v
F64.v
Json.v
Query.v
Lexer.v
Parser.v
Topic.v
Envelope.v
Sequencer.v
Replay.v
Policy.v
CoalesceQueue.v
Mpsc.v
Bus.v
BusSpec.v
BusProps.v
Publish.v
Alone.v
Capabilities.v
Http.v
Peer.v
Admission.v
Acceptors.v
Gateway.v
Resource.v
Persistence.v
Redb.v
PeerRecords.v
Runtime.v
Executor.v
Node.v
Core.v
Server.v
Registrar.v
Siren.v
Render.v
Handlers.v
EventStream.v
PeerStreams.v
Session.v
ActorMacro.v
Honest.v
Led.v
Job.v
JobProps.v
Tunnel.v
Router.v
Wire.v
Assembly.v
Front.v
Watch.v
