(* ===== verification/Prelude.v ===== *)
(** * Boardwalk

    A verification of Boardwalk ([src/crates/boardwalk]), a Rust server that
    exposes resources over HTTP, streams their events to subscribers, answers
    queries in a small language (CaQL), and links nodes through tunnels over
    which a gateway forwards requests, with the macros its actors are written
    with and the example actors. Paths below are relative to
    [src/crates/boardwalk/src] unless they start with [src/].

    ** The program and its model

    - Queries. [query/ast.rs] and [query/eval.rs] are [Query]: field paths,
      predicates, [matches] and [project] on JSON values ([Json], numbers in
      [F64]). [caql/lex.rs] is [Lexer] and [caql/parse.rs] with [caql::parse]
      is [Parser].
    - Events. A publisher allocates a sequence number and an event id from the
      stream registry ([events/sequencer.rs]: [Sequencer]), builds an envelope
      ([events/envelope.rs]: [Envelope]; its messages on the websocket,
      [events/wire.rs], are [Envelope] and [Wire]) and publishes it
      on the bus ([events/bus.rs]), which records it in the replay cache
      ([events/replay.rs]: [Replay]) and delivers it to every subscription
      whose topic pattern ([events/topic.rs]: [Topic]) matches, through a
      bounded channel ([Mpsc]) or a coalescing queue ([events/coalesce.rs]:
      [CoalesceQueue]) according to its policy ([events/policy.rs]: [Policy]).
      [Bus] models the state and [try_publish]; [BusSpec] is the abstract
      specification of a publish, one subscription at a time; [BusProps] has
      the theorems; [Publish] models the asynchronous [publish] as tasks that
      interleave with each other, with consumers and with cancellation, and
      [Alone] compares the two paths.
    - Peering. [peer.rs], [tunnel.rs], [secret.rs] and the peering half of
      [http/routes.rs]. [Capabilities] has the capability sets, identifiers
      and the secret comparison; [Peer] the configuration builders, admitted
      connections and the reconnect backoff; [Tunnel] the proxy of a dial, from
      the configuration or the environment; [Admission] the handshake and the
      admission decision; [Acceptors] the table of tunnels of an accepting node
      and the tasks that change it; [PeerRecords] what it stores about them;
      [Gateway] caller ingress, the capability
      gates, the forwarded request and caller provenance
      ([runtime/context.rs]).
    - Resources. [runtime/resource.rs] and [runtime/transition.rs] are
      [Resource]: specs, snapshots, transitions and the document queries read.
      [Runtime] has the contexts handlers run in and what they publish
      ([runtime/actor.rs], [runtime/context.rs]); [Executor] the task that owns
      an actor and the calls on its handles ([runtime/executor.rs]); [Node] the
      directory, registration, reads, queries and proxies of a node
      ([runtime/directory.rs], [runtime/node.rs], [runtime/handle.rs]).
    - Storage. [persistence/mod.rs] is [Persistence]: the records, the
      repository traits as classes with laws, and the in-memory repositories;
      [persistence/redb.rs] is [Redb], over a transactional store.
    - The server. [server.rs] is [Server] (identities, the builder, [build])
      and [Registrar] (runtime registration, peer clients), and [Assembly] the
      whole configuration, the state it gives the router, the reconnect loops
      of the peer clients ([PeerClient::spawn]) and the teardown; [http/core.rs] is
      [Core]: what a node answers to reads, queries and transitions, and what
      it stores on the way.
    - HTTP. [siren.rs] and [links.rs] are [Siren], [http/render.rs] is
      [Render], and the local handlers of [http/routes.rs] are [Handlers] and
      [EventStream] (the NDJSON stream); [Router] is the table that leads to
      them, and [Front] the whole of it as one function of a request: lookup,
      extractors, gateway and handlers. [http/peer_streams.rs] is
      [PeerStreams] and [http/ws.rs] is [Session]: one websocket connection,
      its dispatcher, writer and forwarders, over the bus and the shared peer
      streams of its node.
    - Actors. [src/crates/boardwalk-macros/src/lib.rs] is [ActorMacro]: what the
      attribute makes of an [impl] block, and the dispatch of the generated
      code. [Honest] states what an actor owes to the documents it renders and
      what a client may rely on then. [Led] (the actor of
      [src/examples/hello-led]) and [Job] with [JobProps] (the queue, the jobs
      and their runner tasks of [src/examples/job-runner]) are actors written
      with the macro, run by the executor's interface and proved honest.
      [Watch] composes the renderer, the topics, the bus, the contexts, the
      lamp and a websocket connection into the loop a client goes through.

    State is a record per component and each operation a function on it, with
    [option] for panics and [result] for errors. Where the code holds a lock
    for a part of an operation only, the parts are separate steps, and a step
    relation interleaves them: [alloc_step], [bus_step], the tasks of
    [Publish], the receiver of [CoalesceQueue], [acceptor_step], [task_step] and
    [client_step] of the executor, [hub_step], [session_step] and [world_step],
    [clients_step] of the reconnect loops, and [job_step] with the regions of a
    runner between two locks.
    Where components meet, the client is proved against a class: [Mpsc] for
    channels, [Actor] for resource implementations, [ResourceIdentityRepository]
    and its siblings for storage ([PeerRecordRepository] for tunnels), with the in-memory and the stored repositories
    as instances; [Publisher] for what an actor publishes through, with the bus
    as instance, [JobRegistry] for where a queue registers its jobs, with the
    node as instance, and [HonestActor], with the three example actors as
    instances. The handlers
    of [Gateway] are programs whose queries to the tunnel table are answered
    one after the other by tables that may differ. Objects that the bus and a
    consumer share (channels, coalescing queues, notices) live in a store
    indexed by subscription id.

    ** What the theorems show

    - CaQL: the lexer and the parser accept exactly their grammars and are
      total, with every error located in the text; printing and parsing a query
      is the identity; [matches] decides a declarative semantics, [project]
      keeps exactly what is selected, and [glob_match] and [matches_topic]
      decide their patterns.
    - Events: sequence numbers of a stream are handed out without gaps or
      repetition under concurrency and ids are unique; replay returns exactly
      the retained events after a sequence number, and the reverse index holds
      exactly the retained and open ids; [try_publish] refines its
      specification, in any iteration order of the subscriptions, and keeps
      every reachable bus bounded and free of panics; limits are respected by
      both publish paths at any interleaving, and undisturbed the two paths do
      the same; the coalescing queue keeps its
      bound and its one-slot-per-key invariant and never loses a wake-up.
    - Peering: admission is exactly its declarative rules and meets the dialer;
      ingress fails closed; a request crosses to a peer only through both
      capability gates; caller identity cannot be forged across the hop; the
      tunnel table is consistent, and what is stored about a route is the
      last status recorded for it; capability sets survive their encodings;
      redials are paced and confirm their own dials only; a server that was not
      opened to peers refuses them all; the environment gives each dial the
      documented proxy, and the intent of a forwarded request is that of the
      handler it was routed to.
    - Resources: the document of a snapshot has its documented shape; an
      executor is linearizable, every reachable state being a sequential run of
      the actor over the accepted commands, and answers every accepted call;
      directory ids are unique and lead to their own actors; a read falls back
      on the stored snapshot; the answer to a transition is fixed on every
      branch, through the core and through the HTTP handler.
    - Storage and identity: two repositories that meet the laws cannot be told
      apart, and both implementations do; a restarted server finds the same
      node and resource ids, and identities do not alias.
    - Hypermedia: a rendered resource offers exactly the available transitions
      and declared streams the policy allows; a subscription link reads back as
      what it was built for, and who subscribes to the stream of a lamp and
      switches it receives the new position.
    - Requests: the two addresses of a local resource answer alike; a request
      for another server leaves this one as it is; only a form posted to
      [/resources] changes the directory, and what the router or an extractor
      refuses changes nothing.
    - Streams: replayed and live events are spliced without loss or repetition;
      a peer stream carries exactly the values that were written, however it is
      framed, and a relayed event is the message a local subscriber gets; the
      books of a connection balance in every interleaving with the bus, the
      peers and the other connections, a forwarder keeps order and loses only
      what its notices say, and a finished connection leaves nothing behind;
      the messages of the websocket survive encoding and decoding.
    - Actors: the generated dispatch reaches exactly the methods that are marked
      and compiled in; an honest actor's document offers exactly the
      transitions that are not refused; jobs keep their invariant wherever
      their runner is interrupted, a runner terminates in the state its command
      determines, and the links of a job reach exactly its events.
    - Some theorems prove that the code departs from its intent: limits of zero
      and mixed publish paths, non-ASCII string literals, a question mark inside
      a topic regex, a dead sender that blocks a route, a late cleanup that
      evicts the next tunnel, a shutdown that outlives its timeout, a race of
      stored identities, stream links that reach no event, handlers a header
      can make panic, shared streams that stay dead, closed connections that
      wait for an event, closed tunnels stored as connected, and retried jobs
      that never run.

    ** Bounds and fuel

    The outer loop of the lexer takes one unit of fuel per byte, since every
    iteration consumes one; the recursive descent takes four units per token
    and four more, one for each level between two tokens; both are proved to be
    enough ([tokenize_total], [caql_parse_correct]). The framing of a peer
    stream takes one unit per byte of its buffer ([drain_lines_spec]), and the
    rounds of a stream body as many as are asked for; the rounds of a job's
    runner are bounded by the regions its command has left
    ([runner_terminates]). Everything else recurses
    on its data. Integers are unbounded numbers with the wrap-around of their
    width written out: sequence numbers and subscription ids wrap at 2^64
    ([wrap64]), the backoff computes in saturating 64-bit arithmetic.

    ** Parameters

    Code outside the repository is an argument, through a class with its
    documented laws: [SerdeNumber] (JSON numbers), [TopicLibs] (regular
    expressions, form decoding), [TimeLib] (timestamps), [BusLibs] (serialized
    size), [Mpsc] (tokio channels), [HttpLib] (header maps, URIs, UUIDs),
    [UrlLib] and [UrlOps] (URLs), [DigestLib] (base64 of SHA-1), [FormLib] (form
    serializer), [BodyLib] and [JsonText] (parsing of bodies), [SerdeInt], the
    store and the codec of [Redb], [UrlPort], [Base64Lib], [AxumRouter] (the
    route lookup, of which only soundness and completeness are used) and
    [AxumExtract] (path decoding, the check of a WebSocket upgrade), [JobSerde]
    (the inputs of the job actors), and [Actor] (the resources of an
    application). UUIDs and the clock are arguments. Each class has an instance
    in the examples that witness the theorems.

    ** What is not modelled

    Sockets, TLS and the HTTP/2 protocol, binding listeners and serving, and
    opening the file of a store: these hand bytes to the operating system or to
    a library and keep no state of their own. The text of JSON documents and the
    dropping of the body of a HEAD response are the work of serde and axum. The
    event history of [persistence/mod.rs] is a trait without an implementation,
    and tracing output is not observed by the program. A panic ends the
    operation that panics; only the websocket handler and the runner of a job
    follow what it leaves behind. The programs [src/examples/hello-led] and
    [src/examples/tunnel-poc] are entry points; [LedExamples] evaluates the
    calls of the first one. [Watch] follows one event from the transition to
    the socket when nothing interferes; at arbitrary interleavings its stations
    are proved one by one.

    This file holds what the components share: results with the [?] operator,
    tactics, bytes, strings and UTF-8 as [str] has them, and invariants of step
    relations. *)

From stdpp Require Export prelude strings gmap list pretty.
From Stdlib Require Export Ascii.
From Stdlib Require String.


(** * Results

    Rust's [Result<T, E>] as a two-constructor type with the [?] operator
    written [let? x := r in k]. *)

Inductive result (E A : Type) : Type :=
| Ok (a : A)
| Err (e : E).
Arguments Ok {E A} a.
Arguments Err {E A} e.

Declare Scope rust_scope.
Delimit Scope rust_scope with rust.
Open Scope rust_scope.

Notation "'let?' x ':=' r 'in' k" :=
  (match r with Ok x => k | Err e => Err e end)
  (at level 10, x pattern, r at level 100, k at level 200) : rust_scope.

Definition is_ok {E A} (r : result E A) : bool :=
  match r with Ok _ => true | Err _ => false end.

(** [Result::map_err] *)
Definition map_err {E F A} (f : E → F) (r : result E A) : result F A :=
  match r with Ok a => Ok a | Err e => Err (f e) end.

(** [Option::ok_or] *)
Definition ok_or {E A} (o : option A) (e : E) : result E A :=
  match o with Some a => Ok a | None => Err e end.

#[export] Instance result_eq_dec `{EqDecision E, EqDecision A} :
  EqDecision (result E A).
Proof. solve_decision. Defined.

(** * Automation shared by the components *)

Create HintDb boardwalk.

(** Split every [match] of the goal and the hypotheses on a scrutinee that is
    not already known, discharging the impossible branches. *)
Ltac inv_matches :=
  repeat (case_match; simplify_eq/=; try done).

(** Case on the [if decide]/[bool_decide]/[match] that blocks the goal. *)
Ltac crunch :=
  repeat (simplify_eq/= || case_bool_decide || case_decide || case_match);
  try done.

(** Turn boolean conditions into propositions. *)
Ltac bool_to_prop :=
  rewrite ?andb_true_iff, ?orb_true_iff, ?negb_true_iff,
    ?andb_false_iff, ?orb_false_iff, ?negb_false_iff,
    ?bool_decide_eq_true, ?bool_decide_eq_false in *.

(** * Bytes and ASCII classes ([u8] / [char] methods of core)

    A Rust [str] is its UTF-8 byte sequence, modelled by [string] (one [ascii]
    per byte). *)

Definition byte_code (c : ascii) : N := N_of_ascii c.

Definition in_range (lo hi : N) (c : ascii) : bool :=
  ((lo <=? byte_code c) && (byte_code c <=? hi))%N.

Definition is_ascii_digit (c : ascii) : bool := in_range 48 57 c.
Definition is_ascii_uppercase (c : ascii) : bool := in_range 65 90 c.
Definition is_ascii_lowercase (c : ascii) : bool := in_range 97 122 c.
Definition is_ascii_alphabetic (c : ascii) : bool :=
  is_ascii_uppercase c || is_ascii_lowercase c.
Definition is_ascii_alphanumeric (c : ascii) : bool :=
  is_ascii_alphabetic c || is_ascii_digit c.

(** [u8::is_ascii_whitespace]: space, tab, line feed, form feed and carriage
    return; vertical tab is not included. *)
Definition is_ascii_whitespace (c : ascii) : bool :=
  match byte_code c with
  | 9 | 10 | 12 | 13 | 32 => true
  | _ => false
  end%N.

Definition is_ascii (c : ascii) : bool := (byte_code c <? 128)%N.

Definition to_ascii_lowercase_byte (c : ascii) : ascii :=
  if is_ascii_uppercase c then ascii_of_N (byte_code c + 32) else c.

(** * Strings ([str] methods of core) *)

Fixpoint str_map (f : ascii → ascii) (s : string) : string :=
  match s with
  | EmptyString => EmptyString
  | String c s' => String (f c) (str_map f s')
  end.

Fixpoint str_forallb (f : ascii → bool) (s : string) : bool :=
  match s with
  | EmptyString => true
  | String c s' => f c && str_forallb f s'
  end.

Definition to_ascii_lowercase : string → string :=
  str_map to_ascii_lowercase_byte.

Definition eq_ignore_ascii_case (a b : string) : bool :=
  String.eqb (to_ascii_lowercase a) (to_ascii_lowercase b).

(** [str::replace(char, &str)] where the replacement is one byte too. *)
Definition replace_byte (from to : ascii) : string → string :=
  str_map (λ c, if Ascii.eqb c from then to else c).

Definition str_is_empty (s : string) : bool :=
  match s with EmptyString => true | _ => false end.

(** Longest prefix of bytes satisfying [f], and the remaining suffix. *)
Fixpoint span (f : ascii → bool) (s : string) : string * string :=
  match s with
  | EmptyString => (EmptyString, EmptyString)
  | String c s' =>
      if f c then let '(a, b) := span f s' in (String c a, b)
      else (EmptyString, s)
  end.

(** [str::split(c)] for a one-byte separator: never empty, one more piece
    than there are separators. *)
Fixpoint split_on (sep : ascii) (s : string) : list string :=
  match s with
  | EmptyString => [EmptyString]
  | String c s' =>
      if Ascii.eqb c sep then EmptyString :: split_on sep s'
      else match split_on sep s' with
           | [] => [String c EmptyString]
           | p :: ps => String c p :: ps
           end
  end.

(** [[String]::join(sep)] *)
Fixpoint join (sep : string) (l : list string) : string :=
  match l with
  | [] => EmptyString
  | [s] => s
  | s :: l' => s +:+ sep +:+ join sep l'
  end.

(** [str::find(c)] followed by slicing around the hit: the text before the
    first [c] and the text after it. *)
Fixpoint split_first (c : ascii) (s : string) : option (string * string) :=
  match s with
  | EmptyString => None
  | String b s' =>
      if Ascii.eqb b c then Some (EmptyString, s')
      else match split_first c s' with
           | Some (x, y) => Some (String b x, y)
           | None => None
           end
  end.

Fixpoint starts_with (p s : string) : bool :=
  match p, s with
  | EmptyString, _ => true
  | String a p', String b s' => Ascii.eqb a b && starts_with p' s'
  | _, _ => false
  end.

Fixpoint strip_prefix (p s : string) : option string :=
  match p, s with
  | EmptyString, _ => Some s
  | String a p', String b s' => if Ascii.eqb a b then strip_prefix p' s' else None
  | _, _ => None
  end.

Fixpoint str_last (s : string) : option ascii :=
  match s with
  | EmptyString => None
  | String c EmptyString => Some c
  | String _ s' => str_last s'
  end.

(** All bytes but the last. *)
Fixpoint str_init (s : string) : string :=
  match s with
  | EmptyString => EmptyString
  | String _ EmptyString => EmptyString
  | String c s' => String c (str_init s')
  end.

(** * UTF-8

    [chars] decodes a [str] into Unicode scalar values; [push_char] is
    [String::push]. Only well-formed sequences occur in a [str]. *)

Definition byte_of (n : N) : ascii := ascii_of_N n.

Definition encode_char (c : N) : string :=
  (if c <? 128 then String (byte_of c) EmptyString
   else if c <? 2048 then
     String (byte_of (192 + c / 64)) (String (byte_of (128 + c mod 64)) EmptyString)
   else if c <? 65536 then
     String (byte_of (224 + c / 4096))
       (String (byte_of (128 + (c / 64) mod 64))
          (String (byte_of (128 + c mod 64)) EmptyString))
   else
     String (byte_of (240 + c / 262144))
       (String (byte_of (128 + (c / 4096) mod 64))
          (String (byte_of (128 + (c / 64) mod 64))
             (String (byte_of (128 + c mod 64)) EmptyString))))%N.

Definition push_char (s : string) (c : N) : string := s +:+ encode_char c.

Definition cont (b : ascii) : N := (byte_code b mod 64)%N.

Fixpoint chars (s : string) : list N :=
  match s with
  | EmptyString => []
  | String b0 s0 =>
      let c0 := byte_code b0 in
      if (c0 <? 192)%N then c0 :: chars s0
      else match s0 with
      | EmptyString => [c0]
      | String b1 s1 =>
          if (c0 <? 224)%N then (c0 mod 32 * 64 + cont b1)%N :: chars s1
          else match s1 with
          | EmptyString => [c0]
          | String b2 s2 =>
              if (c0 <? 240)%N
              then (c0 mod 16 * 4096 + cont b1 * 64 + cont b2)%N :: chars s2
              else match s2 with
              | EmptyString => [c0]
              | String b3 s3 =>
                  (c0 mod 8 * 262144 + cont b1 * 4096 + cont b2 * 64 + cont b3)%N
                    :: chars s3
              end
          end
      end
  end.

Definition of_chars (l : list N) : string :=
  foldr (λ c s, encode_char c +:+ s) EmptyString l.

(** [char::is_whitespace] (the Unicode [White_Space] property). *)
Definition char_is_whitespace (c : N) : bool :=
  (((9 <=? c) && (c <=? 13)) || (c =? 32) || (c =? 133) || (c =? 160)
   || (c =? 5760) || ((8192 <=? c) && (c <=? 8202)) || (c =? 8232)
   || (c =? 8233) || (c =? 8239) || (c =? 8287) || (c =? 12288))%N.

Fixpoint drop_while {A} (f : A → bool) (l : list A) : list A :=
  match l with
  | [] => []
  | x :: l' => if f x then drop_while f l' else l
  end.

(** [str::trim] *)
Definition trim (s : string) : string :=
  of_chars (reverse (drop_while char_is_whitespace
    (reverse (drop_while char_is_whitespace (chars s))))).

(** [s.trim().is_empty()] *)
Definition is_blank (s : string) : bool := str_is_empty (trim s).

(** * Facts about strings *)

Lemma append_String c s1 s2 : String c s1 +:+ s2 = String c (s1 +:+ s2).
Proof. done. Qed.

Lemma append_nil_l s : EmptyString +:+ s = s.
Proof. done. Qed.

Lemma append_nil_r s : s +:+ EmptyString = s.
Proof. induction s as [|c s IH]; [done|]. rewrite append_String. by rewrite IH. Qed.

Lemma append_assoc s1 s2 s3 : (s1 +:+ s2) +:+ s3 = s1 +:+ (s2 +:+ s3).
Proof.
  induction s1 as [|c s IH]; [done|]. rewrite !append_String. by rewrite IH.
Qed.

Lemma length_append s1 s2 :
  String.length (s1 +:+ s2) = String.length s1 + String.length s2.
Proof.
  induction s1 as [|c s IH]; [done|]. rewrite append_String. simpl. by rewrite IH.
Qed.

Lemma string_eqb_refl s : String.eqb s s = true.
Proof. apply String.eqb_refl. Qed.

Lemma ascii_eqb_spec a b : Ascii.eqb a b = bool_decide (a = b).
Proof.
  case_bool_decide as H; [subst; apply Ascii.eqb_refl|by apply Ascii.eqb_neq].
Qed.

Lemma string_eqb_spec a b : String.eqb a b = bool_decide (a = b).
Proof.
  case_bool_decide as H; [subst; apply String.eqb_refl|by apply String.eqb_neq].
Qed.

Lemma span_eq f s : s = (span f s).1 +:+ (span f s).2.
Proof.
  induction s as [|c s IH]; simpl; [done|].
  destruct (f c); [|done]. destruct (span f s) as [a b]; simpl in *.
  rewrite append_String. by f_equal.
Qed.

Lemma span_forallb f s : str_forallb f (span f s).1 = true.
Proof.
  induction s as [|c s IH]; simpl; [done|].
  destruct (f c) eqn:E; [|done]. destruct (span f s); simpl in *. by rewrite E.
Qed.

(** A maximal run of [f]-bytes followed by a byte outside [f] is what [span]
    returns. *)
Lemma span_app f w rest :
  str_forallb f w = true →
  match rest with EmptyString => True | String c _ => f c = false end →
  span f (w +:+ rest) = (w, rest).
Proof.
  intros Hw Hr. induction w as [|c w IH].
  - destruct rest; [done|]. rewrite append_nil_l. simpl. by rewrite Hr.
  - rewrite append_String. simpl in *.
    apply andb_true_iff in Hw as [-> Hw]. by rewrite IH.
Qed.

Lemma split_on_cons sep s : ∃ p ps, split_on sep s = p :: ps.
Proof.
  induction s as [|c s IH]; simpl; [by eauto|].
  destruct (Ascii.eqb c sep); [by eauto|].
  destruct IH as (p & ps & ->). eauto.
Qed.

Lemma split_on_nonempty sep s : split_on sep s ≠ [].
Proof. destruct (split_on_cons sep s) as (? & ? & ->). done. Qed.

Lemma join_cons2 sep p q l : join sep (p :: q :: l) = p +:+ sep +:+ join sep (q :: l).
Proof. done. Qed.

Lemma join_String sep c p ps :
  join sep (String c p :: ps) = String c (join sep (p :: ps)).
Proof. by destruct ps. Qed.

(** [split] then [join] is the identity. *)
Lemma join_split_on sep s :
  join (String sep EmptyString) (split_on sep s) = s.
Proof.
  induction s as [|c s IH]; [done|]. simpl.
  destruct (split_on_cons sep s) as (p & ps & E). rewrite E in *.
  destruct (Ascii.eqb c sep) eqn:Ec.
  - apply Ascii.eqb_eq in Ec as ->. by rewrite join_cons2, IH.
  - by rewrite join_String, IH.
Qed.

Definition str_contains (c : ascii) (s : string) : bool :=
  negb (str_forallb (λ b, negb (Ascii.eqb b c)) s).

Lemma str_contains_cons c b s :
  str_contains c (String b s) = Ascii.eqb b c || str_contains c s.
Proof. unfold str_contains. simpl. by destruct (Ascii.eqb b c). Qed.

Lemma split_on_no_sep sep s :
  str_contains sep s = false → split_on sep s = [s].
Proof.
  induction s as [|c s IH]; [done|]. rewrite str_contains_cons; simpl.
  intros [-> Hs]%orb_false_iff. by rewrite IH.
Qed.

Lemma split_on_app sep p s :
  str_contains sep p = false →
  split_on sep (p +:+ String sep s) = p :: split_on sep s.
Proof.
  induction p as [|c p IH].
  - rewrite append_nil_l. simpl. by rewrite Ascii.eqb_refl.
  - rewrite str_contains_cons, append_String. simpl. intros [-> Hp]%orb_false_iff. by rewrite IH.
Qed.

(** [join] then [split] is the identity on separator-free pieces. *)
Lemma split_on_join sep l :
  l ≠ [] → Forall (λ p, str_contains sep p = false) l →
  split_on sep (join (String sep EmptyString) l) = l.
Proof.
  intros Hl H. induction H as [|p l Hp Hfl IH]; [done|].
  destruct l as [|q l]; [by apply split_on_no_sep|].
  rewrite join_cons2, append_String, append_nil_l.
  by rewrite split_on_app, IH.
Qed.

Lemma split_on_pieces sep s :
  Forall (λ p, str_contains sep p = false) (split_on sep s).
Proof.
  induction s as [|c s IH]; simpl; [by repeat constructor|].
  destruct (Ascii.eqb c sep) eqn:E; [by constructor|].
  destruct (split_on sep s) as [|p ps].
  - repeat constructor. by rewrite str_contains_cons, E.
  - inversion IH; subst. constructor; [|done]. by rewrite str_contains_cons, E.
Qed.

Lemma str_forallb_app f s1 s2 :
  str_forallb f (s1 +:+ s2) = str_forallb f s1 && str_forallb f s2.
Proof.
  induction s1 as [|c s1 IH]; [done|]. rewrite append_String. simpl. by rewrite IH, andb_assoc.
Qed.

Lemma strip_prefix_app p s : strip_prefix p (p +:+ s) = Some s.
Proof.
  induction p as [|c p IH]; [done|]. rewrite append_String. simpl. by rewrite Ascii.eqb_refl.
Qed.

(** * Reachability *)

(** An invariant preserved by every step holds in every reachable state. *)
Lemma rtc_invariant {A} (R : relation A) (I : A → Prop) x y :
  (∀ x y, R x y → I x → I y) → I x → rtc R x y → I y.
Proof. intros Hstep Hx H. induction H; eauto. Qed.
