(* ===== verification/F64.v ===== *)
(** IEEE-754 binary64 as the sources use it: the comparison operators of [f64]
    and [str::parse::<f64>] (correctly rounded decimal input), on the
    executable floats of the Standard Library's [SpecFloat]. *)

From Stdlib Require Import SpecFloat ZArith.
From S2P Require Import Prelude.

(** ** The type and its comparisons *)

Definition f64 : Set := spec_float.

Definition prec : Z := 53.
Definition emax : Z := 1024.

(** [==], [<], [<=], [>], [>=] of [f64]: false whenever an operand is NaN
    ([!=] is the negation of [==]). *)
Definition f64_eq (a b : f64) : bool := SFeqb a b.
Definition f64_lt (a b : f64) : bool := SFltb a b.
Definition f64_le (a b : f64) : bool := SFleb a b.
Definition f64_gt (a b : f64) : bool := SFltb b a.
Definition f64_ge (a b : f64) : bool := SFleb b a.

Definition is_nan (a : f64) : bool :=
  match a with S754_nan => true | _ => false end.

(** ** Decimal input *)

Definition digit_value (c : ascii) : Z := Z.of_N (byte_code c) - 48.

(** The value of a digit string, most significant digit first. *)
Fixpoint digits_value_acc (acc : Z) (s : string) : Z :=
  match s with
  | EmptyString => acc
  | String c s' => digits_value_acc (10 * acc + digit_value c) s'
  end.

Definition digits_value : string → Z := digits_value_acc 0.

(** [m * 10^e] with sign [neg], rounded to nearest even. *)
Definition decimal_to_f64 (neg : bool) (m e : Z) : f64 :=
  match m with
  | Zpos p =>
      if (0 <=? e)%Z then binary_normalize prec emax
                            ((if neg then -1 else 1) * (m * 10 ^ e)) 0 neg
      else match (10 ^ (- e))%Z with
           | Zpos q =>
               let '(mz, ez, lz) :=
                 SFdiv_core_binary prec emax (Zpos p) 0 (Zpos q) 0 in
               binary_round_aux prec emax neg mz ez lz
           | _ => S754_nan
           end
  | _ => S754_zero neg
  end.

(** A leading sign, if there is one. *)
Definition take_sign (s : string) : bool * string :=
  match s with
  | String "-" s' => (true, s')
  | String "+" s' => (false, s')
  | _ => (false, s)
  end.

(** [Exp?] of the grammar of [f64::from_str]: nothing, or [e]/[E], an optional
    sign and at least one digit, up to the end of the text. *)
Definition parse_exponent (s : string) : option Z :=
  match s with
  | EmptyString => Some 0%Z
  | String ("e" | "E") s' =>
      let '(neg, ds) := take_sign s' in
      if str_is_empty ds then None
      else if str_forallb is_ascii_digit ds
      then Some (if neg then - digits_value ds else digits_value ds)%Z
      else None
  | _ => None
  end.

(** [str::parse::<f64>] on the finite part of its grammar,
    [[sign] (Digit+ | Digit+ '.' Digit* | Digit* '.' Digit+) Exp?]. The words
    [inf], [infinity] and [nan] it also accepts start with a letter after the
    sign, which no caller in the sources passes. *)
Definition parse_f64 (s : string) : option f64 :=
  let '(neg, s1) := take_sign s in
  let '(int, s2) := span is_ascii_digit s1 in
  let '(frac, s3) :=
    match s2 with
    | String "." s2' => span is_ascii_digit s2'
    | _ => (EmptyString, s2)
    end in
  if str_is_empty int && str_is_empty frac then None
  else match parse_exponent s3 with
       | None => None
       | Some e =>
           Some (decimal_to_f64 neg (digits_value (int +:+ frac))
                   (e - Z.of_nat (String.length frac)))
       end.

Example parse_f64_int : parse_f64 "50" = Some (S754_finite false 7036874417766400 (-47)).
Proof. vm_compute. reflexivity. Qed.
Example parse_f64_tenth :
  parse_f64 "0.1" = Some (S754_finite false 7205759403792794 (-56)).
Proof. vm_compute. reflexivity. Qed.
Example parse_f64_third : parse_f64 "-1.5e3" = parse_f64 "-1500".
Proof. vm_compute. reflexivity. Qed.
Example parse_f64_overflow : parse_f64 "1e400" = Some (S754_infinity false).
Proof. vm_compute. reflexivity. Qed.
Example parse_f64_subnormal :
  parse_f64 "4.9e-324" = Some (S754_finite false 1 (-1074)).
Proof. vm_compute. reflexivity. Qed.
Example parse_f64_two_dots : parse_f64 "1.2.3" = None.
Proof. vm_compute. reflexivity. Qed.

(** ** Order facts *)

Lemma f64_eq_refl a : is_nan a = false → f64_eq a a = true.
Proof.
  unfold f64_eq, SFeqb, SFcompare. destruct a as [|s| |s m e]; try done.
  - by destruct s.
  - destruct s; rewrite Z.compare_refl, Pos.compare_cont_refl; done.
Qed.
