(* ===== verification/Json.v ===== *)
(** [serde_json::Value] as the sources use it. The crate is built without
    [preserve_order], so an object is a [BTreeMap<String, Value>]: an
    association list in strictly increasing key order. The number type of
    [serde_json] is a parameter, through the class [SerdeNumber]. *)

From S2P Require Import Prelude F64.

(** ** Numbers: what the sources call on [serde_json::Number] *)

Class SerdeNumber (num : Type) := {
  num_as_f64 : num → option f64;      (** [Number::as_f64] *)
  num_as_u64 : num → option N;        (** [Number::as_u64] *)
  num_of_u64 : N → num;               (** [Number::from(u64)] *)
  num_eqb : num → num → bool;         (** [PartialEq]; coarser than identity,
                                          as the two float zeros are equal *)
}.

(** [Number] implements [Eq]: its equality is an equivalence. *)
Class SerdeNumberLaws (num : Type) `{!SerdeNumber num} : Prop :=
  num_eqb_equiv :: Equivalence (λ a b : num, num_eqb a b = true).

Scheme All for list.
Scheme All for prod.

Inductive json (num : Type) : Type :=
| JNull
| JBool (b : bool)
| JNumber (n : num)
| JString (s : string)
| JArray (l : list (json num))
| JObject (m : list (string * json num)).
Arguments JNull {num}.
Arguments JBool {num} b.
Arguments JNumber {num} n.
Arguments JString {num} s.
Arguments JArray {num} l.
Arguments JObject {num} m.

(** ** [BTreeMap<String, V>] *)

Section btreemap.
  Context {V : Type}.
  Implicit Types (m : list (string * V)) (k : string).

(** [BTreeMap::get] *)
Fixpoint map_get k m : option V :=
  match m with
  | [] => None
  | (k', v) :: m' => if decide (k = k') then Some v else map_get k m'
  end.

(** [BTreeMap::insert]: replaces the value of an existing key in place. *)
Fixpoint map_insert k (v : V) m : list (string * V) :=
  match m with
  | [] => [(k, v)]
  | (k', v') :: m' =>
      match String.compare k k' with
      | Lt => (k, v) :: m
      | Eq => (k, v) :: m'
      | Gt => (k', v') :: map_insert k v m'
      end
  end.

(** [BTreeMap::remove] *)
Fixpoint map_remove k m : list (string * V) :=
  match m with
  | [] => []
  | (k', v) :: m' =>
      if decide (k = k') then map_remove k m' else (k', v) :: map_remove k m'
  end.

(** The representation invariant: keys strictly increasing. *)
Fixpoint map_sorted m : Prop :=
  match m with
  | [] => True
  | (k, _) :: m' => Forall (λ kv, String.compare k kv.1 = Lt) m' ∧ map_sorted m'
  end.

Lemma ascii_compare_refl a : Ascii.compare a a = Eq.
Proof. unfold Ascii.compare. apply N.compare_refl. Qed.

Lemma string_compare_refl k : String.compare k k = Eq.
Proof. induction k as [|c k IH]; simpl; [done|]. by rewrite ascii_compare_refl. Qed.

Lemma ascii_compare_trans_lt a b c :
  Ascii.compare a b = Lt → Ascii.compare b c = Lt → Ascii.compare a c = Lt.
Proof. unfold Ascii.compare. rewrite !N.compare_lt_iff. lia. Qed.

Lemma ascii_compare_eq a b : Ascii.compare a b = Eq → a = b.
Proof. unfold Ascii.compare. rewrite N.compare_eq_iff.
  intros H. by rewrite <- (ascii_N_embedding a), <- (ascii_N_embedding b), H.
Qed.

Lemma string_compare_trans_lt k1 k2 k3 :
  String.compare k1 k2 = Lt → String.compare k2 k3 = Lt →
  String.compare k1 k3 = Lt.
Proof.
  revert k2 k3. induction k1 as [|a k1 IH]; intros [|b k2] [|c k3]; simpl; try done.
  destruct (Ascii.compare a b) eqn:Eab; [|intros _|done].
  - apply ascii_compare_eq in Eab as ->. intros H12.
    destruct (Ascii.compare b c); eauto.
  - destruct (Ascii.compare b c) eqn:Ebc; [|intros _|done].
    + apply ascii_compare_eq in Ebc as ->. by rewrite Eab.
    + by rewrite (ascii_compare_trans_lt _ _ _ Eab Ebc).
Qed.

Lemma string_compare_gt_lt k1 k2 :
  String.compare k1 k2 = Gt → String.compare k2 k1 = Lt.
Proof. intros H. by rewrite String.compare_antisym, H. Qed.

Lemma map_get_insert_eq k v m : map_get k (map_insert k v m) = Some v.
Proof.
  induction m as [|[k' v'] m IH]; simpl; [by rewrite decide_True|].
  destruct (String.compare k k') eqn:E; simpl; [by rewrite decide_True..|].
  rewrite decide_False; [done|]. intros ->. by rewrite string_compare_refl in E.
Qed.

Lemma map_get_insert_ne k k' v m :
  k ≠ k' → map_get k (map_insert k' v m) = map_get k m.
Proof.
  intros Hne. induction m as [|[k2 v2] m IH]; simpl; [by rewrite decide_False|].
  destruct (String.compare k' k2) eqn:E; simpl; rewrite ?(decide_False (P:=k = k')) by done.
  - apply String.compare_eq_iff in E as ->. by rewrite decide_False.
  - done.
  - by case_decide.
Qed.

Lemma map_get_insert k k' v m :
  map_get k (map_insert k' v m) = if decide (k = k') then Some v else map_get k m.
Proof.
  case_decide; subst; auto using map_get_insert_eq, map_get_insert_ne.
Qed.

Lemma map_insert_forall (P : string * V → Prop) k v m :
  P (k, v) → Forall P m → Forall P (map_insert k v m).
Proof.
  intros Hk. induction 1 as [|[k' v'] m Hk' Hm IH]; simpl; [by repeat constructor|].
  destruct (String.compare k k'); auto.
Qed.

Lemma map_insert_sorted k v m : map_sorted m → map_sorted (map_insert k v m).
Proof.
  induction m as [|[k' v'] m IH]; simpl; [by repeat constructor|]. intros [Hk Hm].
  destruct (String.compare k k') eqn:E; simpl.
  - apply String.compare_eq_iff in E as ->. done.
  - split; [|done]. constructor; [done|].
    eapply Forall_impl; [exact Hk|]. simpl.
    intros. by eapply string_compare_trans_lt.
  - split; [|auto]. apply map_insert_forall; [by apply string_compare_gt_lt|done].
Qed.

(** Writing back the value a key already has changes nothing. *)
Lemma map_insert_id k v m :
  map_sorted m → map_get k m = Some v → map_insert k v m = m.
Proof.
  induction m as [|[k' v'] m IH]; simpl; [done|]. intros [Hk Hm].
  case_decide as E; intros Hget; simplify_eq.
  - by rewrite string_compare_refl.
  - destruct (String.compare k k') eqn:E'.
    + by apply String.compare_eq_iff in E' as ->.
    + assert (map_get k m ≠ Some v); [|done].
      clear IH Hget. induction Hk as [|[k2 v2] m H2 Hk' IH]; simpl in *; [done|].
      rewrite decide_False; [by apply IH, Hm|]. intros ->.
      apply string_compare_trans_lt with (k3 := k2) in E'; [|done].
      by rewrite string_compare_refl in E'.
    + by rewrite IH.
Qed.

Lemma map_get_In k v m : map_get k m = Some v → (k, v) ∈ m.
Proof.
  induction m as [|[k' v'] m IH]; simpl; [done|].
  case_decide; intros; simplify_eq; rewrite elem_of_cons; auto.
Qed.

Lemma map_get_remove k k' m :
  map_get k (map_remove k' m) = if decide (k = k') then None else map_get k m.
Proof.
  induction m as [|[k2 v2] m IH]; simpl; [by case_decide|].
  repeat (case_decide; simpl); naive_solver.
Qed.
End btreemap.

#[export] Hint Resolve map_insert_sorted : boardwalk.

(** ** Well-formed documents *)

Section json.
  Context {num : Type}.

(** Every object of the document satisfies the [BTreeMap] invariant. *)
Fixpoint json_wf (j : json num) : Prop :=
  match j with
  | JArray l =>
      (fix go l := match l with [] => True | x :: l' => json_wf x ∧ go l' end) l
  | JObject m =>
      map_sorted m ∧
      (fix go m := match m with [] => True | (_, x) :: m' => json_wf x ∧ go m' end) m
  | _ => True
  end.

Lemma json_wf_object (m : list (string * json num)) :
  json_wf (JObject m) ↔ map_sorted m ∧ Forall (λ kv, json_wf kv.2) m.
Proof.
  simpl. apply and_iff_compat_l.
  induction m as [|[k x] m IH]; [done|].
  by rewrite Forall_cons, <- IH.
Qed.

Lemma json_wf_get k (m : list (string * json num)) v :
  json_wf (JObject m) → map_get k m = Some v → json_wf v.
Proof.
  rewrite json_wf_object, Forall_forall. intros [_ H] Hg%map_get_In.
  by apply H in Hg.
Qed.

Definition is_object (j : json num) : bool :=
  match j with JObject _ => true | _ => false end.

(** [Value]'s [PartialEq]. *)
Fixpoint json_eqb `{!SerdeNumber num} (a b : json num) : bool :=
  match a, b with
  | JNull, JNull => true
  | JBool x, JBool y => Bool.eqb x y
  | JNumber x, JNumber y => num_eqb x y
  | JString x, JString y => String.eqb x y
  | JArray l, JArray l' =>
      (fix go l l' :=
         match l, l' with
         | [], [] => true
         | x :: l, y :: l' => json_eqb x y && go l l'
         | _, _ => false
         end) l l'
  | JObject m, JObject m' =>
      (fix go m m' :=
         match m, m' with
         | [], [] => true
         | (k, x) :: m, (k', y) :: m' => String.eqb k k' && json_eqb x y && go m m'
         | _, _ => false
         end) m m'
  | _, _ => false
  end.
End json.

Section json_ind.
  Context {num : Type} (P : json num → Prop).
  Hypothesis HNull : P JNull.
  Hypothesis HBool : ∀ b, P (JBool b).
  Hypothesis HNumber : ∀ n, P (JNumber n).
  Hypothesis HString : ∀ s, P (JString s).
  Hypothesis HArray : ∀ l, Forall P l → P (JArray l).
  Hypothesis HObject : ∀ m, Forall (λ kv, P kv.2) m → P (JObject m).

Fixpoint json_nested_ind (j : json num) : P j :=
  match j with
  | JNull => HNull
  | JBool b => HBool b
  | JNumber n => HNumber n
  | JString s => HString s
  | JArray l =>
      HArray l ((fix go l : Forall P l :=
        match l with
        | [] => Forall_nil_2 _
        | x :: l' => Forall_cons_2 _ _ _ (json_nested_ind x) (go l')
        end) l)
  | JObject m =>
      HObject m ((fix go m : Forall (λ kv, P kv.2) m :=
        match m with
        | [] => Forall_nil_2 _
        | (k, x) :: m' => Forall_cons_2 _ (k, x) _ (json_nested_ind x) (go m')
        end) m)
  end.
End json_ind.

Section json_equiv.
  Context {num : Type} `{!SerdeNumber num, !SerdeNumberLaws num}.

(** Equality of documents as [==] sees it. *)
Definition json_equiv (a b : json num) : Prop := json_eqb a b = true.

Lemma json_eqb_refl a : json_equiv a a.
Proof.
  unfold json_equiv.
  induction a as [|b|n|s|l IH|m IH] using json_nested_ind; simpl; try done.
  - apply Bool.eqb_reflx.
  - apply num_eqb_equiv.
  - apply String.eqb_refl.
  - induction IH as [|x l Hx _ IHl]; [done|]. by rewrite Hx.
  - induction IH as [|[k x] m Hx _ IHl]; [done|].
    simpl in Hx. by rewrite String.eqb_refl, Hx.
Qed.

Lemma json_eqb_sym a b : json_equiv a b → json_equiv b a.
Proof.
  unfold json_equiv. revert b.
  induction a as [|x|n|s|l IH|m IH] using json_nested_ind; intros b; destruct b; simpl; try done.
  - intros ->%Bool.eqb_prop. apply Bool.eqb_reflx.
  - intros H. by apply num_eqb_equiv in H.
  - by rewrite String.eqb_sym.
  - revert l0. induction IH as [|x l Hx _ IHl]; intros [|y l']; try done.
    intros [Hxy ?]%andb_true_iff. rewrite Hx by done. simpl. auto.
  - revert m0. induction IH as [|[k x] m Hx _ IHl]; intros [|[k' y] m']; try done.
    rewrite !andb_true_iff. intros [[Hk Hxy] ?]. simpl in Hx.
    rewrite String.eqb_sym, Hk, Hx by done. auto.
Qed.

Lemma json_eqb_trans a b c : json_equiv a b → json_equiv b c → json_equiv a c.
Proof.
  unfold json_equiv. revert b c.
  induction a as [|x|n|s|l IH|m IH] using json_nested_ind;
    intros b c; destruct b, c; simpl; try done.
  - by intros ->%Bool.eqb_prop.
  - intros H1 H2. by apply (transitivity (R := λ a b, num_eqb a b = true) H1 H2).
  - by intros ->%String.eqb_eq.
  - revert l0 l1. induction IH as [|x l Hx _ IHl]; intros [|y l1] [|z l2]; try done.
    rewrite !andb_true_iff. intros [??] [??]. split; [eauto|]. by eapply IHl.
  - revert m0 m1. induction IH as [|[k x] m Hx _ IHl]; intros [|[k1 y] m1] [|[k2 z] m2]; try done.
    rewrite !andb_true_iff, !String.eqb_eq. simpl in Hx.
    intros [[-> ?] ?] [[-> ?] ?]. split; [split; [done|eauto]|]. by eapply IHl.
Qed.

#[export] Instance json_equiv_equivalence : Equivalence json_equiv.
Proof.
  split; [exact json_eqb_refl|exact json_eqb_sym|exact json_eqb_trans].
Qed.
End json_equiv.

(** ** A concrete number type

    Non-negative integers, negative integers and finite floats, as
    [serde_json] documents its default representation. It instantiates the
    class for closed examples. *)
Module ConcreteNumber.

Inductive number :=
| PosInt (n : N)
| NegInt (n : positive)
| Float (x : f64).

#[export] Instance f64_eq_dec : EqDecision f64.
Proof. unfold f64, EqDecision, Decision. decide equality; repeat decide equality. Defined.
#[export] Instance number_eq_dec : EqDecision number.
Proof. solve_decision. Defined.

(** The two zeros are equal. *)
Definition canonical (n : number) : number :=
  match n with
  | Float (SpecFloat.S754_zero _) => Float (SpecFloat.S754_zero false)
  | _ => n
  end.

#[export] Instance serde_number : SerdeNumber number := {|
  num_as_f64 := λ n, Some
    match n with
    | PosInt n => decimal_to_f64 false (Z.of_N n) 0
    | NegInt p => decimal_to_f64 true (Zpos p) 0
    | Float x => x
    end;
  num_as_u64 := λ n, match n with PosInt n => Some n | _ => None end;
  num_of_u64 := PosInt;
  num_eqb := λ a b, bool_decide (canonical a = canonical b);
|}.

#[export] Instance serde_number_laws : SerdeNumberLaws number.
Proof.
  split; intros x; simpl; intros; rewrite ?bool_decide_eq_true in *; congruence.
Qed.
End ConcreteNumber.
