(* ===== verification/Query.v ===== *)
(** The query AST ([query/ast.rs]) and its evaluator ([query/eval.rs]):
    field paths, predicates, [matches] and [project], with a declarative
    semantics of predicates and globs that the evaluator is proved to decide. *)

From S2P Require Import Prelude F64 Json.

(** ** AST *)

(** [FieldPath(Vec<String>)] *)
Definition FieldPath : Type := list string.

Inductive Projection :=
| All
| Fields (paths : list FieldPath).

Inductive ComparisonOp := OpEq | OpNe | OpLt | OpLe | OpGt | OpGe | OpLike | OpInSet.

Inductive Literal :=
| LString (s : string)
| LNumber (n : f64)
| LBool (b : bool)
| LNull
| LArray (l : list Literal).

Inductive Predicate :=
| PTrue
| PFalse
| PAnd (items : list Predicate)
| POr (items : list Predicate)
| PNot (inner : Predicate)
| PCompare (left : FieldPath) (op : ComparisonOp) (right : Literal)
| PContains (path : FieldPath) (value : Literal)
| PExists (path : FieldPath).

Record Query := mk_query { projection : Projection; predicate : Predicate }.

(** [#[derive(Default)]] *)
Definition query_default : Query := mk_query All PTrue.

Inductive QueryScope :=
| Local
| Peer (name : string)
| Federation (peers : list string) (include_local : bool).

Inductive QueryError :=
| EParse (offset : nat) (message : string)
| EInvalidPath (message : string)
| EUnknown (message : string)
| EEval (message : string).

#[export] Instance comparison_op_eq_dec : EqDecision ComparisonOp.
Proof. solve_decision. Defined.
#[export] Instance query_error_eq_dec : EqDecision QueryError.
Proof. solve_decision. Defined.

(** Induction over predicates through the vectors of [And] and [Or]. *)
Section predicate_ind.
  Variable P : Predicate → Prop.
  Hypothesis HTrue : P PTrue.
  Hypothesis HFalse : P PFalse.
  Hypothesis HAnd : ∀ items, Forall P items → P (PAnd items).
  Hypothesis HOr : ∀ items, Forall P items → P (POr items).
  Hypothesis HNot : ∀ p, P p → P (PNot p).
  Hypothesis HCompare : ∀ l op r, P (PCompare l op r).
  Hypothesis HContains : ∀ p v, P (PContains p v).
  Hypothesis HExists : ∀ p, P (PExists p).

Fixpoint predicate_nested_ind (p : Predicate) : P p :=
  let go := fix go l : Forall P l :=
    match l with
    | [] => Forall_nil_2 _
    | x :: l' => Forall_cons_2 _ _ _ (predicate_nested_ind x) (go l')
    end in
  match p with
  | PTrue => HTrue
  | PFalse => HFalse
  | PAnd items => HAnd items (go items)
  | POr items => HOr items (go items)
  | PNot q => HNot q (predicate_nested_ind q)
  | PCompare l op r => HCompare l op r
  | PContains q v => HContains q v
  | PExists q => HExists q
  end.
End predicate_ind.

Section literal_ind.
  Variable P : Literal → Prop.
  Hypothesis HString : ∀ s, P (LString s).
  Hypothesis HNumber : ∀ n, P (LNumber n).
  Hypothesis HBool : ∀ b, P (LBool b).
  Hypothesis HNull : P LNull.
  Hypothesis HArray : ∀ l, Forall P l → P (LArray l).

Fixpoint literal_nested_ind (v : Literal) : P v :=
  match v with
  | LString s => HString s
  | LNumber n => HNumber n
  | LBool b => HBool b
  | LNull => HNull
  | LArray l =>
      HArray l ((fix go l : Forall P l :=
        match l with
        | [] => Forall_nil_2 _
        | x :: l' => Forall_cons_2 _ _ _ (literal_nested_ind x) (go l')
        end) l)
  end.
End literal_ind.

(** ** Field paths *)

(** [FieldPath::try_parse] *)
Definition try_parse (s : string) : result QueryError FieldPath :=
  if str_is_empty s then Err (EInvalidPath "empty path")
  else
    let segs := split_on "." s in
    if existsb str_is_empty segs
    then Err (EInvalidPath ("empty segment in `" +:+ s +:+ "`"))
    else Ok segs.

Section eval.
  Context {num : Type} `{!SerdeNumber num}.
  Abbreviation json := (json num).
  Implicit Types (t v j : json) (p q : FieldPath).

(** [FieldPath::extract] *)
Fixpoint extract p t : option json :=
  match p with
  | [] => Some t
  | seg :: p' =>
      match t with
      | JObject m =>
          match map_get seg m with
          | None => None
          | Some v => extract p' v
          end
      | _ => None
      end
  end.

(** ** Evaluation *)

(** [lookup] of [eval.rs]: the same walk, on the public [segments()]. *)
Fixpoint lookup p t : option json :=
  match p with
  | [] => Some t
  | seg :: p' =>
      match t with
      | JObject m =>
          match map_get seg m with
          | None => None
          | Some v => lookup p' v
          end
      | _ => None
      end
  end.

Definition json_eq j (c : Literal) : bool :=
  match j, c with
  | JString a, LString b => String.eqb a b
  | JNumber a, LNumber b =>
      match num_as_f64 a with Some x => f64_eq x b | None => false end
  | JBool a, LBool b => Bool.eqb a b
  | JNull, LNull => true
  | _, _ => false
  end.

Definition literal_is_null (c : Literal) : bool :=
  match c with LNull => true | _ => false end.
End eval.

(** The local function [helper] of [glob_match], on the decoded characters;
    [42] is '*' and [63] is '?'. *)
Fixpoint glob_helper (p : list N) : list N → bool :=
  match p with
  | [] => λ s, match s with [] => true | _ => false end
  | pc :: p' =>
      fix inner (s : list N) : bool :=
        if (pc =? 42)%N then
          if glob_helper p' s then true
          else match s with [] => false | _ :: s' => inner s' end
        else match s with
             | [] => false
             | sc :: s' =>
                 if (pc =? 63)%N then glob_helper p' s'
                 else if (pc =? sc)%N then glob_helper p' s'
                 else false
             end
  end.

Definition glob_match (pat s : string) : bool :=
  glob_helper (chars pat) (chars s).

Section eval2.
  Context {num : Type} `{!SerdeNumber num}.
  Abbreviation json := (json num).
  Implicit Types (t v j : json) (p q : FieldPath).

(** The two inner [match op] of [compare]; the [unreachable!] arm is [None]. *)
Definition compare_f64 (op : ComparisonOp) (l r : f64) : option bool :=
  match op with
  | OpLt => Some (f64_lt l r)
  | OpLe => Some (f64_le l r)
  | OpGt => Some (f64_gt l r)
  | OpGe => Some (f64_ge l r)
  | _ => None
  end.

Definition compare_str (op : ComparisonOp) (l r : string) : option bool :=
  match op with
  | OpLt => Some (String.ltb l r)
  | OpLe => Some (String.leb l r)
  | OpGt => Some (String.ltb r l)
  | OpGe => Some (String.leb r l)
  | _ => None
  end.

(** [compare]; [None] is a panic. *)
Definition compare (op : ComparisonOp) (got : option json) (rhs : Literal)
    : option bool :=
  match op with
  | OpEq =>
      Some match got with
           | Some v => json_eq v rhs
           | None => literal_is_null rhs
           end
  | OpNe =>
      Some match got with
           | Some v => negb (json_eq v rhs)
           | None => negb (literal_is_null rhs)
           end
  | OpLt | OpLe | OpGt | OpGe =>
      match got, rhs with
      | Some (JNumber n), LNumber r =>
          match num_as_f64 n with
          | Some l => compare_f64 op l r
          | None => Some false
          end
      | Some (JString s), LString r => compare_str op s r
      | _, _ => Some false
      end
  | OpLike =>
      match got, rhs with
      | Some (JString s), LString pat => Some (glob_match pat s)
      | _, _ => Some false
      end
  | OpInSet =>
      match rhs with
      | LArray items =>
          match got with
          | Some g => Some (existsb (λ i, json_eq g i) items)
          | None => Some false
          end
      | _ => Some false
      end
  end.

(** What evaluating a predicate can do: return, or panic. *)
Inductive eval_outcome := Returned (r : result QueryError bool) | Panicked.

(** [eval_pred]; the two loops stop at the first item that decides. *)
Fixpoint eval_pred (p : Predicate) t : eval_outcome :=
  match p with
  | PTrue => Returned (Ok true)
  | PFalse => Returned (Ok false)
  | PAnd items =>
      (fix go l :=
         match l with
         | [] => Returned (Ok true)
         | i :: l' =>
             match eval_pred i t with
             | Returned (Ok b) => if negb b then Returned (Ok false) else go l'
             | r => r
             end
         end) items
  | POr items =>
      (fix go l :=
         match l with
         | [] => Returned (Ok false)
         | i :: l' =>
             match eval_pred i t with
             | Returned (Ok b) => if b then Returned (Ok true) else go l'
             | r => r
             end
         end) items
  | PNot inner =>
      match eval_pred inner t with
      | Returned (Ok b) => Returned (Ok (negb b))
      | r => r
      end
  | PCompare l op r =>
      match compare op (lookup l t) r with
      | Some b => Returned (Ok b)
      | None => Panicked
      end
  | PContains path value =>
      match lookup path t with
      | Some (JArray items) => Returned (Ok (existsb (λ i, json_eq i value) items))
      | _ => Returned (Ok false)
      end
  | PExists path =>
      Returned (Ok match lookup path t with Some _ => true | None => false end)
  end.

Definition matches (q : Query) t : eval_outcome := eval_pred (predicate q) t.

(** [insert_path] on the map [out]. *)
Fixpoint insert_path (out : list (string * json)) (segs : list string) (value : json)
    : list (string * json) :=
  match segs with
  | [] => out
  | [k] => map_insert k value out
  | k :: segs' =>
      match map_get k out with
      | None => map_insert k (JObject (insert_path [] segs' value)) out
      | Some (JObject m) => map_insert k (JObject (insert_path m segs' value)) out
      | Some _ => out
      end
  end.

Definition project_step t (out : list (string * json)) (p : FieldPath) :=
  match lookup p t with
  | Some v => insert_path out p v
  | None => out
  end.

Definition project (q : Query) t : json :=
  match projection q with
  | All => t
  | Fields paths => JObject (foldl (project_step t) [] paths)
  end.
End eval2.

(** ** Declarative semantics *)

(** What a glob pattern means: '*' stands for any run of characters, '?' for
    exactly one, every other character for itself. *)
Inductive glob : list N → list N → Prop :=
| glob_nil : glob [] []
| glob_star p run s : glob p s → glob (42%N :: p) (run ++ s)
| glob_any p c s : glob p s → glob (63%N :: p) (c :: s)
| glob_char p c s : c ≠ 42%N → c ≠ 63%N → glob p s → glob (c :: p) (c :: s).

Section semantics.
  Context {num : Type} `{!SerdeNumber num}.
  Abbreviation json := (json num).
  Implicit Types (t v j : json) (p q : FieldPath).

(** The value a path denotes. *)
Inductive resolves : FieldPath → json → json → Prop :=
| resolves_here t : resolves [] t t
| resolves_field k p m v w :
    map_get k m = Some v → resolves p v w → resolves (k :: p) (JObject m) w.

(** Equality of a document value and a literal; arrays and objects are equal
    to no literal. *)
Inductive lit_eq : json → Literal → Prop :=
| lit_eq_string s : lit_eq (JString s) (LString s)
| lit_eq_number n x y :
    num_as_f64 n = Some x → f64_eq x y = true → lit_eq (JNumber n) (LNumber y)
| lit_eq_bool b : lit_eq (JBool b) (LBool b)
| lit_eq_null : lit_eq JNull LNull.

(** The order comparisons, between two numbers or two strings only. *)
Inductive ordered : ComparisonOp → json → Literal → Prop :=
| ordered_num_lt n x y : num_as_f64 n = Some x → f64_lt x y = true →
    ordered OpLt (JNumber n) (LNumber y)
| ordered_num_le n x y : num_as_f64 n = Some x → f64_le x y = true →
    ordered OpLe (JNumber n) (LNumber y)
| ordered_num_gt n x y : num_as_f64 n = Some x → f64_lt y x = true →
    ordered OpGt (JNumber n) (LNumber y)
| ordered_num_ge n x y : num_as_f64 n = Some x → f64_le y x = true →
    ordered OpGe (JNumber n) (LNumber y)
| ordered_str_lt a b : String.compare a b = Lt → ordered OpLt (JString a) (LString b)
| ordered_str_le a b : String.compare a b ≠ Gt → ordered OpLe (JString a) (LString b)
| ordered_str_gt a b : String.compare b a = Lt → ordered OpGt (JString a) (LString b)
| ordered_str_ge a b : String.compare b a ≠ Gt → ordered OpGe (JString a) (LString b).

(** [path op literal]. A missing field equals [null] and nothing else, and
    satisfies no other comparison. *)
Definition compare_sat (op : ComparisonOp) (p : FieldPath) (r : Literal) t : Prop :=
  match op with
  | OpEq => (∃ v, resolves p t v ∧ lit_eq v r) ∨
            ((∀ v, ¬ resolves p t v) ∧ r = LNull)
  | OpNe => (∃ v, resolves p t v ∧ ¬ lit_eq v r) ∨
            ((∀ v, ¬ resolves p t v) ∧ r ≠ LNull)
  | OpLt | OpLe | OpGt | OpGe => ∃ v, resolves p t v ∧ ordered op v r
  | OpLike => ∃ s pat, resolves p t (JString s) ∧ r = LString pat ∧
                glob (chars pat) (chars s)
  | OpInSet => ∃ v l i, resolves p t v ∧ r = LArray l ∧ i ∈ l ∧ lit_eq v i
  end.

Fixpoint sat (p : Predicate) t : Prop :=
  match p with
  | PTrue => True
  | PFalse => False
  | PAnd items =>
      (fix go l := match l with [] => True | i :: l' => sat i t ∧ go l' end) items
  | POr items =>
      (fix go l := match l with [] => False | i :: l' => sat i t ∨ go l' end) items
  | PNot inner => ¬ sat inner t
  | PCompare l op r => compare_sat op l r t
  | PContains path value =>
      ∃ l i, resolves path t (JArray l) ∧ i ∈ l ∧ lit_eq i value
  | PExists path => ∃ v, resolves path t v
  end.
End semantics.

(** ** Facts *)

Lemma glob_helper_spec p s : glob_helper p s = true ↔ glob p s.
Proof.
  revert s. induction p as [|pc p IH]; intros s; simpl.
  { destruct s; split; intros H; try done; [constructor|inversion H]. }
  induction s as [|sc s IHs]; simpl; destruct (N.eqb_spec pc 42) as [->|Hs].
  - destruct (glob_helper p []) eqn:E; split; intros H; try done.
    + apply (glob_star p []). by apply IH.
    + inversion H as [|? run s' Hg Hp Hrun| |]; simplify_eq.
      apply app_eq_nil in Hrun as [-> ->]. apply IH in Hg. congruence.
  - split; [done|]. intros H; inversion H; simplify_eq.
  - destruct (glob_helper p (sc :: s)) eqn:E.
    + split; [|done]. intros _. apply (glob_star p []). by apply IH.
    + rewrite IHs. split; intros H.
      * inversion H; simplify_eq. by apply (glob_star p (sc :: run)).
      * inversion H as [|? run s' Hg Hp Hrun| |]; simplify_eq.
        destruct run as [|c run]; simplify_eq/=; [|by constructor].
        apply IH in Hg. congruence.
  - destruct (N.eqb_spec pc 63) as [->|Ha]; [|destruct (N.eqb_spec pc sc) as [->|Hc]].
    + rewrite IH. split; intros H; [by constructor|by inversion H; simplify_eq].
    + rewrite IH. split; intros H; [by constructor|by inversion H; simplify_eq].
    + split; [done|]. intros H; inversion H; simplify_eq.
Qed.

Section facts.
  Context {num : Type} `{!SerdeNumber num}.
  Abbreviation json := (json num).
  Implicit Types (t v j : json) (p q : FieldPath).

Lemma lookup_resolves p t v : lookup p t = Some v ↔ resolves p t v.
Proof.
  revert t. induction p as [|k p IH]; intros t; simpl.
  - split; [intros; simplify_eq; constructor|by inversion 1].
  - split.
    + intros H. destruct t as [| | | | |m]; try done.
      destruct (map_get k m) eqn:E; [|done]. econstructor; [done|by apply IH].
    + inversion 1 as [|? ? m w ? Hg Hr]; simplify_eq. rewrite Hg. by apply IH.
Qed.

Lemma lookup_None p t : lookup p t = None ↔ ∀ v, ¬ resolves p t v.
Proof.
  split.
  - intros H v Hv%lookup_resolves. congruence.
  - intros H. destruct (lookup p t) as [v|] eqn:E; [|done].
    apply lookup_resolves in E. by destruct (H v).
Qed.

Lemma json_eq_spec j c : json_eq j c = true ↔ lit_eq j c.
Proof.
  split.
  - destruct j as [|b|n|a|l|m], c as [s|x|b'| |l']; simpl; try done.
    + by constructor.
    + intros ->%Bool.eqb_prop. constructor.
    + destruct (num_as_f64 n) eqn:E; [|done]. by econstructor.
    + intros ->%String.eqb_eq. constructor.
  - destruct 1 as [s|n x y Hn Hx|b|]; simpl.
    + apply String.eqb_refl.
    + by rewrite Hn.
    + apply Bool.eqb_reflx.
    + done.
Qed.

Lemma json_eq_false j c : json_eq j c = false ↔ ¬ lit_eq j c.
Proof. rewrite <- json_eq_spec. by destruct (json_eq j c). Qed.

Lemma str_ltb_spec a b : String.ltb a b = true ↔ String.compare a b = Lt.
Proof. unfold String.ltb. by destruct (String.compare a b). Qed.

Lemma str_leb_spec a b : String.leb a b = true ↔ String.compare a b ≠ Gt.
Proof. unfold String.leb. by destruct (String.compare a b). Qed.

(** The order operators never reach the [unreachable!] arms and decide
    [ordered]. *)
Lemma compare_ordered op v r :
  op ∈ [OpLt; OpLe; OpGt; OpGe] →
  ∃ b, compare op (Some v) r = Some b ∧ (b = true ↔ ordered op v r).
Proof.
  intros Hop. set_unfold. destruct_or! Hop; subst; simpl;
    (destruct v as [| |n|s| |], r as [s'|x| | |];
     try (eexists; split; [done|]; by split; [|inversion 1]);
     [destruct (num_as_f64 n) as [y|] eqn:E; simpl|]);
    eexists; (split; [done|]); rewrite ?str_ltb_spec, ?str_leb_spec;
    split; intros H; first [done | by econstructor | inversion H; by simplify_eq].
Qed.

Lemma compare_spec op p r t :
  ∃ b, compare op (lookup p t) r = Some b ∧ (b = true ↔ compare_sat op p r t).
Proof.
  destruct (lookup p t) as [v|] eqn:E.
  - pose proof E as Hv. apply lookup_resolves in Hv.
    assert (∀ w, resolves p t w ↔ w = v) as Hw.
    { intros w. rewrite <- lookup_resolves, E. naive_solver. }
    assert (∀ Q : json → Prop, (∃ w, resolves p t w ∧ Q w) ↔ Q v) as Hex.
    { intros Q. setoid_rewrite Hw. naive_solver. }
    destruct op; simpl.
    + eexists; split; [done|]. rewrite Hex, json_eq_spec. naive_solver.
    + eexists; split; [done|]. rewrite Hex, negb_true_iff, json_eq_false. naive_solver.
    + setoid_rewrite Hex. apply (compare_ordered OpLt). set_solver.
    + setoid_rewrite Hex. apply (compare_ordered OpLe). set_solver.
    + setoid_rewrite Hex. apply (compare_ordered OpGt). set_solver.
    + setoid_rewrite Hex. apply (compare_ordered OpGe). set_solver.
    + setoid_rewrite Hw.
      destruct v as [| |n|s| |], r as [s'|x| | |]; eexists; (split; [done|]);
        try (by split; [|intros (?&?&?&?&?); simplify_eq]).
      unfold glob_match. rewrite glob_helper_spec. naive_solver.
    + setoid_rewrite Hw. destruct r as [| | | |l]; eexists; (split; [done|]);
        try (by split; [|intros (?&?&?&?&?&?); simplify_eq]).
      rewrite existsb_exists. setoid_rewrite json_eq_spec.
      setoid_rewrite list_elem_of_In. naive_solver.
  - rewrite lookup_None in E.
    destruct op, r; simpl; eexists; (split; [done|]); naive_solver.
Qed.

Lemma eval_pred_spec (pr : Predicate) t :
  ∃ b, eval_pred pr t = Returned (Ok b) ∧ (b = true ↔ sat pr t).
Proof.
  induction pr as [| |items IH|items IH|p IH|l op r|p v|p] using predicate_nested_ind; simpl.
  - by exists true.
  - by exists false.
  - induction IH as [|i items (b & Hb & Hs) _ IH]; [by exists true|].
    rewrite Hb. destruct b; simpl; [|exists false; naive_solver].
    destruct IH as (b & ? & ?). exists b. naive_solver.
  - induction IH as [|i items (b & Hb & Hs) _ IH]; [by exists false|].
    rewrite Hb. destruct b; simpl; [exists true; naive_solver|].
    destruct IH as (b & ? & ?). exists b. naive_solver.
  - destruct IH as (b & -> & Hs). exists (negb b). split; [done|].
    rewrite <- Hs. by destruct b.
  - destruct (compare_spec op l r t) as (b & -> & ?). by exists b.
  - destruct (lookup p t) as [w|] eqn:E.
    + pose proof E as Hw%lookup_resolves.
      destruct w as [| | | |items|];
        try (exists false; split; [done|]; split; [done|];
             intros (l & i & Hl%lookup_resolves & _); congruence).
      eexists; split; [done|]. rewrite existsb_exists. setoid_rewrite json_eq_spec.
      setoid_rewrite list_elem_of_In. split; [naive_solver|].
      intros (l & i & Hl%lookup_resolves & ? & ?). simplify_eq. eauto.
    + exists false. split; [done|]. split; [done|].
      intros (l & i & Hl%lookup_resolves & _). congruence.
  - destruct (lookup p t) as [w|] eqn:E; eexists; (split; [done|]).
    + split; [|done]. intros _. exists w. by apply lookup_resolves.
    + split; [done|]. intros [v Hv%lookup_resolves]. congruence.
Qed.
End facts.

(** ** Projection *)

Section projection.
  Context {num : Type} `{!SerdeNumber num}.
  Abbreviation json := (json num).
  Implicit Types (t v w j x y : json) (p q segs : FieldPath) (m out : list (string * json)).

(** [part x y]: [x] is a partial copy of [y], obtained by dropping fields of
    objects. *)
Inductive part : json → json → Prop :=
| part_refl x : part x x
| part_object out m :
    (∀ k x, map_get k out = Some x → ∃ y, map_get k m = Some y ∧ part x y) →
    part (JObject out) (JObject m).

Lemma part_object_iff out m :
  part (JObject out) (JObject m) ↔
  ∀ k x, map_get k out = Some x → ∃ y, map_get k m = Some y ∧ part x y.
Proof.
  split; [|apply part_object]. inversion 1; subst; [|done].
  eauto using part_refl.
Qed.

Lemma part_of_object x m : part x (JObject m) → ∃ out, x = JObject out.
Proof. inversion 1; eauto. Qed.

Lemma part_leaf x y : is_object x = false → part x y → x = y.
Proof. by inversion 2; subst. Qed.

Lemma lookup_cons k p m : lookup (k :: p) (JObject m) = map_get k m ≫= lookup p.
Proof. simpl. by destruct (map_get k m). Qed.

Lemma lookup_cons_Some k p t v :
  lookup (k :: p) t = Some v →
  ∃ m x, t = JObject m ∧ map_get k m = Some x ∧ lookup p x = Some v.
Proof.
  destruct t as [| | | | |m]; try done. rewrite lookup_cons, bind_Some. naive_solver.
Qed.

Lemma part_lookup q x y v :
  part x y → lookup q x = Some v → ∃ w, lookup q y = Some w ∧ part v w.
Proof.
  revert x y. induction q as [|k q IH]; intros x y Hp Hq.
  - simplify_eq/=. eauto.
  - apply lookup_cons_Some in Hq as (m & x' & -> & Hk & Hq).
    inversion Hp as [|? m' Hm]; subst.
    + exists v. split; [|constructor]. by rewrite lookup_cons, Hk.
    + destruct (Hm _ _ Hk) as (y' & Hy & Hp'). rewrite lookup_cons, Hy. eauto.
Qed.

(** [insert_path] at a path of two or more segments writes below the object
    found, or created, at the first one. *)
Lemma insert_path_cons k segs out m m' v :
  segs ≠ [] → part (JObject out) (JObject m) → map_get k m = Some (JObject m') →
  ∃ sub, part (JObject sub) (JObject m') ∧
    (map_get k out = Some (JObject sub) ∨ (map_get k out = None ∧ sub = [])) ∧
    insert_path out (k :: segs) v
      = map_insert k (JObject (insert_path sub segs v)) out.
Proof.
  intros Hs Hp Hm. destruct segs as [|k' segs]; [done|].
  rewrite part_object_iff in Hp. cbn [insert_path]. destruct (map_get k out) as [x|] eqn:E.
  - destruct (Hp _ _ E) as (y & ? & Hxy). simplify_eq.
    destruct (part_of_object _ _ Hxy) as [sub ->]. eauto 6.
  - exists []. split; [|auto]. by constructor.
Qed.

Lemma lookup_two k segs m v :
  segs ≠ [] → lookup (k :: segs) (JObject m) = Some v →
  ∃ m', map_get k m = Some (JObject m') ∧ lookup segs (JObject m') = Some v.
Proof.
  intros Hs (m0 & x & [= <-] & Hk & Hx)%lookup_cons_Some.
  destruct segs as [|k' segs]; [done|].
  pose proof Hx as (m' & ? & -> & ? & ?)%lookup_cons_Some. eauto.
Qed.

Lemma insert_path_part segs out m v :
  part (JObject out) (JObject m) → lookup segs (JObject m) = Some v →
  part (JObject (insert_path out segs v)) (JObject m).
Proof.
  revert out m. induction segs as [|k segs IH]; intros out m Hp Hl; [done|].
  destruct (decide (segs = [])) as [->|Hs].
  - rewrite part_object_iff in *. simpl. intros k' x. rewrite map_get_insert.
    rewrite lookup_cons, bind_Some in Hl. case_decide; [|by auto].
    intros; simplify_eq. destruct Hl as (y & ? & ?); simplify_eq/=.
    eauto using part_refl.
  - apply lookup_two in Hl as (m' & Hk & Hl); [|done].
    destruct (insert_path_cons k segs out m m' v) as (sub & Hsub & _ & ->); [done..|].
    rewrite part_object_iff in Hp |- *. intros k' x. rewrite map_get_insert.
    case_decide; [|by auto]. intros; simplify_eq. eexists. split; [done|].
    by apply IH.
Qed.

Lemma insert_path_found segs out m v :
  segs ≠ [] → part (JObject out) (JObject m) → lookup segs (JObject m) = Some v →
  lookup segs (JObject (insert_path out segs v)) = Some v.
Proof.
  revert out m. induction segs as [|k segs IH]; intros out m Hne Hp Hl; [done|].
  destruct (decide (segs = [])) as [->|Hs].
  - simpl. by rewrite map_get_insert_eq.
  - apply lookup_two in Hl as (m' & Hk & Hl); [|done].
    destruct (insert_path_cons k segs out m m' v) as (sub & Hsub & _ & ->); [done..|].
    rewrite lookup_cons, map_get_insert_eq. by apply (IH sub m').
Qed.

Lemma insert_path_id segs m v :
  json_wf (JObject m) → lookup segs (JObject m) = Some v → insert_path m segs v = m.
Proof.
  revert m. induction segs as [|k segs IH]; intros m Hwf Hl; [done|].
  pose proof Hwf as [Hsort _]%json_wf_object.
  destruct (decide (segs = [])) as [->|Hs].
  - simpl in *. destruct (map_get k m) eqn:E; simplify_eq. by apply map_insert_id.
  - apply lookup_two in Hl as (m' & Hk & Hl); [|done].
    destruct (insert_path_cons k segs m m m' v) as (sub & _ & Hsub & ->);
      [done|constructor|done|].
    destruct Hsub as [?|[? _]]; simplify_eq.
    rewrite IH; [by apply map_insert_id| |done]. by eapply json_wf_get.
Qed.

Lemma insert_path_keeps segs out m v p w :
  part (JObject out) (JObject m) → lookup segs (JObject m) = Some v →
  json_wf (JObject m) →
  lookup p (JObject m) = Some w → lookup p (JObject out) = Some w →
  lookup p (JObject (insert_path out segs v)) = Some w.
Proof.
  revert out m p. induction segs as [|k segs IH]; intros out m p Hp Hl Hwf Hm Hout; [done|].
  destruct p as [|kp p].
  { injection Hm as <-. injection Hout as ->.
    change (Some (JObject (insert_path m (k :: segs) v)) = Some (JObject m)).
    by rewrite insert_path_id. }
  destruct (decide (segs = [])) as [->|Hs].
  - rewrite lookup_cons in *. cbn [insert_path]. rewrite map_get_insert.
    case_decide; subst; [|done]. by destruct (map_get k m); simplify_eq/=.
  - apply lookup_two in Hl as (m' & Hk & Hl); [|done].
    destruct (insert_path_cons k segs out m m' v) as (sub & Hsub & Hget & ->); [done..|].
    rewrite lookup_cons in *. rewrite map_get_insert. case_decide; subst; [|done].
    rewrite Hk in Hm. destruct Hget as [Hg|[Hg _]]; rewrite Hg in Hout; [|done].
    eapply IH; [done..| |done|done]. by eapply json_wf_get.
Qed.

(** A leaf found after an insertion was there before or lies under the
    inserted path. *)
Lemma insert_path_leaf segs out v q w :
  segs ≠ [] → lookup q (JObject (insert_path out segs v)) = Some w →
  is_object w = false →
  segs `prefix_of` q ∨ lookup q (JObject out) = Some w.
Proof.
  revert out q. induction segs as [|k segs IH]; intros out q Hne Hl Hw; [done|].
  destruct q as [|kq q]; [by simplify_eq/=|]. rewrite lookup_cons in *.
  destruct (decide (kq = k)) as [->|Hk].
  2:{ right. revert Hl. cbn [insert_path]. destruct segs as [|k' segs].
      - by rewrite map_get_insert_ne.
      - destruct (map_get k out) as [[]|]; by rewrite ?map_get_insert_ne. }
  revert Hl. cbn [insert_path]. destruct segs as [|k' segs].
  { intros _. left. apply prefix_cons, prefix_nil. }
  destruct (map_get k out) as [x|] eqn:E.
  - destruct x; intros Hl; try (right; rewrite E in Hl; exact Hl).
    rewrite map_get_insert_eq in Hl.
    destruct (IH m q (ltac:(done)) Hl Hw); [left; by apply prefix_cons|by right].
  - rewrite map_get_insert_eq. intros Hl.
    destruct (IH [] q (ltac:(done)) Hl Hw) as [|Hq]; [left; by apply prefix_cons|].
    destruct q; by simplify_eq/=.
Qed.

(** The loop of [project]: what holds of [out] after the paths [done_]. *)
Record project_inv (m : list (string * json)) (done_ : list FieldPath) out : Prop := {
  pi_part : part (JObject out) (JObject m);
  pi_found p v : p ∈ done_ → p ≠ [] → lookup p (JObject m) = Some v →
    lookup p (JObject out) = Some v;
  pi_leaf q w : lookup q (JObject out) = Some w → is_object w = false →
    ∃ p, p ∈ done_ ∧ p `prefix_of` q
}.

Lemma project_inv_step m done_ out p :
  json_wf (JObject m) → project_inv m done_ out →
  project_inv m (done_ ++ [p]) (project_step (JObject m) out p).
Proof.
  intros Hwf [Hpart Hfound Hleaf]. unfold project_step.
  destruct (lookup p (JObject m)) as [v|] eqn:E.
  - split.
    + by apply insert_path_part.
    + intros p' v' [Hp'|Hp'%list_elem_of_singleton]%elem_of_app Hne Hl; subst.
      * eapply insert_path_keeps; eauto.
      * simplify_eq. by eapply insert_path_found.
    + intros q w Hl Hw. setoid_rewrite elem_of_app. destruct (decide (p = [])) as [->|Hne].
      * destruct (Hleaf q w Hl Hw) as (p' & ? & ?). eauto.
      * destruct (insert_path_leaf _ _ _ _ _ Hne Hl Hw) as [|Hq].
        { exists p. split; [right; by constructor|done]. }
        destruct (Hleaf q w Hq Hw) as (p' & ? & ?). eauto.
  - split; [done| |].
    + intros p' v' [Hp'|Hp'%list_elem_of_singleton]%elem_of_app Hne Hl; [auto|congruence].
    + intros q w Hl Hw. destruct (Hleaf q w Hl Hw) as (p' & ? & ?).
      exists p'. rewrite elem_of_app. auto.
Qed.

Lemma project_loop m paths :
  json_wf (JObject m) →
  project_inv m paths (foldl (project_step (JObject m)) [] paths).
Proof.
  intros Hwf. induction paths as [|p paths IH] using rev_ind; simpl.
  - split; [by constructor|set_solver|]. intros [|k q] w; simpl; intros; by simplify_eq/=.
  - rewrite foldl_snoc. by apply project_inv_step.
Qed.
End projection.

(** ** Properties *)

Section properties.
  Context {num : Type} `{!SerdeNumber num}.

(** C2: [matches] is total and decides the declarative semantics: on every
    query and document it returns [Ok] (no evaluation error, no panic through
    an [unreachable!] arm), and the boolean is true exactly when the document
    satisfies the predicate. *)
Theorem matches_decides_sat (q : Query) (t : json num) :
  ∃ b, matches q t = Returned (Ok b) ∧ (b = true ↔ sat (predicate q) t).
Proof. apply eval_pred_spec. Qed.

(** [glob_match] accepts a string exactly when the pattern, read
    declaratively ('*' any run, '?' one character, anything else itself),
    matches all of it. *)
Theorem glob_match_correct (pat s : string) :
  glob_match pat s = true ↔ glob (chars pat) (chars s).
Proof. apply glob_helper_spec. Qed.

(** [project] onto fields keeps exactly what was selected. Every selected
    path that resolves in the document resolves to the same value in the
    result, even when selected paths overlap, and every leaf of the result is
    a leaf of the document under one of the selected paths. *)
Theorem project_exact (paths : list FieldPath) (pr : Predicate) (t : json num) :
  json_wf t → is_object t = true →
  let out := project (mk_query (Fields paths) pr) t in
  (∀ p v, p ∈ paths → p ≠ [] → lookup p t = Some v → lookup p out = Some v) ∧
  (∀ q v, lookup q out = Some v → is_object v = false →
     lookup q t = Some v ∧ ∃ p, p ∈ paths ∧ p `prefix_of` q).
Proof.
  intros Hwf Hobj. destruct t as [| | | | |m]; try done.
  destruct (project_loop m paths Hwf) as [Hpart Hfound Hleaf]. split; [done|].
  intros q v Hq Hv. split; [|by eapply Hleaf].
  destruct (part_lookup _ _ _ _ Hpart Hq) as (w & Hw & ->%part_leaf); done.
Qed.

(** [FieldPath::extract], the public walk, computes the same denotation as the
    evaluator's private [lookup]. *)
Lemma extract_resolves (p : FieldPath) (t v : json num) :
  extract p t = Some v ↔ resolves p t v.
Proof. apply lookup_resolves. Qed.
End properties.

Lemma try_parse_join s p : try_parse s = Ok p → join "." p = s.
Proof.
  unfold try_parse. repeat case_match; intros; simplify_eq. apply join_split_on.
Qed.

(** [FieldPath::try_parse] inverts the dotted notation: it returns [p]
    exactly when [p] is a non-empty sequence of non-empty, dot-free segments
    whose dotted spelling is the input, and otherwise fails with
    [InvalidPath]. *)
Theorem try_parse_roundtrip (s : string) :
  (∀ p, try_parse s = Ok p ↔
     p ≠ [] ∧ Forall (λ seg, seg ≠ EmptyString ∧ str_contains "." seg = false) p ∧
     join "." p = s) ∧
  (∀ e, try_parse s = Err e → ∃ msg, e = EInvalidPath msg).
Proof.
  unfold try_parse. split.
  - intros p. split.
    + destruct (str_is_empty s) eqn:Es; [done|].
      destruct (existsb _ _) eqn:Ex; [done|]. intros [= <-].
      split; [apply split_on_nonempty|]. split; [|apply join_split_on].
      apply Forall_and. split; [|apply split_on_pieces].
      apply Forall_forall. intros seg Hin ->.
      apply not_true_iff_false in Ex. apply Ex, existsb_exists.
      exists EmptyString. by rewrite <- list_elem_of_In.
    + intros (Hne & [Hseg Hdot]%Forall_and & <-).
      rewrite split_on_join by done.
      assert (existsb str_is_empty p = false) as ->.
      { apply not_true_iff_false. intros (seg & Hin & Hem)%existsb_exists.
        rewrite Forall_forall in Hseg. apply list_elem_of_In, Hseg in Hin.
        by destruct seg. }
      destruct p as [|[|c seg] p]; [done|by inversion Hseg|].
      by rewrite join_String.
  - intros e. repeat case_match; intros; simplify_eq; eauto.
Qed.

Module QueryExamples.
Import ConcreteNumber.

Definition doc : json number :=
  JObject [("kind", JString "led"); ("n", JNumber (PosInt 50));
           ("properties", JObject [("owner", JNull); ("type", JString "shadow")])].

Example overlap :
  project (mk_query (Fields [["properties"; "owner"]; ["properties"]]) PTrue) doc
  = JObject [("properties", JObject [("owner", JNull); ("type", JString "shadow")])].
Proof. vm_compute. reflexivity. Qed.

Lemma project_exact_witness :
  lookup ["properties"; "type"]
    (project (mk_query (Fields [["properties"; "type"]; ["kind"]; ["missing"]]) PTrue) doc)
  = Some (JString "shadow").
Proof.
  destruct (project_exact [["properties"; "type"]; ["kind"]; ["missing"]] PTrue doc)
    as [H _].
  - repeat (constructor || reflexivity).
  - reflexivity.
  - apply H; [constructor|discriminate|vm_compute; reflexivity].
Defined.

Example glob_examples :
  (glob_match "a*b?d" "axxbcd", glob_match "*" "", glob_match "a?" "a") =
  (true, true, false).
Proof. vm_compute. reflexivity. Qed.

Example matches_number :
  matches (mk_query All (PCompare ["n"] OpLt (LNumber (decimal_to_f64 false 60 0)))) doc
  = Returned (Ok true).
Proof. vm_compute. reflexivity. Qed.

Example missing_ne :
  matches (mk_query All (PCompare ["absent"] OpNe (LString "x"))) doc
  = Returned (Ok true).
Proof. vm_compute. reflexivity. Qed.
End QueryExamples.
