(* ===== verification/Lexer.v ===== *)
(** The CaQL tokenizer ([caql/lex.rs]). The byte cursor [i] is modelled by the
    pair of the offset and the suffix of the source that starts there; the
    outer [while] loop takes fuel, shown to be enough below. A declarative
    lexical grammar ([lexes]) specifies the token stream of a source text. *)

From S2P Require Import Prelude F64 Json Query.

(** ** Tokens *)

Inductive Tok :=
| TSelect | TWhere | TAnd | TOr | TNot | TIn | TLike | TContains | TExists
| TTrue | TFalse | TNull
| TIdent (s : string)
| TNumber (n : f64)
| TString (s : string)
| TDot | TComma | TStar | TLParen | TRParen | TLBracket | TRBracket
| TEq | TNe | TLt | TLe | TGt | TGe.

Record Spanned := mk_spanned { tok : Tok; offset : nat }.

Definition dquote : ascii := "034".
Definition backslash : ascii := "\".

(** [b as char] followed by [String::push]: the byte is read as a Latin-1
    code point. *)
Definition push_byte_as_char (s : string) (b : ascii) : string :=
  push_char s (byte_code b).

(** ** String literals

    The inner [while] loop after the opening quote: the literal's value when
    the closing quote was found ([None] when the text ended first) and the
    suffix after the last byte read. *)
Definition unescape (b : ascii) : N :=
  match b with
  | "n" => 10
  | "t" => 9
  | "r" => 13
  | other => byte_code other
  end%char%N.

Fixpoint lex_string (start : nat) (s acc : string)
    : result QueryError (option string * string) :=
  match s with
  | EmptyString => Ok (None, EmptyString)
  | String b s1 =>
      if Ascii.eqb b backslash then
        match s1 with
        | EmptyString => Err (EParse start "unterminated escape")
        | String e s2 => lex_string start s2 (push_char acc (unescape e))
        end
      else if Ascii.eqb b dquote then Ok (Some acc, s1)
      else lex_string start s1 (push_byte_as_char acc b)
  end.

(** ** Numbers: the extent of the literal *)

Definition is_digit_or_dot (c : ascii) : bool :=
  is_ascii_digit c || Ascii.eqb c ".".

Definition is_sign (c : ascii) : bool := Ascii.eqb c "-" || Ascii.eqb c "+".
Definition is_exp_mark (c : ascii) : bool := Ascii.eqb c "e" || Ascii.eqb c "E".

(** One byte satisfying [f], if it comes next. *)
Definition take_one (f : ascii → bool) (s : string) : string * string :=
  match s with
  | String c s' => if f c then (String c EmptyString, s') else (EmptyString, s)
  | EmptyString => (EmptyString, EmptyString)
  end.

Definition scan_number (s : string) : string * string :=
  let '(sgn, s1) := take_one is_sign s in
  let '(mant, s2) := span is_digit_or_dot s1 in
  let '(mark, s3) := take_one is_exp_mark s2 in
  if str_is_empty mark then (sgn +:+ mant, s2)
  else
    let '(esgn, s4) := take_one is_sign s3 in
    let '(ds, s5) := span is_ascii_digit s4 in
    (sgn +:+ mant +:+ mark +:+ esgn +:+ ds, s5).

(** ** Words *)

Definition is_word_start (c : ascii) : bool := is_ascii_alphabetic c || Ascii.eqb c "_".
Definition is_word_char (c : ascii) : bool := is_ascii_alphanumeric c || Ascii.eqb c "_".

Definition word_tok (ident : string) : Tok :=
  match to_ascii_lowercase ident with
  | "select" => TSelect
  | "where" => TWhere
  | "and" => TAnd
  | "or" => TOr
  | "not" => TNot
  | "in" => TIn
  | "like" => TLike
  | "contains" => TContains
  | "exists" => TExists
  | "true" => TTrue
  | "false" => TFalse
  | "null" => TNull
  | _ => TIdent ident
  end%string.

(** ** The loop *)

Definition next_is (c : ascii) (s : string) : bool :=
  match s with String b _ => Ascii.eqb b c | EmptyString => false end.

Definition tail1 (s : string) : string :=
  match s with String _ s' => s' | EmptyString => EmptyString end.

(** The state of the loop: [i], the suffix at [i] and [out]. *)
Definition lex_state : Type := nat * string * list Spanned.

Definition push1 (i : nat) (rest : string) (out : list Spanned) (t : Tok)
    : result QueryError lex_state :=
  Ok (i + 1, rest, out ++ [mk_spanned t i]).
Definition push2 (i : nat) (rest : string) (out : list Spanned) (t : Tok)
    : result QueryError lex_state :=
  Ok (i + 2, tail1 rest, out ++ [mk_spanned t i]).

(** [out.last().is_some_and(|t| matches!(t.tok, Tok::String(_) if t.offset == start))] *)
Definition last_is_string_at (start : nat) (out : list Spanned) : bool :=
  match last out with
  | Some (mk_spanned (TString _) o) => o =? start
  | _ => false
  end.

(** The branch of the opening quote; [s1] is the text after it. *)
Definition lex_string_token (i : nat) (s1 : string) (out : list Spanned)
    : result QueryError lex_state :=
  let? (v, rest) := lex_string i s1 EmptyString in
  let i' := i + (1 + String.length s1 - String.length rest) in
  let out' := match v with
              | Some v => out ++ [mk_spanned (TString v) i]
              | None => out
              end in
  if str_is_empty rest && negb (last_is_string_at i out')
  then Err (EParse i "unterminated string literal")
  else Ok (i', rest, out').

(** The branch of a digit or a sign, which is the first byte of [s]. *)
Definition lex_number_token (i : nat) (s : string) (out : list Spanned)
    : result QueryError lex_state :=
  let '(text, rest) := scan_number s in
  match parse_f64 text with
  | None => Err (EParse i ("invalid number `" +:+ text +:+ "`"))
  | Some n =>
      Ok (i + (String.length s - String.length rest), rest,
          out ++ [mk_spanned (TNumber n) i])
  end.

(** The branch of a letter or underscore [c]; [s1] is the text after it. *)
Definition lex_word_token (i : nat) (c : ascii) (s1 : string) (out : list Spanned)
    : result QueryError lex_state :=
  let '(text, rest) := span is_word_char s1 in
  let ident := String c text in
  Ok (i + (1 + String.length s1 - String.length rest), rest,
      out ++ [mk_spanned (word_tok ident) i]).

(** One iteration on a byte [c] that is not white space; [s1] is the text
    after it. *)
Definition lex_token (i : nat) (c : ascii) (s1 : string) (out : list Spanned)
    : result QueryError lex_state :=
  if Ascii.eqb c "." then push1 i s1 out TDot
  else if Ascii.eqb c "," then push1 i s1 out TComma
  else if Ascii.eqb c "*" then push1 i s1 out TStar
  else if Ascii.eqb c "(" then push1 i s1 out TLParen
  else if Ascii.eqb c ")" then push1 i s1 out TRParen
  else if Ascii.eqb c "[" then push1 i s1 out TLBracket
  else if Ascii.eqb c "]" then push1 i s1 out TRBracket
  else if Ascii.eqb c "=" then push1 i s1 out TEq
  else if Ascii.eqb c "!" then
    if next_is "=" s1 then push2 i s1 out TNe
    else Err (EParse i "expected `!=`")
  else if Ascii.eqb c "<" then
    if next_is "=" s1 then push2 i s1 out TLe else push1 i s1 out TLt
  else if Ascii.eqb c ">" then
    if next_is "=" s1 then push2 i s1 out TGe else push1 i s1 out TGt
  else if Ascii.eqb c dquote then lex_string_token i s1 out
  else if is_ascii_digit c || is_sign c then lex_number_token i (String c s1) out
  else if is_word_start c then lex_word_token i c s1 out
  else Err (EParse i ("unexpected character `" +:+ encode_char (byte_code c) +:+ "`")).

(** The outer loop; [None] when the fuel runs out. *)
Fixpoint lex_loop (fuel : nat) (i : nat) (s : string) (out : list Spanned)
    : option (result QueryError (list Spanned)) :=
  match s with
  | EmptyString => Some (Ok out)
  | String c s1 =>
      match fuel with
      | O => None
      | S fuel' =>
          if is_ascii_whitespace c then lex_loop fuel' (i + 1) s1 out
          else match lex_token i c s1 out with
               | Err e => Some (Err e)
               | Ok (i', rest, out') => lex_loop fuel' i' rest out'
               end
      end
  end.

(** One unit of fuel per byte: every iteration consumes at least one. *)
Definition tokenize (src : string) : option (result QueryError (list Spanned)) :=
  lex_loop (String.length src) 0 src [].

Example tokenize_where :
  tokenize "where kind = 5.0" = Some (Ok
    [mk_spanned TWhere 0; mk_spanned (TIdent "kind") 6; mk_spanned TEq 11;
     mk_spanned (TNumber (decimal_to_f64 false 5 0)) 13]).
Proof. vm_compute. reflexivity. Qed.
Example tokenize_bang : tokenize "a ! b" = Some (Err (EParse 2 "expected `!=`")).
Proof. vm_compute. reflexivity. Qed.

(** ** The lexical grammar *)

(** The value denoted by the text between the quotes of a string literal: a
    backslash introduces an escape, any other byte but the quote stands for
    the character with its code. *)
Inductive str_body : string → string → Prop :=
| body_nil : str_body EmptyString EmptyString
| body_esc e s v :
    str_body s v →
    str_body (String backslash (String e s)) (encode_char (unescape e) +:+ v)
| body_char c s v :
    c ≠ backslash → c ≠ dquote → str_body s v →
    str_body (String c s) (encode_char (byte_code c) +:+ v).

(** The text after a lexeme does not extend it. *)
Definition stops (f : ascii → bool) (rest : string) : Prop :=
  match rest with EmptyString => True | String c _ => f c = false end.

Definition sign_texts : list string := [""; "-"; "+"]%string.

(** The exponent part of a number, read as far as it goes; a part without
    digits is later rejected by the conversion to [f64]. *)
Definition exponent_text (ex : string) (rest : string) : Prop :=
  (ex = EmptyString ∧ stops (λ c, is_digit_or_dot c || is_exp_mark c) rest) ∨
  ∃ m sgn ds, ex = String m (sgn +:+ ds) ∧ is_exp_mark m = true ∧
    sgn ∈ sign_texts ∧ str_forallb is_ascii_digit ds = true ∧
    stops is_ascii_digit rest ∧
    (sgn = EmptyString → ds = EmptyString → stops is_sign rest).

Definition symbols : list (string * Tok) :=
  [("." , TDot); (",", TComma); ("*", TStar); ("(", TLParen); (")", TRParen);
   ("[", TLBracket); ("]", TRBracket); ("=", TEq); ("!=", TNe); ("<=", TLe);
   (">=", TGe)]%string.

(** [lexeme text rest t]: [text], followed by [rest], spells the token [t]. *)
Inductive lexeme : string → string → Tok → Prop :=
| lexeme_symbol text rest t : (text, t) ∈ symbols → lexeme text rest t
| lexeme_lt rest : stops (Ascii.eqb "=") rest → lexeme "<" rest TLt
| lexeme_gt rest : stops (Ascii.eqb "=") rest → lexeme ">" rest TGt
| lexeme_string body rest v :
    str_body body v →
    lexeme (String dquote (body +:+ String dquote EmptyString)) rest (TString v)
| lexeme_number sgn mant ex rest n :
    sgn ∈ sign_texts →
    (sgn = "" → match mant with String c _ => is_ascii_digit c = true | _ => False end)%string →
    str_forallb is_digit_or_dot mant = true →
    exponent_text ex rest →
    parse_f64 (sgn +:+ mant +:+ ex) = Some n →
    lexeme (sgn +:+ mant +:+ ex) rest (TNumber n)
| lexeme_word c w rest :
    is_word_start c = true → str_forallb is_word_char w = true →
    stops is_word_char rest →
    lexeme (String c w) rest (word_tok (String c w)).

(** [lexes i s l]: the text [s], found at offset [i], is a sequence of lexemes
    and white space whose tokens, with their offsets, are [l]. *)
Inductive lexes : nat → string → list Spanned → Prop :=
| lexes_end i : lexes i EmptyString []
| lexes_space i c s l :
    is_ascii_whitespace c = true → lexes (i + 1) s l → lexes i (String c s) l
| lexes_token i text rest t l :
    lexeme text rest t → lexes (i + String.length text) rest l →
    lexes i (text +:+ rest) (mk_spanned t i :: l).

(** ** String literals *)

Lemma lex_string_sound start s acc v rest :
  lex_string start s acc = Ok (Some v, rest) →
  ∃ body w, s = body +:+ String dquote rest ∧ str_body body w ∧ v = acc +:+ w.
Proof.
  revert acc. induction s as [s IH] using (induction_ltof1 _ String.length).
  unfold ltof in IH. intros acc. destruct s as [|b s1]; simpl; [done|].
  destruct (Ascii.eqb b backslash) eqn:Eb.
  - apply Ascii.eqb_eq in Eb as ->. destruct s1 as [|e s2]; [done|].
    intros (body & w & -> & Hb & ->)%IH; [|simpl; lia].
    exists (String backslash (String e body)), (encode_char (unescape e) +:+ w).
    split; [done|]. split; [by constructor|].
    unfold push_char. by rewrite append_assoc.
  - destruct (Ascii.eqb b dquote) eqn:Eq.
    + apply Ascii.eqb_eq in Eq as ->. intros [= <- <-].
      exists EmptyString, EmptyString. rewrite append_nil_r.
      split; [done|]. split; [constructor|done].
    + intros (body & w & -> & Hb & ->)%IH; [|simpl; lia].
      exists (String b body), (encode_char (byte_code b) +:+ w).
      apply Ascii.eqb_neq in Eb, Eq. split; [done|]. split; [by constructor|].
      unfold push_byte_as_char, push_char. by rewrite append_assoc.
Qed.

Lemma lex_string_complete start body w acc rest :
  str_body body w →
  lex_string start (body +:+ String dquote rest) acc = Ok (Some (acc +:+ w), rest).
Proof.
  intros Hb. revert acc. induction Hb as [|e s v Hb IH|c s v Hc1 Hc2 Hb IH]; intros acc.
  - rewrite append_nil_l. simpl. by rewrite append_nil_r.
  - rewrite !append_String. simpl. rewrite IH. unfold push_char.
    by rewrite append_assoc.
  - rewrite append_String. simpl.
    apply Ascii.eqb_neq in Hc1, Hc2. rewrite Hc1, Hc2, IH.
    unfold push_byte_as_char, push_char. by rewrite append_assoc.
Qed.

(** Without a closing quote the scan reads to the end of the text. *)
Lemma lex_string_open start s acc rest :
  lex_string start s acc = Ok (None, rest) → rest = EmptyString.
Proof.
  revert acc. induction s as [s IH] using (induction_ltof1 _ String.length).
  unfold ltof in IH. intros acc. destruct s as [|b s1]; simpl; [by intros [=]|].
  destruct (Ascii.eqb b backslash).
  - destruct s1 as [|e s2]; [done|]. apply IH. simpl. lia.
  - destruct (Ascii.eqb b dquote); [done|]. apply IH. simpl. lia.
Qed.

Lemma lex_string_err start s acc e :
  lex_string start s acc = Err e → ∃ msg, e = EParse start msg.
Proof.
  revert acc. induction s as [s IH] using (induction_ltof1 _ String.length).
  unfold ltof in IH. intros acc. destruct s as [|b s1]; simpl; [done|].
  destruct (Ascii.eqb b backslash).
  - destruct s1 as [|e' s2]; [intros; simplify_eq; eauto|]. apply IH. simpl. lia.
  - destruct (Ascii.eqb b dquote); [done|]. apply IH. simpl. lia.
Qed.

(** ** Numbers *)

Lemma take_one_eq f s : s = (take_one f s).1 +:+ (take_one f s).2.
Proof. destruct s as [|c s]; simpl; [done|]. by destruct (f c). Qed.

Lemma take_one_sign s : (take_one is_sign s).1 ∈ sign_texts.
Proof.
  destruct s as [|c s]; simpl; [by constructor|].
  destruct (is_sign c) eqn:E; [|by constructor]. unfold is_sign in E.
  apply orb_true_iff in E as [->%Ascii.eqb_eq| ->%Ascii.eqb_eq];
    by repeat constructor.
Qed.

Lemma take_one_stops f s : (take_one f s).1 = EmptyString → stops f (take_one f s).2.
Proof. destruct s as [|c s]; simpl; [done|]. by destruct (f c) eqn:E. Qed.

Lemma take_one_stop f s : stops f s → take_one f s = (EmptyString, s).
Proof. destruct s as [|c s]; simpl; [done|]. by intros ->. Qed.

Lemma take_one_sign_app sgn s :
  sgn ∈ sign_texts → (sgn = EmptyString → stops is_sign s) →
  take_one is_sign (sgn +:+ s) = (sgn, s).
Proof.
  unfold sign_texts. intros H Hs. set_unfold. destruct_or! H; subst; [|done..].
  rewrite append_nil_l. apply take_one_stop. auto.
Qed.

Lemma span_stops f s : stops f (span f s).2.
Proof.
  induction s as [|c s IH]; simpl; [done|]. destruct (f c) eqn:E; [|done].
  by destruct (span f s).
Qed.

Lemma span_app_stops f w rest :
  str_forallb f w = true → stops f rest → span f (w +:+ rest) = (w, rest).
Proof. apply span_app. Qed.

Lemma scan_number_sound s text rest :
  scan_number s = (text, rest) →
  ∃ sgn mant ex, text = sgn +:+ mant +:+ ex ∧ s = text +:+ rest ∧
    sgn ∈ sign_texts ∧ (sgn = EmptyString → stops is_sign s) ∧
    str_forallb is_digit_or_dot mant = true ∧ exponent_text ex rest.
Proof.
  unfold scan_number.
  pose proof (take_one_eq is_sign s) as E1. pose proof (take_one_sign s) as S1.
  pose proof (take_one_stops is_sign s) as T1.
  destruct (take_one is_sign s) as [sgn s1]; simpl in *.
  pose proof (span_eq is_digit_or_dot s1) as E2.
  pose proof (span_forallb is_digit_or_dot s1) as F2.
  pose proof (span_stops is_digit_or_dot s1) as T2.
  destruct (span is_digit_or_dot s1) as [mant s2]; simpl in *.
  assert (sgn = EmptyString → stops is_sign s) as Hst.
  { intros ->. subst s. by rewrite append_nil_l in *; apply T1. }
  destruct s2 as [|m s3]; simpl.
  { intros [= <- <-]. exists sgn, mant, EmptyString.
    rewrite !append_nil_r. rewrite append_nil_r in E2. subst. unfold exponent_text. auto 10. }
  destruct (is_exp_mark m) eqn:Em; simpl.
  2:{ intros [= <- <-]. exists sgn, mant, EmptyString. rewrite append_nil_r.
      subst s s1. rewrite append_assoc. repeat (split; [done|]).
      left. split; [done|]. simpl in *. by rewrite T2, Em. }
  pose proof (take_one_eq is_sign s3) as E3. pose proof (take_one_sign s3) as S3.
  pose proof (take_one_stops is_sign s3) as T3.
  destruct (take_one is_sign s3) as [esgn s4]; simpl in *.
  pose proof (span_eq is_ascii_digit s4) as E4.
  pose proof (span_forallb is_ascii_digit s4) as F4.
  pose proof (span_stops is_ascii_digit s4) as T4.
  destruct (span is_ascii_digit s4) as [ds s5]; simpl in *.
  intros [= <- <-]. exists sgn, mant, (String m (esgn +:+ ds)).
  subst s s1 s3 s4.
  split; [by rewrite ?append_String, ?append_nil_l|].
  split; [by rewrite ?append_assoc, ?append_String, ?append_nil_l, ?append_assoc|].
  repeat (split; [done|]). right. exists m, esgn, ds. repeat (split; [done|]).
  intros -> ->. by apply T3.
Qed.

Lemma stops_impl (f g : ascii → bool) s :
  (∀ c, g c = true → f c = true) → stops f s → stops g s.
Proof.
  intros H. destruct s as [|c s]; simpl; [done|]. intros Hf.
  destruct (g c) eqn:E; [|done]. apply H in E. congruence.
Qed.

Lemma stops_app f w s :
  str_forallb (λ c, negb (f c)) w = true → stops f s → stops f (w +:+ s).
Proof.
  destruct w as [|c w]; [done|]. rewrite append_String. simpl.
  by intros [H%negb_true_iff _]%andb_true_iff _.
Qed.

(** Facts about the finitely many bytes, by evaluation. *)
Ltac by_bytes c :=
  destruct c as [[] [] [] [] [] [] [] []]; vm_compute; try done.

Lemma exp_mark_not_mantissa c : is_exp_mark c = true → is_digit_or_dot c = false.
Proof. by_bytes c. Qed.
Lemma sign_not_mantissa c : is_sign c = true → is_digit_or_dot c = false.
Proof. by_bytes c. Qed.
Lemma sign_not_digit c : is_sign c = true → is_ascii_digit c = false.
Proof. by_bytes c. Qed.
Lemma digit_is_mantissa c : is_ascii_digit c = true → is_digit_or_dot c = true.
Proof. unfold is_digit_or_dot. by intros ->. Qed.

Lemma exponent_text_stops ex rest :
  exponent_text ex rest → stops is_digit_or_dot (ex +:+ rest).
Proof.
  intros [[-> H]|(m & sgn & ds & -> & Hm & _)].
  - revert H. apply stops_impl. intros c ->. done.
  - rewrite append_String. simpl. by apply exp_mark_not_mantissa.
Qed.

Lemma scan_number_complete sgn mant ex rest :
  sgn ∈ sign_texts →
  (sgn = EmptyString →
   match mant with String c _ => is_ascii_digit c = true | _ => False end) →
  str_forallb is_digit_or_dot mant = true → exponent_text ex rest →
  scan_number ((sgn +:+ mant +:+ ex) +:+ rest) = (sgn +:+ mant +:+ ex, rest).
Proof.
  intros Hs Hd Hm Hex. pose proof (exponent_text_stops _ _ Hex) as Hst.
  unfold scan_number. rewrite !append_assoc. rewrite take_one_sign_app; [|done|].
  2:{ intros H%Hd. destruct mant as [|c mant]; [done|]. rewrite append_String. simpl.
      destruct (is_sign c) eqn:E; [|done]. apply sign_not_digit in E. congruence. }
  rewrite span_app_stops by done.
  destruct Hex as [[-> Hr]|(m & esgn & ds & -> & Hmk & Hes & Hds & Hr & Hz)].
  - rewrite append_nil_l, append_nil_r. rewrite take_one_stop; [done|].
    revert Hr. apply stops_impl. intros c ->. apply orb_true_r.
  - rewrite append_String. simpl. rewrite Hmk. simpl.
    rewrite append_assoc, take_one_sign_app; [|done|].
    2:{ intros ->. destruct ds as [|d ds]; [by apply Hz|].
        rewrite append_String. simpl in *. apply andb_true_iff in Hds as [Hd' _].
        destruct (is_sign d) eqn:E; [|done]. apply sign_not_digit in E. congruence. }
    rewrite span_app_stops by done. done.
Qed.

(** ** One token *)

(** The bytes that start each kind of lexeme are disjoint. *)
Definition token_bytes : list ascii :=
  ["."; ","; "*"; "("; ")"; "["; "]"; "="; "!"; "<"; ">"; dquote]%char.

Lemma number_start_fresh c b :
  is_ascii_digit c || is_sign c = true → b ∈ token_bytes → Ascii.eqb c b = false.
Proof.
  intros Hc Hb. apply Ascii.eqb_neq. intros ->. revert Hc.
  unfold token_bytes in Hb. set_unfold. destruct_or! Hb; subst; by vm_compute.
Qed.

Lemma word_start_fresh c b :
  is_word_start c = true → b ∈ token_bytes → Ascii.eqb c b = false.
Proof.
  intros Hc Hb. apply Ascii.eqb_neq. intros ->. revert Hc.
  unfold token_bytes in Hb. set_unfold. destruct_or! Hb; subst; by vm_compute.
Qed.

Lemma word_start_not_number c :
  is_word_start c = true → is_ascii_digit c || is_sign c = false.
Proof. by_bytes c. Qed.

Definition offsets_below (i : nat) (out : list Spanned) : Prop :=
  Forall (λ t, offset t < i) out.

Lemma last_is_string_fresh i out : offsets_below i out → last_is_string_at i out = false.
Proof.
  intros H. unfold last_is_string_at. destruct (last out) as [[t o]|] eqn:E; [|done].
  apply last_Some_elem_of in E. unfold offsets_below in H.
  rewrite Forall_forall in H. apply H in E; simpl in E.
  destruct t; try done. by apply Nat.eqb_neq; lia.
Qed.

Lemma length_sub_append text rest :
  String.length (text +:+ rest) - String.length rest = String.length text.
Proof. rewrite length_append. lia. Qed.

Lemma next_is_cons c s : next_is c s = true → s = String c (tail1 s).
Proof. destruct s as [|b s]; simpl; [done|]. by intros ->%Ascii.eqb_eq. Qed.

Lemma next_is_stops s : next_is "=" s = false → stops (Ascii.eqb "=") s.
Proof. destruct s as [|b s]; simpl; [done|]. by rewrite Ascii.eqb_sym. Qed.

Lemma stops_next_is s : stops (Ascii.eqb "=") s → next_is "=" s = false.
Proof. destruct s as [|b s]; simpl; [done|]. by rewrite Ascii.eqb_sym. Qed.

(** What an iteration that returns does: it reads one lexeme and appends its
    token. *)
Definition token_read (i : nat) (s : string) (out : list Spanned) (st : lex_state) : Prop :=
  ∃ text rest t, s = text +:+ rest ∧ lexeme text rest t ∧
    st = (i + String.length text, rest, out ++ [mk_spanned t i]).

Lemma read_symbol i text rest t out :
  (text, t) ∈ symbols →
  token_read i (text +:+ rest) out
    (i + String.length text, rest, out ++ [mk_spanned t i]).
Proof. intros H. exists text, rest, t. split; [done|]. split; [by constructor|done]. Qed.

Lemma lex_string_token_sound i s1 out st :
  offsets_below i out →
  lex_string_token i s1 out = Ok st → token_read i (String dquote s1) out st.
Proof.
  intros Hout. unfold lex_string_token.
  destruct (lex_string i s1 "") as [[[v|] rest]|e] eqn:El; [| |done].
  - apply lex_string_sound in El as (body & w & -> & Hb & ->).
    unfold last_is_string_at. rewrite last_snoc, Nat.eqb_refl, andb_false_r.
    intros [= <-]. exists (String dquote (body +:+ String dquote "")), rest, (TString w).
    assert (String dquote (body +:+ String dquote rest)
      = String dquote (body +:+ String dquote "") +:+ rest) as E.
    { by rewrite append_String, append_assoc. }
    split; [done|]. split; [by apply lexeme_string|].
    rewrite append_nil_l. do 3 f_equal.
    change (S (String.length (body +:+ String dquote rest)))
      with (String.length (String dquote (body +:+ String dquote rest))).
    by rewrite E, length_sub_append.
  - apply lex_string_open in El as ->. by rewrite last_is_string_fresh.
Qed.

Lemma lex_number_token_sound i c s1 out st :
  is_ascii_digit c || is_sign c = true →
  lex_number_token i (String c s1) out = Ok st → token_read i (String c s1) out st.
Proof.
  intros Ec. unfold lex_number_token.
  destruct (scan_number (String c s1)) as [text rest] eqn:Es.
  destruct (parse_f64 text) as [n|] eqn:En; [|done]. intros [= <-].
  apply scan_number_sound in Es as (sgn & mant & ex & -> & Eq & Hs & Hst & Hm & Hex).
  exists (sgn +:+ mant +:+ ex), rest, (TNumber n). split; [done|]. split.
  - apply lexeme_number; try done. intros ->.
    specialize (Hst eq_refl). simpl in Hst. rewrite Hst, orb_false_r in Ec.
    destruct mant as [|d mant].
    { exfalso. rewrite !append_nil_l in Eq.
      pose proof (exponent_text_stops _ _ Hex) as Hx. rewrite <- Eq in Hx.
      simpl in Hx. apply digit_is_mantissa in Ec. congruence. }
    rewrite append_nil_l, append_String in Eq. injection Eq as -> _. done.
  - change (S (String.length s1)) with (String.length (String c s1)).
    by rewrite Eq, length_sub_append.
Qed.

Lemma lex_word_token_sound i c s1 out st :
  is_word_start c = true →
  lex_word_token i c s1 out = Ok st → token_read i (String c s1) out st.
Proof.
  intros Ew. unfold lex_word_token.
  pose proof (span_eq is_word_char s1) as Eq.
  pose proof (span_forallb is_word_char s1) as Hf.
  pose proof (span_stops is_word_char s1) as Hst.
  destruct (span is_word_char s1) as [w rest]; simpl in Eq, Hf, Hst. intros [= <-].
  exists (String c w), rest, (word_tok (String c w)). subst s1.
  split; [done|]. split; [by apply lexeme_word|].
  change (S (String.length (w +:+ rest))) with (String.length (String c w +:+ rest)).
  by rewrite length_sub_append.
Qed.

Lemma read_one i b s1 t out st :
  (String b "", t) ∈ symbols → push1 i s1 out t = Ok st →
  token_read i (String b s1) out st.
Proof. intros Hin [= <-]. by apply (read_symbol i (String b "")). Qed.

Lemma read_two i b s1 t out st :
  (String b "=", t) ∈ symbols → next_is "=" s1 = true → push2 i s1 out t = Ok st →
  token_read i (String b s1) out st.
Proof.
  intros Hin Hn [= <-]. rewrite (next_is_cons _ _ Hn) at 1.
  by apply (read_symbol i (String b "=")).
Qed.

Lemma read_less i b s1 t out st :
  (∀ r, stops (Ascii.eqb "=") r → lexeme (String b "") r t) →
  next_is "=" s1 = false → push1 i s1 out t = Ok st →
  token_read i (String b s1) out st.
Proof.
  intros Hl Hn [= <-]. exists (String b ""), s1, t. split; [done|].
  split; [by apply Hl, next_is_stops|done].
Qed.

Ltac in_symbols := unfold symbols; repeat constructor.

(** Split the dispatch of [lex_token] on the byte [c]. *)
Ltac dispatch c :=
  repeat match goal with
  | |- context [if Ascii.eqb c ?b then _ else _] =>
      let H := fresh "E" in
      destruct (Ascii.eqb c b) eqn:H; [apply Ascii.eqb_eq in H as ->|]
  end.

Lemma lex_token_sound i c s1 out st :
  offsets_below i out →
  lex_token i c s1 out = Ok st → token_read i (String c s1) out st.
Proof.
  intros Hout. unfold lex_token. dispatch c.
  1-8: apply read_one; in_symbols.
  - destruct (next_is "=" s1) eqn:En; [|done]. apply read_two; [in_symbols|done].
  - destruct (next_is "=" s1) eqn:En.
    + apply read_two; [in_symbols|done].
    + by apply read_less; [apply lexeme_lt|].
  - destruct (next_is "=" s1) eqn:En.
    + apply read_two; [in_symbols|done].
    + by apply read_less; [apply lexeme_gt|].
  - by apply lex_string_token_sound.
  - destruct (is_ascii_digit c || is_sign c) eqn:Ec; [by apply lex_number_token_sound|].
    destruct (is_word_start c) eqn:Ew; [by apply lex_word_token_sound|done].
Qed.

Lemma lex_string_token_complete i body v rest out :
  str_body body v →
  lex_string_token i ((body +:+ String dquote "") +:+ rest) out
  = Ok (i + S (String.length (body +:+ String dquote "")), rest,
        out ++ [mk_spanned (TString v) i]).
Proof.
  intros Hb. unfold lex_string_token.
  rewrite append_assoc, append_String, append_nil_l, (lex_string_complete _ _ v) by done.
  unfold last_is_string_at. rewrite last_snoc, Nat.eqb_refl, andb_false_r, append_nil_l.
  do 3 f_equal. rewrite !length_append. simpl. lia.
Qed.

Lemma lex_number_token_complete i sgn mant ex rest n out :
  sgn ∈ sign_texts →
  (sgn = EmptyString →
   match mant with String c _ => is_ascii_digit c = true | _ => False end) →
  str_forallb is_digit_or_dot mant = true → exponent_text ex rest →
  parse_f64 (sgn +:+ mant +:+ ex) = Some n →
  lex_number_token i ((sgn +:+ mant +:+ ex) +:+ rest) out
  = Ok (i + String.length (sgn +:+ mant +:+ ex), rest, out ++ [mk_spanned (TNumber n) i]).
Proof.
  intros ???? Hn. unfold lex_number_token. rewrite scan_number_complete by done.
  by rewrite Hn, length_sub_append.
Qed.

Lemma lex_word_token_complete i c w rest out :
  str_forallb is_word_char w = true → stops is_word_char rest →
  lex_word_token i c (w +:+ rest) out
  = Ok (i + S (String.length w), rest, out ++ [mk_spanned (word_tok (String c w)) i]).
Proof.
  intros Hw Hr. unfold lex_word_token. rewrite span_app_stops by done.
  do 3 f_equal. rewrite length_append. lia.
Qed.

(** The dispatch on the first byte of a number or of a word. *)
Lemma lex_token_number i c s1 out :
  is_ascii_digit c || is_sign c = true →
  lex_token i c s1 out = lex_number_token i (String c s1) out.
Proof.
  intros Hc. unfold lex_token.
  rewrite !(number_start_fresh c) by (done || unfold token_bytes; set_solver). by rewrite Hc.
Qed.

Lemma lex_token_word i c s1 out :
  is_word_start c = true → lex_token i c s1 out = lex_word_token i c s1 out.
Proof.
  intros Hc. unfold lex_token.
  rewrite !(word_start_fresh c) by (done || unfold token_bytes; set_solver).
  by rewrite word_start_not_number, Hc.
Qed.

Lemma number_first_byte sgn mant s :
  sgn ∈ sign_texts →
  (sgn = EmptyString →
   match mant with String c _ => is_ascii_digit c = true | _ => False end) →
  ∃ c s', sgn +:+ mant +:+ s = String c s' ∧ is_ascii_digit c || is_sign c = true.
Proof.
  unfold sign_texts. intros H Hd. set_unfold. destruct_or! H; subst.
  - specialize (Hd eq_refl). destruct mant as [|d mant]; [done|].
    exists d, (mant +:+ s). by rewrite Hd.
  - by eexists _, _.
  - by eexists _, _.
Qed.

Lemma lex_token_complete i c s1 text rest t out :
  lexeme text rest t → String c s1 = text +:+ rest →
  lex_token i c s1 out
  = Ok (i + String.length text, rest, out ++ [mk_spanned t i]) ∧
  is_ascii_whitespace c = false.
Proof.
  intros Hl E. destruct Hl as [text rest t Hin|rest Hr|rest Hr|body rest v Hb
    |sgn mant ex rest n Hs Hd Hm Hex Hn|c' w rest Hc Hw Hr].
  - unfold symbols in Hin. set_unfold. destruct_or! Hin; simplify_eq;
      rewrite ?append_String, ?append_nil_l in E; by simplify_eq.
  - rewrite append_String, append_nil_l in E. simplify_eq.
    unfold lex_token. simpl. by rewrite stops_next_is.
  - rewrite append_String, append_nil_l in E. simplify_eq.
    unfold lex_token. simpl. by rewrite stops_next_is.
  - rewrite append_String in E. simplify_eq. split; [|done].
    by apply lex_string_token_complete.
  - destruct (number_first_byte sgn mant (ex +:+ rest)) as (c' & s' & E' & Hc); [done..|].
    assert (c' = c) as ->.
    { pose proof E as E2. rewrite !append_assoc, E' in E2. congruence. }
    split; [|clear E; revert Hc; by_bytes c].
    rewrite lex_token_number, E by done. by apply lex_number_token_complete.
  - rewrite append_String in E. simplify_eq.
    split; [|clear - Hc; revert Hc; by_bytes c'].
    rewrite lex_token_word by done. by apply lex_word_token_complete.
Qed.

(** ** The token stream *)

Lemma lexeme_length text rest t : lexeme text rest t → 0 < String.length text.
Proof.
  destruct 1 as [text rest t Hin|rest Hr|rest Hr|body rest v Hb
    |sgn mant ex rest n Hs Hd Hm Hex Hn|c' w rest Hc Hw Hr]; simpl; try lia.
  - unfold symbols in Hin. set_unfold. destruct_or! Hin; simplify_eq; simpl; lia.
  - destruct (number_first_byte sgn mant ex) as (c & s & -> & _); [done..|]. simpl. lia.
Qed.

Lemma offsets_below_snoc i j out t :
  i < j → offsets_below i out → offsets_below j (out ++ [mk_spanned t i]).
Proof.
  intros Hij H. apply Forall_app. split; [|by repeat constructor].
  eapply Forall_impl; [exact H|]. simpl. lia.
Qed.

Lemma offsets_below_mono i j out : i ≤ j → offsets_below i out → offsets_below j out.
Proof. intros Hij H. eapply Forall_impl; [exact H|]. simpl. lia. Qed.

Lemma lex_loop_sound fuel i s out l :
  offsets_below i out → lex_loop fuel i s out = Some (Ok l) →
  ∃ l', l = out ++ l' ∧ lexes i s l'.
Proof.
  revert i s out. induction fuel as [|fuel IH]; intros i s out Hout.
  - destruct s; [|done]. intros [= <-]. exists []. rewrite app_nil_r. by repeat constructor.
  - destruct s as [|c s1]; simpl.
    { intros [= <-]. exists []. rewrite app_nil_r. by repeat constructor. }
    destruct (is_ascii_whitespace c) eqn:Ew.
    + intros (l' & -> & Hl)%IH; [|by apply (offsets_below_mono i); [lia|]].
      exists l'. split; [done|]. by constructor.
    + destruct (lex_token i c s1 out) as [[[i' rest] out']|e] eqn:Et; [|done].
      apply lex_token_sound in Et as (text & rest' & t & Es & Hlx & [= -> -> ->]); [|done].
      pose proof (lexeme_length _ _ _ Hlx) as Hlen.
      intros (l' & -> & Hl)%IH; [|by apply offsets_below_snoc; [lia|]].
      exists (mk_spanned t i :: l'). rewrite <- app_assoc, Es. split; [done|].
      by constructor.
Qed.

Lemma lex_loop_complete i s l out fuel :
  lexes i s l → String.length s ≤ fuel → lex_loop fuel i s out = Some (Ok (out ++ l)).
Proof.
  intros Hl. revert out fuel.
  induction Hl as [i|i c s l Hw Hl IH|i text rest t l Hx Hl IH]; intros out fuel Hf.
  - rewrite app_nil_r. by destruct fuel.
  - destruct fuel as [|fuel]; simpl in *; [lia|]. rewrite Hw. apply IH. lia.
  - pose proof (lexeme_length _ _ _ Hx) as Hlen. rewrite length_append in Hf.
    destruct (text +:+ rest) as [|c s1] eqn:E.
    { apply (f_equal String.length) in E. rewrite length_append in E. simpl in E. lia. }
    destruct fuel as [|fuel]; [lia|]. simpl.
    destruct (lex_token_complete i c s1 _ _ _ out Hx) as [-> ->]; [done|].
    rewrite IH by lia. by rewrite <- app_assoc.
Qed.

(** Enough fuel always yields a result; an error points at an offset inside
    the text. *)
Lemma lex_token_err i c s1 out e :
  lex_token i c s1 out = Err e → ∃ msg, e = EParse i msg.
Proof.
  unfold lex_token, push1, push2. dispatch c; try done.
  - destruct (next_is "=" s1); [done|]. intros; simplify_eq; eauto.
  - by destruct (next_is "=" s1).
  - by destruct (next_is "=" s1).
  - unfold lex_string_token. destruct (lex_string i s1 "") as [[v rest]|e'] eqn:El.
    + case_match; [|done]. intros; simplify_eq; eauto.
    + intros; simplify_eq. by eapply lex_string_err.
  - destruct (is_ascii_digit c || is_sign c).
    + unfold lex_number_token. destruct (scan_number _) as [text rest].
      case_match; [done|]. intros; simplify_eq; eauto.
    + destruct (is_word_start c); [|intros; simplify_eq; eauto].
      unfold lex_word_token. by destruct (span is_word_char s1).
Qed.

Lemma lex_loop_total fuel i s out :
  offsets_below i out → String.length s ≤ fuel →
  (∃ l, lex_loop fuel i s out = Some (Ok l)) ∨
  (∃ o msg, lex_loop fuel i s out = Some (Err (EParse o msg)) ∧
     i ≤ o < i + String.length s).
Proof.
  revert i s out. induction fuel as [|fuel IH]; intros i s out Hout Hf.
  { destruct s; simpl in *; [eauto|lia]. }
  destruct s as [|c s1]; simpl in *; [eauto|].
  destruct (is_ascii_whitespace c).
  - destruct (IH (i + 1) s1 out) as [|(o & msg & -> & ?)]; [|lia|auto|].
    + by apply (offsets_below_mono i); [lia|].
    + right. exists o, msg. split; [done|lia].
  - destruct (lex_token i c s1 out) as [[[i' rest] out']|e] eqn:Et.
    + apply lex_token_sound in Et as (text & rest' & t & Es & Hlx & [= -> -> ->]); [|done].
      pose proof (lexeme_length _ _ _ Hlx) as Hlen.
      apply (f_equal String.length) in Es. rewrite length_append in Es. simpl in Es.
      destruct (IH (i + String.length text) rest' (out ++ [mk_spanned t i]))
        as [|(o & msg & -> & ?)]; [|lia|auto|].
      * by apply offsets_below_snoc; [lia|].
      * right. exists o, msg. split; [done|lia].
    + apply lex_token_err in Et as [msg ->]. right. exists i, msg. split; [done|lia].
Qed.

(** ** Properties *)

Lemma tokenize_lexes src l : tokenize src = Some (Ok l) ↔ lexes 0 src l.
Proof.
  unfold tokenize. split.
  - intros (l' & -> & H)%lex_loop_sound; [done|constructor].
  - intros H. by rewrite (lex_loop_complete _ _ l).
Qed.


Lemma tokenize_returns src :
  (∃ l, tokenize src = Some (Ok l)) ∨
  (∃ o msg, tokenize src = Some (Err (EParse o msg)) ∧ o < String.length src).
Proof.
  destruct (lex_loop_total (String.length src) 0 src []) as [|(o & msg & ? & ?)];
    [constructor|done|by left|].
  right. exists o, msg. split; [done|lia].
Qed.

(** The tokenizer terminates on every input with one unit of fuel per
    byte, and its only failure is a parse error at an offset inside the
    source. *)
Theorem tokenize_total (src : string) :
  (∃ l, tokenize src = Some (Ok l)) ∨
  (∃ o msg, tokenize src = Some (Err (EParse o msg)) ∧ o < String.length src).
Proof. apply tokenize_returns. Qed.

Lemma lexes_located i s l o t :
  lexes i s l → mk_spanned t o ∈ l →
  ∃ pre text rest, s = pre +:+ text +:+ rest ∧ o = i + String.length pre ∧
    lexeme text rest t.
Proof.
  induction 1 as [i|i c s l Hw Hl IH|i text rest t' l Hx Hl IH]; intros Hin.
  - by apply not_elem_of_nil in Hin.
  - destruct (IH Hin) as (pre & text & rest & -> & -> & Hlx).
    exists (String c pre), text, rest. split; [done|]. split; [simpl; lia|done].
  - apply elem_of_cons in Hin as [[= -> ->]|Hin].
    + exists EmptyString, text, rest. split; [done|]. split; [simpl; lia|done].
    + destruct (IH Hin) as (pre & text2 & rest2 & -> & -> & Hlx).
      exists (text +:+ pre), text2, rest2. rewrite append_assoc, length_append.
      split; [done|]. split; [lia|done].
Qed.

(** The literal of a string token that was written in ASCII without escapes is
    the text between the quotes. *)
Definition plain_byte (c : ascii) : bool :=
  is_ascii c && negb (Ascii.eqb c dquote) && negb (Ascii.eqb c backslash).

Lemma encode_char_ascii c : is_ascii c = true → encode_char (byte_code c) = String c "".
Proof.
  unfold is_ascii, encode_char. intros ->. unfold byte_of, byte_code.
  by rewrite ascii_N_embedding.
Qed.

Lemma str_body_plain s : str_forallb plain_byte s = true → str_body s s.
Proof.
  induction s as [|c s IH]; [constructor|]. simpl. unfold plain_byte at 1.
  intros [[[Ha Hq%negb_true_iff]%andb_true_iff Hb%negb_true_iff]%andb_true_iff
    Hs]%andb_true_iff.
  pose proof (body_char c s s) as H.
  rewrite encode_char_ascii, append_String, append_nil_l in H by done.
  apply H; [by apply Ascii.eqb_neq..|by apply IH].
Qed.

(** A quoted ASCII text without quotes and backslashes is tokenized to the
    string token with exactly that text. *)
Theorem string_literal_roundtrip (s : string) :
  str_forallb plain_byte s = true →
  tokenize (String dquote (s +:+ String dquote "")) = Some (Ok [mk_spanned (TString s) 0]).
Proof.
  intros H. apply tokenize_lexes.
  pose proof (lexes_token 0 (String dquote (s +:+ String dquote "")) "" (TString s) []) as Hl.
  rewrite append_nil_r in Hl. apply Hl; [|constructor].
  by apply lexeme_string, str_body_plain.
Qed.

Lemma string_literal_roundtrip_witness :
  str_forallb plain_byte "led-1" = true ∧
  tokenize (String dquote ("led-1" +:+ String dquote ""))
  = Some (Ok [mk_spanned (TString "led-1") 0]).
Proof. split; [reflexivity|apply string_literal_roundtrip; reflexivity]. Defined.

(** The two UTF-8 bytes of the character U+00E9. *)
Definition e_acute : string := String "195" (String "169" EmptyString).

(** A string literal that holds a non-ASCII character does not denote that
    character: each byte of its UTF-8 encoding becomes a character of its own,
    so the two-byte U+00E9 is read as the four bytes of U+00C3 U+00A9. *)
Theorem string_literal_non_ascii :
  tokenize (String dquote (e_acute +:+ String dquote "")) =
    Some (Ok [mk_spanned (TString (encode_char 195 +:+ encode_char 169)) 0]) ∧
  encode_char 195 +:+ encode_char 169 ≠ e_acute.
Proof. split; [vm_compute; reflexivity|vm_compute; discriminate]. Qed.
