(* ===== verification/Parser.v ===== *)
(** The CaQL parser ([caql/parse.rs]) and the entry point [caql::parse]. The
    cursor [pos] is modelled by the suffix of the token slice that starts
    there. A declarative grammar on tokens specifies the parser; it is proved
    sound, complete and total. *)

From S2P Require Import Prelude F64 Json Query Lexer.

(** ** The parser *)

Abbreviation toks := (list Spanned).

(** [Parser::err]: the offset of the current token, 0 at the end. *)
Definition err_at (p : toks) (msg : string) : QueryError :=
  EParse (match p with t :: _ => offset t | [] => 0 end) msg.

(** A parsing step: [None] when the fuel ran out, otherwise what the Rust
    method returns, with the cursor it leaves behind. *)
Definition pres (A : Type) : Type := option (result QueryError (A * toks)).

Definition pret {A} (a : A) (p : toks) : pres A := Some (Ok (a, p)).
Definition pfail {A} (p : toks) (msg : string) : pres A := Some (Err (err_at p msg)).
Definition pbind {A B} (r : pres A) (k : A → toks → pres B) : pres B :=
  match r with
  | Some (Ok (a, p)) => k a p
  | Some (Err e) => Some (Err e)
  | None => None
  end.

Notation "'let!' ( x , p ) ':=' r 'in' k" := (pbind r (λ x p, k))
  (at level 10, x name, p name, r at level 100, k at level 200) : rust_scope.

(** [parse_path]: the loop after the first identifier, then the method. A
    token that is no identifier has been consumed when the error is built. *)
Fixpoint parse_path_loop (segs : list string) (p : toks) : pres FieldPath :=
  match p with
  | mk_spanned TDot _ :: p1 =>
      match p1 with
      | mk_spanned (TIdent id) _ :: p2 => parse_path_loop (segs ++ [id]) p2
      | _ :: p2 => pfail p2 "expected identifier after `.`"
      | [] => pfail [] "expected identifier after `.`"
      end
  | _ => pret segs p
  end.

Definition parse_path (p : toks) : pres FieldPath :=
  match p with
  | mk_spanned (TIdent id) _ :: p1 => parse_path_loop [id] p1
  | _ :: p1 => pfail p1 "expected identifier"
  | [] => pfail [] "expected identifier, got end of input"
  end.

(** [parse_projection]; the loop consumes a token per iteration, so the
    number of tokens left bounds it. *)
Fixpoint parse_projection_loop (fuel : nat) (paths : list FieldPath) (p : toks)
    : pres Projection :=
  match p with
  | mk_spanned TComma _ :: p1 =>
      match fuel with
      | O => None
      | S fuel' =>
          let! (path, p2) := parse_path p1 in
          parse_projection_loop fuel' (paths ++ [path]) p2
      end
  | _ => pret (Fields paths) p
  end.

Definition parse_projection (p : toks) : pres Projection :=
  match p with
  | mk_spanned TStar _ :: p1 => pret All p1
  | _ =>
      let! (path, p1) := parse_path p in
      parse_projection_loop (length p1) [path] p1
  end.

(** [parse_value] and the loop over the items of an array. *)
Fixpoint parse_value (fuel : nat) (p : toks) : pres Literal :=
  match fuel with
  | O => None
  | S fuel' =>
      match p with
      | [] => pfail [] "expected literal value"
      | t :: p1 =>
          match tok t with
          | TString v => pret (LString v) p1
          | TNumber n => pret (LNumber n) p1
          | TTrue => pret (LBool true) p1
          | TFalse => pret (LBool false) p1
          | TNull => pret LNull p1
          | TLBracket =>
              let! (items, p2) :=
                match p1 with
                | mk_spanned TRBracket _ :: _ => pret [] p1
                | _ => let! (v, p2) := parse_value fuel' p1 in
                       parse_items fuel' [v] p2
                end in
              match p2 with
              | mk_spanned TRBracket _ :: p3 => pret (LArray items) p3
              | _ :: p3 => pfail p3 "expected `]`"
              | [] => pfail [] "expected `]`"
              end
          | _ => pfail p1 "expected literal value"
          end
      end
  end
with parse_items (fuel : nat) (items : list Literal) (p : toks) : pres (list Literal) :=
  match fuel with
  | O => None
  | S fuel' =>
      match p with
      | mk_spanned TComma _ :: p1 =>
          let! (v, p2) := parse_value fuel' p1 in
          parse_items fuel' (items ++ [v]) p2
      | _ => pret items p
      end
  end.

Definition comparison_op (t : Tok) : option ComparisonOp :=
  match t with
  | TEq => Some OpEq
  | TNe => Some OpNe
  | TLt => Some OpLt
  | TLe => Some OpLe
  | TGt => Some OpGt
  | TGe => Some OpGe
  | TLike => Some OpLike
  | TIn => Some OpInSet
  | _ => None
  end.

Definition is_array (v : Literal) : bool :=
  match v with LArray _ => true | _ => false end.

(** [parse_cmp] after the parenthesised case. *)
Definition parse_comparison (fuel : nat) (p : toks) : pres Predicate :=
  let! (lhs, p1) := parse_path p in
  match p1 with
  | mk_spanned TContains _ :: p2 =>
      let! (rhs, p3) := parse_value fuel p2 in
      if is_array rhs
      then pfail p3 "`contains` rhs must be a single literal, not an array"
      else pret (PContains lhs rhs) p3
  | [] => pfail [] "expected comparison operator"
  | t :: p2 =>
      match comparison_op (tok t) with
      | Some op =>
          let! (rhs, p3) := parse_value fuel p2 in
          pret (PCompare lhs op rhs) p3
      | None => pfail p2 "expected comparison operator"
      end
  end.

Fixpoint parse_or (fuel : nat) (p : toks) : pres Predicate :=
  match fuel with
  | O => None
  | S fuel' =>
      let! (lhs, p1) := parse_and fuel' p in parse_or_loop fuel' lhs p1
  end
with parse_or_loop (fuel : nat) (lhs : Predicate) (p : toks) : pres Predicate :=
  match fuel with
  | O => None
  | S fuel' =>
      match p with
      | mk_spanned TOr _ :: p1 =>
          let! (rhs, p2) := parse_and fuel' p1 in
          parse_or_loop fuel' (POr [lhs; rhs]) p2
      | _ => pret lhs p
      end
  end
with parse_and (fuel : nat) (p : toks) : pres Predicate :=
  match fuel with
  | O => None
  | S fuel' =>
      let! (lhs, p1) := parse_not fuel' p in parse_and_loop fuel' lhs p1
  end
with parse_and_loop (fuel : nat) (lhs : Predicate) (p : toks) : pres Predicate :=
  match fuel with
  | O => None
  | S fuel' =>
      match p with
      | mk_spanned TAnd _ :: p1 =>
          let! (rhs, p2) := parse_not fuel' p1 in
          parse_and_loop fuel' (PAnd [lhs; rhs]) p2
      | _ => pret lhs p
      end
  end
with parse_not (fuel : nat) (p : toks) : pres Predicate :=
  match fuel with
  | O => None
  | S fuel' =>
      match p with
      | mk_spanned TNot _ :: p1 =>
          let! (inner, p2) := parse_not fuel' p1 in pret (PNot inner) p2
      | mk_spanned TExists _ :: p1 =>
          let! (path, p2) := parse_path p1 in pret (PExists path) p2
      | _ => parse_cmp fuel' p
      end
  end
with parse_cmp (fuel : nat) (p : toks) : pres Predicate :=
  match fuel with
  | O => None
  | S fuel' =>
      match p with
      | mk_spanned TLParen _ :: p1 =>
          let! (inner, p2) := parse_or fuel' p1 in
          match p2 with
          | mk_spanned TRParen _ :: p3 => pret inner p3
          | _ :: p3 => pfail p3 "expected `)`"
          | [] => pfail [] "expected `)`"
          end
      | _ => parse_comparison fuel' p
      end
  end.

(** Fuel for [n] tokens: a level of parentheses goes through four methods. *)
Definition parse_fuel (p : toks) : nat := 4 * length p + 4.

Definition parse_query (ts : toks) : option (result QueryError Query) :=
  match
    let! (projection, p1) :=
      match ts with
      | mk_spanned TSelect _ :: p => parse_projection p
      | _ => pret All ts
      end in
    let! (predicate, p2) :=
      match p1 with
      | mk_spanned TWhere _ :: p => parse_or (parse_fuel p) p
      | _ => pret PTrue p1
      end in
    match p2 with
    | [] => pret (mk_query projection predicate) []
    | _ => pfail p2 "unexpected trailing tokens"
    end
  with
  | Some (Ok (q, _)) => Some (Ok q)
  | Some (Err e) => Some (Err e)
  | None => None
  end.

(** [caql::parse] *)
Definition parse (input : string) : option (result QueryError Query) :=
  match tokenize input with
  | Some (Ok ts) => parse_query ts
  | Some (Err e) => Some (Err e)
  | None => None
  end.

Example parse_example :
  parse "select kind, a.b where not (a = null or exists b.c) and n in [1, true]" =
  Some (Ok (mk_query (Fields [["kind"]; ["a"; "b"]])
    (PAnd [PNot (POr [PCompare ["a"] OpEq LNull; PExists ["b"; "c"]]);
           PCompare ["n"] OpInSet (LArray [LNumber (decimal_to_f64 false 1 0); LBool true])]))).
Proof. vm_compute. reflexivity. Qed.
Example parse_incomplete :
  parse "where kind =" = Some (Err (EParse 0 "expected literal value")).
Proof. vm_compute. reflexivity. Qed.

(** ** More fuel never changes a result *)

(** [y] is at least as defined as [x]. *)
Definition refines {A} (x y : option A) : Prop := ∀ r, x = Some r → y = Some r.
Infix "⊑f" := refines (at level 70).

Lemma refines_refl {A} (x : option A) : x ⊑f x.
Proof. by intros r. Qed.

Lemma refines_None {A} (y : option A) : None ⊑f y.
Proof. by intros r. Qed.

Lemma pbind_refines {A B} (r r' : pres A) (k k' : A → toks → pres B) :
  r ⊑f r' → (∀ a p, k a p ⊑f k' a p) → pbind r k ⊑f pbind r' k'.
Proof.
  intros Hr Hk x. unfold pbind. destruct r as [v|]; [|done].
  rewrite (Hr v eq_refl). destruct v as [[a p]|e]; [apply Hk|done].
Qed.

#[local] Hint Resolve refines_refl refines_None pbind_refines : core.

Lemma value_fuel_step f :
  (∀ p, parse_value f p ⊑f parse_value (S f) p) ∧
  (∀ items p, parse_items f items p ⊑f parse_items (S f) items p).
Proof.
  induction f as [|f [IHv IHi]]; [by split|]. split.
  - intros p. cbn [parse_value]. destruct p as [|[t o] p]; [done|]. cbn [tok].
    destruct t; try done. apply pbind_refines; [|done].
    destruct p as [|[t' o'] p]; [by apply pbind_refines|].
    destruct t'; try done; by apply pbind_refines.
  - intros items p. cbn [parse_items]. destruct p as [|[t o] p]; [done|].
    destruct t; try done. by apply pbind_refines.
Qed.

Lemma parse_value_step f p : parse_value f p ⊑f parse_value (S f) p.
Proof. apply value_fuel_step. Qed.

Lemma parse_comparison_step f p : parse_comparison f p ⊑f parse_comparison (S f) p.
Proof.
  unfold parse_comparison. apply pbind_refines; [done|]. intros lhs q.
  destruct q as [|[t o] q]; [done|]. destruct t; try done; cbn [tok comparison_op];
    apply pbind_refines; auto using parse_value_step.
Qed.

Record fuel_steps (f : nat) : Prop := {
  fs_or p : parse_or f p ⊑f parse_or (S f) p;
  fs_or_loop l p : parse_or_loop f l p ⊑f parse_or_loop (S f) l p;
  fs_and p : parse_and f p ⊑f parse_and (S f) p;
  fs_and_loop l p : parse_and_loop f l p ⊑f parse_and_loop (S f) l p;
  fs_not p : parse_not f p ⊑f parse_not (S f) p;
  fs_cmp p : parse_cmp f p ⊑f parse_cmp (S f) p
}.

Lemma predicate_fuel_step f : fuel_steps f.
Proof.
  induction f as [|f [IHo IHol IHa IHal IHn IHc]]; [by split|]. split.
  - intros p. cbn [parse_or]. by apply pbind_refines.
  - intros l p. cbn [parse_or_loop]. destruct p as [|[t o] p]; [done|].
    destruct t; try done. by apply pbind_refines.
  - intros p. cbn [parse_and]. by apply pbind_refines.
  - intros l p. cbn [parse_and_loop]. destruct p as [|[t o] p]; [done|].
    destruct t; try done. by apply pbind_refines.
  - intros p. cbn [parse_not]. destruct p as [|[t o] p]; [apply IHc|].
    destruct t; try apply IHc; by apply pbind_refines.
  - intros p. cbn [parse_cmp].
    destruct p as [|[t o] p]; [apply parse_comparison_step|].
    destruct t; try apply parse_comparison_step. by apply pbind_refines.
Qed.

Lemma refines_mono {A} (F : nat → option A) :
  (∀ f, F f ⊑f F (S f)) → ∀ f g, f ≤ g → F f ⊑f F g.
Proof. intros H f g. induction 1; [done|]. intros r Hr. by apply H, IHle. Qed.

Lemma parse_value_mono f g p : f ≤ g → parse_value f p ⊑f parse_value g p.
Proof. apply (refines_mono (λ f, parse_value f p)), (λ f, parse_value_step f p). Qed.
Lemma parse_items_mono f g l p : f ≤ g → parse_items f l p ⊑f parse_items g l p.
Proof. apply (refines_mono (λ f, parse_items f l p)). intros h. apply value_fuel_step. Qed.
Lemma parse_or_mono f g p : f ≤ g → parse_or f p ⊑f parse_or g p.
Proof. apply (refines_mono (λ f, parse_or f p)). intros h. apply predicate_fuel_step. Qed.
Lemma parse_or_loop_mono f g l p : f ≤ g → parse_or_loop f l p ⊑f parse_or_loop g l p.
Proof. apply (refines_mono (λ f, parse_or_loop f l p)). intros h. apply predicate_fuel_step. Qed.
Lemma parse_and_mono f g p : f ≤ g → parse_and f p ⊑f parse_and g p.
Proof. apply (refines_mono (λ f, parse_and f p)). intros h. apply predicate_fuel_step. Qed.
Lemma parse_and_loop_mono f g l p : f ≤ g → parse_and_loop f l p ⊑f parse_and_loop g l p.
Proof. apply (refines_mono (λ f, parse_and_loop f l p)). intros h. apply predicate_fuel_step. Qed.
Lemma parse_not_mono f g p : f ≤ g → parse_not f p ⊑f parse_not g p.
Proof. apply (refines_mono (λ f, parse_not f p)). intros h. apply predicate_fuel_step. Qed.
Lemma parse_cmp_mono f g p : f ≤ g → parse_cmp f p ⊑f parse_cmp g p.
Proof. apply (refines_mono (λ f, parse_cmp f p)). intros h. apply predicate_fuel_step. Qed.

(** ** Enough fuel always gives a result *)

(** [steps n p r]: started at [p], the method returned; on success it consumed
    at least [n] tokens, on failure the error names the offset of a token of
    [p], or 0 at the end of the input. *)
Definition steps {A} (n : nat) (p : toks) (r : pres A) : Prop :=
  match r with
  | None => False
  | Some (Ok (_, p')) => p' `suffix_of` p ∧ length p' + n ≤ length p
  | Some (Err e) => ∃ o msg, e = EParse o msg ∧ (o = 0 ∨ ∃ t, t ∈ p ∧ offset t = o)
  end.

Lemma suffix_elem (p p' : toks) t : p' `suffix_of` p → t ∈ p' → t ∈ p.
Proof. intros [k ->] H. apply elem_of_app. by right. Qed.

Lemma steps_ret {A} n (p p' : toks) (a : A) :
  p' `suffix_of` p → length p' + n ≤ length p → steps n p (pret a p').
Proof. done. Qed.

Lemma steps_fail {A} n (p p' : toks) msg :
  p' `suffix_of` p → steps (A:=A) n p (pfail p' msg).
Proof.
  intros Hs. simpl. eexists _, msg. split; [done|].
  destruct p' as [|t p']; [by left|right]. exists t. split; [|done].
  eapply suffix_elem; [done|]. by constructor.
Qed.

Lemma steps_suffix {A} n m (p p' : toks) (r : pres A) :
  p' `suffix_of` p → m + length p' ≤ length p → steps n p' r → steps (n + m) p r.
Proof.
  intros Hs Hl. destruct r as [[[a q]|e]|]; [| |done]; simpl.
  - intros [? ?]. split; [by etrans|lia].
  - intros (o & msg & -> & H). exists o, msg. split; [done|].
    destruct H as [?|(t & ? & ?)]; [by left|right]. eauto using suffix_elem.
Qed.

Lemma steps_weaken {A} n m p (r : pres A) : n ≤ m → steps m p r → steps n p r.
Proof. intros. destruct r as [[[a q]|e]|]; simpl in *; intuition lia. Qed.

Lemma steps_bind {A B} n m p (r : pres A) (k : A → toks → pres B) :
  steps n p r →
  (∀ a p', p' `suffix_of` p → length p' + n ≤ length p → steps m p' (k a p')) →
  steps (m + n) p (pbind r k).
Proof.
  intros Hr Hk. destruct r as [[[a p']|e]|]; simpl in *; try done.
  destruct Hr. apply (steps_suffix m n p p'); [done|lia|by apply Hk].
Qed.

#[local] Arguments steps : simpl never.
#[local] Arguments pbind : simpl never.

Lemma suffix_one (t : Spanned) p : p `suffix_of` t :: p.
Proof. by exists [t]. Qed.
Lemma suffix_two (t u : Spanned) p : p `suffix_of` t :: u :: p.
Proof. by exists [t; u]. Qed.
#[local] Hint Resolve suffix_one suffix_two suffix_nil steps_fail steps_ret : core.

(** Run a step on the tail of the current token. *)
Lemma steps_tail {A} n (t : Spanned) p (r : pres A) : steps n p r → steps (n + 1) (t :: p) r.
Proof. apply (steps_suffix n 1 (t :: p) p); simpl; [done|lia]. Qed.

Lemma parse_path_loop_steps segs p : steps 0 p (parse_path_loop segs p).
Proof.
  revert segs. induction p as [p IH] using (induction_ltof1 _ (@length _)).
  unfold ltof in IH. intros segs.
  destruct p as [|[t o] p1]; simpl; [done|]. destruct t; auto using steps_ret.
  all: try (apply steps_ret; simpl; [done|lia]).
  destruct p1 as [|[t' o'] p2]; [by apply steps_fail|].
  destruct t'; try by apply steps_fail.
  apply (steps_weaken 0 (0 + 2)); [lia|].
  apply (steps_suffix 0 2 _ p2); [done|simpl; lia|]. apply IH. simpl. lia.
Qed.

Lemma parse_path_steps p : steps 1 p (parse_path p).
Proof.
  destruct p as [|[t o] p]; simpl; [by apply steps_fail|].
  destruct t; try by apply steps_fail.
  apply (steps_tail 0), parse_path_loop_steps.
Qed.

Lemma parse_projection_loop_steps f paths p :
  length p ≤ f → steps 0 p (parse_projection_loop f paths p).
Proof.
  revert paths p. induction f as [|f IH]; intros paths p Hf.
  { destruct p; simpl in *; [done|lia]. }
  destruct p as [|[t o] p]; simpl in *; [done|].
  destruct t; try (apply steps_ret; simpl; [done|lia]).
  apply (steps_weaken 0 (0 + 1 + 1)); [lia|]. apply steps_tail, steps_bind.
  - apply parse_path_steps.
  - intros a p' _ ?. apply IH. lia.
Qed.

Lemma parse_projection_steps p : steps 1 p (parse_projection p).
Proof.
  assert (steps 1 p (let! (path, p1) := parse_path p in
                     parse_projection_loop (length p1) [path] p1)) as H.
  { apply (steps_bind 1 0); [apply parse_path_steps|].
    intros. by apply parse_projection_loop_steps. }
  destruct p as [|[t o] p]; [done|]. destruct t; try done.
  apply steps_ret; simpl; [done|lia].
Qed.

Lemma value_steps f :
  (∀ p, length p < f → steps 1 p (parse_value f p)) ∧
  (∀ items p, length p < f → steps 0 p (parse_items f items p)).
Proof.
  induction f as [|f [IHv IHi]]; [split; intros; lia|]. split.
  - intros p Hf. cbn [parse_value]. destruct p as [|[t o] p]; [by apply steps_fail|].
    simpl in Hf. cbn [tok].
    destruct t; try (by apply steps_fail); try (apply steps_ret; simpl; [done|lia]).
    apply (steps_tail 0), (steps_bind 0 0).
    + assert (steps 0 p (let! (v, p2) := parse_value f p in parse_items f [v] p2)) as H.
      { apply (steps_weaken 0 (0 + 1)); [lia|]. apply steps_bind; [apply IHv; lia|].
        intros. apply IHi. lia. }
      destruct p as [|[t' o'] p]; [done|]. destruct t'; try exact H.
      apply steps_ret; [done|lia].
    + intros items p2 _ ?. destruct p2 as [|[t' o'] p3]; [by apply steps_fail|].
      destruct t'; try (by apply steps_fail). apply steps_ret; simpl; [done|lia].
  - intros items p Hf. cbn [parse_items]. destruct p as [|[t o] p]; [done|].
    simpl in Hf. destruct t; try (apply steps_ret; simpl; [done|lia]).
    apply (steps_weaken 0 (0 + 1 + 1)); [lia|]. apply steps_tail, steps_bind.
    + apply IHv. lia.
    + intros. apply IHi. lia.
Qed.

Lemma parse_comparison_steps f p :
  length p ≤ f → steps 1 p (parse_comparison f p).
Proof.
  intros Hf. unfold parse_comparison. apply (steps_bind 1 0); [apply parse_path_steps|].
  intros lhs p1 _ Hl. destruct p1 as [|[t o] p2]; [by apply steps_fail|]. simpl in Hl.
  destruct t; simpl; try (by apply steps_fail).
  all: apply (steps_weaken 0 (0 + 1 + 1)); [lia|]; apply steps_tail, steps_bind;
    [apply value_steps; lia|]; intros rhs p3 _ _.
  all: try (by apply steps_ret; simpl; [|lia]).
  destruct (is_array rhs); [by apply steps_fail|by apply steps_ret; simpl; [|lia]].
Qed.

Record all_steps (f : nat) : Prop := {
  as_or p : 4 * length p + 4 ≤ f → steps 1 p (parse_or f p);
  as_or_loop l p : 4 * length p + 1 ≤ f → steps 0 p (parse_or_loop f l p);
  as_and p : 4 * length p + 3 ≤ f → steps 1 p (parse_and f p);
  as_and_loop l p : 4 * length p + 1 ≤ f → steps 0 p (parse_and_loop f l p);
  as_not p : 4 * length p + 2 ≤ f → steps 1 p (parse_not f p);
  as_cmp p : 4 * length p + 1 ≤ f → steps 1 p (parse_cmp f p)
}.

Lemma predicate_steps f : all_steps f.
Proof.
  induction f as [|f [IHo IHol IHa IHal IHn IHc]]; [split; intros; lia|]. split.
  - intros p Hf. cbn [parse_or]. apply (steps_bind 1 0); [apply IHa; lia|].
    intros. apply IHol. lia.
  - intros l p Hf. cbn [parse_or_loop]. destruct p as [|[t o] p]; [done|].
    simpl in Hf. destruct t; try (apply steps_ret; simpl; [done|lia]).
    apply (steps_weaken 0 (0 + 1 + 1)); [lia|]. apply steps_tail, steps_bind.
    + apply IHa. lia.
    + intros. apply IHol. lia.
  - intros p Hf. cbn [parse_and]. apply (steps_bind 1 0); [apply IHn; lia|].
    intros. apply IHal. lia.
  - intros l p Hf. cbn [parse_and_loop]. destruct p as [|[t o] p]; [done|].
    simpl in Hf. destruct t; try (apply steps_ret; simpl; [done|lia]).
    apply (steps_weaken 0 (0 + 1 + 1)); [lia|]. apply steps_tail, steps_bind.
    + apply IHn. lia.
    + intros. apply IHal. lia.
  - intros p Hf. cbn [parse_not]. destruct p as [|[t o] p]; [apply IHc; lia|].
    simpl in Hf. destruct t; try (apply IHc; simpl; lia).
    + apply (steps_weaken 1 (0 + 1 + 1)); [lia|]. apply steps_tail, steps_bind.
      * apply IHn. lia.
      * intros. by apply steps_ret; [|lia].
    + apply (steps_weaken 1 (0 + 1 + 1)); [lia|]. apply steps_tail, steps_bind.
      * apply parse_path_steps.
      * intros. by apply steps_ret; [|lia].
  - intros p Hf. cbn [parse_cmp].
    destruct p as [|[t o] p]; [apply parse_comparison_steps; lia|]. simpl in Hf.
    destruct t; try (apply parse_comparison_steps; simpl; lia).
    apply (steps_weaken 1 (0 + 1 + 1)); [lia|]. apply steps_tail, steps_bind.
    + apply IHo. lia.
    + intros inner p2 _ ?. destruct p2 as [|[t' o'] p3]; [by apply steps_fail|].
      destruct t'; try (by apply steps_fail). apply steps_ret; simpl; [done|lia].
Qed.

(** ** The grammar *)

(** Paths and literals have one spelling each. *)
Fixpoint path_toks (p : FieldPath) : list Tok :=
  match p with
  | [] => []
  | [s] => [TIdent s]
  | s :: p' => TIdent s :: TDot :: path_toks p'
  end.

Fixpoint comma_sep {A} (f : A → list Tok) (l : list A) : list Tok :=
  match l with
  | [] => []
  | [x] => f x
  | x :: l' => f x ++ TComma :: comma_sep f l'
  end.

Fixpoint value_toks (v : Literal) : list Tok :=
  match v with
  | LString s => [TString s]
  | LNumber n => [TNumber n]
  | LBool true => [TTrue]
  | LBool false => [TFalse]
  | LNull => [TNull]
  | LArray l => TLBracket :: comma_sep value_toks l ++ [TRBracket]
  end.

Definition op_tok (op : ComparisonOp) : Tok :=
  match op with
  | OpEq => TEq | OpNe => TNe | OpLt => TLt | OpLe => TLe
  | OpGt => TGt | OpGe => TGe | OpLike => TLike | OpInSet => TIn
  end.

(** [orExpr], [andExpr], [notExpr] and [primary] of the grammar in the module
    documentation of [caql]; [or] and [and] associate to the left and [not]
    may be repeated. *)
Inductive g_or : list Tok → Predicate → Prop :=
| g_or_one ts p : g_and ts p → g_or ts p
| g_or_more ts1 ts2 p q :
    g_or ts1 p → g_and ts2 q → g_or (ts1 ++ TOr :: ts2) (POr [p; q])
with g_and : list Tok → Predicate → Prop :=
| g_and_one ts p : g_not ts p → g_and ts p
| g_and_more ts1 ts2 p q :
    g_and ts1 p → g_not ts2 q → g_and (ts1 ++ TAnd :: ts2) (PAnd [p; q])
with g_not : list Tok → Predicate → Prop :=
| g_not_not ts p : g_not ts p → g_not (TNot :: ts) (PNot p)
| g_not_exists path : path ≠ [] → g_not (TExists :: path_toks path) (PExists path)
| g_not_cmp ts p : g_cmp ts p → g_not ts p
with g_cmp : list Tok → Predicate → Prop :=
| g_cmp_paren ts p : g_or ts p → g_cmp (TLParen :: ts ++ [TRParen]) p
| g_cmp_contains path v :
    path ≠ [] → is_array v = false →
    g_cmp (path_toks path ++ TContains :: value_toks v) (PContains path v)
| g_cmp_compare path op v :
    path ≠ [] →
    g_cmp (path_toks path ++ op_tok op :: value_toks v) (PCompare path op v).

Scheme g_or_mut := Induction for g_or Sort Prop
with g_and_mut := Induction for g_and Sort Prop
with g_not_mut := Induction for g_not Sort Prop
with g_cmp_mut := Induction for g_cmp Sort Prop.
Combined Scheme grammar_ind from g_or_mut, g_and_mut, g_not_mut, g_cmp_mut.

Inductive g_select : list Tok → Projection → Prop :=
| g_select_absent : g_select [] All
| g_select_star : g_select [TSelect; TStar] All
| g_select_fields paths :
    paths ≠ [] → Forall (λ p, p ≠ []) paths →
    g_select (TSelect :: comma_sep path_toks paths) (Fields paths).

Inductive g_where : list Tok → Predicate → Prop :=
| g_where_absent : g_where [] PTrue
| g_where_pred ts p : g_or ts p → g_where (TWhere :: ts) p.

Inductive g_query : list Tok → Query → Prop :=
| g_query_intro ts1 ts2 pj pr :
    g_select ts1 pj → g_where ts2 pr → g_query (ts1 ++ ts2) (mk_query pj pr).

(** ** Soundness *)

(** [reads p ts p']: going from [p] to [p'] consumes the tokens [ts]. *)
Definition reads (p : toks) (ts : list Tok) (p' : toks) : Prop :=
  ∃ pre, p = pre ++ p' ∧ map tok pre = ts.

Lemma reads_nil p : reads p [] p.
Proof. by exists []. Qed.
Lemma reads_cons t o p ts p' : reads p ts p' → reads (mk_spanned t o :: p) (t :: ts) p'.
Proof. intros (pre & -> & <-). by exists (mk_spanned t o :: pre). Qed.
Lemma reads_app p ts p1 ts' p2 : reads p ts p1 → reads p1 ts' p2 → reads p (ts ++ ts') p2.
Proof.
  intros (pre & -> & <-) (pre' & -> & <-). exists (pre ++ pre').
  by rewrite map_app, app_assoc.
Qed.
#[local] Hint Resolve reads_nil reads_cons reads_app : core.

Lemma pbind_ok {A B} (r : pres A) (k : A → toks → pres B) b p :
  pbind r k = Some (Ok (b, p)) →
  ∃ a p', r = Some (Ok (a, p')) ∧ k a p' = Some (Ok (b, p)).
Proof. unfold pbind. destruct r as [[[a p']|e]|]; try done. eauto. Qed.

Lemma path_toks_snoc p s : p ≠ [] → path_toks (p ++ [s]) = path_toks p ++ [TDot; TIdent s].
Proof.
  induction p as [|x p IH]; [done|]. intros _. destruct p as [|y p]; [done|].
  cbn [app path_toks]. simpl in IH. by rewrite IH.
Qed.

Lemma comma_sep_snoc {A} (f : A → list Tok) l x :
  l ≠ [] → comma_sep f (l ++ [x]) = comma_sep f l ++ TComma :: f x.
Proof.
  induction l as [|y l IH]; [done|]. intros _. destruct l as [|z l]; [done|].
  cbn [app comma_sep]. simpl in IH. rewrite IH by done. by rewrite <- app_assoc.
Qed.

Lemma parse_path_loop_sound segs p path p' :
  segs ≠ [] → parse_path_loop segs p = Some (Ok (path, p')) →
  path ≠ [] ∧ ∃ ts, reads p ts p' ∧ path_toks path = path_toks segs ++ ts.
Proof.
  revert segs. induction p as [p IH] using (induction_ltof1 _ (@length _)).
  unfold ltof in IH. intros segs Hne.
  destruct p as [|[t o] p1]; simpl.
  { intros [= <- <-]. split; [done|]. exists []. by rewrite app_nil_r. }
  destruct t; try (intros [= <- <-]; split; [done|]; exists []; by rewrite app_nil_r).
  destruct p1 as [|[t' o'] p2]; [done|]. destruct t' as [| | | | | | | | | | | |id| | | | | | | | | | | | | | |];
    try done.
  intros H. apply IH in H as (Hp & ts & Hr & E); [|simpl; lia|by destruct segs].
  split; [done|]. exists (TDot :: TIdent id :: ts). split; [auto|].
  rewrite E, path_toks_snoc by done. by rewrite <- app_assoc.
Qed.

Lemma parse_path_sound p path p' :
  parse_path p = Some (Ok (path, p')) → path ≠ [] ∧ reads p (path_toks path) p'.
Proof.
  destruct p as [|[t o] p]; [done|]. destruct t; try done. simpl.
  intros (? & ts & ? & ->)%parse_path_loop_sound; [|done].
  split; [done|]. by apply reads_cons.
Qed.

Lemma value_sound f :
  (∀ p v p', parse_value f p = Some (Ok (v, p')) → reads p (value_toks v) p') ∧
  (∀ items p l p', items ≠ [] → parse_items f items p = Some (Ok (l, p')) →
     ∃ ts, reads p ts p' ∧ comma_sep value_toks l = comma_sep value_toks items ++ ts).
Proof.
  induction f as [|f [IHv IHi]]; [done|]. split.
  - intros p v p'. cbn [parse_value]. destruct p as [|[t o] p]; [done|]. cbn [tok].
    destruct t; try done; try (intros [= <- <-]; cbn [value_toks]; by auto).
    intros (items & p2 & H & Hr)%pbind_ok.
    destruct p2 as [|[t o2] p3]; [done|]. destruct t; try done.
    injection Hr as <- <-. cbn [value_toks]. apply reads_cons.
    apply reads_app with (p1 := mk_spanned TRBracket o2 :: p3); [|by auto].
    assert ((let! (v, p2) := parse_value f p in parse_items f [v] p2)
      = Some (Ok (items, mk_spanned TRBracket o2 :: p3)) →
      reads p (comma_sep value_toks items) (mk_spanned TRBracket o2 :: p3)) as Hgen.
    { intros (v1 & p1 & Hv%IHv & Hi)%pbind_ok.
      apply IHi in Hi as (ts & Hts & ->); [|done]. simpl. by eapply reads_app. }
    destruct p as [|[t' o'] p]; [auto|]. destruct t'; auto.
    unfold pret in H. by simplify_eq.
  - intros items p l p' Hne. cbn [parse_items].
    assert (pret items p = Some (Ok (l, p')) →
      ∃ ts, reads p ts p' ∧ comma_sep value_toks l = comma_sep value_toks items ++ ts) as Hret.
    { intros [= <- <-]. exists []. by rewrite app_nil_r. }
    destruct p as [|[t o] p]; [auto|]. destruct t; auto. clear Hret.
    intros (v & p2 & Hv%IHv & Hi)%pbind_ok.
    apply IHi in Hi as (ts & Hts & ->); [|by destruct items].
    exists (TComma :: value_toks v ++ ts). split; [apply reads_cons; by eapply reads_app|].
    by rewrite comma_sep_snoc, <- app_assoc.
Qed.

Lemma comparison_op_tok t op : comparison_op t = Some op → t = op_tok op.
Proof. by destruct t; intros [= <-]. Qed.

Lemma parse_comparison_sound f p pr p' :
  parse_comparison f p = Some (Ok (pr, p')) → ∃ ts, reads p ts p' ∧ g_cmp ts pr.
Proof.
  intros (lhs & p1 & (Hne & Hr)%parse_path_sound & H)%pbind_ok.
  destruct p1 as [|[t o] p2]; [done|].
  assert (∀ op, comparison_op t = Some op →
    (let! (rhs, p3) := parse_value f p2 in pret (PCompare lhs op rhs) p3)
      = Some (Ok (pr, p')) → ∃ ts, reads p ts p' ∧ g_cmp ts pr) as Hop.
  { intros op ->%comparison_op_tok (v & p3 & Hv%value_sound & [= <- <-])%pbind_ok.
    exists (path_toks lhs ++ op_tok op :: value_toks v).
    split; [eapply reads_app; [done|by apply reads_cons]|by constructor]. }
  destruct t; try done; try (by eapply Hop). clear Hop.
  apply pbind_ok in H as (v & p3 & Hv%value_sound & H).
  destruct (is_array v) eqn:Ea; [done|]. injection H as <- <-.
  exists (path_toks lhs ++ TContains :: value_toks v).
  split; [eapply reads_app; [done|by apply reads_cons]|by constructor].
Qed.

Record sound (f : nat) : Prop := {
  so_or p q p' : parse_or f p = Some (Ok (q, p')) → ∃ ts, reads p ts p' ∧ g_or ts q;
  so_or_loop ts l p0 p q p' : reads p0 ts p → g_or ts l →
    parse_or_loop f l p = Some (Ok (q, p')) → ∃ ts', reads p0 ts' p' ∧ g_or ts' q;
  so_and p q p' : parse_and f p = Some (Ok (q, p')) → ∃ ts, reads p ts p' ∧ g_and ts q;
  so_and_loop ts l p0 p q p' : reads p0 ts p → g_and ts l →
    parse_and_loop f l p = Some (Ok (q, p')) → ∃ ts', reads p0 ts' p' ∧ g_and ts' q;
  so_not p q p' : parse_not f p = Some (Ok (q, p')) → ∃ ts, reads p ts p' ∧ g_not ts q;
  so_cmp p q p' : parse_cmp f p = Some (Ok (q, p')) → ∃ ts, reads p ts p' ∧ g_cmp ts q
}.

Lemma predicate_sound f : sound f.
Proof.
  induction f as [|f [IHo IHol IHa IHal IHn IHc]]; [by split|]. split.
  - intros p q p' (l & p1 & (ts & Hr & Hg)%IHa & H)%pbind_ok.
    eapply IHol; [exact Hr|by constructor|done].
  - intros ts l p0 p q p' Hr Hg. cbn [parse_or_loop].
    destruct p as [|[t o] p]; [intros [= <- <-]; eauto|].
    destruct t; try (intros [= <- <-]; by eauto).
    intros (rhs & p2 & (ts2 & Hr2 & Hg2)%IHa & H)%pbind_ok.
    eapply IHol; [|by apply g_or_more|done]. eapply reads_app; eauto.
  - intros p q p' (l & p1 & (ts & Hr & Hg)%IHn & H)%pbind_ok.
    eapply IHal; [exact Hr|by constructor|done].
  - intros ts l p0 p q p' Hr Hg. cbn [parse_and_loop].
    destruct p as [|[t o] p]; [intros [= <- <-]; eauto|].
    destruct t; try (intros [= <- <-]; by eauto).
    intros (rhs & p2 & (ts2 & Hr2 & Hg2)%IHn & H)%pbind_ok.
    eapply IHal; [|by apply g_and_more|done]. eapply reads_app; eauto.
  - intros p q p'. cbn [parse_not].
    assert (parse_cmp f p = Some (Ok (q, p')) → ∃ ts, reads p ts p' ∧ g_not ts q) as Hc.
    { intros (ts & ? & ?)%IHc. exists ts. split; [done|by apply g_not_cmp]. }
    destruct p as [|[t o] p]; [auto|]. destruct t; auto; clear Hc.
    + intros (q' & p2 & (ts & ? & ?)%IHn & [= <- <-])%pbind_ok.
      exists (TNot :: ts). split; [auto|by constructor].
    + intros (path & p2 & [? ?]%parse_path_sound & [= <- <-])%pbind_ok.
      exists (TExists :: path_toks path). split; [auto|by constructor].
  - intros p q p'. cbn [parse_cmp]. pose proof (parse_comparison_sound f p q p') as Hc.
    destruct p as [|[t o] p]; [auto|]. destruct t; auto; clear Hc.
    intros (q' & p2 & (ts & Hr & Hg)%IHo & H)%pbind_ok.
    destruct p2 as [|[t o2] p3]; [done|]. destruct t; try done. injection H as <- <-.
    exists (TLParen :: ts ++ [TRParen]). split; [eauto|by constructor].
Qed.

(** ** Completeness *)

Lemma reads_inv_nil p p' : reads p [] p' → p = p'.
Proof. by intros (pre & -> & ->%map_eq_nil). Qed.

Lemma reads_inv_cons p t ts p' :
  reads p (t :: ts) p' → ∃ o p1, p = mk_spanned t o :: p1 ∧ reads p1 ts p'.
Proof.
  intros ([|[t' o] pre] & -> & H); simplify_eq/=. eexists o, _.
  split; [done|]. by exists pre.
Qed.

Lemma reads_inv_app p ts1 ts2 p' :
  reads p (ts1 ++ ts2) p' → ∃ p1, reads p ts1 p1 ∧ reads p1 ts2 p'.
Proof.
  revert p. induction ts1 as [|t ts1 IH]; intros p H; [eauto|].
  apply reads_inv_cons in H as (o & p1 & -> & H).
  destruct (IH _ H) as (p2 & ? & ?). eauto.
Qed.

(** The next token, if any, satisfies [f]. *)
Definition next_in (f : Tok → bool) (p : toks) : Prop :=
  match p with [] => True | t :: _ => f (tok t) = true end.

Definition ends_or (t : Tok) : bool := match t with TRParen => true | _ => false end.
Definition ends_and (t : Tok) : bool := match t with TRParen | TOr => true | _ => false end.
Definition ends_not (t : Tok) : bool :=
  match t with TRParen | TOr | TAnd => true | _ => false end.
Definition not_dot (t : Tok) : bool := match t with TDot => false | _ => true end.

Lemma next_in_impl (f g : Tok → bool) p :
  (∀ t, f t = true → g t = true) → next_in f p → next_in g p.
Proof. intros H. destruct p; simpl; auto. Qed.

Lemma parse_path_loop_complete segs path p p' :
  reads p (flat_map (λ s, [TDot; TIdent s]) path) p' → next_in not_dot p' →
  parse_path_loop segs p = Some (Ok (segs ++ path, p')).
Proof.
  intros Hr Hn. revert segs p Hr. induction path as [|s path IH]; intros segs p Hr.
  - apply reads_inv_nil in Hr as ->. rewrite app_nil_r.
    destruct p' as [|[t o] p']; [done|]. by destruct t.
  - apply reads_inv_cons in Hr as (o & p1 & -> & Hr).
    apply reads_inv_cons in Hr as (o' & p2 & -> & Hr). simpl.
    rewrite IH by done. by rewrite <- app_assoc.
Qed.

Lemma path_toks_cons s path :
  path_toks (s :: path) = TIdent s :: flat_map (λ s, [TDot; TIdent s]) path.
Proof. revert s. induction path as [|x path IH]; intros s; [done|]. simpl in *. by rewrite IH. Qed.

Lemma parse_path_complete path p p' :
  path ≠ [] → reads p (path_toks path) p' → next_in not_dot p' →
  parse_path p = Some (Ok (path, p')).
Proof.
  intros Hne. destruct path as [|s path]; [done|]. rewrite path_toks_cons.
  intros (o & p1 & -> & Hr)%reads_inv_cons Hn. simpl.
  by rewrite (parse_path_loop_complete [s] path p1 p').
Qed.

Lemma comma_sep_cons {A} (f : A → list Tok) x l :
  comma_sep f (x :: l) = f x ++ flat_map (λ y, TComma :: f y) l.
Proof.
  revert x. induction l as [|y l IH]; intros x; simpl; [by rewrite app_nil_r|].
  specialize (IH y). simpl in IH. by rewrite IH.
Qed.

Lemma value_toks_head v : ∃ t ts, value_toks v = t :: ts ∧ t ≠ TRBracket.
Proof. destruct v as [| |[]| |]; simpl; eauto. Qed.

Lemma parse_items_complete l acc p p' :
  Forall (λ v, ∀ p p', reads p (value_toks v) p' →
            ∃ f, parse_value f p = Some (Ok (v, p'))) l →
  reads p (flat_map (λ v, TComma :: value_toks v) l) p' →
  next_in (λ t, match t with TComma => false | _ => true end) p' →
  ∃ f, parse_items f acc p = Some (Ok (acc ++ l, p')).
Proof.
  intros HF Hr Hn. revert acc p Hr. induction HF as [|v l Hv HF IH]; intros acc p Hr.
  - apply reads_inv_nil in Hr as ->. exists 1. rewrite app_nil_r.
    destruct p' as [|[t o] p']; [done|]. by destruct t.
  - apply reads_inv_cons in Hr as (o & p1 & -> & Hr).
    apply reads_inv_app in Hr as (p2 & Hr1 & Hr2).
    destruct (Hv _ _ Hr1) as [f1 H1]. destruct (IH (acc ++ [v]) _ Hr2) as [f2 H2].
    exists (S (f1 `max` f2)). cbn [parse_items].
    rewrite (parse_value_mono f1 (f1 `max` f2) _ ltac:(lia) _ H1). unfold pbind.
    rewrite (parse_items_mono f2 (f1 `max` f2) _ _ ltac:(lia) _ H2). by rewrite <- app_assoc.
Qed.

Lemma parse_value_complete v p p' :
  reads p (value_toks v) p' → ∃ f, parse_value f p = Some (Ok (v, p')).
Proof.
  revert p p'. induction v as [s|n|b| |l IH] using literal_nested_ind; intros p p' Hr.
  - apply reads_inv_cons in Hr as (o & p1 & -> & ->%reads_inv_nil). by exists 1.
  - apply reads_inv_cons in Hr as (o & p1 & -> & ->%reads_inv_nil). by exists 1.
  - exists 1. destruct b; apply reads_inv_cons in Hr as (o & p1 & -> & ->%reads_inv_nil); done.
  - apply reads_inv_cons in Hr as (o & p1 & -> & ->%reads_inv_nil). by exists 1.
  - simpl in Hr. apply reads_inv_cons in Hr as (o & p1 & -> & Hr).
    destruct l as [|v l].
    { apply reads_inv_cons in Hr as (o' & p2 & -> & ->%reads_inv_nil). by exists 1. }
    rewrite comma_sep_cons, <- app_assoc in Hr.
    apply reads_inv_app in Hr as (p2 & Hv & Hr). apply reads_inv_app in Hr as (p3 & Hl & Hr).
    apply reads_inv_cons in Hr as (o' & p4 & -> & ->%reads_inv_nil).
    inversion IH as [|? ? IHv IHl]; subst. destruct (IHv _ _ Hv) as [f1 H1].
    destruct (parse_items_complete l [v] p2 (mk_spanned TRBracket o' :: p')) as [f2 H2]; [done..|].
    exists (S (f1 `max` f2)). cbn [parse_value tok].
    destruct (value_toks_head v) as (t & ts & E & Ht). rewrite E in Hv.
    apply reads_inv_cons in Hv as (o2 & p5 & -> & _).
    assert ((let! (v, p2) := parse_value (f1 `max` f2) (mk_spanned t o2 :: p5) in
             parse_items (f1 `max` f2) [v] p2)
      = Some (Ok (v :: l, mk_spanned TRBracket o' :: p'))) as Hgo.
    { rewrite (parse_value_mono f1 (f1 `max` f2) _ ltac:(lia) _ H1). unfold pbind.
      by rewrite (parse_items_mono f2 (f1 `max` f2) _ _ ltac:(lia) _ H2). }
    destruct t; try done; by rewrite Hgo.
Qed.

Lemma not_dot_of f p :
  (∀ t, f t = true → not_dot t = true) → next_in f p → next_in not_dot p.
Proof. apply next_in_impl. Qed.

Lemma comparison_op_of op : comparison_op (op_tok op) = Some op.
Proof. by destruct op. Qed.

(** The value at the end of a comparison. *)
Lemma parse_comparison_complete p ts q p' :
  g_cmp ts q → (∀ ts', ts ≠ TLParen :: ts') → reads p ts p' →
  ∃ f, parse_comparison f p = Some (Ok (q, p')).
Proof.
  intros Hg Hp Hr. destruct Hg as [ts q Hg|path v Hne Ha|path op v Hne].
  - by destruct (Hp (ts ++ [TRParen])).
  - apply reads_inv_app in Hr as (p1 & Hr1 & Hr).
    apply reads_inv_cons in Hr as (o & p2 & -> & Hr).
    apply parse_value_complete in Hr as [f Hf]. exists f. unfold parse_comparison.
    rewrite (parse_path_complete path _ _ Hne Hr1) by done.
    unfold pbind at 1. rewrite Hf. unfold pbind. by rewrite Ha.
  - apply reads_inv_app in Hr as (p1 & Hr1 & Hr).
    apply reads_inv_cons in Hr as (o & p2 & -> & Hr).
    apply parse_value_complete in Hr as [f Hf]. exists f. unfold parse_comparison.
    rewrite (parse_path_complete path _ _ Hne Hr1) by (by destruct op).
    unfold pbind at 1. destruct op; cbn [op_tok tok comparison_op]; by rewrite Hf.
Qed.

Lemma g_cmp_head ts q :
  g_cmp ts q → ∃ t ts', ts = t :: ts' ∧ (t = TLParen ∨ ∃ s, t = TIdent s).
Proof.
  destruct 1 as [ts q|path v Hne|path op v Hne]; [by eauto| |];
    (destruct path as [|s path]; [done|]); rewrite path_toks_cons; simpl; eauto 6.
Qed.

Definition c_or ts q := ∀ p p' r,
  reads p ts p' → next_in ends_and p' →
  (∃ f, parse_or_loop f q p' = Some r) → ∃ f, parse_or f p = Some r.
Definition c_and ts q := ∀ p p' r,
  reads p ts p' → next_in ends_not p' →
  (∃ f, parse_and_loop f q p' = Some r) → ∃ f, parse_and f p = Some r.
Definition c_not ts q := ∀ p p',
  reads p ts p' → next_in ends_not p' → ∃ f, parse_not f p = Some (Ok (q, p')).
Definition c_cmp ts q := ∀ p p',
  reads p ts p' → ∃ f, parse_cmp f p = Some (Ok (q, p')).

Lemma or_loop_stops q p : next_in ends_or p → parse_or_loop 1 q p = Some (Ok (q, p)).
Proof. destruct p as [|[t o] p]; [done|]. by destruct t. Qed.
Lemma and_loop_stops q p : next_in ends_and p → parse_and_loop 1 q p = Some (Ok (q, p)).
Proof. destruct p as [|[t o] p]; [done|]. by destruct t. Qed.

Lemma c_and_result ts q p p' :
  c_and ts q → reads p ts p' → next_in ends_and p' →
  ∃ f, parse_and f p = Some (Ok (q, p')).
Proof.
  intros H Hr Hn. apply (H p p'); [done| |exists 1; by apply and_loop_stops].
  revert Hn. apply next_in_impl. by intros [].
Qed.

Lemma c_or_one ts q : c_and ts q → c_or ts q.
Proof.
  intros Ha p p' r Hr Hn [f2 H2].
  destruct (c_and_result ts q p p' Ha Hr Hn) as [f1 H1].
  exists (S (f1 `max` f2)). cbn [parse_or].
  rewrite (parse_and_mono f1 (f1 `max` f2) _ ltac:(lia) _ H1).
  exact (parse_or_loop_mono f2 (f1 `max` f2) _ _ ltac:(lia) _ H2).
Qed.

Lemma c_or_more ts1 ts2 q1 q2 :
  c_or ts1 q1 → c_and ts2 q2 → c_or (ts1 ++ TOr :: ts2) (POr [q1; q2]).
Proof.
  intros Ho Ha p p' r (p1 & Hr1 & Hr2)%reads_inv_app Hn [f2 H2].
  apply reads_inv_cons in Hr2 as (o & p2 & -> & Hr2).
  destruct (c_and_result ts2 q2 p2 p' Ha Hr2 Hn) as [f1 H1].
  apply (Ho p _ r Hr1); [done|]. exists (S (f1 `max` f2)). cbn [parse_or_loop].
  rewrite (parse_and_mono f1 (f1 `max` f2) _ ltac:(lia) _ H1).
  exact (parse_or_loop_mono f2 (f1 `max` f2) _ _ ltac:(lia) _ H2).
Qed.

Lemma c_and_one ts q : c_not ts q → c_and ts q.
Proof.
  intros Ha p p' r Hr Hn [f2 H2]. destruct (Ha p p' Hr Hn) as [f1 H1].
  exists (S (f1 `max` f2)). cbn [parse_and].
  rewrite (parse_not_mono f1 (f1 `max` f2) _ ltac:(lia) _ H1).
  exact (parse_and_loop_mono f2 (f1 `max` f2) _ _ ltac:(lia) _ H2).
Qed.

Lemma c_and_more ts1 ts2 q1 q2 :
  c_and ts1 q1 → c_not ts2 q2 → c_and (ts1 ++ TAnd :: ts2) (PAnd [q1; q2]).
Proof.
  intros Ho Ha p p' r (p1 & Hr1 & Hr2)%reads_inv_app Hn [f2 H2].
  apply reads_inv_cons in Hr2 as (o & p2 & -> & Hr2).
  destruct (Ha p2 p' Hr2 Hn) as [f1 H1].
  apply (Ho p _ r Hr1); [done|]. exists (S (f1 `max` f2)). cbn [parse_and_loop].
  rewrite (parse_not_mono f1 (f1 `max` f2) _ ltac:(lia) _ H1).
  exact (parse_and_loop_mono f2 (f1 `max` f2) _ _ ltac:(lia) _ H2).
Qed.

Lemma c_not_cmp ts q : g_cmp ts q → c_cmp ts q → c_not ts q.
Proof.
  intros Hg Hc p p' Hr _. destruct (Hc p p' Hr) as [f Hf]. exists (S f).
  destruct (g_cmp_head _ _ Hg) as (t & ts' & -> & Ht).
  apply reads_inv_cons in Hr as (o & p1 & -> & _).
  by destruct Ht as [->|[s ->]].
Qed.

Lemma c_cmp_paren ts q : c_or ts q → c_cmp (TLParen :: ts ++ [TRParen]) q.
Proof.
  intros Ho p p' (o & p1 & -> & (p2 & Hr1 & Hr2)%reads_inv_app)%reads_inv_cons.
  apply reads_inv_cons in Hr2 as (o' & p3 & -> & ->%reads_inv_nil).
  destruct (Ho p1 (mk_spanned TRParen o' :: p') (Ok (q, mk_spanned TRParen o' :: p')))
    as [f Hf]; [done|done|by exists 1|].
  exists (S f). cbn [parse_cmp]. by rewrite Hf.
Qed.

Lemma c_cmp_comparison ts q :
  g_cmp ts q → (∀ ts', ts ≠ TLParen :: ts') → c_cmp ts q.
Proof.
  intros Hg Hn p p' Hr. destruct (parse_comparison_complete p ts q p') as [f Hf]; [done..|].
  destruct (g_cmp_head _ _ Hg) as (t & ts' & -> & [->|[s ->]]); [by destruct (Hn ts')|].
  apply reads_inv_cons in Hr as (o & p1 & -> & _). by exists (S f).
Qed.

Lemma grammar_complete :
  (∀ ts q, g_or ts q → c_or ts q) ∧ (∀ ts q, g_and ts q → c_and ts q) ∧
  (∀ ts q, g_not ts q → c_not ts q) ∧ (∀ ts q, g_cmp ts q → c_cmp ts q).
Proof.
  apply grammar_ind.
  - intros. by apply c_or_one.
  - intros. by apply c_or_more.
  - intros. by apply c_and_one.
  - intros. by apply c_and_more.
  - intros ts q Hg IH p p' (o & p1 & -> & Hr)%reads_inv_cons Hn.
    destruct (IH p1 p' Hr Hn) as [f Hf]. exists (S f). cbn [parse_not]. by rewrite Hf.
  - intros path Hne p p' (o & p1 & -> & Hr)%reads_inv_cons Hn. exists 1. cbn [parse_not].
    rewrite (parse_path_complete path p1 p'); [done..|].
    revert Hn. apply next_in_impl. by intros [].
  - intros. by apply c_not_cmp.
  - intros. by apply c_cmp_paren.
  - intros path v Hne Ha. apply c_cmp_comparison; [by constructor|].
    destruct path as [|s path]; [done|]. by rewrite path_toks_cons.
  - intros path op v Hne. apply c_cmp_comparison; [by constructor|].
    destruct path as [|s path]; [done|]. by rewrite path_toks_cons.
Qed.

(** With the fuel of [parse_query], a predicate that ends the input is parsed
    to its meaning. *)
Lemma parse_or_complete p ts q :
  g_or ts q → reads p ts [] → parse_or (parse_fuel p) p = Some (Ok (q, [])).
Proof.
  intros Hg Hr.
  destruct (proj1 grammar_complete ts q Hg p [] (Ok (q, [])) Hr) as [f Hf];
    [done|by exists 1|].
  pose proof (as_or _ (predicate_steps (parse_fuel p)) p (le_n _)) as Hs.
  destruct (parse_or (parse_fuel p) p) as [r|] eqn:E; [|done].
  pose proof (parse_or_mono f (f `max` parse_fuel p) p ltac:(lia) _ Hf) as H1.
  pose proof (parse_or_mono (parse_fuel p) (f `max` parse_fuel p) p ltac:(lia) _ E) as H2.
  congruence.
Qed.

(** ** Queries *)

Lemma parse_projection_loop_sound f paths p pj p' :
  paths ≠ [] → Forall (λ p, p ≠ []) paths →
  parse_projection_loop f paths p = Some (Ok (pj, p')) →
  ∃ paths' ts, pj = Fields paths' ∧ paths' ≠ [] ∧ Forall (λ p, p ≠ []) paths' ∧
    reads p ts p' ∧ comma_sep path_toks paths' = comma_sep path_toks paths ++ ts.
Proof.
  revert paths p. induction f as [|f IH]; intros paths p Hne HF.
  all: destruct p as [|[t o] p]; simpl; [intros [= <- <-]|destruct t; try done;
    try (intros [= <- <-])].
  all: try (exists paths, []; by rewrite app_nil_r).
  intros (path & p2 & [Hp Hr]%parse_path_sound & H)%pbind_ok.
  apply IH in H as (paths' & ts & -> & Hne' & HF' & Hr' & E).
  - exists paths', (TComma :: path_toks path ++ ts). repeat (split; [done|]).
    split; [apply reads_cons; by eapply reads_app|].
    by rewrite E, comma_sep_snoc, <- app_assoc.
  - by destruct paths.
  - apply Forall_app. by repeat constructor.
Qed.

Lemma parse_projection_sound p pj p' o :
  parse_projection p = Some (Ok (pj, p')) →
  ∃ ts, reads (mk_spanned TSelect o :: p) ts p' ∧ g_select ts pj.
Proof.
  intros H.
  assert ((let! (path, p1) := parse_path p in
           parse_projection_loop (length p1) [path] p1) = Some (Ok (pj, p')) →
    ∃ ts, reads (mk_spanned TSelect o :: p) ts p' ∧ g_select ts pj) as Hgen.
  { clear H. intros (path & p1 & [Hp Hr]%parse_path_sound & H)%pbind_ok.
    apply parse_projection_loop_sound in H as (paths' & ts & -> & ? & ? & Hr' & E);
      [|done|by repeat constructor].
    exists (TSelect :: comma_sep path_toks paths'). split; [|by constructor].
    apply reads_cons. rewrite E. by eapply reads_app. }
  destruct p as [|[t o'] p]; [auto|]. destruct t; auto. clear Hgen.
  injection H as <- <-. exists [TSelect; TStar]. split; [auto|constructor].
Qed.

Definition ends_path (t : Tok) : bool :=
  match t with TDot | TComma => false | _ => true end.

Lemma parse_projection_loop_complete f paths l p p' :
  Forall (λ p, p ≠ []) l →
  reads p (flat_map (λ y, TComma :: path_toks y) l) p' → next_in ends_path p' →
  length p ≤ f →
  parse_projection_loop f paths p = Some (Ok (Fields (paths ++ l), p')).
Proof.
  intros HF Hr Hn. revert f paths p Hr. induction HF as [|x l Hx HF IH]; intros f paths p Hr Hf.
  - apply reads_inv_nil in Hr as ->. rewrite app_nil_r.
    destruct p' as [|[t o] p']; [by destruct f|]. by destruct f, t.
  - apply reads_inv_cons in Hr as (o & p1 & -> & Hr).
    apply reads_inv_app in Hr as (p2 & Hr1 & Hr2).
    destruct f as [|f]; simpl in *; [lia|].
    assert (next_in not_dot p2).
    { destruct l as [|y l]; [apply reads_inv_nil in Hr2 as ->|].
      - revert Hn. apply next_in_impl. by intros [].
      - apply reads_inv_cons in Hr2 as (o' & p3 & -> & _). done. }
    rewrite (parse_path_complete x p1 p2) by done. unfold pbind.
    pose proof (parse_path_steps p1) as Hs. rewrite (parse_path_complete x p1 p2) in Hs by done.
    destruct Hs. rewrite IH by (done || lia). by rewrite <- app_assoc.
Qed.

Lemma parse_projection_complete p paths p' :
  paths ≠ [] → Forall (λ p, p ≠ []) paths →
  reads p (comma_sep path_toks paths) p' → next_in ends_path p' →
  parse_projection p = Some (Ok (Fields paths, p')).
Proof.
  destruct paths as [|x l]; [done|]. intros _ [Hx HF]%Forall_cons. rewrite comma_sep_cons.
  intros (p1 & Hr1 & Hr2)%reads_inv_app Hn.
  assert (next_in not_dot p1).
  { destruct l as [|y l]; [apply reads_inv_nil in Hr2 as ->|].
    - revert Hn. apply next_in_impl. by intros [].
    - apply reads_inv_cons in Hr2 as (o' & p3 & -> & _). done. }
  pose proof (parse_path_complete x p p1 Hx Hr1 ltac:(done)) as Hp.
  destruct x as [|s x]; [done|]. rewrite path_toks_cons in Hr1.
  apply reads_inv_cons in Hr1 as (o & p2 & -> & _).
  unfold parse_projection. rewrite Hp. unfold pbind.
  by apply (parse_projection_loop_complete _ [s :: x]).
Qed.

Lemma reads_all p : reads p (map tok p) [].
Proof. exists p. by rewrite app_nil_r. Qed.

Lemma reads_map p ts p' : reads p ts p' → map tok p = ts ++ map tok p'.
Proof. intros (pre & -> & <-). by rewrite map_app. Qed.

Lemma parse_query_sound ts q : parse_query ts = Some (Ok q) → g_query (map tok ts) q.
Proof.
  unfold parse_query.
  match goal with |- context [match ?m with _ => _ end] =>
    destruct m as [[[q' p]|e]|] eqn:E; try done end.
  intros [= ->]. apply pbind_ok in E as (pj & p1 & E1 & E).
  apply pbind_ok in E as (pr & p2 & E2 & E). destruct p2; [|done]. injection E as <- <-.
  assert (∃ t1, reads ts t1 p1 ∧ g_select t1 pj) as (t1 & Hr1 & Hs).
  { destruct ts as [|[t o] ts]; [injection E1 as <- <-; eauto using g_select_absent|].
    destruct t; try (injection E1 as <- <-; by eauto using g_select_absent).
    by eapply parse_projection_sound. }
  assert (g_where (map tok p1) pr) as Hw.
  { destruct p1 as [|[t o] p1]; [injection E2 as <-; constructor|].
    destruct t; try done. apply predicate_sound in E2 as (t2 & Hr2 & Hg).
    apply reads_map in Hr2. simpl. rewrite Hr2, app_nil_r. by constructor. }
  rewrite (reads_map _ _ _ Hr1). by constructor.
Qed.

Lemma parse_where_complete p pr :
  g_where (map tok p) pr →
  match p with
  | mk_spanned TWhere _ :: p' => parse_or (parse_fuel p') p'
  | _ => pret PTrue p
  end = Some (Ok (pr, [])).
Proof.
  intros Hw. remember (map tok p) as l eqn:E. destruct Hw as [|ts' pr' Hg].
  - by destruct p.
  - destruct p as [|[t o] p]; [done|]. simplify_eq/=.
    eapply parse_or_complete; [done|apply reads_all].
Qed.

Lemma parse_query_complete ts q : g_query (map tok ts) q → parse_query ts = Some (Ok q).
Proof.
  intros Hq. remember (map tok ts) as l eqn:E. destruct Hq as [t1 t2 pj pr Hs Hw].
  pose proof (reads_all ts) as Hr. rewrite <- E in Hr. clear E.
  apply reads_inv_app in Hr as (p1 & Hr1 & Hr2). apply reads_map in Hr2.
  rewrite app_nil_r in Hr2. rewrite <- Hr2 in Hw.
  assert (p1 = [] ∨ ∃ o p2, p1 = mk_spanned TWhere o :: p2) as Hp1.
  { destruct p1 as [|[t o] p1]; [by left|right]. inversion Hw; subst. eauto. }
  apply parse_where_complete in Hw. unfold parse_query.
  assert (match ts with
          | mk_spanned TSelect _ :: p => parse_projection p
          | _ => pret All ts
          end = Some (Ok (pj, p1))) as ->.
  { destruct Hs as [| |paths Hne HF].
    - apply reads_inv_nil in Hr1 as ->. by destruct Hp1 as [->|(o & p2 & ->)].
    - apply reads_inv_cons in Hr1 as (o & p2 & -> & Hr1).
      by apply reads_inv_cons in Hr1 as (o' & p3 & -> & ->%reads_inv_nil).
    - apply reads_inv_cons in Hr1 as (o & p2 & -> & Hr1).
      apply parse_projection_complete; [done..|].
      by destruct Hp1 as [->|(? & ? & ->)]. }
  unfold pbind at 1. by rewrite Hw.
Qed.

Lemma parse_query_steps ts :
  (∃ q, parse_query ts = Some (Ok q)) ∨
  (∃ o msg, parse_query ts = Some (Err (EParse o msg)) ∧
     (o = 0 ∨ ∃ t, t ∈ ts ∧ offset t = o)).
Proof.
  unfold parse_query.
  match goal with |- context [match ?m with _ => _ end] => set (r := m) end.
  assert (steps 0 ts r) as Hs.
  { unfold r. apply (steps_bind 0 0).
    - destruct ts as [|[t o] ts]; [done|]. destruct t; try (apply steps_ret; [done|lia]).
      apply (steps_weaken 0 (1 + 1)); [lia|]. apply steps_tail, parse_projection_steps.
    - intros pj p1 _ _. apply (steps_bind 0 0).
      + destruct p1 as [|[t o] p1]; [done|]. destruct t; try (apply steps_ret; [done|lia]).
        apply (steps_weaken 0 (1 + 1)); [lia|]. apply steps_tail, predicate_steps. done.
      + intros pr p2 _ _. destruct p2; [done|]. by apply steps_fail. }
  destruct r as [[[q p]|e]|]; [by eauto| |done].
  destruct Hs as (o & msg & -> & H). eauto 6.
Qed.

(** ** Printing *)

(** The predicates CaQL can express: binary conjunctions and disjunctions,
    non-empty paths, no array on the right of [contains]. *)
Fixpoint expressible (p : Predicate) : Prop :=
  match p with
  | PTrue | PFalse => False
  | PAnd [a; b] | POr [a; b] => expressible a ∧ expressible b
  | PAnd _ | POr _ => False
  | PNot a => expressible a
  | PCompare path _ _ => path ≠ []
  | PContains path v => path ≠ [] ∧ is_array v = false
  | PExists path => path ≠ []
  end.

Definition expressible_query (q : Query) : Prop :=
  match projection q with
  | All => True
  | Fields paths => paths ≠ [] ∧ Forall (λ p, p ≠ []) paths
  end ∧ (predicate q = PTrue ∨ expressible (predicate q)).

(** A spelling, with parentheses around every operand. *)
Fixpoint pred_toks (p : Predicate) : list Tok :=
  match p with
  | PTrue | PFalse => []
  | PAnd [a; b] =>
      TLParen :: pred_toks a ++ [TRParen; TAnd; TLParen] ++ pred_toks b ++ [TRParen]
  | POr [a; b] =>
      TLParen :: pred_toks a ++ [TRParen; TOr; TLParen] ++ pred_toks b ++ [TRParen]
  | PAnd _ | POr _ => []
  | PNot a => TNot :: TLParen :: pred_toks a ++ [TRParen]
  | PCompare path op v => path_toks path ++ op_tok op :: value_toks v
  | PContains path v => path_toks path ++ TContains :: value_toks v
  | PExists path => TExists :: path_toks path
  end.

Definition query_toks (q : Query) : list Tok :=
  match projection q with
  | All => []
  | Fields paths => TSelect :: comma_sep path_toks paths
  end ++
  match predicate q with
  | PTrue => []
  | p => TWhere :: pred_toks p
  end.

Lemma g_not_paren ts p : g_or ts p → g_not (TLParen :: ts ++ [TRParen]) p.
Proof. intros. by apply g_not_cmp, g_cmp_paren. Qed.

Lemma pred_toks_grammar p : expressible p → g_or (pred_toks p) p.
Proof.
  induction p as [| |items IH|items IH|p IH|l op r|p v|p] using predicate_nested_ind;
    simpl; try done.
  - destruct items as [|a [|b [|]]]; try done. intros [Ha Hb].
    apply Forall_cons in IH as [IHa [IHb _]%Forall_cons].
    apply g_or_one.
    pose proof (g_and_more (TLParen :: pred_toks a ++ [TRParen])
      (TLParen :: pred_toks b ++ [TRParen]) a b) as H.
    simpl in H. rewrite <- app_assoc in H. apply H; auto using g_and_one, g_not_paren.
  - destruct items as [|a [|b [|]]]; try done. intros [Ha Hb].
    apply Forall_cons in IH as [IHa [IHb _]%Forall_cons].
    pose proof (g_or_more (TLParen :: pred_toks a ++ [TRParen])
      (TLParen :: pred_toks b ++ [TRParen]) a b) as H.
    simpl in H. rewrite <- app_assoc in H.
    apply H; auto using g_or_one, g_and_one, g_not_paren.
  - intros Hp. apply g_or_one, g_and_one, g_not_not, g_not_paren. auto.
  - intros Hne. by apply g_or_one, g_and_one, g_not_cmp, g_cmp_compare.
  - intros [Hne Ha]. by apply g_or_one, g_and_one, g_not_cmp, g_cmp_contains.
  - intros Hne. by apply g_or_one, g_and_one, g_not_exists.
Qed.

Lemma grammar_expressible :
  (∀ ts q, g_or ts q → expressible q) ∧ (∀ ts q, g_and ts q → expressible q) ∧
  (∀ ts q, g_not ts q → expressible q) ∧ (∀ ts q, g_cmp ts q → expressible q).
Proof. apply grammar_ind; simpl; auto. Qed.

Lemma query_toks_grammar q : expressible_query q → g_query (query_toks q) q.
Proof.
  destruct q as [pj pr]. intros [Hpj Hpr]. unfold query_toks; simpl in *. constructor.
  - destruct pj; [constructor|]. destruct Hpj. by constructor.
  - destruct Hpr as [->|Hpr]; [constructor|].
    pose proof (g_where_pred _ _ (pred_toks_grammar pr Hpr)) as H.
    by destruct pr.
Qed.

Lemma g_query_expressible ts q : g_query ts q → expressible_query q.
Proof.
  destruct 1 as [ts1 ts2 pj pr Hs Hw]. split; simpl.
  - by destruct Hs.
  - destruct Hw as [|ts p Hg]; [by left|right]. by apply (proj1 grammar_expressible ts).
Qed.

(** The parser returns on every input. *)
Lemma parse_total input : ∃ r, parse input = Some r.
Proof.
  unfold parse. destruct (tokenize_returns input) as [[ts ->]|(o & msg & -> & _)]; [|eauto].
  destruct (parse_query_steps ts) as [[q ->]|(o & msg & -> & _)]; eauto.
Qed.

(** ** Properties *)

(** The CaQL parser is sound and complete for the documented grammar: on
    every token sequence it returns [q] exactly when the grammar derives [q]
    from the tokens (left-associative [or] and [and], [not] binding tighter,
    parentheses, one projection and one predicate). *)
Theorem parse_query_correct (ts : list Spanned) (q : Query) :
  parse_query ts = Some (Ok q) ↔ g_query (map tok ts) q.
Proof. split; [apply parse_query_sound|apply parse_query_complete]. Qed.

(** C33: Every query CaQL can express is the parse of its printed tokens, and
    the parser returns nothing but expressible queries. *)
Theorem parse_print_roundtrip (q : Query) :
  (expressible_query q →
     parse_query (map (λ t, mk_spanned t 0) (query_toks q)) = Some (Ok q)) ∧
  (∀ ts, parse_query ts = Some (Ok q) → expressible_query q).
Proof.
  split.
  - intros H. apply parse_query_complete. rewrite map_map, map_id.
    by apply query_toks_grammar.
  - intros ts H. eapply g_query_expressible, parse_query_sound, H.
Qed.


(** A query that ends too early is reported at offset 0, not at the end of
    the input: the documented example [where kind =] fails at offset 0. *)
Theorem parse_error_at_end :
  parse "where kind =" = Some (Err (EParse 0 "expected literal value")) ∧
  String.length "where kind =" = 12.
Proof. split; vm_compute; reflexivity. Qed.
