(* ===== verification/Topic.v ===== *)
(** Topic patterns ([events/topic.rs]): parsing of a topic with its optional
    [?ql=] filter and matching of concrete topics. The regular expression
    engine and the URL form decoder are parameters. *)

From S2P Require Import Prelude F64 Json Query Lexer Parser.

(** [regex::Regex::new], [Regex::is_match] and [url::form_urlencoded::parse]. *)
Class TopicLibs := {
  regex : Type;
  regex_error : Type;
  regex_new : string → result regex_error regex;
  is_match : regex → string → bool;
  form_urlencoded_parse : string → list (string * string);
}.

Section topic.
  Context {tl : TopicLibs}.

Inductive TopicParseError :=
| Empty
| BadRegex (index : nat) (source : regex_error)
| Caql (e : QueryError)
| MissingQlParam (suffix : string).

Inductive Segment :=
| Literal (s : string)
| SingleWild
| MultiWild
| Regex (re : regex).

Record TopicPattern := mk_topic_pattern {
  segments : list Segment;
  filter : option Query;
  raw : string
}.

(** The classification of one path segment. *)
Definition parse_segment (idx : nat) (seg : string) : result TopicParseError Segment :=
  if String.eqb seg "*" then Ok SingleWild
  else if String.eqb seg "**" then Ok MultiWild
  else if starts_with "{" seg
          && match str_last seg with Some c => Ascii.eqb c "}" | None => false end
          && (2 <=? String.length seg)
  then
    let inner := str_init (tail1 seg) in
    match regex_new inner with
    | Ok re => Ok (Regex re)
    | Err e => Err (BadRegex idx e)
    end
  else Ok (Literal seg).

(** The loop over [path.split('/').enumerate()]. *)
Fixpoint parse_segments (idx : nat) (l : list string)
    : result TopicParseError (list Segment) :=
  match l with
  | [] => Ok []
  | seg :: l' =>
      let? s := parse_segment idx seg in
      let? rest := parse_segments (S idx) l' in
      Ok (s :: rest)
  end.

(** The first [ql] parameter of the suffix. *)
Fixpoint find_ql (l : list (string * string)) : option string :=
  match l with
  | [] => None
  | (k, v) :: l' => if String.eqb k "ql" then Some v else find_ql l'
  end.

(** [TopicPattern::parse]; [None] only if the CaQL parser ran out of fuel. *)
Definition topic_parse (input : string) : option (result TopicParseError TopicPattern) :=
  if str_is_empty input then Some (Err Empty)
  else
    let finish path flt :=
      match parse_segments 0 (split_on "/" path) with
      | Ok segs => Ok (mk_topic_pattern segs flt input)
      | Err e => Err e
      end in
    match split_first "?" input with
    | Some (path, suffix) =>
        match find_ql (form_urlencoded_parse suffix) with
        | Some v =>
            match Parser.parse v with
            | Some (Ok q) => Some (finish path (Some q))
            | Some (Err e) => Some (Err (Caql e))
            | None => None
            end
        | None => Some (Err (MissingQlParam suffix))
        end
    | None => Some (finish input None)
    end.

(** [matches_at]; the loop tries [consume] = 1, 2, ... *)
Fixpoint matches_at (pat : list Segment) (parts : list string) : bool :=
  match pat with
  | [] => match parts with [] => true | _ => false end
  | MultiWild :: pat' =>
      match pat' with
      | [] => match parts with [] => false | _ => true end
      | _ => existsb (λ consume, matches_at pat' (drop consume parts))
               (seq 1 (length parts))
      end
  | seg :: pat' =>
      match parts with
      | [] => false
      | part :: parts' =>
          match seg with
          | SingleWild => matches_at pat' parts'
          | Literal s => String.eqb part s && matches_at pat' parts'
          | Regex re => is_match re part && matches_at pat' parts'
          | MultiWild => false (* the arm above *)
          end
      end
  end.

Definition matches_topic (p : TopicPattern) (topic : string) : bool :=
  matches_at (segments p) (split_on "/" topic).
End topic.

Section events.
  Context {tl : TopicLibs} {num : Type} `{!SerdeNumber num}.

(** [matches(q, payload).unwrap_or(false)]; the evaluator always returns
    [Ok], see [eval_pred_spec]. *)
Definition query_matches (q : Query) (payload : json num) : bool :=
  match matches q payload with Returned (Ok b) => b | _ => false end.

Definition matches_event (p : TopicPattern) (topic : string) (payload : json num) : bool :=
  if negb (matches_topic p topic) then false
  else match filter p with
       | None => true
       | Some q => query_matches q payload
       end.
End events.

(** ** Declarative matching *)

Section spec.
  Context {tl : TopicLibs}.

(** [**] stands for one or more path segments, [*] for exactly one. *)
Inductive seg_match : list Segment → list string → Prop :=
| seg_match_nil : seg_match [] []
| seg_match_literal s pat parts :
    seg_match pat parts → seg_match (Literal s :: pat) (s :: parts)
| seg_match_single s pat parts :
    seg_match pat parts → seg_match (SingleWild :: pat) (s :: parts)
| seg_match_regex re s pat parts :
    is_match re s = true → seg_match pat parts →
    seg_match (Regex re :: pat) (s :: parts)
| seg_match_multi run pat parts :
    run ≠ [] → seg_match pat parts → seg_match (MultiWild :: pat) (run ++ parts).

Lemma seg_match_multi_inv pat parts :
  seg_match (MultiWild :: pat) parts ↔
  ∃ n, 1 ≤ n ≤ length parts ∧ seg_match pat (drop n parts).
Proof.
  split.
  - inversion 1 as [| | | |run ? rest Hrun Hm]; subst. exists (length run).
    rewrite length_app, drop_app_length. split; [|done].
    destruct run; simpl in *; [done|lia].
  - intros (n & Hn & Hm). rewrite <- (take_drop n parts). apply seg_match_multi; [|done].
    intros E. apply (f_equal length) in E. rewrite length_take in E. simpl in E. lia.
Qed.

Lemma matches_at_spec pat parts : matches_at pat parts = true ↔ seg_match pat parts.
Proof.
  revert parts. induction pat as [|seg pat IH]; intros parts.
  { destruct parts; simpl; split; intros H; try done; [constructor|inversion H]. }
  destruct seg as [s| | |re]; cbn [matches_at].
  - destruct parts as [|x parts]; [by split; [|inversion 1]|].
    rewrite andb_true_iff, String.eqb_eq, IH. split.
    + intros [-> ?]. by constructor.
    + by inversion 1.
  - destruct parts as [|x parts]; [by split; [|inversion 1]|]. rewrite IH.
    split; [by constructor|by inversion 1].
  - rewrite seg_match_multi_inv. destruct pat as [|seg pat].
    + destruct parts as [|x parts]; split; try done.
      * intros (n & Hn & _). simpl in Hn. lia.
      * intros _. exists (S (length parts)). split; [simpl; lia|].
        simpl. rewrite drop_all. constructor.
    + rewrite existsb_exists. setoid_rewrite in_seq. setoid_rewrite IH.
      split; intros (n & Hn & Hm); exists n; (split; [lia|done]).
  - destruct parts as [|x parts]; [by split; [|inversion 1]|].
    rewrite andb_true_iff, IH. split.
    + intros [? ?]. by constructor.
    + by inversion 1.
Qed.

(** A segment that is neither a wildcard nor braced. *)
Definition plain_segment (s : string) : bool :=
  negb (String.eqb s "*") && negb (String.eqb s "**") && negb (starts_with "{" s).

Lemma parse_segments_plain idx l :
  forallb plain_segment l = true → parse_segments idx l = Ok (map Literal l).
Proof.
  revert idx. induction l as [|s l IH]; intros idx; simpl; [done|].
  intros [Hs Hl]%andb_true_iff. unfold plain_segment in Hs.
  rewrite !andb_true_iff, !negb_true_iff in Hs. destruct Hs as [[H1 H2] H3].
  unfold parse_segment. rewrite H1, H2, H3. simpl. by rewrite IH.
Qed.

Lemma seg_match_literals l parts : seg_match (map Literal l) parts ↔ l = parts.
Proof.
  split.
  - revert parts. induction l as [|s l IH]; intros parts; inversion 1; subst; [done|].
    f_equal. auto.
  - intros <-. induction l; constructor; auto.
Qed.

Lemma split_first_None c s : str_contains c s = false → split_first c s = None.
Proof.
  induction s as [|b s IH]; [done|]. rewrite str_contains_cons. simpl.
  intros [-> ->%IH]%orb_false_iff. done.
Qed.

Lemma split_first_app c p s :
  str_contains c p = false → split_first c (p +:+ String c s) = Some (p, s).
Proof.
  induction p as [|b p IH].
  - intros _. rewrite append_nil_l. simpl. by rewrite Ascii.eqb_refl.
  - rewrite str_contains_cons, append_String. simpl. intros [-> ->%IH]%orb_false_iff. done.
Qed.

(** ** Properties *)

(** C34: Topic matching decides its declarative reading, segment by segment: a
    literal is itself, [*] is one segment, [**] one or more, [{re}] one
    segment the expression accepts. *)
Theorem topic_matches_correct (p : TopicPattern) (topic : string) :
  matches_topic p topic = true ↔ seg_match (segments p) (split_on "/" topic).
Proof. apply matches_at_spec. Qed.

(** A topic written without wildcards, braces and a query suffix is a
    pattern without filter that matches exactly itself. *)
Theorem literal_topic_exact (input : string) :
  input ≠ EmptyString → str_contains "?" input = false →
  forallb plain_segment (split_on "/" input) = true →
  ∃ p, topic_parse input = Some (Ok p) ∧ filter p = None ∧ raw p = input ∧
    ∀ topic, matches_topic p topic = true ↔ topic = input.
Proof.
  intros Hne Hq Hp. unfold topic_parse.
  destruct input as [|c s] eqn:E; [done|]. rewrite <- E in *. simpl str_is_empty.
  rewrite split_first_None, parse_segments_plain by done.
  replace (str_is_empty input) with false by by rewrite E.
  eexists. split; [done|]. split; [done|]. split; [done|]. intros topic.
  unfold matches_topic. simpl. rewrite matches_at_spec, seg_match_literals. split.
  - intros Hs. rewrite <- (join_split_on "/" topic), <- Hs. apply join_split_on.
  - by intros ->.
Qed.

(** A topic whose text after the first question mark has no [ql] parameter
    is rejected, whatever the question mark was meant for: a quantifier [?]
    inside a braced regular expression cuts the topic in the same way. *)
Theorem missing_ql_rejected (path suffix : string) :
  str_contains "?" path = false →
  find_ql (form_urlencoded_parse suffix) = None →
  topic_parse (path +:+ String "?" suffix) = Some (Err (MissingQlParam suffix)).
Proof.
  intros Hp Hf. unfold topic_parse. rewrite split_first_app, Hf by done.
  by destruct path.
Qed.
End spec.

Module TopicExamples.

(** Parameters for closed examples: an expression is a set of accepted words
    separated by bars, and the form decoder splits on [&] and [=] without
    percent decoding. *)
Definition word_regex_new (s : string) : result unit (list string) := Ok (split_on "|" s).
Definition plain_form_parse (s : string) : list (string * string) :=
  map (λ p, match split_first "=" p with Some kv => kv | None => (p, ""%string) end)
    (split_on "&" s).

#[export] Instance libs : TopicLibs := {|
  regex := list string;
  regex_error := unit;
  regex_new := word_regex_new;
  is_match := λ re s, existsb (String.eqb s) re;
  form_urlencoded_parse := plain_form_parse;
|}.

Definition topic_hits (pat topic : string) : option bool :=
  match topic_parse pat with
  | Some (Ok p) => Some (matches_topic p topic)
  | _ => None
  end.

Example multi_wild_needs_one :
  (topic_hits "hub/**/state" "hub/led/abc/state", topic_hits "hub/**/state" "hub/state",
   topic_hits "hub/**" "hub", topic_hits "{a|b}/x" "b/x") =
  (Some true, Some false, Some false, Some true).
Proof. vm_compute. reflexivity. Qed.

Example missing_ql : topic_parse "hub/a?where=1" = Some (Err (MissingQlParam "where=1")).
Proof. vm_compute. reflexivity. Qed.

Lemma literal_topic_exact_witness :
  ∃ p, topic_parse "hub/led/abc/state" = Some (Ok p) ∧ filter p = None ∧
    raw p = "hub/led/abc/state"%string ∧
    ∀ topic, matches_topic p topic = true ↔ topic = "hub/led/abc/state"%string.
Proof.
  apply literal_topic_exact; [discriminate|reflexivity|vm_compute; reflexivity].
Defined.

Lemma missing_ql_rejected_witness :
  topic_parse "{ab?c}/led" = Some (Err (MissingQlParam "c}/led")).
Proof.
  apply (missing_ql_rejected "{ab" "c}/led"); vm_compute; reflexivity.
Defined.
End TopicExamples.
