(* ===== verification/Envelope.v ===== *)
(** The event envelope and its identifiers ([events/envelope.rs]), its JSON
    view, and the wire messages ([events/wire.rs]). Timestamps come from the
    [time] crate, which is a parameter. *)

From S2P Require Import Prelude F64 Json.

(** [time::OffsetDateTime]: the two operations the sources use. Formatting
    fails outside the years RFC 3339 can express. *)
Class TimeLib := {
  OffsetDateTime : Type;
  unix_timestamp_nanos : OffsetDateTime → Z;
  format_rfc3339 : OffsetDateTime → option string;
}.

(** ** Identifiers: transparent wrappers of a string *)

Definition EventId : Type := string.
Definition StreamId : Type := string.
Definition NodeId : Type := string.
Definition CorrelationId : Type := string.
Definition CausationId : Type := string.

(** [StreamId::for_resource] *)
Definition for_resource (node : NodeId) (resource_id stream : string) : StreamId :=
  "bw://" +:+ node +:+ "/resources/" +:+ resource_id +:+ "/streams/" +:+ stream.

Record TraceContext := mk_trace_context {
  traceparent : string;
  tracestate : option string
}.

Definition ENVELOPE_VERSION : N := 1.

Record EventEnvelope `{!TimeLib} (num : Type) := mk_envelope {
  envelope_version : N;
  event_id : EventId;
  node_id : NodeId;
  resource_id : string;
  resource_kind : string;
  resource_version : N;
  stream_id : StreamId;
  stream : string;
  sequence : N;
  timestamp : OffsetDateTime;
  payload_kind : string;
  payload_version : N;
  payload_schema : option string;
  correlation_id : option CorrelationId;
  causation_id : option CausationId;
  trace_context : option TraceContext;
  data : json num
}.
Arguments mk_envelope {_ _}.
Arguments envelope_version {_ _}.
Arguments event_id {_ _}.
Arguments node_id {_ _}.
Arguments resource_id {_ _}.
Arguments resource_kind {_ _}.
Arguments resource_version {_ _}.
Arguments stream_id {_ _}.
Arguments stream {_ _}.
Arguments sequence {_ _}.
Arguments timestamp {_ _}.
Arguments payload_kind {_ _}.
Arguments payload_version {_ _}.
Arguments payload_schema {_ _}.
Arguments correlation_id {_ _}.
Arguments causation_id {_ _}.
Arguments trace_context {_ _}.
Arguments data {_ _}.

(** [x as i64] *)
Definition as_i64 (x : Z) : Z := (x + 2 ^ 63) mod 2 ^ 64 - 2 ^ 63.

Section envelope.
  Context {time : TimeLib} {num : Type} `{!SerdeNumber num}.
  Implicit Types e : EventEnvelope num.

(** [EventEnvelope::topic] *)
Definition topic e : string :=
  node_id e +:+ "/" +:+ resource_kind e +:+ "/" +:+ resource_id e +:+ "/" +:+ stream e.

(** [EventEnvelope::timestamp_ms]; integer division truncates. *)
Definition timestamp_ms e : Z :=
  as_i64 (Z.quot (unix_timestamp_nanos (timestamp e)) 1000000).

(** The derived [Serialize], as [serde_json::to_value] sees it: camel case
    keys, absent options skipped. [None] when the timestamp cannot be
    formatted. *)
Definition ser_opt (k : string) (v : option (json num)) (m : list (string * json num)) :=
  match v with Some v => map_insert k v m | None => m end.

Definition trace_context_to_value (t : TraceContext) : json num :=
  JObject (ser_opt "tracestate" (JString <$> tracestate t)
    (map_insert "traceparent" (JString (traceparent t)) [])).

Definition to_value e : option (json num) :=
  match format_rfc3339 (timestamp e) with
  | None => None
  | Some ts => Some (JObject (
      map_insert "data" (data e) (
      ser_opt "traceContext" (trace_context_to_value <$> trace_context e) (
      ser_opt "causationId" (JString <$> causation_id e) (
      ser_opt "correlationId" (JString <$> correlation_id e) (
      ser_opt "payloadSchema" (JString <$> payload_schema e) (
      map_insert "payloadVersion" (JNumber (num_of_u64 (payload_version e))) (
      map_insert "payloadKind" (JString (payload_kind e)) (
      map_insert "timestamp" (JString ts) (
      map_insert "sequence" (JNumber (num_of_u64 (sequence e))) (
      map_insert "stream" (JString (stream e)) (
      map_insert "streamId" (JString (stream_id e)) (
      map_insert "resourceVersion" (JNumber (num_of_u64 (resource_version e))) (
      map_insert "resourceKind" (JString (resource_kind e)) (
      map_insert "resourceId" (JString (resource_id e)) (
      map_insert "nodeId" (JString (node_id e)) (
      map_insert "eventId" (JString (event_id e)) (
      map_insert "envelopeVersion" (JNumber (num_of_u64 (envelope_version e)))
        []))))))))))))))))))
  end.
End envelope.

(** ** Wire messages *)

Inductive SubscriptionRef := Single (id : N) | Multiple (ids : list N).

Inductive InboundMessage :=
| InSubscribe (topic : string) (limit : option N) (outbound_capacity : option N)
| InUnsubscribe (subscription_id : N)
| InPing (data : option string).

Inductive OutboundMessage (num : Type) :=
| OutSubscribeAck (timestamp : Z) (topic : string) (subscription_id : N)
| OutUnsubscribeAck (timestamp : Z) (subscription_id : N)
| OutEvent (topic : string) (subscription_id : SubscriptionRef) (timestamp : Z)
    (data : json num) (event_id : option EventId) (stream_id : option StreamId)
    (stream : option string) (sequence : option N) (node_id : option NodeId)
    (resource_id resource_kind payload_kind : option string)
    (payload_version envelope_version : option N) (iso_timestamp : option string)
| OutPong (timestamp : Z) (data : option string)
| OutError (code : N) (timestamp : Z) (topic message : option string)
    (subscription_id : option N)
| OutStreamGap (timestamp : Z) (subscription_id : N) (stream_id : option StreamId)
    (last_delivered_sequence : option N) (reason : string) (terminated : bool).

(** ** Facts *)

Section facts.
  Context {time : TimeLib} {num : Type} `{!SerdeNumber num}.
  Implicit Types e : EventEnvelope num.

(** Components free of slashes can be read back from the topic. *)
Lemma topic_parts e :
  str_contains "/" (node_id e) = false → str_contains "/" (resource_kind e) = false →
  str_contains "/" (resource_id e) = false → str_contains "/" (stream e) = false →
  split_on "/" (topic e) = [node_id e; resource_kind e; resource_id e; stream e].
Proof.
  intros. rewrite <- (split_on_join "/" [node_id e; _; _; _]); [done|done|].
  by repeat constructor.
Qed.

Lemma map_sorted_ser_opt k (v : option (json num)) m :
  map_sorted m → map_sorted (ser_opt k v m).
Proof. destruct v; simpl; auto with boardwalk. Qed.

(** The field [data] of the JSON view is the payload itself. *)
Lemma to_value_data e v : to_value e = Some v →
  ∃ m, v = JObject m ∧ map_get "data" m = Some (data e).
Proof.
  unfold to_value. destruct (format_rfc3339 _); [|done]. intros [= <-].
  eexists. split; [done|]. apply map_get_insert_eq.
Qed.
End facts.

(** Time for closed examples: nanoseconds since the epoch, with an opaque
    textual form. *)
Module ConcreteTime.
#[export] Instance time : TimeLib := {|
  OffsetDateTime := Z;
  unix_timestamp_nanos := id;
  format_rfc3339 := λ z, if (0 <=? z)%Z then Some (pretty (Z.to_N z)) else None;
|}.
End ConcreteTime.
