(* ===== verification/Sequencer.v ===== *)
(** The stream registry ([events/sequencer.rs]): per-stream sequence numbers
    and the reverse index from event ids to streams. *)

From S2P Require Import Prelude F64 Json Envelope.

(** [Inner]: both maps, each behind its own mutex. *)
Record StreamRegistry := mk_registry {
  per_stream : gmap StreamId N;      (** the counter [next_sequence] *)
  by_event_id : gmap EventId StreamId
}.

Definition registry_new : StreamRegistry := mk_registry ∅ ∅.

Record Allocated := mk_allocated { al_event_id : EventId; al_sequence : N }.

(** [format!("{}-{}", stream_id, sequence)] *)
Definition mint_event_id (s : StreamId) (seq : N) : EventId := s +:+ "-" +:+ pretty seq.

(** [AtomicU64] wraps around. *)
Definition wrap64 (n : N) : N := (n mod 2 ^ 64)%N.

(** The three critical sections of [allocate]. *)
Definition allocate_entry (s : StreamId) (r : StreamRegistry) : StreamRegistry :=
  match per_stream r !! s with
  | Some _ => r
  | None => mk_registry (<[s := 1%N]> (per_stream r)) (by_event_id r)
  end.

Definition allocate_fetch_add (s : StreamId) (r : StreamRegistry) : N * StreamRegistry :=
  let seq := default 0%N (per_stream r !! s) in
  (seq, mk_registry (<[s := wrap64 (seq + 1)]> (per_stream r)) (by_event_id r)).

Definition allocate_index (s : StreamId) (seq : N) (r : StreamRegistry)
    : Allocated * StreamRegistry :=
  let id := mint_event_id s seq in
  (mk_allocated id seq, mk_registry (per_stream r) (<[id := s]> (by_event_id r))).

(** [allocate] *)
Definition allocate (s : StreamId) (r : StreamRegistry) : Allocated * StreamRegistry :=
  let '(seq, r') := allocate_fetch_add s (allocate_entry s r) in
  allocate_index s seq r'.

Definition stream_for (id : EventId) (r : StreamRegistry) : option StreamId :=
  by_event_id r !! id.

Definition evict (id : EventId) (r : StreamRegistry) : StreamRegistry :=
  mk_registry (per_stream r) (delete id (by_event_id r)).

Definition active_streams (r : StreamRegistry) : nat := size (per_stream r).

(** ** Event ids determine their stream and sequence *)

Lemma digit_not_dash d : pretty.pretty_N_char d ≠ "-"%char.
Proof. unfold pretty_N_char. repeat case_match; done. Qed.

Lemma pretty_N_go_no_dash n s :
  str_contains "-" s = false → str_contains "-" (pretty_N_go n s) = false.
Proof.
  revert s. induction n as [n IH] using (well_founded_induction N.lt_wf_0); intros s Hs.
  destruct (decide (0 < n)%N) as [Hn|].
  - rewrite pretty_N_go_step by done. apply IH.
    + apply N.div_lt; lia.
    + rewrite str_contains_cons, Hs, orb_false_r. apply Ascii.eqb_neq, digit_not_dash.
  - replace n with 0%N by lia. done.
Qed.

Lemma pretty_no_dash (n : N) : str_contains "-" (pretty n) = false.
Proof.
  unfold pretty, pretty_N. case_decide; [done|]. by apply pretty_N_go_no_dash.
Qed.

Lemma str_contains_app c a b : str_contains c (a +:+ b) = str_contains c a || str_contains c b.
Proof.
  induction a as [|x a IH]; [done|].
  rewrite append_String, !str_contains_cons, IH. by rewrite orb_assoc.
Qed.

(** The text after the last dash, and before it. *)
Lemma last_dash_inj a a' x x' :
  str_contains "-" x = false → str_contains "-" x' = false →
  a +:+ "-" +:+ x = a' +:+ "-" +:+ x' → a = a' ∧ x = x'.
Proof.
  intros Hx Hx'. revert a'. induction a as [|c a IH]; intros [|c' a'];
    rewrite ?append_String, ?append_nil_l; intros E; simplify_eq.
  - done.
  - rewrite str_contains_app in Hx. rewrite str_contains_cons in Hx.
    by rewrite orb_true_r in Hx.
  - rewrite str_contains_app in Hx'. rewrite str_contains_cons in Hx'.
    by rewrite orb_true_r in Hx'.
  - destruct (IH a') as [-> ->]; [|done]. by rewrite !append_String, !append_nil_l.
Qed.

Lemma mint_event_id_inj s s' n n' :
  mint_event_id s n = mint_event_id s' n' → s = s' ∧ n = n'.
Proof.
  unfold mint_event_id. intros [-> H]%last_dash_inj; auto using pretty_no_dash.
  split; [done|]. by apply (inj pretty).
Qed.

(** ** Concurrent allocation

    Any number of tasks run [allocate] at once; their critical sections
    interleave freely with each other and with evictions. *)

Inductive alloc_phase :=
| Entered (s : StreamId)            (** holds the stream's counter *)
| Fetched (s : StreamId) (seq : N). (** owns a number, not yet indexed *)

Record alloc_world := mk_alloc_world {
  aw_registry : StreamRegistry;
  aw_tasks : gmap nat alloc_phase;
  aw_log : list (StreamId * N)      (** numbers handed out, oldest first *)
}.

Inductive alloc_step : alloc_world → alloc_world → Prop :=
| as_enter r tasks log t s :
    tasks !! t = None →
    alloc_step (mk_alloc_world r tasks log)
      (mk_alloc_world (allocate_entry s r) (<[t := Entered s]> tasks) log)
| as_fetch r r' tasks log t s seq :
    tasks !! t = Some (Entered s) → allocate_fetch_add s r = (seq, r') →
    alloc_step (mk_alloc_world r tasks log)
      (mk_alloc_world r' (<[t := Fetched s seq]> tasks) (log ++ [(s, seq)]))
| as_index r r' tasks log t s seq a :
    tasks !! t = Some (Fetched s seq) → allocate_index s seq r = (a, r') →
    alloc_step (mk_alloc_world r tasks log)
      (mk_alloc_world r' (delete t tasks) log)
| as_evict r tasks log id :
    alloc_step (mk_alloc_world r tasks log) (mk_alloc_world (evict id r) tasks log).

Definition alloc_init : alloc_world := mk_alloc_world registry_new ∅ [].

(** The numbers of one stream, oldest first. *)
Definition sequences_of (s : StreamId) (log : list (StreamId * N)) : list N :=
  map snd (base.filter (λ x, x.1 = s) log).

(** [1, 2, ..., k] as the counter produces them. *)
Definition counted (k : nat) : list N := map (λ i, wrap64 (N.of_nat i)) (seq 1 k).

Record alloc_inv (w : alloc_world) : Prop := {
  ai_counter s n : per_stream (aw_registry w) !! s = Some n →
    n = wrap64 (N.of_nat (S (length (sequences_of s (aw_log w)))));
  ai_entered t s : aw_tasks w !! t = Some (Entered s) →
    is_Some (per_stream (aw_registry w) !! s);
  ai_present s : sequences_of s (aw_log w) ≠ [] →
    is_Some (per_stream (aw_registry w) !! s);
  ai_log s : sequences_of s (aw_log w) = counted (length (sequences_of s (aw_log w)))
}.

Lemma sequences_of_snoc s log s' n :
  sequences_of s (log ++ [(s', n)]) =
  sequences_of s log ++ (if decide (s' = s) then [n] else []).
Proof.
  unfold sequences_of. rewrite filter_app, map_app. f_equal.
  rewrite filter_cons, filter_nil. simpl. by case_decide.
Qed.

Lemma counted_snoc k : counted (S k) = counted k ++ [wrap64 (N.of_nat (S k))].
Proof. unfold counted. rewrite seq_S, map_app. done. Qed.

Lemma wrap64_succ n : wrap64 (wrap64 n + 1) = wrap64 (n + 1).
Proof. unfold wrap64. by rewrite N.Div0.add_mod_idemp_l. Qed.

Lemma alloc_inv_enter r tasks log t s :
  alloc_inv (mk_alloc_world r tasks log) →
  alloc_inv (mk_alloc_world (allocate_entry s r) (<[t := Entered s]> tasks) log).
Proof.
  intros [Hc He Hp Hl]; simpl in *.
  assert (∀ s', is_Some (per_stream r !! s') → is_Some (per_stream (allocate_entry s r) !! s')) as Hmono.
  { intros s' [n Hn]. unfold allocate_entry. case_match; [by eauto|]. simpl.
    destruct (decide (s = s')); [congruence|]. rewrite lookup_insert_ne by done. eauto. }
  split; simpl.
  - intros s' n. unfold allocate_entry. case_match eqn:E; [apply Hc|]. simpl.
    rewrite lookup_insert_Some. intros [[-> <-]|[_ ?]]; [|by apply Hc].
    destruct (sequences_of s' log) eqn:El; [done|].
    assert (is_Some (per_stream r !! s')) as [? ?]; [|congruence].
    apply Hp. by rewrite El.
  - intros t' s' [[-> [= ->]]|[_ H]]%lookup_insert_Some; [|by eauto].
    unfold allocate_entry. case_match eqn:E; [by rewrite E|]. simpl.
    rewrite lookup_insert_eq. eauto.
  - eauto.
  - done.
Qed.

Lemma alloc_inv_fetch r r' tasks log t s seq :
  tasks !! t = Some (Entered s) → allocate_fetch_add s r = (seq, r') →
  alloc_inv (mk_alloc_world r tasks log) →
  alloc_inv (mk_alloc_world r' (<[t := Fetched s seq]> tasks) (log ++ [(s, seq)])).
Proof.
  intros Ht Hf [Hc He Hp Hl]; simpl in *. destruct (He _ _ Ht) as [n Hn].
  unfold allocate_fetch_add in Hf. rewrite Hn in Hf. simpl in Hf. injection Hf as <- <-.
  pose proof (Hc _ _ Hn) as En. split; simpl.
  - intros s' m. rewrite sequences_of_snoc, length_app, lookup_insert_Some.
    intros [[-> <-]|[Hne Hm]].
    + rewrite decide_True by done. rewrite En, wrap64_succ. f_equal. simpl. lia.
    + rewrite decide_False by done. simpl. rewrite Nat.add_0_r. by apply Hc.
  - intros t' s' [[-> ?]|[_ H]]%lookup_insert_Some; [done|].
    destruct (decide (s = s')) as [->|]; [rewrite lookup_insert_eq; eauto|].
    rewrite lookup_insert_ne by done. eauto.
  - intros s' H. destruct (decide (s = s')) as [->|Hne]; [rewrite lookup_insert_eq; eauto|].
    rewrite lookup_insert_ne by done. apply Hp.
    by rewrite sequences_of_snoc, decide_False, app_nil_r in H.
  - intros s'. rewrite sequences_of_snoc, length_app. case_decide as Hs; simpl.
    + subst s'. rewrite Nat.add_1_r, counted_snoc, <- Hl. by rewrite En.
    + by rewrite app_nil_r, Nat.add_0_r.
Qed.

Lemma alloc_inv_step w w' : alloc_step w w' → alloc_inv w → alloc_inv w'.
Proof.
  intros Hs. destruct Hs as [r tasks log t s Ht|r r' tasks log t s seq Ht Hf
    |r r' tasks log t s seq a Ht Hi|r tasks log id].
  - apply alloc_inv_enter.
  - by apply alloc_inv_fetch.
  - unfold allocate_index in Hi. injection Hi as <- <-. intros [Hc He Hp Hl].
    split; simpl in *; eauto. intros t' s' [_ ?]%lookup_delete_Some. eauto.
  - intros [Hc He Hp Hl]. by split.
Qed.

Lemma alloc_inv_init : alloc_inv alloc_init.
Proof. by split; simpl; intros; rewrite ?lookup_empty in *. Qed.

Lemma alloc_inv_reachable w : rtc alloc_step alloc_init w → alloc_inv w.
Proof.
  apply rtc_invariant; eauto using alloc_inv_step, alloc_inv_init.
Qed.

Lemma counted_small k : (N.of_nat k < 2 ^ 64)%N → counted k = map N.of_nat (seq 1 k).
Proof.
  intros Hk. apply map_ext_in. intros i [_ Hi]%in_seq. unfold wrap64.
  apply N.mod_small. lia.
Qed.

Lemma map_filter_snd s log n :
  (s, n) ∈ log → n ∈ sequences_of s log.
Proof.
  intros H. apply list_elem_of_In, in_map_iff. exists (s, n). split; [done|].
  apply list_elem_of_In. by apply list_elem_of_filter.
Qed.

(** ** Properties *)

(** C23: However the critical sections of concurrent [allocate] calls and
    evictions interleave, the sequence numbers handed out for a stream are
    exactly 1, 2, ..., k in the order of the atomic increments: none is
    skipped, repeated or shared, up to the 2^64 the counter can hold. *)
Theorem concurrent_sequences_exact (w : alloc_world) (s : StreamId) :
  rtc alloc_step alloc_init w →
  (N.of_nat (length (sequences_of s (aw_log w))) < 2 ^ 64)%N →
  sequences_of s (aw_log w) = map N.of_nat (seq 1 (length (sequences_of s (aw_log w)))).
Proof.
  intros Hr Hk. rewrite <- counted_small by done. by apply alloc_inv_reachable.
Qed.

(** An event id names one allocation only: ids minted for different
    streams or different sequence numbers differ, whatever characters the
    stream id contains. *)
Theorem event_id_injective (s s' : StreamId) (n n' : N) :
  mint_event_id s n = mint_event_id s' n' ↔ s = s' ∧ n = n'.
Proof. split; [apply mint_event_id_inj|by intros [-> ->]]. Qed.

(** The sequential reading of [allocate]. *)
Lemma allocate_spec s r :
  let seq := default 1%N (per_stream r !! s) in
  allocate s r =
    (mk_allocated (mint_event_id s seq) seq,
     mk_registry (<[s := wrap64 (seq + 1)]> (per_stream r))
       (<[mint_event_id s seq := s]> (by_event_id r))).
Proof.
  unfold allocate, allocate_entry, allocate_fetch_add, allocate_index.
  destruct (per_stream r !! s) as [n|] eqn:E; simpl.
  - by rewrite E.
  - by rewrite lookup_insert_eq, insert_insert_eq.
Qed.

Module SequencerExamples.
Example allocate_twice :
  let '(a, r) := allocate "s" registry_new in
  let '(b, r') := allocate "s" r in
  (al_sequence a, al_event_id b, stream_for (al_event_id a) r', active_streams r')
  = (1%N, "s-2", Some "s", 1).
Proof. vm_compute. reflexivity. Qed.

(** Two tasks enter before either takes a number. *)
Lemma two_tasks :
  ∃ w, rtc alloc_step alloc_init w ∧ sequences_of "s" (aw_log w) = [1; 2]%N.
Proof.
  eexists. split.
  - eapply rtc_l; [by apply (as_enter _ _ _ 0 "s")|].
    eapply rtc_l; [by apply (as_enter _ _ _ 1 "s")|].
    eapply rtc_l; [by eapply (as_fetch _ _ _ _ 1 "s")|].
    eapply rtc_l; [by eapply (as_fetch _ _ _ _ 0 "s")|].
    eapply rtc_l; [by eapply (as_index _ _ _ _ 0 "s")|].
    apply rtc_refl.
  - vm_compute. reflexivity.
Qed.

Lemma concurrent_sequences_exact_witness :
  ∃ w, sequences_of "s" (aw_log w) = map N.of_nat (seq 1 2).
Proof.
  destruct two_tasks as (w & Hr & Hw). exists w.
  assert (length (sequences_of "s" (aw_log w)) = 2) as Hl by (rewrite Hw; reflexivity).
  rewrite (concurrent_sequences_exact w "s" Hr) by (rewrite Hl; vm_compute; reflexivity).
  rewrite Hl. reflexivity.
Defined.
End SequencerExamples.
