(* ===== verification/Replay.v ===== *)
(** The replay cache ([events/replay.rs]): a bounded ring per stream that
    prunes the registry's reverse index when it drops an envelope. *)

From S2P Require Import Prelude F64 Json Envelope Sequencer.

Definition DEFAULT_REPLAY_CAPACITY : nat := 1000.

Section replay.
  Context {time : TimeLib} {num : Type} `{!SerdeNumber num}.
  Implicit Types e : EventEnvelope num.

(** [Inner]; the registry it shares with the bus is passed along. *)
Record ReplayCache := mk_replay {
  rings : gmap StreamId (list (EventEnvelope num));
  capacity_per_stream : nat
}.

Definition replay_new (cap : nat) : ReplayCache := mk_replay ∅ cap.

Definition ring (s : StreamId) (c : ReplayCache) : list (EventEnvelope num) :=
  default [] (rings c !! s).

(** The block under the lock: the new ring and the evicted event id. *)
Definition push_ring (cap : nat) (q : list (EventEnvelope num)) e
    : list (EventEnvelope num) * option EventId :=
  if cap <=? length q then
    match q with
    | old :: q' => (q' ++ [e], Some (event_id old))
    | [] => ([e], None)
    end
  else (q ++ [e], None).

(** [record] *)
Definition record e (c : ReplayCache) (r : StreamRegistry) : ReplayCache * StreamRegistry :=
  let '(q, evicted) := push_ring (capacity_per_stream c) (ring (stream_id e) c) e in
  (mk_replay (<[stream_id e := q]> (rings c)) (capacity_per_stream c),
   match evicted with Some id => evict id r | None => r end).

(** [events_after] *)
Definition events_after (s : StreamId) (after_sequence : N) (c : ReplayCache)
    : list (EventEnvelope num) :=
  match rings c !! s with
  | None => []
  | Some q => base.filter (λ e, (after_sequence < sequence e)%N) q
  end.

(** ** The ring holds the newest envelopes *)

Definition lastn {A} (n : nat) (l : list A) : list A := drop (length l - n) l.

Lemma length_lastn {A} n (l : list A) : length (lastn n l) = Nat.min n (length l).
Proof. unfold lastn. rewrite length_drop. lia. Qed.

Lemma lastn_all {A} n (l : list A) : length l ≤ n → lastn n l = l.
Proof. intros. unfold lastn. by replace (length l - n) with 0 by lia. Qed.

Lemma lastn_snoc_full {A} n (l : list A) x :
  n ≤ length l → lastn (S n) (l ++ [x]) = lastn n l ++ [x].
Proof.
  intros. unfold lastn. rewrite length_app. simpl.
  replace (length l + 1 - S n) with (length l - n) by lia.
  by rewrite drop_app_le by lia.
Qed.

Lemma lastn_S {A} n (l : list A) :
  S n ≤ length l → ∃ x, lastn (S n) l = x :: lastn n l.
Proof.
  intros. unfold lastn.
  destruct (lookup_lt_is_Some_2 l (length l - S n)) as [x Hx]; [lia|].
  exists x. rewrite (drop_S l x (length l - S n)) by done. do 2 f_equal. lia.
Qed.

Lemma push_ring_lastn cap (h : list (EventEnvelope num)) e :
  (push_ring cap (lastn (Nat.max cap 1) h) e).1 = lastn (Nat.max cap 1) (h ++ [e]).
Proof.
  unfold push_ring. rewrite length_lastn. destruct (Nat.leb_spec cap (Nat.max cap 1 `min` length h)) as [H|H].
  - destruct (decide (Nat.max cap 1 ≤ length h)) as [Hc|Hc].
    + destruct (Nat.max cap 1) as [|m] eqn:E; [lia|].
      destruct (lastn_S m h) as [x ->]; [lia|]. simpl.
      rewrite lastn_snoc_full by lia. done.
    + assert (h = []) as -> by (destruct h; simpl in *; [done|lia]).
      simpl. unfold lastn. simpl. by replace (1 - Nat.max cap 1) with 0 by lia.
  - rewrite !lastn_all; [done| |lia]. rewrite length_app. simpl. lia.
Qed.

(** The cache after recording a history, oldest envelope first. *)
Definition record_all (h : list (EventEnvelope num)) (c : ReplayCache) (r : StreamRegistry)
    : ReplayCache * StreamRegistry :=
  foldl (λ cr e, record e cr.1 cr.2) (c, r) h.

Definition stream_history (s : StreamId) (h : list (EventEnvelope num)) :=
  base.filter (λ e, stream_id e = s) h.

Lemma stream_history_snoc s h e :
  stream_history s (h ++ [e]) =
  stream_history s h ++ (if decide (stream_id e = s) then [e] else []).
Proof.
  unfold stream_history. rewrite filter_app, filter_cons, filter_nil. by case_decide.
Qed.

Lemma record_all_ring cap h r s :
  let c := (record_all h (replay_new cap) r).1 in
  ring s c = lastn (Nat.max cap 1) (stream_history s h) ∧ capacity_per_stream c = cap.
Proof.
  induction h as [|e h IH] using rev_ind; simpl.
  { unfold ring. simpl. by rewrite lookup_empty. }
  unfold record_all in *. rewrite foldl_snoc. simpl in IH.
  destruct (foldl _ (replay_new cap, r) h) as [c r']; simpl in *.
  destruct IH as [IH Hcap]. unfold record. rewrite Hcap.
  rewrite stream_history_snoc. unfold ring at 1.
  destruct (decide (stream_id e = s)) as [->|Hne].
  - rewrite IH. pose proof (push_ring_lastn cap (stream_history s h) e) as Hp.
    destruct (push_ring _ _ _) as [q ev]; simpl in *. by rewrite lookup_insert_eq.
  - destruct (push_ring _ _ _) as [q ev]; simpl.
    rewrite lookup_insert_ne, app_nil_r by done. by split.
Qed.
End replay.
Arguments ReplayCache {_} _.

Section properties.
  Context {time : TimeLib} {num : Type} `{!SerdeNumber num}.

(** After any history, replaying a stream after a sequence number returns,
    in order, exactly those of the stream's newest [max capacity 1] envelopes
    whose sequence is greater; recording to one stream never disturbs
    another. *)
Theorem replay_exact (cap : nat) (h : list (EventEnvelope num)) (r : StreamRegistry)
    (s : StreamId) (after : N) :
  events_after s after (record_all h (replay_new cap) r).1 =
  base.filter (λ e, (after < sequence e)%N)
    (lastn (Nat.max cap 1) (stream_history s h)).
Proof.
  destruct (record_all_ring cap h r s) as [H _]. unfold events_after, ring in *.
  rewrite <- H. by destruct (rings _ !! s).
Qed.
End properties.

(** ** The reverse index

    A publisher first allocates an id from the registry and then either has
    its envelope recorded or, when it is too large, has the id evicted. The
    steps of different publishers interleave. *)
Section index.
  Context {time : TimeLib} {num : Type} `{!SerdeNumber num}.
  Implicit Types (c : ReplayCache num) (e : EventEnvelope num).

(** [ix_open] are the ids allocated and not yet recorded or rejected. *)
Record index_world := mk_index_world {
  ix_registry : StreamRegistry;
  ix_cache : ReplayCache num;
  ix_open : gmap EventId StreamId
}.

(** The number of allocations stays below what the counter can hold. *)
Inductive index_step : index_world → index_world → Prop :=
| ix_allocate r r' c o s a :
    (default 1 (per_stream r !! s) + 1 < 2 ^ 64)%N →
    allocate s r = (a, r') →
    index_step (mk_index_world r c o) (mk_index_world r' c (<[al_event_id a := s]> o))
| ix_record r r' c c' o (e : EventEnvelope num) :
    o !! event_id e = Some (stream_id e) → record e c r = (c', r') →
    index_step (mk_index_world r c o) (mk_index_world r' c' (delete (event_id e) o))
| ix_reject r c o (e : EventEnvelope num) :
    o !! event_id e = Some (stream_id e) →
    index_step (mk_index_world r c o)
      (mk_index_world (evict (event_id e) r) c (delete (event_id e) o)).

Definition index_init (cap : nat) : index_world :=
  mk_index_world registry_new (replay_new cap) ∅.

(** The ids retained by the rings, with their stream. *)
Definition retained (c : ReplayCache num) (id : EventId) (s : StreamId) : Prop :=
  ∃ e, e ∈ ring s c ∧ event_id e = id ∧ stream_id e = s.

(** Ids below the counter of their stream. *)
Definition minted (r : StreamRegistry) (id : EventId) (s : StreamId) : Prop :=
  ∃ n, id = mint_event_id s n ∧ (n < default 1 (per_stream r !! s))%N.

Record index_inv (w : index_world) : Prop := {
  ii_exact id s : by_event_id (ix_registry w) !! id = Some s ↔
    ix_open w !! id = Some s ∨ retained (ix_cache w) id s;
  ii_minted_open id s : ix_open w !! id = Some s → minted (ix_registry w) id s;
  ii_ring s e : e ∈ ring s (ix_cache w) →
    stream_id e = s ∧ minted (ix_registry w) (event_id e) s ∧ ix_open w !! event_id e = None;
  ii_nodup s : NoDup (map event_id (ring s (ix_cache w)))
}.

Lemma minted_fun r id s s' : minted r id s → minted r id s' → s = s'.
Proof. intros (n & -> & _) (n' & E & _). by apply mint_event_id_inj in E as [-> _]. Qed.

(** At most the oldest envelope goes; the new one is appended. *)
Lemma push_ring_split cap (q : list (EventEnvelope num)) e :
  ∃ gone q', q = gone ++ q' ∧
    push_ring cap q e = (q' ++ [e], event_id <$> head gone) ∧
    (gone = [] ∨ ∃ old, gone = [old]).
Proof.
  unfold push_ring. destruct (cap <=? length q).
  - destruct q as [|old q']; [exists [], []; auto|]. exists [old], q'. eauto.
  - exists [], q. auto.
Qed.

Lemma ring_record c s q s' :
  ring s' (mk_replay (<[s := q]> (rings c)) (capacity_per_stream c)) =
  if decide (s' = s) then q else ring s' c.
Proof.
  unfold ring; simpl. case_decide; subst; [by rewrite lookup_insert_eq|].
  by rewrite lookup_insert_ne.
Qed.

Lemma index_inv_allocate r r' c o s a :
  (default 1 (per_stream r !! s) + 1 < 2 ^ 64)%N → allocate s r = (a, r') →
  index_inv (mk_index_world r c o) →
  index_inv (mk_index_world r' c (<[al_event_id a := s]> o)).
Proof.
  intros Hsmall Ha [Hex Hmo Hring Hnd]; simpl in *.
  rewrite allocate_spec in Ha. injection Ha as <- <-. cbn [al_event_id] in *.
  set (n := default 1%N (per_stream r !! s)) in *.
  unfold wrap64. rewrite N.mod_small by done.
  assert (∀ id s', minted r id s' →
    minted (mk_registry (<[s := (n + 1)%N]> (per_stream r))
      (<[mint_event_id s n := s]> (by_event_id r))) id s') as Hmono.
  { intros id s' (k & -> & Hk). exists k. split; [done|]. simpl.
    destruct (decide (s = s')) as [->|]; [rewrite lookup_insert_eq; simpl; unfold n; lia|].
    by rewrite lookup_insert_ne. }
  assert (∀ s', ¬ minted r (mint_event_id s n) s') as Hfresh.
  { intros s' (k & E & Hk). apply mint_event_id_inj in E as [-> <-]. unfold n in Hk. lia. }
  split; simpl.
  - intros id s'. destruct (decide (id = mint_event_id s n)) as [->|Hne].
    + rewrite !lookup_insert_eq. split; [by left|]. intros [|(e & He & Hid & _)]; [done|].
      apply Hring in He as (_ & Hm & _). rewrite Hid in Hm. by apply Hfresh in Hm.
    + by rewrite !lookup_insert_ne, Hex.
  - intros id s' [[<- <-]|[_ H]]%lookup_insert_Some; [|by auto].
    exists n. split; [done|]. simpl. rewrite lookup_insert_eq. simpl. lia.
  - intros s' e He. destruct (Hring _ _ He) as (? & Hm & ?). split; [done|].
    split; [by apply Hmono|]. rewrite lookup_insert_ne; [done|].
    intros E. rewrite <- E in Hm. by apply Hfresh in Hm.
  - done.
Qed.

(** What a ring that loses [gone] and gains [e] retains. *)
Lemma retained_record r c o (e : EventEnvelope num) gone q' id s' :
  index_inv (mk_index_world r c o) → ring (stream_id e) c = gone ++ q' →
  retained (mk_replay (<[stream_id e := q' ++ [e]]> (rings c)) (capacity_per_stream c)) id s' ↔
  (id = event_id e ∧ s' = stream_id e) ∨
  (retained c id s' ∧ ∀ x, x ∈ gone → event_id x ≠ id).
Proof.
  intros [_ _ Hring Hnd] Eq; simpl in *. set (s := stream_id e) in *.
  pose proof (Hnd s) as Hnds. rewrite Eq, map_app in Hnds. apply NoDup_app in Hnds as (_ & Hdisj & _).
  assert (∀ x, x ∈ gone ++ q' → x ∈ ring s c) as Hin by (intros x; by rewrite Eq).
  unfold retained. rewrite ring_record. case_decide as Hs; [subst s'|].
  - rewrite Eq. split.
    + intros (x & [Hx|Hx%list_elem_of_singleton]%elem_of_app & <- & Hxs); [right|subst; by left].
      split; [exists x; set_solver|]. intros y Hy E. apply (Hdisj (event_id y)).
      * apply list_elem_of_In, in_map, list_elem_of_In, Hy.
      * rewrite E. apply list_elem_of_In, in_map, list_elem_of_In, Hx.
    + intros [[-> _]|[(x & [Hx|Hx]%elem_of_app & <- & Hxs) Hg]].
      * exists e. set_solver.
      * by destruct (Hg x Hx).
      * exists x. set_solver.
  - split; [|intros [[_ ?]|[? _]]; done].
    intros (x & Hx & <- & Hxs). right. split; [by exists x|]. intros y Hy E.
    apply Hring in Hx as (_ & Hm & _).
    assert (y ∈ ring s c) as (_ & Hm' & _)%Hring by (apply Hin; set_solver).
    rewrite E in Hm'. by apply (minted_fun r _ _ s) in Hm.
Qed.

Lemma index_inv_record r r' c c' o (e : EventEnvelope num) :
  o !! event_id e = Some (stream_id e) → record e c r = (c', r') →
  index_inv (mk_index_world r c o) →
  index_inv (mk_index_world r' c' (delete (event_id e) o)).
Proof.
  intros Ho Hr Hinv. pose proof Hinv as [Hex Hmo Hring Hnd]; simpl in *. unfold record in Hr.
  destruct (push_ring_split (capacity_per_stream c) (ring (stream_id e) c) e)
    as (gone & q' & Eq & Ep & Hgone).
  rewrite Ep in Hr. injection Hr as <- <-. set (s := stream_id e) in *.
  pose proof (Hnd s) as Hnds. rewrite Eq, map_app in Hnds.
  apply NoDup_app in Hnds as (Hndg & Hdisj & Hndq).
  assert (∀ x, x ∈ gone ++ q' → x ∈ ring s c) as Hin by (intros x; by rewrite Eq).
  set (r2 := match event_id <$> head gone with Some id => evict id r | None => r end).
  assert (∀ id s', by_event_id r2 !! id = Some s' ↔
    (∀ x, x ∈ gone → event_id x ≠ id) ∧ by_event_id r !! id = Some s') as Eby.
  { intros id s'. unfold r2. destruct Hgone as [->|[old ->]]; simpl; [set_solver|].
    rewrite lookup_delete_Some. set_solver. }
  assert (∀ id s', minted r2 id s' ↔ minted r id s') as Em.
  { intros. unfold r2, minted. by destruct Hgone as [->|[old ->]]. }
  clearbody r2. clear Hgone Ep.
  assert (∀ x, x ∈ gone ++ q' → event_id x ≠ event_id e) as Hne.
  { intros x Hx E. apply Hin, Hring in Hx as (_ & _ & Hx). congruence. }
  pose proof (λ id s', retained_record r c o e gone q' id s' Hinv Eq) as Hret. fold s in Hret.
  split; simpl.
  - intros id s'. rewrite Eby, Hex, Hret, lookup_delete_Some. split.
    + intros [Hg [Hopen|?]]; [|by auto].
      destruct (decide (event_id e = id)) as [<-|]; [|by auto].
      right. left. split; [done|]. congruence.
    + intros [[Hid Hopen]|[[-> ->]|[? ?]]]; [| |by auto].
      * split; [|by left]. intros x Hx <-.
        assert (x ∈ ring s c) as (_ & _ & ?)%Hring by (apply Hin; set_solver). congruence.
      * split; [|by left]. intros x Hx. apply Hne. set_solver.
  - intros id s' [_ ?]%lookup_delete_Some. apply Em. auto.
  - intros s' x. rewrite ring_record. setoid_rewrite Em. setoid_rewrite lookup_delete_None.
    case_decide as Hs; [subst s'|intros Hx; apply Hring in Hx; naive_solver].
    intros [Hx|Hx%list_elem_of_singleton]%elem_of_app; [|subst x; eauto].
    assert (x ∈ ring s c) as Hx'%Hring by (apply Hin; set_solver). naive_solver.
  - intros s'. rewrite ring_record. case_decide; [|apply Hnd].
    rewrite map_app. apply NoDup_app. split; [done|]. split; [|apply NoDup_singleton].
    intros id (x & -> & Hx)%list_elem_of_fmap E%list_elem_of_singleton.
    apply (Hne x); [set_solver|done].
Qed.

Lemma index_inv_reject r c o (e : EventEnvelope num) :
  o !! event_id e = Some (stream_id e) →
  index_inv (mk_index_world r c o) →
  index_inv (mk_index_world (evict (event_id e) r) c (delete (event_id e) o)).
Proof.
  intros Ho [Hex Hmo Hring Hnd]; simpl in *. split; simpl.
  - intros id s. rewrite !lookup_delete_Some, Hex. split; [naive_solver|].
    intros [?|Hr]; [naive_solver|]. split; [|by right].
    intros E. destruct Hr as (x & Hx & <- & _). apply Hring in Hx as (_ & _ & Hx).
    rewrite <- E in Hx. congruence.
  - intros id s [_ ?]%lookup_delete_Some. by apply Hmo.
  - intros s x Hx. setoid_rewrite lookup_delete_None. apply Hring in Hx. naive_solver.
  - done.
Qed.

Lemma index_inv_init cap : index_inv (index_init cap).
Proof.
  split; simpl.
  - intros id s. rewrite !lookup_empty. split; [done|]. intros [|(e & He & _)]; [done|].
    unfold ring in He. simpl in He. rewrite lookup_empty in He. by apply not_elem_of_nil in He.
  - intros id s. by rewrite lookup_empty.
  - intros s e He. unfold ring in He. simpl in He. rewrite lookup_empty in He.
    by apply not_elem_of_nil in He.
  - intros s. unfold ring. simpl. rewrite lookup_empty. constructor.
Qed.

Lemma index_inv_reachable cap w : rtc index_step (index_init cap) w → index_inv w.
Proof.
  apply rtc_invariant; [|apply index_inv_init]. intros x y Hs Hx.
  destruct Hs;
    [eapply index_inv_allocate|eapply index_inv_record|eapply index_inv_reject]; eauto.
Qed.

End index.
Arguments index_world {_} _.

Module ReplayExamples.
Import ConcreteNumber ConcreteTime.

Definition env (s : StreamId) (id : EventId) (n : N) : EventEnvelope number :=
  mk_envelope 1 id "hub" "abc" "led" 1 s "state" n 0%Z "k" 1 None None None None JNull.

Definition seqs (l : list (EventEnvelope number)) : list N := map sequence l.

Example ring_of_two :
  seqs (events_after "s" 0 (record_all [env "s" "s-1" 1; env "s" "s-2" 2; env "t" "t-1" 1;
                                     env "s" "s-3" 3] (replay_new 2) registry_new).1)
  = [2; 3]%N.
Proof. vm_compute. reflexivity. Qed.

End ReplayExamples.
