(* ===== verification/Policy.v ===== *)
(** Subscriber options and publish results ([events/policy.rs]). *)

From S2P Require Import Prelude F64 Json Query.

Definition SubscriptionId : Type := N.

Definition DEFAULT_OUTBOUND_CAPACITY : nat := 64.
Definition DEFAULT_MAX_EVENT_SIZE_BYTES : N := 256 * 1024.

Inductive SlowConsumerPolicy :=
| Disconnect
| Backpressure
| DropNewest
| Coalesce (key_path : FieldPath).

Inductive SlowConsumerPolicyQueryError :=
| UnexpectedCoalesceKey
| MissingCoalesceKey
| InvalidCoalesceKey (key : string) (source : QueryError)
| UnknownPolicy (value : string).

(** [SlowConsumerPolicy::query_value] *)
Definition query_value (p : SlowConsumerPolicy) : string * option string :=
  match p with
  | Disconnect => ("disconnect", None)
  | Backpressure => ("backpressure", None)
  | DropNewest => ("drop-newest", None)
  | Coalesce key_path => ("coalesce", Some (join "." key_path))
  end%string.

(** A policy without parameters refuses a coalesce key. *)
Definition without_key (p : SlowConsumerPolicy) (coalesce_key : option string)
    : result SlowConsumerPolicyQueryError SlowConsumerPolicy :=
  match coalesce_key with Some _ => Err UnexpectedCoalesceKey | None => Ok p end.

(** [SlowConsumerPolicy::from_query] *)
Definition from_query (value : string) (coalesce_key : option string)
    : result SlowConsumerPolicyQueryError SlowConsumerPolicy :=
  let normalized := to_ascii_lowercase (replace_byte "_" "-" value) in
  if String.eqb normalized "disconnect" then without_key Disconnect coalesce_key
  else if String.eqb normalized "backpressure" then without_key Backpressure coalesce_key
  else if String.eqb normalized "drop-newest" || String.eqb normalized "dropnewest"
  then without_key DropNewest coalesce_key
  else if String.eqb normalized "coalesce" then
    let? key := ok_or coalesce_key MissingCoalesceKey in
    let? key_path := map_err (InvalidCoalesceKey key) (try_parse key) in
    Ok (Coalesce key_path)
  else Err (UnknownPolicy value).

Record SubscribeOpts := mk_opts {
  limit : option N;
  outbound_capacity : option nat;
  slow_consumer_policy : SlowConsumerPolicy
}.

Definition opts_default : SubscribeOpts := mk_opts None None Disconnect.

(** [SubscribeOpts::resolved_outbound_capacity] *)
Definition resolved_outbound_capacity (o : SubscribeOpts) : nat :=
  default DEFAULT_OUTBOUND_CAPACITY (outbound_capacity o).

Record PublishResult := mk_result {
  delivered : nat;
  dropped : nat;
  coalesced : nat;
  disconnected_slow_consumers : list SubscriptionId
}.

Definition result_default : PublishResult := mk_result 0 0 0 [].

Inductive PublishError := TooLarge (limit : N).

(** ** Properties *)

(** A coalesce key path that the dotted notation can express. *)
Definition policy_wf (p : SlowConsumerPolicy) : Prop :=
  match p with Coalesce path => try_parse (join "." path) = Ok path | _ => True end.

(** The query parameters of a policy parse back to the policy, for every
    policy whose coalesce key has a dotted spelling; and every policy that
    parsing returns is of that kind, so printing and parsing again is
    stable. *)
Theorem policy_query_roundtrip (p : SlowConsumerPolicy) :
  (policy_wf p → from_query (query_value p).1 (query_value p).2 = Ok p) ∧
  (∀ value key, from_query value key = Ok p → policy_wf p).
Proof.
  split.
  - destruct p as [| | |path]; try done. cbn [query_value fst snd policy_wf].
    intros H. unfold from_query. simpl. by rewrite H.
  - intros value key. destruct p as [| | |path]; cbn [policy_wf]; [done..|].
    unfold from_query, without_key.
    destruct key as [k|]; cbn [ok_or]; [|repeat (case_match; try done)].
    destruct (try_parse k) as [path'|] eqn:E; cbn [map_err]; [|repeat (case_match; try done)].
    repeat (case_match; try done). intros [= <-]. by rewrite (try_parse_join _ _ E).
Qed.

(** A coalesce key is accepted only together with the coalesce policy, and
    that policy is never accepted without a key. *)
Theorem coalesce_key_required (value : string) (key : option string) (p : SlowConsumerPolicy) :
  from_query value key = Ok p →
  (is_Some key ↔ ∃ path, p = Coalesce path).
Proof.
  unfold from_query, without_key.
  destruct key as [k|]; simpl.
  - destruct (try_parse k); cbn [map_err]; repeat (case_match; try done).
    intros [= <-]. split; eauto.
  - repeat (case_match; try done); intros [= <-]; (split; [by intros []|by intros [? [=]]]).
Qed.

Lemma coalesce_key_required_witness :
  from_query "Coalesce" (Some "data.jobId"%string) = Ok (Coalesce ["data"; "jobId"]%string) ∧
  ∃ path, Coalesce ["data"; "jobId"]%string = Coalesce path.
Proof.
  assert (from_query "Coalesce" (Some "data.jobId"%string)
          = Ok (Coalesce ["data"; "jobId"]%string)) as H by (vm_compute; reflexivity).
  split; [exact H|].
  apply (coalesce_key_required _ _ _ H). eexists. reflexivity.
Defined.
