(* ===== verification/CoalesceQueue.v ===== *)
(** The sidecar queue of [Coalesce] subscriptions ([events/coalesce.rs]): the
    bounded replace-by-key queue, and the wake-up protocol of its receiver as
    a step relation. *)

From S2P Require Import Prelude F64 Json Query Envelope.

Inductive CoalescePushOutcome := Pushed | Replaced | Dropped | ReceiverGone.

(** [TryRecvError] of [events/bus.rs]. *)
Inductive TryRecvError := RecvEmpty | RecvDisconnected.

Section coalesce.
  Context {time : TimeLib} {num : Type} `{!SerdeNumber num}.
  Implicit Types e x : EventEnvelope num.

(** [CoalesceState] without its [Notify], which carries no data. *)
Record CoalesceState := mk_coalesce {
  queue : list (EventEnvelope num);
  capacity : nat;
  key_path : FieldPath;
  closed : bool;
  receiver_dropped : bool
}.

Definition coalesce_new (cap : nat) (kp : FieldPath) : CoalesceState :=
  mk_coalesce [] (Nat.max cap 1) kp false false.

(** [extract_key] *)
Definition extract_key e (path : FieldPath) : option (json num) :=
  match path with
  | first :: rest =>
      if String.eqb first "data" then extract rest (data e)
      else match to_value e with
           | Some full => extract path full
           | None => None
           end
  | [] => match to_value e with
          | Some full => extract path full
          | None => None
          end
  end.

Definition same_key (path : FieldPath) (incoming : json num) x : bool :=
  match extract_key x path with
  | Some slot_key => json_eqb slot_key incoming
  | None => false
  end.

(** The loop over the slots: the first one with the incoming key is
    overwritten. *)
Fixpoint replace_slot (path : FieldPath) (incoming : json num) e
    (q : list (EventEnvelope num)) : option (list (EventEnvelope num)) :=
  match q with
  | [] => None
  | x :: q' =>
      if same_key path incoming x then Some (e :: q')
      else match replace_slot path incoming e q' with
           | Some q'' => Some (x :: q'')
           | None => None
           end
  end.

Definition with_queue (st : CoalesceState) (q : list (EventEnvelope num)) : CoalesceState :=
  mk_coalesce q (capacity st) (key_path st) (closed st) (receiver_dropped st).

(** [push] *)
Definition push e (st : CoalesceState) : CoalescePushOutcome * CoalesceState :=
  if receiver_dropped st then (ReceiverGone, st)
  else
    let replaced :=
      match extract_key e (key_path st) with
      | Some incoming => replace_slot (key_path st) incoming e (queue st)
      | None => None
      end in
    match replaced with
    | Some q => (Replaced, with_queue st q)
    | None =>
        if length (queue st) <? capacity st
        then (Pushed, with_queue st (queue st ++ [e]))
        else (Dropped, st)
    end.

(** [try_recv] *)
Definition try_recv (st : CoalesceState)
    : result TryRecvError (EventEnvelope num) * CoalesceState :=
  match queue st with
  | e :: q => (Ok e, with_queue st q)
  | [] => (Err (if closed st then RecvDisconnected else RecvEmpty), st)
  end.

(** [close] and [mark_receiver_dropped] *)
Definition close (st : CoalesceState) : CoalesceState :=
  mk_coalesce (queue st) (capacity st) (key_path st) true (receiver_dropped st).
Definition mark_receiver_dropped (st : CoalesceState) : CoalesceState :=
  mk_coalesce (queue st) (capacity st) (key_path st) true true.

(** ** The invariant of the queue *)

(** Two queued envelopes have the same key. *)
Definition keys_clash (path : FieldPath) x y : Prop :=
  ∃ k, extract_key y path = Some k ∧ same_key path k x = true.

(** Bounded, and no two entries share a key. *)
Record queue_inv (st : CoalesceState) : Prop := {
  qi_bound : length (queue st) ≤ capacity st;
  qi_distinct i j x y :
    queue st !! i = Some x → queue st !! j = Some y → i ≠ j →
    ¬ keys_clash (key_path st) x y
}.
End coalesce.
Arguments CoalesceState {_} _.

Section facts.
  Context {time : TimeLib} {num : Type} `{!SerdeNumber num, !SerdeNumberLaws num}.
  Implicit Types (e x y : EventEnvelope num) (st : CoalesceState num).

Lemma same_key_equiv path k x :
  same_key path k x = true ↔ ∃ kx, extract_key x path = Some kx ∧ json_equiv kx k.
Proof.
  unfold same_key. destruct (extract_key x path) as [kx|].
  - split; [by eauto|]. by intros (? & [= <-] & ?).
  - split; [done|]. by intros (? & ? & _).
Qed.

Lemma keys_clash_sym path x y : keys_clash path x y → keys_clash path y x.
Proof.
  intros (k & Hy & (kx & Hx & He)%same_key_equiv). exists kx. split; [done|].
  apply same_key_equiv. exists k. by split.
Qed.

(** Replacing overwrites one slot, whose key was the incoming one. *)
Lemma replace_slot_Some path k e q q' :
  replace_slot path k e q = Some q' →
  ∃ i x, q !! i = Some x ∧ same_key path k x = true ∧ q' = <[i := e]> q.
Proof.
  revert q'. induction q as [|x q IH]; intros q'; simpl; [done|].
  destruct (same_key path k x) eqn:E.
  - intros [= <-]. by exists 0, x.
  - destruct (replace_slot path k e q) as [q''|]; [|done]. intros [= <-].
    destruct (IH _ eq_refl) as (i & y & ? & ? & ->). by exists (S i), y.
Qed.

Lemma replace_slot_None path k e q :
  replace_slot path k e q = None → Forall (λ x, same_key path k x = false) q.
Proof.
  induction q as [|x q IH]; simpl; [constructor|].
  destruct (same_key path k x) eqn:E; [done|].
  destruct (replace_slot path k e q); [done|]. constructor; auto.
Qed.

(** Keys equal to a third one are equal to each other. *)
Lemma keys_clash_trans path x y z :
  keys_clash path x y → keys_clash path y z → keys_clash path x z.
Proof.
  intros (k & Hy & (kx & Hx & He)%same_key_equiv) (k' & Hz & (ky & Hy' & He')%same_key_equiv).
  simplify_eq. exists k'. split; [done|]. apply same_key_equiv. exists kx.
  split; [done|]. by etrans.
Qed.

Lemma keys_clash_replace path k e x y :
  extract_key e path = Some k → same_key path k x = true →
  keys_clash path e y → keys_clash path x y.
Proof. intros He Hx H. eapply keys_clash_trans; [|exact H]. by exists k. Qed.

Lemma queue_inv_replace st k e q :
  queue_inv st → extract_key e (key_path st) = Some k →
  replace_slot (key_path st) k e (queue st) = Some q → queue_inv (with_queue st q).
Proof.
  intros [Hb Hd] Hk (i & x & Hi & Hx & ->)%replace_slot_Some.
  assert (∀ j y, queue st !! j = Some y → j ≠ i → ¬ keys_clash (key_path st) e y) as He.
  { intros j y Hj Hne Hc. apply (Hd i j x y); [done..|].
    by eapply keys_clash_replace. }
  split; simpl; [by rewrite length_insert|].
  intros a b xa xb Ha Hb' Hne Hc.
  apply list_lookup_insert_Some in Ha as [(-> & <- & _)|[Hia Ha]];
    apply list_lookup_insert_Some in Hb' as [(-> & <- & _)|[Hib Hb']].
  - done.
  - by eapply He.
  - apply keys_clash_sym in Hc. by eapply (He a).
  - by apply (Hd a b xa xb).
Qed.

Lemma queue_inv_append st e :
  queue_inv st → length (queue st) < capacity st →
  (∀ k, extract_key e (key_path st) = Some k →
     Forall (λ x, same_key (key_path st) k x = false) (queue st)) →
  queue_inv (with_queue st (queue st ++ [e])).
Proof.
  intros [Hb Hd] Hl Hf. split; simpl; [rewrite length_app; simpl; lia|].
  assert (∀ x i, queue st !! i = Some x → ¬ keys_clash (key_path st) x e) as Hx.
  { intros x i Hi (k & Hk & Hs). apply Hf in Hk. rewrite Forall_lookup in Hk.
    apply Hk in Hi. congruence. }
  intros a b xa xb Ha Hb' Hne Hc.
  apply lookup_snoc_Some in Ha as [[_ Ha]|[-> <-]];
    apply lookup_snoc_Some in Hb' as [[_ Hb']|[-> <-]].
  - by apply (Hd a b xa xb).
  - by eapply Hx.
  - apply keys_clash_sym in Hc. by eapply Hx.
  - done.
Qed.

Lemma push_inv e st : queue_inv st → queue_inv (push e st).2.
Proof.
  intros Hi. unfold push. destruct (receiver_dropped st); [done|].
  destruct (extract_key e (key_path st)) as [k|] eqn:Hk.
  - destruct (replace_slot _ k e (queue st)) as [q|] eqn:Hr.
    + by eapply queue_inv_replace.
    + destruct (Nat.ltb_spec (length (queue st)) (capacity st)); [|done].
      apply queue_inv_append; [done..|]. intros k' ?. simplify_eq.
      by eapply replace_slot_None.
  - destruct (Nat.ltb_spec (length (queue st)) (capacity st)); [|done].
    apply queue_inv_append; [done..|]. congruence.
Qed.

Lemma try_recv_inv st : queue_inv st → queue_inv (try_recv st).2.
Proof.
  intros [Hb Hd]. unfold try_recv. destruct (queue st) as [|e q] eqn:E; simpl.
  - split; rewrite E; [done|by apply Hd].
  - split; simpl in *; [lia|]. intros i j x y Hi Hj Hne. apply (Hd (S i) (S j)); auto.
Qed.

(** The operations of both ends of the queue. *)
Inductive coalesce_op : CoalesceState num → CoalesceState num → Prop :=
| op_push e st : coalesce_op st (push e st).2
| op_try_recv st : coalesce_op st (try_recv st).2
| op_close st : coalesce_op st (close st)
| op_drop_receiver st : coalesce_op st (mark_receiver_dropped st).

Lemma coalesce_op_inv st st' : coalesce_op st st' → queue_inv st → queue_inv st'.
Proof.
  destruct 1; auto using push_inv, try_recv_inv; intros [Hb Hd]; split; simpl; eauto.
Qed.

(** A coalesce queue never exceeds its capacity (at least one) and never
    holds two envelopes with equal keys, whatever sequence of pushes,
    receives, closes and receiver drops it goes through. *)
Theorem coalesce_queue_invariant (cap : nat) (kp : FieldPath) (st : CoalesceState num) :
  rtc coalesce_op (coalesce_new cap kp) st →
  length (queue st) ≤ Nat.max cap 1 ∧
  ∀ i j x y, queue st !! i = Some x → queue st !! j = Some y → i ≠ j →
    ¬ keys_clash kp x y.
Proof.
  intros H. set (I := λ st : CoalesceState num,
    queue_inv st ∧ capacity st = Nat.max cap 1 ∧ key_path st = kp).
  assert (I st) as ([Hb Hd] & <- & <-); [|done].
  revert H. apply (rtc_invariant _ I).
  - intros s s' Hs (Hi & Hc & Hk). split; [by eapply coalesce_op_inv|].
    destruct Hs; try done; unfold push, try_recv; repeat (case_match; simpl); done.
  - split; [|done]. split; simpl; [lia|]. intros i j x y Hx. by rewrite lookup_nil in Hx.
Qed.

(** A push to a live coalesce queue does one of three things: it overwrites
    the one entry with its key and leaves the others in place, or it appends
    when no entry has its key and there is room, or it is dropped when no
    entry has its key and the queue is full. An envelope without a key never
    replaces another. *)
Theorem push_outcomes (e : EventEnvelope num) (st : CoalesceState num) :
  receiver_dropped st = false →
  let clashes := λ x, keys_clash (key_path st) x e in
  match (push e st).1 with
  | Replaced => ∃ i x, queue st !! i = Some x ∧ clashes x ∧
      queue (push e st).2 = <[i := e]> (queue st)
  | Pushed => (∀ x, x ∈ queue st → ¬ clashes x) ∧ length (queue st) < capacity st ∧
      queue (push e st).2 = queue st ++ [e]
  | Dropped => (∀ x, x ∈ queue st → ¬ clashes x) ∧ capacity st ≤ length (queue st) ∧
      (push e st).2 = st
  | ReceiverGone => False
  end.
Proof.
  intros Hd. simpl. unfold push. rewrite Hd.
  assert (match extract_key e (key_path st) with
          | Some k => replace_slot (key_path st) k e (queue st) = None
          | None => True
          end → ∀ x, x ∈ queue st → ¬ keys_clash (key_path st) x e) as Hno.
  { intros Hn x Hx (k & Hk & Hs). rewrite Hk in Hn.
    apply replace_slot_None in Hn. rewrite Forall_forall in Hn. apply Hn in Hx. congruence. }
  destruct (extract_key e (key_path st)) as [k|] eqn:Hk.
  - destruct (replace_slot _ k e (queue st)) as [q|] eqn:Hr; simpl.
    + apply replace_slot_Some in Hr as (i & x & Hi & Hx & ->). exists i, x.
      split; [done|]. split; [|done]. by exists k.
    + destruct (Nat.ltb_spec (length (queue st)) (capacity st)); simpl; auto.
  - destruct (Nat.ltb_spec (length (queue st)) (capacity st)); simpl; auto.
Qed.
End facts.

(** ** The receiver never sleeps through a wake-up

    [recv] registers with the [Notify] before it looks at the queue. The
    [Notify] is that of [tokio], with its documented behaviour: [notify_one]
    wakes a registered waiter or else stores one permit, [notify_waiters]
    wakes the registered waiters and stores nothing, and registering takes a
    stored permit. Pushing and notifying, and setting the flag and notifying,
    are separate steps of the sending side. *)
Section wakeup.
  Context {time : TimeLib} {num : Type} `{!SerdeNumber num}.
  Implicit Types (e : EventEnvelope num) (st : CoalesceState num).

Inductive receiver_phase :=
| Idle                       (** not inside [recv] *)
| Registered (woken : bool)  (** after [enable], before the check *)
| Awaiting (woken : bool).   (** at [notified.await] *)

Record notify_world := mk_notify_world {
  nw_state : CoalesceState num;
  nw_permit : bool;
  nw_receiver : receiver_phase;
  nw_pending_one : nat;   (** [notify_one] calls still to run *)
  nw_pending_all : nat    (** [notify_waiters] calls still to run *)
}.

Definition wake (ph : receiver_phase) : receiver_phase :=
  match ph with
  | Idle => Idle
  | Registered _ => Registered true
  | Awaiting _ => Awaiting true
  end.

(** [notify_one]: the receiver and the permit afterwards. *)
Definition notify_one (ph : receiver_phase) (permit : bool) : receiver_phase * bool :=
  match ph with
  | Registered false => (Registered true, permit)
  | Awaiting false => (Awaiting true, permit)
  | _ => (ph, true)
  end.

(** One turn of the loop of [recv] under the queue lock: [None] stays in the
    loop, [Some r] returns [r]. *)
Definition recv_check st : option (option (EventEnvelope num)) * CoalesceState num :=
  match queue st with
  | e :: q => (Some (Some e), with_queue st q)
  | [] => (if closed st then Some None else None, st)
  end.

Inductive notify_step : notify_world → notify_world → Prop :=
| ns_push e st st' p ph n m o :
    push e st = (o, st') → o = Pushed ∨ o = Replaced →
    notify_step (mk_notify_world st p ph n m) (mk_notify_world st' p ph (S n) m)
| ns_push_refused e st st' p ph n m o :
    push e st = (o, st') → o = Dropped ∨ o = ReceiverGone →
    notify_step (mk_notify_world st p ph n m) (mk_notify_world st' p ph n m)
| ns_notify_one st p p' ph ph' n m :
    notify_one ph p = (ph', p') →
    notify_step (mk_notify_world st p ph (S n) m) (mk_notify_world st p' ph' n m)
| ns_close st p ph n m :
    notify_step (mk_notify_world st p ph n m) (mk_notify_world (close st) p ph n (S m))
| ns_notify_waiters st p ph n m :
    notify_step (mk_notify_world st p ph n (S m)) (mk_notify_world st p (wake ph) n m)
| ns_enable st p n m :
    notify_step (mk_notify_world st p Idle n m)
      (mk_notify_world st false (Registered p) n m)
| ns_return st st' p p' w n m r :
    recv_check st = (Some r, st') →
    notify_step (mk_notify_world st p (Registered w) n m)
      (mk_notify_world st' p' Idle n m)
| ns_await st st' p w n m :
    recv_check st = (None, st') →
    notify_step (mk_notify_world st p (Registered w) n m)
      (mk_notify_world st' p (Awaiting w) n m)
| ns_resume st p n m :
    notify_step (mk_notify_world st p (Awaiting true) n m)
      (mk_notify_world st p Idle n m)
| ns_cancel st p p' w n m :
    notify_step (mk_notify_world st p (Awaiting w) n m)
      (mk_notify_world st p' Idle n m).

Definition notify_init (cap : nat) (kp : FieldPath) : notify_world :=
  mk_notify_world (coalesce_new cap kp) false Idle 0 0.

(** A sleeping receiver has nothing to do, or is about to be woken. *)
Definition no_lost_wakeup (w : notify_world) : Prop :=
  nw_receiver w = Awaiting false →
  (queue (nw_state w) ≠ [] → 0 < nw_pending_one w) ∧
  (closed (nw_state w) = true → 0 < nw_pending_all w).

Lemma no_lost_wakeup_step w w' : notify_step w w' → no_lost_wakeup w → no_lost_wakeup w'.
Proof.
  unfold no_lost_wakeup. intros Hs. destruct Hs as
    [e st st' p ph n m o Hp Ho|e st st' p ph n m o Hp Ho|st p p' ph ph' n m Hn|st p ph n m
    |st p ph n m|st p n m|st st' p p' w n m r Hr|st st' p w n m Hr|st p n m|st p p' w n m];
    simpl; intros Hi; try done.
  - intros Hph. split; [lia|]. destruct (Hi Hph) as [_ Hc]. unfold push in Hp.
    repeat (case_match; simplify_eq/=); auto.
  - intros Hph. unfold push in Hp. repeat (case_match; simplify_eq/=); auto; naive_solver.
  - unfold notify_one in Hn. repeat (case_match; simplify_eq/=); try done.
  - intros Hph. destruct (Hi Hph). split; [done|lia].
  - by destruct ph.
  - unfold recv_check in Hr. destruct (queue st) eqn:E; [|done].
    destruct (closed st) eqn:Ec; [done|]. injection Hr as <-. rewrite E, Ec. done.
Qed.

(** C37: No wake-up of a coalesce receiver is lost: in every interleaving of
    pushes, notifications, closes, receive turns and cancellations, a receiver
    asleep at its await without having been woken has an empty queue unless a
    [notify_one] is still to run, and an open subscription unless a
    [notify_waiters] is still to run. *)
Theorem recv_never_misses_wakeup (cap : nat) (kp : FieldPath) (w : notify_world) :
  rtc notify_step (notify_init cap kp) w →
  nw_receiver w = Awaiting false →
  (queue (nw_state w) ≠ [] → 0 < nw_pending_one w) ∧
  (closed (nw_state w) = true → 0 < nw_pending_all w).
Proof.
  intros Hr. revert Hr. apply (rtc_invariant _ no_lost_wakeup);
    [apply no_lost_wakeup_step|done].
Qed.
End wakeup.
Arguments notify_world {_} _.

Module CoalesceExamples.
Import ConcreteNumber ConcreteTime.

Definition job (id : string) (percent : N) : EventEnvelope number :=
  mk_envelope 1 (id +:+ "-" +:+ pretty percent) "hub" "q" "job" 1 "bw" "progress" percent 0%Z
    "job.progress" 1 None None None None
    (JObject [("jobId", JString id); ("percent", JNumber (PosInt percent))]).

Definition kp : FieldPath := ["data"; "jobId"]%string.

Example push_sequence :
  let st0 := coalesce_new 2 kp in
  let '(o1, st1) := push (job "a" 10) st0 in
  let '(o2, st2) := push (job "b" 20) st1 in
  let '(o3, st3) := push (job "a" 30) st2 in
  let '(o4, st4) := push (job "c" 40) st3 in
  (o1, o2, o3, o4, map sequence (queue st4)) =
  (Pushed, Pushed, Replaced, Dropped, [30; 20]%N).
Proof. vm_compute. reflexivity. Qed.

Lemma coalesce_queue_invariant_witness :
  length (queue (push (job "a" 30) (push (job "a" 10) (coalesce_new 2 kp)).2).2) ≤ 2.
Proof.
  apply (coalesce_queue_invariant 2 kp).
  eapply rtc_l; [apply (op_push (job "a" 10))|].
  eapply rtc_l; [apply (op_push (job "a" 30))|]. apply rtc_refl.
Defined.

Lemma push_outcomes_witness :
  ∃ i x, queue (push (job "a" 10) (coalesce_new 2 kp)).2 !! i = Some x ∧
    keys_clash kp x (job "a" 30).
Proof.
  destruct (push_outcomes (job "a" 30) (push (job "a" 10) (coalesce_new 2 kp)).2)
    as (i & x & Hi & Hc & _); [reflexivity|].
  exists i, x. split; [exact Hi|exact Hc].
Defined.

Lemma recv_never_misses_wakeup_witness :
  let w := mk_notify_world (close (coalesce_new 2 kp)) false (Awaiting false) 0 1 in
  rtc notify_step (notify_init (num:=number) 2 kp) w ∧ 0 < nw_pending_all w.
Proof.
  assert (rtc notify_step (notify_init (num:=number) 2 kp)
    (mk_notify_world (close (coalesce_new 2 kp)) false (Awaiting false) 0 1)) as H.
  { eapply rtc_l; [apply ns_enable|].
    eapply rtc_l; [eapply ns_await; reflexivity|].
    eapply rtc_l; [apply ns_close|]. apply rtc_refl. }
  split; [exact H|].
  apply (recv_never_misses_wakeup 2 kp _ H); reflexivity.
Defined.
End CoalesceExamples.
