(* ===== verification/Mpsc.v ===== *)
(** The interface of the bounded channel the event bus is built on,
    [tokio::sync::mpsc]: the operations the sources call, the observations
    that describe them, and their documented laws. The bus is verified against
    this interface; a list-backed channel shows that it can be implemented. *)

From S2P Require Import Prelude.

Inductive TrySendResult := SendOk | SendFull | SendClosed.

(** [chan_permits] counts the free slots: a slot is taken by a queued value or
    by a sender that was granted one inside [send] and has not yet stored its
    value. *)
Class Mpsc (A : Type) := {
  chan : Type;
  chan_new : nat → chan;                        (** [mpsc::channel(n)], [n > 0] *)
  chan_contents : chan → list A;
  chan_permits : chan → nat;
  chan_capacity : chan → nat;
  chan_rx_alive : chan → bool;                  (** the receiver exists *)
  chan_try_send : A → chan → TrySendResult * chan;
  chan_acquire : chan → option chan;            (** [send]: a slot is granted *)
  chan_store : A → chan → chan;                 (** [send]: the granted slot is filled *)
  chan_release : chan → chan;                   (** [send] dropped after the grant *)
  chan_pop : chan → option A * chan;            (** [recv] and [try_recv] *)
  chan_drop_rx : chan → chan;                   (** the receiver is dropped *)
}.
Arguments chan _ {_}.

Class MpscLaws (A : Type) `{!Mpsc A} : Prop := {
  chan_new_spec n :
    let c := chan_new n in
    chan_contents c = [] ∧ chan_permits c = n ∧ chan_capacity c = n ∧ chan_rx_alive c = true;
  chan_try_send_ok a c : chan_rx_alive c = true → 0 < chan_permits c →
    ∃ c', chan_try_send a c = (SendOk, c') ∧ chan_contents c' = chan_contents c ++ [a] ∧
      chan_permits c' = pred (chan_permits c) ∧ chan_capacity c' = chan_capacity c ∧
      chan_rx_alive c' = true;
  chan_try_send_full a c : chan_rx_alive c = true → chan_permits c = 0 →
    chan_try_send a c = (SendFull, c);
  chan_try_send_closed a c : chan_rx_alive c = false → chan_try_send a c = (SendClosed, c);
  chan_acquire_some c c' : chan_acquire c = Some c' →
    chan_rx_alive c = true ∧ 0 < chan_permits c ∧
    chan_contents c' = chan_contents c ∧ chan_permits c' = pred (chan_permits c) ∧
    chan_capacity c' = chan_capacity c ∧ chan_rx_alive c' = true;
  chan_acquire_ready c : chan_rx_alive c = true → 0 < chan_permits c →
    is_Some (chan_acquire c);
  chan_store_spec a c :
    let c' := chan_store a c in
    chan_contents c' = chan_contents c ++ [a] ∧ chan_permits c' = chan_permits c ∧
    chan_capacity c' = chan_capacity c ∧ chan_rx_alive c' = chan_rx_alive c;
  chan_release_spec c :
    let c' := chan_release c in
    chan_contents c' = chan_contents c ∧ chan_permits c' = S (chan_permits c) ∧
    chan_capacity c' = chan_capacity c ∧ chan_rx_alive c' = chan_rx_alive c;
  chan_pop_spec c :
    let '(r, c') := chan_pop c in
    r = head (chan_contents c) ∧ chan_contents c' = tail (chan_contents c) ∧
    chan_permits c' =
      match chan_contents c with [] => chan_permits c | _ => S (chan_permits c) end ∧
    chan_capacity c' = chan_capacity c ∧ chan_rx_alive c' = chan_rx_alive c;
  chan_drop_rx_spec c : chan_rx_alive (chan_drop_rx c) = false ∧
    chan_contents (chan_drop_rx c) = chan_contents c ∧
    chan_permits (chan_drop_rx c) = chan_permits c ∧
    chan_capacity (chan_drop_rx c) = chan_capacity c;
}.

(** A channel as a list with a slot count. *)
Module ListChannel.
Section list_channel.
  Context {A : Type}.

Record channel := mk_channel {
  lc_items : list A;
  lc_free : nat;
  lc_capacity : nat;
  lc_alive : bool
}.

#[export] Instance mpsc : Mpsc A := {|
  chan := channel;
  chan_new := λ n, mk_channel [] n n true;
  chan_contents := lc_items;
  chan_permits := lc_free;
  chan_capacity := lc_capacity;
  chan_rx_alive := lc_alive;
  chan_try_send := λ a c,
    if lc_alive c then
      match lc_free c with
      | S n => (SendOk, mk_channel (lc_items c ++ [a]) n (lc_capacity c) true)
      | O => (SendFull, c)
      end
    else (SendClosed, c);
  chan_acquire := λ c,
    if lc_alive c then
      match lc_free c with
      | S n => Some (mk_channel (lc_items c) n (lc_capacity c) true)
      | O => None
      end
    else None;
  chan_store := λ a c, mk_channel (lc_items c ++ [a]) (lc_free c) (lc_capacity c) (lc_alive c);
  chan_release := λ c, mk_channel (lc_items c) (S (lc_free c)) (lc_capacity c) (lc_alive c);
  chan_pop := λ c,
    match lc_items c with
    | [] => (None, c)
    | a :: l => (Some a, mk_channel l (S (lc_free c)) (lc_capacity c) (lc_alive c))
    end;
  chan_drop_rx := λ c, mk_channel (lc_items c) (lc_free c) (lc_capacity c) false;
|}.

#[export] Instance mpsc_laws : MpscLaws A.
Proof.
  split; simpl.
  - done.
  - intros a [l [|n] k []]; simpl; intros; try done; try lia; eauto 10.
  - intros a [l [|n] k []]; by simpl.
  - intros a [l n k []]; by simpl.
  - intros [l [|n] k []] c'; simpl; try done. intros [= <-]; simpl; auto with lia.
  - intros [l [|n] k []]; simpl; intros; try done; try lia; eauto.
  - done.
  - done.
  - intros [[|a l] n k b]; done.
  - done.
Qed.
End list_channel.
End ListChannel.
