(* ===== verification/Bus.v ===== *)
(** The event bus ([events/bus.rs]), synchronous part: subscriptions, the
    consumer side, [subscribe], [unsubscribe] and [try_publish]. Channels and
    coalesce queues are shared between the bus and the consumers; they live in
    a store indexed by subscription id. *)

From S2P Require Import Prelude F64 Json Query Lexer Parser.
From S2P Require Import Topic Envelope Sequencer Replay Policy CoalesceQueue Mpsc.

Definition REASON_SLOW_CONSUMER : string := "slow_consumer".

Record SlowConsumerNotice := mk_notice {
  sc_stream_id : option StreamId;
  sc_last_delivered_sequence : option N;
  sc_reason : string
}.

(** Which store entry backs a subscription. *)
Inductive Outbound := OMpsc | OCoalesce.

Record SubscriptionInner `{!TopicLibs} := mk_sub {
  sub_topic : TopicPattern;
  sub_outbound : Outbound;
  sub_remaining : option N;
  sub_policy : SlowConsumerPolicy;
  sub_in_flight : N;
  sub_last_delivered : option (StreamId * N);
  sub_notify : bool   (** [slow_consumer_notify] is still [Some] *)
}.

Arguments mk_sub {_}.

(** What the sources call outside their own crate. *)
Class BusLibs `{!TopicLibs, !TimeLib} (num : Type) := {
  serialized_len : EventEnvelope num → option N;   (** [serde_json::to_vec(..).len()] *)
}.

Section bus.
  Context {tl : TopicLibs} {time : TimeLib} {num : Type} `{!SerdeNumber num}.
  Context `{!BusLibs num} `{!Mpsc (EventEnvelope num)}.
  Implicit Types (env : EventEnvelope num) (id : SubscriptionId).

(** [Inner], with the shared objects its entries and the consumers point to. *)
Record EventBus := mk_bus {
  next_id : N;
  subs : gmap SubscriptionId SubscriptionInner;
  registry : StreamRegistry;
  replay_cache : ReplayCache num;
  max_event_size : N;
  chans : gmap SubscriptionId (chan (EventEnvelope num));
  queues : gmap SubscriptionId (CoalesceState num);
  notices : gmap SubscriptionId SlowConsumerNotice
}.

Definition set_subs (f : gmap SubscriptionId SubscriptionInner → gmap SubscriptionId SubscriptionInner)
    (b : EventBus) : EventBus :=
  mk_bus (next_id b) (f (subs b)) (registry b) (replay_cache b) (max_event_size b)
    (chans b) (queues b) (notices b).
Definition set_chan id c (b : EventBus) : EventBus :=
  mk_bus (next_id b) (subs b) (registry b) (replay_cache b) (max_event_size b)
    (<[id := c]> (chans b)) (queues b) (notices b).
Definition set_queue id q (b : EventBus) : EventBus :=
  mk_bus (next_id b) (subs b) (registry b) (replay_cache b) (max_event_size b)
    (chans b) (<[id := q]> (queues b)) (notices b).
Definition set_notice id n (b : EventBus) : EventBus :=
  mk_bus (next_id b) (subs b) (registry b) (replay_cache b) (max_event_size b)
    (chans b) (queues b) (<[id := n]> (notices b)).
Definition set_streams (rc : StreamRegistry * ReplayCache num) (b : EventBus) : EventBus :=
  mk_bus (next_id b) (subs b) rc.1 rc.2 (max_event_size b)
    (chans b) (queues b) (notices b).

(** [EventBus::with_registry_and_replay_capacity] *)
Definition bus_new (r : StreamRegistry) (replay_capacity : nat) : EventBus :=
  mk_bus 1 ∅ r (replay_new replay_capacity) DEFAULT_MAX_EVENT_SIZE_BYTES ∅ ∅ ∅.

(** [with_max_event_size] *)
Definition with_max_event_size (limit : N) (b : EventBus) : EventBus :=
  mk_bus (next_id b) (subs b) (registry b) (replay_cache b) limit
    (chans b) (queues b) (notices b).

(** [subscribe]; [None] is the panic of [mpsc::channel(0)]. *)
Definition subscribe (tp : TopicPattern) (opts : SubscribeOpts) (b : EventBus)
    : option (SubscriptionId * EventBus) :=
  let id := next_id b in
  let capacity := resolved_outbound_capacity opts in
  let b1 := mk_bus (wrap64 (id + 1)) (subs b) (registry b) (replay_cache b) (max_event_size b)
              (chans b) (queues b) (notices b) in
  let outbound :=
    match slow_consumer_policy opts with
    | Coalesce kp => Some (OCoalesce, set_queue id (coalesce_new capacity kp) b1)
    | _ => if capacity =? 0 then None
           else Some (OMpsc, set_chan id (chan_new capacity) b1)
    end in
  match outbound with
  | None => None
  | Some (out, b2) =>
      Some (id, set_subs <[id := mk_sub tp out (limit opts) (slow_consumer_policy opts)
                                   0 None true]> b2)
  end.

(** Closing a coalesce queue when its subscription is removed. *)
Definition close_outbound id (sub : SubscriptionInner) (b : EventBus) : EventBus :=
  match sub_outbound sub with
  | OCoalesce =>
      match queues b !! id with
      | Some q => set_queue id (close q) b
      | None => b
      end
  | OMpsc => b
  end.

(** [unsubscribe] *)
Definition unsubscribe id (b : EventBus) : bool * EventBus :=
  match subs b !! id with
  | Some sub => (true, close_outbound id sub (set_subs (delete id) b))
  | None => (false, b)
  end.

(** The consumer side: [SubscriptionRx::try_recv] and its [Drop]. *)
Definition rx_try_recv id (b : EventBus) : result TryRecvError (EventEnvelope num) * EventBus :=
  match chans b !! id, queues b !! id with
  | Some c, _ =>
      let '(r, c') := chan_pop c in
      match r with
      | Some e => (Ok e, set_chan id c' b)
      | None => (Err (if bool_decide (is_Some (subs b !! id)) then RecvEmpty
                      else RecvDisconnected), set_chan id c' b)
      end
  | None, Some q =>
      let '(r, q') := try_recv q in (r, set_queue id q' b)
  | None, None => (Err RecvDisconnected, b)
  end.

Definition rx_drop id (b : EventBus) : EventBus :=
  match chans b !! id, queues b !! id with
  | Some c, _ => set_chan id (chan_drop_rx c) b
  | None, Some q => set_queue id (mark_receiver_dropped q) b
  | None, None => b
  end.

(** ** [try_publish] *)

(** The loop's accumulators. *)
Record fanout := mk_fanout {
  fo_bus : EventBus;
  fo_to_remove : list SubscriptionId;
  fo_result : PublishResult
}.

Definition add_delivered (r : PublishResult) : PublishResult :=
  mk_result (S (delivered r)) (dropped r) (coalesced r) (disconnected_slow_consumers r).
Definition add_dropped (r : PublishResult) : PublishResult :=
  mk_result (delivered r) (S (dropped r)) (coalesced r) (disconnected_slow_consumers r).
Definition add_coalesced (r : PublishResult) : PublishResult :=
  mk_result (delivered r) (dropped r) (S (coalesced r)) (disconnected_slow_consumers r).
Definition add_disconnected id (r : PublishResult) : PublishResult :=
  mk_result (delivered r) (dropped r) (coalesced r) (disconnected_slow_consumers r ++ [id]).

(** The bookkeeping after an envelope was enqueued: remember it, count down
    the quota. *)
Definition mark_delivered env (sub : SubscriptionInner) : SubscriptionInner :=
  mk_sub (sub_topic sub) (sub_outbound sub)
    ((λ r, (r - 1)%N) <$> sub_remaining sub) (sub_policy sub) (sub_in_flight sub)
    (Some (stream_id env, sequence env)) (sub_notify sub).

Definition quota_exhausted (sub : SubscriptionInner) : bool :=
  match sub_remaining sub with Some r => (r =? 0)%N | None => false end.

Definition record_delivery env id (sub : SubscriptionInner) (f : fanout) : fanout :=
  let sub' := mark_delivered env sub in
  mk_fanout (set_subs <[id := sub']> (fo_bus f))
    (if quota_exhausted sub' then fo_to_remove f ++ [id] else fo_to_remove f)
    (add_delivered (fo_result f)).

(** [disconnect_slow_consumer] *)
Definition slow_notice (sub : SubscriptionInner) : SlowConsumerNotice :=
  mk_notice (fst <$> sub_last_delivered sub) (snd <$> sub_last_delivered sub)
    REASON_SLOW_CONSUMER.
Definition take_notify (sub : SubscriptionInner) : SubscriptionInner :=
  mk_sub (sub_topic sub) (sub_outbound sub) (sub_remaining sub) (sub_policy sub)
    (sub_in_flight sub) (sub_last_delivered sub) false.

Definition disconnect_slow_consumer id (sub : SubscriptionInner) (f : fanout) : fanout :=
  let b := set_subs <[id := take_notify sub]> (fo_bus f) in
  mk_fanout (if sub_notify sub then set_notice id (slow_notice sub) b else b)
    (fo_to_remove f ++ [id]) (add_disconnected id (fo_result f)).

(** The branch of a coalesce-backed subscription, the same on both publish
    paths. *)
Definition visit_coalesce env id (sub : SubscriptionInner) (f : fanout) : fanout :=
  match queues (fo_bus f) !! id with
  | None => f
  | Some q =>
      let '(o, q') := push env q in
      let f' := mk_fanout (set_queue id q' (fo_bus f)) (fo_to_remove f) (fo_result f) in
      match o with
      | Pushed => record_delivery env id sub f'
      | Replaced => mk_fanout (fo_bus f') (fo_to_remove f') (add_coalesced (fo_result f'))
      | Dropped => mk_fanout (fo_bus f') (fo_to_remove f') (add_dropped (fo_result f'))
      | ReceiverGone => mk_fanout (fo_bus f') (fo_to_remove f' ++ [id]) (fo_result f')
      end
  end.

(** One iteration of the fan-out loop; [None] is the [unreachable!] panic. *)
Definition visit env id (f : fanout) : option fanout :=
  let b := fo_bus f in
  match subs b !! id with
  | None => Some f
  | Some sub =>
      if negb (matches_event (sub_topic sub) (topic env) (data env)) then Some f
      else match sub_outbound sub with
      | OMpsc =>
          match chans b !! id with
          | None => Some f
          | Some c =>
              let '(r, c') := chan_try_send env c in
              let f' := mk_fanout (set_chan id c' b) (fo_to_remove f) (fo_result f) in
              match r with
              | SendOk => Some (record_delivery env id sub f')
              | SendFull =>
                  match sub_policy sub with
                  | Disconnect => Some (disconnect_slow_consumer id sub f')
                  | Backpressure | DropNewest =>
                      Some (mk_fanout (fo_bus f') (fo_to_remove f') (add_dropped (fo_result f')))
                  | Coalesce _ => None
                  end
              | SendClosed =>
                  Some (mk_fanout (fo_bus f') (fo_to_remove f' ++ [id]) (fo_result f'))
              end
          end
      | OCoalesce => Some (visit_coalesce env id sub f)
      end
  end.

Fixpoint visit_all env (order : list SubscriptionId) (f : fanout) : option fanout :=
  match order with
  | [] => Some f
  | id :: order' =>
      match visit env id f with
      | Some f' => visit_all env order' f'
      | None => None
      end
  end.

(** The removals at the end of the locked section. *)
Definition remove_one (b : EventBus) id : EventBus := (unsubscribe id b).2.

Definition fan_out env (order : list SubscriptionId) (b : EventBus)
    : option (PublishResult * EventBus) :=
  match visit_all env order (mk_fanout b [] result_default) with
  | Some f => Some (fo_result f, foldl remove_one (fo_bus f) (fo_to_remove f))
  | None => None
  end.

(** Size check and recording, shared with the asynchronous path. *)
Definition envelope_size env : N := default 0%N (serialized_len env).

Definition reject_oversized env (b : EventBus) : EventBus :=
  set_streams (evict (event_id env) (registry b), replay_cache b) b.

Definition record_envelope env (b : EventBus) : EventBus :=
  let '(c, r) := record env (replay_cache b) (registry b) in set_streams (r, c) b.

(** [try_publish]; [order] is the iteration order of the subscription map. *)
Definition try_publish env (order : list SubscriptionId) (b : EventBus)
    : option (result PublishError PublishResult * EventBus) :=
  if (max_event_size b <? envelope_size env)%N
  then Some (Err (TooLarge (max_event_size b)), reject_oversized env b)
  else
    match fan_out env order (record_envelope env b) with
    | Some (r, b') => Some (Ok r, b')
    | None => None
    end.

Definition active_subscriptions (b : EventBus) : nat := size (subs b).
End bus.
Arguments EventBus {_ _} _ {_}.
