(* ===== verification/BusSpec.v ===== *)
(** What [try_publish] promises, one subscription at a time. A subscription is
    seen through its [view] (its entry and the shared objects behind it);
    publishing is specified on a single view, and the fan-out loop of the bus
    is shown to apply exactly that to every subscription, independently of the
    iteration order of the subscription map. *)

From S2P Require Import Prelude F64 Json Query Lexer Parser.
From S2P Require Import Topic Envelope Sequencer Replay Policy CoalesceQueue Mpsc Bus.

Inductive sub_outcome :=
| ONothing        (** no subscription, or its topic does not match *)
| ODelivered      (** a new item is queued *)
| OCoalesced      (** a queued item of the same key was overwritten *)
| ODropped        (** the queue is full and the policy drops *)
| ODisconnected   (** the queue is full and the policy disconnects *)
| OGone.          (** the consumer no longer exists *)

#[export] Instance sub_outcome_eq_dec : EqDecision sub_outcome.
Proof. solve_decision. Defined.

Section spec.
  Context {tl : TopicLibs} {time : TimeLib} {num : Type} `{!SerdeNumber num}.
  Context `{!BusLibs num} `{!Mpsc (EventEnvelope num)}.
  Implicit Types (env : EventEnvelope num) (id : SubscriptionId) (b : EventBus num).

(** ** Views *)

Record sub_view := mk_view {
  v_sub : option SubscriptionInner;
  v_chan : option (chan (EventEnvelope num));
  v_queue : option (CoalesceState num);
  v_notice : option SlowConsumerNotice
}.

Definition view id b : sub_view :=
  mk_view (subs b !! id) (chans b !! id) (queues b !! id) (notices b !! id).

(** Removing a subscription closes its coalesce queue. *)
Definition removed (v : sub_view) : sub_view :=
  match v_sub v with
  | Some sub =>
      mk_view None (v_chan v)
        (match sub_outbound sub with OCoalesce => close <$> v_queue v | OMpsc => v_queue v end)
        (v_notice v)
  | None => v
  end.

(** ** The specification of publishing to one subscription *)

(** An item was queued: one less to go; at zero the subscription ends. *)
Definition after_delivery env (sub : SubscriptionInner) (v : sub_view) : sub_view :=
  let sub' := mark_delivered env sub in
  let v' := mk_view (Some sub') (v_chan v) (v_queue v) (v_notice v) in
  if quota_exhausted sub' then removed v' else v'.

Definition after_overflow (sub : SubscriptionInner) (v : sub_view)
    : option (sub_outcome * sub_view) :=
  match sub_policy sub with
  | Disconnect =>
      Some (ODisconnected,
        mk_view None (v_chan v) (v_queue v)
          (if sub_notify sub then Some (slow_notice sub) else v_notice v))
  | Backpressure | DropNewest => Some (ODropped, v)
  | Coalesce _ => None
  end.

Definition publish_view env (v : sub_view) : option (sub_outcome * sub_view) :=
  match v_sub v with
  | None => Some (ONothing, v)
  | Some sub =>
      if negb (matches_event (sub_topic sub) (topic env) (data env)) then Some (ONothing, v)
      else match sub_outbound sub, v_chan v, v_queue v with
      | OMpsc, Some c, _ =>
          let '(r, c') := chan_try_send env c in
          let v' := mk_view (v_sub v) (Some c') (v_queue v) (v_notice v) in
          match r with
          | SendOk => Some (ODelivered, after_delivery env sub v')
          | SendFull => after_overflow sub v'
          | SendClosed => Some (OGone, removed v')
          end
      | OCoalesce, _, Some q =>
          let '(o, q') := push env q in
          let v' := mk_view (v_sub v) (v_chan v) (Some q') (v_notice v) in
          match o with
          | Pushed => Some (ODelivered, after_delivery env sub v')
          | Replaced => Some (OCoalesced, v')
          | Dropped => Some (ODropped, v')
          | ReceiverGone => Some (OGone, removed v')
          end
      | _, _, _ => Some (ONothing, v)
      end
  end.

(** The outcome for a subscription, before publishing. *)
Definition outcome env b id : option sub_outcome := fst <$> publish_view env (view id b).

Definition count (o : sub_outcome) env b (order : list SubscriptionId) : nat :=
  length (base.filter (λ id, outcome env b id = Some o) order).

(** ** The loop *)

(** Everything but the per-subscription state. *)
Definition same_globals b b' : Prop :=
  next_id b' = next_id b ∧ registry b' = registry b ∧
  replay_cache b' = replay_cache b ∧ max_event_size b' = max_event_size b.

(** What one iteration does to the accumulators, given the outcome. *)
Definition tally id (o : sub_outcome) (r : PublishResult) : PublishResult :=
  match o with
  | ODelivered => add_delivered r
  | OCoalesced => add_coalesced r
  | ODropped => add_dropped r
  | ODisconnected => add_disconnected id r
  | ONothing | OGone => r
  end.

(** The iteration leaves a subscription that must go in place; [removed] is
    applied after the loop. *)
Record visited env id (f f' : fanout) : Prop := {
  vi_view : ∃ o v' rm,
    publish_view env (view id (fo_bus f)) = Some (o, if rm : bool then removed v' else v') ∧
    view id (fo_bus f') = v' ∧
    fo_to_remove f' = fo_to_remove f ++ (if rm then [id] else []) ∧
    fo_result f' = tally id o (fo_result f);
  vi_others j : j ≠ id → view j (fo_bus f') = view j (fo_bus f);
  vi_globals : same_globals (fo_bus f) (fo_bus f')
}.

Lemma visited_delivery env id sub f b1 :
  publish_view env (view id (fo_bus f)) =
    Some (ODelivered, after_delivery env sub (view id b1)) →
  (∀ j, j ≠ id → view j b1 = view j (fo_bus f)) → same_globals (fo_bus f) b1 →
  visited env id f (record_delivery env id sub (mk_fanout b1 (fo_to_remove f) (fo_result f))).
Proof.
  intros Hp Hf Hg. split.
  - exists ODelivered, (mk_view (Some (mark_delivered env sub)) (chans b1 !! id) (queues b1 !! id)
      (notices b1 !! id)), (quota_exhausted (mark_delivered env sub)).
    split; [exact Hp|]. unfold record_delivery, view. simpl. rewrite lookup_insert_eq.
    split; [done|]. split; [|done]. case_match; [done|by rewrite app_nil_r].
  - intros j Hj. rewrite <- (Hf j Hj). unfold view. simpl. by rewrite lookup_insert_ne.
  - done.
Qed.

Lemma visited_disconnect env id sub f b1 :
  sub_outbound sub = OMpsc →
  publish_view env (view id (fo_bus f)) =
    Some (ODisconnected, mk_view None (chans b1 !! id) (queues b1 !! id)
      (if sub_notify sub then Some (slow_notice sub) else notices b1 !! id)) →
  (∀ j, j ≠ id → view j b1 = view j (fo_bus f)) → same_globals (fo_bus f) b1 →
  visited env id f
    (disconnect_slow_consumer id sub (mk_fanout b1 (fo_to_remove f) (fo_result f))).
Proof.
  intros Ho Hp Hf Hg. unfold disconnect_slow_consumer. simpl. split.
  - exists ODisconnected, (mk_view (Some (take_notify sub)) (chans b1 !! id) (queues b1 !! id)
      (if sub_notify sub then Some (slow_notice sub) else notices b1 !! id)), true.
    split; [rewrite Hp; unfold removed; simpl; by rewrite Ho|]. simpl.
    split; [|done]. unfold view. destruct (sub_notify sub); simpl; by rewrite !lookup_insert_eq.
  - intros j Hj. rewrite <- (Hf j Hj). unfold view.
    destruct (sub_notify sub); simpl; by rewrite !lookup_insert_ne.
  - unfold same_globals in *. by destruct (sub_notify sub).
Qed.

(** Only the shared object changed, or the subscription must go. *)
Lemma visited_plain env id f b1 o (rm : bool) res :
  publish_view env (view id (fo_bus f)) =
    Some (o, if rm then removed (view id b1) else view id b1) →
  res = tally id o (fo_result f) →
  (∀ j, j ≠ id → view j b1 = view j (fo_bus f)) → same_globals (fo_bus f) b1 →
  visited env id f (mk_fanout b1 (fo_to_remove f ++ (if rm then [id] else [])) res).
Proof. intros Hp -> Hf Hg. split; [|done|done]. eexists o, _, rm. eauto. Qed.

Lemma set_chan_frame id c b j : j ≠ id → view j (set_chan id c b) = view j b.
Proof. intros. unfold view. simpl. by rewrite lookup_insert_ne. Qed.
Lemma set_queue_frame id q b j : j ≠ id → view j (set_queue id q b) = view j b.
Proof. intros. unfold view. simpl. by rewrite lookup_insert_ne. Qed.
Lemma view_set_chan id c b :
  view id (set_chan id c b) = mk_view (subs b !! id) (Some c) (queues b !! id) (notices b !! id).
Proof. unfold view. simpl. by rewrite lookup_insert_eq. Qed.
Lemma view_set_queue id q b :
  view id (set_queue id q b) = mk_view (subs b !! id) (chans b !! id) (Some q) (notices b !! id).
Proof. unfold view. simpl. by rewrite lookup_insert_eq. Qed.
#[local] Hint Resolve set_chan_frame set_queue_frame : core.

(** The specification, for a subscription whose topic matches. *)
Lemma publish_view_mpsc env id b sub c :
  subs b !! id = Some sub → matches_event (sub_topic sub) (topic env) (data env) = true →
  sub_outbound sub = OMpsc → chans b !! id = Some c →
  publish_view env (view id b) =
    let '(r, c') := chan_try_send env c in
    let v' := view id (set_chan id c' b) in
    match r with
    | SendOk => Some (ODelivered, after_delivery env sub v')
    | SendFull => after_overflow sub v'
    | SendClosed => Some (OGone, removed v')
    end.
Proof.
  intros Es Em Eo Ec. unfold publish_view. simpl. rewrite Es, Em, Eo, Ec. simpl.
  destruct (chan_try_send env c) as [r c']. by rewrite view_set_chan, Es.
Qed.

Lemma publish_view_coalesce env id b sub q :
  subs b !! id = Some sub → matches_event (sub_topic sub) (topic env) (data env) = true →
  sub_outbound sub = OCoalesce → queues b !! id = Some q →
  publish_view env (view id b) =
    let '(o, q') := push env q in
    let v' := view id (set_queue id q' b) in
    match o with
    | Pushed => Some (ODelivered, after_delivery env sub v')
    | Replaced => Some (OCoalesced, v')
    | Dropped => Some (ODropped, v')
    | ReceiverGone => Some (OGone, removed v')
    end.
Proof.
  intros Es Em Eo Eq. unfold publish_view. simpl. rewrite Es, Em, Eo, Eq. simpl.
  destruct (push env q) as [o q']. rewrite view_set_queue, Es. by destruct (chans b !! id).
Qed.

Lemma visited_nothing env id f :
  publish_view env (view id (fo_bus f)) = Some (ONothing, view id (fo_bus f)) →
  visited env id f f.
Proof.
  intros Hp. destruct f as [b tr res].
  pose proof (visited_plain env id (mk_fanout b tr res) b ONothing false res Hp) as H.
  simpl in H. rewrite app_nil_r in H. by apply H.
Qed.

Lemma visit_visited env id f f' : visit env id f = Some f' → visited env id f f'.
Proof.
  unfold visit. destruct (subs (fo_bus f) !! id) as [sub|] eqn:Es.
  2:{ intros [= <-]. apply visited_nothing. unfold publish_view. simpl. by rewrite Es. }
  destruct (matches_event _ _ _) eqn:Em; simpl.
  2:{ intros [= <-]. apply visited_nothing. unfold publish_view. simpl. by rewrite Es, Em. }
  destruct (sub_outbound sub) eqn:Eo.
  - destruct (chans (fo_bus f) !! id) as [c|] eqn:Ec.
    2:{ intros [= <-]. apply visited_nothing. unfold publish_view. simpl.
        by rewrite Es, Em, Eo, Ec. }
    pose proof (publish_view_mpsc env id (fo_bus f) sub c Es Em Eo Ec) as Hp.
    destruct (chan_try_send env c) as [[] c'].
    + intros [= <-]. by apply visited_delivery; auto.
    + unfold after_overflow in Hp. destruct (sub_policy sub); try done; intros [= <-].
      * apply visited_disconnect; [done| |by auto|done].
        rewrite Hp, view_set_chan. simpl. by rewrite lookup_insert_eq.
      * rewrite <- (app_nil_r (fo_to_remove f)).
        by apply (visited_plain _ _ _ _ ODropped false); auto.
      * rewrite <- (app_nil_r (fo_to_remove f)).
        by apply (visited_plain _ _ _ _ ODropped false); auto.
    + intros [= <-]. by apply (visited_plain _ _ _ _ OGone true); auto.
  - unfold visit_coalesce. destruct (queues (fo_bus f) !! id) as [q|] eqn:Eq.
    2:{ intros [= <-]. apply visited_nothing. unfold publish_view. simpl.
        rewrite Es, Em, Eo, Eq. by destruct (chans (fo_bus f) !! id). }
    pose proof (publish_view_coalesce env id (fo_bus f) sub q Es Em Eo Eq) as Hp.
    destruct (push env q) as [[] q']; intros [= <-].
    + by apply visited_delivery; auto.
    + rewrite <- (app_nil_r (fo_to_remove f)).
      by apply (visited_plain _ _ _ _ OCoalesced false); auto.
    + rewrite <- (app_nil_r (fo_to_remove f)).
      by apply (visited_plain _ _ _ _ ODropped false); auto.
    + by apply (visited_plain _ _ _ _ OGone true); auto.
Qed.

(** The counters after visiting [order], from the outcomes seen in [b]. *)
Definition tally_all env b (order : list SubscriptionId) (r : PublishResult) : PublishResult :=
  foldl (λ r id, match outcome env b id with Some o => tally id o r | None => r end) r order.

Record visited_all env (order : list SubscriptionId) (f f' : fanout) : Prop := {
  va_removals : ∃ rms, fo_to_remove f' = fo_to_remove f ++ rms ∧
    (∀ id, id ∈ rms → id ∈ order) ∧
    ∀ id, id ∈ order → ∃ o v' (rm : bool),
      publish_view env (view id (fo_bus f)) = Some (o, if rm then removed v' else v') ∧
      view id (fo_bus f') = v' ∧ (id ∈ rms ↔ rm = true);
  va_result : fo_result f' = tally_all env (fo_bus f) order (fo_result f);
  va_others j : j ∉ order → view j (fo_bus f') = view j (fo_bus f);
  va_globals : same_globals (fo_bus f) (fo_bus f')
}.

Lemma same_globals_trans b1 b2 b3 : same_globals b1 b2 → same_globals b2 b3 → same_globals b1 b3.
Proof. unfold same_globals. naive_solver congruence. Qed.

Lemma tally_all_ext env b b' order r :
  (∀ id, id ∈ order → view id b' = view id b) → tally_all env b' order r = tally_all env b order r.
Proof.
  unfold tally_all, outcome. revert r. induction order as [|id order IH]; intros r Hv; [done|].
  simpl. rewrite Hv by set_solver. apply IH. set_solver.
Qed.

Lemma visit_all_visited env order f f' :
  NoDup order → visit_all env order f = Some f' → visited_all env order f f'.
Proof.
  intros Hnd. revert f. induction Hnd as [|id order Hid Hnd IH]; intros f; simpl.
  { intros [= <-]. split; [|done|done|done]. exists []. rewrite app_nil_r. set_solver. }
  destruct (visit env id f) as [f1|] eqn:Ev; [|done].
  apply visit_visited in Ev as [(o & v' & rm & Hp & Hv & Htr & Hres) Hoth Hg].
  intros Hrest%IH. destruct Hrest as [(rms & Htr2 & Hsub & Hall) Hres2 Hoth2 Hg2].
  assert (∀ j, j ∈ order → view j (fo_bus f1) = view j (fo_bus f)) as Hsame.
  { intros j Hj. apply Hoth. by intros ->. }
  split.
  - exists ((if rm then [id] else []) ++ rms). rewrite Htr2, Htr, app_assoc.
    split; [done|]. split; [destruct rm; set_solver|].
    intros j [->|Hj]%elem_of_cons.
    + exists o, v', rm. split; [done|]. split; [by rewrite Hoth2|].
      assert (id ∉ rms) by auto. destruct rm; set_solver.
    + destruct (Hall j Hj) as (oj & vj & rmj & Hpj & Hvj & Hrj).
      exists oj, vj, rmj. rewrite <- Hsame by done. split; [done|]. split; [done|].
      rewrite <- Hrj. assert (j ≠ id) by (by intros ->). destruct rm; set_solver.
  - rewrite Hres2, Hres. rewrite (tally_all_ext env (fo_bus f)) by done.
    unfold tally_all, outcome. simpl. by rewrite Hp.
  - intros j Hj. rewrite Hoth2, Hoth; set_solver.
  - by eapply same_globals_trans.
Qed.

Lemma remove_one_view b id j :
  view j (remove_one b id) = if decide (j = id) then removed (view j b) else view j b.
Proof.
  unfold remove_one, unsubscribe.
  destruct (subs b !! id) as [sub|] eqn:Es; simpl.
  2:{ case_decide; subst; [|done]. unfold removed. simpl. by rewrite Es. }
  unfold close_outbound. simpl. case_decide as Hj; subst.
  - unfold removed. simpl. rewrite Es. destruct (sub_outbound sub).
    + unfold view. simpl. by rewrite lookup_delete_eq.
    + destruct (queues b !! id) as [q|] eqn:Eq; unfold view; simpl;
        rewrite ?lookup_delete_eq, ?lookup_insert_eq, ?Eq; done.
  - destruct (sub_outbound sub); [|destruct (queues b !! id)]; unfold view; simpl;
      by rewrite ?lookup_delete_ne, ?lookup_insert_ne.
Qed.

Lemma removed_removed v : removed (removed v) = removed v.
Proof. destruct v as [[sub|] c q n]; done. Qed.

Lemma remove_all_view l b j :
  view j (foldl remove_one b l) =
  if decide (j ∈ l) then removed (view j b) else view j b.
Proof.
  revert b. induction l as [|id l IH]; intros b; [done|].
  simpl. rewrite IH, remove_one_view.
  repeat case_decide; subst; try set_solver. apply removed_removed.
Qed.

Lemma remove_one_globals b id : same_globals b (remove_one b id).
Proof.
  unfold remove_one, unsubscribe. destruct (subs b !! id) as [sub|]; [|done].
  unfold close_outbound. simpl. by destruct (sub_outbound sub); [|destruct (queues b !! id)].
Qed.

Lemma remove_all_globals l b : same_globals b (foldl remove_one b l).
Proof.
  revert b. induction l as [|id l IH]; intros b; [done|]. simpl.
  eapply same_globals_trans; [apply remove_one_globals|apply IH].
Qed.

(** The whole locked section. *)
Lemma fan_out_spec env order b r b' :
  NoDup order → (∀ id, is_Some (subs b !! id) → id ∈ order) →
  fan_out env order b = Some (r, b') →
  (∀ id, ∃ o, publish_view env (view id b) = Some (o, view id b')) ∧
  r = tally_all env b order result_default ∧ same_globals b b'.
Proof.
  intros Hnd Hcov. unfold fan_out.
  destruct (visit_all env order (mk_fanout b [] result_default)) as [f|] eqn:Ev; [|done].
  intros [= <- <-].
  apply visit_all_visited in Ev as [(rms & Htr & Hsub & Hall) Hres Hoth Hg]; [|done].
  simpl in *. rewrite Htr. split; [|split].
  - intros id. rewrite remove_all_view. destruct (decide (id ∈ order)) as [Hin|Hin].
    + destruct (Hall id Hin) as (o & v' & rm & Hp & -> & Hrm). exists o. rewrite Hp.
      destruct rm; case_decide; naive_solver.
    + rewrite decide_False by naive_solver. exists ONothing. rewrite Hoth by done.
      unfold publish_view. simpl. destruct (subs b !! id) eqn:Es; [|done].
      by destruct Hin; apply Hcov.
  - done.
  - eapply same_globals_trans; [exact Hg|apply remove_all_globals].
Qed.

Lemma tally_all_delivered env b order r :
  delivered (tally_all env b order r) = delivered r + count ODelivered env b order ∧
  dropped (tally_all env b order r) = dropped r + count ODropped env b order ∧
  coalesced (tally_all env b order r) = coalesced r + count OCoalesced env b order ∧
  disconnected_slow_consumers (tally_all env b order r) =
    disconnected_slow_consumers r ++
    base.filter (λ id, outcome env b id = Some ODisconnected) order.
Proof.
  unfold tally_all, count. revert r. induction order as [|id order IH]; intros r; simpl.
  { rewrite app_nil_r. auto. }
  destruct (IH (match outcome env b id with Some o => tally id o r | None => r end))
    as (-> & -> & -> & ->). rewrite !filter_cons.
  destruct (outcome env b id) as [[]|] eqn:Eo;
    repeat (case_decide; [|try (exfalso; congruence)]); simplify_eq;
    repeat (case_decide; simplify_eq); simpl; rewrite <- ?app_assoc; auto with lia.
Qed.
End spec.
