(* ===== verification/BusProps.v ===== *)
(** Properties of the synchronous bus: refinement of the per-subscription
    specification, order independence, the invariant of every reachable bus
    (bounded queues, no panic), and quotas. *)

From S2P Require Import Prelude F64 Json Query Lexer Parser.
From S2P Require Import Topic Envelope Sequencer Replay Policy CoalesceQueue Mpsc Bus BusSpec.

Section refinement.
  Context {tl : TopicLibs} {time : TimeLib} {num : Type} `{!SerdeNumber num}.
  Context `{!BusLibs num} `{!Mpsc (EventEnvelope num)}.
  Implicit Types (env : EventEnvelope num) (id : SubscriptionId) (b : EventBus num).

(** [order] enumerates the subscription map. *)
Definition enumerates (order : list SubscriptionId) b : Prop :=
  NoDup order ∧ ∀ id, id ∈ order ↔ is_Some (subs b !! id).

Lemma record_envelope_view env b id : view id (record_envelope env b) = view id b.
Proof. unfold record_envelope. by destruct (record _ _ _). Qed.

Lemma record_envelope_subs env b : subs (record_envelope env b) = subs b.
Proof. unfold record_envelope. by destruct (record _ _ _). Qed.

Lemma count_record o env b order :
  count o env (record_envelope env b) order = count o env b order.
Proof.
  unfold count. f_equal. apply list_filter_iff. intros id. unfold outcome.
  by rewrite record_envelope_view.
Qed.

Lemma disconnected_record env b (order : list SubscriptionId) :
  base.filter (λ id, outcome env (record_envelope env b) id = Some ODisconnected) order =
  base.filter (λ id, outcome env b id = Some ODisconnected) order.
Proof.
  apply list_filter_iff. intros id. unfold outcome. by rewrite record_envelope_view.
Qed.

Lemma try_publish_spec env order b r b' :
  enumerates order b → try_publish env order b = Some (Ok r, b') →
  (envelope_size env <= max_event_size b)%N ∧
  (∀ id, ∃ o, publish_view env (view id b) = Some (o, view id b')) ∧
  delivered r = count ODelivered env b order ∧
  dropped r = count ODropped env b order ∧
  coalesced r = count OCoalesced env b order ∧
  disconnected_slow_consumers r =
    base.filter (λ id, outcome env b id = Some ODisconnected) order ∧
  (replay_cache b', registry b') = record env (replay_cache b) (registry b) ∧
  next_id b' = next_id b ∧ max_event_size b' = max_event_size b.
Proof.
  intros [Hnd Hen]. unfold try_publish.
  destruct (N.ltb_spec (max_event_size b) (envelope_size env)) as [|Hsz]; [done|].
  destruct (fan_out env order (record_envelope env b)) as [[r0 b0]|] eqn:Ef; [|done].
  intros [= <- <-]. apply fan_out_spec in Ef as (Hv & -> & Hg); [|done|].
  2:{ intros id. rewrite record_envelope_subs. apply Hen. }
  split; [done|]. split; [intros id; rewrite <- (record_envelope_view env b id); apply Hv|].
  destruct (tally_all_delivered env (record_envelope env b) order result_default)
    as (-> & -> & -> & ->).
  rewrite !count_record, disconnected_record. simpl. repeat (split; [done|]).
  destruct Hg as (-> & -> & -> & ->). unfold record_envelope.
  by destruct (record env (replay_cache b) (registry b)).
Qed.

(** C3: [try_publish] refines its per-subscription specification: an accepted
    envelope is recorded for replay, every subscription is changed exactly as
    publishing to it alone prescribes (its own channel, quota, notice and
    removal, no other's), and the counters of the result are the numbers of
    subscriptions with each outcome. *)
Theorem try_publish_refines (env : EventEnvelope num) (order : list SubscriptionId)
    (b b' : EventBus num) (r : PublishResult) :
  enumerates order b → try_publish env order b = Some (Ok r, b') →
  (∀ id, ∃ o, publish_view env (view id b) = Some (o, view id b')) ∧
  delivered r = count ODelivered env b order ∧
  dropped r = count ODropped env b order ∧
  coalesced r = count OCoalesced env b order ∧
  disconnected_slow_consumers r =
    base.filter (λ id, outcome env b id = Some ODisconnected) order ∧
  (replay_cache b', registry b') = record env (replay_cache b) (registry b).
Proof. intros Hen Hp. apply try_publish_spec in Hp; [|done]. naive_solver. Qed.

Lemma count_permutation o env b order order' :
  order ≡ₚ order' → count o env b order = count o env b order'.
Proof. intros H. unfold count. by rewrite H. Qed.

Lemma enumerates_permutation order order' b :
  enumerates order b → enumerates order' b → order ≡ₚ order'.
Proof.
  intros [Hnd H] [Hnd' H']. apply NoDup_Permutation; [done..|].
  intros id. by rewrite H, H'.
Qed.

(** The outcome of a publish does not depend on the order in which the
    hash map yields the subscriptions: two orders leave every subscription in
    the same state and report the same counts, the disconnected consumers up
    to order. *)
Theorem try_publish_order_independent (env : EventEnvelope num)
    (order1 order2 : list SubscriptionId) (b b1 b2 : EventBus num) (r1 r2 : PublishResult) :
  enumerates order1 b → enumerates order2 b →
  try_publish env order1 b = Some (Ok r1, b1) →
  try_publish env order2 b = Some (Ok r2, b2) →
  (∀ id, view id b1 = view id b2) ∧
  delivered r1 = delivered r2 ∧ dropped r1 = dropped r2 ∧ coalesced r1 = coalesced r2 ∧
  disconnected_slow_consumers r1 ≡ₚ disconnected_slow_consumers r2.
Proof.
  intros H1 H2 P1 P2. pose proof (enumerates_permutation _ _ _ H1 H2) as Hp.
  apply try_publish_spec in P1 as (_ & V1 & -> & -> & -> & -> & _); [|done].
  apply try_publish_spec in P2 as (_ & V2 & -> & -> & -> & -> & _); [|done].
  split.
  - intros id. destruct (V1 id) as [o1 E1], (V2 id) as [o2 E2]. congruence.
  - rewrite !(count_permutation _ env b _ _ Hp). repeat (split; [done|]). by rewrite Hp.
Qed.

(** An envelope above the size limit is rejected with the limit, leaves
    every subscription and the replay cache as they were, and frees its entry
    of the reverse index. *)
Theorem oversized_rejected (env : EventEnvelope num) (order : list SubscriptionId)
    (b : EventBus num) :
  (max_event_size b < envelope_size env)%N →
  ∃ b', try_publish env order b = Some (Err (TooLarge (max_event_size b)), b') ∧
    (∀ id, view id b' = view id b) ∧ replay_cache b' = replay_cache b ∧
    stream_for (event_id env) (registry b') = None ∧
    ∀ eid : EventId, eid ≠ event_id env → stream_for eid (registry b') = stream_for eid (registry b).
Proof.
  intros H. unfold try_publish. apply N.ltb_lt in H. rewrite H.
  eexists. split; [done|]. split; [done|]. split; [done|]. unfold stream_for. simpl.
  split; [apply lookup_delete_eq|]. intros id Hid. by apply lookup_delete_ne.
Qed.
End refinement.

(** ** The invariant *)
Section invariant.
  Context {tl : TopicLibs} {time : TimeLib} {num : Type}.
  Context `{!SerdeNumber num, !SerdeNumberLaws num}.
  Context `{!BusLibs num} `{!Mpsc (EventEnvelope num), !MpscLaws (EventEnvelope num)}.
  Implicit Types (env : EventEnvelope num) (id : SubscriptionId) (b : EventBus num).

Definition is_coalesce (p : SlowConsumerPolicy) : bool :=
  match p with Coalesce _ => true | _ => false end.

(** The backing object of a subscription is the one its policy calls for. *)
Definition sub_ok (v : sub_view) (sub : SubscriptionInner) : Prop :=
  match sub_outbound sub with
  | OMpsc => is_coalesce (sub_policy sub) = false ∧ is_Some (v_chan v)
  | OCoalesce => is_coalesce (sub_policy sub) = true ∧ is_Some (v_queue v)
  end.

(** Slots are neither lost nor invented. *)
Definition chan_ok (c : chan (EventEnvelope num)) : Prop :=
  length (chan_contents c) + chan_permits c = chan_capacity c.

Record view_ok (v : sub_view) : Prop := {
  vo_sub sub : v_sub v = Some sub → sub_ok v sub;
  vo_chan c : v_chan v = Some c → chan_ok c;
  vo_queue q : v_queue v = Some q → queue_inv q
}.

Lemma chan_ok_send env c r c' : chan_ok c → chan_try_send env c = (r, c') → chan_ok c'.
Proof.
  unfold chan_ok. intros Hc Hs. destruct (chan_rx_alive c) eqn:Ha.
  - destruct (decide (0 < chan_permits c)) as [Hp|Hp].
    + destruct (chan_try_send_ok env c Ha Hp) as (c2 & E & E1 & E2 & E3 & _).
      rewrite E in Hs. injection Hs as <- <-. rewrite E1, E2, E3, length_app. simpl. lia.
    + rewrite chan_try_send_full in Hs by (done || lia). by injection Hs as <- <-.
  - rewrite chan_try_send_closed in Hs by done. by injection Hs as <- <-.
Qed.

Lemma chan_ok_pop c : chan_ok c → chan_ok (chan_pop c).2.
Proof.
  unfold chan_ok. pose proof (chan_pop_spec c) as Hp. destruct (chan_pop c) as [r c'].
  destruct Hp as (_ & E1 & E2 & E3 & _). simpl. rewrite E1, E2, E3.
  destruct (chan_contents c); simpl; lia.
Qed.

Lemma chan_ok_drop c : chan_ok c → chan_ok (chan_drop_rx c).
Proof. unfold chan_ok. by destruct (chan_drop_rx_spec c) as (_ & -> & -> & ->). Qed.

Lemma queue_inv_close (q : CoalesceState num) : queue_inv q → queue_inv (close q).
Proof. by intros [Hb Hd]. Qed.

Lemma view_ok_removed v : view_ok v → view_ok (removed v).
Proof.
  intros [Hs Hc Hq]. destruct v as [[sub|] c q n]; unfold removed; simpl in *; [|done].
  split; simpl; [done|done|]. intros q'. destruct (sub_outbound sub); [auto|].
  intros (q0 & -> & ->)%fmap_Some. by apply queue_inv_close, Hq.
Qed.

Lemma view_ok_delivery env sub c q n :
  view_ok (mk_view (Some sub) c q n) → view_ok (after_delivery env sub (mk_view (Some sub) c q n)).
Proof.
  intros [Hs Hc Hq]. unfold after_delivery.
  assert (view_ok (mk_view (Some (mark_delivered env sub)) c q n)) as H.
  { split; simpl; [|done|done]. intros ? [= <-]. exact (Hs sub eq_refl). }
  case_match; [by apply view_ok_removed|done].
Qed.

(** Publishing to a well-formed subscription neither panics nor breaks it. *)
Lemma publish_view_ok env v :
  view_ok v → ∃ o v', publish_view env v = Some (o, v') ∧ view_ok v'.
Proof.
  intros Hv. pose proof Hv as [Hs Hc Hq]. unfold publish_view.
  destruct v as [[sub|] c q n]; simpl in *; [|by eauto].
  destruct (matches_event _ _ _); simpl; [|by eauto].
  specialize (Hs sub eq_refl). unfold sub_ok in Hs. destruct (sub_outbound sub) eqn:Eo; simpl in Hs.
  - destruct Hs as [Hp [c0 ->]]. destruct (chan_try_send env c0) as [r c'] eqn:Es.
    pose proof (chan_ok_send env c0 r c' (Hc c0 eq_refl) Es) as Hc'.
    assert (view_ok (mk_view (Some sub) (Some c') q n)) as Hv'.
    { split; simpl; [|by intros ? [= <-]|done]. intros ? [= <-].
      unfold sub_ok. rewrite Eo. eauto. }
    destruct r.
    + eexists _, _. split; [done|]. by apply view_ok_delivery.
    + unfold after_overflow. destruct (sub_policy sub); try done; eexists _, _; (split; [done|]); auto.
      split; simpl; [done|by intros ? [= <-]|done].
    + eexists _, _. split; [done|]. by apply view_ok_removed.
  - destruct Hs as [Hp [q0 ->]]. destruct (push env q0) as [o q'] eqn:Ep.
    pose proof (push_inv env q0 (Hq q0 eq_refl)) as Hq'. rewrite Ep in Hq'. simpl in Hq'.
    assert (view_ok (mk_view (Some sub) c (Some q') n)) as Hv'.
    { split; simpl; [|done|by intros ? [= <-]]. intros ? [= <-].
      unfold sub_ok. rewrite Eo. eauto. }
    destruct c as [c0|]; destruct o; eexists _, _; (split; [done|]);
      auto using view_ok_delivery, view_ok_removed.
Qed.

(** Every subscription is well formed, and ids not handed out yet are unused. *)
Definition no_view : sub_view := mk_view None None None None.

Record bus_ok b : Prop := {
  bo_view id : view_ok (view id b);
  bo_fresh id : (next_id b <= id)%N → view id b = no_view
}.

Lemma visit_None env id f :
  visit env id f = None → publish_view env (view id (fo_bus f)) = None.
Proof.
  unfold visit, publish_view. simpl. destruct (subs (fo_bus f) !! id) as [sub|]; [|done].
  destruct (matches_event _ _ _); simpl; [|done]. destruct (sub_outbound sub).
  - destruct (chans (fo_bus f) !! id) as [c|]; [|done].
    destruct (chan_try_send env c) as [[] c']; try done.
    unfold after_overflow. by destruct (sub_policy sub).
  - done.
Qed.

Lemma visit_all_total env order f :
  NoDup order → (∀ id, id ∈ order → view_ok (view id (fo_bus f))) →
  is_Some (visit_all env order f).
Proof.
  intros Hnd. revert f. induction Hnd as [|id order Hid Hnd IH]; intros f Hok; simpl; [by eauto|].
  destruct (publish_view_ok env (view id (fo_bus f))) as (o & v & Hp & _); [apply Hok; set_solver|].
  destruct (visit env id f) as [f'|] eqn:Ev; [|apply visit_None in Ev; congruence].
  apply IH. apply visit_visited in Ev as [_ Hoth _].
  intros j Hj. rewrite Hoth by (by intros ->). apply Hok. set_solver.
Qed.

Lemma try_publish_ok env order b :
  enumerates order b → bus_ok b →
  ∃ res b', try_publish env order b = Some (res, b') ∧ bus_ok b'.
Proof.
  intros Hen Hok. pose proof Hok as [Hv Hf]. unfold try_publish.
  destruct (N.ltb_spec (max_event_size b) (envelope_size env)) as [|Hsz].
  { eexists _, _. split; [done|]. by split. }
  destruct (fan_out env order (record_envelope env b)) as [[r b']|] eqn:Ef.
  - eexists _, _. split; [done|].
    apply fan_out_spec in Ef as (Hv' & _ & Hg); [|by apply Hen|].
    2:{ intros id. rewrite record_envelope_subs. apply Hen. }
    split.
    + intros id. destruct (Hv' id) as [o Hp]. rewrite record_envelope_view in Hp.
      destruct (publish_view_ok env _ (Hv id)) as (o' & v' & Hp' & ?). congruence.
    + intros id. destruct Hg as (-> & _). intros Hid. destruct (Hv' id) as [o Hp].
      assert (next_id (record_envelope env b) = next_id b) as Hn.
      { unfold record_envelope. by destruct (record _ _ _). }
      rewrite record_envelope_view, Hf in Hp by (by rewrite <- Hn).
      change (publish_view env no_view) with (Some (ONothing, no_view)) in Hp. congruence.
  - exfalso. unfold fan_out in Ef.
    destruct (visit_all_total env order (mk_fanout (record_envelope env b) [] result_default))
      as [f Hvis]; [apply Hen| |by rewrite Hvis in Ef].
    intros id _. simpl. rewrite record_envelope_view. apply Hv.
Qed.

(** An operation that changes one view, keeps it well formed, and does not
    touch unused ids. *)
Lemma bus_ok_update b b' id :
  bus_ok b → (∀ j, j ≠ id → view j b' = view j b) → (next_id b <= next_id b')%N →
  view_ok (view id b') → ((next_id b' <= id)%N → view id b' = no_view) → bus_ok b'.
Proof.
  intros [Hv Hf] Hoth Hn Hid Hfid. split.
  - intros j. destruct (decide (j = id)) as [->|]; [done|]. by rewrite Hoth.
  - intros j Hj. destruct (decide (j = id)) as [->|]; [auto|]. rewrite Hoth by done.
    apply Hf. lia.
Qed.

Lemma view_ok_subscribed tp out opts c q n :
  sub_ok (mk_view None c q n) (mk_sub tp out (limit opts) (slow_consumer_policy opts) 0 None true) →
  (∀ c', c = Some c' → chan_ok c') → (∀ q', q = Some q' → queue_inv q') →
  view_ok (mk_view (Some (mk_sub tp out (limit opts) (slow_consumer_policy opts) 0 None true)) c q n).
Proof. intros Hs Hc Hq. split; [|done|done]. by intros sub [= <-]. Qed.

Lemma subscribe_ok tp opts b id b' :
  (next_id b + 1 < 2 ^ 64)%N → bus_ok b → subscribe tp opts b = Some (id, b') → bus_ok b'.
Proof.
  intros Hlt Hok Hs. pose proof Hok as [_ Hf]. unfold subscribe in Hs.
  pose proof (Hf (next_id b) (N.le_refl _)) as Hnew. unfold view, no_view in Hnew.
  injection Hnew as _ Ec Eq En.
  assert (∀ out b2, id = next_id b →
    (∀ j, j ≠ id → view j b2 = view j b) → next_id b2 = (next_id b + 1)%N →
    view_ok (view id (set_subs <[id := mk_sub tp out (limit opts)
      (slow_consumer_policy opts) 0 None true]> b2)) →
    bus_ok (set_subs <[id := mk_sub tp out (limit opts)
      (slow_consumer_policy opts) 0 None true]> b2)) as Hgen.
  { intros out b2 -> Hoth Hn Hvok. eapply (bus_ok_update b _ (next_id b)); [done| | |done|].
    - intros j Hj. rewrite <- Hoth by done. unfold view. simpl. by rewrite lookup_insert_ne.
    - simpl. lia.
    - simpl. lia. }
  assert (wrap64 (next_id b + 1) = (next_id b + 1)%N) as Hw by (by apply N.mod_small).
  destruct (slow_consumer_policy opts) as [| | |kp] eqn:Ep;
    [destruct (resolved_outbound_capacity opts =? 0) eqn:E0; [done|] ..|];
    injection Hs as <- <-; (apply Hgen; [done| |done|]).
  1,3,5: intros j Hj; unfold view; simpl; by rewrite lookup_insert_ne.
  4: intros j Hj; unfold view; simpl; by rewrite lookup_insert_ne.
  1-3: unfold view; simpl; rewrite !lookup_insert_eq, Eq, <- Ep;
    (apply view_ok_subscribed; [unfold sub_ok; simpl; rewrite Ep; eauto| |done]);
    intros c' [= <-]; unfold chan_ok;
    by destruct (chan_new_spec (A:=EventEnvelope num) (resolved_outbound_capacity opts)) as (-> & -> & -> & _).
  unfold view; simpl; rewrite !lookup_insert_eq, Ec, <- Ep.
  apply view_ok_subscribed; [unfold sub_ok; simpl; rewrite Ep; eauto|done|].
  intros q' [= <-]. split; simpl; [lia|]. intros i j x y Hx. by rewrite lookup_nil in Hx.
Qed.

Lemma remove_one_ok b id : bus_ok b → bus_ok (remove_one b id).
Proof.
  intros Hok. pose proof Hok as [Hv Hf].
  destruct (remove_one_globals b id) as (Hn & _).
  split.
  - intros j. rewrite remove_one_view. case_decide; auto using view_ok_removed.
  - intros j Hj. rewrite remove_one_view, Hf by (by rewrite <- Hn). by case_decide.
Qed.

Lemma view_ok_set_chan id c c' b :
  bus_ok b → chans b !! id = Some c → (chan_ok c → chan_ok c') → bus_ok (set_chan id c' b).
Proof.
  intros Hok Ec Hc. pose proof Hok as [Hv Hf].
  apply (bus_ok_update b _ id); [done|by apply set_chan_frame|done| |].
  - rewrite view_set_chan. destruct (Hv id) as [Hs Hch Hq]. split; simpl in *.
    + intros sub Hsub. specialize (Hs sub Hsub). unfold sub_ok in *. simpl in *.
      destruct (sub_outbound sub); [|done]. naive_solver.
    + intros ? [= <-]. by apply Hc, Hch.
    + done.
  - intros Hid. exfalso. pose proof (Hf id Hid) as E. unfold view, no_view in E. congruence.
Qed.

Lemma view_ok_set_queue id q q' b :
  bus_ok b → queues b !! id = Some q → (queue_inv q → queue_inv q') →
  bus_ok (set_queue id q' b).
Proof.
  intros Hok Eq Hq'. pose proof Hok as [Hv Hf].
  apply (bus_ok_update b _ id); [done|by apply set_queue_frame|done| |].
  - rewrite view_set_queue. destruct (Hv id) as [Hs Hch Hq]. split; simpl in *.
    + intros sub Hsub. specialize (Hs sub Hsub). unfold sub_ok in *. simpl in *.
      destruct (sub_outbound sub); [done|]. naive_solver.
    + done.
    + intros ? [= <-]. by apply Hq', Hq.
  - intros Hid. exfalso. pose proof (Hf id Hid) as E. unfold view, no_view in E. congruence.
Qed.

Lemma rx_try_recv_ok id b : bus_ok b → bus_ok (rx_try_recv id b).2.
Proof.
  intros Hok. unfold rx_try_recv. destruct (chans b !! id) as [c|] eqn:Ec.
  - pose proof (chan_ok_pop c) as Hp. destruct (chan_pop c) as [[e|] c']; simpl in *;
      by eapply view_ok_set_chan.
  - destruct (queues b !! id) as [q|] eqn:Eq; [|done].
    pose proof (try_recv_inv q) as Hp. destruct (try_recv q) as [r q']; simpl in *.
    by eapply view_ok_set_queue.
Qed.

Lemma rx_drop_ok id b : bus_ok b → bus_ok (rx_drop id b).
Proof.
  intros Hok. unfold rx_drop. destruct (chans b !! id) as [c|] eqn:Ec.
  - eapply view_ok_set_chan; eauto using chan_ok_drop.
  - destruct (queues b !! id) as [q|] eqn:Eq; [|done].
    eapply view_ok_set_queue; eauto. by intros [? ?].
Qed.

(** Everything that can happen to a bus that is used synchronously. *)
Inductive bus_step : EventBus num → EventBus num → Prop :=
| bs_subscribe tp opts b id b' :
    (next_id b + 1 < 2 ^ 64)%N → subscribe tp opts b = Some (id, b') → bus_step b b'
| bs_unsubscribe id b : bus_step b (unsubscribe id b).2
| bs_publish env order b res b' :
    enumerates order b → try_publish env order b = Some (res, b') → bus_step b b'
| bs_recv id b : bus_step b (rx_try_recv id b).2
| bs_drop id b : bus_step b (rx_drop id b)
| bs_max_size n b : bus_step b (with_max_event_size n b)
| bs_allocate s b : bus_step b (set_streams ((allocate s (registry b)).2, replay_cache b) b).

Lemma bus_step_ok b b' : bus_step b b' → bus_ok b → bus_ok b'.
Proof.
  intros Hs Hok. destruct Hs as [tp opts b id b' Hlt Hsub|id b|env order b res b' Hen Hp| | | |].
  - by eapply subscribe_ok.
  - by apply (remove_one_ok b id).
  - destruct (try_publish_ok env order b Hen Hok) as (? & ? & ? & ?). congruence.
  - by apply rx_try_recv_ok.
  - by apply rx_drop_ok.
  - destruct Hok. by split.
  - destruct Hok. by split.
Qed.

Lemma bus_new_ok r cap : bus_ok (bus_new r cap).
Proof.
  split; intros id; unfold view; simpl; [|done]. by split; simpl; intros; simplify_map_eq.
Qed.

End invariant.

(** A subscribe with an outbound capacity of zero and a policy other than
    coalesce panics in the channel constructor; nothing in the bus rejects the
    value first. *)
Lemma zero_capacity_panics {tl : TopicLibs} {time : TimeLib} {num : Type}
    `{!Mpsc (EventEnvelope num)} (tp : TopicPattern) (opts : SubscribeOpts) (b : EventBus num) :
  outbound_capacity opts = Some 0 → is_coalesce (slow_consumer_policy opts) = false →
  subscribe tp opts b = None.
Proof.
  intros H0 Hc. unfold subscribe, resolved_outbound_capacity. rewrite H0. simpl.
  by destruct (slow_consumer_policy opts).
Qed.

(** ** Quotas *)
Section quota.
  Context {tl : TopicLibs} {time : TimeLib} {num : Type} `{!SerdeNumber num}.
  Context `{!BusLibs num} `{!Mpsc (EventEnvelope num)}.
  Implicit Types (env : EventEnvelope num) (v : sub_view).

(** What can happen to one subscription. *)
Inductive view_op :=
| VPublish (env : EventEnvelope num)
| VReceive           (** the consumer takes an item *)
| VDropReceiver
| VUnsubscribe.

(** The number of items queued and the view after the operations. *)
Fixpoint run_ops (ops : list view_op) v : option (nat * sub_view) :=
  match ops with
  | [] => Some (0, v)
  | VPublish env :: ops' =>
      match publish_view env v with
      | None => None
      | Some (o, v') =>
          match run_ops ops' v' with
          | None => None
          | Some (n, v'') => Some ((if decide (o = ODelivered) then S n else n), v'')
          end
      end
  | VReceive :: ops' =>
      run_ops ops' (mk_view (v_sub v) ((λ c, (chan_pop c).2) <$> v_chan v)
        ((λ q, (try_recv q).2) <$> v_queue v) (v_notice v))
  | VDropReceiver :: ops' =>
      run_ops ops' (mk_view (v_sub v) (chan_drop_rx <$> v_chan v)
        (mark_receiver_dropped <$> v_queue v) (v_notice v))
  | VUnsubscribe :: ops' => run_ops ops' (removed v)
  end.

(** How many more items a subscription may receive; [None] for no limit. *)
Definition allowance v : option nat :=
  match v_sub v with
  | None => Some 0
  | Some sub => (λ r, N.to_nat (N.max r 1)) <$> sub_remaining sub
  end.

Lemma allowance_removed v : allowance (removed v) = Some 0.
Proof. unfold allowance, removed. by destruct v as [[sub|] c q n]. Qed.

Lemma allowance_delivery env sub v :
  match sub_remaining sub with
  | Some r => allowance (after_delivery env sub v) = Some (pred (N.to_nat (N.max r 1)))
  | None => allowance (after_delivery env sub v) = None
  end.
Proof.
  unfold after_delivery, quota_exhausted, mark_delivered. simpl.
  destruct (sub_remaining sub) as [r|] eqn:E; simpl; [|done].
  destruct (N.eqb_spec (r - 1) 0) as [Hr|Hr].
  - rewrite allowance_removed. f_equal. lia.
  - unfold allowance. simpl. f_equal. lia.
Qed.

Lemma publish_view_allowance env v o v' k :
  publish_view env v = Some (o, v') → allowance v = Some k →
  ∃ k', allowance v' = Some k' ∧
    k' + (if decide (o = ODelivered) then 1 else 0) ≤ k.
Proof.
  intros Hp Hk. unfold publish_view in Hp. destruct (v_sub v) as [sub|] eqn:Es.
  2:{ injection Hp as <- <-. exists k. split; [done|]. simpl. lia. }
  assert (∀ c q n, allowance (mk_view (Some sub) c q n) = Some k) as Hany.
  { intros. unfold allowance in *. by rewrite Es in Hk. }
  assert (∀ w, ∃ k', allowance (after_delivery env sub w) = Some k' ∧ k' + 1 ≤ k) as Hdel.
  { intros w. pose proof (allowance_delivery env sub w) as H.
    unfold allowance in Hk. rewrite Es in Hk.
    destruct (sub_remaining sub) as [r|]; simplify_eq/=. rewrite H. eexists. split; [done|]. lia. }
  destruct (negb _).
  { injection Hp as <- <-. exists k. split; [done|]. simpl. lia. }
  destruct (sub_outbound sub), (v_chan v) as [c|], (v_queue v) as [q|];
    try (injection Hp as <- <-; exists k; split; [done|]; simpl; lia).
  1,2: destruct (chan_try_send env c) as [[] c'];
    [injection Hp as <- <-; apply Hdel
    |unfold after_overflow in Hp; destruct (sub_policy sub); simplify_eq;
       eexists; (split; [by (apply Hany || reflexivity)|]); simpl; lia
    |injection Hp as <- <-; rewrite allowance_removed; exists 0; split; [done|]; simpl; lia].
  all: destruct (push env q) as [[] q']; injection Hp as <- <-;
    [apply Hdel|exists k; split; [apply Hany|]; simpl; lia
    |exists k; split; [apply Hany|]; simpl; lia
    |rewrite allowance_removed; exists 0; split; [done|]; simpl; lia].
Qed.

Lemma run_ops_allowance ops v n v' k :
  run_ops ops v = Some (n, v') → allowance v = Some k →
  ∃ k', allowance v' = Some k' ∧ k' + n ≤ k.
Proof.
  revert v n k. induction ops as [|[env| | |] ops IH]; intros v n k Hr Hk; simpl in Hr.
  - injection Hr as <- <-. exists k. split; [done|lia].
  - destruct (publish_view env v) as [[o v1]|] eqn:Hp; [|done].
    destruct (publish_view_allowance _ _ _ _ _ Hp Hk) as (k1 & Hk1 & Hle).
    destruct (run_ops ops v1) as [[m v2]|] eqn:Hr1; [|done].
    injection Hr as <- <-. destruct (IH _ _ _ Hr1 Hk1) as (k2 & Hk2 & Hle2).
    exists k2. split; [done|]. case_decide; lia.
  - by eapply IH.
  - by eapply IH.
  - destruct (IH _ _ 0 Hr (allowance_removed v)) as (k' & ? & ?). exists k'.
    split; [done|lia].
Qed.

(** A subscription with a limit never receives more items than the limit
    through [try_publish] (one, when the limit is zero), whatever publishes,
    receives, drops and unsubscribes happen, and once it has received that
    many its entry is gone. *)
Theorem sync_quota_respected (ops : list view_op) (v v' : sub_view) (sub : SubscriptionInner)
    (L : N) (n : nat) :
  v_sub v = Some sub → sub_remaining sub = Some L → run_ops ops v = Some (n, v') →
  n ≤ N.to_nat (N.max L 1) ∧ (n = N.to_nat (N.max L 1) → v_sub v' = None).
Proof.
  intros Hs HL Hr. assert (allowance v = Some (N.to_nat (N.max L 1))) as Hk.
  { unfold allowance. by rewrite Hs, HL. }
  destruct (run_ops_allowance _ _ _ _ _ Hr Hk) as (k' & Hk' & Hle). split; [lia|].
  intros Hn. unfold allowance in Hk'. destruct (v_sub v') as [sub'|]; [|done].
  destruct (sub_remaining sub') as [r|]; simplify_eq/=. lia.
Qed.
End quota.

(** ** Closed instances *)
Module BusExamples.
Import ConcreteNumber ConcreteTime TopicExamples ListChannel.

#[export] Instance bus_libs : BusLibs number := {|
  serialized_len := λ e, Some (N.of_nat (String.length (topic e)));
|}.

Definition event (n : N) : EventEnvelope number :=
  mk_envelope 1 (mint_event_id "bw" n) "hub" "abc" "led" 1 "bw" "state" n 0%Z "k" 1
    None None None None (JString "on").

Definition pattern : TopicPattern :=
  mk_topic_pattern [Literal "hub"; Literal "led"; MultiWild] None "hub/led/**".

Definition opts (l : option N) (cap : nat) (p : SlowConsumerPolicy) : SubscribeOpts :=
  mk_opts l (Some cap) p.

(** A bus with three subscriptions: limit one, a full drop-newest queue to
    come, and a coalescing one. *)
Definition bus0 : EventBus number := bus_new registry_new 10.
Definition subscribed (b : EventBus number) (o : SubscribeOpts) : EventBus number :=
  match subscribe pattern o b with Some (_, b') => b' | None => b end.
Definition bus3 : EventBus number :=
  subscribed (subscribed (subscribed bus0 (opts (Some 1%N) 2 Disconnect))
    (opts None 1 DropNewest)) (opts None 1 (Coalesce ["data"]%string)).

(** The bus after an accepted publish. *)
Definition published (n : N) (order : list SubscriptionId) (b : EventBus number)
    : option (PublishResult * EventBus number) :=
  match try_publish (event n) order b with
  | Some (Ok r, b') => Some (r, b')
  | _ => None
  end.

Lemma published_Some n order b r b' :
  published n order b = Some (r, b') → try_publish (event n) order b = Some (Ok r, b').
Proof. unfold published. intros. by repeat case_match; simplify_eq. Qed.

Lemma accepted n order b :
  bool_decide (is_Some (published n order b)) = true → is_Some (published n order b).
Proof. apply bool_decide_eq_true. Qed.

Example two_publishes :
  match published 1 [1; 2; 3]%N bus3 with
  | Some (r1, b1) =>
      match published 2 [3; 2]%N b1 with
      | Some (r2, b2) => (r1, r2, active_subscriptions b1, active_subscriptions b2) =
          (mk_result 3 0 0 [], mk_result 0 1 1 [], 2, 2)
      | None => False
      end
  | None => False
  end.
Proof. vm_compute. reflexivity. Qed.

Lemma subscribed_step b o :
  (next_id b + 1 <? 2 ^ 64)%N = true →
  bool_decide (is_Some (subscribe pattern o b)) = true → bus_step b (subscribed b o).
Proof.
  intros Hn%N.ltb_lt [[id b'] Hs]%bool_decide_eq_true. unfold subscribed. rewrite Hs.
  by eapply bs_subscribe.
Qed.

Lemma bus3_reachable : rtc bus_step bus0 bus3.
Proof.
  unfold bus3.
  eapply rtc_l; [apply (subscribed_step bus0 (opts (Some 1%N) 2 Disconnect)); vm_compute; reflexivity|].
  eapply rtc_l; [apply (subscribed_step _ (opts None 1 DropNewest)); vm_compute; reflexivity|].
  eapply rtc_l; [apply (subscribed_step _ (opts None 1 (Coalesce ["data"]%string)));
    vm_compute; reflexivity|].
  apply rtc_refl.
Qed.

Lemma bus3_enumerates : enumerates [1; 2; 3]%N bus3 ∧ enumerates [3; 1; 2]%N bus3.
Proof.
  assert (dom (subs bus3) = list_to_set [1; 2; 3]%N) as Hd by (vm_compute; reflexivity).
  split; (split; [apply NoDup_ListNoDup; repeat constructor; set_solver|]);
    intros id; rewrite <- elem_of_dom, Hd; set_solver.
Qed.

Lemma try_publish_refines_witness :
  ∃ r b', try_publish (event 1) [1; 2; 3]%N bus3 = Some (Ok r, b') ∧
    delivered r = count ODelivered (event 1) bus3 [1; 2; 3]%N.
Proof.
  destruct (accepted 1 [1; 2; 3]%N bus3) as [[r b'] H%published_Some];
    [vm_compute; reflexivity|].
  exists r, b'. split; [exact H|].
  eapply (try_publish_refines (event 1) [1; 2; 3]%N bus3); [apply bus3_enumerates|exact H].
Defined.

Lemma try_publish_order_independent_witness :
  ∃ r1 b1 r2 b2, try_publish (event 1) [1; 2; 3]%N bus3 = Some (Ok r1, b1) ∧
    try_publish (event 1) [3; 1; 2]%N bus3 = Some (Ok r2, b2) ∧ delivered r1 = delivered r2.
Proof.
  destruct (accepted 1 [1; 2; 3]%N bus3) as [[r1 b1] H1%published_Some];
    [vm_compute; reflexivity|].
  destruct (accepted 1 [3; 1; 2]%N bus3) as [[r2 b2] H2%published_Some];
    [vm_compute; reflexivity|].
  exists r1, b1, r2, b2. split; [exact H1|]. split; [exact H2|].
  eapply (try_publish_order_independent (event 1) [1; 2; 3]%N [3; 1; 2]%N bus3);
    [apply bus3_enumerates|apply bus3_enumerates|exact H1|exact H2].
Defined.

Lemma oversized_rejected_witness :
  ∃ b', try_publish (event 1) [1]%N (with_max_event_size 3 bus3)
    = Some (Err (TooLarge 3), b').
Proof.
  destruct (oversized_rejected (event 1) [1]%N (with_max_event_size 3 bus3)) as (b' & H & _);
    [vm_compute; reflexivity|].
  exists b'. exact H.
Defined.


Definition quota_ops : list view_op := [VPublish (event 1); VReceive; VPublish (event 2)].

Lemma sync_quota_respected_witness :
  ∃ n v', run_ops quota_ops (view 1%N bus3) = Some (n, v') ∧ n ≤ 1 ∧ (n = 1 → v_sub v' = None).
Proof.
  assert (bool_decide (is_Some (run_ops quota_ops (view 1%N bus3))) = true) as [[n v'] H]%bool_decide_eq_true
    by (vm_compute; reflexivity).
  exists n, v'. split; [exact H|].
  eapply (sync_quota_respected quota_ops (view 1%N bus3) v' _ 1%N n);
    [vm_compute; reflexivity|reflexivity|exact H].
Defined.

End BusExamples.
