(* ===== verification/Publish.v ===== *)
(** The asynchronous [EventBus::publish] ([events/bus.rs]): concurrent
    publishers claim delivery slots under the bus lock, send one match at a
    time, possibly waiting for capacity, and commit or refund each claim. The
    tasks interleave with each other, with consumers and with cancellation;
    the bus is a step relation over the tasks. *)

From S2P Require Import Prelude F64 Json Query Lexer Parser.
From S2P Require Import Topic Envelope Sequencer Replay Policy CoalesceQueue Mpsc Bus BusSpec BusProps.

(** ** Sums over a finite map of tasks *)

Section msum.
  Context {A : Type}.
  Implicit Types (f : A → nat) (m : gmap nat A).

Definition msum f m : nat := map_fold (λ _ x n, f x + n) 0 m.

Lemma msum_empty f : msum f ∅ = 0.
Proof. apply map_fold_empty. Qed.

Lemma msum_insert_fresh f m i x : m !! i = None → msum f (<[i := x]> m) = f x + msum f m.
Proof.
  intros H. unfold msum.
  apply (map_fold_insert_L (λ _ x n, f x + n) 0); [intros; lia|done].
Qed.

Lemma msum_delete f m i x : m !! i = Some x → msum f m = f x + msum f (delete i m).
Proof.
  intros H. rewrite <- (insert_delete_id m i x H) at 1.
  apply msum_insert_fresh, lookup_delete_eq.
Qed.

Lemma msum_insert f m i x y :
  m !! i = Some x → msum f (<[i := y]> m) + f x = msum f m + f y.
Proof.
  intros H. rewrite <- insert_delete_eq. rewrite msum_insert_fresh by apply lookup_delete_eq.
  rewrite (msum_delete f m i x H). lia.
Qed.

Lemma msum_le f m i x : m !! i = Some x → f x ≤ msum f m.
Proof. intros H. rewrite (msum_delete f m i x H). lia. Qed.
End msum.

(** ** Tasks *)

Inductive SendResult := SrDelivered | SrDropped | SrDisconnect | SrClosed.

(** [Match]: the sender is the channel of the same id. *)
Record Match := mk_match { m_id : SubscriptionId; m_policy : SlowConsumerPolicy }.

(** Where a task stands within its current match. *)
Inductive phase :=
| PSend                       (** about to [try_send] *)
| PAwait                      (** inside [send(..).await], no slot yet *)
| PGranted                    (** inside [send(..).await], slot granted *)
| PCommit (o : SendResult).   (** outcome known, not yet committed *)

(** The locals of one [publish] future. The claim guards of the matches from
    position [t_pos] on are active. *)
Record task {time : TimeLib} (num : Type) := mk_task {
  t_env : EventEnvelope num;
  t_matches : list Match;
  t_pos : nat;
  t_phase : phase;
  t_result : PublishResult
}.
Arguments mk_task {_ _}.
Arguments t_env {_ _}.
Arguments t_matches {_ _}.
Arguments t_pos {_ _}.
Arguments t_phase {_ _}.
Arguments t_result {_ _}.

Section publish.
  Context {tl : TopicLibs} {time : TimeLib} {num : Type} `{!SerdeNumber num}.
  Context `{!BusLibs num} `{!Mpsc (EventEnvelope num)}.
  Implicit Types (env : EventEnvelope num) (id : SubscriptionId) (b : EventBus num).

(** ** Claiming *)

Definition set_quota (rem : option N) (fl : N) (sub : SubscriptionInner) : SubscriptionInner :=
  mk_sub (sub_topic sub) (sub_outbound sub) rem (sub_policy sub) fl
    (sub_last_delivered sub) (sub_notify sub).

(** The decrement of [remaining] and the increment of [in_flight]; [None] when
    the quota is used up and the subscription is skipped. *)
Definition claim_slot (sub : SubscriptionInner) : option SubscriptionInner :=
  match sub_remaining sub with
  | Some rem =>
      if (rem =? 0)%N then None
      else Some (set_quota (Some (rem - 1)%N) (sub_in_flight sub + 1) sub)
  | None => Some (set_quota None (sub_in_flight sub + 1) sub)
  end.

(** One iteration of the snapshot loop. *)
Definition claim env id (fm : fanout * list Match) : fanout * list Match :=
  let '(f, ms) := fm in
  match subs (fo_bus f) !! id with
  | None => (f, ms)
  | Some sub =>
      if negb (matches_event (sub_topic sub) (topic env) (data env)) then (f, ms)
      else match sub_outbound sub with
      | OCoalesce => (visit_coalesce env id sub f, ms)
      | OMpsc =>
          match claim_slot sub with
          | None => (f, ms)
          | Some sub' =>
              (mk_fanout (set_subs <[id := sub']> (fo_bus f)) (fo_to_remove f) (fo_result f),
               ms ++ [mk_match id (sub_policy sub)])
          end
      end
  end.

(** The snapshot block: the matches to send and the bus afterwards. *)
Definition snapshot env (order : list SubscriptionId) b : task num * EventBus num :=
  let '(f, ms) :=
    foldl (λ fm id, claim env id fm) (mk_fanout b [] result_default, []) order in
  (mk_task env ms 0 PSend (fo_result f), foldl remove_one (fo_bus f) (fo_to_remove f)).

(** [publish] up to its first send. *)
Definition publish_start env (order : list SubscriptionId) b
    : result PublishError (task num) * EventBus num :=
  if (max_event_size b <? envelope_size env)%N
  then (Err (TooLarge (max_event_size b)), reject_oversized env b)
  else let '(t, b') := snapshot env order (record_envelope env b) in (Ok t, b').

(** ** Sending *)

(** The policy of the fast path's [Full]; [None] is the [unreachable!] arm. *)
Definition on_full (p : SlowConsumerPolicy) : option phase :=
  match p with
  | Backpressure => Some PAwait
  | DropNewest => Some (PCommit SrDropped)
  | Coalesce _ => None
  | Disconnect => Some (PCommit SrDisconnect)
  end.

Definition with_phase (t : task num) (ph : phase) : task num :=
  mk_task (t_env t) (t_matches t) (t_pos t) ph (t_result t).

(** [try_send] of the current match: the next phase and the channel. *)
Definition send_now env (p : SlowConsumerPolicy) (c : chan (EventEnvelope num))
    : option (phase * chan (EventEnvelope num)) :=
  let '(r, c') := chan_try_send env c in
  match r with
  | SendOk => Some (PCommit SrDelivered, c')
  | SendClosed => Some (PCommit SrClosed, c')
  | SendFull => match on_full p with Some ph => Some (ph, c') | None => None end
  end.

(** ** Committing *)

Definition refund (sub : SubscriptionInner) : SubscriptionInner :=
  set_quota ((λ r, (r + 1)%N) <$> sub_remaining sub) (sub_in_flight sub - 1) sub.

Definition deliver_commit env (sub : SubscriptionInner) : SubscriptionInner :=
  mk_sub (sub_topic sub) (sub_outbound sub) (sub_remaining sub) (sub_policy sub)
    (sub_in_flight sub - 1) (Some (stream_id env, sequence env)) (sub_notify sub).

Definition exhausted (sub : SubscriptionInner) : bool :=
  match sub_remaining sub with Some r => (r =? 0)%N | None => false end
  && (sub_in_flight sub =? 0)%N.

(** The locked block after the send. Removing an entry drops its sender; the
    coalesce close of the other paths does not occur here. *)
Definition commit env id (o : SendResult) b : EventBus num :=
  match subs b !! id with
  | None => b
  | Some sub =>
      match o with
      | SrDelivered =>
          let sub' := deliver_commit env sub in
          if exhausted sub' then set_subs (delete id) b else set_subs <[id := sub']> b
      | SrDropped => set_subs <[id := refund sub]> b
      | SrDisconnect =>
          let b' := if sub_notify sub then set_notice id (slow_notice sub) b else b in
          set_subs (delete id) b'
      | SrClosed => set_subs (delete id) b
      end
  end.

Definition commit_result id (o : SendResult) (r : PublishResult) : PublishResult :=
  match o with
  | SrDelivered => add_delivered r
  | SrDropped => add_dropped r
  | SrDisconnect => add_disconnected id r
  | SrClosed => r
  end.

(** [ClaimGuard::drop] of an active guard. *)
Definition drop_guard b id : EventBus num :=
  match subs b !! id with
  | Some sub => set_subs <[id := refund sub]> b
  | None => b
  end.

Definition active_claims (t : task num) : list SubscriptionId :=
  map m_id (drop (t_pos t) (t_matches t)).

(** ** The system *)

Record pworld := mk_pworld {
  pw_bus : EventBus num;
  pw_tasks : gmap nat (task num);
  pw_sent : gmap SubscriptionId nat   (** items ever queued, per subscription *)
}.

Definition bump id (m : gmap SubscriptionId nat) : gmap SubscriptionId nat :=
  <[id := S (default 0 (m !! id))]> m.

(** Subscribers and consumers. *)
Inductive client_step : EventBus num → EventBus num → Prop :=
| cs_subscribe tp opts b id b' :
    (next_id b + 1 < 2 ^ 64)%N → subscribe tp opts b = Some (id, b') → client_step b b'
| cs_unsubscribe id b : client_step b (unsubscribe id b).2
| cs_recv id b : client_step b (rx_try_recv id b).2
| cs_drop id b : client_step b (rx_drop id b)
| cs_max_size n b : client_step b (with_max_event_size n b)
| cs_allocate s b : client_step b (set_streams ((allocate s (registry b)).2, replay_cache b) b).

Inductive pub_step : pworld → pworld → Prop :=
| ps_client b b' ts sent :
    client_step b b' → pub_step (mk_pworld b ts sent) (mk_pworld b' ts sent)
| ps_reject b b' ts sent env order e :
    enumerates order b → publish_start env order b = (Err e, b') →
    pub_step (mk_pworld b ts sent) (mk_pworld b' ts sent)
| ps_start b b' ts sent i t env order :
    ts !! i = None → enumerates order b → publish_start env order b = (Ok t, b') →
    pub_step (mk_pworld b ts sent) (mk_pworld b' (<[i := t]> ts) sent)
| ps_send b ts sent i t m c c' ph :
    ts !! i = Some t → t_phase t = PSend → t_matches t !! t_pos t = Some m →
    chans b !! m_id m = Some c → send_now (t_env t) (m_policy m) c = Some (ph, c') →
    pub_step (mk_pworld b ts sent)
      (mk_pworld (set_chan (m_id m) c' b) (<[i := with_phase t ph]> ts)
        (match ph with PCommit SrDelivered => bump (m_id m) sent | _ => sent end))
| ps_grant b ts sent i t m c c' :
    ts !! i = Some t → t_phase t = PAwait → t_matches t !! t_pos t = Some m →
    chans b !! m_id m = Some c → chan_acquire c = Some c' →
    pub_step (mk_pworld b ts sent)
      (mk_pworld (set_chan (m_id m) c' b) (<[i := with_phase t PGranted]> ts) sent)
| ps_store b ts sent i t m c :
    ts !! i = Some t → t_phase t = PGranted → t_matches t !! t_pos t = Some m →
    chans b !! m_id m = Some c →
    pub_step (mk_pworld b ts sent)
      (mk_pworld (set_chan (m_id m) (chan_store (t_env t) c) b)
        (<[i := with_phase t (PCommit SrDelivered)]> ts) (bump (m_id m) sent))
| ps_closed b ts sent i t m c :
    ts !! i = Some t → t_phase t = PAwait → t_matches t !! t_pos t = Some m →
    chans b !! m_id m = Some c → chan_rx_alive c = false →
    pub_step (mk_pworld b ts sent)
      (mk_pworld b (<[i := with_phase t (PCommit SrClosed)]> ts) sent)
| ps_commit b ts sent i t m o :
    ts !! i = Some t → t_phase t = PCommit o → t_matches t !! t_pos t = Some m →
    pub_step (mk_pworld b ts sent)
      (mk_pworld (commit (t_env t) (m_id m) o b)
        (<[i := mk_task (t_env t) (t_matches t) (S (t_pos t)) PSend
                  (commit_result (m_id m) o (t_result t))]> ts) sent)
| ps_finish b ts sent i t :
    ts !! i = Some t → t_phase t = PSend → t_pos t = length (t_matches t) →
    pub_step (mk_pworld b ts sent) (mk_pworld b (delete i ts) sent)
| ps_cancel b ts sent i t :
    ts !! i = Some t → t_phase t = PAwait →
    pub_step (mk_pworld b ts sent)
      (mk_pworld (foldl drop_guard b (active_claims t)) (delete i ts) sent)
| ps_cancel_granted b ts sent i t m c :
    ts !! i = Some t → t_phase t = PGranted → t_matches t !! t_pos t = Some m →
    chans b !! m_id m = Some c →
    pub_step (mk_pworld b ts sent)
      (mk_pworld (foldl drop_guard (set_chan (m_id m) (chan_release c) b) (active_claims t))
        (delete i ts) sent).

(** ** Counting claims *)

Definition occ id (l : list SubscriptionId) : nat := length (base.filter (λ j, j = id) l).

Lemma occ_app id l l' : occ id (l ++ l') = occ id l + occ id l'.
Proof. unfold occ. by rewrite filter_app, length_app. Qed.

Lemma occ_cons id j l : occ id (j :: l) = (if decide (j = id) then 1 else 0) + occ id l.
Proof. unfold occ. rewrite filter_cons. by case_decide. Qed.

(** Claims whose item is not queued yet. *)
Definition unsent_claims (t : task num) : list SubscriptionId :=
  match t_phase t with PCommit SrDelivered => tail (active_claims t) | _ => active_claims t end.

Definition claims id (ts : gmap nat (task num)) : nat := msum (λ t, occ id (active_claims t)) ts.
Definition unsent id (ts : gmap nat (task num)) : nat := msum (λ t, occ id (unsent_claims t)) ts.
Definition sent_to id (w : pworld) : nat := default 0 (pw_sent w !! id).

Lemma active_claims_at t m :
  t_matches t !! t_pos t = Some m →
  active_claims t = m_id m :: map m_id (drop (S (t_pos t)) (t_matches t)).
Proof. intros H. unfold active_claims. by rewrite (drop_S _ m). Qed.

(** ** The quota of one subscription *)

(** [quota_holds L o c u s]: the entry [o] of a subscription with limit [L],
    with [c] active claims of which [u] are unsent, after [s] items. *)
Definition quota_holds (L : nat) (o : option SubscriptionInner) (c u s : nat) : Prop :=
  match o with
  | None => s + u ≤ L
  | Some sub =>
      sub_outbound sub = OMpsc ∧
      ∃ r, sub_remaining sub = Some r ∧ N.to_nat r + u + s = L ∧
        sub_in_flight sub = N.of_nat c ∧ (0 < L → r = 0%N → 0 < c)
  end.

Lemma quota_removed L o c u s c' u' s' :
  quota_holds L o c u s → s' + u' ≤ s + u → quota_holds L None c' u' s'.
Proof. destruct o as [sub|]; simpl; [intros (_ & r & _ & ? & _)|]; lia. Qed.

Record quota_inv id (L : nat) (w : pworld) : Prop := {
  q_known : (id < next_id (pw_bus w))%N;
  q_holds : quota_holds L (subs (pw_bus w) !! id) (claims id (pw_tasks w))
              (unsent id (pw_tasks w)) (sent_to id w)
}.

(** ** How the pieces of a step act on one entry *)

Lemma client_step_entry b b' id :
  client_step b b' → (id < next_id b)%N →
  (id < next_id b')%N ∧ (subs b' !! id = subs b !! id ∨ subs b' !! id = None).
Proof.
  intros Hs Hid. destruct Hs as [tp opts b j b' Hlt Hsub|j b|j b|j b|n b|s b]; auto.
  - unfold subscribe in Hsub.
    assert (wrap64 (next_id b + 1) = (next_id b + 1)%N) as Hw by by apply N.mod_small.
    destruct (slow_consumer_policy opts);
      [destruct (resolved_outbound_capacity opts =? 0); [done|] ..|]; simplify_eq; simpl;
      rewrite lookup_insert_ne by lia; split; auto; lia.
  - change (unsubscribe j b).2 with (remove_one b j).
    destruct (remove_one_globals b j) as (-> & _). split; [done|].
    pose proof (f_equal v_sub (remove_one_view b j id)) as H. simpl in H. rewrite H.
    case_decide; [|by left]. right. unfold removed. simpl.
    destruct (subs b !! id) eqn:E; simpl; by rewrite ?E.
  - unfold rx_try_recv. destruct (chans b !! j) as [c|].
    + destruct (chan_pop c) as [[|] ?]; auto.
    + destruct (queues b !! j) as [q|]; [|auto]. destruct (try_recv q); auto.
  - unfold rx_drop. destruct (chans b !! j); [auto|]. destruct (queues b !! j); auto.
Qed.

(** What the snapshot does to an entry that is absent or channel-backed. *)
Definition claimed (o o' : option SubscriptionInner) (k : nat) : Prop :=
  (o' = o ∧ k = 0) ∨ ∃ sub sub', o = Some sub ∧ claim_slot sub = Some sub' ∧ o' = Some sub' ∧ k = 1.

Definition not_coalesce (o : option SubscriptionInner) : Prop :=
  match o with Some sub => sub_outbound sub = OMpsc | None => True end.

Lemma visit_coalesce_entry env j sub f id :
  j ≠ id →
  subs (fo_bus (visit_coalesce env j sub f)) !! id = subs (fo_bus f) !! id ∧
  next_id (fo_bus (visit_coalesce env j sub f)) = next_id (fo_bus f) ∧
  (id ∈ fo_to_remove (visit_coalesce env j sub f) → id ∈ fo_to_remove f).
Proof.
  intros Hne. unfold visit_coalesce. destruct (queues (fo_bus f) !! j) as [q|]; [|auto].
  destruct (push env q) as [[] q']; simpl; auto.
  - rewrite lookup_insert_ne by done. case_match; set_solver.
  - set_solver.
Qed.

Lemma claim_other env j id f ms :
  j ≠ id →
  let '(f', ms') := claim env j (f, ms) in
  subs (fo_bus f') !! id = subs (fo_bus f) !! id ∧
  next_id (fo_bus f') = next_id (fo_bus f) ∧
  occ id (map m_id ms') = occ id (map m_id ms) ∧
  (id ∈ fo_to_remove f' → id ∈ fo_to_remove f).
Proof.
  intros Hne. unfold claim. destruct (subs (fo_bus f) !! j) as [sub|] eqn:Es; [|auto].
  destruct (negb _); [auto|]. destruct (sub_outbound sub).
  - destruct (claim_slot sub) as [sub'|]; [|auto]. simpl.
    rewrite lookup_insert_ne by done. rewrite map_app, occ_app. simpl.
    rewrite occ_cons, decide_False by done. auto with lia.
  - pose proof (visit_coalesce_entry env j sub f id Hne). naive_solver.
Qed.

Lemma claim_self env id f ms :
  not_coalesce (subs (fo_bus f) !! id) →
  let '(f', ms') := claim env id (f, ms) in
  ∃ k, claimed (subs (fo_bus f) !! id) (subs (fo_bus f') !! id) k ∧
    next_id (fo_bus f') = next_id (fo_bus f) ∧
    occ id (map m_id ms') = occ id (map m_id ms) + k ∧ fo_to_remove f' = fo_to_remove f.
Proof.
  intros Hnc. unfold claim. destruct (subs (fo_bus f) !! id) as [sub|] eqn:Es; simpl in Hnc.
  2:{ exists 0. rewrite Es. unfold claimed. auto with lia. }
  destruct (negb _); [exists 0; rewrite Es; unfold claimed; auto with lia|].
  rewrite Hnc. destruct (claim_slot sub) as [sub'|] eqn:Ec; simpl.
  - exists 1. rewrite lookup_insert_eq, map_app, occ_app. simpl.
    rewrite occ_cons, decide_True by done. unfold claimed. eauto 10 with lia.
  - exists 0. rewrite Es. unfold claimed. auto with lia.
Qed.

Lemma claim_fold env order id f ms :
  NoDup order → not_coalesce (subs (fo_bus f) !! id) →
  let '(f', ms') := foldl (λ fm j, claim env j fm) (f, ms) order in
  ∃ k, claimed (subs (fo_bus f) !! id) (subs (fo_bus f') !! id) k ∧
    next_id (fo_bus f') = next_id (fo_bus f) ∧
    occ id (map m_id ms') = occ id (map m_id ms) + k ∧
    (id ∈ fo_to_remove f' → id ∈ fo_to_remove f) ∧ (id ∉ order → k = 0).
Proof.
  intros Hnd. revert f ms. induction Hnd as [|j order Hj Hnd IH]; intros f ms Hnc; cbn [foldl].
  { exists 0. unfold claimed. auto with lia. }
  destruct (decide (j = id)) as [->|Hne].
  - pose proof (claim_self env id f ms Hnc) as Hc.
    destruct (claim env id (f, ms)) as [f1 ms1]. destruct Hc as (k & Hk & Hn & Ho & Ht).
    assert (not_coalesce (subs (fo_bus f1) !! id)) as Hnc1.
    { destruct Hk as [[-> _]|(sub & sub' & E & Hs & -> & _)]; [done|]. rewrite E in Hnc.
      unfold claim_slot in Hs. simpl in *. by repeat case_match; simplify_eq/=. }
    specialize (IH f1 ms1 Hnc1). destruct (foldl _ (f1, ms1) order) as [f2 ms2].
    destruct IH as (k2 & Hk2 & Hn2 & Ho2 & Ht2 & H0). rewrite (H0 Hj) in *.
    destruct Hk2 as [[E2 _]|(? & ? & _ & _ & _ & ?)]; [|lia].
    exists k. rewrite E2, Hn2, Ho2, Ht in *. split; [done|]. split; [done|]. split; [lia|].
    split; [done|]. set_solver.
  - pose proof (claim_other env j id f ms Hne) as Hc.
    destruct (claim env j (f, ms)) as [f1 ms1]. destruct Hc as (Hs & Hn & Ho & Ht).
    rewrite <- Hs in Hnc. specialize (IH f1 ms1 Hnc).
    destruct (foldl _ (f1, ms1) order) as [f2 ms2].
    destruct IH as (k & Hk & Hn2 & Ho2 & Ht2 & H0). exists k.
    rewrite <- Hs, Hn2, Ho2, Ho, Hn. split; [done|]. split; [done|]. split; [done|].
    split; [by auto|]. set_solver.
Qed.

Lemma remove_all_subs l b id : id ∉ l → subs (foldl remove_one b l) !! id = subs b !! id.
Proof.
  intros H. pose proof (f_equal v_sub (remove_all_view l b id)) as E. simpl in E.
  by rewrite E, decide_False.
Qed.

Lemma snapshot_entry env order b t b' id :
  NoDup order → not_coalesce (subs b !! id) → snapshot env order b = (t, b') →
  ∃ k, claimed (subs b !! id) (subs b' !! id) k ∧ next_id b' = next_id b ∧
    t_phase t = PSend ∧ occ id (active_claims t) = k.
Proof.
  intros Hnd Hnc. unfold snapshot.
  pose proof (claim_fold env order id (mk_fanout b [] result_default) [] Hnd Hnc) as H.
  destruct (foldl _ _ order) as [f ms]. intros [= <- <-].
  destruct H as (k & Hk & Hn & Ho & Ht & _). simpl in *. exists k.
  destruct (remove_all_globals (fo_to_remove f) (fo_bus f)) as (-> & _).
  rewrite remove_all_subs by (intros Hin; by apply Ht, not_elem_of_nil in Hin).
  auto.
Qed.

Lemma drop_guard_entry l b id :
  subs (foldl drop_guard b l) !! id = Nat.iter (occ id l) refund <$> subs b !! id ∧
  next_id (foldl drop_guard b l) = next_id b.
Proof.
  revert b. induction l as [|j l IH]; intros b; simpl.
  { by destruct (subs b !! id). }
  destruct (IH (drop_guard b j)) as [-> ->]. rewrite occ_cons. unfold drop_guard.
  split; [|by destruct (subs b !! j)].
  destruct (decide (j = id)) as [->|Hne]; simpl.
  - destruct (subs b !! id) as [sub|] eqn:E; simpl; [|by rewrite E].
    rewrite lookup_insert_eq. simpl. by rewrite <- Nat.iter_succ_r.
  - destruct (subs b !! j); [|done]. simpl. by rewrite lookup_insert_ne.
Qed.

Lemma iter_refund k sub r :
  sub_remaining sub = Some r →
  sub_outbound (Nat.iter k refund sub) = sub_outbound sub ∧
  sub_remaining (Nat.iter k refund sub) = Some (r + N.of_nat k)%N ∧
  sub_in_flight (Nat.iter k refund sub) = (sub_in_flight sub - N.of_nat k)%N.
Proof.
  intros Hr. induction k as [|k (IH1 & IH2 & IH3)]; simpl.
  - rewrite Hr. split; [done|]. split; [f_equal; lia|lia].
  - rewrite IH2, IH3. simpl. split; [done|]. split; [f_equal; lia|lia].
Qed.

(** ** Preservation *)

Lemma quota_sum L o c u s u' s' :
  u + s = u' + s' → quota_holds L o c u s → quota_holds L o c u' s'.
Proof.
  intros E. destruct o as [sub|]; simpl; [|lia]. intros (Ho & r & Hr & Hs & Hrest).
  split; [done|]. exists r. split; [done|]. split; [lia|done].
Qed.

(** A task changes without gaining or losing claims on [id]. *)
Lemma quota_task_update id L b b' ts sent sent' i t t' :
  ts !! i = Some t → subs b' !! id = subs b !! id → next_id b' = next_id b →
  occ id (active_claims t') = occ id (active_claims t) →
  occ id (unsent_claims t') + default 0 (sent' !! id)
    = occ id (unsent_claims t) + default 0 (sent !! id) →
  quota_inv id L (mk_pworld b ts sent) →
  quota_inv id L (mk_pworld b' (<[i := t']> ts) sent').
Proof.
  intros Ht Hs Hn Ha Hu [Hk Hq]. split; simpl in *; [by rewrite Hn|]. rewrite Hs.
  pose proof (msum_insert (λ t, occ id (active_claims t)) ts i t t' Ht) as Hc.
  pose proof (msum_insert (λ t, occ id (unsent_claims t)) ts i t t' Ht) as Hv.
  unfold sent_to, claims, unsent in *. simpl in *.
  replace (msum (λ t, occ id (active_claims t)) (<[i := t']> ts))
    with (msum (λ t, occ id (active_claims t)) ts) by lia.
  eapply quota_sum; [|exact Hq]. lia.
Qed.

Lemma default_bump j id m :
  default 0 (bump j m !! id) = (if decide (j = id) then 1 else 0) + default 0 (m !! id).
Proof.
  unfold bump. case_decide; subst; [by rewrite lookup_insert_eq|by rewrite lookup_insert_ne].
Qed.

(** The current match gets its item queued. *)
Lemma quota_deliver id L b ts sent i t m c' :
  ts !! i = Some t → t_matches t !! t_pos t = Some m → t_phase t ≠ PCommit SrDelivered →
  quota_inv id L (mk_pworld b ts sent) →
  quota_inv id L (mk_pworld (set_chan (m_id m) c' b)
    (<[i := with_phase t (PCommit SrDelivered)]> ts) (bump (m_id m) sent)).
Proof.
  intros Ht Hm Hph. apply (quota_task_update id L b _ ts sent _ i t); [done..|].
  rewrite default_bump. unfold unsent_claims. cbn [with_phase t_phase].
  pose proof (active_claims_at t m Hm) as Ha.
  change (active_claims (with_phase t (PCommit SrDelivered))) with (active_claims t).
  rewrite Ha. cbn [tail]. destruct (t_phase t) as [| | |[]]; try done; rewrite occ_cons; lia.
Qed.

(** The current match changes phase without an item. *)
Lemma quota_wait id L b b' ts sent i t ph :
  ts !! i = Some t → subs b' = subs b → next_id b' = next_id b →
  t_phase t ≠ PCommit SrDelivered → ph ≠ PCommit SrDelivered →
  quota_inv id L (mk_pworld b ts sent) →
  quota_inv id L (mk_pworld b' (<[i := with_phase t ph]> ts) sent).
Proof.
  intros Ht Hs Hn Hph Hph'. apply (quota_task_update id L b _ ts sent _ i t); try done.
  - by rewrite Hs.
  - unfold unsent_claims. cbn [with_phase t_phase].
    change (active_claims (with_phase t ph)) with (active_claims t).
    destruct (t_phase t) as [| | |[]], ph as [| | |[]]; done.
Qed.

Lemma commit_other env j o b id :
  j ≠ id → subs (commit env j o b) !! id = subs b !! id ∧ next_id (commit env j o b) = next_id b.
Proof.
  intros Hne. unfold commit. destruct (subs b !! j) as [sub|]; [|done].
  destruct o; simpl.
  - destruct (exhausted _); simpl; by rewrite ?lookup_delete_ne, ?lookup_insert_ne.
  - by rewrite lookup_insert_ne.
  - destruct (sub_notify sub); simpl; by rewrite lookup_delete_ne.
  - by rewrite lookup_delete_ne.
Qed.

Lemma commit_self L env id o b c u s :
  quota_holds L (subs b !! id) (S c) (match o with SrDelivered => u | _ => S u end) s →
  quota_holds L (subs (commit env id o b) !! id) c u s ∧
  next_id (commit env id o b) = next_id b.
Proof.
  unfold commit. destruct (subs b !! id) as [sub|] eqn:E.
  2:{ intros H. split; [|done]. rewrite E. simpl in *. destruct o; lia. }
  intros H. pose proof H as (Ho & r & Hr & Hs & Hf & Hz). destruct o; simpl.
  - destruct (exhausted (deliver_commit env sub)) eqn:Ee; simpl; (split; [|done]).
    + rewrite lookup_delete_eq. simpl. lia.
    + rewrite lookup_insert_eq. simpl. split; [done|]. exists r. split; [done|]. split; [lia|].
      split; [rewrite Hf; lia|]. intros _ ->. unfold exhausted in Ee. simpl in Ee.
      rewrite Hr, Hf in Ee. simpl in Ee. apply N.eqb_neq in Ee. lia.
  - split; [|done]. rewrite lookup_insert_eq. simpl. split; [done|].
    exists (r + 1)%N. rewrite Hr. split; [done|]. split; [lia|]. split; [rewrite Hf; lia|]. lia.
  - split; [|by destruct (sub_notify sub)].
    destruct (sub_notify sub); simpl; rewrite lookup_delete_eq; simpl; lia.
  - split; [|done]. rewrite lookup_delete_eq. simpl. lia.
Qed.

Lemma quota_commit id L b ts sent i t m o r :
  ts !! i = Some t → t_phase t = PCommit o → t_matches t !! t_pos t = Some m →
  quota_inv id L (mk_pworld b ts sent) →
  quota_inv id L (mk_pworld (commit (t_env t) (m_id m) o b)
    (<[i := mk_task (t_env t) (t_matches t) (S (t_pos t)) PSend r]> ts) sent).
Proof.
  intros Ht Hph Hm Hinv. set (t' := mk_task (t_env t) (t_matches t) (S (t_pos t)) PSend r).
  pose proof (active_claims_at t m Hm) as Ha.
  change (map m_id (drop (S (t_pos t)) (t_matches t))) with (active_claims t') in Ha.
  assert (unsent_claims t' = active_claims t') as Hu' by done.
  assert (occ id (unsent_claims t) =
    (match o with SrDelivered => 0 | _ => if decide (m_id m = id) then 1 else 0 end)
    + occ id (active_claims t')) as Hu.
  { unfold unsent_claims. rewrite Hph, Ha. destruct o; rewrite ?occ_cons; done. }
  destruct (decide (m_id m = id)) as [<-|Hne].
  - destruct Hinv as [Hk Hq]. simpl in *.
    pose proof (msum_insert (λ t, occ (m_id m) (active_claims t)) ts i t t' Ht) as Hc.
    pose proof (msum_insert (λ t, occ (m_id m) (unsent_claims t)) ts i t t' Ht) as Hv.
    cbn beta in Hc, Hv. rewrite Ha, occ_cons, decide_True in Hc by done.
    rewrite Hu, Hu' in Hv. unfold sent_to, claims, unsent in *. simpl in *.
    destruct (commit_self L (t_env t) (m_id m) o b
      (msum (λ t, occ (m_id m) (active_claims t)) (<[i := t']> ts))
      (msum (λ t, occ (m_id m) (unsent_claims t)) (<[i := t']> ts))
      (default 0 (sent !! m_id m))) as [H1 H2].
    { replace (S (msum _ (<[i := t']> ts))) with
        (msum (λ t, occ (m_id m) (active_claims t)) ts) by lia.
      revert Hq. apply quota_sum. destruct o; lia. }
    split; simpl; [by rewrite H2|exact H1].
  - destruct (commit_other (t_env t) (m_id m) o b id Hne) as [H1 H2].
    revert Hinv. apply (quota_task_update id L b _ ts sent _ i t); [done..| |].
    + rewrite Ha, occ_cons, decide_False by done. done.
    + rewrite Hu, Hu'. destruct o; rewrite ?decide_False by done; done.
Qed.

Lemma quota_refund_all L o k c u s :
  quota_holds L o (k + c) (k + u) s →
  quota_holds L (Nat.iter k refund <$> o) c u s.
Proof.
  destruct o as [sub|]; simpl; [|lia]. intros (Ho & r & Hr & Hs & Hf & Hz).
  destruct (iter_refund k sub r Hr) as (-> & -> & ->). split; [done|].
  eexists. split; [done|]. split; [lia|]. split; [lia|]. intros HL E.
  assert (k = 0) by lia. subst. simpl in *. apply Hz; [done|lia].
Qed.

Lemma quota_cancel id L b ts sent i t :
  ts !! i = Some t → t_phase t ≠ PCommit SrDelivered →
  quota_inv id L (mk_pworld b ts sent) →
  quota_inv id L (mk_pworld (foldl drop_guard b (active_claims t)) (delete i ts) sent).
Proof.
  intros Ht Hph [Hk Hq]; simpl in *.
  destruct (drop_guard_entry (active_claims t) b id) as [Hs Hn].
  split; simpl; [by rewrite Hn|]. rewrite Hs. apply quota_refund_all.
  unfold sent_to, claims, unsent in *. simpl in *.
  rewrite (msum_delete _ ts i t Ht), (msum_delete (λ t, occ id (unsent_claims t)) ts i t Ht) in Hq.
  assert (unsent_claims t = active_claims t) as E.
  { unfold unsent_claims. destruct (t_phase t) as [| | |[]]; done. }
  by rewrite E in Hq.
Qed.

Lemma quota_start id L b b' ts sent i t env order :
  ts !! i = None → enumerates order b → publish_start env order b = (Ok t, b') →
  quota_inv id L (mk_pworld b ts sent) →
  quota_inv id L (mk_pworld b' (<[i := t]> ts) sent).
Proof.
  intros Hi [Hnd _] Hp [Hk Hq]; simpl in *. unfold publish_start in Hp.
  destruct (_ <? _)%N; [done|].
  destruct (snapshot env order (record_envelope env b)) as [t0 b0] eqn:Es. simplify_eq.
  apply (snapshot_entry _ _ _ _ _ id) in Es as (k & Hcl & Hn & Hph & Hocc); [|done|].
  2:{ rewrite record_envelope_subs. destruct (subs b !! id) as [sub|]; [apply Hq|done]. }
  rewrite record_envelope_subs in Hcl.
  assert (next_id (record_envelope env b) = next_id b) as Hn'.
  { unfold record_envelope. by destruct (record _ _ _). }
  split; simpl; [by rewrite Hn, Hn'|]. unfold sent_to, claims, unsent in *. simpl in *.
  rewrite !msum_insert_fresh by done.
  assert (unsent_claims t = active_claims t) as -> by (unfold unsent_claims; by rewrite Hph).
  rewrite Hocc. destruct Hcl as [[-> ->]|(sub & sub' & E & Hc & -> & ->)]; [done|].
  rewrite E in Hq. simpl in Hq. destruct Hq as (Ho & r & Hr & Hs & Hf & Hz).
  unfold claim_slot in Hc. rewrite Hr in Hc. destruct (N.eqb_spec r 0); simplify_eq. simpl.
  split; [done|]. exists (r - 1)%N. split; [done|]. split; [lia|]. split; [rewrite Hf; lia|]. lia.
Qed.

Lemma quota_step id L w w' : pub_step w w' → quota_inv id L w → quota_inv id L w'.
Proof.
  intros Hs Hinv. destruct Hs as
    [b b' ts sent Hc|b b' ts sent env order e Hen Hp|b b' ts sent i t env order Hi Hen Hp
    |b ts sent i t m c c' ph Ht Hph Hm Hc Hsend|b ts sent i t m c c' Ht Hph Hm Hc Ha
    |b ts sent i t m c Ht Hph Hm Hc|b ts sent i t m c Ht Hph Hm Hc Ha
    |b ts sent i t m o Ht Hph Hm|b ts sent i t Ht Hph Hpos|b ts sent i t Ht Hph
    |b ts sent i t m c Ht Hph Hm Hc].
  - destruct Hinv as [Hk Hq]. destruct (client_step_entry _ _ _ Hc Hk) as [Hk' He].
    split; [done|]. simpl in *. destruct He as [->| ->]; [done|].
    eapply quota_removed; [exact Hq|done].
  - unfold publish_start in Hp. destruct (_ <? _)%N.
    + injection Hp as <- <-. by destruct Hinv.
    + by destruct (snapshot _ _ _).
  - by eapply quota_start.
  - destruct ph as [| | |o] eqn:Ep; [| | |destruct o].
    4: by eapply quota_deliver; [..|rewrite Hph|].
    all: apply (quota_wait id L b); [exact Ht|done|done|by rewrite Hph|done|done].
  - apply (quota_wait id L b); [exact Ht|done|done|by rewrite Hph|done|done].
  - by eapply quota_deliver; [..|rewrite Hph|].
  - apply (quota_wait id L b); [exact Ht|done|done|by rewrite Hph|done|done].
  - by eapply quota_commit.
  - destruct Hinv as [Hk Hq]. split; [done|]. unfold sent_to, claims, unsent in *. simpl in *.
    rewrite (msum_delete _ ts i t Ht), (msum_delete (λ t, occ id (unsent_claims t)) ts i t Ht) in Hq.
    assert (active_claims t = []) as Ea by (unfold active_claims; by rewrite Hpos, drop_all).
    assert (unsent_claims t = []) as Eu by (unfold unsent_claims; by rewrite Hph, Ea).
    by rewrite Ea, Eu in Hq.
  - by eapply quota_cancel; [..|rewrite Hph|].
  - eapply quota_cancel; [exact Ht|by rewrite Hph|]. destruct Hinv. by split.
Qed.

(** No publisher is running and nothing has been counted yet. *)
Definition quiescent b : pworld := mk_pworld b ∅ ∅.

(** C4: Concurrent publishers never deliver past a limit. From a quiescent bus
    with a channel-backed subscription of limit [L], in every interleaving of
    asynchronous publishes, sends, waits, commits, cancellations, consumers
    and (un)subscriptions, at most [L] items are ever queued for it; while it
    lives, the remaining quota, the unsent claims and the items queued add up
    to [L], [in_flight] is exactly the number of active claims, and (for a
    positive limit) an exhausted quota means that a claim is still open, so no
    spent subscription lingers. *)
Theorem async_quota_respected (b : EventBus num) (w : pworld) (id : SubscriptionId)
    (sub : SubscriptionInner) (L : N) :
  (id < next_id b)%N → subs b !! id = Some sub → sub_outbound sub = OMpsc →
  sub_remaining sub = Some L → sub_in_flight sub = 0%N →
  rtc pub_step (quiescent b) w →
  sent_to id w ≤ N.to_nat L ∧
  ∀ sub', subs (pw_bus w) !! id = Some sub' →
    ∃ r, sub_remaining sub' = Some r ∧
      N.to_nat r + unsent id (pw_tasks w) + sent_to id w = N.to_nat L ∧
      sub_in_flight sub' = N.of_nat (claims id (pw_tasks w)) ∧
      ((0 < L)%N → r = 0%N → 0 < claims id (pw_tasks w)).
Proof.
  intros Hid Hs Ho HL Hf Hr.
  assert (quota_inv id (N.to_nat L) w) as [_ Hq].
  { revert Hr. apply (rtc_invariant _ (quota_inv id (N.to_nat L))); [apply quota_step|].
    split; [done|]. unfold quiescent, claims, unsent, sent_to. simpl.
    rewrite Hs, !msum_empty. simpl. split; [done|]. exists L. rewrite lookup_empty. simpl.
    split; [done|]. split; [lia|]. split; [done|]. lia. }
  split.
  - destruct (subs (pw_bus w) !! id) as [sub'|]; simpl in Hq; [|lia].
    destruct Hq as (_ & r & _ & ? & _). lia.
  - intros sub' Hsub. rewrite Hsub in Hq. destruct Hq as (_ & r & ? & ? & ? & Hz).
    exists r. split; [done|]. split; [lia|]. split; [done|]. intros. apply Hz; [lia|done].
Qed.
End publish.
Arguments pworld {_ _} _ {_}.

(** ** Closed runs *)
Module PublishExamples.
Import ConcreteNumber ConcreteTime TopicExamples ListChannel BusExamples.

(** A bus with one limited subscription. *)
Definition limited (l : N) (cap : nat) (p : SlowConsumerPolicy) : EventBus number :=
  subscribed bus0 (opts (Some l) cap p).

Definition sub_of (b : EventBus number) : option SubscriptionInner := subs b !! 1%N.

Definition start (n : N) (b : EventBus number) : option (task number * EventBus number) :=
  match publish_start (event n) [1]%N b with (Ok t, b') => Some (t, b') | _ => None end.

(** Run the sends and commits of a task that never has to wait. *)
Fixpoint drive (fuel : nat) (t : task number) (b : EventBus number)
    : option (PublishResult * EventBus number) :=
  match fuel with
  | O => None
  | S fuel' =>
      match t_matches t !! t_pos t with
      | None => Some (t_result t, b)
      | Some m =>
          match chans b !! m_id m with
          | None => None
          | Some c =>
              match send_now (t_env t) (m_policy m) c with
              | Some (PCommit o, c') =>
                  drive fuel' (mk_task (t_env t) (t_matches t) (S (t_pos t)) PSend
                                 (commit_result (m_id m) o (t_result t)))
                    (commit (t_env t) (m_id m) o (set_chan (m_id m) c' b))
              | _ => None
              end
          end
      end
  end.

Definition publish_now (n : N) (b : EventBus number) : option (PublishResult * EventBus number) :=
  match start n b with Some (t, b') => drive 5 t b' | None => None end.

Example publish_limited_once :
  match publish_now 1 (limited 1 2 Disconnect) with
  | Some (r, b') => (delivered r, sub_of b') = (1, None)
  | None => False
  end.
Proof. vm_compute. reflexivity. Qed.

Lemma limited_enumerates : enumerates [1]%N (limited 2 1 Backpressure).
Proof.
  assert (dom (subs (limited 2 1 Backpressure)) = list_to_set [1]%N) as Hd by (vm_compute; reflexivity).
  split; [apply NoDup_singleton|].
  intros id. rewrite <- elem_of_dom, Hd. set_solver.
Qed.

Lemma async_quota_respected_witness :
  ∃ w, rtc pub_step (quiescent (limited 2 1 Backpressure)) w ∧ sent_to 1%N w ≤ 2.
Proof.
  destruct (publish_start (event 1) [1]%N (limited 2 1 Backpressure)) as [[t|e] b'] eqn:E.
  - exists (mk_pworld b' (<[0 := t]> ∅) ∅).
    assert (rtc pub_step (quiescent (limited 2 1 Backpressure)) (mk_pworld b' (<[0 := t]> ∅) ∅)) as Hr.
    { eapply rtc_l; [|apply rtc_refl].
      eapply ps_start; [reflexivity|apply limited_enumerates|exact E]. }
    split; [exact Hr|].
    eapply (async_quota_respected (limited 2 1 Backpressure) _ 1%N _ 2%N);
      [vm_compute; reflexivity|vm_compute; reflexivity|reflexivity|reflexivity|reflexivity|exact Hr].
  - exfalso. assert (is_ok (publish_start (event 1) [1]%N (limited 2 1 Backpressure)).1 = true) as H
      by (vm_compute; reflexivity).
    rewrite E in H. discriminate H.
Defined.

(** The two publish paths disagree on a limit of zero, although the
    asynchronous one is documented to match [try_publish] for every policy but
    backpressure: [try_publish] delivers one event and removes the
    subscription, [publish] delivers nothing and keeps it. *)
Theorem limit_zero_paths_differ :
  let b := limited 0 2 Disconnect in
  (match published 1 [1]%N b with
   | Some (r, b') => delivered r = 1 ∧ sub_of b' = None
   | None => False
   end) ∧
  (match publish_now 1 b with
   | Some (r, b') => delivered r = 0 ∧ sub_of b' ≠ None
   | None => False
   end).
Proof. vm_compute. repeat split; discriminate. Qed.

(** A publisher has claimed the last slot of a limited subscription when a
    [try_publish] runs, which does not look at claims; both items are queued. *)
Definition mixed_run : option (nat * option SubscriptionInner) :=
  match start 1 (limited 1 2 Disconnect) with
  | Some (t, b1) =>
      match published 2 [1]%N b1 with
      | Some (_, b2) =>
          match drive 5 t b2 with
          | Some (_, b3) =>
              Some (match chans b3 !! 1%N with
                    | Some c => length (chan_contents c)
                    | None => 0
                    end, sub_of b3)
          | None => None
          end
      | None => None
      end
  | None => None
  end.

(** Mixing the two publish paths breaks a limit: with a limit of one and an
    asynchronous publish between its claim and its send, a [try_publish]
    queues a second item. *)
Theorem mixed_publish_over_delivers : mixed_run = Some (2, None).
Proof. vm_compute. reflexivity. Qed.
End PublishExamples.
