(* ===== verification/Alone.v ===== *)
(** The two publish paths of the bus ([events/bus.rs]) are one, as long as
    nothing comes in between: the asynchronous [publish], run without a
    concurrent step, does what [try_publish] does. *)

From S2P Require Import Prelude F64 Json Query Lexer Parser.
From S2P Require Import Topic Envelope Sequencer Replay Policy CoalesceQueue Mpsc Bus BusSpec BusProps Publish.

Section alone.
  Context {tl : TopicLibs} {time : TimeLib} {num : Type} `{!SerdeNumber num}.
  Context `{!BusLibs num} `{!Mpsc (EventEnvelope num)}.
  Implicit Types (env : EventEnvelope num) (id : SubscriptionId) (b : EventBus num).
  Implicit Types (v : sub_view (num:=num)) (order : list SubscriptionId) (r : PublishResult).

(** ** A publish that never waits *)

(** One pass of the send loop; [None] when it has to wait for a slot. *)
Definition deliver_one env (m : Match) b : option (SendResult * EventBus num) :=
  c ← chans b !! m_id m;
  match send_now env (m_policy m) c with
  | Some (PCommit o, c') => Some (o, commit env (m_id m) o (set_chan (m_id m) c' b))
  | _ => None
  end.

Fixpoint deliver_all env (ms : list Match) b r : option (PublishResult * EventBus num) :=
  match ms with
  | [] => Some (r, b)
  | m :: ms' => '(o, b') ← deliver_one env m b; deliver_all env ms' b' (commit_result (m_id m) o r)
  end.

(** [publish] from its call to its return. *)
Definition publish_alone env order b : option (result PublishError PublishResult * EventBus num) :=
  match publish_start env order b with
  | (Err e, b') => Some (Err e, b')
  | (Ok t, b') =>
      '(r, b'') ← deliver_all (t_env t) (t_matches t) b' (t_result t); Some (Ok r, b'')
  end.

(** ** It is a run of the concurrent system *)

Lemma deliver_one_steps env m b o b' ts sent i t :
  deliver_one env m b = Some (o, b') → ts !! i = Some t → t_env t = env → t_phase t = PSend →
  t_matches t !! t_pos t = Some m →
  ∃ sent', rtc pub_step (mk_pworld b ts sent)
    (mk_pworld b' (<[i := mk_task env (t_matches t) (S (t_pos t)) PSend
       (commit_result (m_id m) o (t_result t))]> ts) sent').
Proof.
  unfold deliver_one. destruct (chans b !! m_id m) as [c|] eqn:Ec; [|done]. simpl.
  destruct (send_now env (m_policy m) c) as [[[| | |o'] c']|] eqn:Es; try done.
  intros [= -> <-] Ht <- Hph Hm. eexists.
  eapply rtc_l; [by eapply (ps_send _ _ _ i t m c c' (PCommit o))|].
  eapply rtc_once. rewrite <- (insert_insert_eq ts i (mk_task (t_env t) _ _ _ _) (with_phase t (PCommit o))).
  eapply (ps_commit _ _ _ i (with_phase t (PCommit o)) m o); [by rewrite lookup_insert_eq|done..].
Qed.

Lemma deliver_all_steps env ms b r r' b' ts sent i pre :
  ts !! i = None → deliver_all env ms b r = Some (r', b') →
  ∃ sent', rtc pub_step
    (mk_pworld b (<[i := mk_task env (pre ++ ms) (length pre) PSend r]> ts) sent)
    (mk_pworld b' ts sent').
Proof.
  intros Hi. revert pre b r sent. induction ms as [|m ms IH]; intros pre b r sent; simpl.
  - intros [= -> ->]. exists sent. eapply rtc_once.
    rewrite <- (delete_insert_id ts i (mk_task env (pre ++ []) (length pre) PSend r')) at 2 by done.
    eapply ps_finish; [by rewrite lookup_insert_eq|done|simpl; by rewrite app_nil_r].
  - destruct (deliver_one env m b) as [[o b1]|] eqn:E1; [|done]. simpl. intros Hall.
    set (t := mk_task env (pre ++ m :: ms) (length pre) PSend r).
    destruct (deliver_one_steps env m b o b1 (<[i := t]> ts) sent i t) as [sent1 H1]; try done.
    { by rewrite lookup_insert_eq. }
    { simpl. by apply list_lookup_middle. }
    rewrite insert_insert_eq in H1. simpl in H1.
    destruct (IH (pre ++ [m]) b1 (commit_result (m_id m) o r) sent1 Hall) as [sent2 H2].
    exists sent2. eapply rtc_trans; [exact H1|].
    rewrite length_app, <- app_assoc in H2. simpl in H2. by rewrite Nat.add_comm in H2.
Qed.

Lemma snapshot_shape env order b :
  let t := (snapshot env order b).1 in t = mk_task env (t_matches t) 0 PSend (t_result t).
Proof. unfold snapshot. by destruct (foldl _ _ order). Qed.

Lemma publish_alone_steps env order b r b' ts sent i :
  enumerates order b → ts !! i = None → publish_alone env order b = Some (Ok r, b') →
  ∃ sent', rtc pub_step (mk_pworld b ts sent) (mk_pworld b' ts sent').
Proof.
  intros Hen Hi. unfold publish_alone. destruct (publish_start env order b) as [[t|e] b1] eqn:Es; [|done].
  destruct (deliver_all _ _ b1 _) as [[r1 b2]|] eqn:Ed; [|done]. intros [= -> ->].
  assert (t = mk_task (t_env t) ([] ++ t_matches t) (length (A:=Match) []) PSend (t_result t)) as Ht.
  { unfold publish_start in Es. destruct (_ <? _)%N; [done|].
    pose proof (snapshot_shape env order (record_envelope env b)) as Hs.
    destruct (snapshot env order (record_envelope env b)) as [t' bt]. simplify_eq/=. rewrite Hs. done. }
  destruct (deliver_all_steps _ _ _ _ _ _ ts sent i [] Hi Ed) as [sent' Hr]. rewrite <- Ht in Hr.
  exists sent'. eapply rtc_l; [|exact Hr]. by eapply ps_start.
Qed.

(** ** One subscription *)

(** The subscription a claim is taken on: its topic matches and it has a
    channel of its own. *)
Definition target env v : option SubscriptionInner :=
  sub ← v_sub v;
  match sub_outbound sub with
  | OMpsc => if matches_event (sub_topic sub) (topic env) (data env) then Some sub else None
  | OCoalesce => None
  end.

(** Nothing stands between this event and the subscription: no claim of
    another publish is open, its limit is not zero, and when its policy is to
    wait there is nothing to wait for. *)
Definition undisturbed env v : Prop :=
  ∀ sub, target env v = Some sub →
    sub_in_flight sub = 0%N ∧ sub_remaining sub ≠ Some 0%N ∧
    (sub_policy sub = Backpressure → ∀ c, v_chan v = Some c → chan_rx_alive c = true → 0 < chan_permits c).

Definition claimed_view (sub' : SubscriptionInner) v : sub_view :=
  mk_view (Some sub') (v_chan v) (v_queue v) (v_notice v).

Lemma target_sub env v sub :
  target env v = Some sub →
  v_sub v = Some sub ∧ sub_outbound sub = OMpsc ∧
  matches_event (sub_topic sub) (topic env) (data env) = true.
Proof.
  unfold target. destruct (v_sub v) as [s|]; [|done]. simpl.
  destruct (sub_outbound s) eqn:Eo; [|done]. destruct (matches_event _ _ _) eqn:Em; [|done].
  by intros [= <-].
Qed.

Lemma claim_slot_some sub :
  sub_remaining sub ≠ Some 0%N →
  claim_slot sub = Some (set_quota ((λ n, (n - 1)%N) <$> sub_remaining sub) (sub_in_flight sub + 1) sub).
Proof.
  unfold claim_slot. destruct (sub_remaining sub) as [n|]; [|done]. intros Hn.
  destruct (N.eqb_spec n 0); [congruence|done].
Qed.

(** A refused claim is given back in full. *)
Lemma refund_claim sub sub' :
  sub_remaining sub ≠ Some 0%N → claim_slot sub = Some sub' → refund sub' = sub.
Proof.
  intros Hn. rewrite (claim_slot_some sub Hn). intros [= <-]. unfold refund, set_quota. simpl.
  destruct sub as [tp out rem p fl ld nt]. simpl in *. f_equal; [|lia].
  destruct rem as [n|]; [|done]. simpl. f_equal. assert (n ≠ 0%N) by congruence. lia.
Qed.

Lemma commit_claim env sub sub' :
  sub_remaining sub ≠ Some 0%N → claim_slot sub = Some sub' → deliver_commit env sub' = mark_delivered env sub.
Proof.
  intros Hn. rewrite (claim_slot_some sub Hn). intros [= <-].
  unfold deliver_commit, set_quota, mark_delivered. simpl. f_equal. lia.
Qed.

Lemma commit_frame env id o b j : j ≠ id → view j (commit env id o b) = view j b.
Proof.
  intros Hj. unfold commit, view. destruct (subs b !! id) as [sub|]; [|done].
  destruct o; simpl; [destruct (exhausted _)| |destruct (sub_notify sub)|]; simpl;
    by rewrite ?lookup_delete_ne, ?lookup_insert_ne.
Qed.

Lemma commit_globals env id o b : same_globals b (commit env id o b).
Proof.
  unfold commit. destruct (subs b !! id) as [sub|]; [|done].
  destruct o; simpl; [by destruct (exhausted _)|done|by destruct (sub_notify sub)|done].
Qed.

Lemma commit_view env id o b sub :
  subs b !! id = Some sub →
  view id (commit env id o b) =
  match o with
  | SrDelivered =>
      let sub' := deliver_commit env sub in
      mk_view (if exhausted sub' then None else Some sub') (chans b !! id) (queues b !! id) (notices b !! id)
  | SrDropped => mk_view (Some (refund sub)) (chans b !! id) (queues b !! id) (notices b !! id)
  | SrDisconnect =>
      mk_view None (chans b !! id) (queues b !! id)
        (if sub_notify sub then Some (slow_notice sub) else notices b !! id)
  | SrClosed => mk_view None (chans b !! id) (queues b !! id) (notices b !! id)
  end.
Proof.
  intros Es. unfold commit, view. rewrite Es.
  destruct o; simpl; [destruct (exhausted _)| |destruct (sub_notify sub)|]; simpl;
    by rewrite ?lookup_delete_eq, ?lookup_insert_eq.
Qed.

(** The outcome the specification of [try_publish] gives to the end of a send. *)
Definition outcome_of (o : SendResult) : sub_outcome :=
  match o with
  | SrDelivered => ODelivered
  | SrDropped => ODropped
  | SrDisconnect => ODisconnected
  | SrClosed => OGone
  end.

Lemma commit_tally id o r : commit_result id o r = tally id (outcome_of o) r.
Proof. by destruct o. Qed.

(** [send_now] never waits on an undisturbed channel. *)
Lemma send_now_ready `{!MpscLaws (EventEnvelope num)} env p (c : chan (EventEnvelope num)) :
  is_coalesce p = false → (p = Backpressure → chan_rx_alive c = true → 0 < chan_permits c) →
  ∃ o c' s, chan_try_send env c = (s, c') ∧ send_now env p c = Some (PCommit o, c') ∧
    match s with
    | SendOk => o = SrDelivered
    | SendClosed => o = SrClosed
    | SendFull => o = SrDropped ∧ p = DropNewest ∨ o = SrDisconnect ∧ p = Disconnect
    end.
Proof.
  intros Hp Hb. unfold send_now. destruct (chan_try_send env c) as [s c'] eqn:Es.
  destruct s; [by eauto 7| |by eauto 7].
  destruct (chan_rx_alive c) eqn:Ea.
  2:{ by rewrite (chan_try_send_closed env c Ea) in Es. }
  destruct p; try done; simpl; [by eauto 9| |by eauto 9].
  destruct (chan_try_send_ok env c Ea (Hb eq_refl eq_refl)) as (c2 & E2 & _). by rewrite E2 in Es.
Qed.

(** Claim, send and commit make of one subscription what [try_publish] does. *)
Lemma deliver_target `{!MpscLaws (EventEnvelope num)} env id b v sub sub' :
  target env v = Some sub → undisturbed env v → view_ok v → claim_slot sub = Some sub' →
  view id b = claimed_view sub' v →
  ∃ o b', deliver_one env (mk_match id (sub_policy sub)) b = Some (o, b') ∧
    publish_view env v = Some (outcome_of o, view id b') ∧
    (∀ j, j ≠ id → view j b' = view j b) ∧ same_globals b b'.
Proof.
  intros Ht Hu Hok Hcl Hv. destruct (Hu sub Ht) as (Hfl & Hrem & Hbp).
  apply target_sub in Ht as (Es & Eo & Em). pose proof (vo_sub v Hok sub Es) as Hso.
  unfold sub_ok in Hso. rewrite Eo in Hso. destruct Hso as [Hnc [c Ec]].
  injection Hv as Hvs Hvc Hvq Hvn. rewrite Ec in Hvc.
  destruct (send_now_ready env (sub_policy sub) c Hnc (λ H, Hbp H c Ec)) as (o & c' & s & Hs & Hn & Ho).
  assert (sub_notify sub' = sub_notify sub ∧ slow_notice sub' = slow_notice sub) as [Hnt Hsl].
  { rewrite (claim_slot_some sub Hrem) in Hcl. by injection Hcl as <-. }
  eexists o, _. unfold deliver_one. simpl. rewrite Hvc. simpl. rewrite Hn. split; [done|].
  split_and!.
  - rewrite (commit_view _ _ _ _ sub') by done. simpl. rewrite lookup_insert_eq, Hvq, Hvn, Hnt, Hsl.
    unfold publish_view. rewrite Es, Em, Eo, Ec. simpl. rewrite Hs.
    destruct s; simpl in Ho; [subst o|destruct Ho as [[-> Hp]|[-> Hp]]|subst o].
    + simpl. rewrite (commit_claim env sub sub' Hrem Hcl). unfold after_delivery, exhausted, quota_exhausted. simpl.
      rewrite Hfl. simpl. rewrite andb_true_r. do 2 f_equal. unfold removed. simpl. rewrite Eo.
      by destruct (sub_remaining sub); simpl; [case_match|].
    + unfold after_overflow. rewrite Hp. by rewrite (refund_claim sub sub' Hrem Hcl).
    + unfold after_overflow. by rewrite Hp.
    + unfold removed. simpl. by rewrite Eo.
  - intros j Hj. rewrite commit_frame by done. by apply set_chan_frame.
  - eapply same_globals_trans; [|apply commit_globals]. done.
Qed.

(** ** The claims *)

Definition matches_of env b order : list Match :=
  omap (λ id, (λ sub, mk_match id (sub_policy sub)) <$> target env (view id b)) order.

Definition claims_taken env b order : list SubscriptionId :=
  base.filter (λ id, is_Some (target env (view id b))) order.

Definition others env b order : list SubscriptionId :=
  base.filter (λ id, ¬ is_Some (target env (view id b))) order.

Lemma claim_target env id (f : fanout) ms sub sub' :
  target env (view id (fo_bus f)) = Some sub → claim_slot sub = Some sub' →
  claim env id (f, ms) =
    (mk_fanout (set_subs <[id := sub']> (fo_bus f)) (fo_to_remove f) (fo_result f),
     ms ++ [mk_match id (sub_policy sub)]).
Proof.
  intros (Es & Eo & Em)%target_sub Hcl. simpl in Es. unfold claim. by rewrite Es, Em, Eo, Hcl.
Qed.

(** Every other subscription is treated in the loop as [try_publish] does. *)
Lemma claim_other_visit env id (f : fanout) ms :
  target env (view id (fo_bus f)) = None →
  ∃ f', visit env id f = Some f' ∧ claim env id (f, ms) = (f', ms).
Proof.
  unfold target, visit, claim. simpl. destruct (subs (fo_bus f) !! id) as [sub|]; simpl; [|by eauto].
  destruct (matches_event _ _ _); simpl; [|by eauto]. destruct (sub_outbound sub); [done|by eauto].
Qed.

Record claimed_all env order (f : fanout) (ms : list Match) (f' : fanout) (ms' : list Match) : Prop := {
  ca_matches : ms' = ms ++ matches_of env (fo_bus f) order;
  ca_removals : ∃ rms, fo_to_remove f' = fo_to_remove f ++ rms ∧ (∀ id, id ∈ rms → id ∈ order) ∧
    ∀ id, id ∈ order →
      match target env (view id (fo_bus f)) with
      | Some sub => (id ∉ rms) ∧ ∃ sub', claim_slot sub = Some sub' ∧
          view id (fo_bus f') = claimed_view sub' (view id (fo_bus f))
      | None => ∃ o v' (rm : bool),
          publish_view env (view id (fo_bus f)) = Some (o, if rm then removed v' else v') ∧
          view id (fo_bus f') = v' ∧ (id ∈ rms ↔ rm = true)
      end;
  ca_result : fo_result f' = tally_all env (fo_bus f) (others env (fo_bus f) order) (fo_result f);
  ca_others j : j ∉ order → view j (fo_bus f') = view j (fo_bus f);
  ca_globals : same_globals (fo_bus f) (fo_bus f')
}.

Lemma matches_of_cons env b id order :
  matches_of env b (id :: order) =
  match target env (view id b) with Some sub => [mk_match id (sub_policy sub)] | None => [] end
  ++ matches_of env b order.
Proof. unfold matches_of. cbn [omap list_omap]. by destruct (target env (view id b)). Qed.

Lemma others_cons env b id order :
  others env b (id :: order) =
  match target env (view id b) with Some _ => [] | None => [id] end ++ others env b order.
Proof.
  unfold others. rewrite filter_cons. destruct (target env (view id b)); case_decide as Hd; try done. by destruct Hd.
Qed.

Lemma claims_taken_cons env b id order :
  claims_taken env b (id :: order) =
  match target env (view id b) with Some _ => [id] | None => [] end ++ claims_taken env b order.
Proof.
  unfold claims_taken. rewrite filter_cons. destruct (target env (view id b)); case_decide as Hd; try done; by destruct Hd.
Qed.

Lemma claims_ext env b b' order :
  (∀ id, id ∈ order → view id b' = view id b) →
  matches_of env b' order = matches_of env b order ∧ others env b' order = others env b order.
Proof.
  intros Hv. induction order as [|id order IH]; [done|].
  rewrite !matches_of_cons, !others_cons, Hv by set_solver.
  destruct IH as [-> ->]; [set_solver|done].
Qed.

Lemma claimed_target env id order (f : fanout) ms f' ms' sub sub' :
  id ∉ order → target env (view id (fo_bus f)) = Some sub → claim_slot sub = Some sub' →
  claimed_all env order (mk_fanout (set_subs <[id := sub']> (fo_bus f)) (fo_to_remove f) (fo_result f))
    (ms ++ [mk_match id (sub_policy sub)]) f' ms' →
  claimed_all env (id :: order) f ms f' ms'.
Proof.
  intros Hid Et Hcl. set (f1 := mk_fanout _ _ _). intros [Hm (rms & Htr & Hsub & Hall) Hres Hoth2 Hg].
  assert (∀ j, j ≠ id → view j (fo_bus f1) = view j (fo_bus f)) as Hoth.
  { intros j Hj. unfold view. simpl. by rewrite lookup_insert_ne. }
  assert (∀ j, j ∈ order → view j (fo_bus f1) = view j (fo_bus f)) as Hsame.
  { intros j Hj. apply Hoth. by intros ->. }
  assert (view id (fo_bus f1) = claimed_view sub' (view id (fo_bus f))) as Hself.
  { unfold view, claimed_view. simpl. by rewrite lookup_insert_eq. }
  destruct (claims_ext env (fo_bus f) (fo_bus f1) order Hsame) as [Hme Hoe]. split.
  - rewrite Hm, Hme, matches_of_cons, Et. by rewrite <- app_assoc.
  - exists rms. split; [done|]. split; [set_solver|]. intros j [->|Hj]%elem_of_cons.
    + rewrite Et. split; [by auto|]. exists sub'. split; [done|]. by rewrite Hoth2.
    + specialize (Hall j Hj). by rewrite Hsame in Hall.
  - rewrite Hres, Hoe, others_cons, Et. simpl. apply tally_all_ext.
    intros j [_ Hj]%list_elem_of_filter. by apply Hsame.
  - intros j Hj. rewrite Hoth2, Hoth; set_solver.
  - eapply same_globals_trans; [|exact Hg]. done.
Qed.

Lemma claimed_other env id order (f f1 : fanout) ms f' ms' :
  id ∉ order → target env (view id (fo_bus f)) = None → visited env id f f1 →
  claimed_all env order f1 ms f' ms' → claimed_all env (id :: order) f ms f' ms'.
Proof.
  intros Hid Et [(o & v' & rm & Hp & Hv & Htr1 & Hres1) Hoth Hg1] [Hm (rms & Htr & Hsub & Hall) Hres Hoth2 Hg].
  assert (∀ j, j ∈ order → view j (fo_bus f1) = view j (fo_bus f)) as Hsame.
  { intros j Hj. apply Hoth. by intros ->. }
  destruct (claims_ext env (fo_bus f) (fo_bus f1) order Hsame) as [Hme Hoe]. split.
  - rewrite Hm, Hme, matches_of_cons, Et. done.
  - exists ((if rm then [id] else []) ++ rms). rewrite Htr, Htr1, app_assoc. split; [done|].
    split; [destruct rm; set_solver|]. intros j [->|Hj]%elem_of_cons.
    + rewrite Et. exists o, v', rm. split; [done|]. split; [by rewrite Hoth2|].
      assert (id ∉ rms) by auto. destruct rm; set_solver.
    + specialize (Hall j Hj). rewrite Hsame in Hall by done. assert (j ≠ id) by (by intros ->).
      destruct (target env (view j (fo_bus f))); [destruct rm; set_solver|].
      destruct Hall as (oj & vj & rmj & ? & ? & Hrj). exists oj, vj, rmj.
      split_and!; [done..|]. rewrite <- Hrj. destruct rm; set_solver.
  - rewrite Hres, Hoe, others_cons, Et, Hres1. cbn [app]. unfold tally_all at 2. cbn [foldl].
    unfold outcome at 2. rewrite Hp. simpl. apply tally_all_ext.
    intros j [_ Hj]%list_elem_of_filter. by apply Hsame.
  - intros j Hj. rewrite Hoth2, Hoth; set_solver.
  - by eapply same_globals_trans.
Qed.

Lemma claim_all_claimed env order (f : fanout) ms :
  NoDup order → (∀ id, id ∈ order → undisturbed env (view id (fo_bus f))) →
  let '(f', ms') := foldl (λ fm id, claim env id fm) (f, ms) order in claimed_all env order f ms f' ms'.
Proof.
  intros Hnd. revert f ms. induction Hnd as [|id order Hid Hnd IH]; intros f ms Hu; cbn [foldl].
  { split; [by rewrite app_nil_r| |done|done|done]. exists []. rewrite app_nil_r. set_solver. }
  assert (∀ f1, (∀ j, j ≠ id → view j (fo_bus f1) = view j (fo_bus f)) →
    ∀ j, j ∈ order → undisturbed env (view j (fo_bus f1))) as Hu1.
  { intros f1 Hf j Hj. rewrite Hf by (by intros ->). apply Hu. by right. }
  destruct (target env (view id (fo_bus f))) as [sub|] eqn:Et.
  - destruct (Hu id (list_elem_of_here _ _) sub Et) as (_ & Hrem & _).
    pose proof (claim_slot_some sub Hrem) as Hcl. rewrite (claim_target _ _ _ _ _ _ Et Hcl).
    specialize (IH (mk_fanout (set_subs <[id := set_quota ((λ n, (n - 1)%N) <$> sub_remaining sub)
      (sub_in_flight sub + 1) sub]> (fo_bus f)) (fo_to_remove f) (fo_result f))
      (ms ++ [mk_match id (sub_policy sub)])).
    destruct (foldl _ _ order) as [f' ms']. eapply claimed_target; [done..|]. apply IH, Hu1.
    intros j Hj. unfold view. simpl. by rewrite lookup_insert_ne.
  - destruct (claim_other_visit env id f ms Et) as (f1 & Hvis%visit_visited & ->).
    specialize (IH f1 ms). destruct (foldl _ _ order) as [f' ms'].
    eapply claimed_other; [done..|]. apply IH, Hu1. apply (vi_others _ _ _ _ Hvis).
Qed.

(** ** The sends *)

Lemma matches_of_taken env b order : matches_of env b order = matches_of env b (claims_taken env b order).
Proof.
  induction order as [|id order IH]; [done|]. rewrite matches_of_cons, claims_taken_cons, IH.
  destruct (target env (view id b)) eqn:Et; [|done].
  cbn [app]. by rewrite matches_of_cons, Et.
Qed.

(** Starting from the claims on [ids] of [b0], every send ends, and gives each
    of them what [try_publish] would have given it. *)
Lemma deliver_all_targets `{!MpscLaws (EventEnvelope num)} env b0 ids b r :
  NoDup ids →
  (∀ id, id ∈ ids → undisturbed env (view id b0) ∧ view_ok (view id b0) ∧
    ∃ sub sub', target env (view id b0) = Some sub ∧ claim_slot sub = Some sub' ∧
      view id b = claimed_view sub' (view id b0)) →
  ∃ b', deliver_all env (matches_of env b0 ids) b r = Some (tally_all env b0 ids r, b') ∧
    (∀ id, id ∈ ids → ∃ o, publish_view env (view id b0) = Some (o, view id b')) ∧
    (∀ j, j ∉ ids → view j b' = view j b) ∧ same_globals b b'.
Proof.
  intros Hnd. revert b r. induction Hnd as [|id ids Hid Hnd IH]; intros b r Hc.
  { exists b. split_and!; [done| |done|done]. intros id Hin. by apply not_elem_of_nil in Hin. }
  destruct (Hc id) as (Hu & Hok & sub & sub' & Et & Hcl & Hv); [by left|].
  destruct (deliver_target env id b _ sub sub' Et Hu Hok Hcl Hv) as (o & b1 & Hd & Hp & Hoth & Hg).
  destruct (IH b1 (tally id (outcome_of o) r)) as (b' & Hall & Hpub & Hoth2 & Hg2).
  { intros j Hj. destruct (Hc j) as (? & ? & s & s' & ? & ? & Hvj); [by right|].
    split_and!; [done..|]. exists s, s'. rewrite Hoth by (by intros ->). done. }
  exists b'. rewrite matches_of_cons, Et. cbn [app deliver_all]. rewrite Hd. simpl. rewrite commit_tally, Hall.
  split_and!.
  - assert (outcome env b0 id = Some (outcome_of o)) as Ho by (unfold outcome; by rewrite Hp).
    unfold tally_all. simpl. by rewrite Ho.
  - intros j [->|Hj]%elem_of_cons; [exists (outcome_of o); by rewrite Hoth2|by apply Hpub].
  - intros j Hj. rewrite Hoth2, Hoth; set_solver.
  - by eapply same_globals_trans.
Qed.

(** The counters do not depend on which subscriptions come first. *)
Lemma count_split o env b order :
  count o env b (others env b order) + count o env b (claims_taken env b order) = count o env b order.
Proof.
  unfold count. induction order as [|id order IH]; [done|].
  rewrite others_cons, claims_taken_cons, (filter_cons _ id order), !filter_app, !length_app.
  destruct (target env (view id b)); rewrite filter_cons; case_decide; simpl; lia.
Qed.

Lemma others_not_disconnected env b id :
  target env (view id b) = None → outcome env b id ≠ Some ODisconnected.
Proof.
  unfold outcome, publish_view, target. destruct (v_sub (view id b)) as [sub|]; [|done]. simpl.
  destruct (matches_event _ _ _); simpl; [|done]. destruct (sub_outbound sub); [done|]. intros _.
  destruct (chans b !! id), (queues b !! id) as [q|]; simpl; try done; by destruct (push env q) as [[] ?].
Qed.

Lemma disconnected_taken env b order :
  base.filter (λ id, outcome env b id = Some ODisconnected) (others env b order) = [] ∧
  base.filter (λ id, outcome env b id = Some ODisconnected) (claims_taken env b order)
  = base.filter (λ id, outcome env b id = Some ODisconnected) order.
Proof.
  induction order as [|id order [IHo IHc]]; [done|].
  rewrite others_cons, claims_taken_cons, !filter_app, IHo, IHc, app_nil_r, (filter_cons _ id order).
  destruct (target env (view id b)) eqn:Et.
  - split; [done|]. rewrite filter_cons. by case_decide.
  - pose proof (others_not_disconnected env b id Et). split; [|by rewrite decide_False].
    rewrite filter_cons, decide_False by done. done.
Qed.

Lemma tally_split env b order r :
  tally_all env b (claims_taken env b order) (tally_all env b (others env b order) r) = tally_all env b order r.
Proof.
  destruct (tally_all_delivered env b (claims_taken env b order) (tally_all env b (others env b order) r))
    as (D1 & P1 & C1 & L1).
  destruct (tally_all_delivered env b (others env b order) r) as (D2 & P2 & C2 & L2).
  destruct (tally_all_delivered env b order r) as (D3 & P3 & C3 & L3).
  destruct (disconnected_taken env b order) as [Ho Hc].
  pose proof (count_split ODelivered env b order). pose proof (count_split ODropped env b order).
  pose proof (count_split OCoalesced env b order).
  destruct (tally_all env b (claims_taken env b order) _), (tally_all env b order r). simpl in *.
  f_equal; [lia|lia|lia|]. by rewrite L1, L2, L3, Ho, Hc, app_nil_r.
Qed.

(** A bus is its views and the rest. *)
Lemma bus_eq b b' b0 :
  (∀ id, view id b = view id b') → same_globals b0 b → same_globals b0 b' → b = b'.
Proof.
  intros Hv (G1 & G2 & G3 & G4) (G1' & G2' & G3' & G4').
  assert (subs b = subs b' ∧ chans b = chans b' ∧ queues b = queues b' ∧ notices b = notices b') as (S1 & S2 & S3 & S4).
  { split_and!; apply map_eq; intros id; specialize (Hv id); unfold view in Hv; congruence. }
  destruct b, b'. simpl in *. congruence.
Qed.

(** The locked section and the sends after it. *)
Lemma snapshot_delivers `{!MpscLaws (EventEnvelope num)} env order b :
  NoDup order → (∀ id, view_ok (view id b)) → (∀ id, undisturbed env (view id b)) →
  let '(t, b1) := snapshot env order b in
  ∃ b', deliver_all env (t_matches t) b1 (t_result t) = Some (tally_all env b order result_default, b') ∧
    (∀ id, id ∈ order → ∃ o, publish_view env (view id b) = Some (o, view id b')) ∧
    (∀ id, id ∉ order → view id b' = view id b) ∧ same_globals b b'.
Proof.
  intros Hnd Hok Hu. unfold snapshot.
  pose proof (claim_all_claimed env order (mk_fanout b [] result_default) [] Hnd (λ id _, Hu id)) as Hc.
  destruct (foldl _ _ order) as [f ms]. destruct Hc as [-> (rms & Htr & Hsub & Hall) Hres Hoth Hg].
  simpl in *. subst rms. set (b1 := foldl remove_one (fo_bus f) (fo_to_remove f)).
  destruct (deliver_all_targets env b (claims_taken env b order) b1 (fo_result f)) as (b' & Hd & Hpub & Hothd & Hgd).
  - by apply NoDup_filter.
  - intros id [[sub Et] Hin]%list_elem_of_filter. split_and!; [done..|]. specialize (Hall id Hin).
    rewrite Et in Hall. destruct Hall as [Hn (sub' & Hcl & Hv)]. exists sub, sub'. split_and!; [done..|].
    unfold b1. by rewrite remove_all_view, decide_False.
  - exists b'. rewrite (matches_of_taken env b order), Hd, Hres, tally_split. split_and!; [done| | |].
    + intros id Hin. destruct (target env (view id b)) as [sub|] eqn:Et.
      { apply Hpub. apply list_elem_of_filter. by rewrite Et. }
      specialize (Hall id Hin). rewrite Et in Hall. destruct Hall as (o & v' & rm & Hp & Hv & Hrm). exists o.
      rewrite Hothd by (intros [[? Ht] _]%list_elem_of_filter; by rewrite Et in Ht).
      unfold b1. rewrite remove_all_view, Hv, Hp. destruct rm; case_decide; naive_solver.
    + intros id Hin. rewrite Hothd by (by intros [_ ?]%list_elem_of_filter).
      unfold b1. rewrite remove_all_view, decide_False by auto. by apply Hoth.
    + eapply same_globals_trans; [exact Hg|]. eapply same_globals_trans; [apply remove_all_globals|exact Hgd].
Qed.

Lemma alone_fan_out `{!MpscLaws (EventEnvelope num)} env order b r b' :
  bus_ok b → enumerates order b → (∀ id, undisturbed env (view id b)) →
  fan_out env order (record_envelope env b) = Some (r, b') →
  let '(t, b1) := snapshot env order (record_envelope env b) in
  deliver_all (t_env t) (t_matches t) b1 (t_result t) = Some (r, b').
Proof.
  intros Hok [Hnd Hin] Hu Ef.
  apply fan_out_spec in Ef as (Hv & -> & Hg); [|done|intros id; rewrite record_envelope_subs; apply Hin].
  pose proof (snapshot_delivers env order (record_envelope env b) Hnd) as Hs.
  pose proof (snapshot_shape env order (record_envelope env b)) as Hsh.
  destruct (snapshot env order (record_envelope env b)) as [t b1]. simpl in Hsh. rewrite Hsh. simpl.
  destruct Hs as (b2 & -> & Hpub & Hoth & Hg').
  { intros id. rewrite record_envelope_view. apply Hok. }
  { intros id. rewrite record_envelope_view. apply Hu. }
  do 2 f_equal. apply (bus_eq _ _ (record_envelope env b)); [|done|done]. intros id.
  destruct (Hv id) as [o Ho]. destruct (decide (id ∈ order)) as [Hi|Hi].
  - destruct (Hpub id Hi) as [o' Ho']. congruence.
  - rewrite Hoth by done. destruct (subs b !! id) as [sub|] eqn:Es; [by destruct Hi; apply Hin|].
    unfold publish_view in Ho. simpl in Ho. rewrite record_envelope_subs, Es in Ho. congruence.
Qed.

Lemma publish_alone_eq `{!SerdeNumberLaws num, !MpscLaws (EventEnvelope num)} env order b :
  bus_ok b → enumerates order b → (∀ id, undisturbed env (view id b)) →
  publish_alone env order b = try_publish env order b.
Proof.
  intros Hok Hen Hu. destruct (try_publish_ok env order b Hen Hok) as (res & b2 & Htry & _).
  unfold publish_alone, publish_start. unfold try_publish in *.
  destruct (max_event_size b <? envelope_size env)%N; [done|].
  destruct (fan_out env order (record_envelope env b)) as [[r b']|] eqn:Ef; [|done].
  pose proof (alone_fan_out env order b r b' Hok Hen Hu Ef) as Hd.
  destruct (snapshot env order (record_envelope env b)) as [t b1]. by rewrite Hd.
Qed.

(** [undisturbed], decided. *)
Definition calm env v : bool :=
  match target env v with
  | None => true
  | Some sub =>
      (sub_in_flight sub =? 0)%N && negb (bool_decide (sub_remaining sub = Some 0%N)) &&
      match sub_policy sub, v_chan v with
      | Backpressure, Some c => negb (chan_rx_alive c) || (0 <? chan_permits c)
      | _, _ => true
      end
  end.

Lemma calm_undisturbed env v : calm env v = true → undisturbed env v.
Proof.
  unfold calm. intros Hc sub Ht. rewrite Ht in Hc. apply andb_true_iff in Hc as [[Hf Hr]%andb_true_iff Hp].
  split_and!; [by apply N.eqb_eq|by apply negb_true_iff, bool_decide_eq_false in Hr|].
  intros Hb c Ec Ha. rewrite Hb, Ec, Ha in Hp. by apply Nat.ltb_lt.
Qed.

(** How a started publish ends, when it does not have to wait. *)
Definition deliver_out (t : task num) b : EventBus num :=
  match deliver_all (t_env t) (t_matches t) b (t_result t) with Some (_, b') => b' | None => b end.

Lemma started_delivers `{!SerdeNumberLaws num, !MpscLaws (EventEnvelope num)} env order b t b1 :
  bus_ok b → enumerates order b → (∀ id, undisturbed env (view id b)) →
  publish_start env order b = (Ok t, b1) → ∃ r, try_publish env order b = Some (Ok r, deliver_out t b1).
Proof.
  intros Hok Hen Hu Hs. pose proof (publish_alone_eq env order b Hok Hen Hu) as Heq.
  destruct (try_publish_ok env order b Hen Hok) as (res & b2 & Htry & _).
  unfold publish_alone in Heq. rewrite Hs, Htry in Heq. unfold deliver_out. rewrite Htry.
  destruct (deliver_all _ _ b1 _) as [[r b']|]; [|done]. exists r. done.
Qed.

(** C5: the two publish paths agree. On a bus where no claim is open, no
    matching subscription has a limit of zero and none that is to be waited for
    is full, [publish] returns at once, with exactly the result of
    [try_publish], and leaves exactly the same bus: every queue, quota, notice,
    removal, the replay cache and the counters. It neither waits nor panics,
    and it is a run of the concurrent system, whatever else is in flight. *)
Theorem publish_alone_is_try_publish `{!SerdeNumberLaws num, !MpscLaws (EventEnvelope num)} env order b :
  bus_ok b → enumerates order b → (∀ id, undisturbed env (view id b)) →
  is_Some (publish_alone env order b) ∧
  publish_alone env order b = try_publish env order b ∧
  ∀ r b' ts sent i, try_publish env order b = Some (Ok r, b') → ts !! i = None →
    ∃ sent', rtc pub_step (mk_pworld b ts sent) (mk_pworld b' ts sent').
Proof.
  intros Hok Hen Hu. pose proof (publish_alone_eq env order b Hok Hen Hu) as Heq.
  destruct (try_publish_ok env order b Hen Hok) as (res & b2 & Htry & _).
  split_and!; [by rewrite Heq, Htry|done|].
  intros r b' ts sent i Ht Hi. rewrite <- Heq in Ht. by eapply publish_alone_steps.
Qed.
End alone.

(** ** A bus of three policies *)

Module AloneExamples.
Import ConcreteNumber ConcreteTime TopicExamples ListChannel BusExamples.

Lemma bus3_ok : bus_ok bus3.
Proof. apply (rtc_invariant bus_step bus_ok bus0); [apply bus_step_ok|apply bus_new_ok|apply bus3_reachable]. Qed.

Lemma bus3_calm id : undisturbed (event 1) (view id bus3).
Proof.
  assert (forallb (λ id, calm (event 1) (view id bus3)) [1; 2; 3]%N = true) as Hc by (vm_compute; reflexivity).
  intros sub Ht. pose proof (target_sub _ _ _ Ht) as (Hs & _). simpl in Hs.
  assert (id ∈ [1; 2; 3]%N) as Hin%list_elem_of_In by (by apply bus3_enumerates).
  rewrite forallb_forall in Hc. by apply (calm_undisturbed (event 1) (view id bus3) (Hc id Hin)).
Qed.

Lemma publish_alone_is_try_publish_witness :
  publish_alone (event 1) [1; 2; 3]%N bus3 = try_publish (event 1) [1; 2; 3]%N bus3.
Proof.
  apply (publish_alone_is_try_publish (event 1) [1; 2; 3]%N bus3 bus3_ok (proj1 bus3_enumerates) bus3_calm).
Defined.
End AloneExamples.
