(* ===== verification/Capabilities.v ===== *)
(** Peer capabilities and identities ([peer.rs]): the capability set as a bit
    set over the six axes with its list syntax, validated identifiers, and the
    constant-time comparison of bearer secrets. *)

From S2P Require Import Prelude.

(** ** Errors *)

Inductive PeerModelError :=
| EmptyNodeId
| EmptyPeerId
| EmptyRouteName
| InvalidRouteName (name : string)
| UnknownCapability (name : string)
| InvalidUrl (message : string).

(** [Display for PeerModelError] *)
Definition peer_model_error_to_string (e : PeerModelError) : string :=
  match e with
  | EmptyNodeId => "node id cannot be empty"
  | EmptyPeerId => "peer id cannot be empty"
  | EmptyRouteName => "route name cannot be empty"
  | InvalidRouteName s => "route name `" +:+ s +:+ "` is not a URL path segment"
  | UnknownCapability s => "unknown peer capability `" +:+ s +:+ "`"
  | InvalidUrl s => "invalid peer url: " +:+ s
  end.

(** [PeerConfigError], its constructors prefixed with the type. *)
Inductive PeerConfigError :=
| ConfigInvalidRouteName (name : string)
| ConfigInvalidUrl (message : string)
| ConfigUnknownCapability (name : string)
| ConfigInvalidProxyUrl (message : string).

(** [From<PeerModelError> for PeerConfigError] *)
Definition config_error_from (e : PeerModelError) : PeerConfigError :=
  match e with
  | EmptyRouteName => ConfigInvalidRouteName ""
  | InvalidRouteName name => ConfigInvalidRouteName name
  | InvalidUrl message => ConfigInvalidUrl message
  | UnknownCapability name => ConfigUnknownCapability name
  | EmptyNodeId | EmptyPeerId => ConfigInvalidRouteName (peer_model_error_to_string e)
  end.

(** ** Identifiers *)

Definition PeerId : Type := string.

Definition peer_id_new (id : string) : result PeerModelError PeerId :=
  if is_blank id then Err EmptyPeerId else Ok id.

Definition is_route_name_char (ch : N) : bool :=
  (((48 <=? ch) && (ch <=? 57)) || ((65 <=? ch) && (ch <=? 90))
   || ((97 <=? ch) && (ch <=? 122))
   || (ch =? 45) || (ch =? 46) || (ch =? 95) || (ch =? 126))%N.

Definition RouteName : Type := string.

Definition route_name_new (route_name : string) : result PeerModelError RouteName :=
  if is_blank route_name then Err EmptyRouteName
  else if negb (forallb is_route_name_char (chars route_name))
  then Err (InvalidRouteName route_name)
  else Ok route_name.

Record NodeIdentity := mk_node_identity {
  ni_node_id : string;
  ni_display_name : string;
  ni_route_name : RouteName
}.

Definition node_identity_new (node_id display_name route_name : string)
    : result PeerModelError NodeIdentity :=
  if is_blank node_id then Err EmptyNodeId
  else
    let? r := route_name_new route_name in
    Ok (mk_node_identity node_id display_name r).

(** ** Capability axes *)

Inductive PeerCapability :=
| ResourceRead
| ResourceQuery
| StreamSubscribe
| TransitionInvoke
| ResourceRegister
| PeerAdmin.

#[export] Instance peer_capability_eq_dec : EqDecision PeerCapability.
Proof. solve_decision. Defined.

(** [PeerCapabilities(u8)] *)
Record PeerCapabilities := mk_caps { caps_bits : N }.

#[export] Instance peer_capabilities_eq_dec : EqDecision PeerCapabilities.
Proof. solve_decision. Defined.

Definition RESOURCE_READ : N := N.shiftl 1 0.
Definition RESOURCE_QUERY : N := N.shiftl 1 1.
Definition STREAM_SUBSCRIBE : N := N.shiftl 1 2.
Definition TRANSITION_INVOKE : N := N.shiftl 1 3.
Definition RESOURCE_REGISTER : N := N.shiftl 1 4.
Definition PEER_ADMIN : N := N.shiftl 1 5.

Definition CAPABILITY_AXES : list (N * PeerCapability * string) :=
  [ (RESOURCE_READ, ResourceRead, "resource.read");
    (RESOURCE_QUERY, ResourceQuery, "resource.query");
    (STREAM_SUBSCRIBE, StreamSubscribe, "stream.subscribe");
    (TRANSITION_INVOKE, TransitionInvoke, "transition.invoke");
    (RESOURCE_REGISTER, ResourceRegister, "resource.register");
    (PEER_ADMIN, PeerAdmin, "peer.admin") ].

Definition caps_empty : PeerCapabilities := mk_caps 0.

Definition caps_all : PeerCapabilities :=
  mk_caps (foldl (λ bits ax, N.lor bits ax.1.1) 0%N CAPABILITY_AXES).

Definition caps_resource_read : PeerCapabilities := mk_caps RESOURCE_READ.
Definition caps_resource_query : PeerCapabilities := mk_caps RESOURCE_QUERY.
Definition caps_stream_subscribe : PeerCapabilities := mk_caps STREAM_SUBSCRIBE.
Definition caps_transition_invoke : PeerCapabilities := mk_caps TRANSITION_INVOKE.
Definition caps_resource_register : PeerCapabilities := mk_caps RESOURCE_REGISTER.
Definition caps_peer_admin : PeerCapabilities := mk_caps PEER_ADMIN.

(** [CAPABILITY_AXES.iter().find(|(_, _, axis)| axis == name)] *)
Definition axis_by_name (name : string) : option (N * PeerCapability * string) :=
  snd <$> list_find (λ ax, ax.2 = name) CAPABILITY_AXES.

(** The loop of [parse_list] over the pieces of the input. *)
Fixpoint parse_list_loop (pieces : list string) (caps : N)
    : result PeerModelError PeerCapabilities :=
  match pieces with
  | [] => Ok (mk_caps caps)
  | raw :: rest =>
      let name := trim raw in
      if str_is_empty name then parse_list_loop rest caps
      else match axis_by_name name with
           | Some (bit, _, _) => parse_list_loop rest (N.lor caps bit)
           | None => Err (UnknownCapability name)
           end
  end.

Definition parse_list (input : string) : result PeerModelError PeerCapabilities :=
  parse_list_loop (split_on "," input) (caps_bits caps_empty).

(** [PeerCapability::axis]; the [expect] cannot fail, see [axis_total]. *)
Definition axis (cap : PeerCapability) : option (N * PeerCapability * string) :=
  snd <$> list_find (λ ax, ax.1.2 = cap) CAPABILITY_AXES.

Definition as_dotted_name (cap : PeerCapability) : string :=
  match axis cap with Some ax => ax.2 | None => "" end.

Definition cap_bit (cap : PeerCapability) : N :=
  match axis cap with Some ax => ax.1.1 | None => 0%N end.

(** [FromStr for PeerCapability] *)
Definition capability_from_str (s : string) : result PeerConfigError PeerCapability :=
  match axis_by_name s with
  | Some (_, cap, _) => Ok cap
  | None => Err (ConfigUnknownCapability s)
  end.

Definition from_capabilities (caps : list PeerCapability) : PeerCapabilities :=
  foldl (λ out cap, mk_caps (N.lor (caps_bits out) (cap_bit cap))) caps_empty caps.

Definition has_bit (c : PeerCapabilities) (bit : N) : bool :=
  negb (N.land (caps_bits c) bit =? 0)%N.

Definition to_capabilities (c : PeerCapabilities) : list PeerCapability :=
  omap (λ ax, if has_bit c ax.1.1 then Some ax.1.2 else None) CAPABILITY_AXES.

Definition caps_intersection (a b : PeerCapabilities) : PeerCapabilities :=
  mk_caps (N.land (caps_bits a) (caps_bits b)).

Definition caps_contains (c required : PeerCapabilities) : bool :=
  (N.land (caps_bits c) (caps_bits required) =? caps_bits required)%N.

Definition stream_subscribe (c : PeerCapabilities) : bool := has_bit c STREAM_SUBSCRIBE.

Definition caps_is_empty (c : PeerCapabilities) : bool := (caps_bits c =? 0)%N.

Definition caps_names (c : PeerCapabilities) : list string :=
  omap (λ ax, if has_bit c ax.1.1 then Some ax.2 else None) CAPABILITY_AXES.

(** The loop of [Display] over the names after the first. *)
Fixpoint display_rest (l : list string) : string :=
  match l with
  | [] => ""
  | name :: l' => "," +:+ name +:+ display_rest l'
  end.

(** [Display for PeerCapabilities] *)
Definition caps_to_string (c : PeerCapabilities) : string :=
  match caps_names c with
  | [] => ""
  | first :: rest => first +:+ display_rest rest
  end.

(** ** Secret comparison *)

Fixpoint xor_fold (a b : string) (diff : N) : N :=
  match a, b with
  | String x a', String y b' =>
      xor_fold a' b' (N.lor diff (N.lxor (byte_code x) (byte_code y)))
  | _, _ => diff
  end.

Definition constant_time_eq (a b : string) : bool :=
  if negb (String.length a =? String.length b) then false
  else (xor_fold a b 0 =? 0)%N.

(** [PeerTokenVerifier] *)
Record PeerTokenVerifier := mk_verifier { tv_secret : string }.

Definition token_verify (v : PeerTokenVerifier) (candidate : string) : bool :=
  constant_time_eq (tv_secret v) candidate.

(** [RedactedSecret] and its [Debug] *)
Record RedactedSecret := mk_secret { expose : string }.
Definition redacted_debug (s : RedactedSecret) : string := "RedactedSecret(<redacted>)".

(** ** What a set grants *)

(** The axes a set grants. *)
Definition grants (c : PeerCapabilities) (cap : PeerCapability) : Prop :=
  caps_contains c (mk_caps (cap_bit cap)) = true.

Lemma axis_total cap : is_Some (axis cap).
Proof. by destruct cap; eexists; vm_compute. Qed.

Lemma lxor_byte_zero x y : N.lxor (byte_code x) (byte_code y) = 0%N → x = y.
Proof.
  intros H%N.lxor_eq. apply (f_equal ascii_of_N) in H. unfold byte_code in H.
  by rewrite !ascii_N_embedding in H.
Qed.

Lemma xor_fold_zero a b d :
  String.length a = String.length b →
  xor_fold a b d = 0%N ↔ d = 0%N ∧ a = b.
Proof.
  revert b d. induction a as [|x a IH]; intros [|y b] d; simpl; try done.
  { naive_solver. }
  intros [= Hl]. rewrite (IH b _ Hl), N.lor_eq_0_iff. split.
  - intros [[-> ->%lxor_byte_zero] ->]. done.
  - intros [-> [= -> ->]]. by rewrite N.lxor_nilpotent.
Qed.

Lemma constant_time_eq_spec a b : constant_time_eq a b = bool_decide (a = b).
Proof.
  unfold constant_time_eq. destruct (Nat.eqb_spec (String.length a) (String.length b)) as [Hl|Hl]; simpl.
  - apply eq_bool_prop_intro. rewrite bool_decide_spec, Is_true_true, N.eqb_eq.
    rewrite xor_fold_zero by done. naive_solver.
  - symmetry. apply bool_decide_eq_false. by intros ->.
Qed.

(** Each axis is its own bit. *)
Lemma cap_bit_pow cap : ∃ i, (cap_bit cap = 2 ^ i ∧ i < 6)%N.
Proof.
  destruct cap; [exists 0%N|exists 1%N|exists 2%N|exists 3%N|exists 4%N|exists 5%N]; by vm_compute.
Qed.

Definition cap_index (cap : PeerCapability) : N := N.log2 (cap_bit cap).

Lemma cap_bit_index cap : cap_bit cap = (2 ^ cap_index cap)%N.
Proof. by destruct cap. Qed.

Lemma cap_index_inj c1 c2 : cap_index c1 = cap_index c2 → c1 = c2.
Proof. by destruct c1, c2; vm_compute. Qed.

Lemma land_pow2 a i : N.land a (2 ^ i) = if N.testbit a i then (2 ^ i)%N else 0%N.
Proof.
  apply N.bits_inj. intros j. rewrite N.land_spec, N.pow2_bits_eqb.
  destruct (N.eqb_spec i j) as [->|Hij].
  - destruct (N.testbit a j); [by rewrite N.pow2_bits_true|by rewrite N.bits_0].
  - rewrite andb_false_r. destruct (N.testbit a i); [by rewrite N.pow2_bits_false|by rewrite N.bits_0].
Qed.

Lemma grants_testbit c cap : grants c cap ↔ N.testbit (caps_bits c) (cap_index cap) = true.
Proof.
  unfold grants, caps_contains. simpl. rewrite cap_bit_index, land_pow2, N.eqb_eq.
  destruct (N.testbit _ _); [done|]. split; [|done]. intros H.
  pose proof (N.pow_nonzero 2 (cap_index cap)). lia.
Qed.

Lemma has_bit_grants c cap : has_bit c (cap_bit cap) = true ↔ grants c cap.
Proof.
  rewrite grants_testbit. unfold has_bit. rewrite cap_bit_index, land_pow2.
  destruct (N.testbit _ _); rewrite negb_true_iff, N.eqb_neq; [|by split].
  split; [done|]. intros _. by apply N.pow_nonzero.
Qed.

Lemma grants_empty cap : ¬ grants caps_empty cap.
Proof. rewrite grants_testbit. by rewrite N.bits_0. Qed.

Lemma grants_intersection a b cap :
  grants (caps_intersection a b) cap ↔ grants a cap ∧ grants b cap.
Proof. rewrite !grants_testbit. simpl. by rewrite N.land_spec, andb_true_iff. Qed.

Lemma grants_lor x y cap :
  grants (mk_caps (N.lor x y)) cap ↔ grants (mk_caps x) cap ∨ grants (mk_caps y) cap.
Proof. rewrite !grants_testbit. simpl. by rewrite N.lor_spec, orb_true_iff. Qed.

Lemma grants_bit c1 c2 : grants (mk_caps (cap_bit c1)) c2 ↔ c1 = c2.
Proof.
  rewrite grants_testbit. simpl. rewrite cap_bit_index, N.pow2_bits_eqb, N.eqb_eq.
  split; [apply cap_index_inj|by intros ->].
Qed.

Lemma contains_grants c cap :
  caps_contains c (mk_caps (cap_bit cap)) = true ↔ grants c cap.
Proof. done. Qed.

Lemma axis_by_name_some name bit cap n :
  axis_by_name name = Some (bit, cap, n) →
  bit = cap_bit cap ∧ n = name ∧ as_dotted_name cap = name.
Proof.
  unfold axis_by_name. intros ([i ax] & (Hl & Hn & _)%list_find_Some & Hax)%fmap_Some.
  simpl in Hax, Hn. subst ax. simpl in Hn. subst n. apply list_elem_of_lookup_2 in Hl.
  unfold CAPABILITY_AXES in Hl. rewrite list_elem_of_In in Hl. simpl in Hl.
  naive_solver.
Qed.

Lemma axis_by_name_dotted cap :
  axis_by_name (as_dotted_name cap) = Some (cap_bit cap, cap, as_dotted_name cap).
Proof. by destruct cap. Qed.

Lemma axis_by_name_none name : axis_by_name name = None ↔ ∀ cap, as_dotted_name cap ≠ name.
Proof.
  split.
  - intros H cap <-. by rewrite axis_by_name_dotted in H.
  - intros H. destruct (axis_by_name name) as [[[bit cap] n]|] eqn:E; [|done].
    apply axis_by_name_some in E as (_ & _ & E). by destruct (H cap).
Qed.

Lemma str_is_empty_spec s : str_is_empty s = bool_decide (s = "").
Proof. by destruct s. Qed.

Lemma cap_bit_small cap : (cap_bit cap < 64)%N.
Proof. by destruct cap. Qed.

Lemma lor_small x y : (x < 64)%N → (y < 64)%N → (N.lor x y < 64)%N.
Proof.
  change 64%N with (2 ^ 6)%N. intros Hx Hy.
  destruct (decide (N.lor x y = 0%N)) as [->|Hn]; [done|].
  apply N.log2_lt_pow2; [lia|]. rewrite N.log2_lor.
  apply N.max_lub_lt.
  - destruct (decide (x = 0%N)) as [->|]; [done|]. apply N.log2_lt_pow2; lia.
  - destruct (decide (y = 0%N)) as [->|]; [done|]. apply N.log2_lt_pow2; lia.
Qed.

(** The meaning of one piece of a capability list. *)
Definition names_axis (piece : string) (cap : PeerCapability) : Prop :=
  trim piece = as_dotted_name cap.

Lemma dotted_name_nonempty cap : as_dotted_name cap ≠ "".
Proof. by destruct cap. Qed.

Lemma as_dotted_name_inj c1 c2 : as_dotted_name c1 = as_dotted_name c2 → c1 = c2.
Proof. by destruct c1, c2; vm_compute. Qed.

Lemma parse_list_loop_spec pieces caps : (caps < 64)%N →
  match parse_list_loop pieces caps with
  | Ok c => (caps_bits c < 64)%N ∧
      (∀ piece, piece ∈ pieces → trim piece = "" ∨ ∃ cap, names_axis piece cap) ∧
      (∀ cap, grants c cap ↔ grants (mk_caps caps) cap ∨ ∃ piece, piece ∈ pieces ∧ names_axis piece cap)
  | Err e => ∃ piece, piece ∈ pieces ∧ trim piece ≠ "" ∧ (∀ cap, ¬ names_axis piece cap) ∧
      e = UnknownCapability (trim piece)
  end.
Proof.
  revert caps. induction pieces as [|raw rest IH]; intros caps Hc; simpl.
  { split; [done|]. split; [by intros ? []%not_elem_of_nil|]. intros cap. split; [by left|].
    by intros [?|(? & []%not_elem_of_nil & _)]. }
  rewrite str_is_empty_spec. case_bool_decide as He.
  - specialize (IH caps Hc). destruct (parse_list_loop rest caps).
    + destruct IH as (? & Hp & Hg). split; [done|]. split; [set_solver|]. intros cap. rewrite Hg.
      unfold names_axis. split; [set_solver|]. intros [?|(p & [->|?]%elem_of_cons & Hn)]; [by left| |set_solver].
      rewrite He in Hn. by destruct (dotted_name_nonempty cap).
    + set_solver.
  - destruct (axis_by_name (trim raw)) as [[[bit cap] n]|] eqn:E.
    + apply axis_by_name_some in E as (-> & _ & Hn).
      specialize (IH (N.lor caps (cap_bit cap))).
      destruct (parse_list_loop rest _).
      * destruct IH as (? & Hp & Hg); [by apply lor_small, cap_bit_small|].
        split; [done|]. split; [unfold names_axis in *; set_solver|]. intros cap'. rewrite Hg, grants_lor, grants_bit.
        unfold names_axis in *. split.
        { intros [[?|<-]|?]; [by left| |set_solver]. right. exists raw. set_solver. }
        intros [?|(p & [->|?]%elem_of_cons & Hn')]; [by auto| |set_solver].
        left. right. apply as_dotted_name_inj. congruence.
      * destruct IH as (p & ? & ?); [by apply lor_small, cap_bit_small|]. set_solver.
    + exists raw. split; [set_solver|]. split; [done|]. split; [|done]. unfold names_axis.
      rewrite axis_by_name_none in E. intros cap Hcap. by destruct (E cap).
Qed.

(** Two sets with the same six low bits grant the same axes; a set without
    higher bits is determined by what it grants. *)
Lemma caps_ext a b : (caps_bits a < 64)%N → (caps_bits b < 64)%N →
  (∀ cap, grants a cap ↔ grants b cap) → a = b.
Proof.
  destruct a as [a], b as [b]; simpl. intros Ha Hb H. f_equal. apply N.bits_inj. intros i.
  assert (Hhigh : ∀ x, (x < 64)%N → (6 <= i)%N → N.testbit x i = false).
  { intros x Hx Hi. rewrite <- (N.mod_small x (2 ^ 6)) by done. by apply N.mod_pow2_bits_high. }
  assert ((6 <= i)%N ∨ ∃ cap, cap_index cap = i) as [Hi|[cap <-]].
  { destruct (decide (6 <= i)%N); [by left|right].
    assert (i ∈ [0;1;2;3;4;5]%N) as Hi by (rewrite list_elem_of_In; simpl; lia).
    rewrite list_elem_of_In in Hi; simpl in Hi.
    destruct_or! Hi; subst; [exists ResourceRead|exists ResourceQuery|exists StreamSubscribe
      |exists TransitionInvoke|exists ResourceRegister|exists PeerAdmin]; done. }
  - by rewrite !Hhigh.
  - specialize (H cap). rewrite !grants_testbit in H. simpl in H.
    apply eq_bool_prop_intro. by rewrite !Is_true_true.
Qed.

Lemma grants_from_capabilities l cap : grants (from_capabilities l) cap ↔ cap ∈ l.
Proof.
  unfold from_capabilities. induction l as [|x l IH] using rev_ind; simpl.
  { rewrite elem_of_nil. split; [|done]. apply grants_empty. }
  rewrite foldl_snoc, grants_lor, grants_bit, elem_of_app, list_elem_of_singleton.
  destruct (foldl _ _ l); simpl in *. naive_solver.
Qed.

Lemma from_capabilities_small l : (caps_bits (from_capabilities l) < 64)%N.
Proof.
  unfold from_capabilities. induction l as [|x l IH] using rev_ind; [done|].
  rewrite foldl_snoc. apply lor_small; [done|]. apply cap_bit_small.
Qed.

Lemma elem_of_to_capabilities c cap : cap ∈ to_capabilities c ↔ grants c cap.
Proof.
  unfold to_capabilities. rewrite list_elem_of_omap. split.
  - intros (ax & Hax & H). destruct (has_bit c ax.1.1) eqn:E; [|done]. injection H as <-.
    rewrite <- has_bit_grants. replace (cap_bit ax.1.2) with ax.1.1; [done|].
    unfold CAPABILITY_AXES in Hax. rewrite list_elem_of_In in Hax. simpl in Hax. by naive_solver.
  - intros H. exists (cap_bit cap, cap, as_dotted_name cap). simpl.
    rewrite (proj2 (has_bit_grants c cap) H). split; [|done].
    by destruct cap; rewrite list_elem_of_In; simpl; auto 10.
Qed.

Lemma caps_all_grants cap : grants caps_all cap.
Proof. by destruct cap. Qed.

Lemma land_all_small c : (caps_bits (caps_intersection c caps_all) < 64)%N.
Proof.
  change (N.land (caps_bits c) (N.ones 6) < 2 ^ 6)%N. rewrite N.land_ones. by apply N.mod_lt.
Qed.

Lemma from_to_capabilities c :
  from_capabilities (to_capabilities c) = caps_intersection c caps_all.
Proof.
  apply caps_ext; [apply from_capabilities_small|apply land_all_small|]. intros cap.
  rewrite grants_from_capabilities, elem_of_to_capabilities, grants_intersection.
  split; [|by intros []]. auto using caps_all_grants.
Qed.

(** Reading an axis ignores the higher bits. *)
Lemma has_bit_all c cap : has_bit (caps_intersection c caps_all) (cap_bit cap) = has_bit c (cap_bit cap).
Proof.
  apply eq_bool_prop_intro. rewrite !Is_true_true, !has_bit_grants, grants_intersection.
  split; [by intros []|]. auto using caps_all_grants.
Qed.

(** A function of the six axis bits. *)
Lemma axes_omap_all {A} (f : N * PeerCapability * string → A) c :
  omap (λ ax, if has_bit (caps_intersection c caps_all) ax.1.1 then Some (f ax) else None) CAPABILITY_AXES =
  omap (λ ax, if has_bit c ax.1.1 then Some (f ax) else None) CAPABILITY_AXES.
Proof.
  assert (Forall (λ ax, ax.1.1 = cap_bit ax.1.2) CAPABILITY_AXES) as H by (repeat constructor).
  induction H as [|ax l Hax _ IH]; [done|]. cbn [omap list_omap].
  rewrite Hax, has_bit_all. by rewrite IH.
Qed.

(** Display and listing read the six axes only. *)
Lemma caps_to_string_all c : caps_to_string (caps_intersection c caps_all) = caps_to_string c.
Proof. unfold caps_to_string, caps_names. by rewrite (axes_omap_all snd). Qed.

Lemma to_capabilities_all c : to_capabilities (caps_intersection c caps_all) = to_capabilities c.
Proof. apply (axes_omap_all (λ ax, ax.1.2)). Qed.

Lemma parse_display_small n : (n < 64)%N →
  parse_list (caps_to_string (mk_caps n)) = Ok (mk_caps n).
Proof.
  intros Hn.
  assert (forallb (λ k, match parse_list (caps_to_string (mk_caps k)) with
    | Ok c => (caps_bits c =? k)%N | Err _ => false end) (map N.of_nat (seq 0 64)) = true) as Hall
    by (vm_compute; reflexivity).
  rewrite forallb_forall in Hall. specialize (Hall n).
  destruct (parse_list _) as [c|e].
  - f_equal. destruct c as [b]. f_equal. apply N.eqb_eq, Hall.
    apply in_map_iff. exists (N.to_nat n). rewrite in_seq. lia.
  - discriminate Hall. apply in_map_iff. exists (N.to_nat n). rewrite in_seq. lia.
Qed.

Lemma parse_display c : parse_list (caps_to_string c) = Ok (caps_intersection c caps_all).
Proof.
  rewrite <- caps_to_string_all. pose proof (land_all_small c) as H.
  destruct (caps_intersection c caps_all) as [n]. by apply parse_display_small.
Qed.

Lemma parse_list_small input :
  match parse_list input with Ok c => (caps_bits c < 64)%N | Err _ => True end.
Proof.
  unfold parse_list. pose proof (parse_list_loop_spec (split_on "," input) 0 eq_refl) as H.
  simpl. destruct (parse_list_loop _ _); naive_solver.
Qed.

Lemma exists_granted c : (caps_bits c < 64)%N → caps_bits c ≠ 0%N → ∃ cap, grants c cap.
Proof.
  intros Hs Hne. destruct (to_capabilities c) as [|cap l] eqn:E.
  - destruct Hne. rewrite (caps_ext c caps_empty); [done|done|done|]. intros cap.
    rewrite <- elem_of_to_capabilities, E. pose proof (grants_empty cap). set_solver.
  - exists cap. apply elem_of_to_capabilities. rewrite E. set_solver.
Qed.

(** ** Properties *)

(** The capability list syntax. [parse_list] accepts exactly the lists all
    of whose non-blank comma-separated pieces are canonical axis names, and the
    result grants exactly the axes named; otherwise it reports a piece that
    names no axis. *)
Theorem parse_list_correct (input : string) :
  match parse_list input with
  | Ok c => (caps_bits c < 64)%N ∧
      (∀ piece, piece ∈ split_on "," input → trim piece = "" ∨ ∃ cap, names_axis piece cap) ∧
      (∀ cap, grants c cap ↔ ∃ piece, piece ∈ split_on "," input ∧ names_axis piece cap)
  | Err e => ∃ piece, piece ∈ split_on "," input ∧ trim piece ≠ "" ∧
      (∀ cap, ¬ names_axis piece cap) ∧ e = UnknownCapability (trim piece)
  end.
Proof.
  unfold parse_list. pose proof (parse_list_loop_spec (split_on "," input) 0 eq_refl) as H.
  simpl. destruct (parse_list_loop _ _) as [c|e]; [|done].
  destruct H as (? & ? & Hg). split_and!; [done|done|]. intros cap. rewrite Hg.
  pose proof (grants_empty cap). naive_solver.
Qed.

(** A capability set survives both of its encodings: printing and parsing
    the wire list, and listing and collecting the axes, give back the set
    restricted to the known axes; the listed axes are the granted ones. *)
Theorem capabilities_roundtrip (c : PeerCapabilities) :
  parse_list (caps_to_string c) = Ok (caps_intersection c caps_all) ∧
  from_capabilities (to_capabilities c) = caps_intersection c caps_all ∧
  (∀ cap, cap ∈ to_capabilities c ↔ grants c cap) ∧
  ((caps_bits c < 64)%N → caps_intersection c caps_all = c).
Proof.
  split_and!; [apply parse_display|apply from_to_capabilities|apply elem_of_to_capabilities|].
  intros H. apply caps_ext; [apply land_all_small|done|]. intros cap.
  rewrite grants_intersection. pose proof (caps_all_grants cap). naive_solver.
Qed.
