(* ===== verification/Http.v ===== *)
(** The interface of the HTTP crates the peering code is built on: header
    maps, URIs, UUIDs and percent encoding, as the operations the sources call
    with their documented laws, and a concrete instance that satisfies them. *)

From S2P Require Import Prelude.

(** The visible ASCII characters of a header value (tab included). *)
Definition is_visible (c : ascii) : bool := in_range 32 126 c || Ascii.eqb c "009".

Definition visible (s : string) : Prop := str_forallb is_visible s = true.

#[export] Instance visible_dec s : Decision (visible s).
Proof. apply _. Defined.

(** [http::HeaderMap], [http::HeaderValue], [http::Uri], [uuid::Uuid] and
    [urlencoding]. A header map is a multimap from lower-case names. *)
Class HttpLib := {
  HeaderValue : Type;
  value_from_str : string → option HeaderValue;    (** [HeaderValue::try_from] *)
  value_to_str : HeaderValue → option string;      (** [HeaderValue::to_str] *)
  HeaderMap : Type;
  hm_new : HeaderMap;
  hm_append : string → HeaderValue → HeaderMap → HeaderMap;
  hm_get : string → HeaderMap → option HeaderValue;
  hm_get_all : string → HeaderMap → list HeaderValue;
  hm_iter : HeaderMap → list (string * HeaderValue);
  Uri : Type;
  uri_path : Uri → string;
  uri_query : Uri → option string;
  uri_path_and_query : Uri → option string;
  uri_scheme_str : Uri → option string;
  uri_parse : string → option Uri;                 (** what [Builder::uri] accepts *)
  urlencode : string → string;                     (** [urlencoding::encode] *)
  Uuid : Type;
  uuid_to_string : Uuid → string;
  uuid_parse_str : string → option Uuid;
}.

Definition is_lower (n : string) : Prop := to_ascii_lowercase n = n.

Class HttpLaws `{HttpLib} : Prop := {
  value_roundtrip s : visible s → ∃ v, value_from_str s = Some v ∧ value_to_str v = Some s;
  value_to_str_visible v s : value_to_str v = Some s → visible s;
  hm_get_first n m : hm_get n m = head (hm_get_all n m);
  hm_get_all_iter n m : is_lower n →
    hm_get_all n m = map snd (base.filter (λ nv, nv.1 = n) (hm_iter m));
  hm_get_all_new n : hm_get_all n hm_new = [];
  hm_get_all_append n n' v m : is_lower n → is_lower n' →
    hm_get_all n (hm_append n' v m) = hm_get_all n m ++ (if String.eqb n n' then [v] else []);
  hm_iter_lower n v m : (n, v) ∈ hm_iter m → is_lower n;
  uuid_roundtrip u : uuid_parse_str (uuid_to_string u) = Some u;
  uuid_visible u : visible (uuid_to_string u);
}.

(** ** What the sources do with a header *)

Section headers.
  Context `{HttpLaws}.

(** [headers.get(name).and_then(|value| value.to_str().ok())] *)
Definition header_str (name : string) (headers : HeaderMap) : option string :=
  hm_get name headers ≫= value_to_str.

Lemma header_str_visible name headers s : header_str name headers = Some s → visible s.
Proof. unfold header_str. intros (v & _ & Hv)%bind_Some. by eapply value_to_str_visible. Qed.

(** *** [http::request::Builder]

    The builder carries its first error; [.header(name, value)] appends, and
    fails when the text is not a header value. *)

Definition Builder : Type := option HeaderMap.

Definition header (name value : string) (b : Builder) : Builder :=
  m ← b; v ← value_from_str value; Some (hm_append name v m).

Definition header_value (nv : string * HeaderValue) (b : Builder) : Builder :=
  m ← b; Some (hm_append nv.1 nv.2 m).

(** [.header(name, value)] when the option is [Some]. *)
Definition header_opt (name : string) (value : option string) (b : Builder) : Builder :=
  match value with Some v => header name v b | None => b end.

(** The values of a header in a map under construction. *)
Definition built (b : Builder) (n : string) (vs : list HeaderValue) : Prop :=
  ∃ m, b = Some m ∧ hm_get_all n m = vs.

Lemma header_Some name value b m :
  header name value b = Some m →
  ∃ m0 v, b = Some m0 ∧ value_from_str value = Some v ∧ m = hm_append name v m0.
Proof. unfold header. intros (m0 & -> & (v & Hv & [= <-])%bind_Some)%bind_Some. eauto. Qed.

Lemma header_visible name value m : visible value →
  ∃ v, header name value (Some m) = Some (hm_append name v m) ∧ value_to_str v = Some value.
Proof. intros (v & Hv & Ht)%value_roundtrip. exists v. unfold header. simpl. by rewrite Hv. Qed.

(** Sanitized copying: appending a list of header pairs. *)
Lemma get_all_append_list n (l : list (string * HeaderValue)) m :
  is_lower n → Forall (λ nv, is_lower nv.1) l →
  ∃ m', foldl (λ b nv, header_value nv b) (Some m) l = Some m' ∧
    hm_get_all n m' = hm_get_all n m ++ map snd (base.filter (λ nv, nv.1 = n) l).
Proof.
  intros Hn Hl. revert m. induction Hl as [|[n' v] l Hn' Hl IH]; intros m; simpl.
  { exists m. by rewrite app_nil_r. }
  destruct (IH (hm_append n' v m)) as (m' & -> & Hm'). exists m'. split; [done|].
  rewrite Hm', hm_get_all_append by done. rewrite filter_cons. simpl.
  destruct (String.eqb_spec n n') as [->|Hne]; [rewrite decide_True by done|rewrite decide_False by done];
    by rewrite <- ?app_assoc.
Qed.
End headers.

Arguments header_str : simpl never.

(** ** An instance

    Header values are their bytes, a map is the list of its pairs, a URI is its
    path and query, and a UUID is a number written in unary. *)
Module ListHttp.
Definition lower_pairs (name : string) (m : list (string * string)) : list (string * string) :=
  base.filter (λ nv : string * string, nv.1 = to_ascii_lowercase name) m.

Lemma lowercase_byte_idem c :
  to_ascii_lowercase_byte (to_ascii_lowercase_byte c) = to_ascii_lowercase_byte c.
Proof. by destruct c as [[] [] [] [] [] [] [] []]; vm_compute. Qed.

Lemma lowercase_idem s : to_ascii_lowercase (to_ascii_lowercase s) = to_ascii_lowercase s.
Proof.
  unfold to_ascii_lowercase. induction s as [|c s IH]; simpl; [done|].
  by rewrite lowercase_byte_idem, IH.
Qed.

(** A header map whose names are lower case. *)
Definition LMap : Type :=
  { m : list (string * string) | bool_decide (Forall (λ nv, to_ascii_lowercase nv.1 = nv.1) m) = true }.

Lemma lmap_nil_ok :
  bool_decide (Forall (λ nv : string * string, to_ascii_lowercase nv.1 = nv.1) []) = true.
Proof. by apply bool_decide_eq_true. Qed.

Lemma lmap_append_ok (m : LMap) n v :
  bool_decide (Forall (λ nv, to_ascii_lowercase nv.1 = nv.1)
    (proj1_sig m ++ [(to_ascii_lowercase n, v)])) = true.
Proof.
  destruct m as [m Hm]. simpl. rewrite bool_decide_eq_true in *. apply Forall_app. split; [done|].
  constructor; [|done]. apply lowercase_idem.
Qed.

Definition visible_str (v : string) : option string :=
  if str_forallb is_visible v then Some v else None.

Fixpoint unary (n : nat) : string :=
  match n with O => "" | S n' => String "0" (unary n') end.

Lemma unary_length n : String.length (unary n) = n.
Proof. induction n; simpl; auto. Qed.

Lemma unary_zeros n : str_forallb (Ascii.eqb "0") (unary n) = true.
Proof. by induction n. Qed.

#[export] Instance http_lib : HttpLib := {|
  HeaderValue := string;
  value_from_str := visible_str;
  value_to_str := visible_str;
  HeaderMap := LMap;
  hm_new := exist _ [] lmap_nil_ok;
  hm_append := λ n v m, exist _ (proj1_sig m ++ [(to_ascii_lowercase n, v)]) (lmap_append_ok m n v);
  hm_get := λ n m, snd <$> head (lower_pairs n (proj1_sig m));
  hm_get_all := λ n m, map snd (lower_pairs n (proj1_sig m));
  hm_iter := λ m, proj1_sig m;
  Uri := string * option string;
  uri_path := fst;
  uri_query := snd;
  uri_path_and_query := λ u, Some (match u.2 with Some q => u.1 +:+ "?" +:+ q | None => u.1 end);
  uri_scheme_str := λ _, None;
  uri_parse := λ s, Some (s, None);
  urlencode := λ s, s;
  Uuid := nat;
  uuid_to_string := unary;
  uuid_parse_str := λ s, if str_forallb (Ascii.eqb "0") s then Some (String.length s) else None;
|}.

#[export] Instance http_laws : HttpLaws.
Proof.
  split; simpl.
  - intros s Hs. exists s. unfold visible_str. by rewrite Hs.
  - unfold visible_str. intros v s. case_match; [|done]. by intros [= <-].
  - intros n m. by destruct (lower_pairs n (proj1_sig m)).
  - intros n m Hn. unfold lower_pairs. by rewrite Hn.
  - done.
  - intros n n' v m Hn Hn'. unfold lower_pairs. rewrite filter_app, map_app, Hn, Hn'. f_equal.
    rewrite filter_cons. simpl. destruct (String.eqb_spec n n') as [->|Hne].
    + by rewrite decide_True.
    + by rewrite decide_False.
  - intros n v [m Hm]. simpl. rewrite bool_decide_eq_true, Forall_forall in Hm. by intros H%Hm.
  - intros u. by rewrite unary_zeros, unary_length.
  - intros u. induction u as [|u IH]; [done|]. unfold visible in *. simpl. by rewrite IH.
Qed.
End ListHttp.
