(* ===== verification/Peer.v ===== *)
(** Peer configuration and connection state ([peer.rs], with the proxy
    settings of [tunnel.rs]): the admission and link builders, the admitted
    connection, what the dialer presents, and the reconnect backoff. URL
    parsing and percent decoding are parameters. *)

From S2P Require Import Prelude Capabilities Http.

(** [url::Url] and [urlencoding::decode]; errors are their messages. *)
Class UrlLib := {
  Url : Type;
  url_parse : string → result string Url;
  url_scheme : Url → string;
  url_host_str : Url → option string;
  url_port_or_known_default : Url → option N;
  url_username : Url → string;
  url_password : Url → option string;
  urldecode : string → result string string;
}.

(** ** Forward proxy settings ([tunnel.rs]) *)

Record ProxyAuth := mk_proxy_auth {
  pa_username : string;
  pa_password : RedactedSecret
}.

Record ProxyConfig := mk_proxy_config {
  pc_host : string;
  pc_port : N;
  pc_auth : option ProxyAuth
}.

Record ProxySelection := mk_proxy_selection {
  ps_explicit : option ProxyConfig;
  ps_auth : option ProxyAuth
}.

Definition proxy_selection_default : ProxySelection := mk_proxy_selection None None.

Section peer.
  Context {hl : HttpLib} {ul : UrlLib}.

Definition percent_decode (raw : string) : result string string :=
  map_err (λ e, "invalid percent-encoding in proxy credentials: " +:+ e) (urldecode raw).

(** [ProxyConfig::from_url_str] *)
Definition proxy_from_url_str (raw : string) : result string ProxyConfig :=
  let? url := map_err (λ e, "invalid proxy url: " +:+ e) (url_parse raw) in
  if negb (String.eqb (url_scheme url) "http") then
    Err ("proxy scheme `" +:+ url_scheme url +:+ "` not supported; use an `http://` CONNECT proxy")
  else
    let? host := ok_or (url_host_str url) "proxy url has no host" in
    let port := default 80%N (url_port_or_known_default url) in
    let? auth :=
      if String.eqb (url_username url) "" && negb (bool_decide (is_Some (url_password url)))
      then Ok None
      else
        let? username := percent_decode (url_username url) in
        let? password := percent_decode (default "" (url_password url)) in
        Ok (Some (mk_proxy_auth username (mk_secret password))) in
    Ok (mk_proxy_config host port auth).

(** The proxy [dial_initiator] selects: an explicit proxy wins over the
    environment, and explicit credentials override those of the proxy. *)
Definition select_proxy {E} (proxy : ProxySelection) (from_env : result E (option ProxyConfig))
    : result E (option ProxyConfig) :=
  let? selected :=
    match ps_explicit proxy with
    | Some explicit => Ok (Some explicit)
    | None => from_env
    end in
  Ok (match selected, ps_auth proxy with
      | Some s, Some auth => Some (mk_proxy_config (pc_host s) (pc_port s) (Some auth))
      | _, _ => selected
      end).

(** ** Inbound admission *)

Record PeerAdmissionConfig := mk_admission_config {
  allowed_route_name : RouteName;
  ac_token_id : string;
  token_verifier : PeerTokenVerifier;
  ac_expected_node_id : option string;
  ac_allowed_capabilities : PeerCapabilities
}.

Definition admission_shared_token (route_name token_id secret : string)
    : result PeerModelError PeerAdmissionConfig :=
  let? r := route_name_new route_name in
  Ok (mk_admission_config r token_id (mk_verifier secret) None caps_resource_read).

Definition admission_expected_node_id (node_id : string) (c : PeerAdmissionConfig)
    : PeerAdmissionConfig :=
  mk_admission_config (allowed_route_name c) (ac_token_id c) (token_verifier c)
    (Some node_id) (ac_allowed_capabilities c).

(** [PeerAdmission], the public wrapper *)
Record PeerAdmission := mk_admission { pa_inner : PeerAdmissionConfig }.

Definition peer_admission_shared_token (route_name token_id secret : string)
    : result PeerConfigError PeerAdmission :=
  let? inner := map_err config_error_from (admission_shared_token route_name token_id secret) in
  Ok (mk_admission inner).

Definition peer_admission_expected_node_id (node_id : string) (a : PeerAdmission) : PeerAdmission :=
  mk_admission (admission_expected_node_id node_id (pa_inner a)).

Definition peer_admission_allow (capabilities : list PeerCapability) (a : PeerAdmission)
    : PeerAdmission :=
  let c := pa_inner a in
  mk_admission (mk_admission_config (allowed_route_name c) (ac_token_id c) (token_verifier c)
    (ac_expected_node_id c) (from_capabilities capabilities)).

Record UnauthenticatedPeerPolicy := mk_unauth_policy { up_allowed_capabilities : PeerCapabilities }.
Definition local_development : UnauthenticatedPeerPolicy := mk_unauth_policy caps_all.

(** ** Outbound links *)

Record PeerLinkConfig := mk_link_config {
  gateway_url : Url;
  pl_route_name : RouteName;
  pl_token_id : option string;
  pl_token_secret : option RedactedSecret;
  local_node_id : option string;
  local_node_name : option string;
  requested_capabilities : PeerCapabilities;
  pl_proxy : ProxySelection
}.

Definition link_config_new (gateway route_name : string) : result PeerModelError PeerLinkConfig :=
  let? url := map_err InvalidUrl (url_parse gateway) in
  let? r := route_name_new route_name in
  Ok (mk_link_config url r None None None None caps_resource_read proxy_selection_default).

Definition link_token (token_id secret : string) (l : PeerLinkConfig) : PeerLinkConfig :=
  mk_link_config (gateway_url l) (pl_route_name l) (Some token_id) (Some (mk_secret secret))
    (local_node_id l) (local_node_name l) (requested_capabilities l) (pl_proxy l).

Definition link_proxy (url : string) (l : PeerLinkConfig) : result PeerConfigError PeerLinkConfig :=
  let? p := map_err ConfigInvalidProxyUrl (proxy_from_url_str url) in
  Ok (mk_link_config (gateway_url l) (pl_route_name l) (pl_token_id l) (pl_token_secret l)
    (local_node_id l) (local_node_name l) (requested_capabilities l)
    (mk_proxy_selection (Some p) (ps_auth (pl_proxy l)))).

Definition link_proxy_auth (username password : string) (l : PeerLinkConfig) : PeerLinkConfig :=
  mk_link_config (gateway_url l) (pl_route_name l) (pl_token_id l) (pl_token_secret l)
    (local_node_id l) (local_node_name l) (requested_capabilities l)
    (mk_proxy_selection (ps_explicit (pl_proxy l))
       (Some (mk_proxy_auth username (mk_secret password)))).

Definition link_node_id (node_id : string) (l : PeerLinkConfig) : PeerLinkConfig :=
  mk_link_config (gateway_url l) (pl_route_name l) (pl_token_id l) (pl_token_secret l)
    (Some node_id) (local_node_name l) (requested_capabilities l) (pl_proxy l).

Definition link_node_name (node_name : string) (l : PeerLinkConfig) : PeerLinkConfig :=
  mk_link_config (gateway_url l) (pl_route_name l) (pl_token_id l) (pl_token_secret l)
    (local_node_id l) (Some node_name) (requested_capabilities l) (pl_proxy l).

(** [PeerLink], the public wrapper; [token], [node_id], [node_name], [proxy]
    and [proxy_auth] are the functions above on [inner]. *)
Record PeerLink := mk_link { pl_inner : PeerLinkConfig }.

Definition peer_link_new (gateway route_name : string) : result PeerConfigError PeerLink :=
  let? inner := map_err config_error_from (link_config_new gateway route_name) in
  Ok (mk_link inner).

Definition peer_link_token (token_id secret : string) (l : PeerLink) : PeerLink :=
  mk_link (link_token token_id secret (pl_inner l)).
Definition peer_link_node_id (node_id : string) (l : PeerLink) : PeerLink :=
  mk_link (link_node_id node_id (pl_inner l)).
Definition peer_link_node_name (node_name : string) (l : PeerLink) : PeerLink :=
  mk_link (link_node_name node_name (pl_inner l)).
Definition peer_link_proxy (url : string) (l : PeerLink) : result PeerConfigError PeerLink :=
  let? inner := link_proxy url (pl_inner l) in Ok (mk_link inner).
Definition peer_link_proxy_auth (username password : string) (l : PeerLink) : PeerLink :=
  mk_link (link_proxy_auth username password (pl_inner l)).

Definition request_capabilities (capabilities : list PeerCapability) (l : PeerLink) : PeerLink :=
  let c := pl_inner l in
  mk_link (mk_link_config (gateway_url c) (pl_route_name c) (pl_token_id c) (pl_token_secret c)
    (local_node_id c) (local_node_name c) (from_capabilities capabilities) (pl_proxy c)).

(** [InitiatorAdmission]: what the dialer presents. *)
Record InitiatorAdmission := mk_initiator_admission {
  ia_token_id : string;
  ia_token_secret : string;
  ia_node_id : string;
  ia_node_name : option string;
  ia_requested_capabilities : string
}.

(** The credentials [attempt_registered] builds from the link: none unless the
    token, its secret and the node id are all set. *)
Definition initiator_admission (admission : option PeerLinkConfig) : option InitiatorAdmission :=
  link ← admission;
  token_id ← pl_token_id link;
  token_secret ← pl_token_secret link;
  node_id ← local_node_id link;
  Some (mk_initiator_admission token_id (expose token_secret) node_id (local_node_name link)
    (caps_to_string (requested_capabilities link))).

(** ** Admitted connections *)

Record AdmittedPeerConnection := mk_admitted {
  ap_route_name : string;
  ap_peer_id : string;
  ap_token_id : option string;
  ap_connection_id : Uuid;
  ap_node_id : option string;
  ap_display_name : option string;
  ap_allowed_capabilities : PeerCapabilities;
  negotiated_capabilities : PeerCapabilities
}.

Definition admitted_unauthenticated (route_name : string) (connection_id : Uuid)
    (allowed : PeerCapabilities) : AdmittedPeerConnection :=
  mk_admitted route_name ("peer-" +:+ route_name) None connection_id None None allowed allowed.

Definition admitted_token_bound (route_name token_id : string) (connection_id : Uuid)
    (node_id : string) (display_name : option string)
    (allowed negotiated : PeerCapabilities) : AdmittedPeerConnection :=
  mk_admitted route_name ("peer-" +:+ route_name +:+ "-" +:+ token_id) (Some token_id)
    connection_id (Some node_id) display_name allowed negotiated.

Inductive PeerConnectionStatus := Opening | Connected | Disconnected | Failed.

Record PeerConnection := mk_peer_connection {
  conn_connection_id : Uuid;
  conn_peer_id : PeerId;
  conn_route_name : RouteName;
  conn_status : PeerConnectionStatus;
  conn_negotiated_capabilities : PeerCapabilities
}.

Definition peer_connection_opening (peer_id : PeerId) (route_name : string) (connection_id : Uuid)
    : result PeerModelError PeerConnection :=
  let? r := route_name_new route_name in
  Ok (mk_peer_connection connection_id peer_id r Opening caps_empty).

Record Peer := mk_peer {
  peer_peer_id : PeerId;
  peer_route_name : RouteName;
  peer_expected_node_id : option string;
  peer_display_name : option string;
  peer_allowed_capabilities : PeerCapabilities
}.

Definition peer_configured (peer_id route_name : string) (expected_node_id : option string)
    : result PeerModelError Peer :=
  let? p := peer_id_new peer_id in
  let? r := route_name_new route_name in
  Ok (mk_peer p r expected_node_id None caps_all).
End peer.

(** ** Reconnect backoff *)

Definition u64 (x : N) : N := (x mod 2 ^ 64)%N.
Definition saturating_mul_u64 (a b : N) : N := N.min (a * b) (2 ^ 64 - 1).
Definition saturating_add_u64 (a b : N) : N := N.min (a + b) (2 ^ 64 - 1).
Definition saturating_add_u32 (a b : N) : N := N.min (a + b) (2 ^ 32 - 1).

(** [xorshift] on the thread-local state; [clock] is the reseed value. *)
Definition xorshift (clock x : N) : N :=
  let x := if (x =? 0)%N then N.max (u64 clock) 1 else x in
  let x := N.lxor x (u64 (N.shiftl x 13)) in
  let x := N.lxor x (N.shiftr x 7) in
  N.lxor x (u64 (N.shiftl x 17)).

Definition XORSHIFT_SEED : N := 16045690984833335023.

(** [backoff_ms]: the delay and the new generator state. *)
Definition backoff_ms (clock : N) (attempt state : N) : N * N :=
  let base := 100%N in
  let max := 30000%N in
  let computed := saturating_mul_u64 base (u64 (N.shiftl 1 (N.min attempt 10))) in
  let state' := xorshift clock state in
  let jitter := (state' mod 1000)%N in
  (saturating_add_u64 (N.min computed max) jitter, state').

(** The retry counter of [spawn] after one attempt. *)
Definition next_attempt (ok : bool) (attempt : N) : N :=
  saturating_add_u32 (if ok then 0%N else attempt) 1.

Definition state_ok (x : N) : Prop := (0 < x < 2 ^ 64)%N.

Lemma testbit_lt x i : (x < 2 ^ 64)%N → (64 <= i)%N → N.testbit x i = false.
Proof. intros Hx Hi. rewrite <- (N.mod_small x (2 ^ 64)) by done. by apply N.mod_pow2_bits_high. Qed.

Lemma lt_testbit x : (∀ i, (64 <= i)%N → N.testbit x i = false) → (x < 2 ^ 64)%N.
Proof.
  intros H. destruct (decide (x = 0%N)) as [->|Hx]; [done|].
  apply N.log2_lt_pow2; [lia|]. apply N.nle_gt. intros Hl. apply H in Hl.
  by rewrite N.bit_log2 in Hl.
Qed.

Lemma lxor_lt x y : (x < 2 ^ 64)%N → (y < 2 ^ 64)%N → (N.lxor x y < 2 ^ 64)%N.
Proof. intros Hx Hy. apply lt_testbit. intros i Hi. by rewrite N.lxor_spec, !testbit_lt. Qed.

Lemma u64_lt x : (u64 x < 2 ^ 64)%N.
Proof. by apply N.mod_lt. Qed.

(** Xoring a word with its left shift keeps it non-zero: the lowest set bit
    survives. *)
Lemma lxor_shiftl_nonzero k x : (0 < k)%N → state_ok x →
  state_ok (N.lxor x (u64 (N.shiftl x k))).
Proof.
  intros Hk [Hx0 Hx]. split; [|apply lxor_lt; [done|apply u64_lt]].
  apply N.neq_0_lt_0. intros Heq%N.lxor_eq. apply N.neq_0_lt_0 in Hx0. destruct Hx0.
  apply N.bits_inj_0. intros i. induction (N.lt_wf_0 i) as [i _ IH].
  rewrite Heq. unfold u64. destruct (decide (i < 64)%N) as [Hi|Hi].
  - rewrite N.mod_pow2_bits_low by done. destruct (decide (i < k)%N) as [Hik|Hik].
    + by rewrite N.shiftl_spec_low.
    + rewrite N.shiftl_spec_high' by lia. apply IH. lia.
  - apply N.mod_pow2_bits_high. lia.
Qed.

(** The same for the right shift, from the highest set bit. *)
Lemma lxor_shiftr_nonzero k x : (0 < k)%N → state_ok x → state_ok (N.lxor x (N.shiftr x k)).
Proof.
  intros Hk [Hx0 Hx]. split.
  - apply N.neq_0_lt_0. intros Heq%N.lxor_eq. apply N.neq_0_lt_0 in Hx0. destruct Hx0.
    apply N.bits_inj_0. intros i.
    remember (64 - i)%N as d eqn:Hd. revert i Hd. induction (N.lt_wf_0 d) as [d _ IH]; intros i Hd.
    destruct (decide (64 <= i)%N) as [Hi|Hi]; [by apply testbit_lt|].
    rewrite Heq, N.shiftr_spec'. apply (IH (64 - (i + k))%N); lia.
  - apply lxor_lt; [done|]. rewrite N.shiftr_div_pow2.
    apply N.le_lt_trans with x; [|done]. apply N.Div0.div_le_upper_bound.
    pose proof (N.pow_nonzero 2 k). nia.
Qed.

Lemma xorshift_ok clock x : (x < 2 ^ 64)%N → state_ok (xorshift clock x).
Proof.
  intros Hx. unfold xorshift. apply lxor_shiftl_nonzero; [done|].
  apply lxor_shiftr_nonzero; [done|]. apply lxor_shiftl_nonzero; [done|].
  destruct (N.eqb_spec x 0) as [->|?]; [|split; lia].
  pose proof (u64_lt clock). unfold state_ok. lia.
Qed.

Lemma xorshift_clock clock clock' x : x ≠ 0%N → xorshift clock x = xorshift clock' x.
Proof. unfold xorshift. by intros ->%N.eqb_neq. Qed.

Lemma backoff_delay clock attempt state :
  (backoff_ms clock attempt state).1 =
  (N.min (100 * 2 ^ N.min attempt 10) 30000 + xorshift clock state mod 1000)%N.
Proof.
  unfold backoff_ms. cbn [fst]. rewrite N.shiftl_1_l. unfold u64.
  assert (2 ^ N.min attempt 10 <= 2 ^ 10)%N as Hp by (apply N.pow_le_mono_r; lia).
  rewrite (N.mod_small (2 ^ _)) by (change (2 ^ 10)%N with 1024%N in Hp; lia).
  unfold saturating_mul_u64, saturating_add_u64.
  change (2 ^ 10)%N with 1024%N in Hp.
  pose proof (N.mod_lt (xorshift clock state) 1000). lia.
Qed.

(** Reconnect delays. The delay is the capped exponential of the attempt
    plus a jitter below one second, at most 30,999 ms, without saturation at
    any attempt count; the jitter generator never returns to the zero state,
    so after the first draw the clock is not read again. *)
Theorem backoff_bounds (clock attempt state : N) :
  (state < 2 ^ 64)%N →
  let '(delay, state') := backoff_ms clock attempt state in
  (∃ jitter, delay = N.min (100 * 2 ^ N.min attempt 10) 30000 + jitter ∧ jitter < 1000)%N ∧
  (100 <= delay <= 30999)%N ∧
  state_ok state' ∧ (∀ clock', backoff_ms clock' attempt state' = backoff_ms clock attempt state').
Proof.
  intros Hs. pose proof (backoff_delay clock attempt state) as Hd.
  pose proof (xorshift_ok clock state Hs) as Hok.
  destruct (backoff_ms clock attempt state) as [delay state'] eqn:E. simpl in Hd. subst delay.
  assert (state' = xorshift clock state) as -> by (unfold backoff_ms in E; congruence).
  pose proof (N.mod_lt (xorshift clock state) 1000 ltac:(done)).
  pose proof (N.pow_nonzero 2 (N.min attempt 10) ltac:(done)).
  split; [by eexists|]. split.
  { clear -H H0. generalize dependent (2 ^ N.min attempt 10)%N.
    generalize dependent (xorshift clock state mod 1000)%N. lia. }
  split; [done|]. intros clock'. unfold backoff_ms.
  rewrite (xorshift_clock clock' clock); [done|]. destruct Hok. lia.
Qed.

Lemma backoff_bounds_witness :
  let '(delay, state') := backoff_ms 0 3 XORSHIFT_SEED in
  (∃ jitter, delay = N.min (100 * 2 ^ N.min 3 10) 30000 + jitter ∧ jitter < 1000)%N ∧
  (100 <= delay <= 30999)%N ∧
  state_ok state' ∧ (∀ clock', backoff_ms clock' 3 state' = backoff_ms 0 3 state').
Proof. apply (backoff_bounds 0 3 XORSHIFT_SEED). done. Defined.
