(* ===== verification/Admission.v ===== *)
(** The peer handshake: the upgrade request the dialer sends and the 101
    response ([tunnel.rs]), and the decision of the accepting node
    ([admit_peer_connection] and its helpers in [http/routes.rs]). *)

From S2P Require Import Prelude Capabilities Http Peer.

Definition SUBPROTOCOL : string := "boardwalk-peer/3".
Definition PEER_TOKEN_ID_HEADER : string := "boardwalk-peer-token-id".
Definition PEER_NODE_ID_HEADER : string := "boardwalk-node-id".
Definition PEER_NODE_NAME_HEADER : string := "boardwalk-node-name".
Definition PEER_CAPABILITIES_HEADER : string := "boardwalk-peer-capabilities".
Definition WS_GUID : string := "258EAFA5-E914-47DA-95CA-C5AB0DC85B11".

(** [base64(sha1(bytes))], the digest crates. *)
Class DigestLib := { base64_sha1 : string → string }.

Section admission.
  Context {hl : HttpLib} {dl : DigestLib}.

(** ** Header access *)

(** A header that is present, readable and not blank. *)
Definition optional_header (headers : HeaderMap) (name : string) : option string :=
  value ← header_str name headers;
  if is_blank value then None else Some value.

Definition required_header (headers : HeaderMap) (name : string) : result string string :=
  ok_or (optional_header headers name) ("missing " +:+ name).

Definition bearer_token (headers : HeaderMap) : option string :=
  raw ← header_str "authorization" headers;
  token ← strip_prefix "Bearer " raw;
  if is_blank token then None else Some token.

(** ** The websocket handshake *)

Definition ws_accept_key (client_key : string) : string := base64_sha1 (client_key +:+ WS_GUID).

(** The upgrade request of [dial_initiator]: its headers. *)
Definition dial_headers (authority key : string) (admission : option InitiatorAdmission) : Builder :=
  let builder :=
    header "sec-websocket-protocol" SUBPROTOCOL
      (header "sec-websocket-version" "13"
        (header "sec-websocket-key" key
          (header "upgrade" "websocket"
            (header "connection" "Upgrade"
              (header "host" authority (Some hm_new)))))) in
  match admission with
  | Some a =>
      header_opt PEER_NODE_NAME_HEADER (ia_node_name a)
        (header PEER_CAPABILITIES_HEADER (ia_requested_capabilities a)
          (header PEER_NODE_ID_HEADER (ia_node_id a)
            (header "authorization" ("Bearer " +:+ ia_token_secret a)
              (header PEER_TOKEN_ID_HEADER (ia_token_id a) builder))))
  | None => builder
  end.

Definition dial_path (local_name : string) (connection_id : Uuid) : string :=
  "/peers/" +:+ urlencode local_name +:+ "?connectionId=" +:+ uuid_to_string connection_id.

(** [build_upgrade_response]: the headers of the 101 response. The message of
    a failing [body] call is not spelled out. *)
Definition build_upgrade_response (headers : HeaderMap) : result string HeaderMap :=
  let? key := ok_or (header_str "sec-websocket-key" headers) "missing Sec-WebSocket-Key" in
  if negb (bool_decide (header_str "sec-websocket-version" headers = Some "13"))
  then Err "missing or wrong Sec-WebSocket-Version"
  else
    let offered := default "" (header_str "sec-websocket-protocol" headers) in
    if negb (existsb (λ tok, String.eqb (trim tok) SUBPROTOCOL) (split_on "," offered))
    then Err ("client did not offer `" +:+ SUBPROTOCOL +:+ "` subprotocol; got `" +:+ offered +:+ "`")
    else
      ok_or
        (header "sec-websocket-protocol" SUBPROTOCOL
          (header "sec-websocket-accept" (ws_accept_key key)
            (header "upgrade" "websocket"
              (header "connection" "upgrade" (Some hm_new)))))
        "build response".

(** What the dialer checks on the 101 response; the status it got is left out
    of the message. *)
Definition check_upgrade_response (key : string) (status : N) (headers : HeaderMap) : result string unit :=
  if negb (status =? 101)%N then Err "expected 101"
  else match hm_get "sec-websocket-accept" headers with
       | Some got =>
           if bool_decide (value_to_str got = Some (ws_accept_key key)) then Ok ()
           else Err "invalid Sec-WebSocket-Accept"
       | None => Err "missing Sec-WebSocket-Accept"
       end.

(** ** Denials *)

Definition BAD_REQUEST : N := 400.
Definition UNAUTHORIZED : N := 401.
Definition FORBIDDEN : N := 403.

Record AdmissionDeny := mk_deny {
  deny_kind : string;
  deny_status : N;
  deny_reason : string;
  deny_route : option string;
  deny_token_id : option string;
  deny_node_id : option string;
  deny_requested : option string;
  deny_allowed : option string;
  deny_connection_id : option Uuid
}.

(** [admission_denied]: the traced message and the response. *)
Definition admission_denied (d : AdmissionDeny) : string * (N * string) :=
  let message :=
    if bool_decide (is_Some (deny_requested d))
    then "peer admission denied; widen with PeerAdmission::allow(...) on the accepting node"
    else "peer admission denied" in
  (message, (deny_status d, deny_reason d)).

(** ** The decision *)

Definition verified_admissions (admissions : list PeerAdmissionConfig) (token_id bearer : string)
    : result string (list PeerAdmissionConfig) :=
  let token_matches := base.filter (λ config, ac_token_id config = token_id) admissions in
  match token_matches with
  | [] => Err "unknown peer token id"
  | _ =>
      match base.filter (λ config, token_verify (token_verifier config) bearer = true) token_matches with
      | [] => Err "invalid bearer token"
      | verified => Ok verified
      end
  end.

Definition admit_peer_connection (peer_name : string) (connection_id : Uuid) (headers : HeaderMap)
    (admissions : list PeerAdmissionConfig) (unauthenticated : option UnauthenticatedPeerPolicy)
    : result AdmissionDeny AdmittedPeerConnection :=
  let deny status reason token_id node_id :=
    mk_deny "admission" status reason (Some peer_name) token_id node_id None None
      (Some connection_id) in
  match admissions with
  | [] =>
      match unauthenticated with
      | None => Err (deny FORBIDDEN "peer admission is not configured" None None)
      | Some policy =>
          Ok (admitted_unauthenticated peer_name connection_id (up_allowed_capabilities policy))
      end
  | _ =>
      let? token_id := map_err (λ _, deny UNAUTHORIZED "missing peer token id" None None)
        (required_header headers PEER_TOKEN_ID_HEADER) in
      let? bearer := ok_or (bearer_token headers)
        (deny UNAUTHORIZED "missing bearer token" (Some token_id) None) in
      let? verified := map_err (λ reason, deny UNAUTHORIZED reason (Some token_id) None)
        (verified_admissions admissions token_id bearer) in
      match snd <$> list_find (λ config, allowed_route_name config = peer_name) verified with
      | None => Err (deny FORBIDDEN "peer token is not valid for route" (Some token_id) None)
      | Some config =>
          let? node_id := map_err (λ message, deny BAD_REQUEST message (Some token_id) None)
            (required_header headers PEER_NODE_ID_HEADER) in
          if match ac_expected_node_id config with
             | Some expected => negb (String.eqb expected node_id)
             | None => false
             end
          then Err (deny FORBIDDEN "peer node id mismatch" (Some token_id) (Some node_id))
          else
            let? raw := map_err (λ message, deny BAD_REQUEST message (Some token_id) None)
              (required_header headers PEER_CAPABILITIES_HEADER) in
            let? requested := map_err
              (λ err, deny BAD_REQUEST (peer_model_error_to_string err) (Some token_id) None)
              (parse_list raw) in
            let negotiated := caps_intersection requested (ac_allowed_capabilities config) in
            if caps_is_empty negotiated then
              Err (mk_deny "admission" FORBIDDEN "peer capabilities are not allowed" (Some peer_name)
                (Some token_id) None (Some (caps_to_string requested))
                (Some (caps_to_string (ac_allowed_capabilities config))) (Some connection_id))
            else
              Ok (admitted_token_bound peer_name token_id connection_id node_id
                (optional_header headers PEER_NODE_NAME_HEADER)
                (ac_allowed_capabilities config) negotiated)
      end
  end.

(** ** What admission means *)

(** The token id and bearer secret the request presents. *)
Definition credentials (headers : HeaderMap) : option (string * string) :=
  token_id ← optional_header headers PEER_TOKEN_ID_HEADER;
  bearer ← bearer_token headers;
  Some (token_id, bearer).

(** A configuration that the presented credentials unlock. *)
Definition unlocks (creds : string * string) (config : PeerAdmissionConfig) : Prop :=
  ac_token_id config = creds.1 ∧ tv_secret (token_verifier config) = creds.2.

#[export] Instance unlocks_dec creds config : Decision (unlocks creds config).
Proof. apply _. Defined.

(** The first configuration of the list with the credentials and the route. *)
Definition selects (creds : string * string) (route : string)
    (admissions : list PeerAdmissionConfig) (config : PeerAdmissionConfig) : Prop :=
  ∃ before after, admissions = before ++ config :: after ∧
    unlocks creds config ∧ allowed_route_name config = route ∧
    Forall (λ c, ¬ (unlocks creds c ∧ allowed_route_name c = route)) before.

Definition pinned (config : PeerAdmissionConfig) (node_id : string) : Prop :=
  match ac_expected_node_id config with Some expected => expected = node_id | None => True end.

Inductive admitted_by (peer_name : string) (connection_id : Uuid) (headers : HeaderMap)
    (admissions : list PeerAdmissionConfig) (unauthenticated : option UnauthenticatedPeerPolicy)
    : AdmittedPeerConnection → Prop :=
| admitted_open policy :
    admissions = [] → unauthenticated = Some policy →
    admitted_by _ _ _ _ _
      (admitted_unauthenticated peer_name connection_id (up_allowed_capabilities policy))
| admitted_token creds config node_id raw requested :
    credentials headers = Some creds →
    selects creds peer_name admissions config →
    optional_header headers PEER_NODE_ID_HEADER = Some node_id →
    pinned config node_id →
    optional_header headers PEER_CAPABILITIES_HEADER = Some raw →
    parse_list raw = Ok requested →
    (∃ cap, grants requested cap ∧ grants (ac_allowed_capabilities config) cap) →
    admitted_by _ _ _ _ _
      (admitted_token_bound peer_name creds.1 connection_id node_id
        (optional_header headers PEER_NODE_NAME_HEADER) (ac_allowed_capabilities config)
        (caps_intersection requested (ac_allowed_capabilities config))).

(** ** Lemmas *)

Implicit Types (admissions : list PeerAdmissionConfig).

Lemma token_verify_spec v bearer : token_verify v bearer = true ↔ tv_secret v = bearer.
Proof. unfold token_verify. by rewrite constant_time_eq_spec, bool_decide_eq_true. Qed.

Lemma verified_filter admissions token_id bearer :
  base.filter (λ config, token_verify (token_verifier config) bearer = true)
    (base.filter (λ config, ac_token_id config = token_id) admissions) =
  base.filter (unlocks (token_id, bearer)) admissions.
Proof.
  rewrite list_filter_filter. apply list_filter_iff. intros c. unfold unlocks. simpl.
  rewrite token_verify_spec. tauto.
Qed.

(** The verified configurations are those the credentials unlock. *)
Lemma verified_admissions_spec admissions token_id bearer :
  match verified_admissions admissions token_id bearer with
  | Ok l => l = base.filter (unlocks (token_id, bearer)) admissions ∧ l ≠ []
  | Err _ => base.filter (unlocks (token_id, bearer)) admissions = []
  end.
Proof.
  unfold verified_admissions. pose proof (verified_filter admissions token_id bearer) as H.
  destruct (base.filter (λ config, ac_token_id config = token_id) admissions) eqn:E; [done|].
  rewrite <- H. by destruct (base.filter _ (_ :: _)).
Qed.

Lemma find_selects creds route admissions config :
  snd <$> list_find (λ c, allowed_route_name c = route) (base.filter (unlocks creds) admissions)
    = Some config ↔ selects creds route admissions config.
Proof.
  induction admissions as [|c l IH]; simpl.
  { split; [done|]. by intros ([|] & ? & ? & _). }
  rewrite filter_cons. destruct (decide (unlocks creds c)) as [Hu|Hu]; simpl.
  - destruct (decide (allowed_route_name c = route)) as [Hr|Hr]; simpl.
    + split.
      * intros [= <-]. by exists [], l.
      * intros ([|x before] & after & [= -> ->] & _ & _ & Hb); [done|].
        inversion Hb; subst. naive_solver.
    + rewrite <- option_fmap_compose. rewrite (option_fmap_ext _ snd) by by intros [].
      rewrite IH. split.
      * intros (before & after & -> & ? & ? & ?). exists (c :: before), after.
        split_and!; try done. constructor; [naive_solver|done].
      * intros ([|x before] & after & [= -> ->] & ? & ? & Hb); [done|].
        inversion Hb; subst. by exists before, after.
  - rewrite IH. split.
    + intros (before & after & -> & ? & ? & ?). exists (c :: before), after.
      split_and!; try done. constructor; [naive_solver|done].
    + intros ([|x before] & after & [= -> ->] & ? & ? & Hb); [done|].
      inversion Hb; subst. by exists before, after.
Qed.

Lemma required_optional headers name :
  required_header headers name = ok_or (optional_header headers name) ("missing " +:+ name).
Proof. done. Qed.

(** An empty intersection of a parsed list and a ceiling grants nothing. *)
Lemma negotiated_empty raw requested allowed :
  parse_list raw = Ok requested →
  caps_is_empty (caps_intersection requested allowed) = false ↔
  ∃ cap, grants requested cap ∧ grants allowed cap.
Proof.
  intros Hp. pose proof (parse_list_small raw) as Hs. rewrite Hp in Hs.
  unfold caps_is_empty. rewrite N.eqb_neq. split.
  - intros Hne. destruct (exists_granted (caps_intersection requested allowed)) as [cap Hc].
    + apply N.le_lt_trans with (caps_bits requested); [|done]. apply N.land_le_l.
    + done.
    + exists cap. by apply grants_intersection.
  - intros (cap & H) Hz. apply grants_intersection in H.
    destruct (caps_intersection requested allowed). simpl in Hz. subst. by apply grants_empty in H.
Qed.

Lemma pinned_spec config node_id :
  match ac_expected_node_id config with
  | Some expected => negb (String.eqb expected node_id)
  | None => false
  end = false ↔ pinned config node_id.
Proof.
  unfold pinned. destruct (ac_expected_node_id config); [|done].
  by rewrite negb_false_iff, String.eqb_eq.
Qed.

Lemma filter_unlocks_nil creds admissions :
  base.filter (unlocks creds) admissions = [] ↔ ∀ config, config ∈ admissions → ¬ unlocks creds config.
Proof.
  split.
  - intros Hf config Hc Hu. apply (not_elem_of_nil config). rewrite <- Hf. by apply list_elem_of_filter.
  - intros H. destruct (base.filter _ _) as [|x l] eqn:E; [done|].
    assert (x ∈ base.filter (unlocks creds) admissions) as Hx by (rewrite E; set_solver).
    apply list_elem_of_filter in Hx as [??]. by destruct (H x).
Qed.

Lemma filter_unlocks_some creds admissions :
  base.filter (unlocks creds) admissions ≠ [] → ∃ config, config ∈ admissions ∧ unlocks creds config.
Proof.
  intros H. destruct (base.filter _ _) as [|x l] eqn:E; [done|]. exists x.
  assert (x ∈ base.filter (unlocks creds) admissions) as Hx by (rewrite E; set_solver).
  by apply list_elem_of_filter in Hx as [??].
Qed.

Lemma selects_unlocks creds route admissions config :
  selects creds route admissions config → config ∈ admissions ∧ unlocks creds config.
Proof. intros (before & after & -> & Hu & _). split; [set_solver|done]. Qed.

Lemma selects_nil creds route config : ¬ selects creds route [] config.
Proof. by intros ([|] & ? & ? & _). Qed.

Lemma selects_unique creds route admissions c1 c2 :
  selects creds route admissions c1 → selects creds route admissions c2 → c1 = c2.
Proof. rewrite <- !find_selects. congruence. Qed.

(** The token branch of [admit_peer_connection], once the credentials are
    read and the list is not empty. *)
Lemma admit_token peer_name connection_id headers admissions unauthenticated :
  admissions ≠ [] →
  match admit_peer_connection peer_name connection_id headers admissions unauthenticated with
  | Ok c => admitted_by peer_name connection_id headers admissions unauthenticated c
  | Err d => (∀ c, ¬ admitted_by peer_name connection_id headers admissions unauthenticated c) ∧
      (deny_status d = UNAUTHORIZED ∧
         (∀ creds config, credentials headers = Some creds → config ∈ admissions →
            ¬ unlocks creds config)
       ∨ (deny_status d = FORBIDDEN ∨ deny_status d = BAD_REQUEST) ∧
         ∃ creds config, credentials headers = Some creds ∧ config ∈ admissions ∧
           unlocks creds config)
  end.
Proof.
  intros Hne. unfold admit_peer_connection.
  destruct admissions as [|a0 l0]; [done|]. set (admissions := a0 :: l0) in *. clearbody admissions.
  rewrite !required_optional.
  assert (Hcreds : credentials headers =
    (t ← optional_header headers PEER_TOKEN_ID_HEADER; b ← bearer_token headers; Some (t, b))) by done.
  destruct (optional_header headers PEER_TOKEN_ID_HEADER) as [token_id|] eqn:Ht; simpl in *;
    [|split; [by intros c []; simplify_eq/=|left; naive_solver]].
  destruct (bearer_token headers) as [bearer|] eqn:Hb; simpl in *;
    [|split; [by intros c []; simplify_eq/=|left; naive_solver]].
  pose proof (verified_admissions_spec admissions token_id bearer) as Hv.
  destruct (verified_admissions admissions token_id bearer) as [verified|reason]; simpl in *.
  2:{ rewrite filter_unlocks_nil in Hv. split; [|left; split; [done|]; intros; simplify_eq; by apply Hv].
      intros c []; simplify_eq/=. apply selects_unlocks in H0 as [??]. naive_solver. }
  destruct Hv as [-> (some & Hs1 & Hs2)%filter_unlocks_some].
  assert (∃ creds config, credentials headers = Some creds ∧ config ∈ admissions ∧
    unlocks creds config) as Hsome by (by exists (token_id, bearer), some).
  pose proof (find_selects (token_id, bearer) peer_name admissions) as Hsel.
  destruct (snd <$> list_find _ _) as [config|] eqn:Hf; simpl in *.
  2:{ split; [|by right; auto]. intros c []; simplify_eq/=. by apply Hsel in H0. }
  specialize (Hsel config). apply proj1 in Hsel. specialize (Hsel eq_refl).
  destruct (optional_header headers PEER_NODE_ID_HEADER) as [node_id|] eqn:Hn; simpl;
    [|split; [by intros c []; simplify_eq/=|by right; auto]].
  pose proof (pinned_spec config node_id) as Hpin.
  destruct (match ac_expected_node_id config with Some _ => _ | None => _ end) eqn:Hm.
  { split; [|by right; auto]. intros c []; simplify_eq/=.
    rewrite (selects_unique _ _ _ _ _ Hsel H0) in Hpin. by apply Hpin in H2. }
  destruct (optional_header headers PEER_CAPABILITIES_HEADER) as [raw|] eqn:Hr; simpl;
    [|split; [by intros c []; simplify_eq/=|by right; auto]].
  destruct (parse_list raw) as [requested|err] eqn:Hp; simpl;
    [|split; [by intros c []; simplify_eq/=; congruence|by right; auto]].
  pose proof (negotiated_empty raw requested (ac_allowed_capabilities config) Hp) as Hneg.
  destruct (caps_is_empty _).
  - split; [|by right; auto]. intros c []; simplify_eq/=.
    rewrite (selects_unique _ _ _ _ _ Hsel H0) in Hneg.
    rewrite Hp in H4. injection H4 as <-. by apply Hneg in H5.
  - apply (admitted_token _ _ _ _ _ (token_id, bearer) config node_id raw requested); try done.
    + by apply Hpin.
    + by apply Hneg.
Qed.

Lemma admitted_by_unique peer_name connection_id headers admissions unauthenticated c1 c2 :
  admitted_by peer_name connection_id headers admissions unauthenticated c1 →
  admitted_by peer_name connection_id headers admissions unauthenticated c2 → c1 = c2.
Proof.
  intros H1 H2. destruct H1; inversion H2; simplify_eq; try done;
    try by (match goal with Hs : selects _ _ [] _ |- _ => by apply selects_nil in Hs end).
  match goal with
  | Hs1 : selects _ _ _ ?c1, Hs2 : selects _ _ _ ?c2,
    Hp1 : parse_list ?raw = Ok ?r1, Hp2 : parse_list ?raw = Ok ?r2 |- _ =>
      assert (c1 = c2) as -> by (by eapply selects_unique);
      assert (r1 = r2) as -> by congruence; done
  end.
Qed.

Lemma admit_rules peer_name connection_id headers admissions unauthenticated c :
  admit_peer_connection peer_name connection_id headers admissions unauthenticated = Ok c ↔
  admitted_by peer_name connection_id headers admissions unauthenticated c.
Proof.
  destruct admissions as [|a l].
  { simpl. destruct unauthenticated as [policy|]; split.
    - intros [= <-]. by constructor.
    - intros []; simplify_eq; [done|]. by apply selects_nil in H0.
    - done.
    - intros []; simplify_eq. by apply selects_nil in H0. }
  pose proof (admit_token peer_name connection_id headers (a :: l) unauthenticated ltac:(done)) as H.
  destruct (admit_peer_connection _ _ _ _ _) as [c'|d].
  - split; [by intros [= <-]|]. intros Hc. f_equal. by eapply admitted_by_unique.
  - destruct H as [H _]. split; [done|]. intros Hc. by destruct (H c).
Qed.

(** C7: The admission decision. A connection is admitted exactly when the
    declarative rules admit it: without configured admissions only under the
    explicit unauthenticated policy, and otherwise only for the first
    configuration whose token id, secret and route are the presented ones,
    whose node pin holds, and whose ceiling meets the requested capabilities;
    the negotiated set is their intersection. *)
Theorem admit_correct (peer_name : string) (connection_id : Uuid) (headers : HeaderMap)
    (admissions : list PeerAdmissionConfig) (unauthenticated : option UnauthenticatedPeerPolicy)
    (c : AdmittedPeerConnection) :
  admit_peer_connection peer_name connection_id headers admissions unauthenticated = Ok c ↔
  admitted_by peer_name connection_id headers admissions unauthenticated c.
Proof. apply admit_rules. Qed.

(** Denials fail closed with the right class: a request whose credentials
    unlock no configuration is refused with 401 and no other status, and one
    whose credentials are good is refused with 400 or 403. *)
Theorem admission_denial_status (peer_name : string) (connection_id : Uuid) (headers : HeaderMap)
    (admissions : list PeerAdmissionConfig) (unauthenticated : option UnauthenticatedPeerPolicy)
    (d : AdmissionDeny) :
  admissions ≠ [] →
  admit_peer_connection peer_name connection_id headers admissions unauthenticated = Err d →
  (deny_status d = UNAUTHORIZED ↔
     ¬ ∃ creds config, credentials headers = Some creds ∧ config ∈ admissions ∧ unlocks creds config) ∧
  (deny_status d ≠ UNAUTHORIZED → deny_status d = FORBIDDEN ∨ deny_status d = BAD_REQUEST).
Proof.
  intros Hne He. pose proof (admit_token peer_name connection_id headers admissions unauthenticated Hne) as H.
  rewrite He in H. destruct H as (_ & [[Hs Hno]|[Hs Hyes]]); split; try naive_solver.
  split; [|done]. intros Hu. rewrite Hu in Hs. by destruct Hs.
Qed.
End admission.

(** ** The dialer meets the acceptor *)

(** The base64 alphabet is visible. *)
Class DigestLaws `{DigestLib} : Prop := { base64_sha1_visible s : visible (base64_sha1 s) }.

Lemma caps_display_readable c :
  visible (caps_to_string c) ∧ (caps_to_string c ≠ "" → is_blank (caps_to_string c) = false).
Proof.
  rewrite <- caps_to_string_all. pose proof (land_all_small c) as H.
  destruct (caps_intersection c caps_all) as [n]. simpl in H.
  assert (forallb (λ k, let s := caps_to_string (mk_caps k) in
    str_forallb is_visible s && (str_is_empty s || negb (is_blank s))) (map N.of_nat (seq 0 64)) = true)
    as Hall by (vm_compute; reflexivity).
  rewrite forallb_forall in Hall. specialize (Hall n).
  rewrite andb_true_iff, orb_true_iff, negb_true_iff, str_is_empty_spec, bool_decide_eq_true in Hall.
  destruct Hall as [? [?|?]]; [|done..]. apply in_map_iff. exists (N.to_nat n). rewrite in_seq. lia.
Qed.

Lemma caps_display_nonempty c : (∃ cap, grants c cap) → caps_to_string c ≠ "".
Proof.
  intros [cap Hc] He. pose proof (parse_display c) as Hp. rewrite He in Hp.
  change (parse_list "") with (Ok (E := PeerModelError) caps_empty) in Hp. injection Hp as Hp.
  apply (grants_empty cap). unfold caps_empty. rewrite Hp.
  apply (grants_intersection c caps_all). auto using caps_all_grants.
Qed.

Section handshake.
  Context `{HttpLaws} `{DigestLaws}.

Lemma header_str_all name m : header_str name m = head (hm_get_all name m) ≫= value_to_str.
Proof. unfold header_str. by rewrite hm_get_first. Qed.

(** Reading a header back from the map a chain of appends built. *)
Ltac read_header :=
  rewrite header_str_all, !hm_get_all_append by done; rewrite hm_get_all_new; simpl; try done.

(** Appending one visible header. *)
Ltac push_header :=
  match goal with |- context [header ?n ?s (Some ?m)] =>
    let v := fresh "v" in let Hv := fresh "Hv" in let E := fresh "E" in
    destruct (header_visible n s m) as (v & E & Hv); [by auto|]; rewrite E; clear E end.

Ltac read_present :=
  repeat (rewrite header_str_all, !hm_get_all_append by done; rewrite hm_get_all_new; simpl);
  repeat match goal with
  | Hv : value_to_str ?v = Some _ |- context [value_to_str ?v] => rewrite Hv; simpl
  | Hb : is_blank ?s = false |- context [is_blank ?s] => rewrite Hb; simpl
  | |- context ["" +:+ ?s] => change ("" +:+ s) with s
  end; try done.

(** A text the dialer can send and the acceptor will not take for missing. *)
Definition sendable (s : string) : Prop := visible s ∧ is_blank s = false.

Record presents (a : InitiatorAdmission) (m : HeaderMap) : Prop := {
  presents_credentials : credentials m = Some (ia_token_id a, ia_token_secret a);
  presents_node : optional_header m PEER_NODE_ID_HEADER = Some (ia_node_id a);
  presents_name : header_str PEER_NODE_NAME_HEADER m = ia_node_name a;
  presents_caps : header_str PEER_CAPABILITIES_HEADER m = Some (ia_requested_capabilities a);
}.

Lemma bearer_visible s : visible s → visible ("Bearer " +:+ s).
Proof. unfold visible. intros Hs. by rewrite str_forallb_app, Hs. Qed.

(** What [dial_headers] sends is what the acceptor reads. *)
Lemma dial_headers_presents authority key a :
  visible authority → visible key → sendable (ia_token_id a) → sendable (ia_token_secret a) →
  sendable (ia_node_id a) → visible (ia_requested_capabilities a) →
  (∀ n, ia_node_name a = Some n → visible n) →
  ∃ m, dial_headers authority key (Some a) = Some m ∧ presents a m ∧
    header_str "sec-websocket-key" m = Some key ∧
    header_str "sec-websocket-version" m = Some "13" ∧
    header_str "sec-websocket-protocol" m = Some SUBPROTOCOL.
Proof.
  intros Hau Hk [Ht Htb] [Hs Hsb] [Hn Hnb] Hc Hname. unfold dial_headers.
  pose proof (bearer_visible _ Hs) as Hbs.
  do 6 (push_header; try (vm_compute; reflexivity)). do 4 push_header.
  destruct (ia_node_name a) as [name|] eqn:Hna; cbn [header_opt];
    [specialize (Hname name eq_refl); push_header|];
    (eexists; split; [done|]; split; [|split_and!; read_header]; split; rewrite ?Hna;
      unfold credentials, bearer_token, optional_header; read_present).
Qed.

(** The 101 response built from a well-formed request passes the check. *)
Lemma upgrade_accepted m key :
  header_str "sec-websocket-key" m = Some key →
  header_str "sec-websocket-version" m = Some "13" →
  header_str "sec-websocket-protocol" m = Some SUBPROTOCOL →
  ∃ resp, build_upgrade_response m = Ok resp ∧ check_upgrade_response key 101 resp = Ok ().
Proof.
  intros Hk Hv Hp. unfold build_upgrade_response. rewrite Hk, Hv, Hp. cbn [ok_or default].
  rewrite bool_decide_eq_true_2 by done. cbn [negb].
  replace (existsb _ _) with true by (vm_compute; reflexivity). cbn [negb].
  pose proof (base64_sha1_visible (key +:+ WS_GUID)) as Ha. fold (ws_accept_key key) in Ha.
  do 4 (push_header; try (vm_compute; reflexivity)). eexists. split; [done|].
  unfold check_upgrade_response. simpl. rewrite hm_get_first, !hm_get_all_append by done.
  rewrite hm_get_all_new. simpl. by rewrite bool_decide_eq_true_2.
Qed.

(** The handshake between two nodes that agree on the credentials. The
    request a link sends is admitted on the configured route with the
    intersection of the requested capabilities and the ceiling, and the 101
    response the acceptor builds passes the dialer's check. *)
Theorem handshake_admits `{UrlLib} (link : PeerLinkConfig) (a : InitiatorAdmission)
    (authority key : string) (connection_id : Uuid) (config : PeerAdmissionConfig)
    (admissions : list PeerAdmissionConfig) (unauthenticated : option UnauthenticatedPeerPolicy) :
  visible authority → visible key →
  initiator_admission (Some link) = Some a →
  sendable (ia_token_id a) → sendable (ia_token_secret a) → sendable (ia_node_id a) →
  (∀ n, ia_node_name a = Some n → sendable n) →
  selects (ia_token_id a, ia_token_secret a) (pl_route_name link) admissions config →
  pinned config (ia_node_id a) →
  (∃ cap, grants (requested_capabilities link) cap ∧ grants (ac_allowed_capabilities config) cap) →
  ∃ m resp, dial_headers authority key (Some a) = Some m ∧
    admit_peer_connection (pl_route_name link) connection_id m admissions unauthenticated =
      Ok (admitted_token_bound (pl_route_name link) (ia_token_id a) connection_id (ia_node_id a)
        (ia_node_name a) (ac_allowed_capabilities config)
        (caps_intersection (caps_intersection (requested_capabilities link) caps_all)
          (ac_allowed_capabilities config))) ∧
    build_upgrade_response m = Ok resp ∧
    check_upgrade_response key 101 resp = Ok ().
Proof.
  intros Hau Hk Ha Ht Hs Hn Hname Hsel Hpin (cap & Hr & Hc).
  assert (ia_requested_capabilities a = caps_to_string (requested_capabilities link)) as Hreq.
  { unfold initiator_admission in Ha. simpl in Ha.
    destruct (pl_token_id link), (pl_token_secret link), (local_node_id link); simplify_eq/=; done. }
  destruct (caps_display_readable (requested_capabilities link)) as [Hvis Hnb].
  destruct (dial_headers_presents authority key a) as (m & Hm & [Hcr Hno Hna Hca] & H1k & H1v & H1p);
    try done; [by rewrite Hreq|by intros n [? _]%Hname|].
  destruct (upgrade_accepted m key) as (resp & Hresp & Hcheck); [done..|].
  exists m, resp. split_and!; try done.
  assert (Hopt : optional_header m PEER_NODE_NAME_HEADER = ia_node_name a).
  { unfold optional_header. rewrite Hna. destruct (ia_node_name a) as [n|]; [|done]. simpl.
    by destruct (Hname n eq_refl) as [_ ->]. }
  apply admit_rules. rewrite <- Hopt.
  apply (admitted_token _ _ _ _ _ (ia_token_id a, ia_token_secret a) config (ia_node_id a)
    (caps_to_string (requested_capabilities link))); try done.
  - unfold optional_header. rewrite Hca, Hreq. simpl. rewrite Hnb; [done|].
    apply caps_display_nonempty. by exists cap.
  - apply parse_display.
  - exists cap. rewrite grants_intersection. auto using caps_all_grants.
Qed.
End handshake.

(** ** Examples *)
Module AdmissionExamples.
Import ListHttp.

#[local] Instance url_lib : UrlLib := {|
  Url := string;
  url_parse := Ok;
  url_scheme := λ _, "http";
  url_host_str := λ u, Some u;
  url_port_or_known_default := λ _, Some 80%N;
  url_username := λ _, "";
  url_password := λ _, None;
  urldecode := Ok;
|}.

#[local] Instance digest_lib : DigestLib := {| base64_sha1 := λ _, "c2hhMQ==" |}.
#[local] Instance digest_laws : DigestLaws.
Proof. split. intros s. vm_compute. reflexivity. Qed.

Definition conn7 : @Uuid http_lib := 7.

Definition gateway_config : PeerAdmissionConfig :=
  mk_admission_config "hub" "t-1" (mk_verifier "s3cret") (Some "node-1")
    (from_capabilities [ResourceRead; StreamSubscribe]).

Definition hub_link : PeerLinkConfig :=
  mk_link_config "http://cloud" "hub" (Some "t-1") (Some (mk_secret "s3cret")) (Some "node-1")
    None (from_capabilities [StreamSubscribe; TransitionInvoke]) proxy_selection_default.

Definition hub_admission : InitiatorAdmission :=
  mk_initiator_admission "t-1" "s3cret" "node-1" None "stream.subscribe,transition.invoke".

Lemma handshake_admits_witness :
  ∃ m resp, dial_headers "cloud" "a2V5" (Some hub_admission) = Some m ∧
    admit_peer_connection "hub" conn7 m [gateway_config] None =
      Ok (admitted_token_bound "hub" "t-1" conn7 "node-1" None
        (ac_allowed_capabilities gateway_config)
        (caps_intersection (caps_intersection (requested_capabilities hub_link) caps_all)
          (ac_allowed_capabilities gateway_config))) ∧
    build_upgrade_response m = Ok resp ∧
    check_upgrade_response "a2V5" 101 resp = Ok ().
Proof.
  apply (handshake_admits hub_link hub_admission "cloud" "a2V5" conn7 gateway_config [gateway_config] None).
  1-2: vm_compute; reflexivity.
  1: reflexivity.
  1-3: split; vm_compute; reflexivity.
  - intros n [=].
  - exists [], []. by split_and!.
  - reflexivity.
  - exists StreamSubscribe. by vm_compute.
Defined.

Lemma admission_denial_status_witness :
  ∃ d, admit_peer_connection "hub" conn7 hm_new [gateway_config] None = Err d ∧
  (deny_status d = UNAUTHORIZED ↔
     ¬ ∃ creds config, credentials hm_new = Some creds ∧ config ∈ [gateway_config] ∧ unlocks creds config) ∧
  (deny_status d ≠ UNAUTHORIZED → deny_status d = FORBIDDEN ∨ deny_status d = BAD_REQUEST).
Proof.
  assert (is_ok (admit_peer_connection "hub" conn7 hm_new [gateway_config] None) = false) as Hok
    by (vm_compute; reflexivity).
  destruct (admit_peer_connection "hub" conn7 hm_new [gateway_config] None) as [c|d] eqn:E; [done|].
  exists d. split; [done|].
  apply (admission_denial_status "hub" conn7 hm_new [gateway_config] None d ltac:(done) E).
Defined.
End AdmissionExamples.
