(* ===== verification/Acceptors.v ===== *)
(** The accepting side of peering ([PeerAcceptors] in [peer.rs]): the table of
    pending upgrades, confirmed senders and admission contexts, and the tasks
    that change it. Each table has its own lock, so a task is a sequence of
    steps that interleave with those of other tasks. The dialer's pending
    confirmations ([PeerInitState] in [http/routes.rs]) are at the end. *)

From S2P Require Import Prelude Capabilities Http Peer.

(** A task of [on_upgraded]; it also names the HTTP/2 connection it drives and
    the sender of that connection. *)
Definition TaskId : Type := nat.

(** Where the task of [on_upgraded] stands. *)
Inductive phase :=
| Spawned         (** before the context is recorded *)
| Handshaking     (** in [drive_acceptor], before the HTTP/2 handshake ends *)
| Confirming      (** the confirmation request is in flight *)
| Registering     (** confirmed, the sender not yet registered *)
| Driven          (** [drive_acceptor] returned [Ok] *)
| Erred           (** [drive_acceptor] returned [Err] *)
| Closing (ok : bool)   (** about to leave the table of pending tasks *)
| Finished (ok : bool).

#[export] Instance phase_eq_dec : EqDecision phase.
Proof. solve_decision. Defined.

Section acceptors.
  Context {hl : HttpLib}.

Record Task := mk_task {
  t_admitted : AdmittedPeerConnection;
  t_phase : phase;
  t_listed : bool;   (** [on_upgraded] has inserted the task into [inner] *)
  t_conn : bool      (** the connection task is running: its cleanup is due *)
}.

Definition t_route (t : Task) : string := ap_route_name (t_admitted t).

Record Acceptors := mk_acceptors {
  inner : gmap string TaskId;
  senders : gmap string TaskId;
  contexts : gmap string AdmittedPeerConnection;
  confirmations : N;
  tasks : gmap TaskId Task;
  statuses : list (TaskId * PeerConnectionStatus)   (** [write_peer], newest first *)
}.

Definition acceptors_new : Acceptors := mk_acceptors ∅ ∅ ∅ 0 ∅ [].

Definition set_task (t : TaskId) (task : Task) (s : Acceptors) : Acceptors :=
  mk_acceptors (inner s) (senders s) (contexts s) (confirmations s) (<[t := task]> (tasks s)) (statuses s).
Definition set_phase (p : phase) (task : Task) : Task :=
  mk_task (t_admitted task) p (t_listed task) (t_conn task).
Definition set_inner f (s : Acceptors) : Acceptors :=
  mk_acceptors (f (inner s)) (senders s) (contexts s) (confirmations s) (tasks s) (statuses s).
Definition set_senders f (s : Acceptors) : Acceptors :=
  mk_acceptors (inner s) (f (senders s)) (contexts s) (confirmations s) (tasks s) (statuses s).
Definition set_contexts f (s : Acceptors) : Acceptors :=
  mk_acceptors (inner s) (senders s) (f (contexts s)) (confirmations s) (tasks s) (statuses s).

(** [write_peer]: the latest status of the connection; with no repositories
    configured the record is dropped, which no other component observes. *)
Definition write_peer (t : TaskId) (status : PeerConnectionStatus) (s : Acceptors) : Acceptors :=
  mk_acceptors (inner s) (senders s) (contexts s) (confirmations s) (tasks s)
    ((t, status) :: statuses s).

Definition should_record_disconnected (drive_succeeded sender_active : bool) : bool :=
  drive_succeeded && negb sender_active.

(** ** The steps *)

(** [on_upgraded]: [tokio::spawn]. *)
Definition on_upgraded_spawn (t : TaskId) (a : AdmittedPeerConnection) (s : Acceptors)
    : option Acceptors :=
  match tasks s !! t with
  | Some _ => None
  | None => Some (set_task t (mk_task a Spawned false false) s)
  end.

(** [on_upgraded]: [inner.insert(peer_name, task)], after the spawn. *)
Definition on_upgraded_insert (t : TaskId) (s : Acceptors) : option Acceptors :=
  task ← tasks s !! t;
  if t_listed task then None
  else Some (set_inner <[t_route task := t]>
    (set_task t (mk_task (t_admitted task) (t_phase task) true (t_conn task)) s)).

(** The task records its context. *)
Definition task_context (t : TaskId) (s : Acceptors) : option Acceptors :=
  task ← tasks s !! t;
  match t_phase task with
  | Spawned => Some (set_contexts <[t_route task := t_admitted task]>
      (set_task t (set_phase Handshaking task) s))
  | _ => None
  end.

(** [drive_acceptor]: the handshake; on success the connection task runs. *)
Definition drive_handshake (t : TaskId) (ok : bool) (s : Acceptors) : option Acceptors :=
  task ← tasks s !! t;
  match t_phase task with
  | Handshaking =>
      Some (set_task t (if ok then mk_task (t_admitted task) Confirming (t_listed task) true
                        else set_phase Erred task) s)
  | _ => None
  end.

(** [drive_acceptor]: the answer to [GET /_initiate_peer/{id}]; [ok] is a 200
    with a readable body. *)
Definition drive_confirm (t : TaskId) (ok : bool) (s : Acceptors) : option Acceptors :=
  task ← tasks s !! t;
  match t_phase task with
  | Confirming => Some (set_task t (set_phase (if ok then Registering else Erred) task) s)
  | _ => None
  end.

(** [drive_acceptor]: the sender is registered. *)
Definition drive_register (t : TaskId) (s : Acceptors) : option Acceptors :=
  task ← tasks s !! t;
  match t_phase task with
  | Registering => Some (set_senders <[t_route task := t]> (set_task t (set_phase Driven task) s))
  | _ => None
  end.

(** The [Ok] arm: the status, the confirmation count. *)
Definition task_confirmed (t : TaskId) (s : Acceptors) : option Acceptors :=
  task ← tasks s !! t;
  match t_phase task with
  | Driven =>
      let s := write_peer t Connected (set_task t (set_phase (Closing true) task) s) in
      Some (mk_acceptors (inner s) (senders s) (contexts s) (confirmations s + 1)
        (tasks s) (statuses s))
  | _ => None
  end.

(** The [Err] arm: the context is withdrawn. *)
Definition task_failed (t : TaskId) (s : Acceptors) : option Acceptors :=
  task ← tasks s !! t;
  match t_phase task with
  | Erred => Some (write_peer t Failed (set_contexts (delete (t_route task))
      (set_task t (set_phase (Closing false) task) s)))
  | _ => None
  end.

(** The end of the task: it leaves [inner], which stays locked while the
    senders are consulted. *)
Definition task_finish (t : TaskId) (s : Acceptors) : option Acceptors :=
  task ← tasks s !! t;
  match t_phase task with
  | Closing ok =>
      let s := set_inner (delete (t_route task)) (set_task t (set_phase (Finished ok) task) s) in
      Some (if should_record_disconnected ok (bool_decide (is_Some (senders s !! t_route task)))
            then write_peer t Disconnected s else s)
  | _ => None
  end.

(** The connection ended: sender and context are removed by name, the
    context while the senders are locked. *)
Definition conn_cleanup (t : TaskId) (s : Acceptors) : option Acceptors :=
  task ← tasks s !! t;
  if t_conn task then
    Some (set_contexts (delete (t_route task)) (set_senders (delete (t_route task))
      (set_task t (mk_task (t_admitted task) (t_phase task) (t_listed task) false) s)))
  else None.

(** One step of one task. *)
Inductive acceptor_op :=
| OpSpawn (t : TaskId) (a : AdmittedPeerConnection)
| OpInsert (t : TaskId)
| OpContext (t : TaskId)
| OpHandshake (t : TaskId) (ok : bool)
| OpConfirm (t : TaskId) (ok : bool)
| OpRegister (t : TaskId)
| OpConfirmed (t : TaskId)
| OpFailed (t : TaskId)
| OpFinish (t : TaskId)
| OpCleanup (t : TaskId).

Definition exec (op : acceptor_op) (s : Acceptors) : option Acceptors :=
  match op with
  | OpSpawn t a => on_upgraded_spawn t a s
  | OpInsert t => on_upgraded_insert t s
  | OpContext t => task_context t s
  | OpHandshake t ok => drive_handshake t ok s
  | OpConfirm t ok => drive_confirm t ok s
  | OpRegister t => drive_register t s
  | OpConfirmed t => task_confirmed t s
  | OpFailed t => task_failed t s
  | OpFinish t => task_finish t s
  | OpCleanup t => conn_cleanup t s
  end.

(** ** [PeerSenders for PeerAcceptors] *)

Definition sender (name : string) (s : Acceptors) : option TaskId := senders s !! name.
Definition sender_names (s : Acceptors) : list string := (map_to_list (senders s)).*1.
Definition peer_context (name : string) (s : Acceptors) : option AdmittedPeerConnection :=
  contexts s !! name.

(** [has_active_peer] reads the senders, releases their lock, and then reads
    the pending tasks: two instants. *)
Definition has_active_peer (name : string) (first second : Acceptors) : bool :=
  if bool_decide (is_Some (senders first !! name)) then true
  else bool_decide (is_Some (inner second !! name)).

Definition active (s : Acceptors) : list string := (map_to_list (inner s)).*1.
Definition confirmation_count (s : Acceptors) : N := confirmations s.

(** ** Reachable states *)

Definition acceptor_step (s s' : Acceptors) : Prop := ∃ op, exec op s = Some s'.

(** A task that is over: nothing of it is left to run. *)
Definition over (task : Task) : Prop :=
  (t_phase task = Finished true ∨ t_phase task = Finished false) ∧
  t_listed task = true ∧ t_conn task = false.

(** No earlier tunnel of the route is left when a new one starts. *)
Definition one_at_a_time (op : acceptor_op) (s : Acceptors) : Prop :=
  match op with
  | OpSpawn _ a => map_Forall (λ _ task, t_route task = ap_route_name a → over task) (tasks s)
  | _ => True
  end.

#[export] Instance over_dec task : Decision (over task).
Proof. unfold over. apply _. Defined.
#[export] Instance one_at_a_time_dec op s : Decision (one_at_a_time op s).
Proof. destruct op; apply _. Defined.

Definition ordered_step (s s' : Acceptors) : Prop :=
  ∃ op, one_at_a_time op s ∧ exec op s = Some s'.

(** Phases after the peer answered the confirmation request with 200. *)
Definition confirmed (p : phase) : Prop :=
  p = Registering ∨ p = Driven ∨ p = Closing true ∨ p = Finished true.

(** What a recorded status says about its task. *)
Definition status_means (st : PeerConnectionStatus) (p : phase) : Prop :=
  match st with
  | Connected => p = Closing true ∨ p = Finished true
  | Failed => p = Closing false ∨ p = Finished false
  | Disconnected => p = Finished true
  | Opening => False
  end.

(** ** Every interleaving *)

Record acceptors_ok (s : Acceptors) : Prop := {
  ok_contexts n a : contexts s !! n = Some a →
    ap_route_name a = n ∧ ∃ t task, tasks s !! t = Some task ∧ t_admitted task = a;
  ok_senders n t : senders s !! n = Some t →
    ∃ task, tasks s !! t = Some task ∧ t_route task = n ∧ confirmed (t_phase task);
  ok_inner n t : inner s !! n = Some t → ∃ task, tasks s !! t = Some task ∧ t_route task = n;
  ok_statuses t st : (t, st) ∈ statuses s →
    ∃ task, tasks s !! t = Some task ∧ status_means st (t_phase task);
}.

(** A step of task [t] keeps its admission and only moves it forward, and adds
    at most its own entries to the tables. *)
Lemma acceptors_ok_update t task task' s s' :
  acceptors_ok s → tasks s !! t = Some task → tasks s' = <[t := task']> (tasks s) →
  t_admitted task' = t_admitted task →
  (confirmed (t_phase task) → confirmed (t_phase task')) →
  (∀ st, status_means st (t_phase task) → status_means st (t_phase task')) →
  (∀ n a, contexts s' !! n = Some a → contexts s !! n = Some a ∨ n = t_route task ∧ a = t_admitted task) →
  (∀ n u, senders s' !! n = Some u →
     senders s !! n = Some u ∨ n = t_route task ∧ u = t ∧ confirmed (t_phase task')) →
  (∀ n u, inner s' !! n = Some u → inner s !! n = Some u ∨ n = t_route task ∧ u = t) →
  (∀ u st, (u, st) ∈ statuses s' → (u, st) ∈ statuses s ∨ u = t ∧ status_means st (t_phase task')) →
  acceptors_ok s'.
Proof.
  intros [Hc Hs Hi Hst] Ht Ets Ha Hconf Hmean Hc' Hs' Hi' Hst'.
  assert (Hr : t_route task' = t_route task) by (unfold t_route; by rewrite Ha).
  assert (Hlook : ∀ u tk, tasks s !! u = Some tk → ∃ tk', tasks s' !! u = Some tk' ∧
    t_admitted tk' = t_admitted tk ∧ (confirmed (t_phase tk) → confirmed (t_phase tk')) ∧
    (∀ st, status_means st (t_phase tk) → status_means st (t_phase tk'))).
  { intros u tk Hu. rewrite Ets. destruct (decide (u = t)) as [->|Hne].
    - rewrite lookup_insert_eq. simplify_eq. by exists task'.
    - rewrite lookup_insert_ne by done. by exists tk. }
  split.
  - intros n a [(? & u & tk & Hu & <-)%Hc|[-> ->]]%Hc'.
    + split; [done|]. destruct (Hlook u tk Hu) as (tk' & ? & ? & _). by exists u, tk'.
    + split; [done|]. destruct (Hlook t task Ht) as (tk' & ? & ? & _). by exists t, tk'.
  - intros n u [(tk & Hu & <- & Hcf)%Hs|(-> & -> & Hcf)]%Hs'.
    + destruct (Hlook u tk Hu) as (tk' & ? & Had & Hcf' & _). exists tk'.
      unfold t_route. rewrite Had. auto.
    + exists task'. rewrite Ets, lookup_insert_eq. auto.
  - intros n u [(tk & Hu & <-)%Hi|[-> ->]]%Hi'.
    + destruct (Hlook u tk Hu) as (tk' & ? & Had & _). exists tk'. unfold t_route. by rewrite Had.
    + exists task'. by rewrite Ets, lookup_insert_eq.
  - intros u st [(tk & Hu & Hm)%Hst|(-> & Hm)]%Hst'.
    + destruct (Hlook u tk Hu) as (tk' & ? & _ & _ & Hm'). exists tk'. auto.
    + exists task'. by rewrite Ets, lookup_insert_eq.
Qed.

Lemma acceptors_ok_spawn t a s s' :
  acceptors_ok s → on_upgraded_spawn t a s = Some s' → acceptors_ok s'.
Proof.
  unfold on_upgraded_spawn. intros [Hc Hs Hi Hst] E. destruct (tasks s !! t) eqn:Et; [done|].
  injection E as <-.
  assert (Hlook : ∀ u tk, tasks s !! u = Some tk →
    <[t := mk_task a Spawned false false]> (tasks s) !! u = Some tk).
  { intros u tk Hu. rewrite lookup_insert_ne; [done|]. by intros ->; simplify_eq. }
  split; simpl.
  - intros n b (? & u & tk & Hu & ?)%Hc. eauto 10.
  - intros n u (tk & Hu & ? & ?)%Hs. eauto.
  - intros n u (tk & Hu & ?)%Hi. eauto.
  - intros u st (tk & Hu & ?)%Hst. eauto.
Qed.

(** The side conditions of [acceptors_ok_update] for one operation. *)
Ltac table_update :=
  repeat match goal with
  | H : <[_ := _]> _ !! _ = Some _ |- _ => apply lookup_insert_Some in H as [[<- <-]|[_ H]]
  | H : delete _ _ !! _ = Some _ |- _ => apply lookup_delete_Some in H as [_ H]
  | H : _ ∈ _ :: _ |- _ => apply elem_of_cons in H as [[= -> ->]|H]
  end.

Ltac step_ok :=
  eapply acceptors_ok_update; try done; simpl; intros; table_update;
  repeat match goal with H : t_phase _ = _ |- _ => rewrite H in * end;
  repeat match goal with st : PeerConnectionStatus |- _ => destruct st; simpl in * end;
  unfold confirmed in *; try naive_solver.

Lemma acceptors_ok_step s s' : acceptor_step s s' → acceptors_ok s → acceptors_ok s'.
Proof.
  intros [op E] Hok.
  destruct op as [t a|t|t|t ok|t ok|t|t|t|t|t]; simpl in E; [by eapply acceptors_ok_spawn|..];
    apply bind_Some in E as (task & Ht & E); inv_matches; step_ok.
  right. split; [done|]. by destruct ok.
Qed.

Lemma acceptors_ok_reachable s : rtc acceptor_step acceptors_new s → acceptors_ok s.
Proof.
  apply rtc_invariant; [intros ???; by apply acceptors_ok_step|].
  split; simpl; intros *; rewrite ?lookup_empty; try done. by intros ?%not_elem_of_nil.
Qed.


(** ** One tunnel at a time per route *)

(** Drive succeeded: the sender has been registered. *)
Definition registered (p : phase) : Prop :=
  p = Driven ∨ p = Closing true ∨ p = Finished true.

(** What the tables hold for the task in charge of a route. *)
Definition in_charge (t : TaskId) (task : Task) (ctx : option AdmittedPeerConnection)
    (sndr : option TaskId) : Prop :=
  match t_phase task with
  | Spawned => ctx = None ∧ t_conn task = false
  | Handshaking => ctx = Some (t_admitted task) ∧ t_conn task = false
  | Confirming | Registering =>
      ctx = if t_conn task then Some (t_admitted task) else None
  | Erred => t_conn task = true → ctx = Some (t_admitted task)
  | Driven | Closing true | Finished true =>
      if t_conn task then ctx = Some (t_admitted task) ∧ sndr = Some t else ctx = None
  | Closing false | Finished false => ctx = None
  end.

Record route_ok (s : Acceptors) (n : string) : Prop := {
  ro_unique t1 t2 k1 k2 : tasks s !! t1 = Some k1 → tasks s !! t2 = Some k2 →
    t_route k1 = n → t_route k2 = n → ¬ over k1 → ¬ over k2 → t1 = t2;
  ro_charge t task : tasks s !! t = Some task → t_route task = n → ¬ over task →
    in_charge t task (contexts s !! n) (senders s !! n);
  ro_idle : (∀ t task, tasks s !! t = Some task → t_route task = n → over task) →
    contexts s !! n = None;
}.

Lemma in_charge_over t task ctx sndr : over task → in_charge t task ctx sndr → ctx = None.
Proof. unfold in_charge. intros ([->| ->] & _ & Hc); rewrite ?Hc; naive_solver. Qed.

(** A step of the task in charge. *)
Lemma route_ok_update t task task' s s' :
  (∀ n, route_ok s n) → tasks s !! t = Some task → ¬ over task →
  tasks s' = <[t := task']> (tasks s) → t_admitted task' = t_admitted task →
  (∀ n, n ≠ t_route task → contexts s' !! n = contexts s !! n ∧ senders s' !! n = senders s !! n) →
  (in_charge t task (contexts s !! t_route task) (senders s !! t_route task) →
   in_charge t task' (contexts s' !! t_route task) (senders s' !! t_route task)) →
  ∀ n, route_ok s' n.
Proof.
  intros Hok Ht Hno Ets Ha Hoth Hin n.
  assert (Hr : t_route task' = t_route task) by (unfold t_route; by rewrite Ha).
  specialize (Hin (ro_charge _ _ (Hok _) t task Ht eq_refl Hno)).
  assert (Honly : ∀ u k, tasks s' !! u = Some k → t_route k = t_route task → ¬ over k → u = t ∧ k = task').
  { intros u k. rewrite Ets, lookup_insert_Some. intros [[<- <-]|[Hne Hu]] Hk Hk'; [done|].
    destruct Hne. by apply (ro_unique _ _ (Hok (t_route task)) t u task k). }
  assert (Hlook : ∀ u k, t_route k ≠ t_route task → tasks s' !! u = Some k ↔ tasks s !! u = Some k).
  { intros u k Hk. rewrite Ets, lookup_insert_Some. split.
    - intros [[<- <-]|[_ ?]]; [congruence|done].
    - intros Hu. right. split; [|done]. by intros ->; simplify_eq. }
  destruct (decide (n = t_route task)) as [->|Hn].
  - split.
    + intros t1 t2 k1 k2 H1 H2 R1 R2 O1 O2.
      destruct (Honly t1 k1 H1 R1 O1), (Honly t2 k2 H2 R2 O2). congruence.
    + intros u k Hu Hk Ho. by destruct (Honly u k Hu Hk Ho) as [-> ->].
    + intros Hall. eapply in_charge_over; [|exact Hin]. apply (Hall t); [|done].
      by rewrite Ets, lookup_insert_eq.
  - destruct (Hoth n Hn) as [Ec Es]. destruct (Hok n) as [Hu Hc Hi]. split.
    + intros t1 t2 k1 k2 H1 H2 R1 R2. rewrite Hlook in H1, H2 by congruence. by apply (Hu t1 t2 k1 k2).
    + intros u k Hk R. rewrite Hlook in Hk by congruence. rewrite Ec, Es. by apply Hc.
    + intros Hall. rewrite Ec. apply Hi. intros u k Hk R. apply (Hall u); [|done].
      rewrite Hlook by congruence. done.
Qed.

Lemma route_ok_spawn t a s s' :
  (∀ n, route_ok s n) → one_at_a_time (OpSpawn t a) s → on_upgraded_spawn t a s = Some s' →
  ∀ n, route_ok s' n.
Proof.
  unfold on_upgraded_spawn. simpl. intros Hok Hone E n. destruct (tasks s !! t) eqn:Et; [done|].
  injection E as <-. destruct (Hok n) as [Hu Hc Hi].
  assert (Hfresh : n = ap_route_name a → ∀ u k, tasks s !! u = Some k → t_route k = n → over k).
  { intros -> u k Hk R. by eapply Hone. }
  split; simpl.
  - intros t1 t2 k1 k2. rewrite !lookup_insert_Some. unfold t_route.
    intros [[<- <-]|[? H1]] [[<- <-]|[? H2]] R1 R2 O1 O2; simpl in *; try done.
    + by destruct O2; eapply Hfresh.
    + by destruct O1; eapply Hfresh.
    + by apply (Hu t1 t2 k1 k2).
  - intros u k. rewrite lookup_insert_Some. intros [[<- <-]|[? H1]] R O; [|by apply Hc].
    split; [|done]. apply Hi. by apply Hfresh.
  - intros Hall. apply Hi. intros u k Hk R. apply (Hall u); [|done].
    rewrite lookup_insert_ne; [done|]. by intros ->; simplify_eq.
Qed.

Lemma not_over_step op s s' t task :
  exec op s = Some s' → tasks s !! t = Some task →
  match op with
  | OpSpawn _ _ => False
  | OpInsert u | OpContext u | OpHandshake u _ | OpConfirm u _ | OpRegister u | OpConfirmed u
  | OpFailed u | OpFinish u | OpCleanup u => u = t
  end → ¬ over task.
Proof.
  intros E Ht Hop. destruct op; simpl in Hop; try done; subst; simpl in E;
    apply bind_Some in E as (k & Hk & E); rewrite Ht in Hk; injection Hk as <-;
    intros ([Hp|Hp] & Hl & Hc); rewrite ?Hp, ?Hl, ?Hc in E; done.
Qed.

Lemma route_ok_step s s' : ordered_step s s' → (∀ n, route_ok s n) → ∀ n, route_ok s' n.
Proof.
  intros (op & Hone & E) Hok.
  assert (E' := E). destruct op as [t a|t|t|t ok|t ok|t|t|t|t|t]; [by eapply route_ok_spawn|..];
    simpl in E; apply bind_Some in E as (task & Ht & E);
    pose proof (not_over_step _ _ _ _ _ E' Ht eq_refl) as Hno; clear E';
    inv_matches; (eapply route_ok_update; try done; simpl; intros);
    rewrite ?lookup_insert_eq, ?lookup_delete_eq, ?lookup_insert_ne, ?lookup_delete_ne by done; try done;
    unfold in_charge in *; simpl;
    repeat match goal with H : t_phase _ = _ |- _ => rewrite H in * end; simpl in *;
    destruct (t_conn task); try destruct ok; try destruct (t_phase task) as [| | | | | |[]|[]];
    intuition congruence.
Qed.

Lemma route_ok_reachable s : rtc ordered_step acceptors_new s → ∀ n, route_ok s n.
Proof.
  apply (rtc_invariant _ (λ s, ∀ n, route_ok s n)); [intros ???; by apply route_ok_step|].
  intros n. split; simpl; intros *; rewrite ?lookup_empty; done.
Qed.

(** When tunnels of one route follow each other, a tunnel that is confirmed
    and up can be reached and is attributed to its own admission: its sender is
    the registered one and the context that gates and labels its requests is
    the one negotiated in its handshake; a route without a tunnel has no
    context. *)
Theorem ordered_tunnels_consistent (s : Acceptors) :
  rtc ordered_step acceptors_new s →
  (∀ t task, tasks s !! t = Some task → t_conn task = true → registered (t_phase task) →
     sender (t_route task) s = Some t ∧ peer_context (t_route task) s = Some (t_admitted task)) ∧
  (∀ name, (∀ t task, tasks s !! t = Some task → t_route task = name → over task) →
     peer_context name s = None).
Proof.
  intros Hok. pose proof (route_ok_reachable s Hok) as Hr. split.
  - intros t task Ht Hc Hp. pose proof (ro_charge _ _ (Hr (t_route task)) t task Ht eq_refl) as Hin.
    unfold in_charge in Hin. rewrite Hc in Hin.
    assert (¬ over task) as Hno by (intros (_ & _ & ?); congruence). specialize (Hin Hno).
    destruct Hp as [Hp|[Hp|Hp]]; rewrite Hp in Hin; by destruct Hin.
  - intros name Hall. apply (ro_idle _ _ (Hr name) Hall).
Qed.

(** ** Executions as lists of operations *)

Fixpoint run_ops (ops : list acceptor_op) (s : Acceptors) : option Acceptors :=
  match ops with
  | [] => Some s
  | op :: ops' => s' ← exec op s; run_ops ops' s'
  end.

Lemma run_ops_reachable ops s s' : run_ops ops s = Some s' → rtc acceptor_step s s'.
Proof.
  revert s. induction ops as [|op ops IH]; intros s; simpl; [by intros [= ->]|].
  intros (s1 & E & H)%bind_Some. eapply rtc_l; [by exists op|by apply IH].
Qed.

Fixpoint run_ordered (ops : list acceptor_op) (s : Acceptors) : option Acceptors :=
  match ops with
  | [] => Some s
  | op :: ops' =>
      if decide (one_at_a_time op s) then s' ← exec op s; run_ordered ops' s' else None
  end.

Lemma run_ordered_reachable ops s s' : run_ordered ops s = Some s' → rtc ordered_step s s'.
Proof.
  revert s. induction ops as [|op ops IH]; intros s; simpl; [by intros [= ->]|].
  destruct (decide _); [|done].
  intros (s1 & E & H)%bind_Some. eapply rtc_l; [by exists op|by apply IH].
Qed.

(** An upgrade passes the duplicate check of [peers_upgrade], here without any
    step between its two reads. *)
Definition duplicate_checked (op : acceptor_op) (s : Acceptors) : bool :=
  match op with
  | OpSpawn _ a => negb (has_active_peer (ap_route_name a) s s)
  | _ => true
  end.

Definition checked_step (s s' : Acceptors) : Prop :=
  ∃ op, duplicate_checked op s = true ∧ exec op s = Some s'.

Fixpoint run_checked (ops : list acceptor_op) (s : Acceptors) : option Acceptors :=
  match ops with
  | [] => Some s
  | op :: ops' =>
      if duplicate_checked op s then s' ← exec op s; run_checked ops' s' else None
  end.

Lemma run_checked_reachable ops s s' : run_checked ops s = Some s' → rtc checked_step s s'.
Proof.
  revert s. induction ops as [|op ops IH]; intros s; simpl; [by intros [= ->]|].
  destruct (duplicate_checked op s) eqn:Hd; [|done].
  intros (s1 & E & H)%bind_Some. eapply rtc_l; [by exists op|by apply IH].
Qed.
End acceptors.

(** ** Examples *)
Module AcceptorsExamples.
Import ListHttp.

Definition hub (connection_id : nat) : AdmittedPeerConnection :=
  admitted_token_bound "hub" "t-1" (connection_id : @Uuid http_lib) "node-1" None caps_all caps_all.

(** A tunnel that is confirmed and stays up. *)
Definition connect (t : TaskId) : list acceptor_op :=
  [OpSpawn t (hub t); OpInsert t; OpContext t; OpHandshake t true; OpConfirm t true; OpRegister t;
   OpConfirmed t; OpFinish t].

Lemma run_checked_some ops (check : Acceptors → bool) :
  match run_checked ops acceptors_new with Some s => check s | None => false end = true →
  ∃ s, rtc checked_step acceptors_new s ∧ check s = true.
Proof.
  destruct (run_checked ops acceptors_new) as [s|] eqn:E; [|done].
  intros H. exists s. split; [|done]. by apply (run_checked_reachable ops).
Qed.

Definition dead_sender (s : Acceptors) : bool :=
  bool_decide (map_Forall (λ _ task, (t_phase task = Finished true ∨ t_phase task = Finished false) ∧
    t_listed task = true ∧ t_conn task = false) (tasks s)) &&
  has_active_peer "hub" s s && bool_decide (sender "hub" s = Some 0) &&
  negb (bool_decide (is_Some (peer_context "hub" s))).

(** A connection that ends between the peer's confirmation and the
    registration of its sender leaves a dead sender behind: no task is left,
    there is no context to forward under, and yet the duplicate check reports
    the route as connected, which refuses every reconnect. *)
Theorem dead_sender_blocks_route :
  ∃ s, rtc checked_step acceptors_new s ∧
    (∀ t task, tasks s !! t = Some task → over task) ∧
    sender "hub" s = Some 0 ∧ peer_context "hub" s = None ∧
    has_active_peer "hub" s s = true.
Proof.
  destruct (run_checked_some [OpSpawn 0 (hub 0); OpInsert 0; OpContext 0; OpHandshake 0 true;
    OpConfirm 0 true; OpCleanup 0; OpRegister 0; OpConfirmed 0; OpFinish 0] dead_sender)
    as (s & Hs & Hc); [vm_compute; reflexivity|].
  exists s. unfold dead_sender in Hc. bool_to_prop. destruct Hc as (((Ho & Ha) & Hse) & Hct).
  split_and!; try done. by apply eq_None_not_Some.
Qed.

Definition evicted (s : Acceptors) : bool :=
  match tasks s !! 1 with
  | Some task => t_conn task && bool_decide (t_phase task = Finished true)
  | None => false
  end && negb (bool_decide (is_Some (sender "hub" s))) &&
  negb (bool_decide (is_Some (peer_context "hub" s))).

(** The cleanup of a connection removes the tables' entries by route, not
    by connection. A first connection whose confirmation fails leaves the
    table of pending tasks before its transport ends; the next tunnel passes
    the duplicate check and is confirmed, and the late cleanup of the first
    one then removes its sender and context: a tunnel that is up and confirmed
    can no longer be reached. *)
Theorem stale_cleanup_evicts_tunnel :
  ∃ s task, rtc checked_step acceptors_new s ∧ tasks s !! 1 = Some task ∧
    t_conn task = true ∧ registered (t_phase task) ∧
    sender (t_route task) s = None ∧ peer_context (t_route task) s = None.
Proof.
  destruct (run_checked_some ([OpSpawn 0 (hub 0); OpInsert 0; OpContext 0; OpHandshake 0 true;
    OpConfirm 0 false; OpFailed 0; OpFinish 0] ++ connect 1 ++ [OpCleanup 0])
    (λ s, evicted s && match tasks s !! 1 with Some k => String.eqb (t_route k) "hub" | None => false end))
    as (s & Hs & Hc); [vm_compute; reflexivity|].
  unfold evicted in Hc. destruct (tasks s !! 1) as [task|] eqn:Et; [|done].
  bool_to_prop. destruct Hc as ((((H1 & H2) & H3) & H4) & Hr%String.eqb_eq).
  exists s, task. unfold registered. rewrite Hr. split_and!; auto; by apply eq_None_not_Some.
Qed.

Lemma connect_reachable : ∃ s, run_ops (connect 0) acceptors_new = Some s ∧
  bool_decide (is_Some (sender "hub" s)) = true.
Proof.
  assert (match run_ops (connect 0) acceptors_new with
    | Some s => bool_decide (is_Some (sender "hub" s)) | None => false end = true) as H
    by (vm_compute; reflexivity).
  destruct (run_ops (connect 0) acceptors_new) as [s|]; [eauto|done].
Qed.


(** The same tunnel, with the discipline of [ordered_step] observed. *)
Lemma connect_ordered : ∃ s, rtc ordered_step acceptors_new s ∧ is_Some (sender "hub" s).
Proof.
  assert (match run_ordered (connect 0) acceptors_new with
    | Some s => bool_decide (is_Some (sender "hub" s)) | None => false end = true) as H
    by (vm_compute; reflexivity).
  destruct (run_ordered (connect 0) acceptors_new) as [s|] eqn:E; [|done].
  exists s. split; [by apply (run_ordered_reachable (connect 0))|by apply bool_decide_eq_true in H].
Qed.

Lemma ordered_tunnels_consistent_witness :
  ∃ s, is_Some (sender "hub" s) ∧
  (∀ t task, tasks s !! t = Some task → t_conn task = true → registered (t_phase task) →
     sender (t_route task) s = Some t ∧ peer_context (t_route task) s = Some (t_admitted task)).
Proof.
  destruct connect_ordered as (s & Hs & Hb). exists s. split; [done|].
  apply (ordered_tunnels_consistent s Hs).
Defined.
End AcceptorsExamples.

(** ** The dialer's pending confirmations *)
Section peer_init.
  Context {hl : HttpLib} `{!EqDecision Uuid, !Countable Uuid}.

Definition PeerInitState : Type := gset Uuid.

Definition register (id : Uuid) (s : PeerInitState) : PeerInitState := {[id]} ∪ s.

(** Whether the id was pending, and the state without it. *)
Definition consume (id : Uuid) (s : PeerInitState) : bool * PeerInitState :=
  (bool_decide (id ∈ s), s ∖ {[id]}).

(** [GET /_initiate_peer/{id}]: status, text and the new state. *)
Definition initiate_peer (id : string) (s : PeerInitState) : N * string * PeerInitState :=
  match uuid_parse_str id with
  | None => (400%N, "invalid id", s)
  | Some id =>
      let '(known, s') := consume id s in
      if known then (200%N, "ok", s') else (404%N, "unknown connection id", s')
  end.

(** [attempt_once]: the id is pending exactly while the attempt runs. *)
Definition attempt_once {R} (connection_id : Uuid)
    (attempt_registered : PeerInitState → R * PeerInitState) (s : PeerInitState) : R * PeerInitState :=
  let '(result, s') := attempt_registered (register connection_id s) in
  (result, (consume connection_id s').2).

(** A confirmation succeeds once per registered connection id. *)
Lemma initiate_once (id : Uuid) (s : PeerInitState) `{!HttpLaws} :
  (initiate_peer (uuid_to_string id) (register id s)).1 = (200%N, "ok") ∧
  (initiate_peer (uuid_to_string id) (initiate_peer (uuid_to_string id) (register id s)).2).1 =
    (404%N, "unknown connection id").
Proof.
  unfold initiate_peer, register, consume. rewrite uuid_roundtrip. simpl.
  rewrite bool_decide_eq_true_2 by set_solver. simpl.
  by rewrite bool_decide_eq_false_2 by set_solver.
Qed.
End peer_init.
