(* ===== verification/Gateway.v ===== *)
(** The gateway ([http/routes.rs], [runtime/context.rs]): admission of peer
    upgrades, resolution of a caller from its per-request credentials, the
    capability gates, the request that crosses the forwarding hop, and what
    the receiving node makes of it. The handlers query the live peer table
    between awaits, so they are programs whose queries are answered one after
    the other by a table that may have changed in between. *)

From S2P Require Import Prelude F64 Json Query Lexer Parser Topic.
From S2P Require Import Capabilities Http Peer Admission Acceptors.

Definition RENDER_CAPABILITIES_HEADER : string := "boardwalk-render-capabilities".
Definition CALLER_PEER_ID_HEADER : string := "boardwalk-caller-peer-id".
Definition CALLER_ROUTE_HEADER : string := "boardwalk-caller-route".
Definition CALLER_TOKEN_ID_HEADER : string := "boardwalk-caller-token-id".
Definition CALLER_NODE_ID_HEADER : string := "boardwalk-caller-node-id".
Definition CALLER_NODE_NAME_HEADER : string := "boardwalk-caller-node-name".
Definition CALLER_CAPABILITIES_HEADER : string := "boardwalk-caller-capabilities".
Definition CALLER_CONNECTION_ID_HEADER : string := "boardwalk-caller-connection-id".

Inductive Method := GET | POST | OtherMethod (name : string).

#[export] Instance method_eq_dec : EqDecision Method.
Proof. solve_decision. Defined.

(** ** Caller provenance ([runtime/context.rs]) *)

Record AdmittedPeer := mk_admitted_peer {
  adm_route_name : string;
  adm_peer_id : string;
  adm_token_id : option string;
  adm_node_id : option string;
  adm_display_name : option string;
  adm_capabilities : list PeerCapability;
  adm_connection_id : string
}.

Record CallerProvenance := mk_provenance {
  forwarded_by : option string;
  prov_peer : option AdmittedPeer
}.

Definition provenance_default : CallerProvenance := mk_provenance None None.
Definition forwarded (gateway : string) (peer : option AdmittedPeer) : CallerProvenance :=
  mk_provenance (Some gateway) peer.
Definition is_local (p : CallerProvenance) : bool := negb (bool_decide (is_Some (forwarded_by p))).
Definition has_capability (cap : PeerCapability) (p : AdmittedPeer) : bool :=
  bool_decide (cap ∈ adm_capabilities p).

Section gateway.
  Context {hl : HttpLib} {tl : TopicLibs}.

(** [caller_provenance]; [tunnel_leg] is the presence of the marker. *)
Definition caller_provenance (tunnel_leg : bool) (headers : HeaderMap) : CallerProvenance :=
  if negb tunnel_leg then provenance_default
  else
    let header name := header_str name headers in
    match header "boardwalk-forwarded-by" with
    | None => provenance_default
    | Some gateway =>
        let caller :=
          peer_id ← header CALLER_PEER_ID_HEADER;
          capabilities ←
            match header CALLER_CAPABILITIES_HEADER with
            | Some raw => match parse_list raw with
                          | Ok caps => Some (to_capabilities caps)
                          | Err _ => None
                          end
            | None => Some []
            end;
          Some (mk_admitted_peer (default "" (header CALLER_ROUTE_HEADER)) peer_id
            (header CALLER_TOKEN_ID_HEADER) (header CALLER_NODE_ID_HEADER)
            (header CALLER_NODE_NAME_HEADER) capabilities
            (default "" (header CALLER_CONNECTION_ID_HEADER))) in
        forwarded gateway caller
    end.

(** ** Intents *)

Inductive ProxyIntent := Read | List | QueryIntent | Subscribe | Invoke | Register | Metadata | Admin.

Definition has_query_param (query : option string) (key : string) : bool :=
  match query with
  | Some q => existsb (λ nv, String.eqb nv.1 key) (form_urlencoded_parse q)
  | None => false
  end.

Definition read_or_query (query : option string) : ProxyIntent :=
  if has_query_param query "ql" then QueryIntent else Read.
Definition list_or_query (query : option string) : ProxyIntent :=
  if has_query_param query "ql" then QueryIntent else List.

(** The arms of [from_parts] over the path below [/servers/{peer}]. *)
Definition intent_of (method : Method) (rest : list string) (query : option string)
    : option ProxyIntent :=
  match method, rest with
  | GET, [] => Some (read_or_query query)
  | GET, [a] =>
      if String.eqb a "resources" then Some (list_or_query query)
      else if String.eqb a "meta" then Some Metadata
      else if String.eqb a "events" && has_query_param query "topic" then Some Subscribe
      else if String.eqb a "peer-management" then Some Admin
      else None
  | POST, [a] => if String.eqb a "resources" then Some Register else None
  | GET, [a; b] =>
      if String.eqb a "resources" && negb (str_is_empty b) then Some Read
      else if String.eqb a "meta" then Some Metadata
      else None
  | POST, [a; b] =>
      if String.eqb a "events" && String.eqb b "unsubscribe" then Some Subscribe else None
  | POST, [a; b; c; d] =>
      if String.eqb a "resources" && String.eqb c "transitions" && negb (str_is_empty b)
         && negb (str_is_empty d)
      then Some Invoke else None
  | _, _ => None
  end.

Definition from_parts (method : Method) (path : string) (query : option string)
    : option ProxyIntent :=
  match base.filter (λ s, str_is_empty s = false) (split_on "/" path) with
  | servers :: peer :: rest =>
      if negb (String.eqb servers "servers") then None
      else if str_is_empty peer then None
      else intent_of method rest query
  | _ => None
  end.

Definition required_capability (i : ProxyIntent) : PeerCapabilities :=
  match i with
  | Read | List | Metadata => caps_resource_read
  | QueryIntent => caps_resource_query
  | Subscribe => caps_stream_subscribe
  | Invoke => caps_transition_invoke
  | Register => caps_resource_register
  | Admin => caps_peer_admin
  end.

(** ** Header sanitization *)

Definition HOP_HEADERS : list string :=
  ["authorization"; "cookie"; "connection"; "forwarded"; "keep-alive"; "proxy-authenticate";
   "proxy-authorization"; "proxy-connection"; "te"; "trailer"; "transfer-encoding"; "upgrade"].

Definition HOP_PREFIXES : list string :=
  ["proxy-"; "x-forwarded-"; "x-boardwalk-"; "boardwalk-"; "sec-websocket-"].

Definition should_forward_header (name : string) (connection_headers : list string) : bool :=
  if String.eqb name "host" then false
  else
    let name := to_ascii_lowercase name in
    if existsb (String.eqb name) connection_headers then false
    else if existsb (String.eqb name) HOP_HEADERS then false
    else if existsb (λ p, starts_with p name) HOP_PREFIXES then false
    else true.

(** The tokens of the [Connection] headers, as the set's elements. *)
Definition connection_header_tokens (headers : HeaderMap) : list string :=
  base.filter (λ token, str_is_empty token = false)
    (map (λ token, to_ascii_lowercase (trim token))
      (concat (map (split_on ",") (omap value_to_str (hm_get_all "connection" headers))))).

Definition sanitize_forward_headers (headers : HeaderMap) (connection_headers : list string)
    : list (string * HeaderValue) :=
  base.filter (λ nv, should_forward_header nv.1 connection_headers = true) (hm_iter headers).

(** ** The forwarded request *)

Record ForwardedExternalBases := mk_bases {
  base_host : string;
  base_scheme : string;
  base_http : string;
  base_ws : string
}.

Definition forwarded_external_bases (headers : HeaderMap) (uri : Uri) (target_name : string)
    : ForwardedExternalBases :=
  let host := default "localhost" (header_str "host" headers) in
  let scheme := default "http" (uri_scheme_str uri) in
  let ws_scheme := if String.eqb scheme "https" then "wss" else "ws" in
  let peer := urlencode target_name in
  mk_bases host scheme (scheme +:+ "://" +:+ host +:+ "/servers/" +:+ peer +:+ "/")
    (ws_scheme +:+ "://" +:+ host +:+ "/servers/" +:+ peer +:+ "/").

Record ForwardAttestation := mk_attestation {
  gateway_name : string;
  render_capabilities : PeerCapabilities;
  att_caller : option AdmittedPeerConnection
}.

Record Request := mk_request {
  rq_method : Method;
  rq_uri : Uri;
  rq_headers : HeaderMap;
  rq_body : string
}.

(** The headers of the attested caller. *)
Definition caller_headers (caller : AdmittedPeerConnection) (b : Builder) : Builder :=
  header_opt CALLER_NODE_NAME_HEADER (ap_display_name caller)
   (header_opt CALLER_NODE_ID_HEADER (ap_node_id caller)
    (header_opt CALLER_TOKEN_ID_HEADER (ap_token_id caller)
     (header CALLER_CONNECTION_ID_HEADER (uuid_to_string (ap_connection_id caller))
      (header CALLER_CAPABILITIES_HEADER (caps_to_string (negotiated_capabilities caller))
       (header CALLER_ROUTE_HEADER (ap_route_name caller)
        (header CALLER_PEER_ID_HEADER (ap_peer_id caller) b)))))).

(** The headers the gateway owns, before the caller's. *)
Definition gateway_headers (attestation : ForwardAttestation) (bases : ForwardedExternalBases)
    (correlation_id : Uuid) (b : Builder) : Builder :=
  header "boardwalk-correlation-id" (uuid_to_string correlation_id)
   (header RENDER_CAPABILITIES_HEADER (caps_to_string (render_capabilities attestation))
    (header "boardwalk-forwarded-by" (gateway_name attestation)
     (header "boardwalk-external-ws-base" (base_ws bases)
      (header "boardwalk-external-base" (base_http bases)
       (header "x-forwarded-proto" (base_scheme bases)
        (header "x-forwarded-host" (base_host bases) b)))))).

(** [build_peer_forward_request]; [correlation_id] is the fresh UUID and [None]
    the builder's error. *)
Definition build_peer_forward_request (correlation_id : Uuid) (attestation : ForwardAttestation)
    (target_name : string) (method : Method) (uri : Uri) (headers : HeaderMap) (body : string)
    : option Request :=
  let path_and_query := default (uri_path uri) (uri_path_and_query uri) in
  target ← uri_parse ("http://" +:+ urlencode target_name +:+ ".peer.boardwalk.invalid"
    +:+ path_and_query);
  let connection_headers := connection_header_tokens headers in
  let builder := foldl (λ b nv, header_value nv b) (Some hm_new)
    (sanitize_forward_headers headers connection_headers) in
  let builder := gateway_headers attestation (forwarded_external_bases headers uri target_name)
    correlation_id builder in
  m ← match att_caller attestation with
      | Some caller => caller_headers caller builder
      | None => builder
      end;
  Some (mk_request method target m body).

(** ** Programs over the peer table *)

Inductive prog (A : Type) : Type :=
| Ret (a : A)
| AskContext (name : string) (k : option AdmittedPeerConnection → prog A)
| AskSender (name : string) (k : option TaskId → prog A).
Arguments Ret {A} a.
Arguments AskContext {A} name k.
Arguments AskSender {A} name k.

Fixpoint pbind {A B} (p : prog A) (f : A → prog B) : prog B :=
  match p with
  | Ret a => f a
  | AskContext n k => AskContext n (λ r, pbind (k r) f)
  | AskSender n k => AskSender n (λ r, pbind (k r) f)
  end.

(** A run: the query at instant [t] is answered by the table [σ t]. *)
Fixpoint run {A} (σ : nat → Acceptors) (t : nat) (p : prog A) : nat * A :=
  match p with
  | Ret a => (t, a)
  | AskContext n k => run σ (S t) (k (peer_context n (σ t)))
  | AskSender n k => run σ (S t) (k (sender n (σ t)))
  end.

(** ** Caller ingress *)

(** The loop of [resolve_caller_ingress] over the verified configurations. *)
Fixpoint ingress_loop (token_id : string) (configs : list PeerAdmissionConfig)
    (live : list AdmittedPeerConnection) (mismatched : option Uuid)
    : prog (list AdmittedPeerConnection * option Uuid) :=
  match configs with
  | [] => Ret (live, mismatched)
  | config :: rest =>
      let route := allowed_route_name config in
      AskContext route (λ context,
        match context with
        | None => ingress_loop token_id rest live mismatched
        | Some context =>
            if negb (bool_decide (ap_token_id context = Some token_id))
            then ingress_loop token_id rest live (Some (ap_connection_id context))
            else AskSender route (λ sndr,
              if bool_decide (is_Some sndr)
              then ingress_loop token_id rest (live ++ [context]) mismatched
              else ingress_loop token_id rest live mismatched)
        end)
  end.

Definition resolve_caller_ingress (headers : HeaderMap) (admissions : list PeerAdmissionConfig)
    : prog (result AdmissionDeny (option AdmittedPeerConnection)) :=
  match optional_header headers PEER_TOKEN_ID_HEADER with
  | None => Ret (Ok None)
  | Some token_id =>
      let refuse status reason route connection_id :=
        mk_deny "ingress" status reason route (Some token_id) None None None connection_id in
      match admissions with
      | [] => Ret (Err (refuse FORBIDDEN "peer admission is not configured" None None))
      | _ =>
          match bearer_token headers with
          | None => Ret (Err (refuse UNAUTHORIZED "missing bearer token" None None))
          | Some bearer =>
              match verified_admissions admissions token_id bearer with
              | Err reason => Ret (Err (refuse UNAUTHORIZED reason None None))
              | Ok verified =>
                  pbind (ingress_loop token_id verified [] None) (λ '(live, mismatched),
                    let verified_route :=
                      match verified with
                      | [config] => Some (allowed_route_name config)
                      | _ => None
                      end in
                    match live with
                    | [] => Ret (Err (refuse FORBIDDEN "caller peer is not connected"
                                        verified_route mismatched))
                    | [caller] => Ret (Ok (Some caller))
                    | _ => Ret (Err (refuse FORBIDDEN "ambiguous caller admission" None None))
                    end)
              end
          end
      end
  end.

(** ** Forwarding *)

(** What becomes of a request: served locally, answered here, or sent to the
    tunnel of a peer. *)
Inductive Routed :=
| ServeLocally
| Answer (status : N) (text : string)
| SendTo (tunnel : TaskId) (req : Request).

(** [unknown_server_response] *)
Definition unknown_server : Routed := Answer 404 "unknown server".

(** [maybe_forward_or_404] up to the send. [core_name] is the local name,
    [peers] whether peering is on, and [correlation_id] the fresh UUID; the
    library's message in the text of the 500 answer is left out. *)
Definition maybe_forward_or_404 (core_name : string) (peers : bool)
    (admissions : list PeerAdmissionConfig) (correlation_id : Uuid)
    (target_name : string) (method : Method) (uri : Uri) (headers : HeaderMap) (body : string)
    : prog Routed :=
  if String.eqb target_name core_name then Ret ServeLocally
  else match from_parts method (uri_path uri) (uri_query uri) with
  | None => Ret unknown_server
  | Some intent =>
      if negb peers then Ret unknown_server
      else pbind (resolve_caller_ingress headers admissions) (λ caller,
        match caller with
        | Err d => let '(status, reason) := (admission_denied d).2 in Ret (Answer status reason)
        | Ok caller =>
            if match caller with
               | Some c => negb (caps_contains (negotiated_capabilities c) (required_capability intent))
               | None => false
               end
            then Ret (Answer FORBIDDEN "caller capability denied")
            else AskContext target_name (λ context,
              match context with
              | None => Ret unknown_server
              | Some context =>
                  if negb (caps_contains (negotiated_capabilities context) (required_capability intent))
                  then Ret (Answer FORBIDDEN "peer capability denied")
                  else AskSender target_name (λ sndr,
                    match sndr with
                    | None => Ret unknown_server
                    | Some tunnel =>
                        match build_peer_forward_request correlation_id
                          (mk_attestation core_name (negotiated_capabilities context) caller)
                          target_name method uri headers body with
                        | Some req => Ret (SendTo tunnel req)
                        | None => Ret (Answer 500 "forward build")
                        end
                    end)
              end)
        end)
  end.

(** The answer of the peer, relayed without its transfer encoding; an error of
    the tunnel is 502. *)
Definition relay_response (resp : result string (N * list (string * HeaderValue) * string))
    : N * list (string * HeaderValue) * string :=
  match resp with
  | Ok (status, headers, body) =>
      (status, base.filter (λ nv, nv.1 ≠ "transfer-encoding") headers, body)
  | Err e => (502%N, [], "peer forward: " +:+ e)
  end.

(** ** The upgrade handler *)

Inductive Upgrade :=
| Refuse (status : N) (text : string)
| SwitchProtocols (headers : HeaderMap) (admitted : AdmittedPeerConnection).

(** [peers_upgrade]; [duplicate] is the answer of [has_active_peer]. *)
Definition peers_upgrade {dl : DigestLib} (peering : bool) (duplicate : bool)
    (admissions : list PeerAdmissionConfig) (unauthenticated : option UnauthenticatedPeerPolicy)
    (peer_name : string) (connection_id : option Uuid) (headers : HeaderMap) : Upgrade :=
  match connection_id with
  | None => Refuse 400 "missing connectionId"
  | Some connection_id =>
      if negb peering then Refuse 503 "peering disabled"
      else match admit_peer_connection peer_name connection_id headers admissions unauthenticated with
      | Err d => let '(status, reason) := (admission_denied d).2 in Refuse status reason
      | Ok admitted =>
          if duplicate then Refuse 409 ("peer `" +:+ peer_name +:+ "` is already connected")
          else match build_upgrade_response headers with
          | Err e => Refuse 400 ("upgrade: " +:+ e)
          | Ok resp => SwitchProtocols resp admitted
          end
      end
  end.

(** ** Query scope *)

(** [query_scope_from_server] *)
Definition query_scope_from_server (server : option string) : QueryScope :=
  match trim <$> server with
  | None => Local
  | Some s =>
      if str_is_empty s then Local
      else if String.eqb s "*" then Federation [] true
      else Query.Peer s
  end.

(** [RenderPolicy]: the ceiling for rendered affordances. *)
Record RenderPolicy := mk_render_policy { rp_capabilities : PeerCapabilities }.
Definition render_local : RenderPolicy := mk_render_policy caps_all.
Definition can_query (p : RenderPolicy) : bool := caps_contains (rp_capabilities p) caps_resource_query.
Definition can_read_resources (p : RenderPolicy) : bool :=
  caps_contains (rp_capabilities p) caps_resource_read.
Definition can_stream (p : RenderPolicy) : bool := caps_contains (rp_capabilities p) caps_stream_subscribe.
Definition can_invoke_transition (p : RenderPolicy) : bool :=
  caps_contains (rp_capabilities p) caps_transition_invoke.

(** [render_policy_from_headers]: an unreadable ceiling is the empty one. *)
Definition render_policy_from_headers (headers : HeaderMap) : RenderPolicy :=
  match hm_get RENDER_CAPABILITIES_HEADER headers with
  | None => render_local
  | Some value =>
      match value_to_str value with
      | None => mk_render_policy caps_empty
      | Some value => match parse_list value with
                      | Ok caps => mk_render_policy caps
                      | Err _ => mk_render_policy caps_empty
                      end
      end
  end.
End gateway.

Arguments Ret {_ _} a.
Arguments AskContext {_ _} name k.
Arguments AskSender {_ _} name k.

(** ** Runs *)
Section runs.
  Context {hl : HttpLib} {tl : TopicLibs}.
  Implicit Types (σ : nat → Acceptors).

Lemma run_pbind {A B} σ t (p : prog A) (f : A → prog B) :
  run σ t (pbind p f) = run σ (run σ t p).1 (f (run σ t p).2).
Proof. revert t. induction p as [a|n k IH|n k IH]; intros t; simpl; auto. Qed.

Lemma run_le {A} σ t (p : prog A) : t ≤ (run σ t p).1.
Proof.
  revert t. induction p as [a|n k IH|n k IH]; intros t; simpl; [done| |];
    (etrans; [|apply IH]); lia.
Qed.

(** A tunnel of [route], held by the token, seen live between two instants:
    its context, and then a registered sender. *)
Definition seen_live σ (t t' : nat) (token_id route : string) (c : AdmittedPeerConnection) : Prop :=
  ∃ i j, t ≤ i ∧ i < j ∧ j < t' ∧ ap_token_id c = Some token_id ∧
    peer_context route (σ i) = Some c ∧ is_Some (sender route (σ j)).

Lemma seen_live_weaken σ t t1 t' token_id route c :
  t ≤ t1 → seen_live σ t1 t' token_id route c → seen_live σ t t' token_id route c.
Proof. intros H (i & j & ? & ?). exists i, j. naive_solver lia. Qed.

Lemma ingress_loop_live σ t token_id configs live mm :
  ∃ new, (run σ t (ingress_loop token_id configs live mm)).2.1 = live ++ new ∧
    Forall (λ c, ∃ config, config ∈ configs ∧
      seen_live σ t (run σ t (ingress_loop token_id configs live mm)).1 token_id
        (allowed_route_name config) c) new.
Proof.
  revert t live mm. induction configs as [|config rest IH]; intros t live mm; simpl.
  { exists []. by rewrite app_nil_r. }
  assert (Hskip : ∀ t1 live1 mm1, t ≤ t1 → ∃ new,
    (run σ t1 (ingress_loop token_id rest live1 mm1)).2.1 = live1 ++ new ∧
    Forall (λ c, ∃ config', config' ∈ config :: rest ∧
      seen_live σ t (run σ t1 (ingress_loop token_id rest live1 mm1)).1 token_id
        (allowed_route_name config') c) new).
  { intros t1 live1 mm1 Ht. destruct (IH t1 live1 mm1) as (new & -> & Hnew). exists new. split; [done|].
    eapply Forall_impl; [exact Hnew|]. intros c (cf & Hcf & Hs). exists cf.
    split; [set_solver|]. by eapply seen_live_weaken. }
  destruct (peer_context _ (σ t)) as [context|] eqn:Hctx; [|apply Hskip; lia].
  case_bool_decide as Htok; simpl; [|apply Hskip; lia].
  case_bool_decide as Hsnd; [|apply Hskip; lia].
  destruct (Hskip (S (S t)) (live ++ [context]) mm) as (new & -> & Hnew); [lia|].
  exists (context :: new). split; [by rewrite <- app_assoc|]. constructor; [|done].
  exists config. split; [set_solver|]. exists t, (S t). split_and!; try done; try lia.
  pose proof (run_le σ (S (S t)) (ingress_loop token_id rest (live ++ [context]) mm)). lia.
Qed.

(** ** Ingress *)

(** The caller a run of the ingress may attest. *)
Definition caller_ok σ (t t' : nat) (headers : HeaderMap) (admissions : list PeerAdmissionConfig)
    (caller : option AdmittedPeerConnection) : Prop :=
  match caller with
  | None => optional_header headers PEER_TOKEN_ID_HEADER = None
  | Some c => ∃ creds config, credentials headers = Some creds ∧ config ∈ admissions ∧
      unlocks creds config ∧ seen_live σ t t' creds.1 (allowed_route_name config) c
  end.

Lemma ingress_spec (σ : nat → Acceptors) (t : nat) (headers : HeaderMap)
    (admissions : list PeerAdmissionConfig) :
  let '(t', r) := run σ t (resolve_caller_ingress headers admissions) in
  match r with
  | Ok caller => caller_ok σ t t' headers admissions caller
  | Err d => is_Some (optional_header headers PEER_TOKEN_ID_HEADER) ∧
      (deny_status d = UNAUTHORIZED ∨ deny_status d = FORBIDDEN) ∧
      (deny_status d = UNAUTHORIZED ↔ admissions ≠ [] ∧
         ∀ creds config, credentials headers = Some creds → config ∈ admissions → ¬ unlocks creds config)
  end.
Proof.
  unfold resolve_caller_ingress, caller_ok. unfold credentials.
  destruct (optional_header headers PEER_TOKEN_ID_HEADER) as [token_id|] eqn:Ht; [|done].
  destruct admissions as [|a0 l0]; [naive_solver|]. set (admissions := a0 :: l0).
  assert (admissions ≠ []) as Hne by done. clearbody admissions.
  destruct (bearer_token headers) as [bearer|] eqn:Hb; simpl; [|naive_solver].
  pose proof (verified_admissions_spec admissions token_id bearer) as Hv.
  destruct (verified_admissions admissions token_id bearer) as [verified|reason]; simpl.
  2:{ rewrite filter_unlocks_nil in Hv. naive_solver. }
  destruct Hv as [-> Hex]. rewrite run_pbind.
  destruct (ingress_loop_live σ t token_id (base.filter (unlocks (token_id, bearer)) admissions) [] None)
    as (new & Hnew & Hlive).
  destruct (run σ t (ingress_loop _ _ _ _)) as [t' [live mm]]. simpl in *. subst live.
  assert (Hforb : FORBIDDEN = UNAUTHORIZED ↔ admissions ≠ [] ∧
    ∀ creds config, Some (token_id, bearer) = Some creds → config ∈ admissions → ¬ unlocks creds config).
  { split; [done|]. intros [_ Hno]. apply filter_unlocks_some in Hex as (config & ? & ?). naive_solver. }
  destruct new as [|c [|c' new]]; simpl; [by eauto 6| |by eauto 6].
  inversion Hlive as [|? ? (config & Hcf & Hs) _]; subst.
  apply list_elem_of_filter in Hcf as [Hu Hin]. by exists (token_id, bearer), config.
Qed.

End runs.

(** ** The hop *)
Section hop.
  Context {hl : HttpLib} {laws : HttpLaws} {tl : TopicLibs}.

(** The texts of an admitted connection that travel as header values. *)
Record header_safe (c : AdmittedPeerConnection) : Prop := {
  hs_route : visible (ap_route_name c);
  hs_peer : visible (ap_peer_id c);
  hs_token s : ap_token_id c = Some s → visible s;
  hs_node s : ap_node_id c = Some s → visible s;
  hs_name s : ap_display_name c = Some s → visible s;
}.

(** The identity the receiving node should see. *)
Definition attested (c : AdmittedPeerConnection) : AdmittedPeer :=
  mk_admitted_peer (ap_route_name c) (ap_peer_id c) (ap_token_id c) (ap_node_id c)
    (ap_display_name c) (to_capabilities (negotiated_capabilities c))
    (uuid_to_string (ap_connection_id c)).

Lemma should_forward_reserved n tokens :
  is_lower n → starts_with "boardwalk-" n = true → should_forward_header n tokens = false.
Proof.
  intros Hn Hp. unfold should_forward_header. rewrite Hn.
  destruct (String.eqb n "host"); [done|]. destruct (existsb _ tokens); [done|].
  destruct (existsb _ HOP_HEADERS); [done|].
  replace (existsb _ HOP_PREFIXES) with true; [done|]. symmetry. apply existsb_exists.
  exists "boardwalk-". split; [simpl; tauto|done].
Qed.

(** The reserved header names never survive sanitization. *)
Lemma sanitized_none headers :
  ∃ m, foldl (λ b nv, header_value nv b) (Some hm_new)
      (sanitize_forward_headers headers (connection_header_tokens headers)) = Some m ∧
    ∀ n, is_lower n → starts_with "boardwalk-" n = true → hm_get_all n m = [].
Proof.
  set (l := sanitize_forward_headers headers (connection_header_tokens headers)).
  assert (Hl : Forall (λ nv, is_lower nv.1) l).
  { apply Forall_forall. intros [n' v] [_ H]%list_elem_of_filter. by eapply hm_iter_lower. }
  destruct (get_all_append_list "x" l hm_new) as (m & Hm & _); [done|done|].
  exists m. split; [done|]. intros n Hn Hp.
  destruct (get_all_append_list n l hm_new Hn Hl) as (m' & Hm' & Hg).
  rewrite Hm in Hm'. injection Hm' as <-. rewrite Hg, hm_get_all_new. simpl.
  destruct (base.filter _ l) as [|x k] eqn:E; [done|].
  assert (x ∈ base.filter (λ nv, nv.1 = n) l) as Hx by (rewrite E; set_solver).
  apply list_elem_of_filter in Hx as [<- [Hx _]%list_elem_of_filter].
  by rewrite (should_forward_reserved _ _ Hn Hp) in Hx.
Qed.

(** A list of optional headers appended in order. *)
Definition append_headers (l : list (string * option string)) (b : Builder) : Builder :=
  foldl (λ b no, header_opt no.1 no.2 b) b l.

Lemma header_opt_get n name o b m :
  is_lower n → is_lower name → header_opt name o b = Some m →
  ∃ m0 vs, b = Some m0 ∧ hm_get_all n m = hm_get_all n m0 ++ (if String.eqb n name then vs else []) ∧
    ((∀ s, o = Some s → visible s) → head vs ≫= value_to_str = o).
Proof.
  intros Hn Hname. destruct o as [value|]; simpl.
  - intros (m0 & v & -> & Hv & ->)%header_Some. exists m0, [v]. split; [done|].
    split; [by apply hm_get_all_append|]. intros Hvis. simpl.
    destruct (value_roundtrip value (Hvis value eq_refl)) as (v' & ? & ?). congruence.
  - intros ->. exists m, []. split; [done|]. split; [|done].
    destruct (String.eqb n name); by rewrite app_nil_r.
Qed.

(** Reading a header back after the appends. *)
Lemma append_headers_get l b m :
  Forall (λ no, is_lower no.1) l → NoDup l.*1 → append_headers l b = Some m →
  ∃ m0, b = Some m0 ∧ ∀ n, is_lower n →
    (n ∉ l.*1 → hm_get_all n m = hm_get_all n m0) ∧
    (∀ o, (n, o) ∈ l → hm_get_all n m0 = [] → (∀ s, o = Some s → visible s) → header_str n m = o).
Proof.
  intros Hl. revert b. induction Hl as [|[n0 o0] l Hn0 Hl IH]; intros b Hnd.
  { intros [= ->]. exists m. split; [done|]. intros n Hn. split; [done|]. by intros o ?%not_elem_of_nil. }
  apply NoDup_cons in Hnd as [Hnot Hnd]. cbn. fold (append_headers l (header_opt n0 o0 b)).
  intros E. destruct (IH (header_opt n0 o0 b) Hnd E) as (m1 & Hm1 & Hget).
  destruct (header_opt_get n0 n0 o0 b m1 Hn0 Hn0 Hm1) as (m0 & vs & -> & Hg & Hvs).
  exists m0. split; [done|]. intros n Hn. destruct (Hget n Hn) as [Hsame Hread].
  destruct (header_opt_get n n0 o0 (Some m0) m1 Hn Hn0 Hm1) as (? & vs' & [= <-] & Hg' & Hvs').
  split.
  - rewrite not_elem_of_cons. intros [Hne Hin]. rewrite Hsame by done. rewrite Hg'.
    apply String.eqb_neq in Hne. by rewrite Hne, app_nil_r.
  - intros o [[= -> ->]|Hin]%elem_of_cons Hnil Hvis.
    + rewrite header_str_all, Hsame by done. rewrite Hg', Hnil, String.eqb_refl. by apply Hvs'.
    + apply Hread; [done| |done]. rewrite Hg', Hnil. simpl.
      destruct (String.eqb_spec n n0) as [->|]; [|done].
      destruct Hnot. apply list_elem_of_fmap. by exists (n0, o).
Qed.

Definition gateway_list (attestation : ForwardAttestation) (bases : ForwardedExternalBases)
    (correlation_id : Uuid) : list (string * option string) :=
  [("x-forwarded-host", Some (base_host bases)); ("x-forwarded-proto", Some (base_scheme bases));
   ("boardwalk-external-base", Some (base_http bases));
   ("boardwalk-external-ws-base", Some (base_ws bases));
   ("boardwalk-forwarded-by", Some (gateway_name attestation));
   (RENDER_CAPABILITIES_HEADER, Some (caps_to_string (render_capabilities attestation)));
   ("boardwalk-correlation-id", Some (uuid_to_string correlation_id))].

Definition caller_list (caller : AdmittedPeerConnection) : list (string * option string) :=
  [(CALLER_PEER_ID_HEADER, Some (ap_peer_id caller)); (CALLER_ROUTE_HEADER, Some (ap_route_name caller));
   (CALLER_CAPABILITIES_HEADER, Some (caps_to_string (negotiated_capabilities caller)));
   (CALLER_CONNECTION_ID_HEADER, Some (uuid_to_string (ap_connection_id caller)));
   (CALLER_TOKEN_ID_HEADER, ap_token_id caller); (CALLER_NODE_ID_HEADER, ap_node_id caller);
   (CALLER_NODE_NAME_HEADER, ap_display_name caller)].

Definition forward_list (attestation : ForwardAttestation) (bases : ForwardedExternalBases)
    (correlation_id : Uuid) : list (string * option string) :=
  gateway_list attestation bases correlation_id ++
  match att_caller attestation with Some c => caller_list c | None => [] end.

(** The forwarded headers: sanitized ones, then the gateway's own. *)
Lemma forward_headers correlation_id attestation target_name method uri headers body req :
  build_peer_forward_request correlation_id attestation target_name method uri headers body = Some req →
  ∀ n, is_lower n → starts_with "boardwalk-" n = true →
    (n ∉ (forward_list attestation (forwarded_external_bases headers uri target_name) correlation_id).*1 →
       header_str n (rq_headers req) = None) ∧
    (∀ o, (n, o) ∈ forward_list attestation (forwarded_external_bases headers uri target_name) correlation_id →
       (∀ s, o = Some s → visible s) → header_str n (rq_headers req) = o).
Proof.
  unfold build_peer_forward_request. intros (target & _ & H)%bind_Some n Hn Hp.
  destruct (sanitized_none headers) as (m0 & Hm0 & Hnone). rewrite Hm0 in H.
  apply bind_Some in H as (m & Hm & [= <-]). simpl.
  set (bases := forwarded_external_bases headers uri target_name) in *.
  assert (append_headers (forward_list attestation bases correlation_id) (Some m0) = Some m) as Ha.
  { unfold forward_list. destruct (att_caller attestation); [exact Hm|]. by rewrite app_nil_r. }
  apply append_headers_get in Ha as (? & [= <-] & Hget).
  - destruct (Hget n Hn) as [Hsame Hread]. split.
    + intros Hin. by rewrite header_str_all, Hsame, Hnone.
    + intros o Hin Hvis. by apply Hread; [|apply Hnone|].
  - unfold forward_list. apply Forall_app. split; [by repeat constructor|].
    destruct (att_caller attestation); by repeat constructor.
  - unfold forward_list. destruct (att_caller attestation); simpl;
      (refine (bool_decide_unpack _ _); vm_compute; exact I).
Qed.


(** Membership in a list of constants. *)
Ltac in_list := repeat (first [apply list_elem_of_here | apply list_elem_of_further]).

(** Reading the attested caller back from its headers. *)
Lemma read_caller (l : list (string * option string)) (c : AdmittedPeerConnection) (m : HeaderMap) :
  (∀ n o, is_lower n → starts_with "boardwalk-" n = true → (n, o) ∈ l →
    (∀ s, o = Some s → visible s) → header_str n m = o) →
  (∀ x, x ∈ caller_list c → x ∈ l) → header_safe c →
  (peer_id ← header_str CALLER_PEER_ID_HEADER m;
   capabilities ←
     match header_str CALLER_CAPABILITIES_HEADER m with
     | Some raw => match parse_list raw with Ok caps => Some (to_capabilities caps) | Err _ => None end
     | None => Some []
     end;
   Some (mk_admitted_peer (default "" (header_str CALLER_ROUTE_HEADER m)) peer_id
     (header_str CALLER_TOKEN_ID_HEADER m) (header_str CALLER_NODE_ID_HEADER m)
     (header_str CALLER_NODE_NAME_HEADER m) capabilities
     (default "" (header_str CALLER_CONNECTION_ID_HEADER m)))) = Some (attested c).
Proof.
  intros Hread Hin [Hr Hp Ht Hn Hd].
  rewrite (Hread CALLER_PEER_ID_HEADER (Some (ap_peer_id c))),
    (Hread CALLER_CAPABILITIES_HEADER (Some (caps_to_string (negotiated_capabilities c)))),
    (Hread CALLER_ROUTE_HEADER (Some (ap_route_name c))),
    (Hread CALLER_TOKEN_ID_HEADER (ap_token_id c)), (Hread CALLER_NODE_ID_HEADER (ap_node_id c)),
    (Hread CALLER_NODE_NAME_HEADER (ap_display_name c)),
    (Hread CALLER_CONNECTION_ID_HEADER (Some (uuid_to_string (ap_connection_id c))))
    by (done || (apply Hin; unfold caller_list; in_list) || (by intros ? [= <-])
        || (by intros ? [= <-]; apply caps_display_readable) || (by intros ? [= <-]; apply uuid_visible)).
  simpl. rewrite parse_display. simpl. by rewrite to_capabilities_all.
Qed.

Lemma header_str_get name m : header_str name m ≠ None →
  ∃ v, hm_get name m = Some v ∧ value_to_str v = header_str name m.
Proof. unfold header_str. destruct (hm_get name m) as [v|]; simpl; [eauto|done]. Qed.

(** C6: Caller identity cannot be forged across the forwarding hop. Whatever
    headers the client sent, the receiving node, serving the request on its own
    tunnel leg, sees exactly the gateway's name, the caller the gateway
    attested (or an anonymous one) with all its fields, and the gateway's
    render ceiling; off the tunnel leg every request is local. *)
Theorem provenance_unforgeable (correlation_id : Uuid) (attestation : ForwardAttestation)
    (target_name : string) (method : Method) (uri : Uri) (headers : HeaderMap) (body : string)
    (req : Request) :
  build_peer_forward_request correlation_id attestation target_name method uri headers body = Some req →
  visible (gateway_name attestation) →
  (∀ c, att_caller attestation = Some c → header_safe c) →
  caller_provenance true (rq_headers req) =
    forwarded (gateway_name attestation) (attested <$> att_caller attestation) ∧
  rp_capabilities (render_policy_from_headers (rq_headers req)) =
    caps_intersection (render_capabilities attestation) caps_all ∧
  caller_provenance false (rq_headers req) = provenance_default.
Proof.
  intros Hb Hg Hsafe. pose proof (forward_headers _ _ _ _ _ _ _ _ Hb) as Hf.
  set (l := forward_list _ _ _) in *.
  assert (Hread : ∀ n o, is_lower n → starts_with "boardwalk-" n = true → (n, o) ∈ l →
    (∀ s, o = Some s → visible s) → header_str n (rq_headers req) = o).
  { intros n o Hn Hp. by apply (Hf n Hn Hp). }
  split_and!; [| |done].
  2:{ assert (header_str RENDER_CAPABILITIES_HEADER (rq_headers req) =
        Some (caps_to_string (render_capabilities attestation))) as Hr.
      { apply Hread; [done|done| |by intros ? [= <-]; apply caps_display_readable].
        apply elem_of_app. left. unfold gateway_list. in_list. }
      destruct (header_str_get RENDER_CAPABILITIES_HEADER (rq_headers req)) as (v & Hv & Hv');
        [by rewrite Hr|].
      unfold render_policy_from_headers. rewrite Hv, Hv', Hr. by rewrite parse_display. }
  unfold caller_provenance. cbn [negb].
  rewrite (Hread "boardwalk-forwarded-by" (Some (gateway_name attestation))) by
    (done || (by intros ? [= <-]) || (apply elem_of_app; left; unfold gateway_list; in_list)).
  f_equal. destruct (att_caller attestation) as [c|] eqn:Hc.
  - apply (read_caller l); [done| |by apply Hsafe].
    intros x Hx. unfold l, forward_list. rewrite Hc. apply elem_of_app. by right.
  - destruct (Hf CALLER_PEER_ID_HEADER eq_refl eq_refl) as [-> _]; [done|].
    unfold l, forward_list. rewrite Hc, app_nil_r. simpl.
    refine (bool_decide_unpack _ _). vm_compute. exact I.
Qed.
End hop.

(** ** The gates *)
Section gates.
  Context {hl : HttpLib} {tl : TopicLibs}.

(** C8: A request crosses to a peer only through the gates. It is sent down a
    tunnel only if it is addressed to another node, its method and path express
    an intent, the target's tunnel negotiated the capability the intent
    requires, and so did the caller if the request presents credentials; the
    request sent is the sanitized and attested one, under the target's ceiling.
    With tables that the acceptor can reach, the context and the tunnel used
    belong to the target's own route and the tunnel was confirmed. *)
Theorem forward_gated (σ : nat → Acceptors) (t : nat) (core_name : string) (peers : bool)
    (admissions : list PeerAdmissionConfig) (correlation_id : Uuid) (target_name : string)
    (method : Method) (uri : Uri) (headers : HeaderMap) (body : string)
    (tunnel : TaskId) (req : Request) :
  (run σ t (maybe_forward_or_404 core_name peers admissions correlation_id target_name
     method uri headers body)).2 = SendTo tunnel req →
  target_name ≠ core_name ∧
  ∃ intent caller context i j t',
    from_parts method (uri_path uri) (uri_query uri) = Some intent ∧
    caller_ok σ t t' headers admissions caller ∧
    (∀ c, caller = Some c →
       caps_contains (negotiated_capabilities c) (required_capability intent) = true) ∧
    t' ≤ i ∧ i < j ∧ peer_context target_name (σ i) = Some context ∧
    sender target_name (σ j) = Some tunnel ∧
    caps_contains (negotiated_capabilities context) (required_capability intent) = true ∧
    build_peer_forward_request correlation_id
      (mk_attestation core_name (negotiated_capabilities context) caller)
      target_name method uri headers body = Some req ∧
    ((∀ k, rtc acceptor_step acceptors_new (σ k)) →
       ap_route_name context = target_name ∧
       ∃ task, tasks (σ j) !! tunnel = Some task ∧ t_route task = target_name ∧
         confirmed (t_phase task)).
Proof.
  unfold maybe_forward_or_404. destruct (String.eqb_spec target_name core_name) as [|Hne]; [done|].
  destruct (from_parts _ _ _) as [intent|] eqn:Hint; [|done].
  destruct peers; simpl; [|done]. rewrite run_pbind.
  pose proof (ingress_spec σ t headers admissions) as Hin.
  destruct (run σ t (resolve_caller_ingress headers admissions)) as [t' [caller|d]]; simpl; [|done].
  destruct (match caller with Some _ => _ | None => _ end) eqn:Hcaller; [done|]. simpl.
  destruct (peer_context target_name (σ t')) as [context|] eqn:Hctx; [|done].
  destruct (caps_contains (negotiated_capabilities context) _) eqn:Hcap; simpl; [|done].
  destruct (sender target_name (σ (S t'))) as [tunnel'|] eqn:Hs; [|done].
  destruct (build_peer_forward_request _ _ _ _ _ _ _) as [req'|] eqn:Hb; [|done].
  intros [= <- <-]. split; [done|].
  exists intent, caller, context, t', (S t'), t'. split_and!; try done; try lia.
  - intros c ->. by apply negb_false_iff.
  - intros Hreach. split.
    + by destruct (ok_contexts _ (acceptors_ok_reachable _ (Hreach t')) _ _ Hctx).
    + by apply (ok_senders _ (acceptors_ok_reachable _ (Hreach (S t')))).
Qed.
End gates.

(** ** Admission makes identities header-safe *)
Section admitted_safe.
  Context {hl : HttpLib} {laws : HttpLaws} {dl : DigestLib}.

Lemma optional_header_visible headers name s : optional_header headers name = Some s → visible s.
Proof.
  unfold optional_header. intros (v & Hv & H)%bind_Some. destruct (is_blank v); [done|].
  injection H as <-. by eapply header_str_visible.
Qed.

(** The texts of a token-bound admission come from readable headers. *)
Lemma admitted_header_safe peer_name connection_id headers admissions unauthenticated c :
  visible peer_name →
  admit_peer_connection peer_name connection_id headers admissions unauthenticated = Ok c →
  header_safe c.
Proof.
  intros Hv Hc%admit_rules. destruct Hc as [policy|creds config node_id raw requested Hcr Hs Hn].
  - by split; simpl.
  - assert (visible creds.1) as Ht.
    { unfold credentials in Hcr. apply bind_Some in Hcr as (tid & Ht & (b & _ & [= <-])%bind_Some).
      by eapply optional_header_visible. }
    split; simpl; try done.
    + unfold visible in *. by rewrite !str_forallb_app, Hv, Ht.
    + by intros s [= <-].
    + intros s [= <-]. by eapply optional_header_visible.
    + intros s. apply optional_header_visible.
Qed.
End admitted_safe.

(** ** Examples *)
Module GatewayExamples.
Import ListHttp AcceptorsExamples.

#[local] Instance topic_libs : TopicLibs := {|
  regex := unit;
  regex_error := unit;
  regex_new := λ _, Err ();
  is_match := λ _ _, false;
  form_urlencoded_parse := λ q, [(q, "")];
|}.

Definition server_uri : @Uri http_lib := ("/servers/hub", None).
Definition conn9 : @Uuid http_lib := 9.

(** A client that claims to be someone else. *)
Definition forged : HeaderMap :=
  hm_append "accept" "*/*" (hm_append CALLER_PEER_ID_HEADER "peer-admin"
    (hm_append "boardwalk-forwarded-by" "evil" hm_new)).

Definition cloud_attestation : ForwardAttestation := mk_attestation "cloud" caps_resource_read (Some (hub 3)).

Lemma provenance_unforgeable_witness :
  ∃ req, build_peer_forward_request conn9 cloud_attestation "hub" GET server_uri forged "" = Some req ∧
    caller_provenance true (rq_headers req) = forwarded "cloud" (Some (attested (hub 3))).
Proof.
  assert (bool_decide (is_Some (build_peer_forward_request conn9 cloud_attestation "hub" GET server_uri
    forged "")) = true) as H by (vm_compute; reflexivity).
  destruct (build_peer_forward_request conn9 cloud_attestation "hub" GET server_uri forged "")
    as [req|] eqn:E; [|done].
  exists req. split; [done|].
  apply (provenance_unforgeable conn9 cloud_attestation "hub" GET server_uri forged "" req E).
  - vm_compute. reflexivity.
  - intros c [= <-]. split; try (vm_compute; reflexivity); intros s [= <-]; vm_compute; reflexivity.
Defined.

Definition cloud_forward : prog Routed :=
  maybe_forward_or_404 "cloud" true [] conn9 "hub" GET server_uri hm_new "".

Lemma forward_gated_witness :
  ∃ s tunnel req, rtc acceptor_step acceptors_new s ∧ (run (λ _, s) 0 cloud_forward).2 = SendTo tunnel req ∧
  ∃ intent caller context i j t',
    from_parts GET "/servers/hub" None = Some intent ∧
    caller_ok (λ _, s) 0 t' hm_new [] caller ∧
    (∀ c, caller = Some c →
       caps_contains (negotiated_capabilities c) (required_capability intent) = true) ∧
    t' ≤ i ∧ i < j ∧ peer_context "hub" s = Some context ∧ sender "hub" s = Some tunnel ∧
    caps_contains (negotiated_capabilities context) (required_capability intent) = true ∧
    build_peer_forward_request conn9
      (mk_attestation "cloud" (negotiated_capabilities context) caller)
      "hub" GET server_uri hm_new "" = Some req ∧
    ((∀ k : nat, rtc acceptor_step acceptors_new s) →
       ap_route_name context = "hub" ∧
       ∃ task, tasks s !! tunnel = Some task ∧ t_route task = "hub" ∧ confirmed (t_phase task)).
Proof.
  assert (match run_ops (connect 0) acceptors_new with
    | Some s => match (run (λ _, s) 0 cloud_forward).2 with SendTo _ _ => true | _ => false end
    | None => false end = true) as H by (vm_compute; reflexivity).
  destruct (run_ops (connect 0) acceptors_new) as [s|] eqn:E; [|done].
  apply run_ops_reachable in E.
  destruct (run (λ _, s) 0 cloud_forward).2 as [| |tunnel req] eqn:Hr; [done..|].
  exists s, tunnel, req. split; [done|]. split; [done|].
  apply (forward_gated (λ _, s) 0 "cloud" true [] conn9 "hub" GET server_uri hm_new "" tunnel req Hr).
Defined.

Lemma intent_examples :
  from_parts GET "/servers/hub" (Some "ql") = Some QueryIntent ∧
  from_parts POST "/servers/hub/resources/1/transitions/go" None = Some Invoke ∧
  from_parts GET "/servers/hub/events" None = None ∧
  from_parts (OtherMethod "DELETE") "/servers/hub" None = None.
Proof. vm_compute. done. Qed.
End GatewayExamples.
