(* ===== verification/Resource.v ===== *)
(** Resources, transitions and snapshots ([runtime/resource.rs],
    [runtime/transition.rs], the error types of [runtime/actor.rs]): the
    declared specs, the canonical [ResourceSnapshot], the document the query
    evaluator reads it through, and its derived [serde] representation. *)

From S2P Require Import Prelude F64 Json Query.

(** ** Errors *)

Inductive ResourceError :=
| RNotFound (id : string)
| RUnavailable (msg : string)
| RInternal (msg : string).

Inductive TransitionError :=
| TInvalidInput (msg : string)
| TNotAllowed (msg : string)
| TConflict (msg : string)
| TBusy
| TBackpressureRequired
| TTimeout
| TResourceNotFound (id : string)
| TInternal (msg : string).

Inductive ActorError :=
| AStartFailed (msg : string)
| AStopFailed (msg : string)
| AInternal (msg : string).

(** [From<ResourceError> for TransitionError] *)
Definition transition_error_from (e : ResourceError) : TransitionError :=
  match e with
  | RNotFound id => TResourceNotFound id
  | RUnavailable msg => TInternal msg
  | RInternal msg => TInternal msg
  end.

(** ** Declared contracts *)

Inductive StreamKind := Object | Binary.

Record StreamSpec := mk_stream_spec { st_name : string; st_kind : StreamKind }.

Inductive TransitionResultKind := Sync | AsyncJob.

(** [Idempotency::None] is [IdemNone]. *)
Inductive Idempotency := IdemNone | Supported | Required.

Inductive Effect := Safe | UnsafeIdempotent | Unsafe.

Record FieldSpec {num : Type} := mk_field_spec {
  fs_name : string;
  fs_type : string;
  fs_title : option string;
  fs_value : option (json num)
}.
Arguments FieldSpec num : clear implicits.
Arguments mk_field_spec {num}.
Arguments fs_name {num}.
Arguments fs_type {num}.
Arguments fs_title {num}.
Arguments fs_value {num}.

Record TransitionSpec {num : Type} := mk_transition_spec {
  ts_name : string;
  ts_title : option string;
  ts_allowed_states : list string;
  ts_input_schema : option (json num);
  ts_output_schema : option (json num);
  ts_result : TransitionResultKind;
  ts_idempotency : Idempotency;
  ts_effect : Effect;
  ts_required_scopes : list string;
  ts_fields : list (FieldSpec num)
}.
Arguments TransitionSpec num : clear implicits.
Arguments mk_transition_spec {num}.
Arguments ts_name {num}.
Arguments ts_title {num}.
Arguments ts_allowed_states {num}.
Arguments ts_input_schema {num}.
Arguments ts_output_schema {num}.
Arguments ts_result {num}.
Arguments ts_idempotency {num}.
Arguments ts_effect {num}.
Arguments ts_required_scopes {num}.
Arguments ts_fields {num}.

Record ResourceSpec {num : Type} := mk_resource_spec {
  sp_kind : string;
  sp_name : option string;
  sp_labels : list (string * string);          (** [BTreeMap<String, String>] *)
  sp_property_schema : option (json num);
  sp_streams : list StreamSpec
}.
Arguments ResourceSpec num : clear implicits.
Arguments mk_resource_spec {num}.
Arguments sp_kind {num}.
Arguments sp_name {num}.
Arguments sp_labels {num}.
Arguments sp_property_schema {num}.
Arguments sp_streams {num}.

Record ActorSpec {num : Type} := mk_actor_spec {
  as_resource : ResourceSpec num;
  as_transitions : list (TransitionSpec num)
}.
Arguments ActorSpec num : clear implicits.
Arguments mk_actor_spec {num}.
Arguments as_resource {num}.
Arguments as_transitions {num}.

(** ** Snapshots *)

Record TransitionAffordance {num : Type} := mk_affordance {
  ta_spec : TransitionSpec num;
  ta_available : bool;
  ta_unavailable_reason : option string
}.
Arguments TransitionAffordance num : clear implicits.
Arguments mk_affordance {num}.
Arguments ta_spec {num}.
Arguments ta_available {num}.
Arguments ta_unavailable_reason {num}.

Record SnapshotStreamSpec := mk_snapshot_stream { ss_name : string; ss_kind : StreamKind }.

Record ResourceSnapshot {num : Type} := mk_snapshot {
  rs_id : string;
  rs_kind : string;
  rs_name : option string;
  rs_state : option string;
  rs_node : string;
  rs_properties : list (string * json num);    (** [serde_json::Map] *)
  rs_labels : list (string * string);          (** [BTreeMap<String, String>] *)
  rs_transitions : list (TransitionAffordance num);
  rs_streams : list SnapshotStreamSpec;
  rs_revision : option string;
  rs_metadata : list (string * json num)
}.
Arguments ResourceSnapshot num : clear implicits.
Arguments mk_snapshot {num}.
Arguments rs_id {num}.
Arguments rs_kind {num}.
Arguments rs_name {num}.
Arguments rs_state {num}.
Arguments rs_node {num}.
Arguments rs_properties {num}.
Arguments rs_labels {num}.
Arguments rs_transitions {num}.
Arguments rs_streams {num}.
Arguments rs_revision {num}.
Arguments rs_metadata {num}.

Record AcceptedJob := mk_accepted_job {
  aj_id : string;
  aj_kind : string;
  aj_location : string;
  aj_created : bool
}.

Inductive TransitionOutcome {num : Type} :=
| Completed (output : option (json num)) (snapshot : ResourceSnapshot num)
| Accepted (job : AcceptedJob) (output : option (json num)).
Arguments TransitionOutcome num : clear implicits.
Arguments Completed {num}.
Arguments Accepted {num}.

#[export] Instance stream_kind_eq_dec : EqDecision StreamKind.
Proof. solve_decision. Defined.
#[export] Instance stream_spec_eq_dec : EqDecision StreamSpec.
Proof. solve_decision. Defined.
#[export] Instance snapshot_stream_eq_dec : EqDecision SnapshotStreamSpec.
Proof. solve_decision. Defined.
#[export] Instance resource_error_eq_dec : EqDecision ResourceError.
Proof. solve_decision. Defined.
#[export] Instance transition_error_eq_dec : EqDecision TransitionError.
Proof. solve_decision. Defined.

Section specs.
  Context {num : Type}.
  Implicit Types (s : TransitionSpec num) (snap : ResourceSnapshot num).

(** [TransitionSpec::default], [sync], [async_job] and the chained setters. *)
Definition transition_spec_default : TransitionSpec num :=
  mk_transition_spec "" None [] None None Sync IdemNone Unsafe [] [].

Definition transition_spec_with (name : string) (result : TransitionResultKind)
    : TransitionSpec num :=
  let d := transition_spec_default in
  mk_transition_spec name (ts_title d) (ts_allowed_states d) (ts_input_schema d)
    (ts_output_schema d) result (ts_idempotency d) (ts_effect d)
    (ts_required_scopes d) (ts_fields d).

Definition sync (name : string) : TransitionSpec num := transition_spec_with name Sync.
Definition async_job (name : string) : TransitionSpec num := transition_spec_with name AsyncJob.

Definition spec_title (title : string) s : TransitionSpec num :=
  mk_transition_spec (ts_name s) (Some title) (ts_allowed_states s) (ts_input_schema s)
    (ts_output_schema s) (ts_result s) (ts_idempotency s) (ts_effect s)
    (ts_required_scopes s) (ts_fields s).

Definition spec_allowed_states (states : list string) s : TransitionSpec num :=
  mk_transition_spec (ts_name s) (ts_title s) states (ts_input_schema s)
    (ts_output_schema s) (ts_result s) (ts_idempotency s) (ts_effect s)
    (ts_required_scopes s) (ts_fields s).

Definition spec_effect (effect : Effect) s : TransitionSpec num :=
  mk_transition_spec (ts_name s) (ts_title s) (ts_allowed_states s) (ts_input_schema s)
    (ts_output_schema s) (ts_result s) (ts_idempotency s) effect
    (ts_required_scopes s) (ts_fields s).

Definition spec_idempotency (idempotency : Idempotency) s : TransitionSpec num :=
  mk_transition_spec (ts_name s) (ts_title s) (ts_allowed_states s) (ts_input_schema s)
    (ts_output_schema s) (ts_result s) idempotency (ts_effect s)
    (ts_required_scopes s) (ts_fields s).

(** [TransitionAffordance::available], [unavailable], [name] *)
Definition affordance_available s : TransitionAffordance num := mk_affordance s true None.
Definition affordance_unavailable s (reason : string) : TransitionAffordance num :=
  mk_affordance s false (Some reason).
Definition affordance_name (t : TransitionAffordance num) : string := ts_name (ta_spec t).

(** [From<StreamSpec> for SnapshotStreamSpec] *)
Definition snapshot_stream_from (spec : StreamSpec) : SnapshotStreamSpec :=
  mk_snapshot_stream (st_name spec) (st_kind spec).

(** [TransitionInput]: its fields, a [BTreeMap<String, Value>]. *)
Definition TransitionInput : Type := list (string * json num).

Definition input_get (name : string) (i : TransitionInput) : option (json num) :=
  map_get name i.

Definition input_get_str (name : string) (i : TransitionInput) : option string :=
  match map_get name i with Some (JString s) => Some s | _ => None end.

(** [fields.into_iter().collect()]: the entries inserted one after the other. *)
Definition collect_map {A} (l : list (string * A)) : list (string * A) :=
  foldl (λ m kv, map_insert kv.1 kv.2 m) [] l.

Definition into_value (i : TransitionInput) : json num := JObject (collect_map i).

(** [deserialize] and [as_deserialized]: [serde_json::from_value] at the
    caller's type is a parameter. *)
Definition deserialize {T} (from_value : json num → result string T) (i : TransitionInput)
    : result TransitionError T :=
  map_err TInvalidInput (from_value (into_value i)).

(** [ResourceSnapshot::builder] and the builder's setters. *)
Definition builder (kind : string) : ResourceSnapshot num :=
  mk_snapshot "" kind None None "" [] [] [] [] None [].

Definition build_name (n : string) snap : ResourceSnapshot num :=
  mk_snapshot (rs_id snap) (rs_kind snap) (Some n) (rs_state snap) (rs_node snap)
    (rs_properties snap) (rs_labels snap) (rs_transitions snap) (rs_streams snap)
    (rs_revision snap) (rs_metadata snap).

Definition build_state (st : string) snap : ResourceSnapshot num :=
  mk_snapshot (rs_id snap) (rs_kind snap) (rs_name snap) (Some st) (rs_node snap)
    (rs_properties snap) (rs_labels snap) (rs_transitions snap) (rs_streams snap)
    (rs_revision snap) (rs_metadata snap).

Definition build_properties (p : list (string * json num)) snap : ResourceSnapshot num :=
  mk_snapshot (rs_id snap) (rs_kind snap) (rs_name snap) (rs_state snap) (rs_node snap)
    p (rs_labels snap) (rs_transitions snap) (rs_streams snap)
    (rs_revision snap) (rs_metadata snap).

Definition build_labels (l : list (string * string)) snap : ResourceSnapshot num :=
  mk_snapshot (rs_id snap) (rs_kind snap) (rs_name snap) (rs_state snap) (rs_node snap)
    (rs_properties snap) l (rs_transitions snap) (rs_streams snap)
    (rs_revision snap) (rs_metadata snap).

Definition build_transitions (t : list (TransitionAffordance num)) snap : ResourceSnapshot num :=
  mk_snapshot (rs_id snap) (rs_kind snap) (rs_name snap) (rs_state snap) (rs_node snap)
    (rs_properties snap) (rs_labels snap) t (rs_streams snap)
    (rs_revision snap) (rs_metadata snap).

Definition build_streams (st : list SnapshotStreamSpec) snap : ResourceSnapshot num :=
  mk_snapshot (rs_id snap) (rs_kind snap) (rs_name snap) (rs_state snap) (rs_node snap)
    (rs_properties snap) (rs_labels snap) (rs_transitions snap) st
    (rs_revision snap) (rs_metadata snap).

Definition build_revision (r : string) snap : ResourceSnapshot num :=
  mk_snapshot (rs_id snap) (rs_kind snap) (rs_name snap) (rs_state snap) (rs_node snap)
    (rs_properties snap) (rs_labels snap) (rs_transitions snap) (rs_streams snap)
    (Some r) (rs_metadata snap).

Definition build_metadata (m : list (string * json num)) snap : ResourceSnapshot num :=
  mk_snapshot (rs_id snap) (rs_kind snap) (rs_name snap) (rs_state snap) (rs_node snap)
    (rs_properties snap) (rs_labels snap) (rs_transitions snap) (rs_streams snap)
    (rs_revision snap) m.

(** [TransitionOutcome::accepted]: the payload's [serde_json::to_value] is the
    argument [output]. *)
Definition outcome_accepted (job : AcceptedJob) (output : result string (json num))
    : result TransitionError (TransitionOutcome num) :=
  let? o := map_err TInternal output in Ok (Accepted job (Some o)).

(** ** The query document *)

(** [opt.clone().map(JsonValue::String).unwrap_or(JsonValue::Null)] *)
Definition opt_string (o : option string) : json num := from_option JString JNull o.

Definition stream_kind_str (k : StreamKind) : string :=
  match k with Object => "object" | Binary => "binary" end.

Definition result_kind_str (k : TransitionResultKind) : string :=
  match k with Sync => "sync" | AsyncJob => "async-job" end.

Definition idempotency_str (i : Idempotency) : string :=
  match i with IdemNone => "none" | Supported => "supported" | Required => "required" end.

Definition effect_str (e : Effect) : string :=
  match e with
  | Safe => "safe"
  | UnsafeIdempotent => "unsafe-idempotent"
  | Unsafe => "unsafe"
  end.

(** [if let Some(v) = opt { m.insert(k, v) }] *)
Definition insert_opt (k : string) (v : option (json num)) (m : list (string * json num)) :=
  match v with Some v => map_insert k v m | None => m end.

Definition transition_affordance_to_query_json (t : TransitionAffordance num) : json num :=
  let spec := ta_spec t in
  let m := map_insert "name" (JString (ts_name spec)) [] in
  let m := insert_opt "title" (JString <$> ts_title spec) m in
  let m := map_insert "allowedStates" (JArray (map JString (ts_allowed_states spec))) m in
  let m := insert_opt "inputSchema" (ts_input_schema spec) m in
  let m := insert_opt "outputSchema" (ts_output_schema spec) m in
  let m := map_insert "result" (JString (result_kind_str (ts_result spec))) m in
  let m := map_insert "idempotency" (JString (idempotency_str (ts_idempotency spec))) m in
  let m := map_insert "effect" (JString (effect_str (ts_effect spec))) m in
  let m := map_insert "requiredScopes" (JArray (map JString (ts_required_scopes spec))) m in
  let m := map_insert "available" (JBool (ta_available t)) m in
  let m := map_insert "unavailableReason" (opt_string (ta_unavailable_reason t)) m in
  JObject m.

Definition stream_to_query_json (s : SnapshotStreamSpec) : json num :=
  let m := map_insert "name" (JString (ss_name s)) [] in
  let m := map_insert "kind" (JString (stream_kind_str (ss_kind s))) m in
  JObject m.

(** [ResourceSnapshot::to_query_value] *)
Definition to_query_value snap : json num :=
  let o := map_insert "id" (JString (rs_id snap)) [] in
  let o := map_insert "kind" (JString (rs_kind snap)) o in
  let o := map_insert "name" (opt_string (rs_name snap)) o in
  let o := map_insert "state" (opt_string (rs_state snap)) o in
  let o := map_insert "node" (JString (rs_node snap)) o in
  let o := map_insert "properties" (JObject (rs_properties snap)) o in
  let labels_obj := collect_map (map (λ kv, (kv.1, JString kv.2)) (rs_labels snap)) in
  let o := map_insert "labels" (JObject labels_obj) o in
  let o := map_insert "transitions"
             (JArray (map transition_affordance_to_query_json (rs_transitions snap))) o in
  let o := map_insert "streams" (JArray (map stream_to_query_json (rs_streams snap))) o in
  let o := map_insert "revision" (opt_string (rs_revision snap)) o in
  let o := map_insert "metadata" (JObject (rs_metadata snap)) o in
  JObject o.

(** ** The derived [Serialize] *)

(** The variant names of the enums that carry no [rename_all]. *)
Definition result_kind_variant (k : TransitionResultKind) : string :=
  match k with Sync => "Sync" | AsyncJob => "AsyncJob" end.

Definition idempotency_variant (i : Idempotency) : string :=
  match i with IdemNone => "None" | Supported => "Supported" | Required => "Required" end.

Definition effect_variant (e : Effect) : string :=
  match e with Safe => "Safe" | UnsafeIdempotent => "UnsafeIdempotent" | Unsafe => "Unsafe" end.

(** An absent option serializes as null, and so does a present null. *)
Definition opt_value (o : option (json num)) : json num := default JNull o.

Definition field_spec_to_value (f : FieldSpec num) : json num :=
  JObject (map_insert "value" (opt_value (fs_value f)) (
    map_insert "title" (opt_string (fs_title f)) (
    map_insert "type_" (JString (fs_type f)) (
    map_insert "name" (JString (fs_name f)) [])))).

Definition transition_spec_to_value s : json num :=
  JObject (map_insert "fields" (JArray (map field_spec_to_value (ts_fields s))) (
    map_insert "required_scopes" (JArray (map JString (ts_required_scopes s))) (
    map_insert "effect" (JString (effect_variant (ts_effect s))) (
    map_insert "idempotency" (JString (idempotency_variant (ts_idempotency s))) (
    map_insert "result" (JString (result_kind_variant (ts_result s))) (
    map_insert "output_schema" (opt_value (ts_output_schema s)) (
    map_insert "input_schema" (opt_value (ts_input_schema s)) (
    map_insert "allowed_states" (JArray (map JString (ts_allowed_states s))) (
    map_insert "title" (opt_string (ts_title s)) (
    map_insert "name" (JString (ts_name s)) [])))))))))).

Definition affordance_to_value (t : TransitionAffordance num) : json num :=
  JObject (map_insert "unavailable_reason" (opt_string (ta_unavailable_reason t)) (
    map_insert "available" (JBool (ta_available t)) (
    map_insert "spec" (transition_spec_to_value (ta_spec t)) []))).

Definition snapshot_stream_to_value (s : SnapshotStreamSpec) : json num :=
  JObject (map_insert "kind" (JString (stream_kind_str (ss_kind s))) (
    map_insert "name" (JString (ss_name s)) [])).

(** [serde_json::to_value(&snapshot)]; every field has a JSON form, so it
    cannot fail. *)
Definition snapshot_to_value snap : json num :=
  JObject (map_insert "metadata" (JObject (rs_metadata snap)) (
    map_insert "revision" (opt_string (rs_revision snap)) (
    map_insert "streams" (JArray (map snapshot_stream_to_value (rs_streams snap))) (
    map_insert "transitions" (JArray (map affordance_to_value (rs_transitions snap))) (
    map_insert "labels"
      (JObject (collect_map (map (λ kv, (kv.1, JString kv.2)) (rs_labels snap)))) (
    map_insert "properties" (JObject (rs_properties snap)) (
    map_insert "node" (JString (rs_node snap)) (
    map_insert "state" (opt_string (rs_state snap)) (
    map_insert "name" (opt_string (rs_name snap)) (
    map_insert "kind" (JString (rs_kind snap)) (
    map_insert "id" (JString (rs_id snap)) []))))))))))).
End specs.
Arguments TransitionInput num : clear implicits.

(** ** Facts *)

Section facts.
  Context {num : Type}.
  Implicit Types snap : ResourceSnapshot num.

Lemma map_insert_last {A} k (v : A) m :
  Forall (λ kv, String.compare kv.1 k = Lt) m → map_insert k v m = m ++ [(k, v)].
Proof.
  induction 1 as [|[k' v'] m Hk _ IH]; [done|]. simpl in *.
  by rewrite String.compare_antisym, Hk, IH.
Qed.

(** Collecting the entries of a [BTreeMap] rebuilds it. *)
Lemma collect_map_sorted {A} (l : list (string * A)) : map_sorted l → collect_map l = l.
Proof.
  unfold collect_map. change l with ([] ++ l) at 3.
  assert (H : Forall (λ kv, Forall (λ kv', String.compare kv.1 kv'.1 = Lt) l)
                (@nil (string * A))) by constructor.
  revert H. generalize (@nil (string * A)) as acc.
  induction l as [|[k v] l IH]; intros acc Hacc; simpl.
  { intros _. by rewrite app_nil_r. }
  intros [Hk Hl]. rewrite map_insert_last.
  - rewrite IH, <- app_assoc; [done| |done].
    apply Forall_app. split.
    + apply (Forall_impl _ _ _ Hacc). intros kv H. by inversion H.
    + by constructor.
  - apply (Forall_impl _ _ _ Hacc). intros kv H. by inversion H.
Qed.

Lemma map_sorted_fmap {A B} (f : A → B) (l : list (string * A)) :
  map_sorted l → map_sorted (map (λ kv, (kv.1, f kv.2)) l).
Proof.
  induction l as [|[k v] l IH]; [done|]. simpl. intros [Hk Hl]. split; [|by apply IH].
  by apply Forall_map.
Qed.

Lemma map_get_fmap {A B} (f : A → B) k (l : list (string * A)) :
  map_get k (map (λ kv, (kv.1, f kv.2)) l) = f <$> map_get k l.
Proof. induction l as [|[k' v] l IH]; [done|]. simpl. by case_decide. Qed.

(** The labels object keeps every label. *)
Lemma labels_object (l : list (string * string)) :
  map_sorted l →
  collect_map (map (λ kv, (kv.1, JString (num:=num) kv.2)) l)
  = map (λ kv, (kv.1, JString kv.2)) l.
Proof. intros H. by apply collect_map_sorted, map_sorted_fmap. Qed.

(** ** Types of the query document *)

Lemma json_wf_nil : json_wf (num:=num) (JObject []).
Proof. done. Qed.

Lemma json_wf_insert k v (m : list (string * json num)) :
  json_wf (JObject m) → json_wf v → json_wf (JObject (map_insert k v m)).
Proof.
  rewrite !json_wf_object. intros [Hs Hm] Hv.
  split; [by apply map_insert_sorted|by apply map_insert_forall].
Qed.

Lemma json_wf_insert_opt k o (m : list (string * json num)) :
  json_wf (JObject m) → (∀ v, o = Some v → json_wf v) → json_wf (JObject (insert_opt k o m)).
Proof. intros Hm Ho. destruct o; [|done]. apply json_wf_insert; auto. Qed.

Lemma json_wf_array (l : list (json num)) : json_wf (JArray l) ↔ Forall json_wf l.
Proof. simpl. induction l as [|x l IH]; [done|]. by rewrite Forall_cons, <- IH. Qed.

Lemma json_wf_map {A} (f : A → json num) (l : list A) :
  Forall (λ x, json_wf (f x)) l → json_wf (JArray (map f l)).
Proof. rewrite json_wf_array. apply Forall_map. Qed.

Lemma json_wf_strings (l : list string) : json_wf (num:=num) (JArray (map JString l)).
Proof. by apply json_wf_map, Forall_true. Qed.

Lemma json_wf_opt_string o : json_wf (opt_string (num:=num) o).
Proof. by destruct o. Qed.

(** The invariants of the collections inside a snapshot. *)
Definition opt_wf (o : option (json num)) : Prop := ∀ v, o = Some v → json_wf v.

Record snapshot_wf snap : Prop := {
  wf_properties : json_wf (JObject (rs_properties snap));
  wf_metadata : json_wf (JObject (rs_metadata snap));
  wf_labels : map_sorted (rs_labels snap);
  wf_schemas : Forall (λ t, opt_wf (ts_input_schema (ta_spec t))
                 ∧ opt_wf (ts_output_schema (ta_spec t))) (rs_transitions snap)
}.

Lemma affordance_query_wf (t : TransitionAffordance num) :
  opt_wf (ts_input_schema (ta_spec t)) → opt_wf (ts_output_schema (ta_spec t)) →
  json_wf (transition_affordance_to_query_json t).
Proof.
  intros Hi Ho. unfold transition_affordance_to_query_json.
  repeat first [ apply json_wf_nil | apply json_wf_strings | apply json_wf_opt_string
               | apply json_wf_insert_opt | apply json_wf_insert | done ].
  intros v Hv. destruct (ts_title (ta_spec t)); by simplify_eq/=.
Qed.

Lemma labels_wf (l : list (string * string)) :
  map_sorted l →
  json_wf (JObject (collect_map (map (λ kv, (kv.1, JString (num:=num) kv.2)) l))).
Proof.
  intros H. rewrite labels_object, json_wf_object by done.
  split; [by apply map_sorted_fmap|]. by apply Forall_map, Forall_true.
Qed.

Lemma to_query_value_wf snap : snapshot_wf snap → json_wf (to_query_value snap).
Proof.
  intros [Hp Hm Hl Hs]. unfold to_query_value.
  repeat first [ apply json_wf_nil | apply json_wf_opt_string
               | apply json_wf_insert | by apply labels_wf | done ].
  - apply json_wf_map. apply (Forall_impl _ _ _ Hs). intros t [? ?].
    by apply affordance_query_wf.
  - apply json_wf_map, Forall_true. intros x.
    by repeat apply json_wf_insert.
Qed.

(** The reserved top-level names, in key order. *)
Definition RESERVED_FIELDS : list string :=
  ["id"; "kind"; "labels"; "metadata"; "name"; "node"; "properties"; "revision";
   "state"; "streams"; "transitions"].


(** A path below [transitions] or [streams] never resolves, so a comparison
    such as [transitions.name = x] sees no value: the walk does not descend
    into arrays, and no path syntax reaches an element. *)
Theorem query_path_below_array snap seg (p : FieldPath) :
  Query.lookup ("transitions" :: seg :: p) (to_query_value snap) = None ∧
  Query.lookup ("streams" :: seg :: p) (to_query_value snap) = None ∧
  (∀ k, k ∉ RESERVED_FIELDS → Query.lookup (k :: p) (to_query_value snap) = None).
Proof.
  split_and!; [reflexivity..|]. intros k Hk. unfold RESERVED_FIELDS in Hk.
  rewrite !not_elem_of_cons in Hk. destruct_and!.
  unfold to_query_value. cbn [Query.lookup].
  by rewrite !map_get_insert_ne by congruence.
Qed.
End facts.

(** ** A concrete snapshot *)

Module ResourceExamples.
Definition lamp : ResourceSnapshot N :=
  build_labels [("floor", "2"); ("room", "hall")] (build_properties [("level", JNumber 7%N)]
    (build_state "on" (builder "led"))).

Lemma lamp_wf : snapshot_wf lamp.
Proof.
  split; [simpl; by repeat constructor..|constructor].
Qed.

End ResourceExamples.
