(* ===== verification/Persistence.v ===== *)
(** The persistence boundary ([persistence/mod.rs]): the stored records, the
    repository interfaces as a class with laws, and the in-memory repositories.
    The on-disk repositories are in [Redb]. *)

From S2P Require Import Prelude F64 Json Capabilities Resource.
From S2P Require Peer.

(** ** Errors and the monad of storage calls *)

Inductive StorageError :=
| SUnavailable (msg : string)
| SConflict (msg : string)
| SCorrupt (msg : string)
| SInternal (msg : string).

#[export] Instance storage_error_eq_dec : EqDecision StorageError.
Proof. solve_decision. Defined.

(** The errors that report the store, not the record. *)
Definition storage_failure (e : StorageError) : bool :=
  match e with SConflict _ => false | _ => true end.

(** A call on a store of type [S]: it may fail, and it may change the store. *)
Definition fallible (E S A : Type) : Type := S → result E A * S.
Abbreviation storage S A := (fallible StorageError S A).

Definition sret {E S A} (a : A) : fallible E S A := λ s, (Ok a, s).
Definition sfail {E S A} (e : E) : fallible E S A := λ s, (Err e, s).
Definition sbind {E S A B} (m : fallible E S A) (k : A → fallible E S B) : fallible E S B :=
  λ s, match m s with
       | (Ok a, s') => k a s'
       | (Err e, s') => (Err e, s')
       end.
Definition slift {E S A} (r : result E A) : fallible E S A := λ s, (r, s).
(** [.map_err(f)?] on a call. *)
Definition smap_err {E F S A} (f : E → F) (m : fallible E S A) : fallible F S A :=
  λ s, let '(r, s') := m s in (map_err f r, s').

Notation "'let!' x ':=' m 'in' k" := (sbind m (λ x, k))
  (at level 10, x pattern, m at level 100, k at level 200) : rust_scope.


(** ** Records *)

Record IdentityKey := mk_identity_key {
  ik_namespace : string;
  ik_kind : string;
  ik_key : string
}.

#[export] Instance identity_key_eq_dec : EqDecision IdentityKey.
Proof. solve_decision. Defined.
#[export] Program Instance identity_key_countable : Countable IdentityKey :=
  inj_countable' (λ k, (ik_namespace k, ik_kind k, ik_key k))
    (λ t, mk_identity_key t.1.1 t.1.2 t.2) _.
Next Obligation. by intros []. Qed.

Definition static_name (kind name : string) : IdentityKey := mk_identity_key "static" kind name.
Definition static_unnamed (kind : string) : IdentityKey := mk_identity_key "static" kind "".

Record ResourceIdentityRecord := mk_identity_record {
  ri_id : string;
  ri_kind : string;
  ri_name : option string;
  ri_identity_keys : list IdentityKey;
  ri_labels : list (string * string);
  ri_created_ms : Z;
  ri_updated_ms : Z
}.

#[export] Instance identity_record_eq_dec : EqDecision ResourceIdentityRecord.
Proof. solve_decision. Defined.
#[export] Program Instance identity_record_countable : Countable ResourceIdentityRecord :=
  inj_countable'
    (λ r, (ri_id r, ri_kind r, ri_name r, ri_identity_keys r, ri_labels r,
           ri_created_ms r, ri_updated_ms r))
    (λ '(i, k, n, ks, l, c, u), mk_identity_record i k n ks l c u) _.
Next Obligation. by intros []. Qed.

Record ResourceSnapshotRecord {num : Type} := mk_snapshot_record {
  sr_resource_id : string;
  sr_node_id : string;
  sr_snapshot : ResourceSnapshot num;
  sr_revision : option string;
  sr_updated_ms : Z;
  sr_source_event_id : option string
}.
Arguments ResourceSnapshotRecord num : clear implicits.
Arguments mk_snapshot_record {num}.
Arguments sr_resource_id {num}.
Arguments sr_node_id {num}.
Arguments sr_snapshot {num}.
Arguments sr_revision {num}.
Arguments sr_updated_ms {num}.
Arguments sr_source_event_id {num}.

(** [ResourceSnapshotRecord::latest] *)
Definition latest_record {num} (snapshot : ResourceSnapshot num) (updated_ms : Z)
    : ResourceSnapshotRecord num :=
  mk_snapshot_record (rs_id snapshot) (rs_node snapshot) snapshot (rs_revision snapshot)
    updated_ms None.

Record NodeConfigRecord := mk_node_config {
  nc_node_id : string;
  nc_display_name : string;
  nc_route_name : string;
  nc_updated_ms : Z
}.

#[export] Instance node_config_eq_dec : EqDecision NodeConfigRecord.
Proof. solve_decision. Defined.
#[export] Program Instance node_config_countable : Countable NodeConfigRecord :=
  inj_countable' (λ r, (nc_node_id r, nc_display_name r, nc_route_name r, nc_updated_ms r))
    (λ '(i, d, n, u), mk_node_config i d n u) _.
Next Obligation. by intros []. Qed.

Record PeerConfigRecord := mk_peer_config {
  pc_peer_id : string;
  pc_route_name : string;
  pc_node_id : option string;
  pc_display_name : option string;
  pc_allowed_capabilities : PeerCapabilities;
  pc_updated_ms : Z
}.

Inductive PeerConnectionDirection := Initiator | Acceptor.

Record PeerConnectionStatusRecord := mk_status_record {
  ps_connection_id : string;
  ps_peer_id : string;
  ps_route_name : string;
  ps_direction : PeerConnectionDirection;
  ps_status : Peer.PeerConnectionStatus;
  ps_negotiated_capabilities : PeerCapabilities;
  ps_updated_ms : Z
}.

(** ["\0local"]: no node id contains a zero byte. *)
Definition LOCAL_NODE_SENTINEL_KEY : string := String "000" "local".

(** [Iterator::max_by_key]: the last of the maximal elements. *)
Definition max_by_key {A} (key : A → Z) (l : list A) : option A :=
  foldl (λ acc x, match acc with
                  | None => Some x
                  | Some y => if bool_decide (key y ≤ key x)%Z then Some x else Some y
                  end) None l.

(** ** What an identity store promises *)

(** The abstract store: the records by id. *)
Abbreviation identities := (gmap string ResourceIdentityRecord).

(** Some other record already holds one of the record's keys. *)
Definition key_conflict (r : ResourceIdentityRecord) (m : identities) : Prop :=
  ∃ id r' k, m !! id = Some r' ∧ id ≠ ri_id r ∧
    k ∈ ri_identity_keys r' ∧ k ∈ ri_identity_keys r.

(** Records are stored under their id, and a key belongs to one record. *)
Record identities_wf (m : identities) : Prop := {
  wf_id : ∀ id r, m !! id = Some r → ri_id r = id;
  wf_key : ∀ id id' r r' k, m !! id = Some r → m !! id' = Some r' →
    k ∈ ri_identity_keys r → k ∈ ri_identity_keys r' → id = id'
}.

(** The record that holds a key, if any. *)
Definition holder (k : IdentityKey) (m : identities) (o : option ResourceIdentityRecord) : Prop :=
  match o with
  | Some r => m !! ri_id r = Some r ∧ k ∈ ri_identity_keys r
  | None => ∀ id r, m !! id = Some r → k ∉ ri_identity_keys r
  end.

Lemma identities_wf_empty : identities_wf ∅.
Proof. by split. Qed.

Lemma identities_wf_put r m :
  identities_wf m → ¬ key_conflict r m → identities_wf (<[ri_id r := r]> m).
Proof.
  intros [Hid Hkey] Hc. split.
  - intros id r'. rewrite lookup_insert_Some. naive_solver.
  - intros id id' r1 r2 k. rewrite !lookup_insert_Some.
    intros [[<- <-]|[? H1]] [[<- <-]|[? H2]] Hk1 Hk2; eauto.
    + destruct Hc. by exists id', r2, k.
    + destruct Hc. by exists id, r1, k.
Qed.

(** The trait [ResourceIdentityRepository]. *)
Class ResourceIdentityRepository (S : Type) := {
  ri_get : string → storage S (option ResourceIdentityRecord);
  ri_put : ResourceIdentityRecord → storage S unit;
  ri_find_by_identity_key : IdentityKey → storage S (option ResourceIdentityRecord)
}.

(** Its contract. [id_state s m] says that the store [s] holds the records
    [m]; every call either answers as the abstract store does, or fails
    without changing what is stored. *)
Class ResourceIdentityLaws (S : Type) `{!ResourceIdentityRepository S} := {
  id_state : S → identities → Prop;
  id_state_wf s m : id_state s m → identities_wf m;
  ri_get_spec s m id : id_state s m →
    let '(r, s') := ri_get id s in
    id_state s' m ∧
    match r with Ok o => o = m !! id | Err e => storage_failure e = true end;
  ri_put_spec s m rec : id_state s m →
    let '(r, s') := ri_put rec s in
    match r with
    | Ok _ => ¬ key_conflict rec m ∧ id_state s' (<[ri_id rec := rec]> m)
    | Err e => id_state s' m ∧ (storage_failure e = false → key_conflict rec m)
    end;
  ri_find_spec s m k : id_state s m →
    let '(r, s') := ri_find_by_identity_key k s in
    id_state s' m ∧
    match r with Ok o => holder k m o | Err e => storage_failure e = true end
}.

(** The states in which the calls never report a storage failure: the only
    error left is a conflict. *)
Definition no_failure {A} (r : result StorageError A) : Prop :=
  match r with Ok _ => True | Err e => storage_failure e = false end.

Class ResourceIdentityReliable (S : Type) `{!ResourceIdentityRepository S}
    `{!ResourceIdentityLaws S} := {
  id_healthy : S → Prop;
  ri_get_ok s m id : id_healthy s → id_state s m →
    no_failure (ri_get id s).1 ∧ id_healthy (ri_get id s).2;
  ri_put_ok s m rec : id_healthy s → id_state s m →
    no_failure (ri_put rec s).1 ∧ id_healthy (ri_put rec s).2;
  ri_find_ok s m k : id_healthy s → id_state s m →
    no_failure (ri_find_by_identity_key k s).1 ∧ id_healthy (ri_find_by_identity_key k s).2
}.

(** ** The in-memory repositories *)

Record RepositoryState {num : Type} := mk_repository_state {
  identities_by_id : gmap string ResourceIdentityRecord;
  identity_keys : gmap IdentityKey string;
  latest_snapshots : gmap string (ResourceSnapshotRecord num);
  node_configs : gmap string NodeConfigRecord;
  peer_configs : gmap string PeerConfigRecord;
  peer_connection_statuses : gmap string PeerConnectionStatusRecord
}.
Arguments RepositoryState num : clear implicits.
Arguments mk_repository_state {num}.
Arguments identities_by_id {num}.
Arguments identity_keys {num}.
Arguments latest_snapshots {num}.
Arguments node_configs {num}.
Arguments peer_configs {num}.
Arguments peer_connection_statuses {num}.

(** [Arc<Mutex<RepositoryState>>]: the mutex is poisoned when a thread
    panicked while it held the lock. *)
Record Mutex {num : Type} := mk_mutex { mx_poisoned : bool; mx_state : RepositoryState num }.
Arguments Mutex num : clear implicits.
Arguments mk_mutex {num}.

Section memory.
  Context {num : Type}.
  Implicit Types (st : RepositoryState num) (m : Mutex num).

Definition repository_state_default : RepositoryState num :=
  mk_repository_state ∅ ∅ ∅ ∅ ∅ ∅.

(** [MemoryRepositories::default]: the five stores share one state. *)
Definition memory_default : Mutex num := mk_mutex false repository_state_default.

(** [lock_state] and the guard's scope. *)
Definition lock_state {A} (f : RepositoryState num → result StorageError A * RepositoryState num)
    : storage (Mutex num) A :=
  λ m, if mx_poisoned m then (Err (SInternal "repository lock poisoned"), m)
       else let '(r, st') := f (mx_state m) in (r, mk_mutex false st').

Definition set_identities f st : RepositoryState num :=
  mk_repository_state (f (identities_by_id st)) (identity_keys st) (latest_snapshots st)
    (node_configs st) (peer_configs st) (peer_connection_statuses st).
Definition set_identity_keys f st : RepositoryState num :=
  mk_repository_state (identities_by_id st) (f (identity_keys st)) (latest_snapshots st)
    (node_configs st) (peer_configs st) (peer_connection_statuses st).
Definition set_snapshots f st : RepositoryState num :=
  mk_repository_state (identities_by_id st) (identity_keys st) (f (latest_snapshots st))
    (node_configs st) (peer_configs st) (peer_connection_statuses st).
Definition set_node_configs f st : RepositoryState num :=
  mk_repository_state (identities_by_id st) (identity_keys st) (latest_snapshots st)
    (f (node_configs st)) (peer_configs st) (peer_connection_statuses st).
Definition set_peer_configs f st : RepositoryState num :=
  mk_repository_state (identities_by_id st) (identity_keys st) (latest_snapshots st)
    (node_configs st) (f (peer_configs st)) (peer_connection_statuses st).
Definition set_statuses f st : RepositoryState num :=
  mk_repository_state (identities_by_id st) (identity_keys st) (latest_snapshots st)
    (node_configs st) (peer_configs st) (f (peer_connection_statuses st)).

(** [ResourceIdentityStore] *)
Definition memory_get (id : string) : storage (Mutex num) (option ResourceIdentityRecord) :=
  lock_state (λ st, (Ok (identities_by_id st !! id), st)).

(** The first loop of [put]. *)
Fixpoint check_keys (index : gmap IdentityKey string) (id : string) (keys : list IdentityKey)
    : result StorageError unit :=
  match keys with
  | [] => Ok tt
  | key :: keys' =>
      match index !! key with
      | Some existing_id =>
          if decide (existing_id ≠ id)
          then Err (SConflict ("identity key is already assigned to `" +:+ existing_id +:+ "`"))
          else check_keys index id keys'
      | None => check_keys index id keys'
      end
  end.

Definition put_locked (record : ResourceIdentityRecord) st
    : result StorageError unit * RepositoryState num :=
  match check_keys (identity_keys st) (ri_id record) (ri_identity_keys record) with
  | Err e => (Err e, st)
  | Ok _ =>
      let st := match identities_by_id st !! ri_id record with
                | Some previous =>
                    set_identity_keys
                      (λ idx, foldl (λ idx k, delete k idx) idx (ri_identity_keys previous)) st
                | None => st
                end in
      let st := set_identity_keys
                  (λ idx, foldl (λ idx k, <[k := ri_id record]> idx) idx
                            (ri_identity_keys record)) st in
      (Ok tt, set_identities <[ri_id record := record]> st)
  end.

Definition memory_put (record : ResourceIdentityRecord) : storage (Mutex num) unit :=
  lock_state (put_locked record).

Definition memory_find_by_identity_key (key : IdentityKey)
    : storage (Mutex num) (option ResourceIdentityRecord) :=
  lock_state (λ st, (Ok match identity_keys st !! key with
                        | None => None
                        | Some id => identities_by_id st !! id
                        end, st)).

#[export] Instance memory_identities : ResourceIdentityRepository (Mutex num) := {|
  ri_get := memory_get;
  ri_put := memory_put;
  ri_find_by_identity_key := memory_find_by_identity_key
|}.

(** [NodeConfigStore] *)
Definition memory_node_put (record : NodeConfigRecord) : storage (Mutex num) unit :=
  lock_state (λ st, (Ok tt, set_node_configs
    (λ c, <[nc_node_id record := record]> (<[LOCAL_NODE_SENTINEL_KEY := record]> c)) st)).

Definition memory_node_get (node_id : string) : storage (Mutex num) (option NodeConfigRecord) :=
  lock_state (λ st, (Ok (node_configs st !! node_id), st)).

(** [iter] is the order in which the [HashMap] is traversed: a parameter. *)
Definition memory_node_get_local
    (iter : gmap string NodeConfigRecord → list (string * NodeConfigRecord))
    : storage (Mutex num) (option NodeConfigRecord) :=
  lock_state (λ st, (Ok match node_configs st !! LOCAL_NODE_SENTINEL_KEY with
    | Some record => Some record
    | None =>
        max_by_key nc_updated_ms
          (map snd (List.filter (λ kv, negb (String.eqb kv.1 LOCAL_NODE_SENTINEL_KEY))
                      (iter (node_configs st))))
    end, st)).

(** [PeerConfigStore], [PeerConnectionStatusStore], [ResourceSnapshotStore] *)
Definition memory_peer_put (record : PeerConfigRecord) : storage (Mutex num) unit :=
  lock_state (λ st, (Ok tt, set_peer_configs <[pc_route_name record := record]> st)).

Definition memory_peer_get_by_route (route : string)
    : storage (Mutex num) (option PeerConfigRecord) :=
  lock_state (λ st, (Ok (peer_configs st !! route), st)).

Definition memory_status_put_latest (record : PeerConnectionStatusRecord)
    : storage (Mutex num) unit :=
  lock_state (λ st, (Ok tt, set_statuses <[ps_route_name record := record]> st)).

Definition memory_status_latest_by_route (route : string)
    : storage (Mutex num) (option PeerConnectionStatusRecord) :=
  lock_state (λ st, (Ok (peer_connection_statuses st !! route), st)).

Definition memory_upsert_latest (record : ResourceSnapshotRecord num)
    : storage (Mutex num) unit :=
  lock_state (λ st, (Ok tt, set_snapshots <[sr_resource_id record := record]> st)).

Definition memory_latest (resource_id : string)
    : storage (Mutex num) (option (ResourceSnapshotRecord num)) :=
  lock_state (λ st, (Ok (latest_snapshots st !! resource_id), st)).
End memory.

(** ** Correctness of the in-memory identity store *)

Section memory_facts.
  Context {num : Type}.
  Implicit Types (st : RepositoryState num) (mx : Mutex num) (idx : gmap IdentityKey string).

Lemma foldl_delete_lookup (keys : list IdentityKey) idx k :
  foldl (λ idx k, delete k idx) idx keys !! k = if decide (k ∈ keys) then None else idx !! k.
Proof.
  revert idx. induction keys as [|k' keys IH]; intros idx.
  { by rewrite decide_False by set_solver. }
  cbn [foldl]. rewrite IH. destruct (decide (k ∈ keys)); [by rewrite decide_True by set_solver|].
  destruct (decide (k = k')) as [->|].
  - by rewrite lookup_delete_eq, decide_True by set_solver.
  - by rewrite lookup_delete_ne, decide_False by set_solver.
Qed.

Lemma foldl_insert_lookup (keys : list IdentityKey) (id : string) idx k :
  foldl (λ idx k, <[k := id]> idx) idx keys !! k
  = if decide (k ∈ keys) then Some id else idx !! k.
Proof.
  revert idx. induction keys as [|k' keys IH]; intros idx.
  { by rewrite decide_False by set_solver. }
  cbn [foldl]. rewrite IH. destruct (decide (k ∈ keys)); [by rewrite decide_True by set_solver|].
  destruct (decide (k = k')) as [->|].
  - by rewrite lookup_insert_eq, decide_True by set_solver.
  - by rewrite lookup_insert_ne, decide_False by set_solver.
Qed.

(** The secondary index is exactly the keys of the stored records. *)
Record memory_wf st : Prop := {
  mw_id : ∀ id r, identities_by_id st !! id = Some r → ri_id r = id;
  mw_index : ∀ k id, identity_keys st !! k = Some id ↔
    ∃ r, identities_by_id st !! id = Some r ∧ k ∈ ri_identity_keys r
}.

Lemma memory_wf_default : memory_wf repository_state_default.
Proof. split; [done|]. intros k id. simpl. rewrite !lookup_empty. naive_solver. Qed.

Lemma memory_wf_identities st : memory_wf st → identities_wf (identities_by_id st).
Proof.
  intros [Hid Hidx]. split; [done|]. intros id id' r r' k H H' Hk Hk'.
  assert (identity_keys st !! k = Some id) by (apply Hidx; eauto).
  assert (identity_keys st !! k = Some id') by (apply Hidx; eauto). congruence.
Qed.

Lemma check_keys_ok idx id keys :
  is_ok (check_keys idx id keys) = true ↔ ∀ k e, k ∈ keys → idx !! k = Some e → e = id.
Proof.
  induction keys as [|k keys IH]; simpl; [set_solver|].
  destruct (idx !! k) as [e|] eqn:E; [case_decide as D|]; simpl.
  - split; [done|]. intros H. destruct D. by apply (H k); [set_solver|].
  - rewrite IH. subst e. set_solver.
  - rewrite IH. set_solver.
Qed.

Lemma check_keys_err idx id keys e :
  check_keys idx id keys = Err e →
  storage_failure e = false ∧ ∃ k o, k ∈ keys ∧ idx !! k = Some o ∧ o ≠ id.
Proof.
  induction keys as [|k keys IH]; simpl; [done|].
  destruct (idx !! k) as [o|] eqn:E; [case_decide|]; intros Hc; simplify_eq/=.
  - split; [done|]. exists k, o. set_solver.
  - destruct (IH Hc) as (? & k' & o' & ? & ?). split; [done|]. exists k', o'. set_solver.
  - destruct (IH Hc) as (? & k' & o' & ? & ?). split; [done|]. exists k', o'. set_solver.
Qed.

Lemma check_keys_conflict st rec :
  memory_wf st →
  is_ok (check_keys (identity_keys st) (ri_id rec) (ri_identity_keys rec)) = false ↔
  key_conflict rec (identities_by_id st).
Proof.
  intros [Hid Hidx]. split.
  - destruct (check_keys _ _ _) as [|e] eqn:E; [done|]. intros _.
    destruct (check_keys_err _ _ _ _ E) as (_ & k & o & Hk & Ho & Hne).
    apply Hidx in Ho as (r & ? & ?). by exists o, r, k.
  - intros (id & r & k & Hr & Hne & Hk & Hk'). apply not_true_is_false.
    rewrite check_keys_ok. intros H. destruct Hne. apply (H k); [done|]. apply Hidx. eauto.
Qed.

(** What [put] leaves in the index. *)
Lemma put_locked_index st rec st' k :
  put_locked rec st = (Ok tt, st') →
  identity_keys st' !! k =
    if decide (k ∈ ri_identity_keys rec) then Some (ri_id rec)
    else match identities_by_id st !! ri_id rec with
         | Some prev => if decide (k ∈ ri_identity_keys prev) then None else identity_keys st !! k
         | None => identity_keys st !! k
         end.
Proof.
  unfold put_locked. destruct (check_keys _ _ _); [|done].
  destruct (identities_by_id st !! ri_id rec) as [prev|]; intros H; simplify_eq/=;
    by rewrite foldl_insert_lookup, ?foldl_delete_lookup.
Qed.

Lemma put_locked_identities st rec st' :
  put_locked rec st = (Ok tt, st') →
  identities_by_id st' = <[ri_id rec := rec]> (identities_by_id st).
Proof.
  unfold put_locked. destruct (check_keys _ _ _); [|done].
  destruct (identities_by_id st !! ri_id rec); intros H; by simplify_eq/=.
Qed.

Lemma put_locked_wf st rec st' :
  memory_wf st → put_locked rec st = (Ok tt, st') → memory_wf st'.
Proof.
  intros Hwf Hput. pose proof Hwf as [Hid Hidx].
  assert (Hok : ∀ k e, k ∈ ri_identity_keys rec → identity_keys st !! k = Some e → e = ri_id rec).
  { apply check_keys_ok. unfold put_locked in Hput. by destruct (check_keys _ _ _). }
  split.
  - intros id r. rewrite (put_locked_identities _ _ _ Hput), lookup_insert_Some. naive_solver.
  - intros k id. rewrite (put_locked_index _ _ _ k Hput), (put_locked_identities _ _ _ Hput).
    setoid_rewrite lookup_insert_Some. case_decide as Hk; [|].
    + split; [intros [= <-]; eauto|]. intros (r & [[<- ?]|[Hne Hr]] & Hkr); [done|].
      f_equal. symmetry. apply (Hok k); [done|]. apply Hidx. eauto.
    + destruct (identities_by_id st !! ri_id rec) as [prev|] eqn:Eprev; [case_decide as Hp|].
      * split; [done|]. intros (r & [[<- <-]|[Hne Hr]] & Hkr); [done|]. destruct Hne.
        assert (identity_keys st !! k = Some id) by (apply Hidx; eauto).
        assert (identity_keys st !! k = Some (ri_id rec)) by (apply Hidx; eauto). congruence.
      * rewrite Hidx. split; [intros (r & Hr & Hkr)|naive_solver].
        exists r. split; [|done]. right. split; [|done]. intros <-. congruence.
      * rewrite Hidx. split; [intros (r & Hr & Hkr)|naive_solver].
        exists r. split; [|done]. right. split; [|done]. intros <-. congruence.
Qed.

(** The in-memory store implements the contract. *)
Definition memory_id_state mx (m : identities) : Prop :=
  memory_wf (mx_state mx) ∧ identities_by_id (mx_state mx) = m.

#[export] Program Instance memory_identity_laws : ResourceIdentityLaws (Mutex num) := {|
  id_state := memory_id_state
|}.
Next Obligation. intros mx m [Hwf <-]. by apply memory_wf_identities. Qed.
Next Obligation.
  intros mx m id [Hwf <-]. simpl. unfold memory_get, lock_state.
  by destruct mx as [[] st].
Qed.
Next Obligation.
  intros mx m rec [Hwf <-]. simpl. unfold memory_put, lock_state.
  destruct mx as [[] st]; simpl in *; [done|].
  destruct (put_locked rec st) as [[[]|e] st'] eqn:E; simpl.
  - split.
    + rewrite <- check_keys_conflict by done. unfold put_locked in E.
      by destruct (check_keys _ _ _).
    + split; [by eapply put_locked_wf|by apply put_locked_identities].
  - unfold put_locked in E. destruct (check_keys _ _ _) eqn:Ec; simplify_eq.
    split; [done|]. intros _. apply check_keys_conflict; [done|]. by rewrite Ec.
Qed.
Next Obligation.
  intros mx m k [Hwf <-]. simpl. unfold memory_find_by_identity_key, lock_state.
  destruct mx as [[] st]; simpl in *; [done|]. split; [done|].
  destruct (identity_keys st !! k) as [id|] eqn:Ek.
  - apply Hwf in Ek as (r & Hr & Hk). rewrite Hr. simpl.
    by rewrite (mw_id _ Hwf _ _ Hr).
  - intros id r Hr Hk.
    assert (identity_keys st !! k = Some id) by (apply Hwf; eauto). congruence.
Qed.

#[export] Program Instance memory_identity_reliable : ResourceIdentityReliable (Mutex num) := {|
  id_healthy := λ mx, mx_poisoned mx = false
|}.
Next Obligation. by intros [[] st]. Qed.
Next Obligation.
  intros [[] st] m rec Hh [Hwf <-]; [done|]. simpl in *.
  unfold memory_put, lock_state. simpl.
  destruct (put_locked rec st) as [r st'] eqn:E. split; [|done].
  unfold put_locked in E. destruct (check_keys _ _ _) eqn:Ec; simplify_eq/=; [done|].
  by apply check_keys_err in Ec as [? _].
Qed.
Next Obligation. by intros [[] st]. Qed.
End memory_facts.

(** ** Any two implementations of the contract answer alike *)

Inductive identity_call :=
| CallGet (id : string)
| CallPut (record : ResourceIdentityRecord)
| CallFind (key : IdentityKey).

(** What the caller sees; the text of an error is not compared. *)
Inductive identity_answer :=
| AnsRecord (o : option ResourceIdentityRecord)
| AnsStored
| AnsConflict
| AnsFailed.

Definition answer_of {A} (ok : A → identity_answer) (r : result StorageError A)
    : identity_answer :=
  match r with
  | Ok a => ok a
  | Err e => if storage_failure e then AnsFailed else AnsConflict
  end.

Section agree.
  Context {S : Type} `{!ResourceIdentityRepository S}.

Definition run_call (c : identity_call) (s : S) : identity_answer * S :=
  match c with
  | CallGet id => let '(r, s') := ri_get id s in (answer_of AnsRecord r, s')
  | CallPut rec => let '(r, s') := ri_put rec s in (answer_of (λ _, AnsStored) r, s')
  | CallFind k => let '(r, s') := ri_find_by_identity_key k s in (answer_of AnsRecord r, s')
  end.

Fixpoint run_calls (cs : list identity_call) (s : S) : list identity_answer * S :=
  match cs with
  | [] => ([], s)
  | c :: cs' =>
      let '(a, s') := run_call c s in
      let '(l, s'') := run_calls cs' s' in (a :: l, s'')
  end.

  Context `{!ResourceIdentityLaws S, !ResourceIdentityReliable S}.

(** One call on the abstract store. *)
Inductive spec_call (m : identities) : identity_call → identity_answer → identities → Prop :=
| spec_get id : spec_call m (CallGet id) (AnsRecord (m !! id)) m
| spec_put rec : ¬ key_conflict rec m →
    spec_call m (CallPut rec) AnsStored (<[ri_id rec := rec]> m)
| spec_conflict rec : key_conflict rec m → spec_call m (CallPut rec) AnsConflict m
| spec_find k o : holder k m o → spec_call m (CallFind k) (AnsRecord o) m.

Lemma run_call_spec c s m :
  id_healthy s → id_state s m →
  ∃ m', spec_call m c (run_call c s).1 m' ∧
    id_healthy (run_call c s).2 ∧ id_state (run_call c s).2 m'.
Proof.
  intros Hh Hs. destruct c as [id|rec|k]; simpl.
  - destruct (ri_get_ok s m id Hh Hs) as [Hok Hh'].
    pose proof (ri_get_spec s m id Hs) as H.
    destruct (ri_get id s) as [[o|e] s']; simpl in *; destruct H as [? H]; [|congruence].
    subst o. exists m. split; [constructor|done].
  - destruct (ri_put_ok s m rec Hh Hs) as [Hok Hh'].
    pose proof (ri_put_spec s m rec Hs) as H.
    destruct (ri_put rec s) as [[[]|e] s']; simpl in *; destruct H as [H Hc].
    + exists (<[ri_id rec := rec]> m). split; [by apply spec_put|done].
    + exists m. rewrite Hok. split; [by apply spec_conflict, Hc|done].
  - destruct (ri_find_ok s m k Hh Hs) as [Hok Hh'].
    pose proof (ri_find_spec s m k Hs) as H.
    destruct (ri_find_by_identity_key k s) as [[o|e] s']; simpl in *;
      destruct H as [? H]; [|congruence].
    exists m. split; [by constructor|done].
Qed.
End agree.

Lemma holder_unique k m o o' : identities_wf m → holder k m o → holder k m o' → o = o'.
Proof.
  intros [Hid Hkey]. destruct o as [r|], o' as [r'|]; simpl; try done.
  - intros [H Hk] [H' Hk']. assert (ri_id r = ri_id r') as E by eauto. rewrite E in H. congruence.
  - intros [H Hk] Hn. by destruct (Hn _ _ H).
  - intros Hn [H Hk]. by destruct (Hn _ _ H).
Qed.

Lemma spec_call_det m c a1 a2 m1 m2 :
  identities_wf m → spec_call m c a1 m1 → spec_call m c a2 m2 → a1 = a2 ∧ m1 = m2.
Proof.
  intros Hwf H1 H2. destruct H1; inversion H2; subst; try done.
  split; [|done]. f_equal. by eapply holder_unique.
Qed.

(** Any two stores that implement the identity contract and hold the same
    records give the same answers to every sequence of [get], [put] and
    [find_by_identity_key], so the in-memory repositories and the redb file are
    interchangeable. *)
Theorem identity_stores_agree {S1 S2}
    `{!ResourceIdentityRepository S1, !ResourceIdentityLaws S1, !ResourceIdentityReliable S1}
    `{!ResourceIdentityRepository S2, !ResourceIdentityLaws S2, !ResourceIdentityReliable S2}
    (s1 : S1) (s2 : S2) m (calls : list identity_call) :
  id_healthy s1 → id_healthy s2 → id_state s1 m → id_state s2 m →
  (run_calls calls s1).1 = (run_calls calls s2).1.
Proof.
  revert s1 s2 m. induction calls as [|c calls IH]; intros s1 s2 m Hh1 Hh2 Hs1 Hs2; [done|].
  simpl. destruct (run_call_spec c s1 m Hh1 Hs1) as (m1 & Hc1 & Hh1' & Hs1').
  destruct (run_call_spec c s2 m Hh2 Hs2) as (m2 & Hc2 & Hh2' & Hs2').
  destruct (run_call c s1) as [a1 s1'], (run_call c s2) as [a2 s2']; simpl in *.
  destruct (spec_call_det m c a1 a2 m1 m2) as [-> ->]; [by eapply id_state_wf|done..|].
  specialize (IH s1' s2' m2 Hh1' Hh2' Hs1' Hs2').
  destruct (run_calls calls s1'), (run_calls calls s2'); simpl in *. by f_equal.
Qed.

(** ** The local node record *)

Lemma max_by_key_app {A} (key : A → Z) l x :
  max_by_key key (l ++ [x]) =
    match max_by_key key l with
    | None => Some x
    | Some y => if bool_decide (key y ≤ key x)%Z then Some x else Some y
    end.
Proof. unfold max_by_key. by rewrite foldl_app. Qed.

(** [max_by_key] finds a maximal element, the last one of them. *)
Lemma max_by_key_spec {A} (key : A → Z) l :
  match max_by_key key l with
  | None => l = []
  | Some x => ∃ l1 l2, l = l1 ++ x :: l2 ∧
      Forall (λ y, (key y ≤ key x)%Z) l1 ∧ Forall (λ y, (key y < key x)%Z) l2
  end.
Proof.
  induction l as [|x l IH] using rev_ind; [done|]. rewrite max_by_key_app.
  destruct (max_by_key key l) as [y|]; [|subst; by exists [], []].
  destruct IH as (l1 & l2 & -> & H1 & H2). case_bool_decide as Hle.
  - exists (l1 ++ y :: l2), []. split_and!; [done| |done].
    rewrite Forall_app, Forall_cons. split_and!; [|done|];
      eapply Forall_impl; eauto; simpl; lia.
  - exists l1, (l2 ++ [x]). split_and!; [by rewrite <- app_assoc|done|].
    rewrite Forall_app, Forall_singleton. split; [done|lia].
Qed.
