(* ===== verification/Redb.v ===== *)
(** The on-disk repositories ([persistence/redb.rs]): JSON values in five
    tables of one redb file. The database and the JSON text codec are
    parameters with their documented behaviour as laws; [MapDb] is a database
    that implements them, with injectable failures. *)

From S2P Require Import Prelude F64 Json Capabilities Resource Persistence.

(** ** The database crate *)

(** The calls the sources make on [redb], on a file whose keys are strings.
    A write transaction is private until it commits; dropping it aborts it. *)
Class Redb (Bytes : Type) := {
  Database : Type;
  WriteTxn : Type;
  ReadTxn : Type;
  Table : Type;
  begin_write : Database → result string WriteTxn;
  open_table_w : string → WriteTxn → result string WriteTxn;
  table_insert : string → string → Bytes → WriteTxn → result string WriteTxn;
  commit : WriteTxn → Database → result string unit * Database;
  begin_read : Database → result string ReadTxn;
  open_table_r : string → ReadTxn → result string Table;
  table_get : string → Table → result string (option Bytes);
  table_iter : Table → result string (list (result string (string * Bytes)));
  (** what is committed, and what each transaction sees *)
  db_table : Database → string → option (list (string * Bytes));
  wtxn_table : WriteTxn → string → option (list (string * Bytes));
  rtxn_table : ReadTxn → string → option (list (string * Bytes));
  table_rows : Table → list (string * Bytes)
}.
Arguments Database _ {_}.
Arguments WriteTxn _ {_}.
Arguments ReadTxn _ {_}.
Arguments Table _ {_}.

Class RedbLaws (Bytes : Type) `{!Redb Bytes} : Prop := {
  db_table_sorted d n rows : db_table d n = Some rows → map_sorted rows;
  begin_write_spec d t : begin_write d = Ok t → wtxn_table t = db_table d;
  (** opening a table in a write transaction creates it *)
  open_table_w_spec n t t' n' : open_table_w n t = Ok t' →
    wtxn_table t' n' =
      if decide (n' = n) then Some (default [] (wtxn_table t n)) else wtxn_table t n';
  table_insert_spec n k v t t' rows n' :
    wtxn_table t n = Some rows → table_insert n k v t = Ok t' →
    wtxn_table t' n' = if decide (n' = n) then Some (map_insert k v rows) else wtxn_table t n';
  commit_ok t d d' : commit t d = (Ok tt, d') → db_table d' = wtxn_table t;
  commit_err t d e d' : commit t d = (Err e, d') → db_table d' = db_table d;
  begin_read_spec d t : begin_read d = Ok t → rtxn_table t = db_table d;
  (** a read transaction opens only tables that exist *)
  open_table_r_spec n t tb : open_table_r n t = Ok tb → rtxn_table t n = Some (table_rows tb);
  table_get_spec k tb o : table_get k tb = Ok o → o = map_get k (table_rows tb);
  (** the rows come in key order; reading one may fail *)
  table_iter_spec tb items : table_iter tb = Ok items →
    Forall2 (λ item row, ∀ x, item = Ok x → x = row) items (table_rows tb)
}.

(** A file on which no call fails. *)
Class RedbReliable (Bytes : Type) `{!Redb Bytes} : Prop := {
  begin_write_ok d : is_ok (begin_write d) = true;
  open_table_w_ok n t : is_ok (open_table_w n t) = true;
  table_insert_ok n k v t : is_ok (table_insert n k v t) = true;
  commit_reliable t d : is_ok (commit t d).1 = true;
  begin_read_ok d : is_ok (begin_read d) = true;
  open_table_r_ok n t : is_Some (rtxn_table t n) → is_ok (open_table_r n t) = true;
  table_get_ok k tb : is_ok (table_get k tb) = true;
  table_iter_ok tb : match table_iter tb with
                     | Ok items => Forall (λ i, is_ok i = true) items
                     | Err _ => False
                     end
}.

(** [serde_json::to_vec] and [from_slice] at a record type. *)
Class JsonCodec (Bytes T : Type) := {
  to_vec : T → result string Bytes;
  from_slice : Bytes → result string T
}.

(** What is written reads back. *)
Class JsonCodecLaws (Bytes T : Type) `{!JsonCodec Bytes T} : Prop :=
  from_slice_to_vec r b : to_vec r = Ok b → from_slice b = Ok r.

(** Records of strings, integers and lists always have a JSON text. *)
Class JsonCodecTotal (Bytes T : Type) `{!JsonCodec Bytes T} : Prop :=
  to_vec_ok r : is_ok (to_vec r) = true.

(** ** The repositories *)

Definition RESOURCE_IDENTITIES : string := "resource_identities_v1".
Definition RESOURCE_SNAPSHOTS : string := "resource_snapshot_records_v1".
Definition NODE_CONFIGS : string := "node_configs_v1".
Definition PEER_CONFIGS : string := "peer_configs_v1".
Definition PEER_CONNECTION_STATUS : string := "peer_connection_status_v1".

Definition TABLES : list string :=
  [RESOURCE_IDENTITIES; RESOURCE_SNAPSHOTS; NODE_CONFIGS; PEER_CONFIGS; PEER_CONNECTION_STATUS].

(** [storage_error], [storage_corrupt] *)
Definition storage_error {A} (r : result string A) : result StorageError A :=
  map_err SUnavailable r.
Definition storage_corrupt {A} (r : result string A) : result StorageError A :=
  map_err SCorrupt r.

Fixpoint collect_ok {E A} (l : list (result E A)) : result E (list A) :=
  match l with
  | [] => Ok []
  | r :: l' => let? x := r in let? xs := collect_ok l' in Ok (x :: xs)
  end.

(** [identity_keys_overlap] *)
Definition identity_keys_overlap (left right : list IdentityKey) : bool :=
  existsb (λ key, existsb (λ other, bool_decide (other = key)) right) left.

Section redb.
  Context {Bytes : Type} `{!Redb Bytes}.
  Abbreviation Db := (Database Bytes).

Section json.
  Context {T : Type} `{!JsonCodec Bytes T}.

Definition put_json (table key : string) (record : T) : storage Db unit := λ db,
  match
    let? bytes := storage_error (to_vec record) in
    let? txn := storage_error (begin_write db) in
    let? txn := storage_error (open_table_w table txn) in
    storage_error (table_insert table key bytes txn)
  with
  | Err e => (Err e, db)
  | Ok txn => let '(r, db') := commit txn db in (storage_error r, db')
  end.

Definition get_json (table key : string) : storage Db (option T) := λ db,
  (let? txn := storage_error (begin_read db) in
   let? tb := storage_error (open_table_r table txn) in
   let? o := storage_error (table_get key tb) in
   match o with
   | Some value => let? r := storage_corrupt (from_slice value) in Ok (Some r)
   | None => Ok None
   end, db).

(** The loop stops at the first row that cannot be read or decoded. *)
Definition list_json (table : string) : storage Db (list T) := λ db,
  (let? txn := storage_error (begin_read db) in
   let? tb := storage_error (open_table_r table txn) in
   let? items := storage_error (table_iter tb) in
   collect_ok (map (λ item, let? kv := storage_error item in
                            storage_corrupt (from_slice kv.2)) items), db).
End json.

(** [materialize_tables] *)
Definition materialize_tables : storage Db unit := λ db,
  match
    let? txn := storage_error (begin_write db) in
    foldl (λ r n, let? txn := r in storage_error (open_table_w n txn)) (Ok txn) TABLES
  with
  | Err e => (Err e, db)
  | Ok txn => let '(r, db') := commit txn db in (storage_error r, db')
  end.

(** [RedbRepositories::open] after the file is open, and [from_database]: the
    five repositories share the file. *)
Definition from_database : storage Db unit := materialize_tables.

  Context `{!JsonCodec Bytes ResourceIdentityRecord}.

(** [RedbResourceIdentityRepository] *)
Definition redb_get (id : string) : storage Db (option ResourceIdentityRecord) :=
  get_json RESOURCE_IDENTITIES id.

(** The loop of [put] over the listed records. *)
Fixpoint check_overlap (record : ResourceIdentityRecord) (l : list ResourceIdentityRecord)
    : result StorageError unit :=
  match l with
  | [] => Ok tt
  | existing :: l' =>
      if decide (ri_id existing = ri_id record) then check_overlap record l'
      else if identity_keys_overlap (ri_identity_keys existing) (ri_identity_keys record)
      then Err (SConflict ("identity key is already assigned to `" +:+ ri_id existing +:+ "`"))
      else check_overlap record l'
  end.

(** The two transactions of [put]: reading the table, then writing the row. *)
Definition redb_put_check (record : ResourceIdentityRecord) : storage Db unit :=
  let! l := list_json RESOURCE_IDENTITIES in
  slift (check_overlap record l).

Definition redb_put_write (record : ResourceIdentityRecord) : storage Db unit :=
  put_json RESOURCE_IDENTITIES (ri_id record) record.

Definition redb_put (record : ResourceIdentityRecord) : storage Db unit :=
  let! _ := redb_put_check record in redb_put_write record.

Definition redb_find_by_identity_key (key : IdentityKey)
    : storage Db (option ResourceIdentityRecord) :=
  let! l := list_json RESOURCE_IDENTITIES in
  sret (find (λ record, existsb (λ candidate, bool_decide (candidate = key))
                          (ri_identity_keys record)) l).

#[export] Instance redb_identities : ResourceIdentityRepository Db := {|
  ri_get := redb_get;
  ri_put := redb_put;
  ri_find_by_identity_key := redb_find_by_identity_key
|}.

(** [RedbResourceSnapshotRepository] *)
Definition redb_upsert_latest {num} `{!JsonCodec Bytes (ResourceSnapshotRecord num)}
    (record : ResourceSnapshotRecord num) : storage Db unit :=
  put_json RESOURCE_SNAPSHOTS (sr_resource_id record) record.

Definition redb_latest {num} `{!JsonCodec Bytes (ResourceSnapshotRecord num)}
    (resource_id : string) : storage Db (option (ResourceSnapshotRecord num)) :=
  get_json RESOURCE_SNAPSHOTS resource_id.

(** [RedbNodeConfigRepository]: two transactions. *)
Definition redb_node_put `{!JsonCodec Bytes NodeConfigRecord} (record : NodeConfigRecord)
    : storage Db unit :=
  let! _ := put_json NODE_CONFIGS LOCAL_NODE_SENTINEL_KEY record in
  put_json NODE_CONFIGS (nc_node_id record) record.

Definition redb_node_get `{!JsonCodec Bytes NodeConfigRecord} (node_id : string)
    : storage Db (option NodeConfigRecord) :=
  get_json NODE_CONFIGS node_id.

Definition redb_node_get_local `{!JsonCodec Bytes NodeConfigRecord}
    : storage Db (option NodeConfigRecord) :=
  let! o := get_json NODE_CONFIGS LOCAL_NODE_SENTINEL_KEY in
  match o with
  | Some record => sret (Some record)
  | None =>
      let! l := list_json NODE_CONFIGS in
      sret (max_by_key nc_updated_ms l)
  end.

(** [RedbPeerConfigRepository], [RedbPeerConnectionStatusRepository] *)
Definition redb_peer_put `{!JsonCodec Bytes PeerConfigRecord} (record : PeerConfigRecord)
    : storage Db unit :=
  put_json PEER_CONFIGS (pc_route_name record) record.

Definition redb_peer_get_by_route `{!JsonCodec Bytes PeerConfigRecord} (route : string)
    : storage Db (option PeerConfigRecord) :=
  get_json PEER_CONFIGS route.

Definition redb_status_put_latest `{!JsonCodec Bytes PeerConnectionStatusRecord}
    (record : PeerConnectionStatusRecord) : storage Db unit :=
  put_json PEER_CONNECTION_STATUS (ps_route_name record) record.

Definition redb_status_latest_by_route `{!JsonCodec Bytes PeerConnectionStatusRecord}
    (route : string) : storage Db (option PeerConnectionStatusRecord) :=
  get_json PEER_CONNECTION_STATUS route.
End redb.

#[global] Arguments put_json : simpl never.
#[global] Arguments get_json : simpl never.
#[global] Arguments list_json : simpl never.
#[global] Arguments redb_put_check : simpl never.
#[global] Arguments redb_put_write : simpl never.

(** ** Behaviour of the table helpers *)

Lemma map_get_elem {V} k (v : V) m : map_sorted m → (k, v) ∈ m → map_get k m = Some v.
Proof.
  induction m as [|[k' v'] m IH]; simpl; [by intros _ ?%elem_of_nil|].
  intros [Hk Hm]. rewrite elem_of_cons. intros [[= <- <-]|Hin]; [by rewrite decide_True|].
  rewrite decide_False; [auto|]. intros ->. rewrite Forall_forall in Hk.
  apply Hk in Hin. simpl in Hin. by rewrite string_compare_refl in Hin.
Qed.

Lemma collect_ok_spec {E A} (l : list (result E A)) :
  match collect_ok l with
  | Ok xs => Forall2 (λ r x, r = Ok x) l xs
  | Err e => Err e ∈ l
  end.
Proof.
  induction l as [|r l IH]; simpl; [done|]. destruct r as [x|e]; [|set_solver].
  destruct (collect_ok l); [by constructor|set_solver].
Qed.

Lemma storage_error_failure {A} (r : result string A) e :
  storage_error r = Err e → storage_failure e = true.
Proof. destruct r; intros; by simplify_eq/=. Qed.

Lemma storage_corrupt_failure {A} (r : result string A) e :
  storage_corrupt r = Err e → storage_failure e = true.
Proof. destruct r; intros; by simplify_eq/=. Qed.

Lemma storage_error_ok {A} (r : result string A) a : storage_error r = Ok a → r = Ok a.
Proof. destruct r; intros; by simplify_eq/=. Qed.

Lemma storage_corrupt_ok {A} (r : result string A) a : storage_corrupt r = Ok a → r = Ok a.
Proof. destruct r; intros; by simplify_eq/=. Qed.

Lemma storage_error_is_ok {A} (r : result string A) : is_ok (storage_error r) = is_ok r.
Proof. by destruct r. Qed.

(** Case on the next fallible call of the goal, closing the failing branch. *)
Ltac next_call E :=
  match goal with
  | |- context [storage_error ?r] =>
      destruct (storage_error r) eqn:E;
      [apply storage_error_ok in E|apply storage_error_failure in E]
  | |- context [storage_corrupt ?r] =>
      destruct (storage_corrupt r) eqn:E;
      [apply storage_corrupt_ok in E|apply storage_corrupt_failure in E]
  end.

Section helper_facts.
  Context {Bytes : Type} `{!Redb Bytes, !RedbLaws Bytes}.
  Abbreviation Db := (Database Bytes).
  Context {T : Type} `{!JsonCodec Bytes T}.
  Implicit Types (d : Db) (r : T).

(** A write is all or nothing: the row and nothing else, or no change. *)
Lemma put_json_spec table key r d :
  let '(res, d') := put_json table key r d in
  match res with
  | Ok _ => ∃ b, to_vec r = Ok b ∧ ∀ n, db_table d' n =
      if decide (n = table) then Some (map_insert key b (default [] (db_table d table)))
      else db_table d n
  | Err e => storage_failure e = true ∧ db_table d' = db_table d
  end.
Proof.
  unfold put_json.
  next_call Ev; [|done]. next_call Eb; [|done]. next_call Eo; [|done]. next_call Ei; [|done].
  rename a into b, a0 into t0, a1 into t1, a2 into t2.
  destruct (commit t2 d) as [[[]|e] d'] eqn:Ec; simpl.
  - exists b. split; [done|]. intros n. apply commit_ok in Ec as ->.
    pose proof (begin_write_spec d t0 Eb) as Ht0.
    pose proof (open_table_w_spec table t0 t1 table Eo) as Ht1. rewrite decide_True in Ht1 by done.
    rewrite (table_insert_spec table key b t1 t2 _ n Ht1 Ei), Ht0.
    case_decide as Hn; [done|].
    rewrite (open_table_w_spec table t0 t1 n Eo), decide_False by done. by rewrite Ht0.
  - split; [done|]. by eapply commit_err.
Qed.

Lemma get_json_spec table key d :
  let '(res, d') := get_json (T:=T) table key d in
  d' = d ∧
  match res with
  | Ok o => ∃ rows, db_table d table = Some rows ∧
      match map_get key rows with
      | Some b => ∃ r, from_slice b = Ok r ∧ o = Some r
      | None => o = None
      end
  | Err e => storage_failure e = true
  end.
Proof.
  unfold get_json. split; [done|].
  next_call Eb; [|done]. next_call Eo; [|done]. next_call Eg; [|done].
  apply begin_read_spec in Eb. apply open_table_r_spec in Eo. apply table_get_spec in Eg.
  rewrite Eb in Eo. destruct a1 as [b|].
  - next_call Ef; [|done]. eexists. split; [done|]. rewrite <- Eg. eauto.
  - eexists. split; [done|]. by rewrite <- Eg.
Qed.

Lemma list_json_spec table d :
  let '(res, d') := list_json (T:=T) table d in
  d' = d ∧
  match res with
  | Ok l => ∃ rows, db_table d table = Some rows ∧
      Forall2 (λ row r, from_slice row.2 = Ok r) rows l
  | Err e => storage_failure e = true
  end.
Proof.
  unfold list_json. split; [done|].
  next_call Eb; [|done]. next_call Eo; [|done]. next_call Ei; [|done].
  apply begin_read_spec in Eb. apply open_table_r_spec in Eo. apply table_iter_spec in Ei.
  rewrite Eb in Eo.
  pose proof (collect_ok_spec (map (λ item, let? kv := storage_error item in
    storage_corrupt (from_slice (T:=T) kv.2)) a1)) as H.
  destruct (collect_ok _) as [l|e].
  - eexists. split; [done|]. clear Eo. revert l H.
    induction Ei as [|item row items rows Hi _ IH]; intros l H; inversion H as [|? x ? xs Hx]; subst;
      constructor; [|by apply IH].
    destruct item as [kv|]; [|done]. simpl in Hx. rewrite <- (Hi kv) by done.
    by apply storage_corrupt_ok.
  - apply list_elem_of_fmap in H as (item & He & _).
    destruct item as [kv|]; simpl in He; simplify_eq/=; [|done].
    by eapply storage_corrupt_failure.
Qed.

(** On a reliable file whose rows decode, the helpers never fail. *)
Lemma put_json_ok table key r d :
  RedbReliable Bytes → is_ok (to_vec r) = true → is_ok (put_json table key r d).1 = true.
Proof.
  intros HR H. unfold put_json. rewrite <- storage_error_is_ok in H.
  destruct (storage_error (to_vec r)) as [b|]; [clear H|done].
  pose proof (begin_write_ok d) as H. rewrite <- storage_error_is_ok in H.
  destruct (storage_error (begin_write d)) as [t0|]; [clear H|done].
  pose proof (open_table_w_ok table t0) as H. rewrite <- storage_error_is_ok in H.
  destruct (storage_error (open_table_w table t0)) as [t1|]; [clear H|done].
  pose proof (table_insert_ok table key b t1) as H. rewrite <- storage_error_is_ok in H.
  destruct (storage_error (table_insert table key b t1)) as [t2|]; [clear H|done].
  pose proof (commit_reliable t2 d) as H. destruct (commit t2 d); simpl in *.
  by rewrite storage_error_is_ok.
Qed.

Lemma read_ok table d rows :
  RedbReliable Bytes → db_table d table = Some rows →
  ∃ t tb, begin_read d = Ok t ∧ open_table_r table t = Ok tb ∧ table_rows tb = rows.
Proof.
  intros HR Hd. pose proof (begin_read_ok d) as H.
  destruct (begin_read d) as [t|] eqn:Eb; [clear H|done].
  assert (rtxn_table t table = Some rows) as Ht by (by rewrite (begin_read_spec _ _ Eb)).
  pose proof (open_table_r_ok table t) as H.
  destruct (open_table_r table t) as [tb|] eqn:Eo; [|by rewrite Ht in H; specialize (H ltac:(eauto))].
  exists t, tb. split_and!; [done..|]. apply open_table_r_spec in Eo. congruence.
Qed.

Lemma get_json_ok table key d rows :
  RedbReliable Bytes → db_table d table = Some rows →
  (∀ b, map_get key rows = Some b → is_ok (from_slice (T:=T) b) = true) →
  is_ok (get_json (T:=T) table key d).1 = true.
Proof.
  intros HR Hd Hdec. destruct (read_ok table d rows HR Hd) as (t & tb & Eb & Eo & <-).
  unfold get_json. rewrite Eb. simpl. rewrite Eo. simpl.
  pose proof (table_get_ok key tb) as H.
  destruct (table_get key tb) as [o|] eqn:Eg; [clear H; simpl|done].
  apply table_get_spec in Eg. destruct o as [b|]; [|done].
  specialize (Hdec b (eq_sym Eg)). by destruct (from_slice b).
Qed.

(** What a successful read says, in both directions. *)
Definition row_reads (key : string) (rows : list (string * Bytes)) (o : option T) : Prop :=
  match map_get key rows with
  | Some b => ∃ r, from_slice b = Ok r ∧ o = Some r
  | None => o = None
  end.

Lemma get_json_reads table key d rows o :
  RedbReliable Bytes → db_table d table = Some rows → row_reads key rows o →
  (get_json table key d).1 = Ok o.
Proof.
  intros HR Hd Ho. unfold row_reads in Ho.
  assert (Hok : is_ok (get_json (T:=T) table key d).1 = true).
  { apply (get_json_ok _ _ _ rows); [done..|]. intros b Hb. rewrite Hb in Ho.
    by destruct Ho as (r & -> & _). }
  pose proof (get_json_spec table key d) as H.
  destruct (get_json table key d) as [[o'|] d']; [|done]. simpl. f_equal.
  destruct H as (_ & rows' & Hd' & H). assert (rows' = rows) as -> by congruence.
  destruct (map_get key rows); [destruct Ho as (? & ? & ->), H as (? & ? & ->)|]; congruence.
Qed.

Lemma get_json_read_inv table key d rows o :
  db_table d table = Some rows → (get_json table key d).1 = Ok o → row_reads key rows o.
Proof.
  intros Hd Ho. pose proof (get_json_spec table key d) as H.
  destruct (get_json table key d) as [[o'|] d']; [|done]. simpl in Ho. simplify_eq.
  destruct H as (_ & rows' & Hd' & H). assert (rows' = rows) as -> by congruence. done.
Qed.

Lemma list_json_ok table d rows :
  RedbReliable Bytes → db_table d table = Some rows →
  Forall (λ row, is_ok (from_slice (T:=T) row.2) = true) rows →
  is_ok (list_json (T:=T) table d).1 = true.
Proof.
  intros HR Hd Hdec. destruct (read_ok table d rows HR Hd) as (t & tb & Eb & Eo & <-).
  unfold list_json. rewrite Eb. simpl. rewrite Eo. simpl.
  pose proof (table_iter_ok tb) as H.
  destruct (table_iter tb) as [items|] eqn:Ei; [simpl|done].
  apply table_iter_spec in Ei. clear Hd Eo Eb. revert H Hdec.
  induction Ei as [|item row items rows Hi _ IH]; [done|].
  intros [Hok Hoks]%Forall_cons [Hd1 Hd2]%Forall_cons. specialize (IH Hoks Hd2).
  destruct item as [kv|]; [simpl|done]. rewrite (Hi kv) by done.
  destruct (from_slice row.2); [simpl|done].
  by destruct (collect_ok _).
Qed.
End helper_facts.

(** ** The identity repository implements the contract *)

Section identity_facts.
  Context {Bytes : Type} `{!Redb Bytes, !RedbLaws Bytes}.
  Context `{!JsonCodec Bytes ResourceIdentityRecord, !JsonCodecLaws Bytes ResourceIdentityRecord}.
  Abbreviation Db := (Database Bytes).
  Implicit Types (d : Db) (m : identities).

(** The rows of the table decode to the records. *)
Definition rows_represent (rows : list (string * Bytes)) m : Prop :=
  ∀ id, match map_get id rows with
        | Some b => ∃ r, from_slice b = Ok r ∧ m !! id = Some r
        | None => m !! id = None
        end.

Definition redb_id_state d m : Prop :=
  identities_wf m ∧
  ∃ rows, db_table d RESOURCE_IDENTITIES = Some rows ∧ rows_represent rows m.

Lemma rows_represent_elem rows m (l : list ResourceIdentityRecord) r :
  map_sorted rows → rows_represent rows m →
  Forall2 (λ row r, from_slice row.2 = Ok r) rows l →
  r ∈ l ↔ ∃ id, m !! id = Some r.
Proof.
  intros Hs Hrep Hl. split.
  - intros Hr. apply list_elem_of_lookup in Hr as [i Hi].
    destruct (Forall2_lookup_r _ _ _ _ _ Hl Hi) as ([k b] & Hrow & Hb).
    apply list_elem_of_lookup_2, map_get_elem in Hrow; [|done].
    specialize (Hrep k). rewrite Hrow in Hrep. destruct Hrep as (r' & Hb' & Hm).
    simpl in Hb. exists k. congruence.
  - intros [id Hm]. specialize (Hrep id). destruct (map_get id rows) as [b|] eqn:Eb; [|congruence].
    destruct Hrep as (r' & Hb & Hm'). apply map_get_In, list_elem_of_lookup in Eb as [i Hi].
    destruct (Forall2_lookup_l _ _ _ _ _ Hl Hi) as (r'' & Hr'' & Hb'').
    simpl in Hb''. apply list_elem_of_lookup. exists i. congruence.
Qed.

Lemma rows_represent_put rows m r b :
  rows_represent rows m → from_slice b = Ok r →
  rows_represent (map_insert (ri_id r) b rows) (<[ri_id r := r]> m).
Proof.
  intros Hrep Hb id. rewrite map_get_insert. case_decide as E.
  - subst id. exists r. by rewrite lookup_insert_eq.
  - rewrite lookup_insert_ne by done. apply Hrep.
Qed.

Lemma overlap_spec (l1 l2 : list IdentityKey) :
  identity_keys_overlap l1 l2 = true ↔ ∃ k, k ∈ l1 ∧ k ∈ l2.
Proof.
  unfold identity_keys_overlap. rewrite existsb_exists.
  setoid_rewrite existsb_exists. setoid_rewrite bool_decide_eq_true.
  setoid_rewrite <- list_elem_of_In. naive_solver.
Qed.

Lemma check_overlap_spec rec l :
  match check_overlap rec l with
  | Ok _ => ∀ r k, r ∈ l → ri_id r ≠ ri_id rec →
      k ∈ ri_identity_keys r → k ∉ ri_identity_keys rec
  | Err e => storage_failure e = false ∧ ∃ r k, r ∈ l ∧ ri_id r ≠ ri_id rec ∧
      k ∈ ri_identity_keys r ∧ k ∈ ri_identity_keys rec
  end.
Proof.
  induction l as [|r l IH]; simpl; [set_solver|].
  case_decide as E; [destruct (check_overlap rec l); set_solver|].
  destruct (identity_keys_overlap _ _) eqn:Eo.
  - apply overlap_spec in Eo as (k & ? & ?). split; [done|]. exists r, k. set_solver.
  - apply not_true_iff_false in Eo. rewrite overlap_spec in Eo.
    destruct (check_overlap rec l); set_solver.
Qed.

(** The check of [put], on a table that represents [m]. *)
Lemma redb_put_check_spec rec d m :
  redb_id_state d m →
  let '(res, d') := redb_put_check rec d in
  d' = d ∧
  match res with
  | Ok _ => ¬ key_conflict rec m
  | Err e => storage_failure e = false → key_conflict rec m
  end.
Proof.
  intros (Hwf & rows & Hd & Hrep). unfold redb_put_check, sbind.
  pose proof (list_json_spec (T:=ResourceIdentityRecord) RESOURCE_IDENTITIES d) as H.
  destruct (list_json RESOURCE_IDENTITIES d) as [[l|e] d']; destruct H as [-> H];
    [|split; [done|congruence]].
  destruct H as (rows' & Hd' & Hl). assert (rows' = rows) as -> by congruence.
  assert (Hs : map_sorted rows) by (by eapply db_table_sorted).
  pose proof (rows_represent_elem rows m l) as Hel.
  split; [done|]. simpl. pose proof (check_overlap_spec rec l) as H.
  destruct (check_overlap rec l) as [[]|e].
  - intros (id & r & k & Hr & Hne & Hk & Hk'). apply (H r k); [|by rewrite (wf_id _ Hwf id)|done..].
    apply Hel; eauto.
  - intros _. destruct H as (_ & r & k & [id Hr]%Hel & Hne & Hk & Hk'); [|done..].
    exists id, r, k. by rewrite (wf_id _ Hwf id r Hr) in Hne.
Qed.

Lemma redb_put_write_spec rec d m :
  redb_id_state d m → ¬ key_conflict rec m →
  let '(res, d') := redb_put_write rec d in
  match res with
  | Ok _ => redb_id_state d' (<[ri_id rec := rec]> m)
  | Err e => redb_id_state d' m ∧ storage_failure e = true
  end.
Proof.
  intros (Hwf & rows & Hd & Hrep) Hc. unfold redb_put_write.
  pose proof (put_json_spec RESOURCE_IDENTITIES (ri_id rec) rec d) as H.
  destruct (put_json RESOURCE_IDENTITIES (ri_id rec) rec d) as [[[]|e] d'].
  - destruct H as (b & Hb & Hd'). split; [by apply identities_wf_put|].
    eexists. rewrite Hd', decide_True, Hd by done. split; [done|].
    by apply rows_represent_put, from_slice_to_vec.
  - destruct H as [? Hd']. split; [|done]. split; [done|]. exists rows. by rewrite Hd'.
Qed.

#[export] Program Instance redb_identity_laws : ResourceIdentityLaws Db := {|
  id_state := redb_id_state
|}.
Next Obligation. by intros d m [? _]. Qed.
Next Obligation.
  intros d m id Hs. cbn [ri_get ri_put ri_find_by_identity_key redb_identities].
  unfold redb_get.
  pose proof (get_json_spec (T:=ResourceIdentityRecord) RESOURCE_IDENTITIES id d) as H.
  destruct (get_json RESOURCE_IDENTITIES id d) as [[o|e] d']; destruct H as [-> H]; [|by split].
  split; [done|]. destruct Hs as (_ & rows & Hd & Hrep), H as (rows' & Hd' & Ho).
  assert (rows' = rows) as -> by congruence. specialize (Hrep id).
  destruct (map_get id rows); [destruct Hrep as (? & ? & ?), Ho as (? & ? & ?)|]; congruence.
Qed.
Next Obligation.
  intros d m rec Hs. cbn [ri_get ri_put ri_find_by_identity_key redb_identities].
  unfold redb_put, sbind.
  pose proof (redb_put_check_spec rec d m Hs) as H.
  destruct (redb_put_check rec d) as [[[]|e] d']; destruct H as [-> H]; [|by split].
  pose proof (redb_put_write_spec rec d m Hs H) as H'.
  destruct (redb_put_write rec d) as [[[]|e] d']; [done|].
  destruct H' as [? He]. split; [done|congruence].
Qed.
Next Obligation.
  intros d m k Hs. cbn [ri_get ri_put ri_find_by_identity_key redb_identities].
  unfold redb_find_by_identity_key, sbind.
  pose proof (list_json_spec (T:=ResourceIdentityRecord) RESOURCE_IDENTITIES d) as H.
  destruct (list_json RESOURCE_IDENTITIES d) as [[l|e] d']; destruct H as [-> H]; [|by split].
  split; [done|]. destruct Hs as (Hwf & rows & Hd & Hrep), H as (rows' & Hd' & Hl).
  assert (rows' = rows) as -> by congruence.
  assert (Hel : ∀ r, r ∈ l ↔ ∃ id, m !! id = Some r).
  { intros r. apply (rows_represent_elem rows m); [by eapply db_table_sorted|done..]. }
  simpl. destruct (find _ l) as [r|] eqn:Ef; simpl.
  - apply find_some in Ef as [Hin Hk]. apply list_elem_of_In, Hel in Hin as [id Hid].
    rewrite (wf_id _ Hwf id r Hid). split; [done|].
    apply existsb_exists in Hk as (k' & Hk & ->%bool_decide_eq_true). by apply list_elem_of_In.
  - intros id r Hid Hk. assert (r ∈ l) as Hin by (apply Hel; eauto).
    apply list_elem_of_In in Hin. apply (find_none _ _ Ef), not_true_iff_false in Hin.
    apply Hin. apply existsb_exists. exists k. split; [by apply list_elem_of_In|].
    by apply bool_decide_eq_true.
Qed.

Lemma redb_state_decodes d m rows :
  redb_id_state d m → db_table d RESOURCE_IDENTITIES = Some rows →
  (∀ id b, map_get id rows = Some b →
     is_ok (from_slice (T:=ResourceIdentityRecord) b) = true) ∧
  Forall (λ row, is_ok (from_slice (T:=ResourceIdentityRecord) row.2) = true) rows.
Proof.
  intros (_ & rows' & Hd & Hrep) Hd'. assert (rows' = rows) as -> by congruence.
  assert (H : ∀ id b, map_get id rows = Some b →
     is_ok (from_slice (T:=ResourceIdentityRecord) b) = true).
  { intros id b Hb. specialize (Hrep id). rewrite Hb in Hrep. by destruct Hrep as (r & -> & _). }
  split; [done|]. apply Forall_forall. intros [k b] Hin. apply (H k).
  apply map_get_elem; [by eapply db_table_sorted|done].
Qed.

#[export] Program Instance redb_identity_reliable `{!RedbReliable Bytes}
    `{!JsonCodecTotal Bytes ResourceIdentityRecord} : ResourceIdentityReliable Db := {|
  id_healthy := λ _, True
|}.
Next Obligation.
  intros HR HT d m id _ Hs. split; [|done]. pose proof Hs as (_ & rows & Hd & _).
  cbn [ri_get redb_identities]. unfold redb_get.
  pose proof (get_json_ok RESOURCE_IDENTITIES id d rows HR Hd) as H.
  destruct (get_json RESOURCE_IDENTITIES id d) as [[]]; [done|]. simpl in *.
  exfalso. assert (false = true); [|done]. apply H.
  by apply (redb_state_decodes d m).
Qed.
Next Obligation.
  intros HR HT d m rec _ Hs. split; [|done]. pose proof Hs as (_ & rows & Hd & _).
  cbn [ri_put redb_identities]. unfold redb_put, redb_put_check, sbind.
  pose proof (list_json_ok (T:=ResourceIdentityRecord) RESOURCE_IDENTITIES d rows HR Hd) as H.
  destruct (list_json RESOURCE_IDENTITIES d) as [[l|]]; simpl in *.
  2: { by specialize (H (proj2 (redb_state_decodes d m rows Hs Hd))). }
  pose proof (check_overlap_spec rec l) as Hc.
  destruct (check_overlap rec l) as [[]|e]; [|by destruct Hc].
  pose proof (put_json_ok RESOURCE_IDENTITIES (ri_id rec) rec d0 HR (to_vec_ok rec)) as Hp.
  unfold redb_put_write. by destruct (put_json _ _ rec d0) as [[]].
Qed.
Next Obligation.
  intros HR HT d m k _ Hs. split; [|done]. pose proof Hs as (_ & rows & Hd & _).
  cbn [ri_find_by_identity_key redb_identities]. unfold redb_find_by_identity_key, sbind.
  pose proof (list_json_ok (T:=ResourceIdentityRecord) RESOURCE_IDENTITIES d rows HR Hd) as H.
  destruct (list_json RESOURCE_IDENTITIES d) as [[l|]]; simpl in *; [done|].
  by specialize (H (proj2 (redb_state_decodes d m rows Hs Hd))).
Qed.
End identity_facts.

(** ** A database that implements the laws *)

(** Tables as logs of inserts. [next] decides whether the next commit fails. *)
Module MapDb.
Section map_db.
  Context {Bytes : Type} {F : Type} (next : F → bool * F).

Record db := mk_db { db_logs : gmap string (list (string * Bytes)); db_faults : F }.

Definition rows_of (logs : gmap string (list (string * Bytes))) (n : string)
    : option (list (string * Bytes)) := collect_map <$> logs !! n.

Definition redb : Redb Bytes := {|
  Database := db;
  WriteTxn := gmap string (list (string * Bytes));
  ReadTxn := gmap string (list (string * Bytes));
  Table := list (string * Bytes);
  begin_write := λ d, Ok (db_logs d);
  open_table_w := λ n t, Ok (<[n := default [] (t !! n)]> t);
  table_insert := λ n k v t, Ok (<[n := default [] (t !! n) ++ [(k, v)]]> t);
  commit := λ t d, let '(fault, f) := next (db_faults d) in
    if fault then (Err "i/o error", mk_db (db_logs d) f) else (Ok tt, mk_db t f);
  begin_read := λ d, Ok (db_logs d);
  open_table_r := λ n t, ok_or (rows_of t n) "table does not exist";
  table_get := λ k tb, Ok (map_get k tb);
  table_iter := λ tb, Ok (map Ok tb);
  db_table := λ d, rows_of (db_logs d);
  wtxn_table := rows_of;
  rtxn_table := rows_of;
  table_rows := λ tb, tb
|}.

Lemma collect_map_is_sorted (l : list (string * Bytes)) : map_sorted (collect_map l).
Proof.
  induction l as [|[k v] l IH] using rev_ind; [done|].
  unfold collect_map. rewrite foldl_app. by apply map_insert_sorted.
Qed.

Lemma redb_laws : @RedbLaws Bytes redb.
Proof.
  split; simpl; unfold rows_of.
  - intros d n rows. destruct (db_logs d !! n); intros; simplify_eq/=.
    apply collect_map_is_sorted.
  - intros. by simplify_eq.
  - intros n t t' n' [= <-]. case_decide; subst.
    + rewrite lookup_insert_eq. by destruct (t !! n).
    + by rewrite lookup_insert_ne.
  - intros n k v t t' rows n' Ht [= <-]. case_decide; subst.
    + rewrite lookup_insert_eq. destruct (t !! n); simplify_eq/=.
      unfold collect_map. by rewrite foldl_app.
    + by rewrite lookup_insert_ne.
  - intros t d d'. destruct (next _) as [[] f]; intros; by simplify_eq.
  - intros t d e d'. destruct (next _) as [[] f]; intros; by simplify_eq.
  - intros. by simplify_eq.
  - intros n t tb. destruct (t !! n); intros; by simplify_eq/=.
  - intros. by simplify_eq.
  - intros tb items [= <-]. induction tb; simpl; constructor; [|done]. by intros ? [= ->].
Qed.

Lemma redb_reliable : (∀ f, (next f).1 = false) → @RedbReliable Bytes redb.
Proof.
  intros Hf. split; simpl; try done.
  - intros t d. specialize (Hf (db_faults d)). by destruct (next (db_faults d)) as [[] ?].
  - intros n t [rows Hr]. unfold rows_of in *. by rewrite Hr.
  - intros tb. by apply Forall_map, Forall_true.
Qed.
End map_db.

(** [Countable] types have a codec. *)
Definition codec {T} `{Countable T} : JsonCodec positive T := {|
  to_vec := λ r, Ok (encode r);
  from_slice := λ b, ok_or (decode b) "invalid JSON"
|}.

Lemma codec_laws {T} `{Countable T} : @JsonCodecLaws positive T codec.
Proof. intros r b [= <-]. simpl. by rewrite decode_encode. Qed.

Lemma codec_total {T} `{Countable T} : @JsonCodecTotal positive T codec.
Proof. done. Qed.
End MapDb.

(** ** What the repositories promise *)

Section repository_facts.
  Context {Bytes : Type} `{!Redb Bytes, !RedbLaws Bytes}.
  Abbreviation Db := (Database Bytes).
  Implicit Types d : Db.

Lemma open_tables_spec (ns : list string) (t t' : WriteTxn Bytes) :
  foldl (λ r n, let? txn := r in storage_error (open_table_w n txn)) (Ok t) ns = Ok t' →
  ∀ n, wtxn_table t' n =
    if decide (n ∈ ns) then Some (default [] (wtxn_table t n)) else wtxn_table t n.
Proof.
  revert t. induction ns as [|n0 ns IH]; intros t; cbn [foldl].
  - intros [= <-] n. by rewrite decide_False by set_solver.
  - destruct (storage_error (open_table_w n0 t)) as [t1|e] eqn:Eo.
    2: { intros H. exfalso. clear -H. induction ns; simpl in *; [done|auto]. }
    apply storage_error_ok in Eo. intros H n. rewrite (IH _ H n).
    rewrite (open_table_w_spec n0 t t1 n Eo).
    destruct (decide (n = n0)) as [->|].
    + rewrite (decide_True (P:=n0 ∈ n0 :: ns)) by set_solver. by case_decide.
    + destruct (decide (n ∈ ns)).
      * by rewrite decide_True by set_solver.
      * by rewrite decide_False by set_solver.
Qed.

(** Opening the database creates the five tables, so that every later read
    finds its table, and keeps the rows of the tables that exist; when it fails
    nothing changes. *)
Theorem materialize_tables_spec d :
  let '(r, d') := materialize_tables d in
  match r with
  | Ok _ => ∀ n, db_table d' n =
      if decide (n ∈ TABLES) then Some (default [] (db_table d n)) else db_table d n
  | Err e => storage_failure e = true ∧ db_table d' = db_table d
  end.
Proof.
  unfold materialize_tables. next_call Eb; [|done]. rename a into t.
  destruct (foldl _ (Ok t) TABLES) as [t'|e] eqn:Ef.
  - destruct (commit t' d) as [[[]|e] d'] eqn:Ec; simpl.
    + intros n. rewrite (commit_ok _ _ _ Ec), (open_tables_spec _ _ _ Ef n).
      by rewrite (begin_write_spec _ _ Eb).
    + split; [done|]. by eapply commit_err.
  - split; [|done]. revert Ef. generalize TABLES as ns.
    intros ns. revert t Eb. induction ns as [|n ns IH] using rev_ind; intros t Eb; [done|].
    rewrite foldl_app. simpl. destruct (foldl _ _ ns) as [t1|e1] eqn:E1.
    + by intros ?%storage_error_failure.
    + intros [= ->]. by eapply IH.
Qed.

(** The latest snapshot: on a file whose calls succeed, [upsert_latest]
    succeeds, [latest] then returns what the stored text decodes to, and the
    latest snapshot of every other resource is what it was. *)
Theorem redb_latest_upsert {num} `{!JsonCodec Bytes (ResourceSnapshotRecord num)}
    `{!RedbReliable Bytes} (rec rec' : ResourceSnapshotRecord num) b d rows :
  db_table d RESOURCE_SNAPSHOTS = Some rows →
  to_vec rec = Ok b → from_slice b = Ok rec' →
  let '(r, d') := redb_upsert_latest rec d in
  r = Ok tt ∧
  (redb_latest (num:=num) (sr_resource_id rec) d').1 = Ok (Some rec') ∧
  (∀ id v, id ≠ sr_resource_id rec →
    (redb_latest (num:=num) id d).1 = Ok v → (redb_latest (num:=num) id d').1 = Ok v).
Proof.
  intros Hd Hb Hb'. unfold redb_upsert_latest, redb_latest.
  pose proof (put_json_ok RESOURCE_SNAPSHOTS (sr_resource_id rec) rec d _
                ltac:(by rewrite Hb)) as Hok.
  pose proof (put_json_spec RESOURCE_SNAPSHOTS (sr_resource_id rec) rec d) as H.
  destruct (put_json _ _ rec d) as [[[]|] d']; [|done]. destruct H as (b0 & Hb0 & Hd').
  assert (b0 = b) as -> by congruence. specialize (Hd' RESOURCE_SNAPSHOTS).
  rewrite decide_True, Hd in Hd' by done. simpl in Hd'. split_and!; [done|..].
  - apply (get_json_reads _ _ _ _ _ _ Hd'). unfold row_reads.
    rewrite map_get_insert_eq. by exists rec'.
  - intros id v Hne Hv. apply (get_json_reads _ _ _ _ _ _ Hd'). unfold row_reads.
    rewrite map_get_insert_ne by done. by apply (get_json_read_inv RESOURCE_SNAPSHOTS id d).
Qed.

Section node_config.
  Context `{!JsonCodec Bytes NodeConfigRecord, !JsonCodecLaws Bytes NodeConfigRecord}.
  Context `{!JsonCodecTotal Bytes NodeConfigRecord, !RedbReliable Bytes}.

Lemma put_json_row (table key : string) (rec : NodeConfigRecord) d rows :
  db_table d table = Some rows →
  ∃ b d', put_json table key rec d = (Ok tt, d') ∧ from_slice b = Ok rec ∧
    db_table d' table = Some (map_insert key b rows) ∧
    ∀ n, n ≠ table → db_table d' n = db_table d n.
Proof.
  intros Hd. pose proof (put_json_ok table key rec d _ (to_vec_ok rec)) as Hok.
  pose proof (put_json_spec table key rec d) as H.
  destruct (put_json table key rec d) as [[[]|] d']; [|done]. destruct H as (b & Hb & Hd').
  exists b, d'. split_and!; [done|by apply from_slice_to_vec| |].
  - by rewrite Hd', decide_True, Hd by done.
  - intros n Hn. by rewrite Hd', decide_False by done.
Qed.

(** The node-config table reads as [l], and its local record is [o]. *)
Definition local_record (d : Db) (o : option NodeConfigRecord) : Prop :=
  ∃ rows l, db_table d NODE_CONFIGS = Some rows ∧
    Forall2 (λ row r, from_slice row.2 = Ok r) rows l ∧
    match map_get LOCAL_NODE_SENTINEL_KEY rows with
    | Some b => ∃ r, from_slice b = Ok r ∧ o = Some r
    | None => o = max_by_key nc_updated_ms l
    end.

Lemma redb_node_get_local_spec d o :
  local_record d o → redb_node_get_local d = (Ok o, d).
Proof.
  intros (rows & l & Hd & Hl & Ho). unfold redb_node_get_local, sbind.
  pose proof (get_json_spec (T:=NodeConfigRecord) NODE_CONFIGS LOCAL_NODE_SENTINEL_KEY d) as Hg.
  destruct (map_get LOCAL_NODE_SENTINEL_KEY rows) as [b|] eqn:Es.
  - destruct Ho as (r & Hr & ->).
    assert (Hj : (get_json NODE_CONFIGS LOCAL_NODE_SENTINEL_KEY d).1 = Ok (Some r)).
    { apply (get_json_reads _ _ _ _ _ _ Hd). unfold row_reads. rewrite Es. eauto. }
    destruct (get_json NODE_CONFIGS LOCAL_NODE_SENTINEL_KEY d) as [o' d']. simpl in Hj. subst o'.
    by destruct Hg as [-> _].
  - assert (Hj : (get_json (T:=NodeConfigRecord) NODE_CONFIGS LOCAL_NODE_SENTINEL_KEY d).1 = Ok None).
    { apply (get_json_reads _ _ _ _ _ _ Hd). unfold row_reads. by rewrite Es. }
    destruct (get_json NODE_CONFIGS LOCAL_NODE_SENTINEL_KEY d) as [o' d']. simpl in Hj. subst o'.
    destruct Hg as [-> _].
    pose proof (list_json_ok (T:=NodeConfigRecord) NODE_CONFIGS d rows _ Hd) as Hok.
    pose proof (list_json_spec (T:=NodeConfigRecord) NODE_CONFIGS d) as H.
    destruct (list_json NODE_CONFIGS d) as [[l'|] d']; destruct H as [-> H].
    + destruct H as (rows' & Hd' & Hl'). assert (rows' = rows) as -> by congruence.
      rewrite Ho. unfold sret. do 3 f_equal. clear -Hl Hl'. revert l' Hl'.
      induction Hl; intros l2 Hl2; inversion Hl2; subst; [done|]. f_equal; [congruence|auto].
    + exfalso. assert (false = true); [|done]. apply Hok.
      clear -Hl. induction Hl as [|row r rows l Hr _ IH]; constructor; [|done]. by rewrite Hr.
Qed.

Lemma rows_decode_insert (rows : list (string * Bytes)) (l : list NodeConfigRecord) k b r :
  Forall2 (λ row r, from_slice row.2 = Ok r) rows l → from_slice b = Ok r →
  ∃ l', Forall2 (λ row r, from_slice row.2 = Ok r) (map_insert k b rows) l'.
Proof.
  intros Hl Hb. induction Hl as [|[k' b'] r' rows l Hr Hl [l' IH]]; simpl.
  - exists [r]. by repeat constructor.
  - destruct (String.compare k k').
    + exists (r :: l). by constructor.
    + exists (r :: r' :: l). by repeat constructor.
    + exists (r' :: l'). by constructor.
Qed.

Lemma redb_node_put_spec (rec : NodeConfigRecord) d o :
  local_record d o →
  ∃ d', redb_node_put rec d = (Ok tt, d') ∧ local_record d' (Some rec) ∧
    (redb_node_get (nc_node_id rec) d').1 = Ok (Some rec) ∧
    ∀ n, n ≠ NODE_CONFIGS → db_table d' n = db_table d n.
Proof.
  intros (rows & l & Hd & Hl & _). unfold redb_node_put, sbind.
  destruct (put_json_row NODE_CONFIGS LOCAL_NODE_SENTINEL_KEY rec d rows Hd)
    as (b1 & d1 & E1 & Hb1 & Hd1 & Hf1).
  destruct (put_json_row NODE_CONFIGS (nc_node_id rec) rec d1 _ Hd1)
    as (b2 & d2 & E2 & Hb2 & Hd2 & Hf2). rewrite E1, E2.
  exists d2. split_and!; [done| | |].
  - destruct (rows_decode_insert rows l LOCAL_NODE_SENTINEL_KEY b1 rec Hl Hb1) as [l1 Hl1].
    destruct (rows_decode_insert _ l1 (nc_node_id rec) b2 rec Hl1 Hb2) as [l2 Hl2].
    exists (map_insert (nc_node_id rec) b2 (map_insert LOCAL_NODE_SENTINEL_KEY b1 rows)), l2.
    split_and!; [done..|]. rewrite !map_get_insert. repeat case_decide; try done; eauto.
  - apply (get_json_reads _ _ _ _ _ _ Hd2). unfold row_reads. rewrite map_get_insert_eq. eauto.
  - intros n Hn. by rewrite Hf2, Hf1.
Qed.

(** The local node record. Storing it makes it the answer of [get_local],
    whatever its timestamp and whatever was stored before, and of [get] at its
    node id; on a file from before the sentinel row, [get_local] returns the
    last of the records with the greatest [updated_ms], in node-id order. *)
Theorem redb_node_config_local (rec : NodeConfigRecord) d rows (l : list NodeConfigRecord) :
  db_table d NODE_CONFIGS = Some rows →
  Forall2 (λ row r, from_slice row.2 = Ok r) rows l →
  (let '(r, d') := redb_node_put rec d in
   r = Ok tt ∧ (redb_node_get_local d').1 = Ok (Some rec) ∧
   (redb_node_get (nc_node_id rec) d').1 = Ok (Some rec)) ∧
  (map_get LOCAL_NODE_SENTINEL_KEY rows = None →
    (redb_node_get_local d).1 = Ok (max_by_key nc_updated_ms l) ∧
    match max_by_key nc_updated_ms l with
    | None => rows = []
    | Some x => ∃ l1 l2, l = l1 ++ x :: l2 ∧
        Forall (λ y, (nc_updated_ms y ≤ nc_updated_ms x)%Z) l1 ∧
        Forall (λ y, (nc_updated_ms y < nc_updated_ms x)%Z) l2
    end).
Proof.
  intros Hd Hl. split.
  - assert (local_record d match map_get LOCAL_NODE_SENTINEL_KEY rows with
      | Some b => match from_slice b with Ok r => Some r | Err _ => None end
      | None => max_by_key nc_updated_ms l end) as Hloc.
    { exists rows, l. split_and!; [done..|].
      destruct (map_get LOCAL_NODE_SENTINEL_KEY rows) as [b|] eqn:Es; [|done].
      apply map_get_In, list_elem_of_lookup in Es as [i Hi].
      destruct (Forall2_lookup_l _ _ _ _ _ Hl Hi) as (r & _ & Hr). simpl in Hr.
      exists r. by rewrite Hr. }
    destruct (redb_node_put_spec rec d _ Hloc) as (d' & -> & Hloc' & Hget & _).
    split_and!; [done| |done]. by rewrite (redb_node_get_local_spec d' _ Hloc').
  - intros Hs. split.
    + rewrite (redb_node_get_local_spec d (max_by_key nc_updated_ms l)); [done|].
      exists rows, l. by rewrite Hs.
    + pose proof (max_by_key_spec nc_updated_ms l) as Hm.
      destruct (max_by_key nc_updated_ms l); [done|]. subst l. by inversion Hl.
Qed.
End node_config.

Section race.
  Context `{!JsonCodec Bytes ResourceIdentityRecord, !JsonCodecLaws Bytes ResourceIdentityRecord}.
  Context `{!JsonCodecTotal Bytes ResourceIdentityRecord, !RedbReliable Bytes}.

Lemma redb_put_check_ok rec d m :
  redb_id_state d m → ¬ key_conflict rec m → redb_put_check rec d = (Ok tt, d).
Proof.
  intros Hs Hc. pose proof (redb_put_check_spec rec d m Hs) as H.
  pose proof Hs as (_ & rows & Hd & _).
  pose proof (list_json_ok (T:=ResourceIdentityRecord) RESOURCE_IDENTITIES d rows _ Hd
                (proj2 (redb_state_decodes d m rows Hs Hd))) as Hok.
  destruct (redb_put_check rec d) as [[[]|e] d'] eqn:E; destruct H as [-> H]; [done|].
  unfold redb_put_check, sbind in E. destruct (list_json _ _) as [[l|]]; [|done].
  unfold slift in E. simplify_eq. pose proof (check_overlap_spec rec l) as Hl.
  destruct (check_overlap rec l); simplify_eq. destruct Hc, Hl as [He _]. by apply H.
Qed.

Lemma redb_put_write_row rec d rows :
  db_table d RESOURCE_IDENTITIES = Some rows →
  ∃ b d', redb_put_write rec d = (Ok tt, d') ∧ from_slice b = Ok rec ∧
    db_table d' RESOURCE_IDENTITIES = Some (map_insert (ri_id rec) b rows).
Proof.
  intros Hd. unfold redb_put_write.
  pose proof (put_json_ok RESOURCE_IDENTITIES (ri_id rec) rec d _ (to_vec_ok rec)) as Hok.
  pose proof (put_json_spec RESOURCE_IDENTITIES (ri_id rec) rec d) as H.
  destruct (put_json _ _ rec d) as [[[]|] d']; [|done]. destruct H as (b & Hb & Hd').
  exists b, d'. split_and!; [done|by apply from_slice_to_vec|].
  by rewrite Hd', decide_True, Hd by done.
Qed.

(** [put] of the redb identity repository checks in one transaction and
    writes in another. Two concurrent puts of records that share a key, both
    checked before either writes, both succeed, and the key then belongs to two
    records; run one after the other, the second is refused as a conflict. *)
Theorem redb_put_race (rec1 rec2 : ResourceIdentityRecord) k d m :
  redb_id_state d m → ¬ key_conflict rec1 m → ¬ key_conflict rec2 m →
  ri_id rec1 ≠ ri_id rec2 → k ∈ ri_identity_keys rec1 → k ∈ ri_identity_keys rec2 →
  redb_put_check rec1 d = (Ok tt, d) ∧ redb_put_check rec2 d = (Ok tt, d) ∧
  (∃ d1 d2, redb_put_write rec1 d = (Ok tt, d1) ∧ redb_put_write rec2 d1 = (Ok tt, d2) ∧
    (redb_get (ri_id rec1) d2).1 = Ok (Some rec1) ∧
    (redb_get (ri_id rec2) d2).1 = Ok (Some rec2)) ∧
  (∃ d1 e, redb_put rec1 d = (Ok tt, d1) ∧ redb_put rec2 d1 = (Err e, d1) ∧
    storage_failure e = false).
Proof.
  intros Hs H1 H2 Hne Hk1 Hk2. pose proof Hs as (_ & rows & Hd & _).
  split_and!; [by apply (redb_put_check_ok _ _ m)..| |].
  - destruct (redb_put_write_row rec1 d rows Hd) as (b1 & d1 & E1 & Hb1 & Hd1).
    destruct (redb_put_write_row rec2 d1 _ Hd1) as (b2 & d2 & E2 & Hb2 & Hd2).
    exists d1, d2. unfold redb_get. split_and!; [done..| |].
    + apply (get_json_reads _ _ _ _ _ _ Hd2). unfold row_reads.
      rewrite map_get_insert_ne, map_get_insert_eq by done. eauto.
    + apply (get_json_reads _ _ _ _ _ _ Hd2). unfold row_reads. rewrite map_get_insert_eq. eauto.
  - pose proof (redb_put_write_spec rec1 d m Hs H1) as Hw.
    destruct (redb_put_write_row rec1 d rows Hd) as (b1 & d1 & E1 & Hb1 & Hd1).
    rewrite E1 in Hw.
    assert (Hc : key_conflict rec2 (<[ri_id rec1 := rec1]> m)).
    { exists (ri_id rec1), rec1, k. by rewrite lookup_insert_eq. }
    pose proof (ri_put_ok d1 _ rec2 I Hw) as [Hok _].
    pose proof (redb_put_check_spec rec2 d1 _ Hw) as Hc2.
    assert (E2 : ∃ e, redb_put rec2 d1 = (Err e, d1)).
    { unfold redb_put, sbind. destruct (redb_put_check rec2 d1) as [[[]|e] d2];
        destruct Hc2 as [-> Hc2]; [done|by exists e]. }
    destruct E2 as [e E2]. exists d1, e. split_and!; [|done|].
    + unfold redb_put, sbind. by rewrite (redb_put_check_ok rec1 d m).
    + cbn [ri_put redb_identities] in Hok. by rewrite E2 in Hok.
Qed.
End race.
End repository_facts.

(** ** The theorems at concrete records *)

Module RedbExamples.
Definition never (f : unit) : bool * unit := (false, f).

#[local] Instance db {Bytes} : Redb Bytes := MapDb.redb never.
#[local] Instance db_laws {Bytes} : RedbLaws Bytes := MapDb.redb_laws never.
#[local] Instance db_reliable {Bytes} : RedbReliable Bytes :=
  MapDb.redb_reliable never (λ _, eq_refl).
#[local] Instance codec {T} `{Countable T} : JsonCodec positive T := MapDb.codec.
#[local] Instance codec_laws {T} `{Countable T} : JsonCodecLaws positive T := MapDb.codec_laws.
#[local] Instance codec_total {T} `{Countable T} : JsonCodecTotal positive T := MapDb.codec_total.

(** An opened, empty file. *)
Definition empty_db {Bytes} : Database Bytes :=
  MapDb.mk_db {[RESOURCE_IDENTITIES := []; RESOURCE_SNAPSHOTS := []; NODE_CONFIGS := [];
                PEER_CONFIGS := []; PEER_CONNECTION_STATUS := []]} tt.

Definition led (id : string) : ResourceIdentityRecord :=
  mk_identity_record id "led" (Some "desk") [static_name "led" "desk"] [] 0 0.

Lemma empty_db_state : redb_id_state (Bytes:=positive) empty_db ∅.
Proof. split; [by apply identities_wf_empty|]. exists []. split; [done|]. by intros id. Qed.

Lemma memory_default_state : memory_id_state (num:=N) memory_default ∅.
Proof. split; [apply memory_wf_default|done]. Qed.

Definition calls : list identity_call :=
  [CallPut (led "a"); CallPut (led "b"); CallFind (static_name "led" "desk");
   CallPut (led "a"); CallGet "b"].

Definition answers : list identity_answer :=
  [AnsStored; AnsConflict; AnsRecord (Some (led "a")); AnsStored; AnsRecord None].

Lemma identity_stores_agree_witness :
  (run_calls calls (memory_default (num:=N))).1
  = (run_calls calls (empty_db (Bytes:=positive))).1 ∧
  (run_calls calls (memory_default (num:=N))).1 = answers.
Proof.
  split; [|reflexivity].
  exact (identity_stores_agree memory_default empty_db ∅ calls eq_refl I
           memory_default_state empty_db_state).
Defined.

Lemma redb_put_race_witness :
  ∃ d1 d2, redb_put_write (led "a") (empty_db (Bytes:=positive)) = (Ok tt, d1) ∧
    redb_put_write (led "b") d1 = (Ok tt, d2) ∧
    (redb_get "a" d2).1 = Ok (Some (led "a")) ∧ (redb_get "b" d2).1 = Ok (Some (led "b")).
Proof.
  apply (redb_put_race (led "a") (led "b") (static_name "led" "desk") (empty_db (Bytes:=positive)) ∅).
  - apply empty_db_state.
  - intros (id & r & k & H & _). by rewrite lookup_empty in H.
  - intros (id & r & k & H & _). by rewrite lookup_empty in H.
  - done.
  - by apply list_elem_of_singleton.
  - by apply list_elem_of_singleton.
Defined.

Definition hub (ms : Z) : NodeConfigRecord := mk_node_config "node-1" "hub" "hub" ms.

Lemma redb_node_config_local_witness :
  let '(r, d') := redb_node_put (hub 5) (empty_db (Bytes:=positive)) in
  r = Ok tt ∧ (redb_node_get_local d').1 = Ok (Some (hub 5)).
Proof.
  pose proof (redb_node_config_local (hub 5) (empty_db (Bytes:=positive)) [] [] eq_refl (Forall2_nil_2 _ _ _))
    as [H _].
  destruct (redb_node_put (hub 5) empty_db). by destruct H as (? & ? & _).
Defined.

#[local] Instance codec_same {T} : JsonCodec T T := {| to_vec := Ok; from_slice := Ok |}.

Definition lamp : ResourceSnapshot N := build_state "on" (builder "led").

Lemma redb_latest_upsert_witness :
  let '(r, d') := redb_upsert_latest (latest_record lamp 7) empty_db in
  r = Ok tt ∧ (redb_latest "" d').1 = Ok (Some (latest_record lamp 7)).
Proof.
  pose proof (redb_latest_upsert (latest_record lamp 7) (latest_record lamp 7)
    (latest_record lamp 7) empty_db [] eq_refl eq_refl eq_refl) as H.
  destruct (redb_upsert_latest (latest_record lamp 7) empty_db). by destruct H as (? & ? & _).
Defined.
End RedbExamples.
