(* ===== verification/PeerRecords.v ===== *)
(** What an accepting node stores about its tunnels: [write_peer] of [peer.rs]
    against the repositories of [persistence/mod.rs], composed with the tasks of
    [Acceptors]. *)

From S2P Require Import Prelude F64 Json Capabilities Http Peer Acceptors Resource Persistence Redb.

(** ** The interface *)

(** The traits [PeerConfigRepository] and [PeerConnectionStatusRepository]. *)
Class PeerRecordRepository (S : Type) := {
  pr_put : PeerConfigRecord → storage S unit;
  pr_get_by_route : string → storage S (option PeerConfigRecord);
  pr_put_latest : PeerConnectionStatusRecord → storage S unit;
  pr_latest_by_route : string → storage S (option PeerConnectionStatusRecord)
}.

Abbreviation configs := (gmap string PeerConfigRecord).
Abbreviation latest_statuses := (gmap string PeerConnectionStatusRecord).

(** Their contract: one record per route, the last one put; a call that fails
    changes nothing. *)
Class PeerRecordLaws (S : Type) `{!PeerRecordRepository S} := {
  pr_state : S → configs → latest_statuses → Prop;
  pr_put_spec s c l rec : pr_state s c l →
    let '(r, s') := pr_put rec s in
    pr_state s' (match r with Ok _ => <[pc_route_name rec := rec]> c | Err _ => c end) l;
  pr_get_spec s c l route o : pr_state s c l → (pr_get_by_route route s).1 = Ok o → o = c !! route;
  pr_put_latest_spec s c l rec : pr_state s c l →
    let '(r, s') := pr_put_latest rec s in
    pr_state s' c (match r with Ok _ => <[ps_route_name rec := rec]> l | Err _ => l end);
  pr_latest_spec s c l route o : pr_state s c l → (pr_latest_by_route route s).1 = Ok o → o = l !! route
}.

(** ** The repositories implement it *)

#[export] Instance memory_peer_records {num} : PeerRecordRepository (Mutex num) := {|
  pr_put := memory_peer_put;
  pr_get_by_route := memory_peer_get_by_route;
  pr_put_latest := memory_status_put_latest;
  pr_latest_by_route := memory_status_latest_by_route
|}.

#[export] Program Instance memory_peer_laws {num} : PeerRecordLaws (Mutex num) := {|
  pr_state m c l := peer_configs (mx_state m) = c ∧ peer_connection_statuses (mx_state m) = l
|}.
Next Obligation.
  intros num [[] st] c l rec [<- <-]; [done|]. by destruct st.
Qed.
Next Obligation. intros num [[] st] c l route o [<- <-]; [done|]. by intros [= <-]. Qed.
Next Obligation.
  intros num [[] st] c l rec [<- <-]; [done|]. by destruct st.
Qed.
Next Obligation. intros num [[] st] c l route o [<- <-]; [done|]. by intros [= <-]. Qed.

Section redb_records.
  Context {Bytes : Type} `{!Redb Bytes, !RedbLaws Bytes}.
  Context `{!JsonCodec Bytes PeerConfigRecord, !JsonCodecLaws Bytes PeerConfigRecord}.
  Context `{!JsonCodec Bytes PeerConnectionStatusRecord, !JsonCodecLaws Bytes PeerConnectionStatusRecord}.

(** The rows of a table decode to the records of a map. *)
Definition table_holds {T} `{!JsonCodec Bytes T} (d : Database Bytes) (table : string) (m : gmap string T) : Prop :=
  ∃ rows, db_table d table = Some rows ∧ ∀ key, row_reads key rows (m !! key).

Lemma put_json_holds {T} `{!JsonCodec Bytes T, !JsonCodecLaws Bytes T} table key (rec : T) d m :
  table_holds d table m →
  let '(r, d') := put_json table key rec d in
  table_holds d' table (match r with Ok _ => <[key := rec]> m | Err _ => m end) ∧
  ∀ n, n ≠ table → db_table d' n = db_table d n.
Proof.
  intros (rows & Hd & Hr). pose proof (put_json_spec table key rec d) as H.
  destruct (put_json table key rec d) as [[[]|e] d'].
  - destruct H as (b & Hb & Hd'). split; [|intros n Hn; by rewrite Hd', decide_False].
    exists (map_insert key b rows). split; [by rewrite Hd', decide_True, Hd by done|].
    intros k. unfold row_reads. destruct (decide (k = key)) as [->|Hk].
    + rewrite map_get_insert_eq, lookup_insert_eq. exists rec. split; [|done]. by apply from_slice_to_vec.
    + rewrite map_get_insert_ne, lookup_insert_ne by done. apply Hr.
  - destruct H as [_ Hd']. split; [|by rewrite Hd']. exists rows. by rewrite Hd'.
Qed.

Lemma get_json_holds {T} `{!JsonCodec Bytes T} table key d (m : gmap string T) o :
  table_holds d table m → (get_json table key d).1 = Ok o → o = m !! key.
Proof.
  intros (rows & Hd & Hr) Ho. apply (get_json_read_inv table key d rows o Hd) in Ho. specialize (Hr key).
  unfold row_reads in *. destruct (map_get key rows); [|congruence].
  destruct Ho as (? & ? & ->), Hr as (? & ? & ->). congruence.
Qed.

#[local] Instance redb_peer_records : PeerRecordRepository (Database Bytes) := {|
  pr_put := redb_peer_put;
  pr_get_by_route := redb_peer_get_by_route;
  pr_put_latest := redb_status_put_latest;
  pr_latest_by_route := redb_status_latest_by_route
|}.

#[local] Program Instance redb_peer_laws : PeerRecordLaws (Database Bytes) := {|
  pr_state d c l := table_holds d PEER_CONFIGS c ∧ table_holds d PEER_CONNECTION_STATUS l
|}.
Next Obligation.
  intros d c l rec [Hc (rows & Hl & Hr)]. simpl. unfold redb_peer_put.
  pose proof (put_json_holds PEER_CONFIGS (pc_route_name rec) rec d c Hc) as H.
  destruct (put_json _ _ rec d) as [r d']. destruct H as [? Ho]. split; [done|].
  exists rows. by rewrite Ho.
Qed.
Next Obligation. intros d c l route o [Hc _]. by apply get_json_holds. Qed.
Next Obligation.
  intros d c l rec [(rows & Hc & Hr) Hl]. simpl. unfold redb_status_put_latest.
  pose proof (put_json_holds PEER_CONNECTION_STATUS (ps_route_name rec) rec d l Hl) as H.
  destruct (put_json _ _ rec d) as [r d']. destruct H as [? Ho]. split; [|done].
  exists rows. by rewrite Ho.
Qed.
Next Obligation. intros d c l route o [_ Hl]. by apply get_json_holds. Qed.
End redb_records.

(** ** [write_peer] *)

Section records.
  Context {hl : HttpLib}.

Definition peer_config_record (a : AdmittedPeerConnection) (now_ms : Z) : PeerConfigRecord :=
  mk_peer_config (ap_peer_id a) (ap_route_name a) (ap_node_id a) (ap_display_name a)
    (ap_allowed_capabilities a) now_ms.

Definition connection_status_record (a : AdmittedPeerConnection) (status : PeerConnectionStatus)
    (now_ms : Z) : PeerConnectionStatusRecord :=
  mk_status_record (uuid_to_string (ap_connection_id a)) (ap_peer_id a) (ap_route_name a) Acceptor status
    (negotiated_capabilities a) now_ms.

Context {Store : Type} `{!PeerRecordRepository Store}.
Implicit Types (repositories : option Store) (a : AdmittedPeerConnection).

(** Its two calls. Without repositories nothing is written; an error is logged
    and dropped, so that the second call is made all the same. *)
Definition write_config repositories a (now_ms : Z) : option Store :=
  (λ s, (pr_put (peer_config_record a now_ms) s).2) <$> repositories.

Definition write_status repositories a (status : PeerConnectionStatus) (now_ms : Z) : option Store :=
  (λ s, (pr_put_latest (connection_status_record a status now_ms) s).2) <$> repositories.

Definition write_peer_records repositories a (status : PeerConnectionStatus) (now_ms : Z) : option Store :=
  write_status (write_config repositories a now_ms) a status now_ms.

(** The second call succeeds. *)
Definition status_stored repositories a (status : PeerConnectionStatus) (now_ms : Z) : bool :=
  match repositories with
  | Some s => is_ok (pr_put_latest (connection_status_record a status now_ms) s).1
  | None => true
  end.

(** ** The acceptors with their repositories *)

(** [with_repositories] is called before the first upgrade. *)
Record Recording := mk_recording {
  rc_acceptors : Acceptors;
  rc_repositories : option Store;
  rc_failed : nat                  (** status writes that failed *)
}.

Definition with_repositories (repositories : option Store) : Recording :=
  mk_recording acceptors_new repositories 0.

(** A step that records a status makes the second call of [write_peer]; its
    first call is a step of its own, which other tasks may come between. *)
Inductive recording_step : Recording → Recording → Prop :=
| rs_quiet s s' repositories n :
    acceptor_step s s' → statuses s' = statuses s →
    recording_step (mk_recording s repositories n) (mk_recording s' repositories n)
| rs_config s t task repositories n now_ms :
    tasks s !! t = Some task →
    recording_step (mk_recording s repositories n)
      (mk_recording s (write_config repositories (t_admitted task) now_ms) n)
| rs_status s s' t st task repositories n now_ms :
    acceptor_step s s' → statuses s' = (t, st) :: statuses s → tasks s !! t = Some task →
    recording_step (mk_recording s repositories n)
      (mk_recording s' (write_status repositories (t_admitted task) st now_ms)
         (if status_stored repositories (t_admitted task) st now_ms then n else S n)).

(** One operation of the acceptors with the whole [write_peer] it makes. *)
Definition new_status (s s' : Acceptors) : option (TaskId * PeerConnectionStatus) :=
  if (length (statuses s) <? length (statuses s'))%nat then head (statuses s') else None.

Definition record_op (now_ms : Z) (op : acceptor_op) (r : Recording) : option Recording :=
  let s := rc_acceptors r in
  s' ← exec op s;
  match new_status s s' with
  | None => Some (mk_recording s' (rc_repositories r) (rc_failed r))
  | Some (t, st) =>
      task ← tasks s !! t;
      Some (mk_recording s' (write_peer_records (rc_repositories r) (t_admitted task) st now_ms)
        (if status_stored (write_config (rc_repositories r) (t_admitted task) now_ms)
              (t_admitted task) st now_ms
         then rc_failed r else S (rc_failed r)))
  end.

Fixpoint record_ops (now_ms : Z) (ops : list acceptor_op) (r : Recording) : option Recording :=
  match ops with [] => Some r | op :: ops' => r' ← record_op now_ms op r; record_ops now_ms ops' r' end.

(** ** Facts about the tasks *)

(** The phases that still have a status to record. *)
Definition recording_phase (p : phase) : bool :=
  match p with Driven | Erred | Closing _ => true | _ => false end.

Lemma exec_statuses s s' :
  acceptor_step s s' →
  statuses s' = statuses s ∨
  ∃ t st task, tasks s !! t = Some task ∧ recording_phase (t_phase task) = true ∧
    statuses s' = (t, st) :: statuses s.
Proof.
  intros [op E]. destruct op as [t a|t|t|t ok|t ok|t|t|t|t|t]; simpl in E;
    [unfold on_upgraded_spawn in E; destruct (tasks s !! t); [done|]; injection E as <-; by left|..];
    apply bind_Some in E as (task & Ht & E); inv_matches; simpl; try (by left);
    right; eexists _, _, task; (split_and!; [done|by destruct (t_phase task)|done]).
Qed.

Lemma exec_admitted s s' t task :
  acceptor_step s s' → tasks s !! t = Some task →
  ∃ task', tasks s' !! t = Some task' ∧ t_admitted task' = t_admitted task ∧
    (∀ ok, t_phase task = Finished ok → t_phase task' = Finished ok).
Proof.
  intros [op E] Ht. destruct op as [u a|u|u|u ok|u ok|u|u|u|u|u]; simpl in E;
    [unfold on_upgraded_spawn in E; destruct (tasks s !! u) eqn:Eu; [done|]; injection E as <-; simpl;
     exists task; split; [rewrite lookup_insert_ne; [done|congruence]|done]|..];
    apply bind_Some in E as (task0 & Hu & E); inv_matches; simpl;
    (destruct (decide (t = u)) as [->|Hne];
      [rewrite lookup_insert_eq; simplify_eq; eexists; split_and!; [done|done|simpl; congruence]
      |rewrite lookup_insert_ne by done; by exists task]).
Qed.

(** Every step of the acceptors is a step with repositories, and an operation
    with its writes is a run of them. *)
Lemma record_op_run now_ms op r r' : record_op now_ms op r = Some r' → rtc recording_step r r'.
Proof.
  destruct r as [s rep n]. unfold record_op, new_status. simpl. intros (s' & E & H)%bind_Some.
  assert (acceptor_step s s') as Hs by by exists op.
  destruct (exec_statuses s s' Hs) as [Hq|(t & st & task & Ht & _ & Hlog)].
  - rewrite Hq, Nat.ltb_irrefl in H. injection H as <-. by apply rtc_once, rs_quiet.
  - rewrite Hlog in H. simpl in H. rewrite (proj2 (Nat.ltb_lt _ _)) in H by lia. rewrite Ht in H.
    injection H as <-. eapply rtc_l; [by eapply (rs_config s t task _ _ now_ms)|]. eapply rtc_once.
    by eapply rs_status.
Qed.

Lemma record_ops_run now_ms ops r r' : record_ops now_ms ops r = Some r' → rtc recording_step r r'.
Proof.
  revert r. induction ops as [|op ops IH]; intros r; [by intros [= ->]|].
  intros (r1 & H1 & H2)%bind_Some. etransitivity; [by eapply record_op_run|by apply IH].
Qed.

(** A task that is over records nothing any more: the end of a connection that
    outlives its task, which is every connection that was not lost before the
    task looked at the senders, is never recorded. *)
Theorem finished_records_nothing (s s' : Acceptors) (t : TaskId) (task : Task) (ok : bool) :
  tasks s !! t = Some task → t_phase task = Finished ok → rtc acceptor_step s s' →
  ∀ st, (t, st) ∈ statuses s' → (t, st) ∈ statuses s.
Proof.
  intros Ht Hp Hr. revert task Ht Hp. induction Hr as [|s s1 s' Hs _ IH]; [done|]. intros task Ht Hp st Hin.
  destruct (exec_admitted s s1 t task Hs Ht) as (task' & Ht' & _ & Hp').
  apply (IH task' Ht' (Hp' ok Hp)) in Hin.
  destruct (exec_statuses s s1 Hs) as [Hq|(u & st' & tk & Hu & Hrec & Hlog)]; [by rewrite Hq in Hin|].
  rewrite Hlog in Hin. apply elem_of_cons in Hin as [[= -> ->]|Hin]; [|done].
  rewrite Ht in Hu. simplify_eq. by rewrite Hp in Hrec.
Qed.

(** ** The records of a route *)

Definition on_route (s : Acceptors) (route : string) (e : TaskId * PeerConnectionStatus) : bool :=
  match tasks s !! e.1 with Some task => bool_decide (t_route task = route) | None => false end.

(** The newest entry of a log for a route. *)
Definition newest (s : Acceptors) (route : string) (log : list (TaskId * PeerConnectionStatus))
    : option (TaskId * PeerConnectionStatus) := List.find (on_route s route) log.

Context `{!PeerRecordLaws Store}.

(** What the repositories hold: per route the newest status that was stored,
    or what was there at the start. *)
Definition latest_of (l0 l : latest_statuses) (s : Acceptors)
    (written : list (TaskId * PeerConnectionStatus)) : Prop := ∀ route,
  match newest s route written with
  | None => l !! route = l0 !! route
  | Some (t, st) => ∃ task now_ms, tasks s !! t = Some task ∧ t_route task = route ∧
      l !! route = Some (connection_status_record (t_admitted task) st now_ms)
  end.

Definition configs_of (c0 c : configs) (s : Acceptors) : Prop := ∀ route,
  c !! route = c0 !! route ∨
  ∃ t task now_ms, tasks s !! t = Some task ∧ t_route task = route ∧
    c !! route = Some (peer_config_record (t_admitted task) now_ms).

Definition recorded (c0 : configs) (l0 : latest_statuses) (r : Recording) : Prop :=
  acceptors_ok (rc_acceptors r) ∧
  ∀ store, rc_repositories r = Some store → ∃ c l written,
    pr_state store c l ∧ written `sublist_of` statuses (rc_acceptors r) ∧
    (rc_failed r = 0 → written = statuses (rc_acceptors r)) ∧
    latest_of l0 l (rc_acceptors r) written ∧ configs_of c0 c (rc_acceptors r).

Lemma newest_some s route log t st :
  newest s route log = Some (t, st) → (t, st) ∈ log ∧ ∃ task, tasks s !! t = Some task ∧ t_route task = route.
Proof.
  intros [Hin Hr]%find_some. split; [by apply list_elem_of_In|]. unfold on_route in Hr. simpl in Hr.
  destruct (tasks s !! t) as [task|]; [|done]. apply bool_decide_eq_true in Hr. eauto.
Qed.

Lemma newest_step s s' route log :
  acceptor_step s s' → (∀ e, e ∈ log → is_Some (tasks s !! e.1)) → newest s' route log = newest s route log.
Proof.
  intros Hs. induction log as [|e log IH]; intros Hl; [done|]. unfold newest in *. simpl.
  assert (on_route s' route e = on_route s route e) as ->.
  { unfold on_route. destruct (Hl e ltac:(by left)) as [task Ht].
    destruct (exec_admitted s s' e.1 task Hs Ht) as (task' & Ht' & Ha & _).
    rewrite Ht, Ht'. unfold t_route. by rewrite Ha. }
  destruct (on_route s route e); [done|]. apply IH. intros e' He'. apply Hl. by right.
Qed.

Lemma latest_of_step l0 l s s' written :
  acceptor_step s s' → (∀ e, e ∈ written → is_Some (tasks s !! e.1)) →
  latest_of l0 l s written → latest_of l0 l s' written.
Proof.
  intros Hs Hw Hl route. rewrite (newest_step s s') by done. specialize (Hl route).
  destruct (newest s route written) as [[t st]|]; [|done]. destruct Hl as (task & now & Ht & <- & Hl).
  destruct (exec_admitted s s' t task Hs Ht) as (task' & Ht' & Ha & _).
  exists task', now. unfold t_route. rewrite Ha. auto.
Qed.

Lemma configs_of_step c0 c s s' : acceptor_step s s' → configs_of c0 c s → configs_of c0 c s'.
Proof.
  intros Hs Hc route. destruct (Hc route) as [?|(t & task & now & Ht & <- & ->)]; [by left|right].
  destruct (exec_admitted s s' t task Hs Ht) as (task' & Ht' & Ha & _).
  exists t, task', now. unfold t_route. rewrite Ha. auto.
Qed.

(** A status that is stored becomes the newest of its route. *)
Lemma latest_of_put l0 l s written t st task now_ms :
  tasks s !! t = Some task → latest_of l0 l s written →
  latest_of l0 (<[t_route task := connection_status_record (t_admitted task) st now_ms]> l) s ((t, st) :: written).
Proof.
  intros Ht Hl route. unfold newest. simpl. unfold on_route at 1. simpl. rewrite Ht.
  case_bool_decide as Hr.
  - subst route. exists task, now_ms. rewrite lookup_insert_eq. auto.
  - specialize (Hl route). unfold newest in Hl. by rewrite lookup_insert_ne.
Qed.

Lemma logged_tasks s written :
  acceptors_ok s → written `sublist_of` statuses s → ∀ e, e ∈ written → is_Some (tasks s !! e.1).
Proof.
  intros Hok Hw [t st] He. simpl. eapply elem_of_sublist in He; [|done].
  apply (ok_statuses s Hok) in He as (task & -> & _). eauto.
Qed.

Lemma recording_step_ok c0 l0 r r' : recording_step r r' → recorded c0 l0 r → recorded c0 l0 r'.
Proof.
  intros Hs [Hok Hr]. destruct Hs as [s s' rep n Hs Hq|s t task rep n now Ht|s s' t st task rep n now Hs Hlog Ht];
    simpl in *.
  - split; simpl; [by eapply acceptors_ok_step|]. intros store ->.
    destruct (Hr store eq_refl) as (c & l & written & Hst & Hw & Hf & Hl & Hc).
    exists c, l, written. rewrite Hq. pose proof (logged_tasks s written Hok Hw).
    split_and!; [done|done|done|by eapply latest_of_step|by eapply configs_of_step].
  - split; simpl; [done|]. intros store' Hst'. destruct rep as [store|]; [|done]. injection Hst' as <-.
    destruct (Hr store eq_refl) as (c & l & written & Hst & Hw & Hf & Hl & Hc).
    pose proof (pr_put_spec store c l (peer_config_record (t_admitted task) now) Hst) as Hp.
    destruct (pr_put _ store) as [res store']. simpl. eexists _, l, written. split_and!; [exact Hp|done..|].
    destruct res; [|done]. intros route. simpl. destruct (decide (ap_route_name (t_admitted task) = route)) as [<-|].
    + rewrite lookup_insert_eq. right. by exists t, task, now.
    + rewrite lookup_insert_ne by done. apply Hc.
  - assert (acceptors_ok s') as Hok' by by eapply acceptors_ok_step.
    split; simpl; [done|]. intros store' Hst'. destruct rep as [store|]; [|done]. injection Hst' as <-.
    destruct (Hr store eq_refl) as (c & l & written & Hst & Hw & Hf & Hl & Hc).
    pose proof (logged_tasks s written Hok Hw) as Hlt.
    pose proof (latest_of_step l0 l s s' written Hs Hlt Hl) as Hl'.
    pose proof (configs_of_step c0 c s s' Hs Hc) as Hc'.
    destruct (exec_admitted s s' t task Hs Ht) as (task' & Ht' & Ha & _).
    pose proof (pr_put_latest_spec store c l (connection_status_record (t_admitted task) st now) Hst) as Hp.
    unfold status_stored. destruct (pr_put_latest _ store) as [[[]|e] store']; simpl in *.
    + eexists c, _, ((t, st) :: written). rewrite Hlog. split_and!; [exact Hp|by constructor| | |done].
      * intros Hn. by rewrite (Hf Hn).
      * rewrite <- Ha. by apply latest_of_put.
    + exists c, l, written. rewrite Hlog. split_and!; [exact Hp|by constructor|done|done|done].
Qed.

End records.

(** ** Concrete records *)

Module PeerRecordsExamples.
Import ListHttp AcceptorsExamples.

(** What is stored for the route after a tunnel came up and closed again. *)
Definition closed_tunnel : option (Recording (Store:=Mutex N)) :=
  record_ops 5 (connect 0 ++ [OpCleanup 0]) (with_repositories (Some memory_default)).

Lemma memory_default_holds : pr_state (memory_default (num:=N)) ∅ ∅.
Proof. by split. Qed.

Definition shows_connected (r : Recording (Store:=Mutex N)) : bool :=
  negb (bool_decide (is_Some (sender "hub" (rc_acceptors r)))) &&
  match rc_repositories r with
  | Some store =>
      match (pr_latest_by_route "hub" store).1 with
      | Ok (Some rec) => match ps_status rec with Connected => true | _ => false end
      | _ => false
      end
  | None => false
  end.

(** The stored status of a tunnel that has closed says that it is connected. *)
Example closed_tunnel_connected : shows_connected <$> closed_tunnel = Some true.
Proof. vm_compute. reflexivity. Qed.

End PeerRecordsExamples.
