(* ===== verification/Runtime.v ===== *)
(** Request, command and actor contexts ([runtime/context.rs],
    [runtime/actor.rs]): what a transition handler knows about its request and
    its own resource, and the envelopes it publishes. *)

From S2P Require Import Prelude F64 Json Query Lexer Parser Topic.
From S2P Require Import Envelope Sequencer Replay Policy CoalesceQueue Mpsc Bus BusSpec BusProps Publish.
From S2P Require Import Capabilities Http Resource.
From S2P Require Gateway.

(** ** Request correlation *)

Record RequestCtx := mk_request_ctx {
  rq_traceparent : option string;
  rq_tracestate : option string;
  rq_request_id : option string;
  rq_provenance : Gateway.CallerProvenance
}.

Definition request_ctx_default : RequestCtx :=
  mk_request_ctx None None None Gateway.provenance_default.

Definition with_provenance (p : Gateway.CallerProvenance) (r : RequestCtx) : RequestCtx :=
  mk_request_ctx (rq_traceparent r) (rq_tracestate r) (rq_request_id r) p.

Section from_headers.
  Context {hl : HttpLib}.

(** [RequestCtx::from_headers] *)
Definition from_headers (headers : HeaderMap) : RequestCtx :=
  let pick name := header_str name headers in
  mk_request_ctx (pick "traceparent") (pick "tracestate") (pick "x-request-id")
    Gateway.provenance_default.
End from_headers.

(** [CommandId]: the minted UUID is an argument of the constructors below. *)
Definition CommandId : Type := string.

(** ** Actor and transition contexts *)

(** [publisher] is attached or not; the bus it points to is the node's. *)
Record ActorCtx := mk_actor_ctx {
  ac_node : string;
  ac_resource_id : string;
  ac_resource_kind : string;
  ac_labels : list (string * string);
  ac_publisher : bool
}.

Definition actor_ctx_default : ActorCtx := mk_actor_ctx "" "" "" [] false.

Definition actor_ctx_new (node resource_id resource_kind : string)
    (labels : list (string * string)) : ActorCtx :=
  mk_actor_ctx node resource_id resource_kind labels false.

Definition with_publisher (a : ActorCtx) : ActorCtx :=
  mk_actor_ctx (ac_node a) (ac_resource_id a) (ac_resource_kind a) (ac_labels a) true.

(** [tc_node]: a [Node] is attached. *)
Record TransitionCtx := mk_transition_ctx {
  tc_command_id : CommandId;
  tc_request : RequestCtx;
  tc_node_id : string;
  tc_node : bool;
  tc_actor : option ActorCtx
}.

(** [TransitionCtx::new], [with_node], [with_actor] *)
Definition transition_ctx_new (command : CommandId) (request : RequestCtx) (node : string)
    : TransitionCtx := mk_transition_ctx command request node false None.

Definition with_node (command : CommandId) (request : RequestCtx) (node_id : string)
    : TransitionCtx := mk_transition_ctx command request node_id true None.

Definition with_actor (a : ActorCtx) (c : TransitionCtx) : TransitionCtx :=
  mk_transition_ctx (tc_command_id c) (tc_request c) (tc_node_id c) (tc_node c) (Some a).

Definition ctx_resource_id (c : TransitionCtx) : option string := ac_resource_id <$> tc_actor c.

Definition resource_id_required (c : TransitionCtx) : result TransitionError string :=
  ok_or (ctx_resource_id c) (TInternal "TransitionCtx has no actor identity").

Section completed.
  Context {num : Type}.

(** [TransitionCtx::completed] *)
Definition completed (c : TransitionCtx) (output : option (json num)) (snap : ResourceSnapshot num)
    : result TransitionError (TransitionOutcome num) :=
  let? id := resource_id_required c in
  Ok (Completed output
        (mk_snapshot id (rs_kind snap) (rs_name snap) (rs_state snap) (tc_node_id c)
           (rs_properties snap) (rs_labels snap) (rs_transitions snap) (rs_streams snap)
           (rs_revision snap) (rs_metadata snap))).
End completed.

(** ** Publishing *)

Record EnvelopePlan {num : Type} := mk_plan {
  pl_node_id : NodeId;
  pl_resource_id : string;
  pl_resource_kind : string;
  pl_stream : string;
  pl_payload_kind : string;
  pl_payload_version : N;
  pl_data : json num
}.
Arguments EnvelopePlan num : clear implicits.
Arguments mk_plan {num}.
Arguments pl_node_id {num}.
Arguments pl_resource_id {num}.
Arguments pl_resource_kind {num}.
Arguments pl_stream {num}.
Arguments pl_payload_kind {num}.
Arguments pl_payload_version {num}.
Arguments pl_data {num}.

Record EmissionContext := mk_emission {
  em_correlation : option string;
  em_causation : option string;
  em_trace : option TraceContext
}.

Definition emission_default : EmissionContext := mk_emission None None None.

(** The [Display] of [PublishError] *)
Definition publish_error_to_string (e : PublishError) : string :=
  match e with
  | TooLarge limit => "event exceeds max serialized size of " +:+ pretty limit +:+ " bytes"
  end.

Section publish.
  Context {tl : TopicLibs} {time : TimeLib} {num : Type} `{!SerdeNumber num}.
  Context `{!BusLibs num} `{!Mpsc (EventEnvelope num)}.
  Implicit Types (b : EventBus num) (plan : EnvelopePlan num) (now : OffsetDateTime).

(** The envelope literal of [publish_envelope]. *)
Definition envelope_of plan (ctx : EmissionContext) (a : Allocated) now : EventEnvelope num :=
  mk_envelope ENVELOPE_VERSION (al_event_id a) (pl_node_id plan) (pl_resource_id plan)
    (pl_resource_kind plan) 1
    (for_resource (pl_node_id plan) (pl_resource_id plan) (pl_stream plan))
    (pl_stream plan) (al_sequence a) now (pl_payload_kind plan) (pl_payload_version plan) None
    (em_correlation ctx) (em_causation ctx) (em_trace ctx) (pl_data plan).

(** [registry.allocate] on the registry the bus shares. *)
Definition allocate_on_bus (s : StreamId) b : Allocated * EventBus num :=
  let '(a, r) := allocate s (registry b) in (a, set_streams (r, replay_cache b) b).

(** [publish_envelope] up to the first send of [EventBus::publish]: the rest
    of the delivery is the [Publish] system. *)
Definition publish_envelope plan (ctx : EmissionContext) now (order : list SubscriptionId) b
    : result PublishError (task num) * EventBus num :=
  let '(a, b1) :=
    allocate_on_bus (for_resource (pl_node_id plan) (pl_resource_id plan) (pl_stream plan)) b in
  publish_start (envelope_of plan ctx a now) order b1.

Definition transition_publish_error (e : PublishError) : TransitionError :=
  TInternal ("publish failed: " +:+ publish_error_to_string e).

(** [TransitionCtx::publish_for_resource] *)
Definition publish_for_resource (c : TransitionCtx) (resource_id resource_kind stream payload_kind : string)
    (payload_version : N) (data : json num) now (order : list SubscriptionId) b
    : result TransitionError (task num) * EventBus num :=
  match tc_actor c with
  | None => (Err (TInternal "TransitionCtx has no actor identity"), b)
  | Some actor =>
      if negb (ac_publisher actor)
      then (Err (TInternal "ActorCtx has no publisher attached"), b)
      else
        let rq := tc_request c in
        let trace := (λ tp, mk_trace_context tp (rq_tracestate rq)) <$> rq_traceparent rq in
        let '(r, b') :=
          publish_envelope
            (mk_plan (ac_node actor) resource_id resource_kind stream payload_kind
               payload_version data)
            (mk_emission (rq_request_id rq) (Some (tc_command_id c)) trace) now order b in
        (map_err transition_publish_error r, b')
  end.

(** [TransitionCtx::publish] *)
Definition transition_publish (c : TransitionCtx) (stream payload_kind : string)
    (payload_version : N) (data : json num) now (order : list SubscriptionId) b
    : result TransitionError (task num) * EventBus num :=
  match tc_actor c with
  | None => (Err (TInternal "TransitionCtx has no actor identity"), b)
  | Some actor =>
      publish_for_resource c (ac_resource_id actor) (ac_resource_kind actor) stream payload_kind
        payload_version data now order b
  end.

(** [ActorCtx::publish] *)
Definition actor_publish (a : ActorCtx) (stream payload_kind : string)
    (payload_version : N) (data : json num) now (order : list SubscriptionId) b
    : result ActorError (task num) * EventBus num :=
  if negb (ac_publisher a) then (Err (AInternal "ActorCtx has no publisher attached"), b)
  else
    let '(r, b') :=
      publish_envelope
        (mk_plan (ac_node a) (ac_resource_id a) (ac_resource_kind a) stream payload_kind
           payload_version data)
        emission_default now order b in
    (map_err (λ e, AInternal ("publish failed: " +:+ publish_error_to_string e)) r, b').
End publish.

(** ** What is published *)

Section publish_facts.
  Context {tl : TopicLibs} {time : TimeLib} {num : Type} `{!SerdeNumber num}.
  Context `{!BusLibs num} `{!Mpsc (EventEnvelope num)}.
  Implicit Types (b : EventBus num) (plan : EnvelopePlan num) (env : EventEnvelope num).

Lemma visit_coalesce_globals env id sub (f : fanout) :
  same_globals (fo_bus f) (fo_bus (visit_coalesce env id sub f)).
Proof.
  unfold visit_coalesce. destruct (queues (fo_bus f) !! id) as [q|]; [|done].
  destruct (push env q) as [[] q']; done.
Qed.

Lemma claim_globals env id (fm : fanout * list Match) :
  same_globals (fo_bus fm.1) (fo_bus (claim env id fm).1).
Proof.
  destruct fm as [f ms]. unfold claim. destruct (subs (fo_bus f) !! id) as [sub|]; [|done].
  destruct (negb _); [done|]. destruct (sub_outbound sub).
  - by destruct (claim_slot sub).
  - apply visit_coalesce_globals.
Qed.

Lemma claims_globals env order (fm : fanout * list Match) :
  same_globals (fo_bus fm.1) (fo_bus (foldl (λ fm id, claim env id fm) fm order).1).
Proof.
  revert fm. induction order as [|id order IH]; intros fm; [done|]. cbn [foldl].
  eapply same_globals_trans; [apply claim_globals|apply IH].
Qed.

Lemma snapshot_env env order b : t_env (Publish.snapshot env order b).1 = env.
Proof. unfold Publish.snapshot. by destruct (foldl _ _ order). Qed.

(** [publish] touches no sequence counter. *)
Lemma publish_start_per_stream env order b :
  per_stream (registry (publish_start env order b).2) = per_stream (registry b).
Proof.
  unfold publish_start. destruct (_ <? _)%N; [done|].
  pose proof (claims_globals env order (mk_fanout (record_envelope env b) [] result_default, [])) as H.
  unfold Publish.snapshot. destruct (foldl (λ fm id, claim env id fm) _ order) as [f ms].
  simpl in *. destruct (remove_all_globals (fo_to_remove f) (fo_bus f)) as (_ & Hr & _).
  destruct H as (_ & Hr' & _).
  rewrite Hr, Hr'. unfold record_envelope, record.
  destruct (push_ring _ _ _) as [q [e|]]; done.
Qed.

Lemma allocate_next s (r : StreamRegistry) :
  let seq := default 1%N (per_stream r !! s) in
  (allocate s r).1 = mk_allocated (mint_event_id s seq) seq ∧
  per_stream (allocate s r).2 !! s = Some (wrap64 (seq + 1)) ∧
  ∀ s', s' ≠ s → per_stream (allocate s r).2 !! s' = per_stream r !! s'.
Proof.
  unfold allocate, allocate_fetch_add, allocate_entry. cbv zeta.
  destruct (per_stream r !! s) as [n|] eqn:E; simpl.
  - rewrite E. simpl. split_and!; [done|by rewrite lookup_insert_eq|].
    intros. by rewrite lookup_insert_ne.
  - rewrite lookup_insert_eq. simpl. split_and!; [done|by rewrite lookup_insert_eq|].
    intros. by rewrite !lookup_insert_ne.
Qed.

(** What a transition handler publishes. The envelope is addressed to the
    handler's own resource on the stream of that resource, takes the next
    sequence number of the stream whether or not it is accepted, and carries the
    request id as correlation, the command id as causation and the trace
    headers; the only failure is an event over the size limit, which reaches no
    subscriber and leaves the event id unindexed. *)
Theorem transition_publish_spec (c : TransitionCtx) (a : ActorCtx) (stream payload_kind : string)
    (payload_version : N) (data : json num) (now : OffsetDateTime)
    (order : list SubscriptionId) b :
  tc_actor c = Some a → ac_publisher a = true →
  let sid := for_resource (ac_node a) (ac_resource_id a) stream in
  let seq := default 1%N (per_stream (registry b) !! sid) in
  let '(r, b') := transition_publish c stream payload_kind payload_version data now order b in
  per_stream (registry b') !! sid = Some (wrap64 (seq + 1)) ∧
  match r with
  | Ok t =>
      let env := t_env t in
      node_id env = ac_node a ∧ resource_id env = ac_resource_id a ∧
      resource_kind env = ac_resource_kind a ∧ stream_id env = sid ∧
      sequence env = seq ∧ event_id env = mint_event_id sid seq ∧
      correlation_id env = rq_request_id (tc_request c) ∧
      causation_id env = Some (tc_command_id c) ∧
      (traceparent <$> trace_context env) = rq_traceparent (tc_request c) ∧
      topic env = ac_node a +:+ "/" +:+ ac_resource_kind a +:+ "/"
                    +:+ ac_resource_id a +:+ "/" +:+ stream
  | Err e =>
      e = transition_publish_error (TooLarge (max_event_size b)) ∧
      subs b' = subs b ∧ stream_for (mint_event_id sid seq) (registry b') = None
  end.
Proof.
  intros Hc Ha sid seq. unfold transition_publish, publish_for_resource. rewrite Hc, Ha.
  cbn [negb]. unfold publish_envelope, allocate_on_bus.
  cbn [pl_node_id pl_resource_id pl_stream]. fold sid.
  destruct (allocate_next sid (registry b)) as (Hal & Hnext & _).
  destruct (allocate sid (registry b)) as [al r] eqn:Ea. simpl in Hal, Hnext. subst al.
  set (env := envelope_of _ _ _ _). set (b1 := set_streams _ _).
  pose proof (publish_start_per_stream env order b1) as Hps.
  destruct (publish_start env order b1) as [res b'] eqn:Ep. simpl in Hps. rewrite Hps.
  split; [exact Hnext|]. unfold publish_start in Ep. simpl in Ep.
  destruct (_ <? _)%N; simplify_eq/=.
  - split_and!; [done..|]. unfold stream_for. simpl. by rewrite lookup_delete_eq.
  - pose proof (snapshot_env env order (record_envelope env b1)) as Henv.
    destruct (Publish.snapshot env order (record_envelope env b1)) as [t bt]. simplify_eq/=.
    rewrite Henv. split_and!; try done. by destruct (rq_traceparent (tc_request c)).
Qed.
End publish_facts.

(** ** A concrete transition *)

Module RuntimeExamples.
Import ConcreteNumber ConcreteTime TopicExamples ListChannel BusExamples.

Definition lamp : ActorCtx := with_publisher (actor_ctx_new "hub" "abc" "led" []).
Definition switching : TransitionCtx := with_actor lamp (with_node "cmd-1" request_ctx_default "hub").

Definition now : OffsetDateTime := 0%Z.

Lemma transition_publish_spec_witness :
  let '(r, b') := transition_publish switching "state" "k" 1 (JString "on") now [1]%N bus3 in
  per_stream (registry b') !! for_resource "hub" "abc" "state" = Some 2%N ∧
  match r with
  | Ok t => topic (t_env t) = "hub/led/abc/state" ∧ causation_id (t_env t) = Some "cmd-1"
  | Err _ => False
  end.
Proof.
  pose proof (transition_publish_spec switching lamp "state" "k" 1 (JString "on") now [1]%N bus3
    eq_refl eq_refl) as H.
  destruct (transition_publish switching "state" "k" 1 (JString "on") now [1]%N bus3)
    as [[t|e] b'] eqn:E.
  - destruct H as (H & _ & _ & _ & _ & _ & _ & _ & Hc & _ & Ht). split; [exact H|]. by rewrite Ht, Hc.
  - apply (f_equal (λ p, is_ok p.1)) in E. vm_compute in E. discriminate E.
Defined.
End RuntimeExamples.
