(* ===== verification/Executor.v ===== *)
(** Per-actor execution ([runtime/executor.rs]): a bounded mailbox feeding one
    task that owns the actor and serves one command at a time. Callers, the
    task and aborts interleave; the executor is a step relation. *)

From S2P Require Import Prelude F64 Json Query Mpsc Resource Runtime.

(** ** The traits [Resource] and [Actor] *)

(** The methods of a user-supplied actor, each awaited to completion; [None]
    is a panic. *)
Class Actor (num A : Type) := {
  actor_spec : A → ResourceSpec num;
  actor_snapshot : A → option (result ResourceError (ResourceSnapshot num) * A);
  actor_transition : TransitionCtx → string → TransitionInput num → A →
    option (result TransitionError (TransitionOutcome num) * A);
  actor_on_start : ActorCtx → A → option (result ActorError unit * A);
  actor_on_stop : ActorCtx → A → option (result ActorError unit * A)
}.

(** ** Commands and replies *)

(** A call; it names the [oneshot] of its reply. *)
Definition CallId : Type := nat.

Inductive Command {num : Type} :=
| CTransition (name : string) (input : TransitionInput num) (ctx : TransitionCtx) (reply : CallId)
| CSnapshot (reply : CallId)
| CStop (reply : CallId).
Arguments Command num : clear implicits.
Arguments CTransition {num}.
Arguments CSnapshot {num}.
Arguments CStop {num}.

Inductive Reply {num : Type} :=
| RpTransition (r : result TransitionError (TransitionOutcome num))
| RpSnapshot (r : result ResourceError (ResourceSnapshot num))
| RpStopped.
Arguments Reply num : clear implicits.
Arguments RpTransition {num}.
Arguments RpSnapshot {num}.
Arguments RpStopped {num}.

(** Where a call stands. *)
Inductive Slot {num : Type} :=
| Sending                     (** inside [send(..).await] *)
| Refused                     (** [send] failed: the task is gone *)
| Queued                      (** accepted, awaiting the reply *)
| Replied (r : Reply num)
| DroppedSlot.                (** the reply sender was dropped *)
Arguments Slot num : clear implicits.
Arguments Sending {num}.
Arguments Refused {num}.
Arguments Queued {num}.
Arguments Replied {num}.
Arguments DroppedSlot {num}.

Inductive task_phase {num : Type} :=
| Starting                    (** before [on_start] returns *)
| Receiving                   (** at [rx.recv().await] *)
| Handling (c : Command num)  (** inside the arm of a command *)
| Exited.
Arguments task_phase num : clear implicits.
Arguments Starting {num}.
Arguments Receiving {num}.
Arguments Handling {num}.
Arguments Exited {num}.

Definition reply_id {num} (c : Command num) : CallId :=
  match c with CTransition _ _ _ i | CSnapshot i | CStop i => i end.

(** [max(1)] of [spawn_with_task] and of [NodeBuilder::actor_queue_capacity] *)
Definition queue_capacity (capacity : nat) : nat := Nat.max capacity 1.

Definition DEFAULT_ACTOR_QUEUE_CAPACITY : nat := 32.

Section executor.
  Context {num A : Type} `{!Actor num A} `{!Mpsc (Command num)}.

(** The task, its channel, and the calls made on its handles. The last two
    fields record the commands the channel accepted and those the task has
    finished, oldest first. *)
Record Exec := mk_exec {
  ex_phase : task_phase num;
  ex_actor : A;
  ex_chan : chan (Command num);
  ex_handles : nat;
  ex_waiting : gmap CallId (Command num);
  ex_slots : gmap CallId (Slot num);
  ex_accepted : list (Command num);
  ex_processed : list (Command num)
}.
Implicit Types (ex : Exec) (c : Command num).

(** [spawn_with_task] *)
Definition spawn_with_task (actor : A) (capacity : nat) : Exec :=
  mk_exec Starting actor (chan_new (queue_capacity capacity)) 1 ∅ ∅ [] [].

(** ** The task *)

(** One arm of the task's [match cmd], to completion. *)
Definition serve (actx : ActorCtx) c (a : A) : option (Reply num * A) :=
  match c with
  | CTransition name input ctx _ =>
      '(outcome, a') ← actor_transition (with_actor actx ctx) name input a;
      Some (RpTransition outcome, a')
  | CSnapshot _ => '(snap, a') ← actor_snapshot a; Some (RpSnapshot snap, a')
  | CStop _ => '(_, a') ← actor_on_stop actx a; Some (RpStopped, a')
  end.

(** Dropping the receiver and the command in hand: every unanswered reply
    sender goes with them. *)
Definition drop_slots (cs : list (Command num)) (m : gmap CallId (Slot num))
    : gmap CallId (Slot num) :=
  foldl (λ m c, <[reply_id c := DroppedSlot]> m) m cs.

Definition in_hand (p : task_phase num) : list (Command num) :=
  match p with Handling c => [c] | _ => [] end.

Definition exit_task ex : Exec :=
  mk_exec Exited (ex_actor ex) (chan_drop_rx (ex_chan ex)) (ex_handles ex) (ex_waiting ex)
    (drop_slots (in_hand (ex_phase ex) ++ chan_contents (ex_chan ex)) (ex_slots ex))
    (ex_accepted ex) (ex_processed ex).

(** [reply.send(..)] and the end of the arm; [Stop] breaks the loop. *)
Definition finish c (r : Reply num) (a : A) ex : Exec :=
  let ex' := mk_exec Receiving a (ex_chan ex) (ex_handles ex) (ex_waiting ex)
               (<[reply_id c := Replied r]> (ex_slots ex))
               (ex_accepted ex) (ex_processed ex ++ [c]) in
  match c with CStop _ => exit_task ex' | _ => ex' end.

Definition set_phase (p : task_phase num) ex : Exec :=
  mk_exec p (ex_actor ex) (ex_chan ex) (ex_handles ex) (ex_waiting ex) (ex_slots ex)
    (ex_accepted ex) (ex_processed ex).

Inductive task_step (actx : ActorCtx) : Exec → Exec → Prop :=
| ts_started ex r a : ex_phase ex = Starting → actor_on_start actx (ex_actor ex) = Some (r, a) →
    task_step actx ex (mk_exec Receiving a (ex_chan ex) (ex_handles ex) (ex_waiting ex)
      (ex_slots ex) (ex_accepted ex) (ex_processed ex))
| ts_start_panics ex : ex_phase ex = Starting → actor_on_start actx (ex_actor ex) = None →
    task_step actx ex (exit_task ex)
| ts_recv ex c ch : ex_phase ex = Receiving → chan_pop (ex_chan ex) = (Some c, ch) →
    task_step actx ex (mk_exec (Handling c) (ex_actor ex) ch (ex_handles ex) (ex_waiting ex)
      (ex_slots ex) (ex_accepted ex) (ex_processed ex))
| ts_recv_none ex : ex_phase ex = Receiving → chan_contents (ex_chan ex) = [] →
    ex_handles ex = 0 → task_step actx ex (exit_task ex)
| ts_finish ex c r a : ex_phase ex = Handling c → serve actx c (ex_actor ex) = Some (r, a) →
    task_step actx ex (finish c r a ex)
| ts_panics ex c : ex_phase ex = Handling c → serve actx c (ex_actor ex) = None →
    task_step actx ex (exit_task ex).

(** ** The handles *)

(** [send(..).await] of [transition_with_ctx], [snapshot] and [shutdown]. *)
Definition begin_send c ex : Exec :=
  mk_exec (ex_phase ex) (ex_actor ex) (ex_chan ex) (ex_handles ex)
    (<[reply_id c := c]> (ex_waiting ex)) (<[reply_id c := Sending]> (ex_slots ex))
    (ex_accepted ex) (ex_processed ex).

Definition accept c (ch : chan (Command num)) ex : Exec :=
  mk_exec (ex_phase ex) (ex_actor ex) ch (ex_handles ex)
    (delete (reply_id c) (ex_waiting ex)) (<[reply_id c := Queued]> (ex_slots ex))
    (ex_accepted ex ++ [c]) (ex_processed ex).

Definition refuse c ex : Exec :=
  mk_exec (ex_phase ex) (ex_actor ex) (ex_chan ex) (ex_handles ex)
    (delete (reply_id c) (ex_waiting ex)) (<[reply_id c := Refused]> (ex_slots ex))
    (ex_accepted ex) (ex_processed ex).

(** The calling future is dropped while it waits for capacity. *)
Definition cancel_send c ex : Exec :=
  mk_exec (ex_phase ex) (ex_actor ex) (ex_chan ex) (ex_handles ex)
    (delete (reply_id c) (ex_waiting ex)) (delete (reply_id c) (ex_slots ex))
    (ex_accepted ex) (ex_processed ex).

(** [try_transition]: the error, or the pending reply. *)
Definition try_transition (name : string) (input : TransitionInput num) (command : CommandId)
    (reply : CallId) ex : result TransitionError CallId * Exec :=
  let c := CTransition name input (transition_ctx_new command request_ctx_default "actor") reply in
  let '(r, ch) := chan_try_send c (ex_chan ex) in
  match r with
  | SendOk => (Ok reply, accept c ch ex)
  | SendFull => (Err TBusy, ex)
  | SendClosed => (Err (TInternal "actor task terminated"), ex)
  end.

Definition set_handles (n : nat) ex : Exec :=
  mk_exec (ex_phase ex) (ex_actor ex) (ex_chan ex) n (ex_waiting ex) (ex_slots ex)
    (ex_accepted ex) (ex_processed ex).

Inductive client_step : Exec → Exec → Prop :=
| cl_send ex c : 0 < ex_handles ex → ex_slots ex !! reply_id c = None →
    client_step ex (begin_send c ex)
| cl_accepted ex c ch : ex_waiting ex !! reply_id c = Some c →
    chan_try_send c (ex_chan ex) = (SendOk, ch) → client_step ex (accept c ch ex)
| cl_refused ex c : ex_waiting ex !! reply_id c = Some c →
    chan_rx_alive (ex_chan ex) = false → client_step ex (refuse c ex)
| cl_cancelled ex c : ex_waiting ex !! reply_id c = Some c → client_step ex (cancel_send c ex)
| cl_try ex name input command reply : 0 < ex_handles ex → ex_slots ex !! reply = None →
    client_step ex (try_transition name input command reply ex).2
| cl_clone ex : 0 < ex_handles ex → client_step ex (set_handles (S (ex_handles ex)) ex)
| cl_drop ex n : ex_handles ex = S n → (n = 0 → ex_waiting ex = ∅) →
    client_step ex (set_handles n ex)
(** [JoinHandle::abort] *)
| cl_abort ex : ex_phase ex ≠ Exited → client_step ex (exit_task ex).

Definition exec_step (actx : ActorCtx) ex ex' : Prop := task_step actx ex ex' ∨ client_step ex ex'.

(** ** What the callers get *)

(** [transition_with_ctx] after its send, and [PendingTransition::await_outcome] *)
Definition transition_result (s : Slot num)
    : option (result TransitionError (TransitionOutcome num)) :=
  match s with
  | Replied (RpTransition r) => Some r
  | Refused => Some (Err (TInternal "actor task terminated"))
  | DroppedSlot => Some (Err (TInternal "actor task dropped reply slot"))
  | _ => None
  end.

Definition snapshot_result (s : Slot num)
    : option (result ResourceError (ResourceSnapshot num)) :=
  match s with
  | Replied (RpSnapshot r) => Some r
  | Refused => Some (Err (RUnavailable "actor task terminated"))
  | DroppedSlot => Some (Err (RInternal "actor task dropped reply slot"))
  | _ => None
  end.

(** [shutdown]: [None] while it waits and [within] has not elapsed; the
    timeout covers the reply only, not the send. *)
Definition shutdown_result (elapsed : bool) (s : Slot num) : option bool :=
  match s with
  | Sending => None
  | Refused => Some false
  | Replied RpStopped => Some true
  | Replied _ | DroppedSlot => Some false
  | Queued => if elapsed then Some false else None
  end.
End executor.
Arguments Exec num A {_}.

(** ** The sequential specification *)

Section facts.
  Context {num A : Type} `{!Actor num A} `{!Mpsc (Command num)} `{!MpscLaws (Command num)}.
  Implicit Types (ex : Exec num A) (c : Command num) (cs : list (Command num)).

(** The commands served one after the other, with their replies. *)
Fixpoint serve_all (actx : ActorCtx) cs (a : A) : option (list (CallId * Reply num) * A) :=
  match cs with
  | [] => Some ([], a)
  | c :: cs' =>
      '(r, a1) ← serve actx c a;
      '(l, a2) ← serve_all actx cs' a1;
      Some ((reply_id c, r) :: l, a2)
  end.

Lemma serve_all_snoc actx cs c a l a1 r a2 :
  serve_all actx cs a = Some (l, a1) → serve actx c a1 = Some (r, a2) →
  serve_all actx (cs ++ [c]) a = Some (l ++ [(reply_id c, r)], a2).
Proof.
  revert a l. induction cs as [|c' cs IH]; intros a l H Hc; simpl in *; simplify_eq.
  - by rewrite Hc.
  - destruct (serve actx c' a) as [[r' a']|]; [|done]. simpl in *.
    destruct (serve_all actx cs a') as [[l' a'']|] eqn:E; [|done]. simpl in *. simplify_eq.
    by rewrite (IH a' l' E Hc).
Qed.

Lemma serve_all_ids actx cs a l a' :
  serve_all actx cs a = Some (l, a') → map fst l = map reply_id cs.
Proof.
  revert a l. induction cs as [|c cs IH]; intros a l H; simpl in *; simplify_eq; [done|].
  destruct (serve actx c a) as [[r a1]|]; [|done]. simpl in *.
  destruct (serve_all actx cs a1) as [[l1 a2]|] eqn:E; [|done]. simpl in *. simplify_eq/=.
  f_equal. eauto.
Qed.

(** ** The invariant *)

Definition ids cs : list CallId := map reply_id cs.

Lemma drop_slots_lookup cs (m : gmap CallId (Slot num)) id :
  drop_slots cs m !! id = if decide (id ∈ ids cs) then Some DroppedSlot else m !! id.
Proof.
  unfold drop_slots. revert m. induction cs as [|c cs IH]; intros m.
  { by rewrite decide_False by set_solver. }
  cbn [foldl]. rewrite IH. destruct (decide (id ∈ ids cs)).
  - by rewrite decide_True by (unfold ids in *; simpl; set_solver).
  - destruct (decide (id = reply_id c)) as [->|].
    + by rewrite lookup_insert_eq, decide_True by (unfold ids; simpl; set_solver).
    + by rewrite lookup_insert_ne, decide_False by (unfold ids in *; simpl; set_solver).
Qed.

(** The commands not answered yet. *)
Definition unanswered ex : list (Command num) :=
  match ex_phase ex with
  | Exited => []
  | p => in_hand p ++ chan_contents (ex_chan ex)
  end.

Definition exited (p : task_phase num) : bool := match p with Exited => true | _ => false end.

(** The actor is [a0] after [on_start] and the processed commands. *)
Definition served (actx : ActorCtx) (a0 : A) (replies : list (CallId * Reply num)) ex : Prop :=
  ∃ r a1, actor_on_start actx a0 = Some (r, a1) ∧
    serve_all actx (ex_processed ex) a1 = Some (replies, ex_actor ex).

Definition progress (actx : ActorCtx) (a0 : A) (replies : list (CallId * Reply num)) ex : Prop :=
  match ex_phase ex with
  | Starting => replies = [] ∧ ex_processed ex = [] ∧ ex_actor ex = a0
  | Exited => (replies = [] ∧ ex_processed ex = []) ∨ served actx a0 replies ex
  | _ => served actx a0 replies ex
  end.

(** What the slot of an id says, given the lists of commands. *)
Definition slots_ok (replies : list (CallId * Reply num)) ex : Prop := ∀ id,
  match ex_slots ex !! id with
  | None | Some Sending | Some Refused => id ∉ ids (ex_accepted ex)
  | Some Queued => id ∈ ids (unanswered ex)
  | Some (Replied r) => (id, r) ∈ replies
  | Some DroppedSlot => exited (ex_phase ex) = true ∧ id ∈ ids (ex_accepted ex) ∧
      id ∉ ids (ex_processed ex)
  end.

Record exec_inv (actx : ActorCtx) (a0 : A) (capacity : nat) (replies : list (CallId * Reply num))
    ex : Prop := {
  ei_capacity : chan_permits (ex_chan ex) + length (chan_contents (ex_chan ex))
                = queue_capacity capacity;
  ei_alive : chan_rx_alive (ex_chan ex) = negb (exited (ex_phase ex));
  ei_order : ∃ lost, ex_accepted ex = ex_processed ex ++ unanswered ex ++ lost ∧
    (exited (ex_phase ex) = false → lost = []);
  ei_nodup : NoDup (ids (ex_accepted ex));
  ei_progress : progress actx a0 replies ex;
  ei_replies : ids (ex_processed ex) = map fst replies;
  ei_waiting : ∀ id c, ex_waiting ex !! id = Some c →
    reply_id c = id ∧ ex_slots ex !! id = Some Sending;
  ei_slots : slots_ok replies ex
}.

Lemma exec_inv_spawn actx a0 capacity : exec_inv actx a0 capacity [] (spawn_with_task a0 capacity).
Proof.
  destruct (chan_new_spec (A:=Command num) (queue_capacity capacity)) as (Hc & Hp & _ & Ha).
  split; simpl; rewrite ?Hc, ?Hp, ?Ha; try done.
  - exists []. unfold unanswered. simpl. by rewrite Hc.
  - constructor.
  - intros id. simpl. rewrite lookup_empty. set_solver.
Qed.

(** Leaving the task: what was unanswered is dropped. *)
Lemma exec_inv_exit actx a0 capacity replies ex :
  exec_inv actx a0 capacity replies ex → exited (ex_phase ex) = false →
  exec_inv actx a0 capacity replies (exit_task ex).
Proof.
  intros [Hcap Hal [lost [Hord Hlost]] Hnd Hpr Hrep Hw Hsl] Hne.
  specialize (Hlost Hne) as ->. rewrite app_nil_r in Hord.
  assert (Hun : unanswered ex = in_hand (ex_phase ex) ++ chan_contents (ex_chan ex)).
  { unfold unanswered. by destruct (ex_phase ex). }
  destruct (chan_drop_rx_spec (ex_chan ex)) as (Ha' & Hc' & Hp' & _).
  split; simpl; rewrite ?Ha', ?Hc', ?Hp'; try done.
  - exists (unanswered ex). split; [|done]. unfold unanswered at 1. simpl. done.
  - unfold progress in *. simpl. destruct (ex_phase ex); naive_solver.
  - intros id c Hid. rewrite drop_slots_lookup. destruct (Hw id c Hid) as [? Hs].
    split; [done|]. rewrite decide_False; [done|]. rewrite <- Hun. intros Hin.
    specialize (Hsl id). rewrite Hs in Hsl. apply Hsl. rewrite Hord. unfold ids in *.
    rewrite map_app. set_solver.
  - intros id. simpl. rewrite drop_slots_lookup, <- Hun. case_decide as Hin.
    + split_and!; [done| |].
      * rewrite Hord. unfold ids in *. rewrite map_app. set_solver.
      * rewrite Hord in Hnd. unfold ids in *. rewrite map_app in Hnd.
        apply NoDup_app in Hnd as (_ & Hd & _). intros Hp. by apply (Hd id).
    + specialize (Hsl id). destruct (ex_slots ex !! id) as [[]|]; try done.
      destruct Hsl as (Hx & _). by rewrite Hne in Hx.
Qed.

Lemma unanswered_alive ex :
  exited (ex_phase ex) = false →
  unanswered ex = in_hand (ex_phase ex) ++ chan_contents (ex_chan ex).
Proof. unfold unanswered. by destruct (ex_phase ex). Qed.

Lemma ei_order_alive actx a0 capacity replies ex :
  exec_inv actx a0 capacity replies ex → exited (ex_phase ex) = false →
  ex_accepted ex = ex_processed ex ++ in_hand (ex_phase ex) ++ chan_contents (ex_chan ex).
Proof.
  intros Hi Hne. destruct (ei_order _ _ _ _ _ Hi) as (lost & Ho & Hl).
  rewrite (Hl Hne), app_nil_r, unanswered_alive in Ho by done. done.
Qed.

(** Steps of the task that move the head of the queue, or start the loop. *)
Lemma exec_inv_move actx a0 capacity replies ex ph a ch :
  exec_inv actx a0 capacity replies ex → exited (ex_phase ex) = false → exited ph = false →
  chan_permits ch + length (chan_contents ch) = queue_capacity capacity →
  chan_rx_alive ch = true →
  in_hand ph ++ chan_contents ch = in_hand (ex_phase ex) ++ chan_contents (ex_chan ex) →
  progress actx a0 replies
    (mk_exec ph a ch (ex_handles ex) (ex_waiting ex) (ex_slots ex) (ex_accepted ex)
       (ex_processed ex)) →
  exec_inv actx a0 capacity replies
    (mk_exec ph a ch (ex_handles ex) (ex_waiting ex) (ex_slots ex) (ex_accepted ex)
       (ex_processed ex)).
Proof.
  intros Hi Hne Hph Hcap Hal Hsame Hpr. pose proof Hi as [_ _ [lost [Hord Hlost]] Hnd _ Hrep Hw Hsl].
  set (ex' := mk_exec _ _ _ _ _ _ _ _) in *.
  assert (Hun : unanswered ex' = unanswered ex).
  { rewrite !unanswered_alive by done. done. }
  split; try done.
  - simpl. by rewrite Hph.
  - exists lost. rewrite Hun. simpl. naive_solver.
  - intros id. specialize (Hsl id). unfold ex'. simpl.
    fold ex'. rewrite Hun. destruct (ex_slots ex !! id) as [[]|]; try done.
    destruct Hsl as (? & _). congruence.
Qed.

(** A call that is not accepted by the channel. *)
Lemma exec_inv_call actx a0 capacity replies ex id o h w :
  exec_inv actx a0 capacity replies ex → id ∉ ids (ex_accepted ex) →
  match o with None | Some Sending | Some Refused => True | _ => False end →
  (∀ j c, w !! j = Some c → reply_id c = j ∧
     (if decide (j = id) then o else ex_slots ex !! j) = Some Sending) →
  exec_inv actx a0 capacity replies
    (mk_exec (ex_phase ex) (ex_actor ex) (ex_chan ex) h w
       (partial_alter (λ _, o) id (ex_slots ex)) (ex_accepted ex) (ex_processed ex)).
Proof.
  intros [Hcap Hal Hord Hnd Hpr Hrep Hw Hsl] Hid Ho Hw'.
  split; try done.
  - intros j c Hj. simpl in *. destruct (Hw' j c Hj) as [? Hs]. split; [done|].
    destruct (decide (j = id)) as [->|].
    + by rewrite lookup_partial_alter_eq.
    + by rewrite lookup_partial_alter_ne.
  - intros j. simpl. destruct (decide (j = id)) as [->|].
    + rewrite lookup_partial_alter_eq. by destruct o as [[]|].
    + rewrite lookup_partial_alter_ne by done. apply Hsl.
Qed.

(** The channel accepts a command. *)
Lemma exec_inv_accept actx a0 capacity replies ex c ch :
  exec_inv actx a0 capacity replies ex → reply_id c ∉ ids (ex_accepted ex) →
  chan_try_send c (ex_chan ex) = (SendOk, ch) →
  exec_inv actx a0 capacity replies (accept c ch ex).
Proof.
  intros Hi Hid Hsend. pose proof Hi as [Hcap Hal _ Hnd Hpr Hrep Hw Hsl].
  assert (Hne : exited (ex_phase ex) = false ∧ 0 < chan_permits (ex_chan ex)).
  { destruct (exited (ex_phase ex)) eqn:E; simpl in Hal.
    - rewrite chan_try_send_closed in Hsend by done. done.
    - split; [done|]. destruct (chan_permits (ex_chan ex)) eqn:Ep; [|lia].
      rewrite chan_try_send_full in Hsend by done. done. }
  destruct Hne as [Hne Hpos]. rewrite Hne in Hal. simpl in Hal.
  pose proof (ei_order_alive _ _ _ _ _ Hi Hne) as Hord.
  destruct (chan_try_send_ok c (ex_chan ex) Hal Hpos) as (ch' & E & Hc & Hp & _ & Ha).
  assert (ch' = ch) as -> by congruence.
  assert (Hun : unanswered (accept c ch ex) = unanswered ex ++ [c]).
  { rewrite !unanswered_alive by done. simpl. by rewrite Hc, app_assoc. }
  split; simpl.
  - rewrite Hc, Hp, length_app. simpl. lia.
  - by rewrite Ha, Hne.
  - exists []. split; [|done]. rewrite Hun, Hord, unanswered_alive, app_nil_r by done.
    by rewrite !app_assoc.
  - unfold ids. rewrite map_app. apply NoDup_app. split_and!; [done| |apply NoDup_singleton].
    intros x Hx Hx'. simpl in Hx'. apply list_elem_of_singleton in Hx' as ->. done.
  - done.
  - done.
  - intros id c' Hid'. apply lookup_delete_Some in Hid' as [Hn Hid'].
    rewrite lookup_insert_ne by done. by apply Hw.
  - intros id. simpl. unfold slots_ok in *. rewrite Hun. specialize (Hsl id).
    destruct (decide (id = reply_id c)) as [->|Hn].
    + rewrite lookup_insert_eq. unfold ids. rewrite map_app. set_solver.
    + rewrite lookup_insert_ne by done. unfold ids in *. rewrite !map_app.
      destruct (ex_slots ex !! id) as [[]|]; set_solver.
Qed.

(** The task answers the command in hand. *)
Lemma exec_inv_reply actx a0 capacity replies ex c r a :
  exec_inv actx a0 capacity replies ex → ex_phase ex = Handling c →
  serve actx c (ex_actor ex) = Some (r, a) →
  exec_inv actx a0 capacity (replies ++ [(reply_id c, r)])
    (mk_exec Receiving a (ex_chan ex) (ex_handles ex) (ex_waiting ex)
       (<[reply_id c := Replied r]> (ex_slots ex)) (ex_accepted ex) (ex_processed ex ++ [c])).
Proof.
  intros Hi Hph Hserve. pose proof Hi as [Hcap Hal _ Hnd Hpr Hrep Hw Hsl].
  assert (Hne : exited (ex_phase ex) = false) by (by rewrite Hph).
  pose proof (ei_order_alive _ _ _ _ _ Hi Hne) as Hord. rewrite Hph in Hord. simpl in Hord.
  assert (Hun : unanswered ex = c :: chan_contents (ex_chan ex)).
  { unfold unanswered. by rewrite Hph. }
  assert (Hca : reply_id c ∈ ids (ex_accepted ex)).
  { rewrite Hord. unfold ids. rewrite map_app. simpl. set_solver. }
  split; simpl.
  - done.
  - by rewrite Hal, Hne.
  - exists []. split; [|done]. unfold unanswered. simpl. rewrite Hord, app_nil_r.
    by rewrite <- app_assoc.
  - done.
  - unfold progress in Hpr. rewrite Hph in Hpr. destruct Hpr as (r0 & a1 & H0 & H1).
    exists r0, a1. split; [done|]. simpl. by eapply serve_all_snoc.
  - unfold ids in *. rewrite !map_app, Hrep. done.
  - intros id c' Hid'. destruct (Hw id c' Hid') as [? Hs]. split; [done|].
    rewrite lookup_insert_ne; [done|]. intros <-.
    specialize (Hsl (reply_id c)). by rewrite Hs in Hsl.
  - intros id. simpl. specialize (Hsl id). unfold unanswered. simpl.
    destruct (decide (id = reply_id c)) as [->|Hn].
    + rewrite lookup_insert_eq. set_solver.
    + rewrite lookup_insert_ne by done. destruct (ex_slots ex !! id) as [[]|]; try done.
      * rewrite Hun in Hsl. unfold ids in *. simpl in Hsl. set_solver.
      * set_solver.
      * destruct Hsl as (? & _). congruence.
Qed.

Lemma fresh_not_accepted actx a0 capacity replies ex id :
  exec_inv actx a0 capacity replies ex →
  match ex_slots ex !! id with None | Some Sending | Some Refused => True | _ => False end →
  id ∉ ids (ex_accepted ex).
Proof.
  intros Hi H. pose proof (ei_slots _ _ _ _ _ Hi id) as Hs.
  by destruct (ex_slots ex !! id) as [[]|].
Qed.

Lemma task_step_inv actx a0 capacity replies ex ex' :
  exec_inv actx a0 capacity replies ex → task_step actx ex ex' →
  ∃ replies', exec_inv actx a0 capacity replies' ex' ∧ replies `prefix_of` replies'.
Proof.
  intros Hi Hs. pose proof Hi as [Hcap Hal _ _ Hpr _ _ _].
  destruct Hs as [ex r a Hph Hst|ex Hph Hst|ex c ch Hph Hpop|ex Hph Hc Hh|ex c r a Hph Hsv|ex c Hph Hsv].
  - exists replies. split; [|done]. apply exec_inv_move; rewrite ?Hph in *; try done.
    unfold progress in *. rewrite Hph in Hpr. simpl. destruct Hpr as (-> & Hp & Ha).
    exists r, a. simpl. by rewrite Hp, <- Ha.
  - exists replies. split; [|done]. apply exec_inv_exit; [done|by rewrite Hph].
  - exists replies. split; [|done]. pose proof (chan_pop_spec (ex_chan ex)) as Hp. rewrite Hpop in Hp.
    destruct Hp as (Hhd & Htl & Hpm & _ & Ha).
    destruct (chan_contents (ex_chan ex)) as [|c' l] eqn:Ec; [done|]. simpl in *. simplify_eq.
    apply exec_inv_move; rewrite ?Hph in *; try done.
    + rewrite Hpm. simpl in Hcap. lia.
    + by rewrite Ha, Hal.
    + unfold progress in *. by rewrite Hph in Hpr.
  - exists replies. split; [|done]. apply exec_inv_exit; [done|by rewrite Hph].
  - eexists. split; [|by apply prefix_app_r]. unfold finish.
    destruct c; try (by apply exec_inv_reply).
    apply exec_inv_exit; [|done]. by apply exec_inv_reply.
  - exists replies. split; [|done]. apply exec_inv_exit; [done|by rewrite Hph].
Qed.

Lemma client_step_inv actx a0 capacity replies ex ex' :
  exec_inv actx a0 capacity replies ex → client_step ex ex' →
  exec_inv actx a0 capacity replies ex'.
Proof.
  intros Hi Hs. pose proof (ei_waiting _ _ _ _ _ Hi) as Hw.
  destruct Hs as [ex c Hh Hf|ex c ch Hwt Hsend|ex c Hwt Hd|ex c Hwt|ex name input command reply Hh Hf
                 |ex Hh|ex n Hn Hz|ex Hne].
  - apply (exec_inv_call _ _ _ _ _ (reply_id c) (Some Sending)); [done| |done|].
    { eapply fresh_not_accepted; [done|]. by rewrite Hf. }
    intros j c' [[<- <-]|[Hn Hj]]%lookup_insert_Some; [by rewrite decide_True|].
    rewrite decide_False by done. by apply Hw.
  - apply exec_inv_accept; [done| |done]. eapply fresh_not_accepted; [done|].
    destruct (Hw _ _ Hwt) as [_ Hs]. by rewrite Hs.
  - destruct (Hw _ _ Hwt) as [_ Hs].
    apply (exec_inv_call _ _ _ _ _ (reply_id c) (Some Refused)); [done| |done|].
    { eapply fresh_not_accepted; [done|]. by rewrite Hs. }
    intros j c' [Hn Hj]%lookup_delete_Some. rewrite decide_False by done. by apply Hw.
  - destruct (Hw _ _ Hwt) as [_ Hs].
    apply (exec_inv_call _ _ _ _ _ (reply_id c) None); [done| |done|].
    { eapply fresh_not_accepted; [done|]. by rewrite Hs. }
    intros j c' [Hn Hj]%lookup_delete_Some. rewrite decide_False by done. by apply Hw.
  - unfold try_transition. set (c := CTransition _ _ _ _).
    destruct (chan_try_send c (ex_chan ex)) as [[] ch] eqn:E; [|done..]. simpl.
    apply exec_inv_accept; [done| |done]. eapply fresh_not_accepted; [done|].
    simpl. by rewrite Hf.
  - by destruct Hi; split.
  - by destruct Hi; split.
  - apply exec_inv_exit; [done|]. by destruct (ex_phase ex).
Qed.

Lemma exec_reachable actx a0 capacity ex :
  rtc (exec_step actx) (spawn_with_task a0 capacity) ex →
  ∃ replies, exec_inv actx a0 capacity replies ex.
Proof.
  intros H. apply (rtc_invariant (exec_step actx)
    (λ ex, ∃ replies, exec_inv actx a0 capacity replies ex) (spawn_with_task a0 capacity) ex); [| |done].
  - intros x y [Ht|Hc] [replies Hi].
    + destruct (task_step_inv _ _ _ _ _ _ Hi Ht) as (replies' & ? & _). eauto.
    + exists replies. by eapply client_step_inv.
  - exists []. apply exec_inv_spawn.
Qed.

(** C11: the executor implements a sequential object. Whatever the callers, the
    aborts and the interleaving, the commands the task has finished are a prefix
    of the commands the channel accepted, in the order of acceptance; the actor
    is in the state that [on_start] and serving exactly those commands one after
    the other leave it in; and each reply that was sent is the one that
    sequential run gives to that call. *)
Theorem executor_linearizable (actx : ActorCtx) (a0 : A) (capacity : nat) (ex : Exec num A) :
  rtc (exec_step actx) (spawn_with_task a0 capacity) ex →
  ex_processed ex `prefix_of` ex_accepted ex ∧
  ∃ replies,
    (ex_processed ex = [] ∧ replies = [] ∨
     ∃ r a1, actor_on_start actx a0 = Some (r, a1) ∧
       serve_all actx (ex_processed ex) a1 = Some (replies, ex_actor ex)) ∧
    ∀ id r, ex_slots ex !! id = Some (Replied r) ↔ (id, r) ∈ replies.
Proof.
  intros [replies Hi]%exec_reachable. pose proof Hi as [_ _ (lost & Hord & _) Hnd Hpr Hrep _ Hsl].
  split; [rewrite Hord; by apply prefix_app_r|]. exists replies. split.
  - unfold progress in Hpr. destruct (ex_phase ex); naive_solver.
  - intros id r. specialize (Hsl id). split; [intros E; by rewrite E in Hsl|]. intros Hin.
    assert (Hp : id ∈ ids (ex_processed ex)).
    { rewrite Hrep. apply list_elem_of_fmap. by exists (id, r). }
    assert (Ha : id ∈ ids (ex_accepted ex)).
    { rewrite Hord. unfold ids in *. rewrite map_app. set_solver. }
    assert (Hu : id ∉ ids (unanswered ex)).
    { rewrite Hord in Hnd. unfold ids in *. rewrite !map_app in Hnd.
      apply NoDup_app in Hnd as (_ & Hd & _). intros Hu. apply (Hd id Hp). set_solver. }
    destruct (ex_slots ex !! id) as [[| | |r'|]|]; try done; [|naive_solver].
    f_equal. f_equal. assert (Hnd' : NoDup (map fst replies)).
    { rewrite <- Hrep. rewrite Hord in Hnd. unfold ids in *. rewrite map_app in Hnd.
      by apply NoDup_app in Hnd as (? & _). }
    clear -Hsl Hin Hnd'. induction replies as [|[i x] l IH]; [by apply elem_of_nil in Hin|].
    simpl in Hnd'. apply NoDup_cons in Hnd' as [Hni Hnd'].
    apply elem_of_cons in Hsl as [|Hsl], Hin as [|Hin]; simplify_eq; [done|..]; [| |by apply IH].
    + destruct Hni. apply list_elem_of_fmap. by exists (i, r).
    + destruct Hni. apply list_elem_of_fmap. by exists (i, r').
Qed.

(** No call is left hanging by the end of the task: once the task has
    exited, by [Stop], by a panic, by an abort or because every handle is gone,
    every call the channel had accepted has its reply or learns that its reply
    slot was dropped, every later [try_transition] is told that the task is
    gone, and a call still waiting for capacity can only be refused. *)
Theorem executor_exit_answers (actx : ActorCtx) (a0 : A) (capacity : nat) (ex : Exec num A) :
  rtc (exec_step actx) (spawn_with_task a0 capacity) ex → ex_phase ex = Exited →
  (∀ c, c ∈ ex_accepted ex →
    ex_slots ex !! reply_id c = Some DroppedSlot ∨
    ∃ r, ex_slots ex !! reply_id c = Some (Replied r)) ∧
  (∀ name input command reply,
    try_transition name input command reply ex = (Err (TInternal "actor task terminated"), ex)) ∧
  (∀ c ex', client_step ex ex' → ex_accepted ex' = ex_accepted ex ∧
    (ex_slots ex !! reply_id c = Some Sending → ex_slots ex' !! reply_id c ≠ Some Queued)).
Proof.
  intros [replies Hi]%exec_reachable Hex. pose proof Hi as [_ Hal _ _ _ _ _ Hsl].
  rewrite Hex in Hal. simpl in Hal.
  assert (Hc : ∀ c, chan_try_send c (ex_chan ex) = (SendClosed, ex_chan ex)).
  { intros c. by apply chan_try_send_closed. }
  split_and!.
  - intros c Hin. specialize (Hsl (reply_id c)).
    assert (reply_id c ∈ ids (ex_accepted ex)) by (by apply list_elem_of_fmap_2).
    destruct (ex_slots ex !! reply_id c) as [[]|]; try done; [|eauto|by left].
    unfold unanswered in Hsl. rewrite Hex in Hsl. simpl in Hsl. set_solver.
  - intros. unfold try_transition. by rewrite Hc.
  - intros c ex' Hs. destruct Hs as [ex c' Hh Hf|ex c' ch Hw Hsend|ex c' Hw Hd|ex c' Hw
                   |ex name input command reply Hh Hf|ex Hh|ex n Hn Hz|ex Hne].
    + split; [done|]. intros Hs. simpl.
      destruct (decide (reply_id c' = reply_id c)) as [E|E].
      * by rewrite E, lookup_insert_eq.
      * by rewrite lookup_insert_ne, Hs.
    + by rewrite Hc in Hsend.
    + split; [done|]. intros Hs. simpl.
      destruct (decide (reply_id c' = reply_id c)) as [E|E].
      * by rewrite E, lookup_insert_eq.
      * by rewrite lookup_insert_ne, Hs.
    + split; [done|]. intros Hs. simpl.
      destruct (decide (reply_id c' = reply_id c)) as [E|E].
      * by rewrite E, lookup_delete_eq.
      * by rewrite lookup_delete_ne, Hs.
    + unfold try_transition. rewrite Hc. simpl. split; [done|]. by intros ->.
    + split; [done|]. simpl. by intros ->.
    + split; [done|]. simpl. by intros ->.
    + by destruct Hne.
Qed.

(** ** Backpressure *)

(** The mailbox holds at most its capacity, which is at least one even when
    zero was asked for; [try_transition] on a live task is rejected with [Busy]
    exactly when the mailbox is full, changing nothing, and is accepted
    otherwise. *)
Theorem try_transition_busy_iff_full (actx : ActorCtx) (a0 : A) (capacity : nat) (ex : Exec num A)
    (name : string) (input : TransitionInput num) (command : CommandId) (reply : CallId) :
  rtc (exec_step actx) (spawn_with_task a0 capacity) ex → ex_phase ex ≠ Exited →
  1 ≤ queue_capacity capacity ∧
  length (chan_contents (ex_chan ex)) ≤ queue_capacity capacity ∧
  (length (chan_contents (ex_chan ex)) = queue_capacity capacity →
    try_transition name input command reply ex = (Err TBusy, ex)) ∧
  (length (chan_contents (ex_chan ex)) < queue_capacity capacity →
    let '(r, ex') := try_transition name input command reply ex in
    r = Ok reply ∧
    ex_accepted ex' = ex_accepted ex ++
      [CTransition name input (transition_ctx_new command request_ctx_default "actor") reply] ∧
    ex_slots ex' !! reply = Some Queued).
Proof.
  intros [replies Hi]%exec_reachable Hne. pose proof Hi as [Hcap Hal _ _ _ _ _ _].
  assert (chan_rx_alive (ex_chan ex) = true) as Ha by (rewrite Hal; by destruct (ex_phase ex)).
  split_and!; [unfold queue_capacity; lia|lia|..]; intros Hlen; unfold try_transition.
  - by rewrite chan_try_send_full by (done || lia).
  - edestruct (chan_try_send_ok (CTransition name input
      (transition_ctx_new command request_ctx_default "actor") reply) (ex_chan ex))
      as (ch & -> & _); [done|lia|]. simpl. by rewrite lookup_insert_eq.
Qed.

(** ** Progress *)

(** Work left for the task. *)
Definition task_work ex : nat :=
  match ex_phase ex with
  | Exited => 0
  | Receiving => 2 * length (chan_contents (ex_chan ex)) + 1
  | Starting | Handling _ => 2 * length (chan_contents (ex_chan ex)) + 2
  end.

Lemma task_step_decreases actx ex ex' : task_step actx ex ex' → task_work ex' < task_work ex.
Proof.
  intros Hs. unfold task_work.
  destruct Hs as [ex r a Hph Hst|ex Hph Hst|ex c ch Hph Hpop|ex Hph Hc Hh|ex c r a Hph Hsv|ex c Hph Hsv];
    rewrite Hph; simpl; try lia.
  - pose proof (chan_pop_spec (ex_chan ex)) as Hp. rewrite Hpop in Hp.
    destruct Hp as (Hhd & Htl & _). destruct (chan_contents (ex_chan ex)); [done|].
    simpl in *. rewrite Htl. lia.
  - unfold finish. destruct c; simpl; lia.
Qed.

Lemma task_step_enabled actx ex :
  (∃ ex', task_step actx ex ex') ∨ ex_phase ex = Exited ∨
  (ex_phase ex = Receiving ∧ chan_contents (ex_chan ex) = [] ∧ 0 < ex_handles ex).
Proof.
  destruct (ex_phase ex) as [| |c|] eqn:Hph; [left|..|by right; left].
  - destruct (actor_on_start actx (ex_actor ex)) as [[r a]|] eqn:E; eexists.
    + by eapply ts_started.
    + by eapply ts_start_panics.
  - pose proof (chan_pop_spec (ex_chan ex)) as Hp.
    destruct (chan_pop (ex_chan ex)) as [o ch] eqn:Epop. destruct Hp as (Hhd & _).
    destruct (chan_contents (ex_chan ex)) as [|c l] eqn:Ec; simpl in Hhd; subst o.
    + destruct (ex_handles ex) eqn:Eh; [left|right; right; split_and!; [done..|lia]].
      eexists. by eapply ts_recv_none.
    + left. eexists. by eapply ts_recv.
  - left. destruct (serve actx c (ex_actor ex)) as [[r a]|] eqn:E; eexists.
    + by eapply ts_finish.
    + by eapply ts_panics.
Qed.

Lemma task_runs_out actx ex :
  ∃ n ex', n ≤ task_work ex ∧ nsteps (task_step actx) n ex ex' ∧
    (∀ ex'', ¬ task_step actx ex' ex'').
Proof.
  remember (task_work ex) as w eqn:Hw. revert ex Hw.
  induction w as [w IH] using (well_founded_induction lt_wf). intros ex ->.
  destruct (task_step_enabled actx ex) as [[ex1 H1]|Hstuck].
  - pose proof (task_step_decreases _ _ _ H1) as Hlt.
    destruct (IH _ Hlt ex1 eq_refl) as (n & ex' & Hn & Hs & Hend).
    exists (S n), ex'. split; [lia|]. split; [by econstructor|done].
  - exists 0, ex. split; [lia|]. split; [constructor|]. intros ex'' Hs.
    destruct Hs as [ex r a Hph|ex Hph|ex c ch Hph Hpop|ex Hph Hc Hh|ex c r a Hph|ex c Hph];
      destruct Hstuck as [|(? & Hc' & ?)]; try congruence; [|lia].
    pose proof (chan_pop_spec (ex_chan ex)) as Hp. rewrite Hpop, Hc' in Hp. by destruct Hp.
Qed.

Lemma task_nsteps_inv actx a0 capacity replies ex n ex' :
  exec_inv actx a0 capacity replies ex → nsteps (task_step actx) n ex ex' →
  ∃ replies', exec_inv actx a0 capacity replies' ex'.
Proof.
  intros Hi Hs. revert replies Hi. induction Hs as [|n x y z Hxy _ IH]; intros replies Hi; [eauto|].
  destruct (task_step_inv _ _ _ _ _ _ Hi Hxy) as (replies' & Hi' & _). eauto.
Qed.

(** C30: every accepted call is answered. Each step of the task uses up work, so
    the task run by itself stops, after at most twice the mailbox capacity plus
    two steps; and when it stops no accepted call is without an answer: the task
    has exited, or it waits on an empty mailbox that still has a handle. *)
Theorem executor_answers_all (actx : ActorCtx) (a0 : A) (capacity : nat) (ex : Exec num A) :
  rtc (exec_step actx) (spawn_with_task a0 capacity) ex →
  (∀ ex', task_step actx ex ex' → task_work ex' < task_work ex) ∧
  ∃ n ex', n ≤ 2 * queue_capacity capacity + 2 ∧ nsteps (task_step actx) n ex ex' ∧
    (∀ ex'', ¬ task_step actx ex' ex'') ∧
    (∀ id, ex_slots ex' !! id ≠ Some Queued) ∧
    (ex_phase ex' = Exited ∨
     ex_phase ex' = Receiving ∧ chan_contents (ex_chan ex') = [] ∧ 0 < ex_handles ex').
Proof.
  intros [replies Hi]%exec_reachable. split; [by apply task_step_decreases|].
  destruct (task_runs_out actx ex) as (n & ex' & Hn & Hs & Hend). exists n, ex'.
  destruct (task_nsteps_inv _ _ _ _ _ _ _ Hi Hs) as [replies' Hi'].
  assert (Hst : ex_phase ex' = Exited ∨
     ex_phase ex' = Receiving ∧ chan_contents (ex_chan ex') = [] ∧ 0 < ex_handles ex').
  { destruct (task_step_enabled actx ex') as [[ex'' H]|]; [by destruct (Hend ex'')|done]. }
  split_and!; [|done..| |done].
  - etrans; [exact Hn|]. pose proof (ei_capacity _ _ _ _ _ Hi).
    unfold task_work. destruct (ex_phase ex); lia.
  - intros id Hq. pose proof (ei_slots _ _ _ _ _ Hi' id) as Hsl. rewrite Hq in Hsl.
    unfold unanswered in Hsl. destruct Hst as [E|(E & Hc & _)]; rewrite E, ?Hc in Hsl;
      by apply elem_of_nil in Hsl.
Qed.

(** ** Shutdown *)

(** Everything the callers can do short of aborting the task or cancelling the
    call [i]. *)
Definition caller_step (i : CallId) ex ex' : Prop :=
  client_step ex ex' ∧ ex_phase ex' ≠ Exited ∧ ex_slots ex' !! i ≠ None.

Lemma full_send c ex :
  chan_rx_alive (ex_chan ex) = true → chan_permits (ex_chan ex) = 0 →
  chan_try_send c (ex_chan ex) = (SendFull, ex_chan ex).
Proof. apply chan_try_send_full. Qed.

Lemma caller_step_full i ex ex' :
  chan_rx_alive (ex_chan ex) = true → chan_permits (ex_chan ex) = 0 →
  ex_slots ex !! i = Some Sending → caller_step i ex ex' →
  ex_chan ex' = ex_chan ex ∧ ex_slots ex' !! i = Some Sending.
Proof.
  intros Ha Hp Hs (Hc & Hne & Hi). pose proof (λ c, full_send c ex Ha Hp) as Hfull.
  destruct Hc as [ex c Hh Hf|ex c ch Hw Hsend|ex c Hw Hd|ex c Hw
                 |ex name input command reply Hh Hf|ex Hh|ex n Hn Hz|ex Hne'].
  - split; [done|]. simpl. rewrite lookup_insert_ne; [done|]. congruence.
  - by rewrite Hfull in Hsend.
  - congruence.
  - split; [done|]. simpl in *. destruct (decide (reply_id c = i)) as [<-|].
    + by rewrite lookup_delete_eq in Hi.
    + by rewrite lookup_delete_ne.
  - unfold try_transition. rewrite Hfull. done.
  - done.
  - done.
  - done.
Qed.

(** The timeout of [shutdown] covers only the wait for the reply. While the
    mailbox is full and the task is busy with one command, a [shutdown] that has
    been called stays in its send whatever the other callers do, and does not
    return however long ago [within] elapsed. *)
Theorem shutdown_timeout_skips_send (actx : ActorCtx) (a0 : A) (capacity : nat)
    (ex ex' : Exec num A) (i : CallId) :
  rtc (exec_step actx) (spawn_with_task a0 capacity) ex → ex_phase ex ≠ Exited →
  length (chan_contents (ex_chan ex)) = queue_capacity capacity →
  ex_slots ex !! i = None →
  rtc (caller_step i) (begin_send (CStop i) ex) ex' →
  ∃ s, ex_slots ex' !! i = Some s ∧ shutdown_result true s = None.
Proof.
  intros [replies Hi]%exec_reachable Hne Hfull Hf Hs. pose proof Hi as [Hcap Hal _ _ _ _ _ _].
  assert (chan_rx_alive (ex_chan ex) = true) as Ha by (rewrite Hal; by destruct (ex_phase ex)).
  assert (ex_chan ex' = ex_chan ex ∧ ex_slots ex' !! i = Some Sending) as [_ H]; [|by exists Sending].
  apply (rtc_invariant (caller_step i)
    (λ x, ex_chan x = ex_chan ex ∧ ex_slots x !! i = Some Sending) (begin_send (CStop i) ex)); [| |done].
  - intros x y Hxy [Hch Hsl].
    destruct (caller_step_full i x y) as [E1 E2]; rewrite ?Hch; try done; [lia|].
    by rewrite E1.
  - simpl. by rewrite lookup_insert_eq.
Qed.
End facts.

(** ** The theorems at a concrete actor *)

Module ExecutorExamples.
(** A counter: each transition adds one and answers with the count. *)
#[local] Instance counter : Actor N nat := {|
  actor_spec := λ _, mk_resource_spec "counter" None [] None [];
  actor_snapshot := λ a, Some (Ok (build_state (pretty a) (builder "counter")), a);
  actor_transition := λ ctx name _ a,
    Some (completed ctx (Some (JNumber (N.of_nat (S a)))) (builder "counter"), S a);
  actor_on_start := λ _ a, Some (Ok tt, a);
  actor_on_stop := λ _ a, Some (Ok tt, a)
|}.
#[local] Existing Instance ListChannel.mpsc.
#[local] Existing Instance ListChannel.mpsc_laws.

Definition me : ActorCtx := actor_ctx_new "hub" "counter-1" "counter" [].
Definition bump (i : CallId) : Command N :=
  CTransition "bump" [] (transition_ctx_new "cmd" request_ctx_default "actor") i.

(** Two calls on a mailbox of one slot; the first is being handled. *)
Definition ex0 : Exec N nat := spawn_with_task 0 0.
Definition ex1 : Exec N nat :=
  mk_exec Receiving 0 (ex_chan ex0) 1 ∅ ∅ [] [].
Definition ex2 : Exec N nat := (try_transition "bump" [] "cmd" 1 ex1).2.
Definition ex3 : Exec N nat :=
  mk_exec (Handling (bump 1)) 0 (chan_pop (ex_chan ex2)).2 1 (ex_waiting ex2) (ex_slots ex2)
    (ex_accepted ex2) (ex_processed ex2).
Definition ex4 : Exec N nat := (try_transition "bump" [] "cmd" 2 ex3).2.

Lemma ex4_reachable : rtc (exec_step me) ex0 ex4.
Proof.
  apply (rtc_l _ ex0 ex1). { left. by eapply (ts_started me ex0). }
  apply (rtc_l _ ex1 ex2). { right. apply cl_try; [simpl; lia|done]. }
  apply (rtc_l _ ex2 ex3). { left. by eapply (ts_recv me ex2). }
  apply (rtc_l _ ex3 ex4). { right. apply cl_try; [simpl; lia|done]. }
  apply rtc_refl.
Qed.

Lemma executor_linearizable_witness :
  ex_processed ex4 `prefix_of` ex_accepted ex4 ∧ length (ex_accepted ex4) = 2.
Proof.
  split; [|reflexivity].
  exact (proj1 (executor_linearizable me 0 0 ex4 ex4_reachable)).
Defined.

Lemma try_transition_busy_iff_full_witness :
  try_transition "bump" [] "cmd" 3 ex4 = (Err TBusy, ex4).
Proof.
  apply (try_transition_busy_iff_full me 0 0 ex4 "bump" [] "cmd" 3 ex4_reachable); done.
Defined.

Lemma executor_answers_all_witness :
  ∃ n ex', n ≤ 4 ∧ nsteps (task_step me) n ex4 ex' ∧ ∀ id, ex_slots ex' !! id ≠ Some Queued.
Proof.
  destruct (executor_answers_all me 0 0 ex4 ex4_reachable)
    as (_ & n & ex' & Hn & Hs & _ & Hq & _).
  exists n, ex'. done.
Defined.

Lemma shutdown_timeout_skips_send_witness :
  ∃ s, ex_slots (begin_send (CStop 3) ex4) !! 3 = Some s ∧ shutdown_result true s = None.
Proof.
  apply (shutdown_timeout_skips_send me 0 0 ex4 _ 3 ex4_reachable); [done..|apply rtc_refl].
Defined.

(** The task aborted in that state: both calls learn of it. *)
Lemma executor_exit_answers_witness :
  ex_slots (exit_task ex4) !! 1 = Some DroppedSlot ∧
  (try_transition "bump" [] "cmd" 3 (exit_task ex4)).1 = Err (TInternal "actor task terminated").
Proof.
  assert (H : rtc (exec_step me) ex0 (exit_task ex4)).
  { eapply rtc_r; [apply ex4_reachable|]. right. by apply cl_abort. }
  destruct (executor_exit_answers me 0 0 (exit_task ex4) H eq_refl) as (Ha & Ht & _).
  split.
  - destruct (Ha (bump 1)) as [E|[r E]]; [by apply elem_of_cons; left|exact E|].
    vm_compute in E. discriminate E.
  - by rewrite Ht.
Defined.
End ExecutorExamples.
