(* ===== verification/Node.v ===== *)
(** The node runtime ([runtime/directory.rs], [runtime/node.rs],
    [runtime/handle.rs]): the directory of registered actors, the builder, and
    the reads and queries over the registered resources. An actor's answer to a
    snapshot request is what its executor delivers; it is an argument here. *)

From S2P Require Import Prelude F64 Json Query Lexer Parser.
From S2P Require Import Mpsc Resource Runtime Executor.

(** ** The directory *)

(** The executor an entry's [ActorHandle] sends to. *)
Definition HandleId : Type := nat.

Record Entry {num : Type} := mk_entry {
  e_id : string;
  e_kind : string;
  e_resource_spec : ResourceSpec num;
  e_handle : HandleId
}.
Arguments Entry num : clear implicits.
Arguments mk_entry {num}.
Arguments e_id {num}.
Arguments e_kind {num}.
Arguments e_resource_spec {num}.
Arguments e_handle {num}.

Record ResourceDirectory {num : Type} := mk_directory {
  d_entries : list (Entry num);
  d_by_id : gmap string nat
}.
Arguments ResourceDirectory num : clear implicits.
Arguments mk_directory {num}.
Arguments d_entries {num}.
Arguments d_by_id {num}.

(** An actor's answer to a snapshot request. *)
Abbreviation snapshot_answer num := (result ResourceError (ResourceSnapshot num)).

Section directory.
  Context {num : Type}.
  Implicit Types (d : ResourceDirectory num) (e : Entry num).

Definition directory_new : ResourceDirectory num := mk_directory [] ∅.
Definition directory_len d : nat := length (d_entries d).
Definition directory_is_empty d : bool := match d_entries d with [] => true | _ => false end.

(** [get_by_id]; the outer [None] is an index out of bounds. *)
Definition get_by_id (id : string) d : option (option (Entry num)) :=
  match d_by_id d !! id with
  | None => Some None
  | Some i => Some <$> (d_entries d !! i)
  end.

Definition contains_id (id : string) d : bool := bool_decide (is_Some (d_by_id d !! id)).

Definition duplicate_id (id : string) : ResourceError :=
  RInternal ("duplicate resource id: " +:+ id).

(** [ResourceDirectory::insert] *)
Definition directory_insert (id kind : string) (handle : HandleId) (spec : ResourceSpec num) d
    : result ResourceError (ResourceDirectory num) :=
  if contains_id id d then Err (duplicate_id id)
  else Ok (mk_directory (d_entries d ++ [mk_entry id kind spec handle])
             (<[id := length (d_entries d)]> (d_by_id d))).

(** [Entry::default_snapshot_streams] *)
Definition default_snapshot_streams e : list SnapshotStreamSpec :=
  map snapshot_stream_from (sp_streams (e_resource_spec e)).

(** [Entry::snapshot], given the actor's answer. *)
Definition entry_snapshot e (node : string) (answer : snapshot_answer num)
    : snapshot_answer num :=
  let? snap := answer in
  Ok (mk_snapshot (e_id e) (e_kind e) (rs_name snap) (rs_state snap) node (rs_properties snap)
        (rs_labels snap) (rs_transitions snap)
        (match rs_streams snap with [] => default_snapshot_streams e | l => l end)
        (rs_revision snap) (rs_metadata snap)).

(** [Entry::actor_spec] *)
Definition entry_actor_spec e (node : string) (answer : snapshot_answer num)
    : result ResourceError (ActorSpec num) :=
  let? transitions :=
    match entry_snapshot e node answer with
    | Ok snapshot => Ok (rs_transitions snapshot)
    | Err (RUnavailable _) => Ok []
    | Err err => Err err
    end in
  Ok (mk_actor_spec (e_resource_spec e) (map ta_spec transitions)).

(** [Entry::unavailable_snapshot] *)
Definition unavailable_snapshot e (node : string) : ResourceSnapshot num :=
  mk_snapshot (e_id e) (e_kind e) (sp_name (e_resource_spec e)) None node []
    (sp_labels (e_resource_spec e)) [] (default_snapshot_streams e) None [].
End directory.

(** ** The node *)

Inductive ResourceSnapshotRead {num : Type} :=
| Available (snapshot : ResourceSnapshot num)
| UnavailableRead (resource_id : string) (placeholder : ResourceSnapshot num)
| FailedRead.
Arguments ResourceSnapshotRead num : clear implicits.
Arguments Available {num}.
Arguments UnavailableRead {num}.
Arguments FailedRead {num}.

Section node.
  Context {num A : Type} `{!Actor num A} `{!Mpsc (Command num)}.

(** [Node]: the directory and the executors of its actors, in spawn order. The
    bus and the stream registry are the event bus component. *)
Record Node := mk_node {
  n_id : string;
  n_directory : ResourceDirectory num;
  n_actor_queue_capacity : nat;
  n_executors : list (ActorCtx * Exec num A)
}.
Implicit Types (n : Node) (a : A).

(** [spawn_actor_entry] *)
Definition spawn_actor_entry a (node_id id : string) (capacity : nat)
    : string * (ActorCtx * Exec num A) * ResourceSpec num :=
  let spec := actor_spec a in
  let actor_ctx := with_publisher (actor_ctx_new node_id id (sp_kind spec) (sp_labels spec)) in
  (sp_kind spec, (actor_ctx, spawn_with_task a capacity), spec).

(** [Node::register_with_id], under the write lock of the directory. *)
Definition register_with_id (id : string) a n : result ResourceError unit * Node :=
  if contains_id id (n_directory n) then (Err (duplicate_id id), n)
  else
    let '(kind, exec, spec) := spawn_actor_entry a (n_id n) id (n_actor_queue_capacity n) in
    let execs := n_executors n ++ [exec] in
    match directory_insert id kind (length (n_executors n)) spec (n_directory n) with
    | Ok d => (Ok tt, mk_node (n_id n) d (n_actor_queue_capacity n) execs)
    | Err e => (Err e, mk_node (n_id n) (n_directory n) (n_actor_queue_capacity n) execs)
    end.

(** [Node::register_actor]; the minted UUID is an argument. *)
Definition register_actor (uuid : string) a n : result ResourceError string * Node :=
  let '(r, n') := register_with_id uuid a n in
  (match r with Ok _ => Ok uuid | Err e => Err e end, n').

(** [TransitionCtx::register_actor] *)
Definition ctx_register_actor (c : TransitionCtx) (uuid : string) a n
    : result TransitionError string * Node :=
  if tc_node c then
    let '(r, n') := register_actor uuid a n in (map_err transition_error_from r, n')
  else (Err (TInternal
    "TransitionCtx has no Node attached; build with TransitionCtx::with_node"), n).

(** ** The builder *)

Record NodeBuilder := mk_node_builder {
  nb_id : string;
  nb_actor_queue_capacity : nat;
  nb_pending_actors : list (string * A)
}.

Definition node_builder_new (id : string) : NodeBuilder :=
  mk_node_builder id DEFAULT_ACTOR_QUEUE_CAPACITY [].

Definition actor_queue_capacity (capacity : nat) (b : NodeBuilder) : NodeBuilder :=
  mk_node_builder (nb_id b) (Nat.max capacity 1) (nb_pending_actors b).

Definition builder_register_with_id (id : string) a (b : NodeBuilder)
    : result ResourceError NodeBuilder :=
  if existsb (λ p, String.eqb p.1 id) (nb_pending_actors b) then Err (duplicate_id id)
  else Ok (mk_node_builder (nb_id b) (nb_actor_queue_capacity b)
             (nb_pending_actors b ++ [(id, a)])).

(** One pending registration: the closure of [PendingActor::new]. *)
Definition register_pending (n : Node) (p : string * A) : result ResourceError Node :=
  let '(r, n') := register_with_id p.1 p.2 n in
  match r with Ok _ => Ok n' | Err e => Err e end.

Fixpoint register_all (ps : list (string * A)) n : result ResourceError Node :=
  match ps with
  | [] => Ok n
  | p :: ps' => let? next := register_pending n p in register_all ps' next
  end.

(** [NodeBuilder::try_build] *)
Definition try_build (b : NodeBuilder) : result ResourceError Node :=
  register_all (nb_pending_actors b)
    (mk_node (nb_id b) directory_new (nb_actor_queue_capacity b) []).

(** ** Reads *)

(** The actors' answers, by resource id. *)
Implicit Types answers : string → snapshot_answer num.

Definition read_entry n answers (e : Entry num) : ResourceSnapshotRead num :=
  match entry_snapshot e (n_id n) (answers (e_id e)) with
  | Ok snapshot => Available snapshot
  | Err (RUnavailable _) => UnavailableRead (e_id e) (unavailable_snapshot e (n_id n))
  | Err _ => FailedRead
  end.

Definition resource_snapshot_reads n answers : list (ResourceSnapshotRead num) :=
  map (read_entry n answers) (d_entries (n_directory n)).

(** [Node::resources] *)
Definition shown (r : ResourceSnapshotRead num) : option (ResourceSnapshot num) :=
  match r with
  | Available snapshot => Some snapshot
  | UnavailableRead _ placeholder => Some placeholder
  | FailedRead => None
  end.

Definition resources n answers : list (ResourceSnapshot num) :=
  omap shown (resource_snapshot_reads n answers).

(** [Node::resource_snapshot]; the outer [None] is a panic. *)
Definition resource_snapshot n answers (id : string)
    : option (result ResourceError (option (ResourceSnapshot num))) :=
  match get_by_id id (n_directory n) with
  | None => None
  | Some None => Some (Ok None)
  | Some (Some e) =>
      Some (match entry_snapshot e (n_id n) (answers (e_id e)) with
            | Ok snap => Ok (Some snap)
            | Err err => Err err
            end)
  end.

(** [Node::actor_specs] *)
Definition actor_specs n answers : list (ActorSpec num) :=
  omap (λ e, match entry_actor_spec e (n_id n) (answers (e_id e)) with
             | Ok spec => Some spec
             | Err _ => None
             end) (d_entries (n_directory n)).

(** ** App-facing handles *)

Inductive NodeHandleError := QueryParse (msg : string) | HandleInternal (msg : string).

(** [NodeHandle::query]: the matching entries, in registration order. The
    error text of the parser is a parameter; [None] is a panic. *)
Fixpoint query_entries `{!SerdeNumber num} (q : Query) n answers (es : list (Entry num))
    : option (list (Entry num)) :=
  match es with
  | [] => Some []
  | e :: es' =>
      match entry_snapshot e (n_id n) (answers (e_id e)) with
      | Err _ => query_entries q n answers es'
      | Ok snap =>
          match matches q (to_query_value snap) with
          | Panicked => None
          | Returned r =>
              rest ← query_entries q n answers es';
              Some (match r with Ok true => e :: rest | _ => rest end)
          end
      end
  end.

(** The [Display] of [QueryError] *)
Definition query_error_to_string (e : QueryError) : string :=
  match e with
  | EParse offset message => "parse error at offset " +:+ pretty offset +:+ ": " +:+ message
  | EInvalidPath message => "invalid path: " +:+ message
  | EUnknown message => "unknown field: " +:+ message
  | EEval message => "evaluation error: " +:+ message
  end.

Definition node_query `{!SerdeNumber num} (ql : string) n answers
    : option (result NodeHandleError (list (Entry num))) :=
  match parse ql with
  | None => None
  | Some (Err e) => Some (Err (QueryParse (query_error_to_string e)))
  | Some (Ok q) => Ok <$> query_entries q n answers (d_entries (n_directory n))
  end.

(** [ResourceProxy]: an entry and the node it is registered on. *)
Record ResourceProxy := mk_proxy { px_entry : Entry num; px_node : Node }.

(** [NodeHandle::resource]; the outer [None] is a panic. *)
Definition handle_resource (id : string) n : option (option ResourceProxy) :=
  match get_by_id id (n_directory n) with
  | None => None
  | Some None => Some None
  | Some (Some e) => Some (Some (mk_proxy e n))
  end.

Definition proxy_snapshot (p : ResourceProxy) answers : snapshot_answer num :=
  entry_snapshot (px_entry p) (n_id (px_node p)) (answers (e_id (px_entry p))).

(** The command [ResourceProxy::transition] sends to the actor: outside of any
    request, with a fresh command id. *)
Definition proxy_transition (p : ResourceProxy) (name : string) (input : TransitionInput num)
    (command : CommandId) (reply : CallId) : Command num :=
  CTransition name input (with_node command request_ctx_default (n_id (px_node p))) reply.
End node.
Arguments Node num A {_}.
Arguments NodeBuilder A : clear implicits.

(** ** The directory invariant *)

Section directory_facts.
  Context {num : Type}.
  Implicit Types (d : ResourceDirectory num) (e : Entry num).

(** The index is exactly the positions of the ids. *)
Definition directory_wf d : Prop := ∀ id i,
  d_by_id d !! id = Some i ↔ ∃ e, d_entries d !! i = Some e ∧ e_id e = id.

Lemma directory_new_wf : directory_wf (@directory_new num).
Proof. intros id i. simpl. rewrite lookup_empty. split; [done|]. by intros (e & H & _). Qed.

Lemma directory_wf_unique d i j e e' :
  directory_wf d → d_entries d !! i = Some e → d_entries d !! j = Some e' →
  e_id e = e_id e' → i = j.
Proof.
  intros Hd Hi Hj E. assert (d_by_id d !! e_id e = Some i) by (apply Hd; eauto).
  assert (d_by_id d !! e_id e = Some j) by (apply Hd; eauto). congruence.
Qed.

(** Lookups never go out of bounds. *)
Lemma get_by_id_spec id d :
  directory_wf d →
  match get_by_id id d with
  | Some (Some e) => e ∈ d_entries d ∧ e_id e = id
  | Some None => ∀ e, e ∈ d_entries d → e_id e ≠ id
  | None => False
  end.
Proof.
  intros Hd. unfold get_by_id. destruct (d_by_id d !! id) as [i|] eqn:E.
  - apply Hd in E as (e & He & Hid). rewrite He. simpl. split; [|done].
    by eapply list_elem_of_lookup_2.
  - intros e [i Hi]%list_elem_of_lookup Hid.
    assert (d_by_id d !! id = Some i) by (apply Hd; eauto). congruence.
Qed.

Lemma get_by_id_entry e d : directory_wf d → e ∈ d_entries d → get_by_id (e_id e) d = Some (Some e).
Proof.
  intros Hd [i Hi]%list_elem_of_lookup. unfold get_by_id.
  assert (d_by_id d !! e_id e = Some i) as -> by (apply Hd; eauto). by rewrite Hi.
Qed.

Lemma contains_id_spec id d :
  directory_wf d → contains_id id d = true ↔ ∃ e, e ∈ d_entries d ∧ e_id e = id.
Proof.
  intros Hd. unfold contains_id. rewrite bool_decide_eq_true. split.
  - intros [i Hi]. apply Hd in Hi as (e & He & ?). exists e. split; [|done].
    by eapply list_elem_of_lookup_2.
  - intros (e & [i Hi]%list_elem_of_lookup & Hid). exists i. apply Hd. eauto.
Qed.

Lemma directory_insert_wf id kind h spec d d' :
  directory_wf d → directory_insert id kind h spec d = Ok d' → directory_wf d'.
Proof.
  intros Hd. unfold directory_insert. destruct (contains_id id d) eqn:Ec; [done|]. intros [= <-].
  apply not_true_iff_false in Ec. rewrite contains_id_spec in Ec by done.
  intros id' i. simpl. rewrite lookup_insert_Some. split.
  - intros [[<- <-]|[Hne (e & He & ?)%Hd]].
    + exists (mk_entry id kind spec h). by rewrite list_lookup_middle.
    + exists e. split; [by apply lookup_app_l_Some|done].
  - intros (e & [He|[Hle He]]%lookup_app_Some & Hid).
    + right. split; [|apply Hd; eauto]. intros ->. apply Ec. exists e. split; [|done].
      by eapply list_elem_of_lookup_2.
    + apply list_lookup_singleton_Some in He as [Hi <-]. left. simpl in Hid. split; [done|lia].
Qed.
End directory_facts.

Section node_facts.
  Context {num A : Type} `{!Actor num A} `{!Mpsc (Command num)}.
  Implicit Types (n : Node num A) (a : A) (e : Entry num).

(** Every entry has its own executor, which carries the entry's identity. *)
Record node_wf n : Prop := {
  nw_directory : directory_wf (n_directory n);
  nw_handles : length (n_executors n) = length (d_entries (n_directory n));
  nw_executor : ∀ i e, d_entries (n_directory n) !! i = Some e →
    e_handle e = i ∧ ∃ ex, n_executors n !! i =
      Some (with_publisher (actor_ctx_new (n_id n) (e_id e) (e_kind e)
              (sp_labels (e_resource_spec e))), ex)
}.

Lemma register_with_id_spec id a n :
  node_wf n →
  let '(r, n') := register_with_id id a n in
  node_wf n' ∧
  match r with
  | Ok _ => (∀ e, e ∈ d_entries (n_directory n) → e_id e ≠ id) ∧
      ∃ e, e_id e = id ∧ e_kind e = sp_kind (actor_spec a) ∧
        d_entries (n_directory n') = d_entries (n_directory n) ++ [e] ∧
        n_executors n' = n_executors n ++
          [(with_publisher (actor_ctx_new (n_id n) id (e_kind e) (sp_labels (actor_spec a))),
            spawn_with_task a (n_actor_queue_capacity n))] ∧ n_id n' = n_id n
  | Err err => err = duplicate_id id ∧ n' = n ∧
      ∃ e, e ∈ d_entries (n_directory n) ∧ e_id e = id
  end.
Proof.
  intros Hn. pose proof Hn as [Hd Hh He]. unfold register_with_id.
  destruct (contains_id id (n_directory n)) eqn:Ec.
  { split; [done|]. split_and!; [done..|]. by apply contains_id_spec. }
  simpl. unfold directory_insert. rewrite Ec. pose proof Ec as Hnew.
  apply not_true_iff_false in Hnew. rewrite contains_id_spec in Hnew by done.
  split; [|split; [naive_solver|]].
  - split; simpl.
    + by apply (directory_insert_wf id (sp_kind (actor_spec a)) (length (n_executors n)) (actor_spec a)
        (n_directory n)); [|unfold directory_insert; rewrite Ec].
    + rewrite !length_app. simpl. lia.
    + intros i e [Hi|[Hle Hi]]%lookup_app_Some.
      * destruct (He i e Hi) as (? & ex & Hex). split; [done|]. exists ex.
        by apply lookup_app_l_Some.
      * apply list_lookup_singleton_Some in Hi as [Hi <-]. simpl.
        assert (i = length (n_executors n)) as -> by lia. split; [done|]. eexists.
        by rewrite list_lookup_middle.
  - eexists. split_and!; [..|done|done|done]; done.
Qed.

Definition node_new (id : string) (capacity : nat) : Node num A :=
  mk_node id directory_new capacity [].

Lemma node_new_wf id capacity : node_wf (node_new id capacity).
Proof. split; [apply directory_new_wf|done|done]. Qed.

(** The nodes the runtime can be in, as far as its directory goes. *)
Inductive node_step : Node num A → Node num A → Prop :=
| ns_register id a n : node_step n (register_with_id id a n).2
| ns_run n execs : map fst execs = map fst (n_executors n) →
    node_step n (mk_node (n_id n) (n_directory n) (n_actor_queue_capacity n) execs).

Lemma map_fst_lookup {B C} (l : list (B * C)) i b c :
  l !! i = Some (b, c) → map fst l !! i = Some b.
Proof. revert i. induction l as [|[? ?] l IH]; intros [|i] H; simpl in *; simplify_eq; eauto. Qed.

Lemma node_step_wf n n' : node_step n n' → node_wf n → node_wf n'.
Proof.
  intros [id a n0|n0 execs He] Hn.
  - pose proof (register_with_id_spec id a n0 Hn) as H.
    destruct (register_with_id id a n0). by destruct H.
  - destruct Hn as [Hd Hh Hx]. pose proof (f_equal length He) as Hl. rewrite !length_map in Hl.
    split; simpl; [done|congruence|]. intros i e Hi. destruct (Hx i e Hi) as (? & ex & Hex).
    split; [done|]. destruct (execs !! i) as [[ctx ex']|] eqn:E.
    + exists ex'. f_equal. f_equal.
      pose proof (map_fst_lookup _ _ _ _ E) as H1. pose proof (map_fst_lookup _ _ _ _ Hex) as H2.
      rewrite He in H1. congruence.
    + apply lookup_ge_None in E. apply lookup_lt_Some in Hex. lia.
Qed.

(** The directory of a node. However actors are registered and however
    they run, an id names at most one entry, a lookup never goes out of bounds
    and finds exactly the entry registered under the id, and each entry's
    executor is its own and carries the entry's id, kind, labels and node. A
    registration under a taken id is refused with no task spawned and nothing
    changed; any other adds its entry at the end. *)
Theorem node_directory_sound (id0 : string) (capacity : nat) (n : Node num A) :
  rtc node_step (node_new id0 capacity) n →
  (∀ e e', e ∈ d_entries (n_directory n) → e' ∈ d_entries (n_directory n) →
     e_id e = e_id e' → e = e') ∧
  (∀ id, ∃ o, get_by_id id (n_directory n) = Some o ∧
     ∀ e, o = Some e ↔ e ∈ d_entries (n_directory n) ∧ e_id e = id) ∧
  (∀ e, e ∈ d_entries (n_directory n) → ∃ ex, n_executors n !! e_handle e =
     Some (with_publisher (actor_ctx_new (n_id n) (e_id e) (e_kind e)
             (sp_labels (e_resource_spec e))), ex)) ∧
  (∀ id a, (∃ e, e ∈ d_entries (n_directory n) ∧ e_id e = id) →
     register_with_id id a n = (Err (duplicate_id id), n)) ∧
  (∀ id a, (∀ e, e ∈ d_entries (n_directory n) → e_id e ≠ id) →
     ∃ n' e, register_with_id id a n = (Ok tt, n') ∧ e_id e = id ∧
       d_entries (n_directory n') = d_entries (n_directory n) ++ [e]).
Proof.
  intros H. assert (Hn : node_wf n).
  { apply (rtc_invariant _ _ _ _ node_step_wf (node_new_wf id0 capacity) H). }
  pose proof Hn as [Hd Hh Hx]. split_and!.
  - intros e e' [i Hi]%list_elem_of_lookup [j Hj]%list_elem_of_lookup E.
    rewrite (directory_wf_unique _ i j e e' Hd Hi Hj E) in Hi. congruence.
  - intros id. pose proof (get_by_id_spec id _ Hd) as Hg.
    destruct (get_by_id id (n_directory n)) as [o|]; [|done]. exists o. split; [done|].
    intros e. destruct o as [e'|]; [|naive_solver]. destruct Hg as [Hin Hid]. split; [naive_solver|].
    intros [Hin' Hid']. f_equal. revert Hin Hin'.
    intros [i Hi]%list_elem_of_lookup [j Hj]%list_elem_of_lookup.
    rewrite (directory_wf_unique _ i j e' e Hd Hi Hj) in Hi by congruence. congruence.
  - intros e [i Hi]%list_elem_of_lookup. destruct (Hx i e Hi) as (-> & ex & ?). eauto.
  - intros id a Hin. pose proof (register_with_id_spec id a n Hn) as Hr.
    destruct (register_with_id id a n) as [[[]|err] n']; destruct Hr as (_ & Hr).
    + destruct Hr as (Hno & _), Hin as (e & ? & ?). by destruct (Hno e).
    + by destruct Hr as (-> & -> & _).
  - intros id a Hno. pose proof (register_with_id_spec id a n Hn) as Hr.
    destruct (register_with_id id a n) as [[[]|err] n']; destruct Hr as (_ & Hr).
    + destruct Hr as (_ & e & ? & _ & ? & _). eauto.
    + destruct Hr as (_ & _ & e & ? & ?). by destruct (Hno e).
Qed.

(** ** Building *)

Lemma register_all_spec (ps : list (string * A)) n :
  node_wf n → NoDup (map fst ps) →
  (∀ e, e ∈ d_entries (n_directory n) → e_id e ∉ map fst ps) →
  ∃ n', register_all ps n = Ok n' ∧ node_wf n' ∧ n_id n' = n_id n ∧
    map e_id (d_entries (n_directory n')) = map e_id (d_entries (n_directory n)) ++ map fst ps.
Proof.
  revert n. induction ps as [|[id a] ps IH]; intros n Hn Hnd Hnew.
  { exists n. by rewrite app_nil_r. }
  simpl in Hnd. apply NoDup_cons in Hnd as [Hid Hnd]. cbn [register_all].
  unfold register_pending. cbn [fst snd].
  pose proof (register_with_id_spec id a n Hn) as Hr.
  destruct (register_with_id id a n) as [[[]|err] n1]; destruct Hr as (Hn1 & Hr).
  - destruct Hr as (_ & e & He & _ & Hent & _ & Hnid).
    destruct (IH n1 Hn1 Hnd) as (n2 & Hall & Hn2 & Hnid2 & Hids).
    { intros e'. rewrite Hent, elem_of_app, list_elem_of_singleton.
      intros [Hin|Hin] Hin'; [|by rewrite Hin, He in Hin']. apply (Hnew e' Hin). simpl. by apply elem_of_cons; right. }
    exists n2. split_and!; [done|done|congruence|].
    rewrite Hids, Hent, map_app. simpl. by rewrite He, <- app_assoc.
  - destruct Hr as (_ & _ & e & Hin & He). destruct (Hnew e Hin). rewrite He. simpl.
    by apply elem_of_cons; left.
Qed.

(** The builders reachable from [NodeBuilder::new]. *)
Inductive builder_step : NodeBuilder A → NodeBuilder A → Prop :=
| bs_capacity k b : builder_step b (actor_queue_capacity k b)
| bs_register id a b b' : builder_register_with_id id a b = Ok b' → builder_step b b'.

Lemma builder_nodup b b' :
  builder_step b b' → NoDup (map fst (nb_pending_actors b)) → NoDup (map fst (nb_pending_actors b')).
Proof.
  intros [k b0|id a b0 b1 Hr] Hnd; [done|]. unfold builder_register_with_id in Hr.
  destruct (existsb _ _) eqn:E; [done|]. injection Hr as <-. simpl.
  rewrite map_app. simpl. apply NoDup_app. split_and!; [done| |apply NoDup_singleton].
  intros x Hx Hx'. apply list_elem_of_singleton in Hx' as ->.
  apply list_elem_of_fmap in Hx as ([id' a'] & E' & Hin). simpl in E'. subst id'.
  apply not_true_iff_false in E. apply E. apply existsb_exists. exists (id, a').
  split; [by apply list_elem_of_In|apply String.eqb_refl].
Qed.

(** A node builder that accepted its registrations builds: [try_build]
    never fails, so [build] never panics, and the node holds exactly the
    registered actors in registration order. *)
Theorem try_build_total (id : string) (b : NodeBuilder A) :
  rtc builder_step (node_builder_new id) b →
  ∃ n, try_build (num:=num) b = Ok n ∧ node_wf n ∧ n_id n = nb_id b ∧
    map e_id (d_entries (n_directory n)) = map fst (nb_pending_actors b).
Proof.
  intros H. assert (Hnd : NoDup (map fst (nb_pending_actors b))).
  { apply (rtc_invariant _ (λ b, NoDup (map fst (nb_pending_actors b))) _ _ builder_nodup
      (NoDup_nil_2 : NoDup (map fst (nb_pending_actors (node_builder_new (A:=A) id)))) H). }
  apply (register_all_spec (nb_pending_actors b)
    (node_new (nb_id b) (nb_actor_queue_capacity b))); [apply node_new_wf|done|].
  intros e He. by apply elem_of_nil in He.
Qed.

(** ** Reading *)

Definition answered (answers : string → snapshot_answer num) e : bool :=
  match answers (e_id e) with Ok _ | Err (RUnavailable _) => true | _ => false end.

Lemma shown_entry n answers e :
  match shown (read_entry n answers e) with
  | Some s => answered answers e = true ∧ rs_id s = e_id e ∧ rs_kind s = e_kind e ∧ rs_node s = n_id n
  | None => answered answers e = false
  end.
Proof. unfold read_entry, answered. by destruct (answers (e_id e)) as [s|[]]. Qed.

(** A listing shows the registered resources in registration order, one
    snapshot for each actor that answered or was unavailable and none for an
    actor that failed; whatever the actor reports of itself, the id, kind and
    node of a listed snapshot are those of its directory entry, and a snapshot
    without streams shows the declared ones. *)
Theorem resources_listing n (answers : string → snapshot_answer num) :
  map rs_id (resources n answers) =
    map e_id (List.filter (answered answers) (d_entries (n_directory n))) ∧
  Forall (λ s, ∃ e, e ∈ d_entries (n_directory n) ∧ rs_id s = e_id e ∧ rs_kind s = e_kind e ∧
      rs_node s = n_id n ∧
      (rs_streams s = [] → sp_streams (e_resource_spec e) = []))
    (resources n answers).
Proof.
  unfold resources, resource_snapshot_reads.
  induction (d_entries (n_directory n)) as [|e es [IH1 IH2]]; [done|]. simpl.
  pose proof (shown_entry n answers e) as Hs.
  assert (Hst : ∀ s, shown (read_entry n answers e) = Some s → rs_streams s = [] →
    sp_streams (e_resource_spec e) = []).
  { unfold read_entry, entry_snapshot, default_snapshot_streams.
    destruct (answers (e_id e)) as [s'|[]]; simpl; intros s [= <-]; simpl; try done.
    - destruct (rs_streams s'); [|done]. apply map_eq_nil.
    - apply map_eq_nil. }
  assert (IH2' : Forall (λ s, ∃ e0, e0 ∈ e :: es ∧ rs_id s = e_id e0 ∧ rs_kind s = e_kind e0 ∧
      rs_node s = n_id n ∧ (rs_streams s = [] → sp_streams (e_resource_spec e0) = []))
    (omap shown (map (read_entry n answers) es))).
  { apply (Forall_impl _ _ _ IH2). intros s (e0 & ? & ?). exists e0.
    split; [by apply elem_of_cons; right|done]. }
  destruct (shown (read_entry n answers e)) as [s|].
  - destruct Hs as (-> & ? & ? & ?). simpl. split; [by f_equal|]. constructor; [|done].
    exists e. split_and!; [by apply elem_of_cons; left|done..|]. by apply Hst.
  - rewrite Hs. by split.
Qed.

(** The entries a query selects. *)
Definition selected `{!SerdeNumber num} (q : Query) n (answers : string → snapshot_answer num) e
    : Prop :=
  ∃ snap, entry_snapshot e (n_id n) (answers (e_id e)) = Ok snap ∧
    sat (predicate q) (to_query_value snap).

Lemma query_entries_spec `{!SerdeNumber num} q n (answers : string → snapshot_answer num) es :
  ∃ l, query_entries q n answers es = Some l ∧ l `sublist_of` es ∧
    ∀ e, e ∈ l ↔ e ∈ es ∧ selected q n answers e.
Proof.
  induction es as [|e es (l & Hl & Hsub & Hin)]; simpl.
  { exists []. split_and!; [done|constructor|set_solver]. }
  destruct (entry_snapshot e (n_id n) (answers (e_id e))) as [snap|err] eqn:Es.
  - destruct (eval_pred_spec (predicate q) (to_query_value snap)) as (b & Hb & Hsat).
    unfold matches. rewrite Hb, Hl. simpl.
    assert (Hsel : selected q n answers e ↔ b = true).
    { unfold selected. rewrite Es. naive_solver. }
    destruct b; eexists; (split; [reflexivity|]).
    + split; [by apply sublist_skip|]. set_solver.
    + split; [by apply sublist_cons|]. set_solver.
  - exists l. split; [done|]. split; [by apply sublist_cons|]. intros e'.
    rewrite Hin, elem_of_cons. split; [naive_solver|]. intros [[->|?] Hs]; [|done].
    destruct Hs as (snap & Hs & _). congruence.
Qed.

(** An app's query returns, in registration order, exactly the resources
    whose snapshot could be read and satisfies the predicate; the evaluation
    never fails or panics, and a text that does not parse is reported as such. *)
Theorem node_query_exact `{!SerdeNumber num} (ql : string) n
    (answers : string → snapshot_answer num) :
  match parse ql with
  | Some (Ok q) => ∃ l, node_query ql n answers = Some (Ok l) ∧
      l `sublist_of` d_entries (n_directory n) ∧
      ∀ e, e ∈ l ↔ e ∈ d_entries (n_directory n) ∧ selected q n answers e
  | Some (Err e) => node_query ql n answers = Some (Err (QueryParse (query_error_to_string e)))
  | None => False
  end.
Proof.
  unfold node_query. destruct (parse_total ql) as [r Hr]. rewrite Hr. destruct r as [q|e]; [|done].
  destruct (query_entries_spec q n answers (d_entries (n_directory n))) as (l & -> & H).
  by exists l.
Qed.
End node_facts.
