(* ===== verification/Core.v ===== *)
(** The HTTP layer's runtime ([http/core.rs]): reads, queries and transitions
    of the node's resources, with the latest snapshots kept in a repository
    that answers while an actor is unavailable. *)

From S2P Require Import Prelude F64 Json Query Lexer Parser.
From S2P Require Import Mpsc Resource Persistence Redb Runtime Executor Node.

(** ** The snapshot repository *)

(** The trait [ResourceSnapshotRepository]. *)
Class ResourceSnapshotRepository (num S : Type) := {
  sn_upsert_latest : ResourceSnapshotRecord num → storage S unit;
  sn_latest : string → storage S (option (ResourceSnapshotRecord num))
}.

(** Its contract: [sn_stored] is what is held for a resource. What is read back
    of a record is related to it by [sn_reads_back]; a failed call changes
    nothing. *)
Class ResourceSnapshotLaws (num S : Type) `{!ResourceSnapshotRepository num S} := {
  sn_stored : S → string → option (ResourceSnapshotRecord num);
  sn_reads_back : ResourceSnapshotRecord num → ResourceSnapshotRecord num → Prop;
  sn_latest_spec s id :
    let '(r, s') := sn_latest id s in
    sn_stored s' = sn_stored s ∧
    match r with Ok o => o = sn_stored s id | Err e => storage_failure e = true end;
  sn_upsert_spec s rec :
    let '(r, s') := sn_upsert_latest rec s in
    match r with
    | Ok _ => ∃ rec', sn_reads_back rec rec' ∧ sn_stored s' (sr_resource_id rec) = Some rec' ∧
        ∀ i, i ≠ sr_resource_id rec → sn_stored s' i = sn_stored s i
    | Err e => storage_failure e = true ∧ sn_stored s' = sn_stored s
    end
}.

(** States in which the calls succeed. *)
Class ResourceSnapshotReliable (num S : Type) `{!ResourceSnapshotRepository num S} := {
  sn_healthy : S → Prop;
  sn_latest_ok s id : sn_healthy s → is_ok (sn_latest id s).1 = true ∧ sn_healthy (sn_latest id s).2;
  sn_upsert_ok s rec : sn_healthy s →
    is_ok (sn_upsert_latest rec s).1 = true ∧ sn_healthy (sn_upsert_latest rec s).2
}.

#[export] Instance memory_snapshots {num} : ResourceSnapshotRepository num (Mutex num) := {|
  sn_upsert_latest := memory_upsert_latest;
  sn_latest := memory_latest
|}.

#[export] Program Instance memory_snapshot_laws {num} : ResourceSnapshotLaws num (Mutex num) := {|
  sn_stored := λ m id, latest_snapshots (mx_state m) !! id;
  sn_reads_back := eq
|}.
Next Obligation.
  intros num [[] st] id; simpl; [done|]. split; [|done]. by destruct st.
Qed.
Next Obligation.
  intros num [[] st] rec; simpl; [done|]. exists rec. split_and!; [done|by rewrite lookup_insert_eq|].
  intros i Hi. by rewrite lookup_insert_ne.
Qed.

#[export] Program Instance memory_snapshot_reliable {num}
    : ResourceSnapshotReliable num (Mutex num) := {| sn_healthy := λ m, mx_poisoned m = false |}.
Next Obligation. by intros num [[] st]. Qed.
Next Obligation. by intros num [[] st]. Qed.

Section redb_snapshots.
  Context {num Bytes : Type} `{!Redb Bytes, !RedbLaws Bytes}.
  Context `{!JsonCodec Bytes (ResourceSnapshotRecord num)}.

#[export] Instance redb_snapshots : ResourceSnapshotRepository num (Database Bytes) := {|
  sn_upsert_latest := redb_upsert_latest;
  sn_latest := redb_latest
|}.

(** [serde_json] reads back what it writes, possibly with other float digits. *)
Class JsonCodecReads : Prop :=
  from_slice_of_to_vec (r : ResourceSnapshotRecord num) (b : Bytes) :
    to_vec r = Ok b → ∃ r' : ResourceSnapshotRecord num, from_slice b = Ok r'.

Definition redb_stored (d : Database Bytes) (id : string) : option (ResourceSnapshotRecord num) :=
  rows ← db_table d RESOURCE_SNAPSHOTS; b ← map_get id rows;
  match from_slice b with Ok r => Some r | Err _ => None end.

#[export] Program Instance redb_snapshot_laws `{!JsonCodecReads}
    : ResourceSnapshotLaws num (Database Bytes) := {|
  sn_stored := redb_stored;
  sn_reads_back := λ rec rec', ∃ b : Bytes, to_vec rec = Ok b ∧ from_slice b = Ok rec'
|}.
Next Obligation.
  intros Hc d id. cbn [sn_latest redb_snapshots]. unfold redb_latest.
  pose proof (get_json_spec (T:=ResourceSnapshotRecord num) RESOURCE_SNAPSHOTS id d) as H.
  destruct (get_json RESOURCE_SNAPSHOTS id d) as [[o|e] d']; destruct H as [-> H]; [|done].
  split; [done|]. destruct H as (rows & Hd & Ho). unfold redb_stored. rewrite Hd. simpl.
  destruct (map_get id rows) as [b|]; simpl; [|done]. destruct Ho as (r & -> & ->). done.
Qed.
Next Obligation.
  intros Hc d rec. cbn [sn_upsert_latest redb_snapshots]. unfold redb_upsert_latest.
  pose proof (put_json_spec RESOURCE_SNAPSHOTS (sr_resource_id rec) rec d) as H.
  destruct (put_json _ _ rec d) as [[[]|e] d'].
  - destruct H as (b & Hb & Hd). destruct (Hc rec b Hb) as [rec' Hrec'].
    specialize (Hd RESOURCE_SNAPSHOTS). rewrite decide_True in Hd by done.
    exists rec'. split; [eauto|]. unfold redb_stored. rewrite Hd. simpl. split.
    + by rewrite map_get_insert_eq; simpl; rewrite Hrec'.
    + intros i Hi. rewrite map_get_insert_ne by done. by destruct (db_table d RESOURCE_SNAPSHOTS).
  - destruct H as [He Hd]. split; [done|]. unfold redb_stored. by rewrite Hd.
Qed.
End redb_snapshots.

(** ** Errors *)

Inductive ResourceReadError :=
| ReadNotFound
| ReadUnavailable (msg : string)
| ReadInternal (msg : string).

Inductive ResourceTransitionError :=
| RtNotFound
| RtInvalidInput (msg : string)
| RtNotAllowed (msg : string)
| RtConflict (msg : string)
| RtBusy
| RtBackpressureRequired
| RtTimeout
| RtUnavailable (msg : string)
| RtInternal (msg : string).

#[export] Instance resource_transition_error_eq_dec : EqDecision ResourceTransitionError.
Proof. solve_decision. Defined.

Definition resource_read_error (e : ResourceError) : ResourceReadError :=
  match e with
  | RNotFound _ => ReadNotFound
  | RUnavailable msg => ReadUnavailable msg
  | RInternal msg => ReadInternal msg
  end.

Definition resource_error_to_transition (e : ResourceError) : ResourceTransitionError :=
  match e with
  | RNotFound _ => RtNotFound
  | RUnavailable msg => RtUnavailable msg
  | RInternal msg => RtInternal msg
  end.

Definition resource_transition_error (e : TransitionError) : ResourceTransitionError :=
  match e with
  | TInvalidInput msg => RtInvalidInput msg
  | TNotAllowed msg => RtNotAllowed msg
  | TConflict msg => RtConflict msg
  | TBusy => RtBusy
  | TBackpressureRequired => RtBackpressureRequired
  | TTimeout => RtTimeout
  | TResourceNotFound _ => RtNotFound
  | TInternal msg => RtInternal msg
  end.

Section core.
  Context {num : Type} `{!SerdeNumber num} {A : Type} `{!Actor num A} `{!Mpsc (Command num)}.
  Context {S : Type} `{!ResourceSnapshotRepository num S}.

(** [Core]: the node and, when persistence is on, the repositories. *)
Record Core := mk_core {
  c_name : string;
  c_node : Node num A;
  c_repositories : option S
}.
Implicit Types (c : Core) (snap : ResourceSnapshot num) (repos : option S).
Implicit Types answers : string → snapshot_answer num.

(** [from_node_with_name_and_persistence], [from_node_with_name], [from_node] *)
Definition core_from (name : string) (n : Node num A) repos : Core := mk_core name n repos.
Definition from_node_with_name (name : string) (n : Node num A) : Core := core_from name n None.
Definition from_node (n : Node num A) : Core := from_node_with_name (n_id n) n.

Definition set_repositories repos c : Core := mk_core (c_name c) (c_node c) repos.

(** [snapshots_match]: equality of the serialized values. *)
Definition snapshots_match (left right : ResourceSnapshot num) : bool :=
  json_eqb (snapshot_to_value left) (snapshot_to_value right).

(** [persist_latest_resource_snapshot]; [now] is the clock. Failures are
    logged. *)
Definition persist_latest_resource_snapshot snap (now : Z) repos : option S :=
  match repos with
  | None => None
  | Some s =>
      let '(r, s1) := sn_latest (rs_id snap) s in
      let skip := match r with
                  | Ok (Some existing) => snapshots_match (sr_snapshot existing) snap
                  | _ => false
                  end in
      if skip then Some s1
      else Some (sn_upsert_latest (latest_record snap now) s1).2
  end.

(** [latest_resource_snapshot] *)
Definition latest_resource_snapshot (id : string) repos
    : result string (option (ResourceSnapshot num)) * option S :=
  match repos with
  | None => (Ok None, None)
  | Some s =>
      let '(r, s1) := sn_latest id s in
      (match r with
       | Ok o => Ok (sr_snapshot <$> o)
       | Err _ => Err "storage unavailable"
       end, Some s1)
  end.

(** [snapshot_from_repository_or_unavailable] *)
Definition snapshot_from_repository_or_unavailable (id message : string) repos
    : result ResourceReadError (option (ResourceSnapshot num)) * option S :=
  let '(r, repos') := latest_resource_snapshot id repos in
  (match r with
   | Ok (Some snapshot) => Ok (Some snapshot)
   | Ok None => Err (ReadUnavailable message)
   | Err err => Err (ReadInternal err)
   end, repos').

(** The closure of [list_resources] on one read. *)
Definition list_one (now : Z) (read : ResourceSnapshotRead num) repos
    : option (ResourceSnapshot num) * option S :=
  match read with
  | Available snapshot => (Some snapshot, persist_latest_resource_snapshot snapshot now repos)
  | UnavailableRead resource_id placeholder =>
      let '(r, repos') := latest_resource_snapshot resource_id repos in
      (match r with Ok (Some snapshot) => Some snapshot | _ => Some placeholder end, repos')
  | FailedRead => (None, repos)
  end.

Fixpoint list_reads (now : Z) (reads : list (ResourceSnapshotRead num)) repos
    : list (ResourceSnapshot num) * option S :=
  match reads with
  | [] => ([], repos)
  | read :: reads' =>
      let '(o, repos1) := list_one now read repos in
      let '(l, repos2) := list_reads now reads' repos1 in
      (match o with Some s => s :: l | None => l end, repos2)
  end.

(** [Core::list_resources] *)
Definition list_resources answers (now : Z) c : list (ResourceSnapshot num) * Core :=
  let '(l, repos) :=
    list_reads now (resource_snapshot_reads (c_node c) answers) (c_repositories c) in
  (l, set_repositories repos c).

(** The loop of [query_resources]; the outer [None] is a panic. *)
Fixpoint query_snapshots (q : Query) (l : list (ResourceSnapshot num))
    : option (result QueryError (list (ResourceSnapshot num))) :=
  match l with
  | [] => Some (Ok [])
  | snapshot :: l' =>
      match matches q (to_query_value snapshot) with
      | Panicked => None
      | Returned (Err e) => Some (Err e)
      | Returned (Ok b) =>
          match query_snapshots q l' with
          | Some (Ok rest) => Some (Ok (if b then snapshot :: rest else rest))
          | r => r
          end
      end
  end.

(** [Core::query_resources] *)
Definition query_resources (ql : string) answers (now : Z) c
    : option (result QueryError (list (ResourceSnapshot num))) * Core :=
  match parse ql with
  | None => (None, c)
  | Some (Err e) => (Some (Err e), c)
  | Some (Ok q) =>
      let '(l, c') := list_resources answers now c in (query_snapshots q l, c')
  end.

(** [Core::get_resource]; the outer [None] is a panic. *)
Definition get_resource (id : string) answers (now : Z) c
    : option (result ResourceReadError (option (ResourceSnapshot num))) * Core :=
  match resource_snapshot (c_node c) answers id with
  | None => (None, c)
  | Some (Ok (Some snapshot)) =>
      (Some (Ok (Some snapshot)),
       set_repositories (persist_latest_resource_snapshot snapshot now (c_repositories c)) c)
  | Some (Ok None) => (Some (Ok None), c)
  | Some (Err (RUnavailable message)) =>
      let '(r, repos) := snapshot_from_repository_or_unavailable id message (c_repositories c) in
      (Some r, set_repositories repos c)
  | Some (Err err) => (Some (Err (resource_read_error err)), c)
  end.

(** [Core::run_resource_transition]: [outcome] is what the actor's executor
    returns for the transition, given the context the call carries, and [after]
    its answer to the snapshot request that follows. *)
Definition run_resource_transition (id name : string) (input : TransitionInput num)
    (request : RequestCtx) (command : CommandId)
    (outcome : TransitionCtx → result TransitionError (TransitionOutcome num))
    (after : snapshot_answer num) (now : Z) c
    : option (result ResourceTransitionError (TransitionOutcome num)) * Core :=
  match get_by_id id (n_directory (c_node c)) with
  | None => (None, c)
  | Some None => (Some (Err RtNotFound), c)
  | Some (Some e) =>
      let ctx := with_node command request (n_id (c_node c)) in
      match outcome ctx with
      | Err err => (Some (Err (resource_transition_error err)), c)
      | Ok (Accepted job output) => (Some (Ok (Accepted job output)), c)
      | Ok (Completed output _) =>
          match entry_snapshot e (n_id (c_node c)) after with
          | Err err => (Some (Err (resource_error_to_transition err)), c)
          | Ok snapshot =>
              (Some (Ok (Completed output snapshot)),
               set_repositories
                 (persist_latest_resource_snapshot snapshot now (c_repositories c)) c)
          end
      end
  end.
End core.
Arguments Core num A {_} S.

(** ** Facts *)

Section facts.
  Context {num : Type} `{!SerdeNumber num} {A : Type} `{!Actor num A} `{!Mpsc (Command num)}.
  Context {S : Type} `{!ResourceSnapshotRepository num S, !ResourceSnapshotLaws num S}.
  Implicit Types (c : Core num A S) (snap : ResourceSnapshot num) (s : S) (e : Entry num).
  Implicit Types answers : string → snapshot_answer num.

(** The repository holds the snapshot: a record that serializes to the same
    value, or one that was read back from its own record. *)
Definition holds s snap : Prop :=
  ∃ rec, sn_stored s (rs_id snap) = Some rec ∧
    (snapshots_match (sr_snapshot rec) snap = true ∨
     ∃ now, sn_reads_back (latest_record snap now) rec).

Lemma persist_spec snap now s :
  ∃ s', persist_latest_resource_snapshot snap now (Some s) = Some s' ∧
    (∀ i, i ≠ rs_id snap → sn_stored s' i = sn_stored s i) ∧
    (holds s' snap ∨ sn_stored s' = sn_stored s).
Proof.
  unfold persist_latest_resource_snapshot.
  pose proof (sn_latest_spec s (rs_id snap)) as H.
  destruct (sn_latest (rs_id snap) s) as [r s1]. destruct H as [Hs1 Hr].
  destruct (match r with Ok (Some existing) => _ | _ => false end) eqn:Eskip.
  - exists s1. rewrite Hs1. split_and!; [done..|]. by right.
  - pose proof (sn_upsert_spec s1 (latest_record snap now)) as H.
    destruct (sn_upsert_latest (latest_record snap now) s1) as [[[]|err] s2]; simpl.
    + destruct H as (rec & Hrb & Hst & Hoth). exists s2. split_and!; [done| |].
      * intros i Hi. by rewrite (Hoth i Hi), Hs1.
      * left. exists rec. eauto.
    + destruct H as [_ Hst]. exists s2. rewrite Hst, Hs1. auto.
Qed.

Lemma persist_holds `{!ResourceSnapshotReliable num S} snap now s :
  sn_healthy s →
  ∃ s', persist_latest_resource_snapshot snap now (Some s) = Some s' ∧ sn_healthy s' ∧ holds s' snap.
Proof.
  intros Hh. unfold persist_latest_resource_snapshot.
  pose proof (sn_latest_spec s (rs_id snap)) as H. destruct (sn_latest_ok s (rs_id snap) Hh) as [Hok Hh1].
  destruct (sn_latest (rs_id snap) s) as [[o|] s1]; [|done]. simpl in *. destruct H as [Hs1 ->].
  destruct (match sn_stored s (rs_id snap) with Some existing => _ | None => false end) eqn:Eskip.
  - exists s1. split_and!; [done..|]. destruct (sn_stored s (rs_id snap)) as [rec|] eqn:Er; [|done].
    exists rec. rewrite Hs1. auto.
  - destruct (sn_upsert_ok s1 (latest_record snap now) Hh1) as [Hok2 Hh2].
    pose proof (sn_upsert_spec s1 (latest_record snap now)) as H.
    destruct (sn_upsert_latest (latest_record snap now) s1) as [[[]|err] s2]; [|done]. simpl in *.
    destruct H as (rec & Hrb & Hst & _). exists s2. split_and!; [done..|]. exists rec. eauto.
Qed.

(** ** Reading one resource *)

(** [get_resource] never panics, and each case answers as it should: an
    unknown id is absent; a live actor's snapshot is returned with the entry's
    identity, and remembered; while the actor is unavailable the last remembered
    snapshot is returned, and with none the caller is told it is unavailable
    (an internal error when the store cannot be read); a failed actor is an
    error even when a snapshot is remembered. *)
Theorem get_resource_spec (id : string) answers (now : Z) c :
  directory_wf (n_directory (c_node c)) →
  let '(r, c') := get_resource id answers now c in
  match get_by_id id (n_directory (c_node c)) with
  | Some (Some e) =>
      match answers id with
      | Ok a => ∃ snap, entry_snapshot e (n_id (c_node c)) (Ok a) = Ok snap ∧ rs_id snap = id ∧
          r = Some (Ok (Some snap)) ∧
          c' = set_repositories (persist_latest_resource_snapshot snap now (c_repositories c)) c
      | Err (RUnavailable msg) =>
          match c_repositories c with
          | None => r = Some (Err (ReadUnavailable msg))
          | Some s =>
              r = Some (Err (ReadInternal "storage unavailable")) ∨
              match sn_stored s id with
              | Some rec => r = Some (Ok (Some (sr_snapshot rec)))
              | None => r = Some (Err (ReadUnavailable msg))
              end
          end
      | Err (RNotFound _) => r = Some (Err ReadNotFound) ∧ c' = c
      | Err (RInternal msg) => r = Some (Err (ReadInternal msg)) ∧ c' = c
      end
  | _ => r = Some (Ok None) ∧ c' = c
  end.
Proof.
  intros Hd. unfold get_resource, resource_snapshot.
  pose proof (get_by_id_spec id _ Hd) as Hg.
  destruct (get_by_id id (n_directory (c_node c))) as [[e|]|]; [|done|done].
  destruct Hg as [_ Hid]. rewrite Hid. destruct (answers id) as [a|[m|m|m]].
  - simpl. eexists. split_and!; [reflexivity|done|done|done].
  - done.
  - simpl. unfold snapshot_from_repository_or_unavailable, latest_resource_snapshot.
    destruct (c_repositories c) as [s|]; [|done].
    pose proof (sn_latest_spec s id) as H. destruct (sn_latest id s) as [[o|err] s1];
      destruct H as [_ H]; [right|by left]. subst o. by destruct (sn_stored s id).
  - done.
Qed.

Lemma get_resource_live id answers now c e a :
  get_by_id id (n_directory (c_node c)) = Some (Some e) → answers (e_id e) = Ok a →
  ∃ snap, entry_snapshot e (n_id (c_node c)) (Ok a) = Ok snap ∧ rs_id snap = e_id e ∧
    get_resource id answers now c = (Some (Ok (Some snap)),
      set_repositories (persist_latest_resource_snapshot snap now (c_repositories c)) c).
Proof.
  intros Hg Ha. unfold get_resource, resource_snapshot. rewrite Hg, Ha. simpl.
  eexists. split_and!; [reflexivity|done|reflexivity].
Qed.

(** What was read stays readable. On a repository that works, once a
    resource has been read from its actor, reading it while the actor is
    unavailable succeeds, and the answer comes from the record of that read: it
    serializes to the same value, or is what the store reads back of it. *)
Theorem read_survives_unavailable `{!ResourceSnapshotReliable num S} (id msg : string)
    answers answers' (now now' : Z) c s e a :
  directory_wf (n_directory (c_node c)) →
  get_by_id id (n_directory (c_node c)) = Some (Some e) →
  c_repositories c = Some s → sn_healthy s →
  answers id = Ok a → answers' id = Err (RUnavailable msg) →
  ∃ snap rec c', get_resource id answers now c = (Some (Ok (Some snap)), c') ∧
    (get_resource id answers' now' c').1 = Some (Ok (Some (sr_snapshot rec))) ∧
    (snapshots_match (sr_snapshot rec) snap = true ∨
     ∃ t, sn_reads_back (latest_record snap t) rec).
Proof.
  intros Hd Hg Hc Hh Ha Ha'.
  assert (e_id e = id) as Hid by (pose proof (get_by_id_spec id _ Hd) as H; rewrite Hg in H; by destruct H).
  destruct (get_resource_live id answers now c e a Hg) as (snap & _ & Hsid & E); [by rewrite Hid|].
  rewrite Hc in E. destruct (persist_holds snap now s Hh) as (s' & Hp & Hh' & rec & Hrec & Hm).
  rewrite Hp in E. exists snap, rec, (set_repositories (Some s') c). split_and!; [done| |done].
  unfold get_resource, resource_snapshot. simpl. rewrite Hg, Hid, Ha'. simpl.
  unfold snapshot_from_repository_or_unavailable, latest_resource_snapshot. simpl.
  pose proof (sn_latest_spec s' id) as H. destruct (sn_latest_ok s' id Hh') as [Hok _].
  destruct (sn_latest id s') as [[o|err] s1]; [|done]. destruct H as [_ ->].
  rewrite Hsid, Hid in Hrec. by rewrite Hrec.
Qed.

(** ** Listing and querying *)

(** What the listing shows for an entry, given what was stored before it. *)
Definition listed (n : Node num A) answers (o : option S) e snap : Prop :=
  match answers (e_id e) with
  | Ok a => entry_snapshot e (n_id n) (Ok a) = Ok snap
  | Err (RUnavailable _) =>
      snap = unavailable_snapshot e (n_id n) ∨
      ∃ s rec, o = Some s ∧ sn_stored s (e_id e) = Some rec ∧ snap = sr_snapshot rec
  | _ => False
  end.

(** Two repository states that agree away from some ids. *)
Definition agree_off (ids : list string) (o o' : option S) : Prop :=
  match o, o' with
  | Some s, Some s' => ∀ i, i ∉ ids → sn_stored s' i = sn_stored s i
  | None, None => True
  | _, _ => False
  end.

Lemma list_one_spec n answers now (repos : option S) e :
  let '(r, repos') := list_one now (read_entry n answers e) repos in
  agree_off [e_id e] repos repos' ∧
  match r with
  | Some snap => answered answers e = true ∧ listed n answers repos e snap
  | None => answered answers e = false
  end.
Proof.
  unfold read_entry, answered, listed. destruct (answers (e_id e)) as [a|[m|m|m]]; simpl.
  - destruct repos as [s|]; [|done].
    match goal with |- context [persist_latest_resource_snapshot ?x _ _] => set (snap := x) end.
    destruct (persist_spec snap now s) as (s' & -> & Hoth & _). split; [|done].
    intros i Hi. apply Hoth. intros ->. apply Hi. by apply list_elem_of_singleton.
  - by destruct repos.
  - destruct repos as [s|]; simpl; [|by split_and!; [..|left]].
    pose proof (sn_latest_spec s (e_id e)) as H.
    destruct (sn_latest (e_id e) s) as [[o|err] s1]; destruct H as [Hs1 Ho]; simpl.
    + subst o. split; [intros i _; by rewrite Hs1|].
      destruct (sn_stored s (e_id e)) as [rec|] eqn:E; simpl; split; eauto 10.
    + split; [intros i _; by rewrite Hs1|]. auto.
  - by destruct repos.
Qed.

Lemma listed_agree n answers ids (o o' : option S) e snap :
  agree_off ids o o' → e_id e ∉ ids → listed n answers o' e snap → listed n answers o e snap.
Proof.
  unfold listed. intros Ha Hid. destruct (answers (e_id e)) as [a|[]]; try done.
  intros [->|(s' & rec & -> & Hrec & ->)]; [by left|right].
  destruct o as [s|]; [|done]. exists s, rec. by rewrite <- (Ha _ Hid).
Qed.

Lemma agree_off_trans ids ids' (o1 o2 o3 : option S) :
  agree_off ids o1 o2 → agree_off ids' o2 o3 → agree_off (ids ++ ids') o1 o3.
Proof.
  destruct o1, o2, o3; simpl; try done. intros H1 H2 i [Hi Hi']%not_elem_of_app.
  by rewrite H2, H1.
Qed.

Lemma list_reads_spec n answers now done_ (repos0 : option S) (es : list (Entry num)) repos :
  NoDup (map e_id es) → agree_off done_ repos0 repos → (∀ e, e ∈ es → e_id e ∉ done_) →
  let '(l, repos') := list_reads now (map (read_entry n answers) es) repos in
  Forall2 (listed n answers repos0) (List.filter (answered answers) es) l ∧
  agree_off (done_ ++ map e_id es) repos0 repos'.
Proof.
  revert done_ repos. induction es as [|e es IH]; intros done_ repos Hnd Hag Hnew; simpl.
  { rewrite app_nil_r. by split. }
  simpl in Hnd. apply NoDup_cons in Hnd as [Hni Hnd].
  pose proof (list_one_spec n answers now repos e) as H1.
  destruct (list_one now (read_entry n answers e) repos) as [r repos1]. destruct H1 as [Ha1 Hr].
  specialize (IH (done_ ++ [e_id e]) repos1 Hnd (agree_off_trans _ _ _ _ _ Hag Ha1)).
  destruct (list_reads now _ repos1) as [l repos2].
  destruct IH as [Hl Ha2].
  { intros e' He' [Hin|Hin]%elem_of_app.
    - apply (Hnew e'); [by apply elem_of_cons; right|done].
    - apply list_elem_of_singleton in Hin. apply Hni. rewrite <- Hin. by apply list_elem_of_fmap_2. }
  rewrite <- app_assoc in Ha2. split; [|done]. destruct r as [snap|].
  - destruct Hr as [-> Hr]. constructor; [|done].
    apply (listed_agree n answers done_ repos0 repos); [done| |done].
    apply Hnew. by apply elem_of_cons; left.
  - by rewrite Hr.
Qed.

(** The listing has one snapshot per actor that answered or is unavailable,
    in registration order. A live actor shows its own snapshot under the entry's
    identity, an unavailable one the snapshot remembered before the listing or
    a placeholder, and a failed one is left out; without persistence the listing
    is the node's own. *)
Theorem list_resources_spec answers (now : Z) c :
  NoDup (map e_id (d_entries (n_directory (c_node c)))) →
  let '(l, c') := list_resources answers now c in
  c_node c' = c_node c ∧
  Forall2 (listed (c_node c) answers (c_repositories c))
    (List.filter (answered answers) (d_entries (n_directory (c_node c)))) l ∧
  (c_repositories c = None → l = resources (c_node c) answers).
Proof.
  intros Hnd. unfold list_resources, resource_snapshot_reads.
  assert (Hag : agree_off [] (c_repositories c) (c_repositories c)) by (by destruct (c_repositories c)).
  pose proof (list_reads_spec (c_node c) answers now [] (c_repositories c)
    (d_entries (n_directory (c_node c))) (c_repositories c) Hnd Hag) as H.
  destruct (list_reads now _ (c_repositories c)) as [l repos] eqn:E.
  split; [done|]. split; [apply H; set_solver|]. intros Hr. rewrite Hr in E. clear -E.
  unfold resources, resource_snapshot_reads. revert l repos E.
  induction (d_entries (n_directory (c_node c))) as [|e es IH]; intros l repos E; simpl in E;
    [by simplify_eq|].
  destruct (list_reads now (map (read_entry (c_node c) answers) es) None) as [l' r'] eqn:E'.
  assert (list_one now (read_entry (c_node c) answers e) (None : option S)
          = (shown (read_entry (c_node c) answers e), None)) as H1.
  { unfold read_entry. by destruct (entry_snapshot e _ _) as [|[]]. }
  rewrite H1, E' in E. simplify_eq. rewrite (IH l' repos eq_refl). simpl.
  by destruct (shown _).
Qed.

Lemma query_snapshots_spec q (l : list (ResourceSnapshot num)) :
  ∃ l', query_snapshots q l = Some (Ok l') ∧ l' `sublist_of` l ∧
    ∀ snap, snap ∈ l' ↔ snap ∈ l ∧ sat (predicate q) (to_query_value snap).
Proof.
  induction l as [|snap l (l' & Hl & Hsub & Hin)]; simpl.
  { exists []. split_and!; [done|constructor|set_solver]. }
  destruct (eval_pred_spec (predicate q) (to_query_value snap)) as (b & Hb & Hsat).
  unfold matches. rewrite Hb, Hl. destruct b; eexists; (split; [reflexivity|]).
  - split; [by apply sublist_skip|]. set_solver.
  - split; [by apply sublist_cons|]. set_solver.
Qed.

(** A query over the resources returns exactly the snapshots of the listing
    that satisfy its predicate, in listing order; it fails only on a text that
    does not parse, and then reads no actor and stores nothing. *)
Theorem query_resources_exact (ql : string) answers (now : Z) c :
  match parse ql with
  | Some (Ok q) =>
      ∃ l, (query_resources ql answers now c).1 = Some (Ok l) ∧
        (query_resources ql answers now c).2 = (list_resources answers now c).2 ∧
        l `sublist_of` (list_resources answers now c).1 ∧
        ∀ snap, snap ∈ l ↔
          snap ∈ (list_resources answers now c).1 ∧ sat (predicate q) (to_query_value snap)
  | Some (Err e) => query_resources ql answers now c = (Some (Err e), c)
  | None => False
  end.
Proof.
  unfold query_resources. destruct (parse_total ql) as [r ->]. destruct r as [q|e]; [|done].
  destruct (list_resources answers now c) as [l c']. simpl.
  destruct (query_snapshots_spec q l) as (l' & Hl' & Hsub & Hin). exists l'. by rewrite Hl'.
Qed.

(** ** Transitions *)

(** The parts of an outcome that reach the caller. *)
Definition same_result (o o' : result TransitionError (TransitionOutcome num)) : Prop :=
  match o, o' with
  | Ok (Completed out _), Ok (Completed out' _) => out = out'
  | _, _ => o = o'
  end.

(** A transition's response. An unknown id is not found without asking any
    actor; the handler is given a context with the node attached and the
    request's correlation; what a handler claims to be its snapshot never
    reaches the caller: a completed transition answers with the snapshot the
    actor gives afterwards, under the identity of its directory entry. *)
Theorem run_transition_response (id name : string) (input : TransitionInput num)
    (request : RequestCtx) (command : CommandId)
    (outcome outcome' : TransitionCtx → result TransitionError (TransitionOutcome num))
    (after : snapshot_answer num) (now : Z) c :
  directory_wf (n_directory (c_node c)) →
  let run o := run_resource_transition id name input request command o after now c in
  let ctx := with_node command request (n_id (c_node c)) in
  (get_by_id id (n_directory (c_node c)) = Some None → run outcome = (Some (Err RtNotFound), c)) ∧
  (same_result (outcome ctx) (outcome' ctx) → run outcome = run outcome') ∧
  (∀ out snap, (run outcome).1 = Some (Ok (Completed out snap)) →
    rs_id snap = id ∧ rs_node snap = n_id (c_node c) ∧
    ∃ e a, get_by_id id (n_directory (c_node c)) = Some (Some e) ∧ after = Ok a ∧
      entry_snapshot e (n_id (c_node c)) (Ok a) = Ok snap).
Proof.
  intros Hd run ctx. unfold run, run_resource_transition.
  pose proof (get_by_id_spec id _ Hd) as Hg.
  destruct (get_by_id id (n_directory (c_node c))) as [[e|]|]; [|done|done].
  destruct Hg as [_ Hid]. split_and!; [done| |].
  - fold ctx. intros Hs. destruct (outcome ctx) as [[out sn|j out]|err],
      (outcome' ctx) as [[out' sn'|j' out']|err']; simpl in Hs; simplify_eq; done.
  - intros out snap. fold ctx.
    destruct (outcome ctx) as [[out0 sn|j out0]|err]; [|done|done].
    destruct after as [a|err]; [|done]. simpl. intros [= <- <-]. simpl.
    split_and!; [done..|]. by exists e, a.
Qed.
End facts.

(** ** The theorems at a concrete node *)

Module CoreExamples.
#[local] Existing Instance ExecutorExamples.counter.
#[local] Existing Instance ListChannel.mpsc.
#[local] Existing Instance ListChannel.mpsc_laws.
#[local] Instance n_number : SerdeNumber N := {|
  num_as_f64 := λ _, None;
  num_as_u64 := Some;
  num_of_u64 := λ n, n;
  num_eqb := N.eqb
|}.

(** A node with one counter, and an in-memory repository. *)
Definition node1 : Node N nat := (register_with_id "c-1" 0 (node_new "hub" 4)).2.
Definition core1 : Core N nat (Mutex N) := core_from "hub" node1 (Some memory_default).

Definition live (count : string) : string → snapshot_answer N :=
  λ _, Ok (build_state count (builder "whatever")).
Definition gone : string → snapshot_answer N := λ _, Err (RUnavailable "actor task terminated").

Lemma node1_reachable : rtc node_step (node_new "hub" 4) node1.
Proof. apply rtc_once. constructor. Qed.

Lemma node1_wf : directory_wf (n_directory node1).
Proof. apply nw_directory. eapply node_step_wf; [constructor|apply node_new_wf]. Qed.

Definition entry1 : Entry N := mk_entry "c-1" "counter" (mk_resource_spec "counter" None [] None []) 0.

Lemma node_directory_sound_witness :
  register_with_id "c-1" 7 node1 = (Err (duplicate_id "c-1"), node1).
Proof.
  apply (node_directory_sound "hub" 4 node1 node1_reachable).
  exists entry1. split; [by apply list_elem_of_singleton|done].
Defined.

Lemma try_build_total_witness :
  ∃ n, try_build (num:=N) (mk_node_builder "hub" 32 [("a", 1); ("b", 2)]) = Ok n ∧
    map e_id (d_entries (n_directory n)) = ["a"; "b"].
Proof.
  destruct (try_build_total (num:=N) "hub" (mk_node_builder "hub" 32 [("a", 1); ("b", 2)]))
    as (n & Hn & _ & _ & Hids).
  - eapply rtc_l; [by apply (bs_register "a" 1)|]. eapply rtc_l; [by apply (bs_register "b" 2)|].
    apply rtc_refl.
  - by exists n.
Defined.

Lemma get_resource_spec_witness :
  (get_resource "c-2" gone 0 core1).1 = Some (Ok None).
Proof.
  pose proof (get_resource_spec "c-2" gone 0 core1 node1_wf) as H.
  destruct (get_resource "c-2" gone 0 core1). simpl in *. by destruct H.
Defined.

Lemma read_survives_unavailable_witness :
  ∃ snap rec c', get_resource "c-1" (live "3") 5 core1 = (Some (Ok (Some snap)), c') ∧
    (get_resource "c-1" gone 9 c').1 = Some (Ok (Some (sr_snapshot rec))) ∧
    rs_state (sr_snapshot rec) = Some "3".
Proof.
  destruct (read_survives_unavailable "c-1" "actor task terminated" (live "3") gone 5 9 core1
    memory_default entry1 (build_state "3" (builder "whatever")))
    as (snap & rec & c' & H1 & H2 & H3); [apply node1_wf|reflexivity..|].
  exists snap, rec, c'. split_and!; [done..|].
  vm_compute in H1. injection H1 as <- <-.
  apply (f_equal (λ r, match r with Some (Ok (Some s)) => rs_state s | _ => None end)) in H2.
  symmetry. exact H2.
Defined.

Lemma list_resources_spec_witness :
  Forall2 (listed node1 gone (Some memory_default)) [entry1] (list_resources gone 0 core1).1.
Proof.
  pose proof (list_resources_spec gone 0 core1 (NoDup_singleton "c-1")) as H.
  destruct (list_resources gone 0 core1). by destruct H as (_ & H & _).
Defined.

Lemma run_transition_response_witness :
  (run_resource_transition "c-2" "bump" [] request_ctx_default "cmd"
     (λ _, Err TBusy) (Err (RInternal "x")) 0 core1).1 = Some (Err RtNotFound).
Proof.
  pose proof (run_transition_response "c-2" "bump" [] request_ctx_default "cmd"
    (λ _, Err TBusy) (λ _, Err TBusy) (Err (RInternal "x")) 0 core1 node1_wf) as (H & _ & _).
  by rewrite H.
Defined.
End CoreExamples.
