(* ===== verification/Server.v ===== *)
(** Assembling a server ([server.rs]): stable resource identities over an
    identity repository, the node id, and the part of [Boardwalk::build] that
    resolves and registers the actors. Minted UUIDs and clock readings are
    arguments. *)

From S2P Require Import Prelude F64 Json Http Mpsc Resource Persistence Redb Runtime Executor Node.

(** ** Errors *)

Inductive ResourceIdentityError := IdentityStorage | IdentityConflict (msg : string).

Inductive ResourceRegistrationError :=
| RegInvalid (msg : string)
| RegConflict (msg : string)
| RegInternal (msg : string).

Definition resource_identity_storage_error (e : StorageError) : ResourceIdentityError :=
  match e with
  | SConflict msg => IdentityConflict msg
  | SUnavailable _ | SCorrupt _ | SInternal _ => IdentityStorage
  end.

Definition registration_identity_error (e : ResourceIdentityError) : ResourceRegistrationError :=
  match e with
  | IdentityStorage => RegInternal "storage unavailable"
  | IdentityConflict msg => RegConflict msg
  end.

(** The text of the [anyhow] error. *)
Definition resource_identity_anyhow (e : ResourceIdentityError) : string :=
  match e with
  | IdentityStorage => "storage unavailable"
  | IdentityConflict msg => msg
  end.

Definition registration_resource_error (e : ResourceError) : ResourceRegistrationError :=
  match e with
  | RNotFound id => RegInvalid ("unknown resource `" +:+ id +:+ "`")
  | RUnavailable msg => RegInternal msg
  | RInternal msg =>
      if starts_with "duplicate resource id: " msg then RegConflict msg else RegInternal msg
  end.

(** ** Resource identities *)

Section identity.
  Context {num : Type}.
  Implicit Types spec : ResourceSpec num.

Definition resource_identity_keys spec : list IdentityKey :=
  match sp_name spec with
  | Some name => [static_name (sp_kind spec) name]
  | None => [static_unnamed (sp_kind spec)]
  end.

Definition resource_identity_label spec : string :=
  match sp_name spec with
  | Some name => sp_kind spec +:+ ":" +:+ name
  | None => sp_kind spec
  end.

Definition resource_identity_record_matches (record : ResourceIdentityRecord) spec : bool :=
  String.eqb (ri_kind record) (sp_kind spec) && bool_decide (ri_name record = sp_name spec).

Context {S : Type} `{!ResourceIdentityRepository S}.

Definition identity_record spec (keys : list IdentityKey) (id : string) (now : Z)
    : ResourceIdentityRecord :=
  mk_identity_record id (sp_kind spec) (sp_name spec) keys [] now now.

Definition put_resource_identity spec (keys : list IdentityKey) (id : string) (now : Z)
    : fallible ResourceIdentityError S unit :=
  smap_err resource_identity_storage_error (ri_put (identity_record spec keys id now)).

Fixpoint find_resource_identity (keys : list IdentityKey)
    : fallible ResourceIdentityError S (option ResourceIdentityRecord) :=
  match keys with
  | [] => sret None
  | key :: keys' =>
      let! o := smap_err resource_identity_storage_error (ri_find_by_identity_key key) in
      match o with
      | Some record => sret (Some record)
      | None => find_resource_identity keys'
      end
  end.

(** [resolve_or_create_resource_identity] with repositories; [uuid] is the id
    it may mint. *)
Definition resolve_stored spec (explicit : option string) (uuid : string) (now : Z)
    : fallible ResourceIdentityError S string :=
  let identity_keys := resource_identity_keys spec in
  match explicit with
  | Some id =>
      let! o := smap_err resource_identity_storage_error (ri_get id) in
      match o with
      | Some existing =>
          if resource_identity_record_matches existing spec then sret id
          else sfail (IdentityConflict ("resource id `" +:+ id +:+ "` is already registered"))
      | None =>
          let! o := find_resource_identity identity_keys in
          let taken := match o with
                       | Some existing => negb (String.eqb (ri_id existing) id)
                       | None => false
                       end in
          if taken
          then sfail (IdentityConflict ("resource identity `" +:+ resource_identity_label spec
                        +:+ "` is already registered"))
          else
            let! _ := put_resource_identity spec identity_keys id now in
            sret id
      end
  | None =>
      let! o := find_resource_identity identity_keys in
      match o with
      | Some existing => sret (ri_id existing)
      | None =>
          let! _ := put_resource_identity spec identity_keys uuid now in
          sret uuid
      end
  end.

(** [resolve_or_create_resource_identity] *)
Definition resolve_or_create_resource_identity spec (explicit : option string) (uuid : string)
    (now : Z) : fallible ResourceIdentityError (option S) string := λ repositories,
  match repositories with
  | None => (Ok (default uuid explicit), None)
  | Some s => let '(r, s') := resolve_stored spec explicit uuid now s in (r, Some s')
  end.

(** [resolve_or_create_resource_identity_uuid] *)
Definition resolve_or_create_resource_identity_uuid {hl : HttpLib} spec (explicit : option Uuid)
    (uuid : Uuid) (now : Z) : fallible ResourceIdentityError (option S) Uuid :=
  let! id := resolve_or_create_resource_identity spec (uuid_to_string <$> explicit)
               (uuid_to_string uuid) now in
  slift (ok_or (uuid_parse_str id)
    (IdentityConflict ("resource identity `" +:+ resource_identity_label spec
       +:+ "` is already registered"))).

(** [resolve_resource_id] *)
Definition resolve_resource_id spec (explicit : option string) (uuid : string) (now : Z)
    : fallible string (option S) string :=
  smap_err resource_identity_anyhow (resolve_or_create_resource_identity spec explicit uuid now).
End identity.

(** ** The node id *)

Definition resolve_node_id (explicit persisted : option string) (persistence_enabled : bool)
    (name uuid : string) : string :=
  match explicit with
  | Some id => id
  | None =>
      match persisted with
      | Some id => id
      | None => if persistence_enabled then uuid else name
      end
  end.

(** ** Building the node *)

(** The trait [NodeConfigRepository], as [build] uses it. *)
Class NodeConfigRepository (S : Type) := {
  nc_put : NodeConfigRecord → storage S unit;
  nc_get_local : storage S (option NodeConfigRecord)
}.

(** The errors of [build]; the source renders them as text. *)
Inductive BuildError :=
| StorageUnavailable
| IdentityError (msg : string)
| RegisterActor (e : ResourceError)
| BuildNode (e : ResourceError).

(** [PendingActor]: its spec was taken when it was added. *)
Record PendingActor {A : Type} := mk_pending { pa_id : option string; pa_actor : A }.
Arguments PendingActor A : clear implicits.
Arguments mk_pending {A}.
Arguments pa_id {A}.
Arguments pa_actor {A}.

Section build.
  Context {num A : Type} `{!Actor num A} `{!Mpsc (Command num)}.
  Context {S : Type} `{!ResourceIdentityRepository S} `{!NodeConfigRepository S}.

(** The builder's fields that decide the node. *)
Record Boardwalk := mk_boardwalk {
  bw_name : string;
  bw_node_id : option string;
  bw_actors : list (PendingActor A)
}.

Definition boardwalk_new : Boardwalk := mk_boardwalk "boardwalk" None [].
Definition set_name (n : string) (b : Boardwalk) : Boardwalk :=
  mk_boardwalk n (bw_node_id b) (bw_actors b).
Definition set_node_id (id : string) (b : Boardwalk) : Boardwalk :=
  mk_boardwalk (bw_name b) (Some id) (bw_actors b).
Definition use_actor (a : A) (b : Boardwalk) : Boardwalk :=
  mk_boardwalk (bw_name b) (bw_node_id b) (bw_actors b ++ [mk_pending None a]).
Definition use_actor_with_id (id : string) (a : A) (b : Boardwalk) : Boardwalk :=
  mk_boardwalk (bw_name b) (bw_node_id b) (bw_actors b ++ [mk_pending (Some id) a]).

(** What a start draws from outside: the UUIDs it may mint and the clock. *)
Record Fresh := mk_fresh {
  fr_node : string;
  fr_actor : nat → string;
  fr_now : Z
}.

(** The loop over the actors; [i] counts them. *)
Fixpoint resolve_actors (f : Fresh) (i : nat) (actors : list (PendingActor A)) (nb : NodeBuilder A)
    : fallible BuildError (option S) (NodeBuilder A) :=
  match actors with
  | [] => sret nb
  | p :: actors' =>
      let! id := smap_err IdentityError
                   (resolve_resource_id (actor_spec (pa_actor p)) (pa_id p) (fr_actor f i)
                      (fr_now f)) in
      let! nb' := slift (map_err RegisterActor (builder_register_with_id id (pa_actor p) nb)) in
      resolve_actors f (i + 1) actors' nb'
  end.

(** [repositories.node_config().get_local()] when persistence is on. *)
Definition persisted_node_config : fallible BuildError (option S) (option NodeConfigRecord) :=
  λ repositories,
    match repositories with
    | None => (Ok None, None)
    | Some s => let '(r, s') := nc_get_local s in (map_err (λ _, StorageUnavailable) r, Some s')
    end.

(** [persist_local_node_config] *)
Definition persist_local_node_config (node_id display_name route_name : string) (now : Z)
    : fallible BuildError (option S) unit :=
  λ repositories,
    match repositories with
    | None => (Ok tt, None)
    | Some s =>
        let '(r, s') := nc_put (mk_node_config node_id display_name route_name now) s in
        (map_err (λ _, StorageUnavailable) r, Some s')
    end.

(** [Boardwalk::build] up to the running node, on the opened repositories. *)
Definition build (b : Boardwalk) (f : Fresh) : fallible BuildError (option S) (Node num A) :=
  λ repositories,
    (let! config := persisted_node_config in
     let node_id := resolve_node_id (bw_node_id b) (nc_node_id <$> config)
                      (bool_decide (is_Some repositories)) (bw_name b) (fr_node f) in
     let! nb := resolve_actors f 0 (bw_actors b) (node_builder_new node_id) in
     let! node := slift (map_err BuildNode (try_build nb)) in
     let! _ := persist_local_node_config node_id (bw_name b) (bw_name b) (fr_now f) in
     sret node) repositories.
End build.
Arguments Boardwalk A : clear implicits.

(** ** Identities are stable *)

Section identity_facts.
  Context {num S : Type} `{!ResourceIdentityRepository S, !ResourceIdentityLaws S}.
  Context `{!ResourceIdentityReliable S}.
  Implicit Types (spec : ResourceSpec num) (s : S) (m : identities).

(** The one key of a spec. *)
Definition identity_key spec : IdentityKey := static_name (sp_kind spec) (default "" (sp_name spec)).

Lemma resource_identity_keys_eq spec : resource_identity_keys spec = [identity_key spec].
Proof. unfold resource_identity_keys, identity_key. by destruct (sp_name spec). Qed.

(** The records [put_resource_identity] writes. *)
Definition canonical m : Prop := ∀ id r, m !! id = Some r →
  ri_identity_keys r = [static_name (ri_kind r) (default "" (ri_name r))].

Lemma canonical_matches m id r spec :
  canonical m → m !! id = Some r → resource_identity_record_matches r spec = true →
  identity_key spec ∈ ri_identity_keys r.
Proof.
  intros Hc Hr [Hk Hn]%andb_true_iff. apply String.eqb_eq in Hk. apply bool_decide_eq_true in Hn.
  rewrite (Hc id r Hr), Hk, Hn. by apply list_elem_of_singleton.
Qed.

Lemma identity_record_matches spec keys id now :
  resource_identity_record_matches (identity_record spec keys id now) spec = true.
Proof.
  unfold resource_identity_record_matches. simpl. rewrite String.eqb_refl. by apply bool_decide_eq_true.
Qed.

(** The outcome of [resolve] on a store that holds [m]. *)
Definition resolved spec (explicit : option string) (uuid : string) (now : Z) m
    (r : result ResourceIdentityError string) m' : Prop :=
  match r with
  | Ok id =>
      (∀ e, explicit = Some e → id = e) ∧
      (∃ rec, m' !! id = Some rec ∧ identity_key spec ∈ ri_identity_keys rec ∧
         (is_Some explicit → resource_identity_record_matches rec spec = true)) ∧
      (m' = m ∨
       (∀ i r, m !! i = Some r → identity_key spec ∉ ri_identity_keys r) ∧
       id = default uuid explicit ∧ (is_Some explicit → m !! id = None) ∧
       m' = <[id := identity_record spec [identity_key spec] id now]> m)
  | Err e => m' = m ∧ is_Some explicit ∧ e ≠ IdentityStorage
  end.

Lemma find_identity_spec spec s m :
  id_healthy s → id_state s m →
  ∃ o s', find_resource_identity (resource_identity_keys spec) s = (Ok o, s') ∧
    id_healthy s' ∧ id_state s' m ∧ holder (identity_key spec) m o.
Proof.
  intros Hh Hs. rewrite resource_identity_keys_eq. simpl.
  unfold sbind, smap_err.
  destruct (ri_find_ok s m (identity_key spec) Hh Hs) as [Hok Hh'].
  pose proof (ri_find_spec s m (identity_key spec) Hs) as H.
  destruct (ri_find_by_identity_key (identity_key spec) s) as [[o|e] s']; simpl in *;
    destruct H as [Hs' H]; [|congruence].
  exists o, s'. by destruct o.
Qed.

Lemma put_identity_spec spec id now s m :
  id_healthy s → id_state s m → (∀ i r, m !! i = Some r → identity_key spec ∉ ri_identity_keys r) →
  ∃ s', put_resource_identity spec (resource_identity_keys spec) id now s = (Ok tt, s') ∧
    id_healthy s' ∧
    id_state s' (<[id := identity_record spec [identity_key spec] id now]> m).
Proof.
  intros Hh Hs Hfree. unfold put_resource_identity, smap_err. rewrite resource_identity_keys_eq.
  set (rec := identity_record _ _ _ _).
  destruct (ri_put_ok s m rec Hh Hs) as [Hok Hh']. pose proof (ri_put_spec s m rec Hs) as H.
  destruct (ri_put rec s) as [[[]|e] s']; simpl in *; destruct H as [H1 H2].
  - by exists s'.
  - destruct (H2 Hok) as (i & r & k & Hr & _ & Hk & Hk'). simpl in Hk'.
    apply list_elem_of_singleton in Hk' as ->. by destruct (Hfree i r Hr).
Qed.

Lemma resolve_stored_spec spec explicit uuid now s m :
  id_healthy s → id_state s m → canonical m →
  ∃ r s' m', resolve_stored spec explicit uuid now s = (r, s') ∧ id_healthy s' ∧ id_state s' m' ∧
    canonical m' ∧ resolved spec explicit uuid now m r m'.
Proof.
  intros Hh Hs Hc. unfold resolve_stored, sbind.
  assert (Hcan : ∀ id, canonical (<[id := identity_record spec [identity_key spec] id now]> m)).
  { intros id i r [[<- <-]|[_ Hr]]%lookup_insert_Some; [done|by apply (Hc i)]. }
  destruct explicit as [id|].
  - unfold smap_err. destruct (ri_get_ok s m id Hh Hs) as [Hok Hh1].
    pose proof (ri_get_spec s m id Hs) as H.
    destruct (ri_get id s) as [[o|e] s1]; simpl in *; destruct H as [Hs1 H]; [|congruence]. subst o.
    destruct (m !! id) as [r|] eqn:Er.
    + destruct (resource_identity_record_matches r spec) eqn:Em.
      * exists (Ok id), s1, m. do 4 (split; [done|]). split; [by intros e [= <-]|].
        split; [|by left]. exists r. split_and!; [done| |done]. by eapply canonical_matches.
      * eexists _, s1, m. by split_and!.
    + destruct (find_identity_spec spec s1 m Hh1 Hs1) as (o & s2 & -> & Hh2 & Hs2 & Ho).
      destruct o as [r|]; simpl in Ho.
      * destruct (String.eqb_spec (ri_id r) id) as [E|E]; simpl.
        { destruct Ho as [Ho _]. congruence. }
        eexists _, s2, m. by split_and!.
      * destruct (put_identity_spec spec id now s2 m Hh2 Hs2 Ho) as (s3 & -> & Hh3 & Hs3).
        eexists (Ok id), s3, _. do 3 (split; [done|]). split; [apply Hcan|].
        split; [by intros e [= <-]|]. split; [|by right].
        eexists. rewrite lookup_insert_eq. split_and!; [done|by apply list_elem_of_singleton|].
        intros _. apply identity_record_matches.
  - destruct (find_identity_spec spec s m Hh Hs) as (o & s2 & -> & Hh2 & Hs2 & Ho).
    destruct o as [r|]; simpl in Ho.
    + exists (Ok (ri_id r)), s2, m. do 5 (split; [done|]). split; [|by left].
      exists r. destruct Ho as [? ?]. split_and!; [done..|]. by intros [? ?].
    + destruct (put_identity_spec spec uuid now s2 m Hh2 Hs2 Ho) as (s3 & -> & Hh3 & Hs3).
      eexists (Ok uuid), s3, _. do 3 (split; [done|]). split; [apply Hcan|].
      split; [done|]. split; [|right; split_and!; [done..|by intros [? ?]|done]].
      eexists. rewrite lookup_insert_eq. split_and!; [done|by apply list_elem_of_singleton|].
      by intros [? ?].
Qed.

(** An id under which a spec is found again. *)
Definition assigned m spec (explicit : option string) (id : string) : Prop :=
  (∀ e, explicit = Some e → id = e) ∧
  ∃ rec, m !! id = Some rec ∧ identity_key spec ∈ ri_identity_keys rec ∧
    (is_Some explicit → resource_identity_record_matches rec spec = true).

Lemma resolve_again spec explicit id uuid now s m :
  id_healthy s → id_state s m → assigned m spec explicit id →
  ∃ s', resolve_stored spec explicit uuid now s = (Ok id, s') ∧ id_healthy s' ∧ id_state s' m.
Proof.
  intros Hh Hs (He & rec & Hrec & Hk & Hm). unfold resolve_stored, sbind. destruct explicit as [e|].
  - rewrite <- (He e eq_refl). unfold smap_err. destruct (ri_get_ok s m id Hh Hs) as [Hok Hh1].
    pose proof (ri_get_spec s m id Hs) as H.
    destruct (ri_get id s) as [[o|err] s1]; simpl in *; destruct H as [Hs1 H]; [|congruence].
    subst o. rewrite Hrec, Hm by eauto. by exists s1.
  - destruct (find_identity_spec spec s m Hh Hs) as (o & s1 & -> & Hh1 & Hs1 & Ho).
    assert (Hwf : identities_wf m) by (by eapply id_state_wf).
    assert (holder (identity_key spec) m (Some rec)) as Hrec'.
    { simpl. by rewrite (wf_id _ Hwf _ _ Hrec). }
    rewrite (holder_unique _ _ _ _ Hwf Ho Hrec'). exists s1.
    by rewrite (wf_id _ Hwf _ _ Hrec).
Qed.

(** A resource's id is stable. Once an id was resolved for a spec, chosen
    by the caller, found or minted, every later resolution of that spec without
    an explicit id gives the same id and stores nothing new; and the first one
    without an explicit id cannot fail on a working store. *)
Theorem identity_stable spec (explicit : option string) (uuid : string) (now : Z) s m :
  id_healthy s → id_state s m → canonical m →
  let '(r, s1) := resolve_stored spec explicit uuid now s in
  (explicit = None → is_ok r = true) ∧
  ∀ id, r = Ok id → ∃ m1, id_state s1 m1 ∧ ∀ uuid' now',
    let '(r', s2) := resolve_stored spec None uuid' now' s1 in r' = Ok id ∧ id_state s2 m1.
Proof.
  intros Hh Hs Hc.
  destruct (resolve_stored_spec spec explicit uuid now s m Hh Hs Hc)
    as (r & s1 & m1 & -> & Hh1 & Hs1 & Hc1 & Hr).
  split.
  - intros ->. destruct r as [|e]; [done|]. destruct Hr as (_ & [? ?] & _). done.
  - intros id ->. exists m1. split; [done|]. intros uuid' now'.
    destruct Hr as (_ & (rec & Hrec & Hk & _) & _).
    destruct (resolve_again spec None id uuid' now' s1 m1 Hh1 Hs1) as (s2 & -> & _ & Hs2); [|done].
    split; [done|]. exists rec. split_and!; [done..|]. by intros [? ?].
Qed.

Lemma canonical_key m id r k k' :
  canonical m → m !! id = Some r → k ∈ ri_identity_keys r → k' ∈ ri_identity_keys r → k = k'.
Proof.
  intros Hc Hr. rewrite (Hc id r Hr), !list_elem_of_singleton. congruence.
Qed.

(** Identities do not alias. Two specs with different identity keys never
    resolve to the same id, whatever explicit ids are asked for, as long as a
    minted id is not already in the store: asking for the other's id is a
    conflict. *)
Theorem identity_no_alias (spec1 spec2 : ResourceSpec num) (e1 e2 : option string)
    (uuid1 uuid2 : string) (now1 now2 : Z) s m s1 s2 id1 id2 :
  id_healthy s → id_state s m → canonical m →
  identity_key spec1 ≠ identity_key spec2 →
  resolve_stored spec1 e1 uuid1 now1 s = (Ok id1, s1) →
  (∀ m1, id_state s1 m1 → m1 !! uuid2 = None) →
  resolve_stored spec2 e2 uuid2 now2 s1 = (Ok id2, s2) →
  id1 ≠ id2.
Proof.
  intros Hh Hs Hc Hne E1 Hfresh E2 ->.
  destruct (resolve_stored_spec spec1 e1 uuid1 now1 s m Hh Hs Hc)
    as (r & s1' & m1 & E & Hh1 & Hs1 & Hc1 & Hr). rewrite E1 in E. simplify_eq.
  specialize (Hfresh m1 Hs1). destruct Hr as (_ & (rec & Hrec & Hk & _) & _).
  destruct (resolve_stored_spec spec2 e2 uuid2 now2 s1' m1 Hh1 Hs1 Hc1)
    as (r & s2' & m2 & E & Hh2 & Hs2 & Hc2 & Hr). rewrite E2 in E. simplify_eq.
  destruct Hr as (He & (rec' & Hrec' & Hk' & _) & [->|(Hno & Hid & Hnew & _)]).
  - apply Hne. simplify_eq. by eapply canonical_key.
  - destruct e2 as [e|]; simpl in Hid; subst id2; [|congruence].
    rewrite Hnew in Hrec by eauto. done.
Qed.
End identity_facts.

(** ** Restarts *)

(** The node-config side of the repositories, next to the identities: the local
    record is readable, survives identity calls, and is what was put last. *)
Class RepositoriesLaws (S : Type) `{!ResourceIdentityRepository S, !ResourceIdentityLaws S}
    `{!ResourceIdentityReliable S, !NodeConfigRepository S} := {
  rp_local : S → option NodeConfigRecord → Prop;
  rp_local_call s c o : rp_local s o → rp_local (run_call c s).2 o;
  nc_get_local_spec s o m : rp_local s o → id_healthy s → id_state s m →
    ∃ s', nc_get_local s = (Ok o, s') ∧ rp_local s' o ∧ id_healthy s' ∧ id_state s' m;
  nc_put_spec s o m rec : rp_local s o → id_healthy s → id_state s m →
    ∃ s', nc_put rec s = (Ok tt, s') ∧ rp_local s' (Some rec) ∧ id_healthy s' ∧ id_state s' m
}.

Section restart_facts.
  Context {num A : Type} `{!Actor num A} `{!Mpsc (Command num)}.
  Context {S : Type} `{!ResourceIdentityRepository S, !ResourceIdentityLaws S}.
  Context `{!ResourceIdentityReliable S, !NodeConfigRepository S, !RepositoriesLaws S}.
  Implicit Types (s : S) (m : identities) (p : PendingActor A) (nb : NodeBuilder A).

Lemma rp_local_find (keys : list IdentityKey) s o :
  rp_local s o → rp_local (find_resource_identity keys s).2 o.
Proof.
  revert s. induction keys as [|k keys IH]; intros s Hl; simpl; [done|].
  unfold sbind, smap_err. pose proof (rp_local_call s (CallFind k) o Hl) as H. simpl in H.
  destruct (ri_find_by_identity_key k s) as [[[r|]|e] s']; simpl in *; [done|by apply IH|done].
Qed.

Lemma rp_local_put (spec : ResourceSpec num) keys id now s o :
  rp_local s o → rp_local (put_resource_identity spec keys id now s).2 o.
Proof.
  intros Hl. unfold put_resource_identity, smap_err.
  pose proof (rp_local_call s (CallPut (identity_record spec keys id now)) o Hl) as H. simpl in H.
  by destruct (ri_put _ s).
Qed.

Lemma rp_local_resolve (spec : ResourceSpec num) explicit uuid now s o :
  rp_local s o → rp_local (resolve_stored spec explicit uuid now s).2 o.
Proof.
  intros Hl. unfold resolve_stored, sbind. destruct explicit as [id|].
  - unfold smap_err. pose proof (rp_local_call s (CallGet id) o Hl) as H. simpl in H.
    destruct (ri_get id s) as [[[r|]|e] s1]; simpl in *; [by case_match| |done].
    pose proof (rp_local_find (resource_identity_keys spec) s1 o H) as H1.
    destruct (find_resource_identity _ s1) as [[r|e] s2]; simpl in *; [|done].
    case_match; [done|].
    pose proof (rp_local_put spec (resource_identity_keys spec) id now s2 o H1) as H2.
    by destruct (put_resource_identity _ _ _ _ s2) as [[]].
  - pose proof (rp_local_find (resource_identity_keys spec) s o Hl) as H1.
    destruct (find_resource_identity _ s) as [[[r|]|e] s2]; simpl in *; [done| |done].
    pose proof (rp_local_put spec (resource_identity_keys spec) uuid now s2 o H1) as H2.
    by destruct (put_resource_identity _ _ _ _ s2) as [[]].
Qed.

(** A store in use: working, well formed, with this local record. *)
Record ready s m (o : option NodeConfigRecord) : Prop := {
  rd_healthy : id_healthy s;
  rd_state : id_state s m;
  rd_canonical : canonical m;
  rd_local : rp_local s o
}.

Definition holds_actor m p (id : string) : Prop :=
  assigned m (actor_spec (num:=num) (pa_actor p)) (pa_id p) id.

Lemma register_ok id a nb nb' :
  builder_register_with_id id a nb = Ok nb' →
  (id ∉ map fst (nb_pending_actors nb)) ∧ nb_id nb' = nb_id nb ∧
  nb_pending_actors nb' = nb_pending_actors nb ++ [(id, a)].
Proof.
  unfold builder_register_with_id. destruct (existsb _ _) eqn:E; [done|]. intros [= <-].
  split_and!; [|done..]. intros ([id' a'] & E' & Hin)%list_elem_of_fmap. simpl in E'. subst id'.
  apply not_true_iff_false in E. apply E. apply existsb_exists. exists (id, a').
  split; [by apply list_elem_of_In|apply String.eqb_refl].
Qed.

Lemma register_fresh id a nb :
  id ∉ map fst (nb_pending_actors nb) →
  builder_register_with_id id a nb = Ok (mk_node_builder (nb_id nb) (nb_actor_queue_capacity nb)
    (nb_pending_actors nb ++ [(id, a)])).
Proof.
  intros Hni. unfold builder_register_with_id.
  destruct (existsb _ _) eqn:E; [|done]. apply existsb_exists in E as ([id' a'] & Hin & Heq).
  simpl in Heq. apply String.eqb_eq in Heq as ->. destruct Hni.
  apply list_elem_of_fmap. exists (id, a'). split; [done|]. by apply list_elem_of_In.
Qed.

Lemma assigned_insert m p id id' rec :
  id ≠ id' → holds_actor m p id → holds_actor (<[id' := rec]> m) p id.
Proof.
  intros Hne (He & r & Hr & Hk). split; [done|]. exists r. by rewrite lookup_insert_ne.
Qed.

(** The first start: every actor gets an id of its own, under which it is
    found again. *)
Lemma resolve_actors_spec f i (actors : list (PendingActor A)) nb s m o done_ nb' os :
  ready s m o → Forall2 (holds_actor m) done_ (map fst (nb_pending_actors nb)) →
  resolve_actors (num:=num) f i actors nb (Some s) = (Ok nb', os) →
  ∃ s' m', os = Some s' ∧ ready s' m' o ∧ nb_id nb' = nb_id nb ∧
    map snd (nb_pending_actors nb') = map snd (nb_pending_actors nb) ++ map pa_actor actors ∧
    Forall2 (holds_actor m') (done_ ++ actors) (map fst (nb_pending_actors nb')).
Proof.
  revert i nb s m done_. induction actors as [|p actors IH]; intros i nb s m done_ Hr Hd Hrun; simpl in Hrun.
  { injection Hrun as <- <-. exists s, m. by rewrite !app_nil_r. }
  destruct Hr as [Hh Hs Hc Hl]. unfold sbind, smap_err, resolve_resource_id, smap_err in Hrun.
  unfold resolve_or_create_resource_identity in Hrun.
  destruct (resolve_stored_spec (actor_spec (pa_actor p)) (pa_id p) (fr_actor f i) (fr_now f) s m Hh Hs Hc)
    as (r & s1 & m1 & E & Hh1 & Hs1 & Hc1 & Hres).
  pose proof (rp_local_resolve (actor_spec (pa_actor p)) (pa_id p) (fr_actor f i) (fr_now f) s o Hl) as Hl1.
  rewrite E in Hrun, Hl1. simpl in Hl1. destruct r as [id|e]; simpl in Hrun; [|done].
  unfold slift in Hrun.
  destruct (builder_register_with_id id (pa_actor p) nb) as [nb1|e] eqn:Er; simpl in Hrun; [|done].
  apply register_ok in Er as (Hni & Hid & Hpend).
  destruct Hres as (He & (rec & Hrec & Hk & Hm) & Hm1).
  assert (Hd1 : Forall2 (holds_actor m1) (done_ ++ [p]) (map fst (nb_pending_actors nb1))).
  { rewrite Hpend, map_app. apply Forall2_app; [|repeat constructor; [done|by exists rec]].
    destruct Hm1 as [->|(_ & _ & _ & ->)]; [done|].
    clear -Hd Hni. induction Hd as [|p0 id0 l l' Hp Hl IH]; constructor.
    - apply assigned_insert; [|done]. intros ->. apply Hni. simpl. by apply elem_of_cons; left.
    - apply IH. intros Hin. apply Hni. simpl. by apply elem_of_cons; right. }
  destruct (IH (i + 1) nb1 s1 m1 (done_ ++ [p])) as (s' & m' & -> & Hr' & Hid' & Hact & Hall);
    [by split|done|done|].
  exists s', m'. rewrite <- app_assoc in Hall. split_and!; [done..|congruence| |done].
  rewrite Hact, Hpend, map_app. simpl. by rewrite <- app_assoc.
Qed.

(** A later start: the same ids. *)
Lemma resolve_actors_again f i (actors : list (PendingActor A)) ids nb s m o :
  ready s m o → Forall2 (holds_actor m) actors ids →
  NoDup (map fst (nb_pending_actors nb) ++ ids) →
  ∃ s' nb', resolve_actors (num:=num) f i actors nb (Some s) = (Ok nb', Some s') ∧ ready s' m o ∧
    nb_id nb' = nb_id nb ∧
    map fst (nb_pending_actors nb') = map fst (nb_pending_actors nb) ++ ids.
Proof.
  intros Hr Hall. revert i nb s Hr. induction Hall as [|p id actors ids Hp Hall IH];
    intros i nb s Hr Hnd; simpl.
  { exists s, nb. by rewrite app_nil_r. }
  destruct Hr as [Hh Hs Hc Hl]. unfold sbind, smap_err, resolve_resource_id, smap_err.
  unfold resolve_or_create_resource_identity.
  destruct (resolve_again (actor_spec (pa_actor p)) (pa_id p) id (fr_actor f i) (fr_now f) s m Hh Hs Hp)
    as (s1 & E & Hh1 & Hs1).
  pose proof (rp_local_resolve (actor_spec (pa_actor p)) (pa_id p) (fr_actor f i) (fr_now f) s o Hl) as Hl1.
  rewrite E in Hl1 |- *. simpl in *. unfold slift.
  rewrite (cons_middle id), app_assoc in Hnd. pose proof Hnd as Hnd'.
  apply NoDup_app in Hnd' as (Hnd1 & _ & _).
  rewrite register_fresh.
  2: { apply NoDup_app in Hnd1 as (_ & Hdis & _). intros Hin. apply (Hdis id Hin).
       by apply list_elem_of_singleton. }
  simpl.
  edestruct (IH (i + 1) (mk_node_builder (nb_id nb) (nb_actor_queue_capacity nb)
    (nb_pending_actors nb ++ [(id, pa_actor p)])) s1) as (s' & nb' & E' & Hr' & Hid' & Hpend).
  { by split. }
  { simpl. rewrite map_app. done. }
  exists s', nb'. split_and!; [done..|]. rewrite Hpend. simpl. rewrite map_app. simpl.
  by rewrite <- app_assoc.
Qed.

Lemma resolve_actors_nodup f i (actors : list (PendingActor A)) nb (os : option S) nb' os' :
  NoDup (map fst (nb_pending_actors nb)) →
  resolve_actors (num:=num) f i actors nb os = (Ok nb', os') →
  NoDup (map fst (nb_pending_actors nb')).
Proof.
  revert i nb os. induction actors as [|p actors IH]; intros i nb os Hnd Hrun; simpl in Hrun.
  { by injection Hrun as <- <-. }
  unfold sbind in Hrun. destruct (smap_err _ _ os) as [[id|] os1]; [|done]. unfold slift in Hrun.
  destruct (builder_register_with_id id (pa_actor p) nb) as [nb1|] eqn:E; simpl in Hrun; [|done].
  apply register_ok in E as (Hni & _ & Hpend). apply (IH (i + 1) nb1 os1); [|done].
  rewrite Hpend, map_app. apply NoDup_app. split_and!; [done| |apply NoDup_singleton].
  intros x Hx Hx'. apply list_elem_of_singleton in Hx' as ->. done.
Qed.

(** The pieces of a successful build. *)
Lemma build_ok (b : Boardwalk A) (f : Fresh) s m o (n : Node num A) os :
  ready s m o → build b f (Some s) = (Ok n, os) →
  let node_id := resolve_node_id (bw_node_id b) (nc_node_id <$> o) true (bw_name b) (fr_node f) in
  ∃ s' m' t, os = Some s' ∧
    ready s' m' (Some (mk_node_config node_id (bw_name b) (bw_name b) t)) ∧
    n_id n = node_id ∧
    Forall2 (holds_actor m') (bw_actors b) (map e_id (d_entries (n_directory n))) ∧
    NoDup (map e_id (d_entries (n_directory n))).
Proof.
  intros Hr Hb node_id. unfold build, sbind, persisted_node_config in Hb.
  pose proof Hr as [Hh Hs Hc Hl].
  destruct (nc_get_local_spec s o m Hl Hh Hs) as (s1 & E1 & Hl1 & Hh1 & Hs1).
  rewrite E1 in Hb. simpl in Hb. fold node_id in Hb.
  destruct (resolve_actors f 0 (bw_actors b) (node_builder_new node_id) (Some s1))
    as [[nb|e] os1] eqn:E2; [|done].
  destruct (resolve_actors_spec f 0 (bw_actors b) (node_builder_new node_id) s1 m o [] nb os1)
    as (s2 & m2 & -> & Hr2 & Hid & _ & Hall); [by split|constructor|done|].
  unfold slift in Hb. destruct (try_build nb) as [n'|e] eqn:E3; simpl in Hb; [|done].
  unfold persist_local_node_config in Hb. destruct Hr2 as [Hh2 Hs2 Hc2 Hl2].
  destruct (nc_put_spec s2 o m2 (mk_node_config node_id (bw_name b) (bw_name b) (fr_now f))
    Hl2 Hh2 Hs2) as (s3 & E4 & Hl3 & Hh3 & Hs3).
  rewrite E4 in Hb. simpl in Hb. injection Hb as <- <-.
  assert (Hnd : NoDup (map fst (nb_pending_actors nb))).
  { pose proof (resolve_actors_nodup f 0 (bw_actors b) (node_builder_new node_id) (Some s1) nb (Some s2))
      as H. apply H; [constructor|done]. }
  destruct (register_all_spec (num:=num) (nb_pending_actors nb)
    (node_new (nb_id nb) (nb_actor_queue_capacity nb))) as (n2 & E5 & _ & Hnid & Hids);
    [apply node_new_wf|done|by intros e He%elem_of_nil|].
  unfold try_build in E3. unfold node_new in E5. rewrite E3 in E5. injection E5 as <-.
  simpl in Hids, Hnid. exists s3, m2, (fr_now f). rewrite Hids, Hnid, Hid.
  split_and!; [done|by split|done..].
Qed.

(** C14: ids survive a restart. When a server built on a working store, the same
    builder started again on what that start left behind, with whatever other
    UUIDs and clock it draws, builds too: the node has the same id and its
    actors the same resource ids in the same order. *)
Theorem build_restart_stable (b : Boardwalk A) (f f' : Fresh) s m o (n : Node num A) os :
  ready s m o → build b f (Some s) = (Ok n, os) →
  ∃ s1 n' os', os = Some s1 ∧ build b f' (Some s1) = (Ok n', os') ∧
    n_id n' = n_id n ∧
    map e_id (d_entries (n_directory n')) = map e_id (d_entries (n_directory n)).
Proof.
  intros Hr Hb. apply (build_ok _ _ _ _ _ _ _ Hr) in Hb as (s1 & m1 & t & -> & Hr1 & Hid & Hall & Hnd).
  set (node_id := resolve_node_id _ _ _ _ _) in *.
  set (config := mk_node_config _ _ _ _) in *. pose proof Hr1 as [Hh Hs Hc Hl].
  destruct (nc_get_local_spec s1 _ m1 Hl Hh Hs) as (s2 & E1 & Hl2 & Hh2 & Hs2).
  destruct (resolve_actors_again f' 0 (bw_actors b) (map e_id (d_entries (n_directory n)))
    (node_builder_new node_id) s2 m1
    (Some config)) as (s3 & nb & E2 & Hr3 & Hnb & Hpend); [by split|done|done|].
  destruct (register_all_spec (num:=num) (nb_pending_actors nb)
    (node_new (nb_id nb) (nb_actor_queue_capacity nb))) as (n2 & E3 & _ & Hnid & Hids);
    [apply node_new_wf|by rewrite Hpend|by intros e He%elem_of_nil|].
  destruct Hr3 as [Hh3 Hs3 Hc3 Hl3].
  destruct (nc_put_spec s3 _ m1 (mk_node_config node_id (bw_name b) (bw_name b) (fr_now f'))
    Hl3 Hh3 Hs3) as (s4 & E4 & _).
  exists s1, n2, (Some s4). split; [done|]. split_and!.
  - unfold build, sbind, persisted_node_config. rewrite E1. simpl.
    replace (resolve_node_id _ _ _ _ _) with node_id
      by (unfold node_id, resolve_node_id; by destruct (bw_node_id b)).
    rewrite E2. unfold slift, try_build. unfold node_new in E3. rewrite E3. simpl.
    unfold persist_local_node_config. by rewrite E4.
  - by rewrite Hnid, Hid.
  - rewrite Hids, Hpend. done.
Qed.

(** With persistence two actors cannot share an identity: a build that
    succeeds has pairwise distinct identity keys, so a second unnamed actor of
    a kind, or a second one of a name, makes the build fail. *)
Theorem persisted_identities_distinct (b : Boardwalk A) (f : Fresh) s m o (n : Node num A) os :
  ready s m o → build b f (Some s) = (Ok n, os) →
  NoDup (map (λ p, identity_key (actor_spec (num:=num) (pa_actor p))) (bw_actors b)).
Proof.
  intros Hr Hb. apply (build_ok _ _ _ _ _ _ _ Hr) in Hb as (s1 & m1 & t & -> & Hr1 & _ & Hall & Hnd).
  assert (Hwf : identities_wf m1) by (eapply id_state_wf, Hr1).
  induction Hall as [|p id actors ids Hp Hall IH]; [constructor|].
  apply NoDup_cons in Hnd as [Hni Hnd]. simpl. constructor; [|by apply IH].
  intros (q & Eq & Hq)%list_elem_of_fmap. apply Hni. apply list_elem_of_lookup in Hq as [i Hq].
  destruct (Forall2_lookup_l _ _ _ _ _ Hall Hq) as (id' & Hid' & (_ & r' & Hr' & Hk' & _)).
  destruct Hp as (_ & r & Hrr & Hk & _). rewrite <- Eq in Hk'.
  apply list_elem_of_lookup. exists i.
  by rewrite Hid', (wf_key _ Hwf _ _ _ _ _ Hrr Hr' Hk Hk').
Qed.
End restart_facts.

(** ** The repositories on disk *)

Section redb_repositories.
  Context {Bytes : Type} `{!Redb Bytes, !RedbLaws Bytes, !RedbReliable Bytes}.
  Context `{!JsonCodec Bytes ResourceIdentityRecord, !JsonCodecLaws Bytes ResourceIdentityRecord}.
  Context `{!JsonCodecTotal Bytes ResourceIdentityRecord}.
  Context `{!JsonCodec Bytes NodeConfigRecord, !JsonCodecLaws Bytes NodeConfigRecord}.
  Context `{!JsonCodecTotal Bytes NodeConfigRecord}.
  Implicit Types d : Database Bytes.

#[export] Instance redb_node_configs : NodeConfigRepository (Database Bytes) := {|
  nc_put := redb_node_put;
  nc_get_local := redb_node_get_local
|}.

Lemma local_record_frame d d' (o : option NodeConfigRecord) :
  db_table d' NODE_CONFIGS = db_table d NODE_CONFIGS → local_record d o → local_record d' o.
Proof. intros E (rows & l & Hd & H). exists rows, l. by rewrite E. Qed.

Lemma redb_id_state_frame d d' m :
  db_table d' RESOURCE_IDENTITIES = db_table d RESOURCE_IDENTITIES →
  redb_id_state d m → redb_id_state d' m.
Proof. intros E [Hwf (rows & Hd & H)]. split; [done|]. exists rows. by rewrite E. Qed.

(** Identity calls touch no other table. *)
Lemma redb_call_frame (c : identity_call) d n :
  n ≠ RESOURCE_IDENTITIES → db_table (run_call c d).2 n = db_table d n.
Proof.
  intros Hn. destruct c as [id|rec|k]; simpl.
  - unfold redb_get. pose proof (get_json_spec (T:=ResourceIdentityRecord) RESOURCE_IDENTITIES id d) as H.
    destruct (get_json _ _ _) as [r d']. by destruct H as [-> _].
  - unfold redb_put, redb_put_check, redb_put_write, sbind.
    pose proof (list_json_spec (T:=ResourceIdentityRecord) RESOURCE_IDENTITIES d) as H.
    destruct (list_json _ d) as [[l|] d1]; destruct H as [-> _]; [|done].
    unfold slift. destruct (check_overlap rec l); [|done]. simpl.
    pose proof (put_json_spec RESOURCE_IDENTITIES (ri_id rec) rec d) as H.
    destruct (put_json _ _ _ d) as [[]]; simpl.
    + destruct H as (b & _ & ->). by rewrite decide_False.
    + by destruct H as [_ ->].
  - unfold redb_find_by_identity_key, sbind.
    pose proof (list_json_spec (T:=ResourceIdentityRecord) RESOURCE_IDENTITIES d) as H.
    destruct (list_json _ d) as [[l|] d1]; destruct H as [-> _]; done.
Qed.

#[export] Program Instance redb_repositories_laws : RepositoriesLaws (Database Bytes) := {|
  rp_local := local_record
|}.
Next Obligation. intros d c o. apply local_record_frame. by apply redb_call_frame. Qed.
Next Obligation.
  intros d o m Hl Hh Hs. exists d. split_and!; [by apply redb_node_get_local_spec|done..].
Qed.
Next Obligation.
  intros d o m rec Hl Hh Hs. destruct (redb_node_put_spec rec d o Hl) as (d' & E & Hl' & _ & Hf).
  exists d'. split_and!; [done..|]. eapply redb_id_state_frame; [by apply Hf|done].
Qed.
End redb_repositories.

(** ** The theorems at concrete servers *)

Module ServerExamples.
#[local] Existing Instance ListChannel.mpsc.
#[local] Existing Instance RedbExamples.db.
#[local] Existing Instance RedbExamples.db_laws.
#[local] Existing Instance RedbExamples.db_reliable.
#[local] Existing Instance RedbExamples.codec.
#[local] Existing Instance RedbExamples.codec_laws.
#[local] Existing Instance RedbExamples.codec_total.

(** A device of a kind with an optional name. *)
#[local] Instance device : Actor N (string * option string) := {|
  actor_spec := λ d, mk_resource_spec d.1 d.2 [] None [];
  actor_snapshot := λ a, Some (Ok (builder a.1), a);
  actor_transition := λ _ _ _ _, None;
  actor_on_start := λ _ a, Some (Ok tt, a);
  actor_on_stop := λ _ a, Some (Ok tt, a)
|}.

Definition file : Database positive := RedbExamples.empty_db.

Lemma file_state : id_state file ∅.
Proof. apply RedbExamples.empty_db_state. Qed.

Lemma file_healthy : id_healthy file.
Proof. done. Qed.

Lemma file_canonical : canonical ∅.
Proof. by intros id r. Qed.

Lemma file_ready : ready file ∅ None.
Proof. split; [done|apply file_state|apply file_canonical|]. by exists [], []. Qed.

Definition spec (kind : string) (name : option string) : ResourceSpec N :=
  mk_resource_spec kind name [] None [].

Lemma identity_stable_witness :
  ∃ s1 s2, resolve_stored (spec "led" (Some "desk")) None "u-1" 5 file = (Ok "u-1", s1) ∧
    resolve_stored (spec "led" (Some "desk")) None "u-2" 9 s1 = (Ok "u-1", s2).
Proof.
  pose proof (identity_stable (spec "led" (Some "desk")) None "u-1" 5 file ∅ file_healthy file_state
    file_canonical) as H.
  destruct (resolve_stored _ _ _ _ file) as [r s1] eqn:E.
  assert (r = Ok "u-1") as -> by (apply (f_equal fst) in E; vm_compute in E; by symmetry).
  destruct H as [_ H]. destruct (H "u-1" eq_refl) as (m1 & _ & H2). specialize (H2 "u-2" 9%Z).
  destruct (resolve_stored (spec "led" (Some "desk")) None "u-2" 9 s1) as [r s2] eqn:E2.
  destruct H2 as [-> _]. by exists s1, s2.
Defined.

Lemma identity_no_alias_witness :
  ∃ s1 s2, resolve_stored (spec "led" (Some "desk")) (Some "x") "u-1" 5 file = (Ok "x", s1) ∧
    resolve_stored (spec "led" (Some "hall")) (Some "y") "u-2" 9 s1 = (Ok "y", s2) ∧ "x" ≠ "y".
Proof.
  destruct (resolve_stored (spec "led" (Some "desk")) (Some "x") "u-1" 5 file) as [r s1] eqn:E1.
  assert (r = Ok "x") as -> by (apply (f_equal fst) in E1; vm_compute in E1; by symmetry).
  destruct (resolve_stored (spec "led" (Some "hall")) (Some "y") "u-2" 9 s1) as [r s2] eqn:E2.
  assert (r = Ok "y") as ->.
  { apply (f_equal snd) in E1. simpl in E1. subst s1. apply (f_equal fst) in E2.
    vm_compute in E2. by symmetry. }
  exists s1, s2. split_and!; [done..|].
  apply (identity_no_alias (spec "led" (Some "desk")) (spec "led" (Some "hall")) (Some "x") (Some "y")
    "u-1" "u-2" 5 9 file ∅ s1 s2 "x" "y" file_healthy file_state file_canonical); [done|done| |done].
  intros m1 [_ (rows & Hd & Hrep)]. specialize (Hrep "u-2").
  assert (map_get "u-2" rows = None) as Hn.
  { apply (f_equal snd) in E1. simpl in E1. subst s1.
    apply (f_equal (λ o, map_get "u-2" (default [] o))) in Hd. vm_compute in Hd. by symmetry. }
  by rewrite Hn in Hrep.
Defined.

(** A hub with two lamps; one of them has a chosen id. *)
Definition hub : Boardwalk (string * option string) :=
  use_actor_with_id "door" ("led", Some "door")
    (use_actor ("led", Some "desk") (set_name "hub" boardwalk_new)).
Definition draw (p : string) : Fresh := mk_fresh (p +:+ "n") (λ i, p +:+ pretty i) 7.

Definition built (b : Boardwalk (string * option string)) (p : string) (s : option (Database positive))
    : result BuildError (string * list string) :=
  match (build (num:=N) b (draw p) s).1 with
  | Ok n => Ok (n_id n, map e_id (d_entries (n_directory n)))
  | Err e => Err e
  end.

Example first_start : built hub "a" (Some file) = Ok ("an", ["a0"; "door"]).
Proof. vm_compute. done. Qed.

Lemma build_restart_stable_witness :
  ∃ s1, built hub "b" (Some s1) = Ok ("an", ["a0"; "door"]).
Proof.
  destruct (build (num:=N) hub (draw "a") (Some file)) as [[n|e] os] eqn:E.
  2: { apply (f_equal fst) in E. vm_compute in E. done. }
  destruct (build_restart_stable hub (draw "a") (draw "b") file ∅ None n os file_ready E)
    as (s1 & n' & os' & -> & E' & Hid & Hids).
  exists s1. unfold built. rewrite E'. cbn [fst]. rewrite Hid, Hids.
  pose proof first_start as F. unfold built in F. by rewrite E in F.
Defined.

(** Two unnamed lamps: fine in memory, refused with persistence. *)
Definition twins : Boardwalk (string * option string) :=
  use_actor ("led", None) (use_actor ("led", None) boardwalk_new).

Lemma persisted_identities_distinct_witness :
  NoDup (map (λ p, identity_key (actor_spec (num:=N) (pa_actor p))) (bw_actors hub)) ∧
  built twins "a" None = Ok ("boardwalk", ["a0"; "a1"]) ∧
  built twins "a" (Some file) = Err (RegisterActor (duplicate_id "a0")).
Proof.
  split; [|by split; vm_compute].
  destruct (build (num:=N) hub (draw "a") (Some file)) as [[n|e] os] eqn:E.
  - exact (persisted_identities_distinct hub (draw "a") file ∅ None n os file_ready E).
  - apply (f_equal fst) in E. vm_compute in E. done.
Defined.
End ServerExamples.
