(* ===== verification/Registrar.v ===== *)
(** Registration at run time and the peer clients of a server ([server.rs]):
    the registrar behind [POST /resources], the form it is fed from
    ([routes.rs]), and the links [build] dials. *)

From S2P Require Import Prelude F64 Json Http Capabilities Peer Mpsc Resource Persistence Redb.
From S2P Require Import Runtime Executor Node Core Server.

(** ** The registration form *)

Section form.
  Context {hl : HttpLib}.

Record ResourceRegistration := mk_registration {
  rg_kind : string;
  rg_name : option string;
  rg_id : option Uuid;
  rg_fields : gmap string string
}.

Definition registration_default : ResourceRegistration := mk_registration "" None None ∅.

(** One pair of the form; a later pair overrides an earlier one, and an [id]
    that is no UUID counts as absent. *)
Definition registration_field (reg : ResourceRegistration) (kv : string * string)
    : ResourceRegistration :=
  let '(k, v) := kv in
  if String.eqb k "kind" then mk_registration v (rg_name reg) (rg_id reg) (rg_fields reg)
  else if String.eqb k "name" then
    mk_registration (rg_kind reg) (Some v) (rg_id reg) (rg_fields reg)
  else if String.eqb k "id" then
    mk_registration (rg_kind reg) (rg_name reg) (uuid_parse_str v) (rg_fields reg)
  else mk_registration (rg_kind reg) (rg_name reg) (rg_id reg) (<[k := v]> (rg_fields reg)).

Definition registration_of (pairs : list (string * string)) : ResourceRegistration :=
  foldl registration_field registration_default pairs.
End form.

(** ** The registrar *)

Section registrar.
  Context {hl : HttpLib} {num : Type} {A : Type} `{!Actor num A} `{!Mpsc (Command num)}.
  Context {S : Type} `{!ResourceIdentityRepository S} `{!ResourceSnapshotRepository num S}.
  Implicit Types (n : Node num A) (repositories : option S) (reg : ResourceRegistration).

Definition ActorFactory : Type := ResourceRegistration → result ResourceRegistrationError A.

(** [persist_latest_resource_snapshot]; failures are logged. *)
Definition persist_registered_snapshot (snap : ResourceSnapshot num) (now : Z) repositories
    : option S :=
  match repositories with
  | None => None
  | Some s => Some (sn_upsert_latest (latest_record snap now) s).2
  end.

(** The closure of [build_resource_registrar]. [uuid] is the id it may mint,
    [answers] the actors' answers after the registration; the outer [None] is a
    panic. *)
Definition register_resource (factories : gmap string ActorFactory) reg (uuid : Uuid) (now : Z)
    (answers : string → snapshot_answer num) n repositories
    : option (result ResourceRegistrationError string) * Node num A * option S :=
  match factories !! rg_kind reg with
  | None => (Some (Err (RegInvalid ("unknown resource kind `" +:+ rg_kind reg +:+ "`"))),
             n, repositories)
  | Some factory =>
      match factory reg with
      | Err e => (Some (Err e), n, repositories)
      | Ok actor =>
          let '(r, repositories1) :=
            resolve_or_create_resource_identity_uuid (actor_spec actor) (rg_id reg) uuid now
              repositories in
          match r with
          | Err e => (Some (Err (registration_identity_error e)), n, repositories1)
          | Ok id =>
              let '(r, n1) := register_with_id (uuid_to_string id) actor n in
              match r with
              | Err e => (Some (Err (registration_resource_error e)), n1, repositories1)
              | Ok _ =>
                  match resource_snapshot n1 answers (uuid_to_string id) with
                  | None => (None, n1, repositories1)
                  | Some (Ok (Some snapshot)) =>
                      (Some (Ok (uuid_to_string id)), n1,
                       persist_registered_snapshot snapshot now repositories1)
                  | Some _ => (Some (Ok (uuid_to_string id)), n1, repositories1)
                  end
              end
          end
      end
  end.

(** [build_resource_registrar]: nothing to register without factories. *)
Definition build_resource_registrar (factories : gmap string ActorFactory)
    : option (ResourceRegistration → Uuid → Z → (string → snapshot_answer num) →
        Node num A → option S →
        option (result ResourceRegistrationError string) * Node num A * option S) :=
  if decide (factories = ∅) then None else Some (register_resource factories).
End registrar.
Arguments ActorFactory {_} A.

(** ** Peer clients *)

Section peer_clients.
  Context {hl : HttpLib} {ul : UrlLib}.

(** [PeerClient], less the router and the task handles. *)
Record PeerClient := mk_peer_client {
  remote_url : Url;
  local_name : string;
  pc_admission : option PeerLinkConfig;
  pc_proxy : ProxySelection
}.

Definition peer_client_new (url : Url) (name : string) : PeerClient :=
  mk_peer_client url name None proxy_selection_default.

Definition from_link (link : PeerLinkConfig) : PeerClient :=
  mk_peer_client (gateway_url link) (pl_route_name link) (Some link) (pl_proxy link).

(** What [build] fills in on a link before it dials. *)
Definition complete_link (node_id display_name : string) (link : PeerLinkConfig) : PeerLinkConfig :=
  let link := match local_node_id link with
              | None => link_node_id node_id link
              | Some _ => link
              end in
  match local_node_name link with
  | None => link_node_name display_name link
  | Some _ => link
  end.

(** The clients [build] spawns, in order. *)
Definition peer_clients (node_id name : string) (peers : list Url) (links : list PeerLinkConfig)
    : list PeerClient :=
  map (λ url, peer_client_new url name) peers
  ++ map (λ link, from_link (complete_link node_id name link)) links.
End peer_clients.

(** ** Facts *)

Section registrar_facts.
  Context {hl : HttpLib} {laws : HttpLaws} {num : Type} {A : Type} `{!Actor num A}.
  Context `{!Mpsc (Command num)} {S : Type} `{!ResourceIdentityRepository S}.
  Context `{!ResourceSnapshotRepository num S}.
  Implicit Types (n : Node num A) (reg : ResourceRegistration).
  Implicit Types (factories : gmap string (ActorFactory A)).

(** An explicit id is kept or refused, whatever the store does. *)
Lemma resolve_explicit (spec : ResourceSpec num) u uuid now (os os' : option S) id :
  resolve_or_create_resource_identity_uuid spec (Some u) uuid now os = (Ok id, os') → id = u.
Proof.
  unfold resolve_or_create_resource_identity_uuid, sbind.
  assert (H : ∀ r os1, resolve_or_create_resource_identity spec (Some (uuid_to_string u))
            (uuid_to_string uuid) now os = (Ok r, os1) → r = uuid_to_string u).
  { intros r os1. unfold resolve_or_create_resource_identity, resolve_stored, sbind.
    destruct os as [s|]; [|by intros [= <- <-]].
    repeat case_match; unfold sret, sfail in *; intros; by simplify_eq. }
  simpl. destruct (resolve_or_create_resource_identity _ _ _ _ _) as [[r|] os1] eqn:E; [|done].
  rewrite (H r os1 eq_refl). unfold slift. rewrite uuid_roundtrip. by intros [= <- <-].
Qed.

(** Registration at run time. It never panics; a success adds exactly one
    entry, of the kind the factory's actor declares, under an id that no
    resource of the node had, and under the requested id if there was one; an
    unknown kind, a refusal of the factory, an identity conflict, a storage
    failure and a taken id all leave the node as it was. *)
Theorem registrar_spec factories reg (uuid : Uuid) (now : Z)
    (answers : string → snapshot_answer num) n (repositories : option S) :
  node_wf n →
  let '(r, n', _) := register_resource factories reg uuid now answers n repositories in
  match r with
  | None => False
  | Some (Ok id) => node_wf n' ∧ ∃ factory actor e,
      factories !! rg_kind reg = Some factory ∧ factory reg = Ok actor ∧
      (∀ u, rg_id reg = Some u → id = uuid_to_string u) ∧
      e_id e = id ∧ e_kind e = sp_kind (actor_spec actor) ∧
      (∀ e', e' ∈ d_entries (n_directory n) → e_id e' ≠ id) ∧
      d_entries (n_directory n') = d_entries (n_directory n) ++ [e]
  | Some (Err _) => n' = n
  end.
Proof.
  intros Hn. unfold register_resource.
  destruct (factories !! rg_kind reg) as [factory|] eqn:Ef; [|done].
  destruct (factory reg) as [actor|e] eqn:Ea; [|done].
  destruct (resolve_or_create_resource_identity_uuid _ _ _ _ _) as [[id|e] os1] eqn:Er; [|done].
  pose proof (register_with_id_spec (uuid_to_string id) actor n Hn) as H.
  destruct (register_with_id (uuid_to_string id) actor n) as [[[]|e] n1];
    destruct H as [Hn1 H]; [|by destruct H as (_ & -> & _)].
  destruct H as (Hnew & e & Hid & Hk & Hent & _ & _).
  assert (Hres : ∀ u, rg_id reg = Some u → uuid_to_string id = uuid_to_string u).
  { intros u Hu. rewrite Hu in Er. by rewrite (resolve_explicit _ _ _ _ _ _ _ Er). }
  pose proof (get_by_id_spec (uuid_to_string id) _ (nw_directory _ Hn1)) as Hg.
  unfold resource_snapshot. destruct (get_by_id _ _) as [o|]; [|done].
  assert (Hgoal : node_wf n1 ∧ ∃ factory' actor' e', Some factory = Some factory' ∧
    factory' reg = Ok actor' ∧ (∀ u, rg_id reg = Some u → uuid_to_string id = uuid_to_string u) ∧
    e_id e' = uuid_to_string id ∧ e_kind e' = sp_kind (actor_spec actor') ∧
    (∀ e'', e'' ∈ d_entries (n_directory n) → e_id e'' ≠ uuid_to_string id) ∧
    d_entries (n_directory n1) = d_entries (n_directory n) ++ [e']).
  { split; [done|]. by exists factory, actor, e. }
  destruct o as [e'|]; [|done]. by destruct (entry_snapshot _ _ _).
Qed.
End registrar_facts.

(** Reading and storing snapshots leaves the identities alone. *)
Class SnapshotFrame (num S : Type) `{!ResourceIdentityRepository S, !ResourceIdentityLaws S}
    `{!ResourceIdentityReliable S, !ResourceSnapshotRepository num S} : Prop := {
  sn_upsert_frame s m (rec : ResourceSnapshotRecord num) :
    id_healthy s → id_state s m →
    id_healthy (sn_upsert_latest rec s).2 ∧ id_state (sn_upsert_latest rec s).2 m;
  sn_latest_frame s m (id : string) :
    id_healthy s → id_state s m →
    id_healthy (sn_latest id s).2 ∧ id_state (sn_latest id s).2 m
}.

Section registrar_once.
  Context {hl : HttpLib} {laws : HttpLaws} {num : Type} {A : Type} `{!Actor num A}.
  Context `{!Mpsc (Command num)} {S : Type} `{!ResourceIdentityRepository S}.
  Context `{!ResourceIdentityLaws S, !ResourceIdentityReliable S}.
  Context `{!ResourceSnapshotRepository num S, !SnapshotFrame num S}.
  Implicit Types (n : Node num A) (reg : ResourceRegistration).
  Implicit Types (factories : gmap string (ActorFactory A)).

Lemma resolve_uuid_spec (spec : ResourceSpec num) explicit (uuid : Uuid) now (s : S) m id os :
  id_healthy s → id_state s m → canonical m →
  resolve_or_create_resource_identity_uuid spec explicit uuid now (Some s) = (Ok id, os) →
  ∃ s' m' str, os = Some s' ∧ id_healthy s' ∧ id_state s' m' ∧ uuid_parse_str str = Some id ∧
    assigned m' spec (uuid_to_string <$> explicit) str.
Proof.
  intros Hh Hs Hc. unfold resolve_or_create_resource_identity_uuid, sbind.
  unfold resolve_or_create_resource_identity.
  destruct (resolve_stored_spec spec (uuid_to_string <$> explicit) (uuid_to_string uuid) now s m Hh Hs Hc)
    as (r & s' & m' & -> & Hh' & Hs' & Hc' & Hr).
  destruct r as [str|e]; simpl; [|done]. unfold slift.
  destruct (uuid_parse_str str) as [id'|] eqn:Ep; simpl; [|done]. intros [= <- <-].
  exists s', m', str. split_and!; [done..|]. destruct Hr as (He & Hrec & _). by split.
Qed.

(** What a successful registration leaves behind: the entry on the node, and
    an identity under which the same spec resolves to the same id. *)
Lemma registered_facts factories reg (uuid : Uuid) (now : Z)
    (answers : string → snapshot_answer num) n (s : S) m id n1 os1 :
  node_wf n → id_healthy s → id_state s m → canonical m →
  register_resource factories reg uuid now answers n (Some s) = (Some (Ok id), n1, os1) →
  ∃ factory actor str u s1 m1, factories !! rg_kind reg = Some factory ∧ factory reg = Ok actor ∧
    uuid_parse_str str = Some u ∧ id = uuid_to_string u ∧ os1 = Some s1 ∧
    id_healthy s1 ∧ id_state s1 m1 ∧
    assigned m1 (actor_spec actor) (uuid_to_string <$> rg_id reg) str ∧
    node_wf n1 ∧ contains_id id (n_directory n1) = true.
Proof.
  intros Hn Hh Hs Hc. unfold register_resource.
  destruct (factories !! rg_kind reg) as [factory|]; [|done].
  destruct (factory reg) as [actor|e] eqn:Ea; [|done].
  destruct (resolve_or_create_resource_identity_uuid _ _ _ _ _) as [[u|e] os] eqn:Er; [|done].
  apply (resolve_uuid_spec _ _ _ _ _ m) in Er as (s1 & m1 & str & -> & Hh1 & Hs1 & Hp & Has);
    [|done..].
  pose proof (register_with_id_spec (uuid_to_string u) actor n Hn) as H.
  destruct (register_with_id (uuid_to_string u) actor n) as [[[]|e] n']; [|done].
  destruct H as [Hn' (_ & e & Hid & _ & Hent & _ & _)]. intros Hrun.
  assert (n1 = n' ∧ id = uuid_to_string u ∧ ∃ s2, os1 = Some s2 ∧ id_healthy s2 ∧ id_state s2 m1)
    as (-> & -> & s2 & -> & Hh2 & Hs2).
  { destruct (resource_snapshot n' answers (uuid_to_string u)) as [[[snap|]|]|]; simplify_eq;
      (split_and!; [done..|]; eexists; split; [done|]); [by apply sn_upsert_frame|done..]. }
  exists factory, actor, str, u, s2, m1. split_and!; try done.
  apply contains_id_spec; [by apply nw_directory|]. exists e. split; [|done].
  rewrite Hent. apply elem_of_app. right. by apply list_elem_of_singleton.
Qed.

(** The same registration on that node and any store that still has the
    identity. *)
Lemma register_again factories reg factory actor str u (uuid : Uuid) (now : Z)
    (answers : string → snapshot_answer num) n (s : S) m :
  factories !! rg_kind reg = Some factory → factory reg = Ok actor →
  uuid_parse_str str = Some u → id_healthy s → id_state s m →
  assigned m (actor_spec actor) (uuid_to_string <$> rg_id reg) str →
  contains_id (uuid_to_string u) (n_directory n) = true →
  ∃ msg os, register_resource factories reg uuid now answers n (Some s)
    = (Some (Err (RegConflict msg)), n, os).
Proof.
  intros Hf Ha Hp Hh Hs Has Hc. unfold register_resource. rewrite Hf, Ha.
  unfold resolve_or_create_resource_identity_uuid, sbind, resolve_or_create_resource_identity.
  destruct (resolve_again (actor_spec actor) (uuid_to_string <$> rg_id reg) str (uuid_to_string uuid)
    now s m Hh Hs Has) as (s3 & -> & _ & _). unfold slift. rewrite Hp. simpl.
  unfold register_with_id. rewrite Hc. simpl. eauto.
Qed.

(** Registering the same thing twice is a conflict. On a working store, a
    registration that succeeded and is repeated, by a client that retries, is
    refused as a conflict and neither adds a second resource nor changes the
    first. *)
Theorem registrar_once factories reg (uuid uuid' : Uuid) (now now' : Z)
    (answers answers' : string → snapshot_answer num) n (s : S) m id n1 os1 :
  node_wf n → id_healthy s → id_state s m → canonical m →
  register_resource factories reg uuid now answers n (Some s) = (Some (Ok id), n1, os1) →
  ∃ msg os2, register_resource factories reg uuid' now' answers' n1 os1
    = (Some (Err (RegConflict msg)), n1, os2).
Proof.
  intros Hn Hh Hs Hc Hrun.
  destruct (registered_facts _ _ _ _ _ _ _ _ _ _ _ Hn Hh Hs Hc Hrun)
    as (factory & actor & str & u & s1 & m1 & Hf & Ha & Hp & -> & -> & Hh1 & Hs1 & Has & _ & Hin).
  by eapply register_again.
Qed.
End registrar_once.

#[export] Instance redb_snapshot_frame {num Bytes : Type} `{!Redb Bytes, !RedbLaws Bytes}
    `{!RedbReliable Bytes, !JsonCodec Bytes ResourceIdentityRecord}
    `{!JsonCodecLaws Bytes ResourceIdentityRecord, !JsonCodecTotal Bytes ResourceIdentityRecord}
    `{!JsonCodec Bytes (ResourceSnapshotRecord num)} : SnapshotFrame num (Database Bytes).
Proof.
  split.
  - intros d m rec Hh Hs. split; [done|]. simpl. unfold redb_upsert_latest.
    pose proof (put_json_spec RESOURCE_SNAPSHOTS (sr_resource_id rec) rec d) as H.
    destruct (put_json _ _ _ d) as [[[]|e] d']; simpl; (eapply redb_id_state_frame; [|exact Hs]).
    + destruct H as (b & _ & ->). by rewrite decide_False.
    + by destruct H as [_ ->].
  - intros d m id Hh Hs. split; [done|]. simpl. unfold redb_latest.
    pose proof (get_json_spec (T:=ResourceSnapshotRecord num) RESOURCE_SNAPSHOTS id d) as H.
    destruct (get_json _ _ d) as [r d']. by destruct H as [-> _].
Qed.

(** ** The theorems at a concrete server *)

Module RegistrarExamples.
Import ListHttp.
#[local] Existing Instance ListChannel.mpsc.
#[local] Existing Instance RedbExamples.db.
#[local] Existing Instance RedbExamples.db_laws.
#[local] Existing Instance RedbExamples.db_reliable.
#[local] Existing Instance ServerExamples.device.

(** Rows are the records themselves. *)
Definition row : Type := ResourceIdentityRecord + ResourceSnapshotRecord N.

#[local] Instance identity_codec : JsonCodec row ResourceIdentityRecord := {|
  to_vec := λ r, Ok (inl r);
  from_slice := λ b, match b with inl r => Ok r | inr _ => Err "" end
|}.
#[local] Instance identity_codec_laws : JsonCodecLaws row ResourceIdentityRecord.
Proof. by intros r b [= <-]. Qed.
#[local] Instance identity_codec_total : JsonCodecTotal row ResourceIdentityRecord.
Proof. by intros r. Qed.
#[local] Instance snapshot_codec : JsonCodec row (ResourceSnapshotRecord N) := {|
  to_vec := λ r, Ok (inr r);
  from_slice := λ b, match b with inr r => Ok r | inl _ => Err "" end
|}.

Definition file : Database row := RedbExamples.empty_db.

Lemma empty_file_state : id_state file ∅.
Proof. split; [by apply identities_wf_empty|]. exists []. split; [done|]. by intros id. Qed.

Lemma empty_file_healthy : id_healthy file.
Proof. done. Qed.

Lemma empty_file_canonical : canonical ∅.
Proof. by intros id r. Qed.

(** Lamps can be registered. *)
Definition lamps : gmap string (ActorFactory (string * option string)) :=
  {["led" := λ reg, Ok ("led", rg_name reg)]}.

Definition desk : ResourceRegistration :=
  registration_of [("kind", "led"); ("name", "hall"); ("name", "desk"); ("color", "red")].

Example desk_parsed :
  rg_kind desk = "led" ∧ rg_name desk = Some "desk" ∧ rg_fields desk !! "color" = Some "red".
Proof. done. Qed.

Definition hub : Node N (string * option string) := node_new "hub" 4.
Definition shut : string → snapshot_answer N := λ _, Err (RUnavailable "actor task terminated").

Lemma registrar_spec_witness :
  let '(r, n', _) := register_resource lamps desk 3 0 shut hub (Some file) in
  r = Some (Ok "000") ∧ map e_id (d_entries (n_directory n')) = ["000"].
Proof.
  pose proof (registrar_spec (laws:=http_laws) lamps desk 3 0 shut hub (Some file)
    (node_new_wf "hub" 4)) as H.
  destruct (register_resource lamps desk 3 0 shut hub (Some file)) as [[r n'] os] eqn:E.
  assert (r = Some (Ok "000")) as ->.
  { apply (f_equal (λ p, p.1.1)) in E. vm_compute in E. by symmetry. }
  destruct H as (_ & f & a & e & _ & _ & _ & Hid & _ & _ & Hent). split; [done|].
  rewrite Hent. simpl. by rewrite Hid.
Defined.

Lemma registrar_once_witness :
  ∃ n1 os1 msg os2, register_resource lamps desk 3 0 shut hub (Some file) = (Some (Ok "000"), n1, os1) ∧
    register_resource lamps desk 5 9 shut n1 os1 = (Some (Err (RegConflict msg)), n1, os2).
Proof.
  destruct (register_resource lamps desk 3 0 shut hub (Some file)) as [[r n1] os1] eqn:E.
  assert (r = Some (Ok "000")) as ->.
  { apply (f_equal (λ p, p.1.1)) in E. vm_compute in E. by symmetry. }
  destruct (registrar_once lamps desk 3 5 0 9 shut shut hub file ∅ "000" n1 os1
    (node_new_wf "hub" 4) empty_file_healthy empty_file_state empty_file_canonical E) as (msg & os2 & H).
  by exists n1, os1, msg, os2.
Defined.
End RegistrarExamples.
