(* ===== verification/Siren.v ===== *)
(** Siren documents and typed links ([siren.rs], [links.rs]). URLs are the
    [url] crate's, with the operations the renderer calls as parameters. *)

From S2P Require Import Prelude F64 Json Query Policy Capabilities Http Peer Resource.

(** [Url::join], [query_pairs_mut().append_pair], [set_scheme] and [as_str]; [join] fails
    on a base that cannot have a path. *)
Class UrlOps {ul : UrlLib} := {
  url_join : string → Url → option Url;
  url_append_pair : string → string → Url → Url;
  url_set_scheme : string → Url → Url;
  url_to_string : Url → string
}.

(** ** Documents ([siren.rs]) *)

Module rels.
Definition SELF : string := "self".
Definition UP : string := "up".
Definition MONITOR : string := "monitor".
Definition EDIT : string := "edit".
Definition SERVER : string := "https://rels.boardwalk.to/server".
Definition RESOURCE : string := "https://rels.boardwalk.to/resource".
Definition RESOURCES : string := "https://rels.boardwalk.to/resources".
Definition PEER : string := "https://rels.boardwalk.to/peer".
Definition EVENTS : string := "https://rels.boardwalk.to/events".
Definition TYPE : string := "https://rels.boardwalk.to/type".
Definition OBJECT_STREAM : string := "https://rels.boardwalk.to/object-stream".
End rels.

Definition SIREN_CONTENT_TYPE : string := "application/vnd.siren+json".

Section siren.
  Context {ul : UrlLib} {num : Type}.

Record Link := mk_siren_link {
  lk_rel : list string;
  lk_href : Url;
  lk_class : list string;
  lk_title : option string;
  lk_type : option string
}.

Record Field := mk_field {
  fd_name : string;
  fd_type : string;
  fd_class : list string;
  fd_value : option (json num);
  fd_title : option string
}.

Record Action := mk_action {
  an_name : string;
  an_class : list string;
  an_method : string;
  an_href : Url;
  an_title : option string;
  an_type : option string;
  an_fields : list Field
}.

Record EmbeddedEntity := mk_embedded {
  em_rel : list string;
  em_class : list string;
  em_title : option string;
  em_properties : list (string * json num);
  em_links : list Link;
  em_actions : list Action
}.

Record EmbeddedLink := mk_embedded_link {
  el_rel : list string;
  el_href : Url;
  el_class : list string;
  el_title : option string;
  el_type : option string
}.

Inductive SubEntity := Embedded (e : EmbeddedEntity) | SubLink (l : EmbeddedLink).

Record Entity := mk_entity {
  en_class : list string;
  en_title : option string;
  en_properties : list (string * json num);
  en_entities : list SubEntity;
  en_actions : list Action;
  en_links : list Link
}.

Definition entity_new : Entity := mk_entity [] None [] [] [] [].

Definition with_class (c : string) (e : Entity) : Entity :=
  mk_entity (en_class e ++ [c]) (en_title e) (en_properties e) (en_entities e) (en_actions e)
    (en_links e).
Definition with_title (t : string) (e : Entity) : Entity :=
  mk_entity (en_class e) (Some t) (en_properties e) (en_entities e) (en_actions e) (en_links e).
Definition with_property (k : string) (v : json num) (e : Entity) : Entity :=
  mk_entity (en_class e) (en_title e) (map_insert k v (en_properties e)) (en_entities e)
    (en_actions e) (en_links e).
Definition with_link (l : Link) (e : Entity) : Entity :=
  mk_entity (en_class e) (en_title e) (en_properties e) (en_entities e) (en_actions e)
    (en_links e ++ [l]).
Definition with_action (a : Action) (e : Entity) : Entity :=
  mk_entity (en_class e) (en_title e) (en_properties e) (en_entities e) (en_actions e ++ [a])
    (en_links e).
Definition with_sub_entity (s : SubEntity) (e : Entity) : Entity :=
  mk_entity (en_class e) (en_title e) (en_properties e) (en_entities e ++ [s]) (en_actions e)
    (en_links e).

(** [Link::rels]; [Link::new] is the one-rel case. *)
Definition link_rels (rs : list string) (href : Url) : Link := mk_siren_link rs href [] None None.
Definition link_new (r : string) (href : Url) : Link := link_rels [r] href.
Definition link_title (t : string) (l : Link) : Link :=
  mk_siren_link (lk_rel l) (lk_href l) (lk_class l) (Some t) (lk_type l).
Definition with_self_link (href : Url) (e : Entity) : Entity := with_link (link_new rels.SELF href) e.

Definition action_new (name method : string) (href : Url) : Action :=
  mk_action name [] method href None None [].
Definition action_class (c : string) (a : Action) : Action :=
  mk_action (an_name a) (an_class a ++ [c]) (an_method a) (an_href a) (an_title a) (an_type a)
    (an_fields a).
Definition action_field (f : Field) (a : Action) : Action :=
  mk_action (an_name a) (an_class a) (an_method a) (an_href a) (an_title a) (an_type a)
    (an_fields a ++ [f]).
Definition action_type (t : string) (a : Action) : Action :=
  mk_action (an_name a) (an_class a) (an_method a) (an_href a) (an_title a) (Some t) (an_fields a).
Definition form_urlencoded (a : Action) : Action :=
  action_type "application/x-www-form-urlencoded" a.
Definition action_json (a : Action) : Action := action_type "application/json" a.

Definition field_hidden (name : string) (value : json num) : Field :=
  mk_field name "hidden" [] (Some value) None.
Definition field_typed (name ty : string) : Field := mk_field name ty [] None None.

Definition embedded_new (rs : list string) : EmbeddedEntity := mk_embedded rs [] None [] [] [].
Definition embedded_class (c : string) (e : EmbeddedEntity) : EmbeddedEntity :=
  mk_embedded (em_rel e) (em_class e ++ [c]) (em_title e) (em_properties e) (em_links e)
    (em_actions e).
Definition embedded_property (k : string) (v : json num) (e : EmbeddedEntity) : EmbeddedEntity :=
  mk_embedded (em_rel e) (em_class e) (em_title e) (map_insert k v (em_properties e))
    (em_links e) (em_actions e).
Definition embedded_link (l : Link) (e : EmbeddedEntity) : EmbeddedEntity :=
  mk_embedded (em_rel e) (em_class e) (em_title e) (em_properties e) (em_links e ++ [l])
    (em_actions e).
End siren.
Arguments Field num : clear implicits.
Arguments Action {_} num.
Arguments EmbeddedEntity {_} num.
Arguments SubEntity {_} num.
Arguments Entity {_} num.

(** ** Relative links ([links.rs]) *)

(** [url::form_urlencoded]: the serializer and the parser of query strings. *)
Class FormLib := {
  form_serialize : list (string * string) → string;
  form_parse : string → list (string * string)
}.

Class FormLaws `{FormLib} : Prop := form_roundtrip l : form_parse (form_serialize l) = l.

Section links.
  Context {hl : HttpLib} {fl : FormLib}.

Definition encode_path_segment (value : string) : string := urlencode value.

(** [ResourceRef], and [ResourceAddress], its owned twin. *)
Record ResourceRef := mk_ref { rf_node : string; rf_kind : string; rf_resource_id : string }.

Definition resource_href (r : ResourceRef) : string :=
  "/resources/" +:+ encode_path_segment (rf_resource_id r).
Definition transition_href (transition : string) (r : ResourceRef) : string :=
  "/resources/" +:+ encode_path_segment (rf_resource_id r) +:+ "/transitions/"
    +:+ encode_path_segment transition.
Definition ref_topic (stream : string) (r : ResourceRef) : string :=
  rf_node r +:+ "/" +:+ rf_kind r +:+ "/" +:+ rf_resource_id r +:+ "/" +:+ stream.

(** [AcceptedJob::for_resource] *)
Definition job_for_resource (r : ResourceRef) (created : bool) : AcceptedJob :=
  mk_accepted_job (rf_resource_id r) (rf_kind r) (resource_href r) created.

Record SubscriptionUrl := mk_subscription_url {
  su_node : string;
  su_topic : string;
  su_outbound_capacity : option N;
  su_replay : bool;
  su_slow_consumer_policy : SlowConsumerPolicy
}.

Definition for_resource_ref (r : ResourceRef) (stream : string) : SubscriptionUrl :=
  mk_subscription_url (rf_node r) (ref_topic stream r) None false Disconnect.
Definition url_for_resource (node kind resource_id stream : string) : SubscriptionUrl :=
  for_resource_ref (mk_ref node kind resource_id) stream.
Definition su_with_capacity (c : N) (u : SubscriptionUrl) : SubscriptionUrl :=
  mk_subscription_url (su_node u) (su_topic u) (Some c) (su_replay u) (su_slow_consumer_policy u).
Definition su_with_replay (b : bool) (u : SubscriptionUrl) : SubscriptionUrl :=
  mk_subscription_url (su_node u) (su_topic u) (su_outbound_capacity u) b
    (su_slow_consumer_policy u).
Definition su_slow_consumer (p : SlowConsumerPolicy) (u : SubscriptionUrl) : SubscriptionUrl :=
  mk_subscription_url (su_node u) (su_topic u) (su_outbound_capacity u) (su_replay u) p.

(** The pairs [relative_href] appends, in order. *)
Definition su_pairs (u : SubscriptionUrl) : list (string * string) :=
  [("topic", su_topic u)]
  ++ match su_outbound_capacity u with
     | Some c => if (c =? N.of_nat DEFAULT_OUTBOUND_CAPACITY)%N then []
                 else [("outboundCapacity", pretty c)]
     | None => []
     end
  ++ (if su_replay u then [("replay", "true")] else [])
  ++ match su_slow_consumer_policy u with
     | Disconnect => []
     | p => let '(value, key) := query_value p in
            ("slowConsumerPolicy", value)
            :: match key with Some k => [("coalesceKey", k)] | None => [] end
     end.

Definition relative_href (u : SubscriptionUrl) : string :=
  "/servers/" +:+ encode_path_segment (su_node u) +:+ "/events?" +:+ form_serialize (su_pairs u).
End links.

(** ** An instance

    A URL is its text; every base takes a relative path. *)
Module StringUrl.
#[export] Instance url_lib : UrlLib := {|
  Url := string;
  url_parse := Ok;
  url_scheme := λ _, "http";
  url_host_str := λ _, None;
  url_port_or_known_default := λ _, None;
  url_username := λ _, "";
  url_password := λ _, None;
  urldecode := Ok
|}.

#[export] Instance url_ops : UrlOps := {|
  url_join := λ p u, Some (u +:+ p);
  url_append_pair := λ k v u, u +:+ "?" +:+ k +:+ "=" +:+ v;
  url_set_scheme := λ _ u, u;
  url_to_string := λ u, u
|}.
End StringUrl.
