(* ===== verification/Render.v ===== *)
(** Hypermedia rendering ([http/render.rs]): Siren documents as functions of
    snapshots and the caller's capability ceiling. A result of [None] is the
    panic of an [unwrap] on a URL that cannot be joined. *)

From S2P Require Import Prelude F64 Json Query Capabilities Http Peer Resource Siren.
From S2P Require Import Topic Envelope Sequencer Policy.
From S2P Require Import Gateway.

Section render.
  Context {hl : HttpLib} {ul : UrlLib} {uo : UrlOps} {num : Type}.
  Implicit Types (snap : ResourceSnapshot num) (policy : RenderPolicy).

(** ** Hrefs *)

Record Hrefs := mk_hrefs { h_http : Url; h_ws : Url; h_server : string }.
Implicit Types h : Hrefs.

Definition root_url h : Url := h_http h.
Definition server_url h : option Url := url_join ("servers/" +:+ urlencode (h_server h)) (h_http h).
Definition resources_url h : option Url := url_join "resources" (h_http h).
Definition resource_url h (id : string) : option Url :=
  url_join ("resources/" +:+ urlencode id) (h_http h).
Definition resource_transition_url h (id transition : string) : option Url :=
  url_join ("resources/" +:+ urlencode id +:+ "/transitions/" +:+ urlencode transition) (h_http h).
Definition meta_url h : option Url := url_join "meta" (h_http h).
Definition meta_type_url h (ty : string) : option Url := url_join ("meta/" +:+ urlencode ty) (h_http h).
Definition events_url h : option Url := url_join "events" (h_ws h).

(** The topic of a stream link: the server's name, not its node id, leads. *)
Definition stream_topic h (ty id stream : string) : string :=
  h_server h +:+ "/" +:+ ty +:+ "/" +:+ id +:+ "/" +:+ stream.
Definition stream_url h (ty id stream : string) : option Url :=
  u ← url_join "events" (h_ws h); Some (url_append_pair "topic" (stream_topic h ty id stream) u).

Record PeerRenderPolicy := mk_peer_render_policy {
  prp_route_name : string;
  prp_capabilities : PeerCapabilities
}.

Definition peer_can_read_resources (p : PeerRenderPolicy) : bool :=
  caps_contains (prp_capabilities p) caps_resource_read.

(** ** Shared parts *)

Definition query_action h : option (Action num) :=
  u ← resources_url h;
  Some (action_field (field_typed "ql" "text")
    (form_urlencoded (action_new "query-resources" "GET" u))).

Definition with_query_action (e : Entity num) h policy : option (Entity num) :=
  if can_query policy then a ← query_action h; Some (with_action a e) else Some e.

Definition opt_str (o : option string) : json num := from_option JString JNull o.

Definition labels_value (l : list (string * string)) : json num :=
  JObject (collect_map (map (λ kv, (kv.1, JString kv.2)) l)).

(** [apply_resource_properties], over the two [WithResourceProperty] types. *)
Definition apply_resource_properties {T} (put : string → json num → T → T) (e : T) snap : T :=
  let e := foldl (λ e kv, put kv.1 kv.2 e) e (rs_properties snap) in
  let e := put "state" (opt_str (rs_state snap)) (put "name" (opt_str (rs_name snap))
             (put "node" (JString (rs_node snap)) (put "kind" (JString (rs_kind snap))
               (put "id" (JString (rs_id snap)) e)))) in
  let e := match rs_labels snap with
           | [] => e
           | l => put "labels" (labels_value l) e
           end in
  match rs_revision snap with
  | Some r => put "revision" (JString r) e
  | None => e
  end.

Definition resource_sub_entity h snap policy : option (EmbeddedEntity num) :=
  let e := embedded_class (rs_kind snap) (embedded_class "resource" (embedded_new [rels.RESOURCE])) in
  let e := apply_resource_properties embedded_property e snap in
  if can_read_resources policy then
    self ← resource_url h (rs_id snap); up ← resources_url h;
    Some (embedded_link (link_rels [rels.UP; rels.RESOURCES] up)
      (embedded_link (link_new rels.SELF self) e))
  else Some e.

(** The loop that appends one sub-entity per element. *)
Fixpoint with_sub_entities {T} (f : T → option (EmbeddedEntity num)) (l : list T) (e : Entity num)
    : option (Entity num) :=
  match l with
  | [] => Some e
  | x :: l' => s ← f x; with_sub_entities f l' (with_sub_entity (Embedded s) e)
  end.

(** ** Documents *)

Fixpoint peer_links h (peers : list PeerRenderPolicy) (e : Entity num) : option (Entity num) :=
  match peers with
  | [] => Some e
  | p :: peers' =>
      if peer_can_read_resources p then
        u ← url_join ("servers/" +:+ urlencode (prp_route_name p)) (h_http h);
        peer_links h peers'
          (with_link (link_title (prp_route_name p) (link_rels [rels.PEER; rels.SERVER] u)) e)
      else peer_links h peers' e
  end.

Definition render_root h (peers : list PeerRenderPolicy) policy : option (Entity num) :=
  resources ← resources_url h; server ← server_url h;
  e ← peer_links h peers
        (with_link (link_title (h_server h) (link_new rels.SERVER server))
          (with_link (link_new rels.RESOURCES resources)
            (with_link (link_new rels.SELF (root_url h)) (with_class "root" entity_new))));
  e ← (if can_stream policy then u ← events_url h; Some (with_link (link_new rels.EVENTS u) e)
       else Some e);
  with_query_action e h policy.

Definition render_resources h (snaps : list (ResourceSnapshot num)) policy : option (Entity num) :=
  self ← resources_url h;
  e ← with_query_action (with_link (link_new rels.SELF self)
        (with_property "node" (JString (h_server h)) (with_class "resources" entity_new))) h policy;
  with_sub_entities (λ snap, resource_sub_entity h snap policy) snaps e.

Definition render_server h (snaps : list (ResourceSnapshot num)) policy : option (Entity num) :=
  self ← server_url h; resources ← resources_url h;
  e ← with_query_action (with_link (link_new rels.RESOURCES resources)
        (with_link (link_new rels.SELF self)
          (with_property "name" (JString (h_server h)) (with_class "server" entity_new)))) h policy;
  with_sub_entities (λ snap, resource_sub_entity h snap policy) snaps e.

Definition render_search_results h (ql : string) (snaps : list (ResourceSnapshot num)) policy
    : option (Entity num) :=
  resources ← resources_url h;
  let self := url_append_pair "ql" ql resources in
  e ← with_query_action (with_link (link_new rels.SELF self)
        (with_property "ql" (JString ql) (with_property "name" (JString (h_server h))
          (with_class "search-results" (with_class "resources" entity_new))))) h policy;
  with_sub_entities (λ snap, resource_sub_entity h snap policy) snaps e.

(** The action of a transition: name, method, target and typed fields. *)
Definition transition_field (f : FieldSpec num) : Field num :=
  mk_field (fs_name f) (fs_type f) [] (fs_value f) (fs_title f).

Definition transition_action h (id : string) (spec : TransitionSpec num) : option (Action num) :=
  u ← resource_transition_url h id (ts_name spec);
  Some (foldl (λ a f, action_field (transition_field f) a)
    (action_json (action_class "transition" (action_new (ts_name spec) "POST" u)))
    (ts_fields spec)).

Fixpoint with_transitions h (id : string) (ts : list (TransitionAffordance num)) (e : Entity num)
    : option (Entity num) :=
  match ts with
  | [] => Some e
  | t :: ts' =>
      if ta_available t then
        a ← transition_action h id (ta_spec t); with_transitions h id ts' (with_action a e)
      else with_transitions h id ts' e
  end.

Fixpoint with_streams h (kind id : string) (ss : list SnapshotStreamSpec) (e : Entity num)
    : option (Entity num) :=
  match ss with
  | [] => Some e
  | s :: ss' =>
      u ← stream_url h kind id (ss_name s);
      with_streams h kind id ss' (with_link (link_title (ss_name s)
        (link_rels [rels.MONITOR; rels.OBJECT_STREAM] u)) e)
  end.

Definition render_resource h snap policy : option (Entity num) :=
  let e := with_class (rs_kind snap) (with_class "resource" entity_new) in
  self ← resource_url h (rs_id snap); up ← resources_url h; ty ← meta_type_url h (rs_kind snap);
  let e := with_link (link_rels [rels.TYPE; "describedby"] ty)
             (with_link (link_rels [rels.UP; rels.RESOURCES] up)
               (with_link (link_rels [rels.SELF; rels.EDIT] self)
                 (apply_resource_properties with_property e snap))) in
  e ← (if can_invoke_transition policy then with_transitions h (rs_id snap) (rs_transitions snap) e
       else Some e);
  if can_stream policy then with_streams h (rs_kind snap) (rs_id snap) (rs_streams snap) e
  else Some e.

(** ** Metadata *)

Definition stream_spec_json (s : StreamSpec) : json num :=
  JObject (map_insert "name" (JString (st_name s))
    (map_insert "kind" (JString (stream_kind_str (st_kind s))) [])).

Definition transition_spec_json (s : TransitionSpec num) : json num :=
  JObject (insert_opt "outputSchema" (ts_output_schema s)
    (insert_opt "inputSchema" (ts_input_schema s)
      (insert_opt "title" (JString <$> ts_title s)
        (map_insert "requiredScopes" (JArray (map JString (ts_required_scopes s)))
          (map_insert "effect" (JString (effect_str (ts_effect s)))
            (map_insert "idempotency" (JString (idempotency_str (ts_idempotency s)))
              (map_insert "result" (JString (result_kind_str (ts_result s)))
                (map_insert "allowedStates" (JArray (map JString (ts_allowed_states s)))
                  (map_insert "name" (JString (ts_name s)) []))))))))).

Definition meta_type_sub_entity h (ty : ActorSpec num) : option (EmbeddedEntity num) :=
  let resource := as_resource ty in
  self ← meta_type_url h (sp_kind resource);
  Some (embedded_link (link_new rels.SELF self)
    (embedded_property "transitions" (JArray (map transition_spec_json (as_transitions ty)))
      (embedded_property "streams" (JArray (map stream_spec_json (sp_streams resource)))
        (embedded_property "properties" (JArray (map JString ["id"; "kind"; "node"; "state"]))
          (embedded_property "propertySchema" (default JNull (sp_property_schema resource))
            (embedded_property "labels" (labels_value (sp_labels resource))
              (embedded_property "name" (opt_str (sp_name resource))
                (embedded_property "kind" (JString (sp_kind resource))
                  (embedded_class "type" (embedded_new [rels.TYPE; "item"])))))))))).

(** The kinds in order, the first of each. *)
Fixpoint first_of_kind (seen : list string) (types : list (ActorSpec num)) : list (ActorSpec num) :=
  match types with
  | [] => []
  | ty :: types' =>
      let kind := sp_kind (as_resource ty) in
      if bool_decide (kind ∈ seen) then first_of_kind seen types'
      else ty :: first_of_kind (kind :: seen) types'
  end.

Definition render_meta h (types : list (ActorSpec num)) policy : option (Entity num) :=
  self ← meta_url h; resources ← resources_url h;
  let e := with_link (link_new rels.RESOURCES resources) (with_link (link_new rels.SELF self)
             (with_property "name" (JString (h_server h)) (with_class "metadata" entity_new))) in
  e ← (if can_stream policy then
         u ← events_url h;
         Some (with_link (link_new rels.MONITOR (url_append_pair "topic" "meta" u)) e)
       else Some e);
  with_sub_entities (meta_type_sub_entity h) (first_of_kind [] types) e.

Definition render_meta_type h (ty : ActorSpec num) : option (Entity num) :=
  sub ← meta_type_sub_entity h ty;
  Some (mk_entity (em_class sub) (em_title sub) (em_properties sub) [] (em_actions sub)
    (em_links sub)).
End render.

(** ** Facts *)

Section facts.
  Context {hl : HttpLib} {ul : UrlLib} {uo : UrlOps} {num : Type}.
  Implicit Types (snap : ResourceSnapshot num) (policy : RenderPolicy) (h : Hrefs).
  Implicit Types (e : Entity num) (a : Action num).

(** Both bases take relative paths. *)
Definition joinable h : Prop :=
  (∀ p, is_Some (url_join p (h_http h))) ∧ (∀ p, is_Some (url_join p (h_ws h))).

Lemma apply_properties_frame {T B} (put : string → json num → T → T) (q : T → B) (x : T) snap :
  (∀ k v x, q (put k v x) = q x) → q (apply_resource_properties put x snap) = q x.
Proof.
  intros Hq. unfold apply_resource_properties.
  assert (Hf : ∀ l y, q (foldl (λ y kv, put kv.1 kv.2 y) y l) = q y).
  { intros l. induction l as [|kv l IH]; intros y; simpl; [done|]. by rewrite IH, Hq. }
  destruct (rs_revision snap), (rs_labels snap); by rewrite ?Hq, Hf.
Qed.

Lemma apply_properties_map {T} (put : string → json num → T → T) (q : T → list (string * json num))
    (x : T) snap :
  (∀ k v x, q (put k v x) = map_insert k v (q x)) →
  q (apply_resource_properties put x snap) = apply_resource_properties map_insert (q x) snap.
Proof.
  intros Hq. unfold apply_resource_properties.
  assert (Hf : ∀ l y, q (foldl (λ y kv, put kv.1 kv.2 y) y l)
    = foldl (λ y kv, map_insert kv.1 kv.2 y) (q y) l).
  { intros l. induction l as [|kv l IH]; intros y; simpl; [done|]. by rewrite IH, Hq. }
  destruct (rs_revision snap), (rs_labels snap); by rewrite !Hq, Hf.
Qed.

(** The names the runtime owns. *)
Definition RESERVED : list string := ["id"; "kind"; "node"; "name"; "state"; "labels"; "revision"].

(** The properties of a rendered resource. *)
Definition resource_properties snap (m : list (string * json num)) : Prop :=
  map_get "id" m = Some (JString (rs_id snap)) ∧
  map_get "kind" m = Some (JString (rs_kind snap)) ∧
  map_get "node" m = Some (JString (rs_node snap)) ∧
  map_get "name" m = Some (opt_str (rs_name snap)) ∧
  map_get "state" m = Some (opt_str (rs_state snap)) ∧
  (∀ k, k ∉ RESERVED → map_get k m = map_get k (collect_map (rs_properties snap))).

Lemma apply_properties_spec snap :
  resource_properties snap (apply_resource_properties map_insert [] snap).
Proof.
  assert (H : ∀ k, map_get k (apply_resource_properties map_insert [] snap) =
    if decide (k = "revision" ∧ is_Some (rs_revision snap)) then JString <$> rs_revision snap
    else if decide (k = "labels" ∧ rs_labels snap ≠ []) then Some (labels_value (rs_labels snap))
    else if decide (k = "state") then Some (opt_str (rs_state snap))
    else if decide (k = "name") then Some (opt_str (rs_name snap))
    else if decide (k = "node") then Some (JString (rs_node snap))
    else if decide (k = "kind") then Some (JString (rs_kind snap))
    else if decide (k = "id") then Some (JString (rs_id snap))
    else map_get k (collect_map (rs_properties snap))).
  { intros k. unfold apply_resource_properties, collect_map.
    destruct (rs_revision snap) as [r|], (rs_labels snap) as [|kv l]; rewrite !map_get_insert;
      repeat case_decide; naive_solver. }
  unfold resource_properties. rewrite !H. cbn.
  repeat (rewrite decide_False by (intros [? _]; done)). split_and!; [done..|].
  intros k Hk. unfold RESERVED in Hk. rewrite !not_elem_of_cons in Hk. destruct_and!.
  rewrite H. by rewrite !decide_False by (done || intros [? _]; done).
Qed.

(** The action of an affordance. *)
Definition action_of h (id : string) (t : TransitionAffordance num) a : Prop :=
  an_name a = ts_name (ta_spec t) ∧ an_method a = "POST" ∧
  Some (an_href a) = resource_transition_url h id (ts_name (ta_spec t)) ∧
  an_fields a = map transition_field (ts_fields (ta_spec t)).

Definition stream_link_of h (kind id : string) (s : SnapshotStreamSpec) (l : Link) : Prop :=
  lk_title l = Some (ss_name s) ∧ lk_rel l = [rels.MONITOR; rels.OBJECT_STREAM] ∧
  Some (lk_href l) = stream_url h kind id (ss_name s).

Lemma transition_action_spec h id t :
  joinable h → ∃ a, transition_action h id (ta_spec t) = Some a ∧ action_of h id t a.
Proof.
  intros [Hj _]. unfold transition_action, action_of, resource_transition_url.
  destruct (Hj ("resources/" +:+ urlencode id +:+ "/transitions/" +:+ urlencode (ts_name (ta_spec t))))
    as [u Hu]. rewrite Hu. simpl. eexists. split; [done|].
  set (a0 := action_json _). change (map transition_field (ts_fields (ta_spec t)))
    with (an_fields a0 ++ map transition_field (ts_fields (ta_spec t))).
  assert (an_name a0 = ts_name (ta_spec t) ∧ an_method a0 = "POST" ∧ an_href a0 = u) as H by done.
  revert H. generalize a0 as b. induction (ts_fields (ta_spec t)) as [|f l IH]; intros b (H1 & H2 & H3).
  { simpl. rewrite app_nil_r. by rewrite H3. }
  simpl. destruct (IH (action_field (transition_field f) b)) as (? & ? & ? & Hf); [done|].
  split_and!; [done..|]. rewrite Hf. simpl. by rewrite <- app_assoc.
Qed.

Lemma with_transitions_spec h id ts e :
  joinable h →
  ∃ e' l, with_transitions h id ts e = Some e' ∧
    Forall2 (action_of h id) (base.filter (λ t, ta_available t = true) ts) l ∧
    e' = mk_entity (en_class e) (en_title e) (en_properties e) (en_entities e)
           (en_actions e ++ l) (en_links e).
Proof.
  intros Hj. revert e. induction ts as [|t ts IH]; intros e; simpl.
  { exists e, []. split_and!; [done|constructor|]. rewrite app_nil_r. by destruct e. }
  rewrite filter_cons. destruct (ta_available t) eqn:Ea.
  - rewrite decide_True by done.
    destruct (transition_action_spec h id t Hj) as (a & -> & Ha). simpl.
    destruct (IH (with_action a e)) as (e' & l & -> & Hl & ->). eexists _, (a :: l).
    split_and!; [done|by constructor|]. simpl. by rewrite <- app_assoc.
  - rewrite decide_False by done. apply IH.
Qed.

Lemma with_streams_spec h kind id ss e :
  joinable h →
  ∃ e' l, with_streams h kind id ss e = Some e' ∧ Forall2 (stream_link_of h kind id) ss l ∧
    e' = mk_entity (en_class e) (en_title e) (en_properties e) (en_entities e)
           (en_actions e) (en_links e ++ l).
Proof.
  intros [Hh Hw]. revert e. induction ss as [|s ss IH]; intros e; simpl.
  { exists e, []. split_and!; [done|constructor|]. rewrite app_nil_r. by destruct e. }
  unfold stream_link_of, stream_url. destruct (Hw "events") as [u Hu]. rewrite Hu. simpl.
  set (lk := link_title (ss_name s) _).
  destruct (IH (with_link lk e)) as (e' & l & -> & Hl & ->). eexists _, (lk :: l).
  split_and!; [done| |].
  - constructor; [done|]. unfold stream_link_of, stream_url in Hl. by rewrite Hu in Hl.
  - simpl. by rewrite <- app_assoc.
Qed.


(** *** On joinable bases every document exists *)

Lemma with_sub_entities_total {T} (f : T → option (EmbeddedEntity num)) l e :
  (∀ x, is_Some (f x)) → is_Some (with_sub_entities f l e).
Proof.
  intros Hf. revert e. induction l as [|x l IH]; intros e; simpl; [done|].
  destruct (Hf x) as [s ->]. apply IH.
Qed.

Lemma with_query_action_total e h policy : joinable h → is_Some (with_query_action e h policy).
Proof.
  intros [Hj _]. unfold with_query_action, query_action, resources_url.
  destruct (can_query policy); [|done]. by destruct (Hj "resources") as [u ->].
Qed.

Lemma resource_sub_entity_total h snap policy :
  joinable h → is_Some (resource_sub_entity h snap policy).
Proof.
  intros [Hj _]. unfold resource_sub_entity, resource_url, resources_url.
  destruct (can_read_resources policy); [|done].
  destruct (Hj ("resources/" +:+ urlencode (rs_id snap))) as [u ->].
  by destruct (Hj "resources") as [u' ->].
Qed.

Lemma render_resources_total h snaps policy :
  joinable h → is_Some (render_resources (num:=num) h snaps policy).
Proof.
  intros Hj. unfold render_resources, resources_url. destruct (proj1 Hj "resources") as [u ->]. simpl.
  match goal with |- context [with_query_action ?e h policy] =>
    destruct (with_query_action_total e h policy Hj) as [e' ->] end.
  apply with_sub_entities_total. intros. by apply resource_sub_entity_total.
Qed.

Lemma render_search_results_total h ql snaps policy :
  joinable h → is_Some (render_search_results (num:=num) h ql snaps policy).
Proof.
  intros Hj. unfold render_search_results, resources_url.
  destruct (proj1 Hj "resources") as [u ->]. simpl.
  match goal with |- context [with_query_action ?e h policy] =>
    destruct (with_query_action_total e h policy Hj) as [e' ->] end.
  apply with_sub_entities_total. intros. by apply resource_sub_entity_total.
Qed.

Lemma render_resource_total h snap policy : joinable h → is_Some (render_resource h snap policy).
Proof.
  intros Hj. unfold render_resource, resource_url, resources_url, meta_type_url.
  destruct (proj1 Hj ("resources/" +:+ urlencode (rs_id snap))) as [self ->].
  destruct (proj1 Hj "resources") as [up ->].
  destruct (proj1 Hj ("meta/" +:+ urlencode (rs_kind snap))) as [ty ->]. simpl.
  set (e0 := with_link _ _). destruct (can_invoke_transition policy).
  - destruct (with_transitions_spec h (rs_id snap) (rs_transitions snap) e0 Hj) as (e1 & l & -> & _).
    simpl. destruct (can_stream policy); [|done].
    destruct (with_streams_spec h (rs_kind snap) (rs_id snap) (rs_streams snap) e1 Hj)
      as (e2 & l2 & -> & _). done.
  - simpl. destruct (can_stream policy); [|done].
    destruct (with_streams_spec h (rs_kind snap) (rs_id snap) (rs_streams snap) e0 Hj)
      as (e2 & l2 & -> & _). done.
Qed.
End facts.

(** ** Where a stream link leads *)

Section stream_links.
  Context {ul : UrlLib} {tl : TopicLibs} {time : TimeLib} {num : Type}.

(** A component that a topic spells literally. *)
Definition plain_part (s : string) : bool :=
  negb (str_contains "/" s) && negb (str_contains "?" s) && plain_segment s.

Lemma append_cancel_r a b s : a +:+ s = b +:+ s → a = b.
Proof.
  revert b. induction a as [|c a IH]; intros [|d b]; [done|..].
  - rewrite append_nil_l. intros E. apply (f_equal String.length) in E.
    rewrite length_append in E. simpl in E. lia.
  - rewrite append_nil_l. intros E. apply (f_equal String.length) in E.
    rewrite length_append in E. simpl in E. lia.
  - rewrite !append_String. intros [= -> E]. f_equal. by apply IH.
Qed.

(** A stream link is a subscription to the server's display name. Followed
    on its own server, its topic is a literal pattern that matches an event of
    that resource and stream exactly when the event's node id is the display
    name: on a node whose id differs from its name, which is every persisted
    node that was not given its name as id, the link never delivers. *)
Theorem stream_link_reaches (h : Hrefs) (kind id st : string) :
  forallb plain_part [h_server h; kind; id; st] = true →
  ∃ p, topic_parse (stream_topic h kind id st) = Some (Ok p) ∧ filter p = None ∧
    ∀ e : EventEnvelope num, resource_kind e = kind → resource_id e = id → stream e = st →
      (matches_topic p (topic e) = true ↔ node_id e = h_server h).
Proof.
  intros Hp. simpl in Hp. rewrite !andb_true_iff in Hp.
  assert (Hs : split_on "/" (stream_topic h kind id st) = [h_server h; kind; id; st]).
  { unfold plain_part in Hp. rewrite !andb_true_iff, !negb_true_iff in Hp. destruct_and!.
    rewrite <- (split_on_join "/" [h_server h; _; _; _]); [done|done|]. by repeat constructor. }
  unfold plain_part in Hp. rewrite !andb_true_iff, !negb_true_iff in Hp. destruct_and!.
  destruct (literal_topic_exact (stream_topic h kind id st)) as (p & Ht & Hf & _ & Hm).
  - unfold stream_topic. by destruct (h_server h).
  - unfold stream_topic. rewrite !str_contains_app. simpl. by bool_to_prop.
  - rewrite Hs. simpl. by bool_to_prop.
  - exists p. split_and!; [done..|]. intros e <- <- <-. rewrite Hm. unfold topic, stream_topic. split.
    + by intros ->%append_cancel_r.
    + by intros ->.
Qed.
End stream_links.

(** ** A concrete document *)

Module RenderExamples.
Import ListHttp StringUrl.

Definition hub : Hrefs := mk_hrefs "http://hub/" "ws://hub/" "hub".

Lemma hub_joinable : joinable hub.
Proof. split; intros p; by eexists. Qed.

Definition lamp : ResourceSnapshot N :=
  mk_snapshot "abc" "led" None (Some "on") "hub" [("id", JString "spoofed"); ("level", JNumber 7%N)] []
    [affordance_available (sync "turn-off"); affordance_unavailable (sync "turn-on") "is on"]
    [mk_snapshot_stream "state" Object] None [].


(** A node with a generated id: its own stream links miss its events. *)
Import ConcreteTime TopicExamples.

Definition event (node : string) : EventEnvelope N :=
  mk_envelope 1 "e" node "abc" "led" 1 "bw" "state" 1 (0%Z : OffsetDateTime) "k" 1
    None None None None JNull.

Lemma stream_link_reaches_witness :
  ∃ p, topic_parse (stream_topic hub "led" "abc" "state") = Some (Ok p) ∧
    matches_topic p (topic (event "hub")) = true ∧
    matches_topic p (topic (event "0b6e-uuid")) = false.
Proof.
  destruct (stream_link_reaches (num:=N) hub "led" "abc" "state") as (p & Hp & _ & Hm);
    [vm_compute; reflexivity|].
  exists p. split; [exact Hp|]. split.
  - by apply (Hm (event "hub")).
  - apply not_true_iff_false. intros H. by apply (Hm (event "0b6e-uuid")) in H.
Defined.
End RenderExamples.
