(* ===== verification/Handlers.v ===== *)
(** The local half of the HTTP routes ([http/routes.rs]): base URLs, content
    types, problem documents, and the handlers that read, query, register and
    drive resources, on top of the core and the renderer. A handler that
    panics has no response. *)

From S2P Require Import Prelude F64 Json Query Lexer Parser Topic Http Capabilities Peer Mpsc.
From S2P Require Import Resource Persistence Redb Runtime Executor Node Core Server Registrar Siren.
From S2P Require Import Gateway Render.

(** ** Responses *)

Section responses.
  Context {hl : HttpLib} {ul : UrlLib} {num : Type}.

Inductive Body :=
| Text (s : string)
| JsonBody (v : json num)
| SirenBody (e : Entity num).

Record Response := mk_response {
  rp_status : N;
  rp_content_type : string;
  rp_location : option HeaderValue;
  rp_body : Body
}.

(** [(status, text).into_response()] *)
Definition text_response (status : N) (s : string) : Response :=
  mk_response status "text/plain; charset=utf-8" None (Text s).

(** [(status, Json(body)).into_response()] *)
Definition json_response (status : N) (v : json num) : Response :=
  mk_response status "application/json" None (JsonBody v).

Definition siren_response (e : Entity num) : Response :=
  mk_response 200 SIREN_CONTENT_TYPE None (SirenBody e).

Definition problem_response (status : N) (error message : string) (field : option string) : Response :=
  mk_response status "application/problem+json" None
    (JsonBody (JObject (insert_opt "field" (JString <$> field)
      (map_insert "message" (JString message) (map_insert "error" (JString error) []))))).

Definition query_error_response (ql : string) (e : QueryError) : Response :=
  mk_response 400 "application/problem+json" None
    (JsonBody (JObject (map_insert "ql" (JString ql)
      (map_insert "message" (JString (query_error_to_string e))
        (map_insert "error" (JString "query-parse-error") []))))).

(** [is_json_content_type] and [is_form_content_type] *)
Definition has_content_type (mime : string) (headers : HeaderMap) : bool :=
  match header_str "content-type" headers with
  | Some value => match split_on ";" value with
                  | m :: _ => eq_ignore_ascii_case (trim m) mime
                  | [] => false
                  end
  | None => false
  end.
Definition is_json_content_type : HeaderMap → bool := has_content_type "application/json".
Definition is_form_content_type : HeaderMap → bool :=
  has_content_type "application/x-www-form-urlencoded".
End responses.
Arguments Body {_} num.
Arguments Response {_ _} num.

(** ** Base URLs *)

Section hrefs.
  Context {hl : HttpLib} {ul : UrlLib} {uo : UrlOps}.

Definition header_url (name : string) (headers : HeaderMap) : option Url :=
  s ← header_str name headers; match url_parse s with Ok u => Some u | Err _ => None end.

(** [build_hrefs]: the base a gateway sent, or the request's own host; [None]
    is the panic on a host that is no URL. *)
Definition build_hrefs (headers : HeaderMap) (uri : Uri) (server : string) : option Hrefs :=
  match header_url "boardwalk-external-base" headers with
  | Some http_base =>
      let ws_base := default (url_set_scheme
                       (if String.eqb (url_scheme http_base) "https" then "wss" else "ws") http_base)
                       (header_url "boardwalk-external-ws-base" headers) in
      Some (mk_hrefs http_base ws_base server)
  | None =>
      let host := default "localhost" (header_str "host" headers) in
      let scheme := match header_str "x-forwarded-proto" headers with
                    | Some s => s
                    | None => default "http" (uri_scheme_str uri)
                    end in
      let ws_scheme := if String.eqb scheme "https" then "wss" else "ws" in
      match url_parse (scheme +:+ "://" +:+ host +:+ "/"),
            url_parse (ws_scheme +:+ "://" +:+ host +:+ "/") with
      | Ok http_base, Ok ws_base => Some (mk_hrefs http_base ws_base server)
      | _, _ => None
      end
  end.
End hrefs.

(** ** Handlers *)

(** [serde_json::from_slice] and [serde_urlencoded::from_bytes] on a body. *)
Class BodyLib (num : Type) := {
  body_json : string → result string (json num);
  body_form : string → result string (list (string * string))
}.

Section handlers.
  Context {hl : HttpLib} {ul : UrlLib} {uo : UrlOps} {tl : TopicLibs} {fl : FormLib}.
  Context {num : Type} `{!SerdeNumber num, !BodyLib num} {A : Type} `{!Actor num A}.
  Context `{!Mpsc (Command num)} {S : Type} `{!ResourceSnapshotRepository num S}.
  Implicit Types (core : Core num A S) (headers : HeaderMap) (uri : Uri).
  Implicit Types (answers : string → snapshot_answer num) (now : Z).

(** A handler's outcome: [None] is a panic. *)
Definition handled : Type := option (Response num) * Core num A S.

(** A query, in the four handlers that take [?ql=]. *)
Definition query_response core h (ql : string) (policy : RenderPolicy) answers now : handled :=
  let '(r, core') := query_resources ql answers now core in
  (match r with
   | None => None
   | Some (Ok snaps) => siren_response <$> render_search_results h ql snaps policy
   | Some (Err e) => Some (query_error_response ql e)
   end, core').

(** [resources_response], shared by [resources_get] and [server_resources_get]. *)
Definition resources_response core headers uri (ql : option string) answers now : handled :=
  match build_hrefs headers uri (c_name core) with
  | None => (None, core)
  | Some h =>
      let policy := render_policy_from_headers headers in
      match ql with
      | Some ql => query_response core h ql policy answers now
      | None =>
          let '(snaps, core') := list_resources answers now core in
          (siren_response <$> render_resources h snaps policy, core')
      end
  end.

(** The local part of [server_get]. *)
Definition server_response core headers uri (ql : option string) answers now : handled :=
  match build_hrefs headers uri (c_name core) with
  | None => (None, core)
  | Some h =>
      let policy := render_policy_from_headers headers in
      match ql with
      | Some ql => query_response core h ql policy answers now
      | None =>
          let '(snaps, core') := list_resources answers now core in
          (siren_response <$> render_server h snaps policy, core')
      end
  end.

Definition unsupported_federation_query_response : Response num :=
  problem_response 400 "unsupported-federation-query"
    "federated query requires explicit policy and limits" (Some "server").

(** [peer_server_query_uri]; [None] is the panic of its [expect]. *)
Definition peer_server_query_uri (peer : string) (ql : option string) : option Uri :=
  uri_parse ("/servers/" +:+ urlencode peer
    +:+ match ql with Some q => "?" +:+ form_serialize [("ql", q)] | None => "" end).

(** What [maybe_forward_get_or_404] answers; [None] exactly for the local
    name. *)
Definition forwarder : Type := string → Uri → option (Response num).

(** [root] *)
Definition root core headers uri (ql server : option string) (peers : list PeerRenderPolicy)
    (forward : forwarder) answers now : handled :=
  match build_hrefs headers uri (c_name core) with
  | None => (None, core)
  | Some h =>
      let policy := render_policy_from_headers headers in
      let document := (siren_response <$> render_root h peers policy, core) in
      match query_scope_from_server server with
      | Federation _ _ => (Some unsupported_federation_query_response, core)
      | Local =>
          match ql with
          | Some ql => query_response core h ql policy answers now
          | None => document
          end
      | Query.Peer peer =>
          match peer_server_query_uri peer ql with
          | None => (None, core)
          | Some peer_uri =>
              match forward peer peer_uri, ql with
              | Some response, _ => (Some response, core)
              | None, Some ql =>
                  match build_hrefs headers peer_uri (c_name core) with
                  | None => (None, core)
                  | Some h => query_response core h ql policy answers now
                  end
              | None, None => document
              end
          end
      end
  end.

(** [resource_response] *)
Definition resource_response core headers uri (id : string) answers now : handled :=
  match build_hrefs headers uri (c_name core) with
  | None => (None, core)
  | Some h =>
      let policy := render_policy_from_headers headers in
      let '(r, core') := get_resource id answers now core in
      (match r with
       | None => None
       | Some (Ok (Some snapshot)) => siren_response <$> render_resource h snapshot policy
       | Some (Ok None) => Some (text_response 404 "unknown resource")
       | Some (Err ReadNotFound) => Some (text_response 404 "unknown resource")
       | Some (Err (ReadUnavailable msg)) =>
           Some (problem_response 503 "resource-unavailable" msg None)
       | Some (Err (ReadInternal msg)) => Some (text_response 500 msg)
       end, core')
  end.

(** [transition_outcome_response] *)
Definition transition_outcome_response (outcome : TransitionOutcome num) : Response num :=
  match outcome with
  | Completed output snapshot =>
      json_response 200 (JObject (map_insert "snapshot" (to_query_value snapshot)
        (map_insert "output" (default JNull output) [])))
  | Accepted job output =>
      let body := JObject (map_insert "job" (JObject (map_insert "location" (JString (aj_location job))
                    (map_insert "kind" (JString (aj_kind job)) (map_insert "id" (JString (aj_id job)) []))))
                    (map_insert "output" (default JNull output) [])) in
      if aj_created job then
        match value_from_str (aj_location job) with
        | Some value => mk_response 201 "application/json" (Some value) (JsonBody body)
        | None => problem_response 500 "invalid-job-location"
                    "accepted job returned an invalid Location header" (Some "job.location")
        end
      else json_response 202 body
  end.

(** The error arms of [transition_response]. *)
Definition transition_error_response (e : ResourceTransitionError) : Response num :=
  match e with
  | RtNotFound => problem_response 404 "resource-not-found" "unknown resource" (Some "id")
  | RtNotAllowed msg => problem_response 409 "transition-not-allowed" msg (Some "transition")
  | RtInvalidInput msg => problem_response 400 "invalid-input" msg None
  | RtConflict msg => problem_response 409 "conflict" msg None
  | RtBusy => problem_response 503 "busy" "resource actor is busy" (Some "transition")
  | RtBackpressureRequired =>
      problem_response 429 "backpressure-required" "resource actor requires caller backpressure"
        (Some "transition")
  | RtTimeout => problem_response 504 "timeout" "resource actor transition timed out"
                   (Some "transition")
  | RtUnavailable msg => problem_response 503 "resource-unavailable" msg (Some "id")
  | RtInternal msg => problem_response 500 "internal" msg None
  end.

(** The input a request carries, or the response that refuses it. *)
Definition transition_input headers (body : string) : result (Response num) (TransitionInput num) :=
  if negb (is_json_content_type headers) then
    Err (problem_response 415 "unsupported-media-type" "transition input must be application/json"
           (Some "content-type"))
  else match body_json body with
  | Err e => Err (problem_response 400 "invalid-json" e (Some "body"))
  | Ok (JObject fields) => Ok fields
  | Ok JNull => Ok []
  | Ok _ => Err (problem_response 400 "invalid-json" "transition input must be a JSON object"
                   (Some "body"))
  end.

(** [transition_response]; [outcome] and [after] are the actor's answers. *)
Definition transition_response core headers (provenance : Gateway.CallerProvenance)
    (id transition body : string) (command : CommandId)
    (outcome : TransitionCtx → TransitionInput num → result TransitionError (TransitionOutcome num))
    (after : snapshot_answer num) now : handled :=
  match transition_input headers body with
  | Err resp => (Some resp, core)
  | Ok input =>
      let ctx := with_provenance provenance (from_headers headers) in
      let '(r, core') := run_resource_transition id transition input ctx command
                           (λ c, outcome c input) after now core in
      (match r with
       | None => None
       | Some (Ok outcome) => Some (transition_outcome_response outcome)
       | Some (Err e) => Some (transition_error_response e)
       end, core')
  end.

(** [meta_response] and [meta_type_response] *)
Definition meta_response core headers uri answers : option (Response num) :=
  h ← build_hrefs headers uri (c_name core);
  siren_response <$> render_meta h (actor_specs (c_node core) answers)
    (render_policy_from_headers headers).

Definition meta_type_response core headers uri (ty : string) answers : option (Response num) :=
  h ← build_hrefs headers uri (c_name core);
  match List.find (λ spec, String.eqb (sp_kind (as_resource spec)) ty)
          (actor_specs (c_node core) answers) with
  | None => Some (text_response 404 "unknown type")
  | Some spec => siren_response <$> render_meta_type h spec
  end.

Context `{!ResourceIdentityRepository S}.

Definition registration_error_response (e : ResourceRegistrationError) : Response num :=
  match e with
  | RegInvalid msg => text_response 400 msg
  | RegConflict msg => text_response 409 msg
  | RegInternal msg => text_response 500 msg
  end.

(** The tail of [resources_post], once the resource is registered. *)
Definition registered_response core headers uri (new_id : string) answers now : handled :=
  match build_hrefs headers uri (c_name core) with
  | None => (None, core)
  | Some h =>
      let '(r, core') := get_resource new_id answers now core in
      (match r with
       | None => None
       | Some (Ok (Some snap)) =>
           e ← render_resource h snap (render_policy_from_headers headers);
           u ← resource_url h (rs_id snap);
           value ← value_from_str (url_to_string u);
           Some (mk_response 201 SIREN_CONTENT_TYPE (Some value) (SirenBody e))
       | Some (Ok None) | Some (Err ReadNotFound) =>
           Some (text_response 500 "resource missing after register")
       | Some (Err (ReadUnavailable msg)) =>
           Some (problem_response 503 "resource-unavailable" msg (Some "id"))
       | Some (Err (ReadInternal msg)) => Some (problem_response 500 "internal" msg None)
       end, core')
  end.

(** [resources_post]; [factories] is empty when registration is off. *)
Definition resources_post core (factories : gmap string (ActorFactory A)) headers uri (body : string)
    (uuid : Uuid) answers now : handled :=
  if decide (factories = ∅) then
    (Some (text_response 501 "runtime resource registration is not enabled"), core)
  else if negb (is_form_content_type headers) then
    (Some (problem_response 415 "unsupported-media-type"
       "resource registration must be application/x-www-form-urlencoded" (Some "content-type")), core)
  else match body_form body with
  | Err e => (Some (text_response 400 ("bad form: " +:+ e)), core)
  | Ok pairs =>
      let reg := registration_of pairs in
      if str_is_empty (rg_kind reg) then (Some (text_response 400 "missing `kind` field"), core)
      else
        let '(r, n, repos) :=
          register_resource factories reg uuid now answers (c_node core) (c_repositories core) in
        let core' := mk_core (c_name core) n repos in
        match r with
        | None => (None, core')
        | Some (Err e) => (Some (registration_error_response e), core')
        | Some (Ok new_id) => registered_response core' headers uri new_id answers now
        end
  end.
(** *** The [/servers/{name}] routes

    Each forwards to the peer of that name, or serves the local document. *)
Definition serve_or_forward core (forward : forwarder) (name : string) uri (local : handled) : handled :=
  match forward name uri with
  | Some response => (Some response, core)
  | None => local
  end.

Definition server_get core forward (name : string) headers uri ql answers now : handled :=
  serve_or_forward core forward name uri (server_response core headers uri ql answers now).
Definition server_resources_get core forward (name : string) headers uri ql answers now : handled :=
  serve_or_forward core forward name uri (resources_response core headers uri ql answers now).
Definition server_resource_get core forward (name id : string) headers uri answers now : handled :=
  serve_or_forward core forward name uri (resource_response core headers uri id answers now).
Definition meta_get core forward (name : string) headers uri answers : handled :=
  serve_or_forward core forward name uri (meta_response core headers uri answers, core).
Definition meta_type_get core forward (name ty : string) headers uri answers : handled :=
  serve_or_forward core forward name uri (meta_type_response core headers uri ty answers, core).

(** [forward_post] answers for the POST; it has none for the local name. *)
Definition server_resource_transition_post core (forward_post : option (Response num))
    (name : string) (tunnel_leg : bool) headers (id transition body : string) (command : CommandId)
    outcome (after : snapshot_answer num) now : handled :=
  if negb (String.eqb name (c_name core)) then
    (Some (default (text_response 404 "unknown server") forward_post), core)
  else transition_response core headers (caller_provenance tunnel_leg headers) id transition body
         command outcome after now.

Definition events_unsubscribe core (forward_post : option (Response num)) (name : string) : Response num :=
  if negb (String.eqb name (c_name core)) then
    default (text_response 404 "unknown server") forward_post
  else text_response 202 "".
End handlers.

(** ** Facts *)

Section facts.
  Context {hl : HttpLib} {ul : UrlLib} {uo : UrlOps} {tl : TopicLibs} {fl : FormLib}.
  Context {num : Type} `{!SerdeNumber num, !BodyLib num} {A : Type} `{!Actor num A}.
  Context `{!Mpsc (Command num)} {S : Type} `{!ResourceSnapshotRepository num S}.
  Implicit Types (core : Core num A S) (headers : HeaderMap) (uri : Uri).
  Implicit Types (answers : string → snapshot_answer num) (now : Z).

(** The status of an actor's error, as a client sees it. *)
Definition error_status (e : TransitionError) : N :=
  match e with
  | TNotAllowed _ | TConflict _ => 409
  | TInvalidInput _ => 400
  | TBusy => 503
  | TBackpressureRequired => 429
  | TTimeout => 504
  | TResourceNotFound _ => 404
  | TInternal _ => 500
  end.

Definition read_error_status (e : ResourceError) : N :=
  match e with RNotFound _ => 404 | RUnavailable _ => 503 | RInternal _ => 500 end.

(** A response that reports a problem. *)
Definition is_problem (r : Response num) : Prop :=
  rp_content_type r = "application/problem+json" ∧ (400 ≤ rp_status r)%N.

Lemma transition_error_problem e : is_problem (transition_error_response e).
Proof. by destruct e. Qed.


(** Reading never fails for want of a document. On a well-formed node and
    bases that take relative paths, the listing, the search and the resource
    handler panic exactly when [build_hrefs] does: when no usable external base
    was sent and the scheme and host of the request do not spell a URL, which a
    client controls through [Host] and [X-Forwarded-Proto]. *)
Theorem reads_panic_iff core headers uri (id : string) (ql : option string) answers now :
  directory_wf (n_directory (c_node core)) →
  (∀ h, build_hrefs headers uri (c_name core) = Some h → joinable h) →
  ((resource_response core headers uri id answers now).1 = None
     ↔ build_hrefs headers uri (c_name core) = None) ∧
  ((resources_response core headers uri ql answers now).1 = None
     ↔ build_hrefs headers uri (c_name core) = None).
Proof.
  intros Hd Hj. unfold resource_response, resources_response.
  destruct (build_hrefs headers uri (c_name core)) as [h|]; [|done].
  specialize (Hj h eq_refl). set (policy := render_policy_from_headers headers).
  split; (split; [|done]).
  - unfold get_resource, resource_snapshot. pose proof (get_by_id_spec id _ Hd) as Hg.
    destruct (get_by_id id (n_directory (c_node core))) as [[e|]|]; [|done..].
    destruct (entry_snapshot e (n_id (c_node core)) (answers (e_id e))) as [snap|err].
    + simpl. by destruct (render_resource_total h snap policy Hj) as [d ->].
    + destruct err as [?|msg|?]; try done. unfold snapshot_from_repository_or_unavailable.
      destruct (latest_resource_snapshot id (c_repositories core)) as [[[snap|]|] os]; try done.
      simpl. by destruct (render_resource_total h snap policy Hj) as [d ->].
  - destruct ql as [ql|].
    + unfold query_response, query_resources.
      destruct (parse_total ql) as [r ->]. destruct r as [q|]; [|done].
      destruct (list_resources answers now core) as [snaps core'].
      destruct (query_snapshots_spec q snaps) as (l & -> & _). simpl.
      by destruct (render_search_results_total (num:=num) h ql l policy Hj) as [d ->].
    + destruct (list_resources answers now core) as [snaps core']. simpl.
      by destruct (render_resources_total (num:=num) h snaps policy Hj) as [d ->].
Qed.
End facts.

(** ** Retried registrations *)

Section registration.
  Context {hl : HttpLib} {laws : HttpLaws} {ul : UrlLib} {uo : UrlOps} {tl : TopicLibs}.
  Context {num : Type} `{!SerdeNumber num, !BodyLib num} {A : Type} `{!Actor num A}.
  Context `{!Mpsc (Command num)} {S : Type} `{!ResourceIdentityRepository S}.
  Context `{!ResourceIdentityLaws S, !ResourceIdentityReliable S}.
  Context `{!ResourceSnapshotRepository num S, !SnapshotFrame num S}.
  Implicit Types (core : Core num A S) (headers : HeaderMap) (uri : Uri).
  Implicit Types (answers : string → snapshot_answer num) (now : Z).

(** A store that still has the identities [m]. *)
Definition keeps m (o : option S) : Prop := ∃ s, o = Some s ∧ id_healthy s ∧ id_state s m.

Lemma persist_keeps m snap now (o : option S) :
  keeps m o → keeps m (persist_latest_resource_snapshot (num:=num) snap now o).
Proof.
  intros (s & -> & Hh & Hs). unfold persist_latest_resource_snapshot.
  destruct (sn_latest_frame s m (rs_id snap) Hh Hs) as [Hh1 Hs1].
  destruct (sn_latest (rs_id snap) s) as [r s1]; simpl in *. case_match.
  - by exists s1.
  - eexists. split; [done|]. by apply sn_upsert_frame.
Qed.

Lemma get_resource_keeps m id answers now core :
  keeps m (c_repositories core) →
  c_node (get_resource id answers now core).2 = c_node core ∧
  keeps m (c_repositories (get_resource id answers now core).2).
Proof.
  intros Hk. unfold get_resource.
  destruct (resource_snapshot (c_node core) answers id) as [[[snap|]|[]]|]; try done.
  - split; [done|]. by apply persist_keeps.
  - unfold snapshot_from_repository_or_unavailable, latest_resource_snapshot.
    destruct Hk as (s & -> & Hh & Hs). destruct (sn_latest_frame s m id Hh Hs) as [Hh1 Hs1].
    destruct (sn_latest id s) as [r s1]; simpl in *. split; [done|]. by exists s1.
Qed.

(** A registration form that was answered 201 and is sent again is answered
    409, and the second request leaves the node as it was: on a working store a
    retry cannot create a second resource. *)
Theorem register_post_retry core (factories : gmap string (ActorFactory A)) headers uri
    (body : string) (uuid uuid' : Uuid) answers answers' now now' s m resp core1 :
  node_wf (c_node core) → c_repositories core = Some s →
  id_healthy s → id_state s m → canonical m →
  resources_post core factories headers uri body uuid answers now = (Some resp, core1) →
  rp_status resp = 201%N →
  ∃ resp' core2, resources_post core1 factories headers uri body uuid' answers' now'
    = (Some resp', core2) ∧ rp_status resp' = 409%N ∧ c_node core2 = c_node core1.
Proof.
  intros Hn Hrep Hh Hs Hc. unfold resources_post.
  destruct (decide (factories = ∅)); [by intros [= <- <-]|].
  destruct (negb (is_form_content_type headers)); [by intros [= <- <-]|].
  destruct (body_form body) as [pairs|]; [|by intros [= <- <-]].
  set (reg := registration_of pairs). destruct (str_is_empty (rg_kind reg)); [by intros [= <- <-]|].
  rewrite Hrep.
  destruct (register_resource factories reg uuid now answers (c_node core) (Some s))
    as [[[[id|e]|] n1] os1] eqn:Er; [| |done].
  2: { intros [= <- <-]. by destruct e. }
  destruct (registered_facts _ _ _ _ _ _ _ _ _ _ _ Hn Hh Hs Hc Er)
    as (factory & actor & str & u & s1 & m1 & Hf & Ha & Hp & -> & -> & Hh1 & Hs1 & Has & _ & Hin).
  set (core' := mk_core (c_name core) n1 (Some s1)). intros Hrun _.
  assert (c_node core1 = n1 ∧ keeps m1 (c_repositories core1)) as [Hnode (s2 & -> & Hh2 & Hs2)].
  { unfold registered_response in Hrun. destruct (build_hrefs _ _ _); [|done].
    destruct (get_resource_keeps m1 (uuid_to_string u) answers now core') as [Hk1 Hk2]; [by exists s1|].
    destruct (get_resource _ answers now core') as [r core2]. by injection Hrun as _ <-. }
  destruct (register_again factories reg factory actor str u uuid' now' answers' n1 s2 m1)
    as (msg & os & E); [done..|].
  rewrite Hnode, E. by eexists _, _.
Qed.
End registration.

(** ** The theorems at concrete requests *)

Module HandlersExamples.
Import ListHttp TopicExamples.
#[local] Existing Instance ListChannel.mpsc.
#[local] Existing Instance CoreExamples.n_number.

(** URLs without blanks. *)
#[local] Instance url_lib : UrlLib := {|
  Url := string;
  url_parse := λ s, if str_contains " " s then Err "invalid international domain name" else Ok s;
  url_scheme := λ _, "http";
  url_host_str := λ _, None;
  url_port_or_known_default := λ _, None;
  url_username := λ _, "";
  url_password := λ _, None;
  urldecode := Ok
|}.
#[local] Instance url_ops : UrlOps := {|
  url_join := λ p u, Some (u +:+ p);
  url_append_pair := λ k v u, u +:+ "?" +:+ k +:+ "=" +:+ v;
  url_set_scheme := λ _ u, u;
  url_to_string := λ u, u
|}.
(** Bodies: the empty object, and forms that name a lamp. *)
#[local] Instance body_lib : BodyLib N := {|
  body_json := λ s, if String.eqb s "{}" then Ok (JObject []) else Err "expected value";
  body_form := λ s, Ok [("kind", "led"); ("name", s)]
|}.

Definition request (host content_type : string) : HeaderMap :=
  hm_append "content-type" content_type (hm_append "host" host hm_new).
Definition here : Uri := ("/resources", None).

Module Reads.
#[local] Existing Instance ExecutorExamples.counter.


(** Actor errors keep their status on the way to the client. *)
Example busy_is_503 :
  rp_status <$> (transition_response CoreExamples.core1 (request "hub" "application/json; charset=utf-8")
    Gateway.provenance_default "c-1" "bump" "{}" "cmd" (λ _ _, Err TBusy) (Err (RInternal "x")) 0).1
  = Some 503%N.
Proof. vm_compute. reflexivity. Qed.

Lemma reads_panic_iff_witness :
  (resource_response CoreExamples.core1 (request "a b" "") here "c-1" CoreExamples.gone 0).1 = None ∧
  (resources_response CoreExamples.core1 (request "a b" "") here None CoreExamples.gone 0).1 = None.
Proof.
  destruct (reads_panic_iff CoreExamples.core1 (request "a b" "") here "c-1" None CoreExamples.gone 0
    CoreExamples.node1_wf) as [H1 H2].
  - vm_compute (build_hrefs _ _ _). discriminate.
  - split; [apply H1|apply H2]; vm_compute; reflexivity.
Defined.
End Reads.

Module Registration.
#[local] Existing Instance ServerExamples.device.
#[local] Existing Instance RedbExamples.db.
#[local] Existing Instance RedbExamples.db_laws.
#[local] Existing Instance RedbExamples.db_reliable.
#[local] Existing Instance RegistrarExamples.identity_codec.
#[local] Existing Instance RegistrarExamples.identity_codec_laws.
#[local] Existing Instance RegistrarExamples.identity_codec_total.
#[local] Existing Instance RegistrarExamples.snapshot_codec.

Definition core0 : Core N (string * option string) (Database RegistrarExamples.row) :=
  core_from "hub" RegistrarExamples.hub (Some RegistrarExamples.file).
Definition awake : string → snapshot_answer N := λ _, Ok (builder "led").
Definition form : HeaderMap := request "hub" "application/x-www-form-urlencoded".

Definition status (r : handled (num:=N) (A:=string * option string) (S:=Database RegistrarExamples.row))
    : option N := rp_status <$> r.1.

Example first_post :
  status (resources_post core0 RegistrarExamples.lamps form here "desk" 3 awake 0) = Some 201%N.
Proof. vm_compute. reflexivity. Qed.

Lemma register_post_retry_witness :
  ∃ resp core1 resp' core2,
    resources_post core0 RegistrarExamples.lamps form here "desk" 3 awake 0 = (Some resp, core1) ∧
    rp_status resp = 201%N ∧
    resources_post core1 RegistrarExamples.lamps form here "desk" 5 awake 9 = (Some resp', core2) ∧
    rp_status resp' = 409%N.
Proof.
  pose proof first_post as Hst.
  destruct (resources_post core0 RegistrarExamples.lamps form here "desk" 3 awake 0)
    as [[resp|] core1] eqn:E; [|discriminate Hst].
  injection Hst as Hst.
  destruct (register_post_retry core0 RegistrarExamples.lamps form here "desk" 3 5 awake awake 0 9
    RegistrarExamples.file ∅ resp core1) as (resp' & core2 & E' & Hst' & _).
  - apply node_new_wf.
  - reflexivity.
  - apply RegistrarExamples.empty_file_healthy.
  - apply RegistrarExamples.empty_file_state.
  - apply RegistrarExamples.empty_file_canonical.
  - exact E.
  - exact Hst.
  - exists resp, core1, resp', core2. exact (conj eq_refl (conj Hst (conj E' Hst'))).
Defined.
End Registration.
End HandlersExamples.
