(* ===== verification/EventStream.v ===== *)
(** The NDJSON event stream of [http/routes.rs]: the query of
    [GET /servers/{name}/events], replay from the cache, the splice of replayed
    and live events, and the line an event is written as. *)

From S2P Require Import Prelude F64 Json Query Lexer Parser Topic Envelope Sequencer Replay Policy.
From S2P Require Import CoalesceQueue Mpsc Bus BusSpec BusProps.
From S2P Require Import Capabilities Http Peer Resource Siren Gateway Render Handlers.

(** [serde_json::Number] and [i64]. *)
Class SerdeInt (num : Type) := {
  num_of_i64 : Z → num;
  num_as_i64 : num → option Z
}.

(** ** The query *)

Record EventsQuery := mk_events_query {
  eq_topic : option string;
  eq_outbound_capacity : option N;
  eq_replay : bool;
  eq_slow_consumer_policy : option string;
  eq_coalesce_key : option string
}.

(** [usize::from_str]: an optional plus sign and decimal digits below [2^64]. *)
Fixpoint parse_digits (s : string) (acc : N) : option N :=
  match s with
  | EmptyString => Some acc
  | String c s' =>
      if is_ascii_digit c then
        let acc' := (acc * 10 + (byte_code c - 48))%N in
        if (acc' <? 2 ^ 64)%N then parse_digits s' acc' else None
      else None
  end.

Definition parse_usize (s : string) : option N :=
  let digits := match s with String "+" s' => s' | _ => s end in
  if str_is_empty digits then None else parse_digits digits 0.

(** One field of the derived [Deserialize]: absent, given once, or refused. *)
Definition field_once (key : string) (pairs : list (string * string)) : result string (option string) :=
  match base.filter (λ kv, kv.1 = key) pairs with
  | [] => Ok None
  | [kv] => Ok (Some kv.2)
  | _ => Err ("duplicate field `" +:+ key +:+ "`")
  end.

Definition parse_bool (s : string) : option bool :=
  if String.eqb s "true" then Some true
  else if String.eqb s "false" then Some false else None.

Definition opt_parse {A} (f : string → option A) (o : option string) : result string (option A) :=
  match o with
  | None => Ok None
  | Some s => match f s with Some a => Ok (Some a) | None => Err "invalid value" end
  end.

(** [Query<EventsQuery>] on the decoded pairs; fields it does not know are
    ignored. *)
Definition events_query_of (pairs : list (string * string)) : result string EventsQuery :=
  let? topic := field_once "topic" pairs in
  let? capacity := field_once "outboundCapacity" pairs in
  let? capacity := opt_parse parse_usize capacity in
  let? replay := field_once "replay" pairs in
  let? replay := opt_parse parse_bool replay in
  let? policy := field_once "slowConsumerPolicy" pairs in
  let? key := field_once "coalesceKey" pairs in
  Ok (mk_events_query topic capacity (default false replay) policy key).

(** [subscribe_opts_from_query]; the text of the error is left out. *)
Definition subscribe_opts_from_query (q : EventsQuery)
    : result SlowConsumerPolicyQueryError SubscribeOpts :=
  let policy_name := default "disconnect" (eq_slow_consumer_policy q) in
  let? policy := from_query policy_name (eq_coalesce_key q) in
  Ok (mk_opts None (N.to_nat <$> eq_outbound_capacity q) policy).

(** ** Replay *)

Section stream.
  Context {tl : TopicLibs} {time : TimeLib} {num : Type} `{!SerdeNumber num, !SerdeInt num}.
  Implicit Types (ev : EventEnvelope num).

(** [stream_id_from_concrete_pattern] *)
Definition stream_id_from_concrete_pattern (p : TopicPattern) : option StreamId :=
  match segments p with
  | [Literal node; Literal kind; Literal resource; Literal st] =>
      if str_is_empty node || str_is_empty kind || str_is_empty resource || str_is_empty st
      then None
      else Some (for_resource node resource st)
  | _ => None
  end.

(** [ndjson_event_line], as the value that is printed on the line. *)
Definition ndjson_event_line ev : json num :=
  JObject (map_insert "topic" (JString (topic ev))
    (map_insert "timestamp" (JNumber (num_of_i64 (timestamp_ms ev)))
    (map_insert "data" (data ev)
    (map_insert "eventId" (JString (event_id ev))
    (map_insert "streamId" (JString (stream_id ev))
    (map_insert "sequence" (JNumber (num_of_u64 (sequence ev)))
    (map_insert "nodeId" (JString (node_id ev))
    (map_insert "resourceId" (JString (resource_id ev))
    (map_insert "resourceKind" (JString (resource_kind ev))
    (map_insert "payloadKind" (JString (payload_kind ev))
    (map_insert "payloadVersion" (JNumber (num_of_u64 (payload_version ev)))
    (map_insert "envelopeVersion" (JNumber (num_of_u64 (envelope_version ev)))
    (map_insert "isoTimestamp" (from_option JString JNull (format_rfc3339 (timestamp ev)))
    (map_insert "stream" (JString (stream ev)) [])))))))))))))).

(** The final line of a terminated stream. *)
Definition stream_gap_line (now : Z) (n : SlowConsumerNotice) : json num :=
  JObject (map_insert "type" (JString "stream-gap")
    (map_insert "timestamp" (JNumber (num_of_i64 now))
    (map_insert "streamId" (from_option JString JNull (sc_stream_id n))
    (map_insert "lastDeliveredSequence"
       (from_option (λ s, JNumber (num_of_u64 s)) JNull (sc_last_delivered_sequence n))
    (map_insert "reason" (JString (sc_reason n)) (map_insert "terminated" (JBool true) [])))))).

(** What the stream writes. *)
Inductive Line := EventLine (ev : EventEnvelope num) | GapLine (n : SlowConsumerNotice).

Definition line_value (now : Z) (l : Line) : json num :=
  match l with EventLine ev => ndjson_event_line ev | GapLine n => stream_gap_line now n end.

(** What one round of the [select!] finds: the notice, which is polled first
    ([None] when its sender was dropped), or the next envelope ([None] when the
    subscription is closed). *)
Inductive poll := PNotice (n : option SlowConsumerNotice) | PRecv (e : option (EventEnvelope num)).

(** The loop after the replay, on the rounds it takes. *)
Fixpoint stream_live (replayed : list EventId) (polls : list poll) : list Line :=
  match polls with
  | [] => []
  | PNotice (Some n) :: _ => [GapLine n]
  | PNotice None :: _ => []
  | PRecv None :: _ => []
  | PRecv (Some ev) :: polls' =>
      if bool_decide (event_id ev ∈ replayed)
      then stream_live (base.filter (λ id, id ≠ event_id ev) replayed) polls'
      else EventLine ev :: stream_live replayed polls'
  end.

Definition stream_body (replay : list (EventEnvelope num)) (polls : list poll) : list Line :=
  map EventLine replay ++ stream_live (map event_id replay) polls.

(** The consumer's end: the notice and the queue. *)
Record Rx := mk_rx {
  rx_notice : option (option SlowConsumerNotice);
  rx_queue : list (EventEnvelope num);
  rx_closed : bool
}.

(** [biased]: a notice that is ready wins over queued envelopes. *)
Definition poll_rx (rx : Rx) : option (poll * Rx) :=
  match rx_notice rx with
  | Some n => Some (PNotice n, rx)
  | None =>
      match rx_queue rx with
      | ev :: q => Some (PRecv (Some ev), mk_rx None q (rx_closed rx))
      | [] => if rx_closed rx then Some (PRecv None, rx) else None
      end
  end.

(** The rounds until the consumer has to wait or stops. *)
Fixpoint polls_of (fuel : nat) (rx : Rx) : list poll :=
  match fuel with
  | O => []
  | S fuel' =>
      match poll_rx rx with
      | Some (PRecv (Some ev), rx') => PRecv (Some ev) :: polls_of fuel' rx'
      | Some (p, _) => [p]
      | None => []
      end
  end.
End stream.
Arguments Line {_} num.
Arguments poll {_} num.
Arguments Rx {_} num.

(** ** The handler *)

Section handler.
  Context {hl : HttpLib} {ul : UrlLib} {tl : TopicLibs} {time : TimeLib} {num : Type}.
  Context `{!SerdeNumber num, !SerdeInt num}.
  Context (topic_error_text : TopicParseError → string).
  Context (policy_error_text : SlowConsumerPolicyQueryError → string).

(** [server_events_stream] up to the subscription: what it subscribes to and
    replays, or the response that refuses; [None] is a panic. *)
Definition events_request (q : EventsQuery)
    : option (result (Response num) (TopicPattern * SubscribeOpts * option StreamId)) :=
  match eq_topic q with
  | None => Some (Err (text_response 400 "missing ?topic="))
  | Some topic =>
      match topic_parse topic with
      | None => None
      | Some (Err e) => Some (Err (text_response 400 ("topic: " +:+ topic_error_text e)))
      | Some (Ok pattern) =>
          let sid := stream_id_from_concrete_pattern pattern in
          if eq_replay q && negb (bool_decide (is_Some sid)) then
            Some (Err (problem_response 400 "invalid_replay_topic"
              "replay=true requires a concrete topic=node/kind/resource/stream" (Some "topic")))
          else
            match subscribe_opts_from_query q with
            | Err e => Some (Err (problem_response 400 "invalid_slow_consumer_policy"
                         (policy_error_text e) (Some "slowConsumerPolicy")))
            | Ok opts => Some (Ok (pattern, opts, if eq_replay q then sid else None))
            end
      end
  end.

(** The events replayed for a subscription, from the cache at that moment. *)
Definition replay_for (sid : option StreamId) (c : ReplayCache num) : list (EventEnvelope num) :=
  match sid with Some s => events_after s 0 c | None => [] end.
End handler.

(** ** Facts *)

Lemma digit_value d : (d < 10)%N →
  is_ascii_digit (pretty.pretty_N_char d) = true ∧ (byte_code (pretty.pretty_N_char d) - 48 = d)%N.
Proof.
  intros H. assert (d ∈ [0;1;2;3;4;5;6;7;8;9]%N) as Hd.
  { rewrite !elem_of_cons. lia. }
  rewrite !elem_of_cons, elem_of_nil in Hd. by destruct_or?; subst; vm_compute.
Qed.

Lemma parse_digits_pretty_go (x : N) (s : string) :
  (x < 2 ^ 64)%N → parse_digits (pretty.pretty_N_go x s) 0 = parse_digits s x.
Proof.
  revert s. induction (N.lt_wf_0 x) as [x _ IH]; intros s Hx.
  destruct (decide (0 < x)%N) as [Hpos|Hzero].
  - rewrite pretty.pretty_N_go_step by done.
    assert (x `div` 10 < x)%N by (apply N.div_lt; lia).
    rewrite IH by (done || lia). simpl.
    destruct (digit_value (x `mod` 10)) as [-> ->]; [by apply N.mod_lt|].
    replace (x `div` 10 * 10 + x `mod` 10)%N with x by (pose proof (N.div_mod x 10); lia).
    by rewrite (proj2 (N.ltb_lt _ _) Hx).
  - assert (x = 0%N) as -> by lia. by rewrite pretty.pretty_N_go_0.
Qed.

Lemma parse_usize_pretty (n : N) : (n < 2 ^ 64)%N → parse_usize (pretty n) = Some n.
Proof.
  intros Hn. unfold parse_usize.
  assert (Hd : parse_digits (pretty n) 0 = Some n).
  { destruct (decide (n = 0%N)) as [->|Hne]; [done|].
    assert (pretty n = pretty.pretty_N_go n "") as ->.
    { unfold pretty, pretty.pretty_N. by rewrite decide_False. }
    by rewrite parse_digits_pretty_go. }
  destruct (pretty n) as [|c s] eqn:E.
  - simpl in Hd. injection Hd as <-. done.
  - destruct (ascii_dec c "+") as [->|Hc]; [done|].
    assert (match String c s with String "+" s' => s' | _ => String c s end = String c s) as ->.
    { destruct c as [[] [] [] [] [] [] [] []]; done. }
    done.
Qed.

(** *** Links and queries *)

(** A typed subscription link says what it was built for. The query of the
    link parses back to the topic, the replay flag and the slow-consumer
    policy it was given, and to a queue of the capacity it was given: options
    at their default are left out and come back as the default. *)
Theorem subscription_url_roundtrip {fl : FormLib} {flaws : FormLaws} (u : SubscriptionUrl) :
  policy_wf (su_slow_consumer_policy u) →
  (∀ c, su_outbound_capacity u = Some c → (c < 2 ^ 64)%N) →
  ∃ q opts, events_query_of (form_parse (form_serialize (su_pairs u))) = Ok q ∧
    subscribe_opts_from_query q = Ok opts ∧
    eq_topic q = Some (su_topic u) ∧ eq_replay q = su_replay u ∧
    slow_consumer_policy opts = su_slow_consumer_policy u ∧ limit opts = None ∧
    resolved_outbound_capacity opts
      = default DEFAULT_OUTBOUND_CAPACITY (N.to_nat <$> su_outbound_capacity u).
Proof.
  intros Hp Hcap. rewrite form_roundtrip. destruct u as [node tp cap rep p]. simpl in *.
  assert (Hpol : from_query (default "disconnect" (match p with Disconnect => None
      | _ => Some (query_value p).1 end)) (query_value p).2 = Ok p).
  { destruct p as [| | |path]; [done..|]. unfold from_query. simpl. by rewrite Hp. }
  exists (mk_events_query (Some tp)
    (match cap with Some c => if (c =? 64)%N then None else Some c | None => None end) rep
    (match p with Disconnect => None | _ => Some (query_value p).1 end) (query_value p).2),
    (mk_opts None (N.to_nat <$>
      match cap with Some c => if (c =? 64)%N then None else Some c | None => None end) p).
  split_and!; try done.
  - unfold su_pairs. simpl.
    destruct cap as [c|]; [|by destruct rep, p].
    destruct (N.eqb_spec c 64) as [->|Hc]; [by destruct rep, p|].
    change (N.of_nat DEFAULT_OUTBOUND_CAPACITY) with 64%N. rewrite (proj2 (N.eqb_neq c 64) Hc).
    assert (Hu : opt_parse parse_usize (Some (pretty c)) = Ok (Some c)).
    { unfold opt_parse. by rewrite parse_usize_pretty by auto. }
    unfold events_query_of. generalize dependent (pretty c). intros text Hu.
    transitivity (let? cap := opt_parse parse_usize (Some text) in
      Ok (mk_events_query (Some tp) cap rep (match p with Disconnect => None
        | _ => Some (query_value p).1 end) (query_value p).2)); [by destruct rep, p|by rewrite Hu].
  - unfold subscribe_opts_from_query. simpl. by rewrite Hpol.
  - unfold resolved_outbound_capacity. simpl. destruct cap as [c|]; [|done].
    by destruct (N.eqb_spec c 64) as [->|Hc].
Qed.

(** *** The splice *)

Section splice.
  Context {tl : TopicLibs} {time : TimeLib} {num : Type} `{!SerdeNumber num, !SerdeInt num}.
  Implicit Types (ev : EventEnvelope num) (l : list (EventEnvelope num)).

Lemma filter_agree {A} (P Q : A → Prop) `{!∀ x, Decision (P x), !∀ x, Decision (Q x)} (l : list A) :
  Forall (λ x, P x ↔ Q x) l → base.filter P l = base.filter Q l.
Proof.
  induction 1 as [|x l Hx Hl IH]; [done|]. rewrite !filter_cons, IH.
  repeat case_decide; naive_solver.
Qed.

Lemma filter_all_true {A} (P : A → Prop) `{!∀ x, Decision (P x)} (l : list A) :
  Forall P l → base.filter P l = l.
Proof.
  induction 1 as [|x l Hx Hl IH]; [done|]. rewrite filter_cons, decide_True by done. by rewrite IH.
Qed.

Lemma filter_all_false {A} (P : A → Prop) `{!∀ x, Decision (P x)} (l : list A) :
  Forall (λ x, ¬ P x) l → base.filter P l = [].
Proof.
  induction 1 as [|x l Hx Hl IH]; [done|]. rewrite filter_cons, decide_False by done. by rewrite IH.
Qed.

Definition received l : list (poll num) := map (λ ev, PRecv (Some ev)) l.

Lemma stream_live_filter (ids : list EventId) l :
  NoDup (map event_id l) →
  stream_live ids (received l) = map EventLine (base.filter (λ ev, event_id ev ∉ ids) l).
Proof.
  revert ids. induction l as [|ev l IH]; intros ids Hnd; [done|].
  apply NoDup_cons in Hnd as [Hni Hnd]. simpl. rewrite filter_cons.
  case_bool_decide as Hin.
  - rewrite decide_False by (by intros H; apply H). rewrite IH by done. f_equal.
    apply filter_agree. apply Forall_forall. intros ev' Hev'.
    rewrite list_elem_of_filter. split; [|naive_solver]. intros H1 H2. apply H1. split; [|done].
    intros E. apply Hni. rewrite <- E. by apply list_elem_of_fmap_2.
  - rewrite decide_True by done. simpl. by rewrite IH.
Qed.


(** Replay looks only at the node, the resource and the stream. A concrete
    topic selects its stream whatever the kind segment says and whatever query
    filter it carries, so the events replayed for it need not match it. *)
Theorem replay_ignores_kind_and_filter (node kind resource st : string) (flt : option Query)
    (text : string) (c : ReplayCache num) :
  str_is_empty node = false → str_is_empty kind = false → str_is_empty resource = false →
  str_is_empty st = false →
  replay_for (stream_id_from_concrete_pattern
    (mk_topic_pattern [Literal node; Literal kind; Literal resource; Literal st] flt text)) c
  = events_after (for_resource node resource st) 0 c.
Proof.
  intros H1 H2 H3 H4. unfold stream_id_from_concrete_pattern. simpl. by rewrite H1, H2, H3, H4.
Qed.
End splice.

(** ** The theorems at concrete streams *)

Module EventStreamExamples.
Import ConcreteNumber ConcreteTime TopicExamples ListChannel BusExamples.

(** A query string that keeps its pairs. *)
#[export] Instance form_lib : FormLib := {|
  form_serialize := λ l, ListHttp.unary (Pos.to_nat (encode l));
  form_parse := λ s, default [] (decode (Pos.of_nat (String.length s)))
|}.
#[export] Instance form_laws : FormLaws.
Proof. intros l. simpl. by rewrite ListHttp.unary_length, Pos2Nat.id, decode_encode. Qed.

Definition progress : SubscriptionUrl :=
  su_slow_consumer (Coalesce ["data"; "jobId"]) (su_with_replay true (su_with_capacity 16
    (url_for_resource "runner" "job" "job-1" "progress"))).

Lemma subscription_url_roundtrip_witness :
  ∃ q opts, events_query_of (form_parse (form_serialize (su_pairs progress))) = Ok q ∧
    subscribe_opts_from_query q = Ok opts ∧ eq_topic q = Some "runner/job/job-1/progress" ∧
    slow_consumer_policy opts = Coalesce ["data"; "jobId"] ∧ resolved_outbound_capacity opts = 16.
Proof.
  destruct (subscription_url_roundtrip progress) as (q & opts & H1 & H2 & H3 & _ & H5 & _ & H7).
  - vm_compute. reflexivity.
  - intros c [= <-]. vm_compute. reflexivity.
  - exists q, opts. exact (conj H1 (conj H2 (conj H3 (conj H5 H7)))).
Defined.

Definition seen (l : list (Line number)) : list N :=
  omap (λ x, match x with EventLine ev => Some (sequence ev) | GapLine _ => None end) l.


(** The query of a replayed topic does not filter the replay. *)
Lemma replay_ignores_kind_and_filter_witness :
  ∃ p c, p = mk_topic_pattern [Literal "hub"; Literal "door"; Literal "abc"; Literal "state"] None
               "hub/door/abc/state" ∧
    map (λ ev : EventEnvelope number, matches_topic p (topic ev)) (replay_for (stream_id_from_concrete_pattern p) c) = [false].
Proof.
  eexists _, (record_all [ReplayExamples.env (for_resource "hub" "abc" "state") "e-1" 1]
                (replay_new 4) registry_new).1.
  split; [reflexivity|].
  rewrite (replay_ignores_kind_and_filter (num:=number) "hub" "door" "abc" "state" None) by reflexivity.
  vm_compute. reflexivity.
Defined.

(** A subscriber with a queue of two that never got to read. *)
Definition slow0 : EventBus number := subscribed bus0 (opts None 2 Disconnect).
Definition slow3 : option (EventBus number) :=
  '(_, b) ← published 1 [1]%N slow0; '(_, b) ← published 2 [1]%N b;
  '(_, b) ← published 3 [1]%N b; Some b.

(** A gap can overstate what was delivered. After three events for a
    subscriber that has read none and whose queue holds two, the notice names
    sequence 2 as the last one delivered; both queued events are dropped, and
    the body is the gap line alone. *)
Theorem gap_overstates_delivery :
  ∃ b n, slow3 = Some b ∧ notices b !! 1%N = Some n ∧
    sc_last_delivered_sequence n = Some 2%N ∧
    (chan_contents <$> chans b !! 1%N) = Some [event 1; event 2] ∧
    ∀ ids fuel, stream_live ids (polls_of (S fuel) (mk_rx (Some (Some n)) [event 1; event 2] true))
      = [GapLine n].
Proof.
  assert ((λ b, sc_last_delivered_sequence <$> notices b !! 1%N) <$> slow3 = Some (Some (Some 2%N))) as Hn
    by (vm_compute; reflexivity).
  assert ((λ b, chan_contents <$> chans b !! 1%N) <$> slow3 = Some (Some [event 1; event 2])) as Hc
    by (vm_compute; reflexivity).
  destruct slow3 as [b|]; [|discriminate Hn]. injection Hn as Hn. injection Hc as Hc.
  destruct (notices b !! 1%N) as [n|] eqn:E; [|discriminate Hn]. injection Hn as Hn.
  exists b, n. split_and!; [done|done|done|done|]. by intros ids [|fuel].
Qed.
End EventStreamExamples.
