(* ===== verification/PeerStreams.v ===== *)
(** Shared peer event streams ([http/peer_streams.rs]): one upstream request
    per peer and topic, reference counted, and the framing of its NDJSON body.
    Values are parsed by [serde_json], a parameter. *)

From S2P Require Import Prelude F64 Json Http Sequencer.

(** ** Framing *)

(** [serde_json::from_slice] and [to_string] on a value. *)
Class JsonText (num : Type) := {
  json_parse : string → result string (json num);
  json_print : json num → string
}.

Definition newline : ascii := "010".

(** A frame of the response body; trailers carry no data. *)
Inductive Frame := Data (bytes : string) | Trailers | BodyError.

Section framing.
  Context {num : Type} `{!JsonText num}.

(** [while let Some(nl) = buf.iter().position(..)]: the complete lines of the
    buffer and what is left; every round takes at least a byte. *)
Fixpoint drain_lines (fuel : nat) (buf : string) : list string * string :=
  match fuel with
  | O => ([], buf)
  | S fuel' =>
      match split_first newline buf with
      | None => ([], buf)
      | Some (line, rest) =>
          let '(lines, buf') := drain_lines fuel' rest in (line :: lines, buf')
      end
  end.

Definition parse_line (line : string) : option (json num) :=
  match json_parse line with Ok v => Some v | Err _ => None end.

(** The loop over the frames of [run_stream]: the values it broadcasts. *)
Fixpoint stream_values (buf : string) (frames : list Frame) : list (json num) :=
  match frames with
  | [] => []
  | BodyError :: _ => []
  | Trailers :: frames' => stream_values buf frames'
  | Data bytes :: frames' =>
      let buf1 := buf +:+ bytes in
      let '(lines, buf2) := drain_lines (String.length buf1) buf1 in
      omap parse_line lines ++ stream_values buf2 frames'
  end.
End framing.

(** The request of [run_stream]. *)
Definition stream_target `{HttpLib} (peer topic : string) : string :=
  "http://" +:+ urlencode peer +:+ ".peer.boardwalk.invalid/servers/" +:+ urlencode peer
    +:+ "/events?topic=" +:+ urlencode topic.

(** ** The hub *)

Definition BROADCAST_BUFFER : nat := 256.

Abbreviation stream_key := (string * string)%type.

(** [PeerStreamEntry]: the count, and whether the upstream task still runs.
    The entry keeps a broadcast sender of its own. *)
Record PeerStreamEntry := mk_stream_entry { pe_refcount : N; pe_running : bool }.

Abbreviation PeerStreamHub := (gmap stream_key PeerStreamEntry).

Definition hub_new : PeerStreamHub := ∅.

(** [subscribe]; [sender] is whether the peer has a tunnel. The answer is
    whether the caller got a receiver. *)
Definition hub_subscribe (k : stream_key) (sender : bool) (h : PeerStreamHub) : bool * PeerStreamHub :=
  match h !! k with
  | Some e => (true, <[k := mk_stream_entry (wrap64 (pe_refcount e + 1)) (pe_running e)]> h)
  | None =>
      if sender then (true, <[k := mk_stream_entry 1 true]> h) else (false, h)
  end.

(** [unsubscribe]: [fetch_sub] wraps; the last one aborts the task. *)
Definition hub_unsubscribe (k : stream_key) (h : PeerStreamHub) : PeerStreamHub :=
  match h !! k with
  | Some e =>
      if (pe_refcount e =? 1)%N then delete k h
      else <[k := mk_stream_entry (wrap64 (pe_refcount e + (2 ^ 64 - 1))) (pe_running e)]> h
  | None => h
  end.

(** [run_stream] returns: the request failed, was refused, or the body ended. *)
Definition hub_task_ends (k : stream_key) (h : PeerStreamHub) : PeerStreamHub :=
  match h !! k with
  | Some e => <[k := mk_stream_entry (pe_refcount e) false]> h
  | None => h
  end.

Definition active_streams (h : PeerStreamHub) : nat := size h.
Definition refcount (k : stream_key) (h : PeerStreamHub) : option N := pe_refcount <$> h !! k.

(** A receiver sees the channel closed once every sender is gone, the entry's
    and the task's. *)
Definition receiver_closed (k : stream_key) (h : PeerStreamHub) : bool :=
  match h !! k with Some _ => false | None => true end.

(** *** Steps

    [holders] lists the keys of the live subscriptions, one per subscription. *)
Inductive hub_step : PeerStreamHub * list stream_key → PeerStreamHub * list stream_key → Prop :=
| hs_subscribed k sender h h' holders :
    hub_subscribe k sender h = (true, h') → (N.of_nat (length holders) + 1 < 2 ^ 64)%N →
    hub_step (h, holders) (h', k :: holders)
| hs_unknown_peer k h h' holders :
    hub_subscribe k false h = (false, h') → hub_step (h, holders) (h', holders)
| hs_unsubscribed k h l1 l2 :
    hub_step (h, l1 ++ k :: l2) (hub_unsubscribe k h, l1 ++ l2)
| hs_task_ends k h holders : hub_step (h, holders) (hub_task_ends k h, holders).

(** ** Framing does not depend on the chunks *)

Section framing_facts.
  Context {num : Type} `{!JsonText num}.

(** The lines of a text, and its unterminated tail, by recursion on it. *)
Fixpoint text_lines (s : string) : list string * string :=
  match s with
  | EmptyString => ([], EmptyString)
  | String c s' =>
      let '(ls, tail) := text_lines s' in
      if Ascii.eqb c newline then (EmptyString :: ls, tail)
      else match ls with
           | [] => ([], String c tail)
           | l :: ls' => (String c l :: ls', tail)
           end
  end.

Lemma split_first_lines s :
  match split_first newline s with
  | None => text_lines s = ([], s)
  | Some (line, rest) =>
      text_lines s = (line :: (text_lines rest).1, (text_lines rest).2)
      ∧ String.length rest < String.length s
  end.
Proof.
  induction s as [|c s IH]; simpl; [done|]. destruct (Ascii.eqb_spec c newline) as [->|Hc]; simpl.
  - split; [|lia]. by destruct (text_lines s).
  - destruct (split_first newline s) as [[line rest]|].
    + destruct IH as [-> Hl]. split; [done|]. simpl. lia.
    + by rewrite IH.
Qed.

Lemma drain_lines_spec fuel s : String.length s ≤ fuel → drain_lines fuel s = text_lines s.
Proof.
  revert s. induction fuel as [|fuel IH]; intros s Hl.
  { by destruct s; [|simpl in Hl; lia]. }
  simpl. pose proof (split_first_lines s) as H. destruct (split_first newline s) as [[line rest]|]; [|done].
  destruct H as [-> Hlt]. rewrite IH by lia. by destruct (text_lines rest).
Qed.

Lemma text_lines_app a b :
  text_lines (a +:+ b) = ((text_lines a).1 ++ (text_lines ((text_lines a).2 +:+ b)).1,
                          (text_lines ((text_lines a).2 +:+ b)).2).
Proof.
  induction a as [|c a IH].
  { cbn [text_lines fst snd]. rewrite !append_nil_l. by destruct (text_lines b). }
  rewrite append_String. cbn [text_lines]. rewrite IH. destruct (text_lines a) as [la ta]; simpl.
  destruct (Ascii.eqb_spec c newline) as [->|Hc]; simpl; [done|].
  destruct la as [|l la]; simpl; [|done].
  destruct (text_lines (ta +:+ b)) as [lb tb] eqn:E; simpl.
  destruct (Ascii.eqb_spec c newline); [done|]. by destruct lb.
Qed.

Lemma text_lines_tail s : text_lines (text_lines s).2 = ([], (text_lines s).2).
Proof.
  induction s as [|c s IH]; simpl; [done|]. destruct (text_lines s) as [ls t]; simpl in *.
  destruct (Ascii.eqb_spec c newline); simpl; [done|].
  destruct ls as [|l ls]; simpl; [|done]. rewrite IH.
  by destruct (Ascii.eqb_spec c newline).
Qed.

(** The bytes of the frames before an error. *)
Fixpoint payload (frames : list Frame) : string :=
  match frames with
  | [] => ""
  | Data bytes :: frames' => bytes +:+ payload frames'
  | Trailers :: frames' => payload frames'
  | BodyError :: _ => ""
  end.

Lemma stream_values_lines buf frames :
  text_lines buf = ([], buf) →
  stream_values (num:=num) buf frames = omap parse_line (text_lines (buf +:+ payload frames)).1.
Proof.
  revert buf. induction frames as [|[bytes| |] frames IH]; intros buf Hb; simpl.
  - by rewrite append_nil_r, Hb.
  - rewrite drain_lines_spec by done. rewrite <- append_assoc, (text_lines_app (buf +:+ bytes)).
    destruct (text_lines (buf +:+ bytes)) as [ls t] eqn:E. simpl.
    rewrite omap_app. f_equal. apply IH. pose proof (text_lines_tail (buf +:+ bytes)) as Ht.
    by rewrite E in Ht.
  - by apply IH.
  - by rewrite append_nil_r, Hb.
Qed.

(** A body of one printed value per line. *)
Definition ndjson_body (vs : list (json num)) : string :=
  foldr (λ v s, json_print v +:+ String newline s) "" vs.

Lemma text_lines_line l s :
  str_contains newline l = false →
  text_lines (l +:+ String newline s) = (l :: (text_lines s).1, (text_lines s).2).
Proof.
  induction l as [|c l IH]; intros Hl.
  { rewrite append_nil_l. simpl. by destruct (text_lines s). }
  rewrite str_contains_cons in Hl. apply orb_false_iff in Hl as [Hc Hl].
  rewrite append_String. simpl. rewrite IH by done. by rewrite Hc.
Qed.

Lemma stream_values_exact (frames : list Frame) (vs : list (json num)) (tail : string) :
  payload frames = ndjson_body vs +:+ tail → str_contains newline tail = false →
  Forall (λ v, str_contains newline (json_print v) = false ∧ json_parse (json_print v) = Ok v) vs →
  stream_values "" frames = vs.
Proof.
  intros E Ht Hvs. rewrite stream_values_lines, append_nil_l, E by done.
  assert (Htl : text_lines tail = ([], tail)).
  { clear -Ht. induction tail as [|c s IH]; [done|]. rewrite str_contains_cons in Ht.
    apply orb_false_iff in Ht as [Hc Hs]. simpl. by rewrite IH, Hc. }
  clear E. induction Hvs as [|v vs [Hn Hp] Hvs IH]; simpl.
  - by rewrite append_nil_l, Htl.
  - rewrite append_assoc, append_String, text_lines_line by done. simpl.
    unfold parse_line at 1. rewrite Hp. f_equal. apply IH.
Qed.

(** What a peer streams arrives whole. However the transport cuts a body of
    one value per line into frames, within a line or within a character, with
    trailers in between, the hub broadcasts exactly those values in order; and
    for any body at all, what it broadcasts depends only on the bytes before
    the first error, not on the cuts. *)
Theorem framing_exact (frames : list Frame) :
  (∀ frames', payload frames' = payload frames →
     stream_values (num:=num) "" frames' = stream_values "" frames) ∧
  (∀ vs tail, payload frames = ndjson_body vs +:+ tail →
     str_contains newline tail = false →
     Forall (λ v, str_contains newline (json_print v) = false ∧ json_parse (json_print v) = Ok v) vs →
     stream_values "" frames = vs).
Proof.
  split.
  - intros frames' E. by rewrite !stream_values_lines, E by done.
  - intros vs tail. apply stream_values_exact.
Qed.
End framing_facts.

(** ** The count is exact *)

Definition count (k : stream_key) (holders : list stream_key) : nat :=
  length (base.filter (λ k', k' = k) holders).

Definition hub_inv (st : PeerStreamHub * list stream_key) : Prop :=
  (N.of_nat (length st.2) < 2 ^ 64)%N ∧
  ∀ k, match st.1 !! k with
       | Some e => pe_refcount e = N.of_nat (count k st.2) ∧ 0 < count k st.2
       | None => count k st.2 = 0
       end.

Lemma count_le k l : count k l ≤ length l.
Proof. unfold count. apply length_filter. Qed.

Lemma count_cons k k' l : count k (k' :: l) = (if decide (k' = k) then 1 else 0) + count k l.
Proof. unfold count. rewrite filter_cons. by case_decide. Qed.

Lemma count_app k l1 l2 : count k (l1 ++ l2) = count k l1 + count k l2.
Proof. unfold count. by rewrite filter_app, length_app. Qed.

Lemma wrap64_small n : (n < 2 ^ 64)%N → wrap64 n = n.
Proof. apply N.mod_small. Qed.

Lemma wrap64_pred n : (1 < n < 2 ^ 64)%N → wrap64 (n + (2 ^ 64 - 1)) = (n - 1)%N.
Proof.
  intros H. unfold wrap64. replace (n + (2 ^ 64 - 1))%N with (n - 1 + 1 * 2 ^ 64)%N by lia.
  rewrite N.Div0.mod_add. apply N.mod_small. lia.
Qed.

Lemma hub_inv_step st st' : hub_step st st' → hub_inv st → hub_inv st'.
Proof.
  intros Hst [Hlen Hinv]. destruct Hst as [k sender h h' holders Hs Hl|k h h' holders Hs|k h l1 l2|k h holders];
    simpl in *.
  - split; simpl; [lia|]. intros k0. specialize (Hinv k0). rewrite count_cons.
    unfold hub_subscribe in Hs. pose proof (count_le k0 holders).
    destruct (h !! k) as [e|] eqn:E; [|destruct sender; [|done]]; injection Hs as <-.
    + destruct (decide (k = k0)) as [->|Hne].
      * rewrite lookup_insert_eq. simpl. rewrite E in Hinv. destruct Hinv as [-> _].
        split; [|lia]. rewrite wrap64_small by lia. lia.
      * rewrite lookup_insert_ne by done. done.
    + destruct (decide (k = k0)) as [->|Hne].
      * rewrite lookup_insert_eq. simpl. rewrite E in Hinv. lia.
      * rewrite lookup_insert_ne by done. done.
  - split; [done|]. unfold hub_subscribe in Hs. destruct (h !! k); [done|]. by injection Hs as <-.
  - rewrite length_app in Hlen. simpl in Hlen. split; [simpl; rewrite length_app; lia|].
    intros k0. specialize (Hinv k0). rewrite count_app, count_cons in Hinv. simpl. rewrite count_app.
    pose proof (count_le k0 l1). pose proof (count_le k0 l2). unfold hub_unsubscribe. simpl.
    destruct (decide (k = k0)) as [->|Hne].
    + destruct (h !! k0) as [e|]; [|lia]. destruct Hinv as [Hr _].
      destruct (N.eqb_spec (pe_refcount e) 1) as [H1|H1].
      * rewrite lookup_delete_eq. lia.
      * rewrite lookup_insert_eq. simpl. rewrite wrap64_pred by lia. lia.
    + assert (∀ h', h' = h ∨ h' = delete k h ∨ (∃ e, h' = <[k := e]> h) → h' !! k0 = h !! k0) as Hsame.
      { intros h' [->|[->|[e ->]]]; [done| |]; by rewrite ?lookup_delete_ne, ?lookup_insert_ne. }
      rewrite Hsame; [done|]. destruct (h !! k); [|by left]. right. destruct (_ =? 1)%N; eauto.
  - split; [done|]. intros k0. specialize (Hinv k0). simpl. unfold hub_task_ends.
    destruct (h !! k) as [e|] eqn:E; [|done]. destruct (decide (k = k0)) as [->|Hne].
    + rewrite lookup_insert_eq. by rewrite E in Hinv.
    + by rewrite lookup_insert_ne.
Qed.

Lemma hub_inv_reachable st : rtc hub_step (hub_new, []) st → hub_inv st.
Proof.
  intros H. apply (rtc_invariant _ _ _ _ hub_inv_step) in H; [done|].
  split; [done|]. intros k. simpl. unfold hub_new; by rewrite lookup_empty.
Qed.

(** The reference count of a shared stream is exactly the number of its
    live subscriptions, so the upstream request is kept as long as one is left
    and forgotten with the last. A subscriber therefore never sees the stream
    closed: even when the upstream task has ended, the entry keeps a sender, and
    whoever subscribes next joins the dead stream instead of starting a new
    one. *)
Theorem hub_refcount_exact h holders (k : stream_key) :
  rtc hub_step (hub_new, []) (h, holders) →
  refcount k h = (if decide (k ∈ holders) then Some (N.of_nat (count k holders)) else None) ∧
  (k ∈ holders → receiver_closed k h = false) ∧
  (∀ sender, k ∈ holders → pe_running <$> h !! k = Some false →
     (hub_subscribe k sender h).1 = true ∧
     pe_running <$> (hub_subscribe k sender h).2 !! k = Some false).
Proof.
  intros H. destruct (hub_inv_reachable _ H) as [_ Hinv]. specialize (Hinv k). simpl in Hinv.
  assert (Hin : k ∈ holders ↔ 0 < count k holders).
  { unfold count. split.
    - intros Hk. destruct (base.filter (λ k', k' = k) holders) eqn:E; [|simpl; lia].
      assert (k ∈ base.filter (λ k', k' = k) holders) as Hf by (by apply list_elem_of_filter).
      rewrite E in Hf. by apply elem_of_nil in Hf.
    - destruct (base.filter (λ k', k' = k) holders) as [|k0 l] eqn:E; [simpl; lia|]. intros _.
      assert (k0 ∈ base.filter (λ k', k' = k) holders) as Hf by (rewrite E; apply elem_of_cons; by left).
      apply list_elem_of_filter in Hf as [-> ?]. done. }
  unfold refcount, receiver_closed, hub_subscribe. destruct (h !! k) as [e|]; simpl.
  - destruct Hinv as [-> Hpos]. split_and!; [|done|].
    + by rewrite decide_True by by apply Hin.
    + intros sender _ [= Hrun]. split; [done|]. rewrite lookup_insert_eq. simpl. by rewrite Hrun.
  - split_and!; [|intros Hk; apply Hin in Hk; lia..|].
    + rewrite decide_False; [done|]. rewrite Hin. lia.
    + intros sender Hk. apply Hin in Hk. lia.
Qed.

Module PeerStreamsExamples.

Definition led_topic : stream_key := ("hub", "hub/led/1/state").

Definition watched : PeerStreamHub := {[ led_topic := mk_stream_entry 1 true ]}.
Definition shared : PeerStreamHub := {[ led_topic := mk_stream_entry 2 true ]}.
Definition dead : PeerStreamHub := {[ led_topic := mk_stream_entry 2 false ]}.

Lemma dead_reachable : rtc hub_step (hub_new, []) (dead, [led_topic; led_topic]).
Proof.
  eapply rtc_l. { by apply (hs_subscribed led_topic true _ watched). }
  eapply rtc_l.
  { apply (hs_subscribed led_topic true _ shared); [|done]. unfold hub_subscribe, watched.
    by rewrite lookup_singleton_eq, insert_singleton_eq. }
  apply rtc_once. replace dead with (hub_task_ends led_topic shared); [constructor|].
  unfold hub_task_ends, shared. by rewrite lookup_singleton_eq, insert_singleton_eq.
Qed.

Lemma hub_refcount_exact_witness :
  refcount led_topic dead = Some 2%N ∧ receiver_closed led_topic dead = false ∧
  (hub_subscribe led_topic true dead).1 = true.
Proof.
  destruct (hub_refcount_exact dead [led_topic; led_topic] led_topic dead_reachable) as (Hr & Hc & Hs).
  split; [exact Hr|]. split; [apply Hc; by left|]. apply (Hs true); [by left|].
  unfold dead. by rewrite lookup_singleton_eq.
Defined.

(** A codec of one value, enough to run the framing. *)
Instance NullText : JsonText unit := {|
  json_parse s := if (s =? "null")%string then Ok JNull else Err "expected value";
  json_print _ := "null"
|}.

Definition cut : list Frame :=
  [Data "nu"; Trailers; Data ("ll" +:+ String newline "n"); Data ("ull" +:+ String newline "nul"); BodyError].

Example cut_payload : payload cut = ndjson_body [JNull; JNull] +:+ "nul".
Proof. by vm_compute. Qed.

Lemma framing_exact_witness : stream_values (num:=unit) "" cut = [JNull; JNull].
Proof.
  refine (proj2 (framing_exact cut) [JNull; JNull] "nul" cut_payload _ _); [by vm_compute|].
  constructor; [|constructor; [|constructor]]; (split; vm_compute; reflexivity).
Defined.
End PeerStreamsExamples.
