(* ===== verification/Session.v ===== *)
(** The multiplex event websocket ([http/ws.rs]): the connection state, the
    dispatcher, the writer and the forwarder tasks of one connection, over the
    event bus and the shared peer streams. *)

From S2P Require Import Prelude F64 Json Query Lexer Parser Topic Envelope Sequencer Replay Policy.
From S2P Require Import CoalesceQueue Mpsc Bus BusSpec BusProps.
From S2P Require Import Capabilities Http Peer Siren Gateway EventStream PeerStreams.

Definition WS_OUTBOUND_CAPACITY : nat := 64.
Definition WS_MAX_SUBSCRIPTIONS_PER_CONN : nat := 64.

(** ** Rendering *)

Section render.
  Context {time : TimeLib} {num : Type} `{!SerdeNumber num, !SerdeInt num}.
  Implicit Types (ev : EventEnvelope num) (v : json num).

(** [Value::get] with a key, and the conversions. *)
Definition get_key (k : string) v : option (json num) :=
  match v with JObject m => map_get k m | _ => None end.
Definition as_str v : option string := match v with JString s => Some s | _ => None end.
Definition value_as_u64 v : option N := match v with JNumber n => num_as_u64 n | _ => None end.
Definition value_as_i64 v : option Z := match v with JNumber n => num_as_i64 n | _ => None end.

Definition get_str (k : string) v : option string := get_key k v ≫= as_str.
Definition get_u64 (k : string) v : option N := get_key k v ≫= value_as_u64.

(** [render_event_for_ws] *)
Definition render_event_for_ws (app_id : N) ev : OutboundMessage num :=
  OutEvent _ (topic ev) (Single app_id) (timestamp_ms ev) (data ev) (Some (event_id ev))
    (Some (stream_id ev)) (Some (stream ev)) (Some (sequence ev)) (Some (node_id ev))
    (Some (resource_id ev)) (Some (resource_kind ev)) (Some (payload_kind ev))
    (Some (payload_version ev)) (Some (envelope_version ev)) (format_rfc3339 (timestamp ev)).

(** [render_peer_event]; [now] is the clock, read when no timestamp came. *)
Definition render_peer_event (now : Z) (app_id : N) (fallback_topic : string) v : OutboundMessage num :=
  OutEvent _ (default fallback_topic (get_str "topic" v)) (Single app_id)
    (default now (get_key "timestamp" v ≫= value_as_i64))
    (default JNull (get_key "data" v))
    (get_str "eventId" v) (get_str "streamId" v) (get_str "stream" v) (get_u64 "sequence" v)
    (get_str "nodeId" v) (get_str "resourceId" v) (get_str "resourceKind" v)
    (get_str "payloadKind" v)
    ((λ n, (n mod 2 ^ 32)%N) <$> get_u64 "payloadVersion" v)
    ((λ n, (n mod 2 ^ 8)%N) <$> get_u64 "envelopeVersion" v)
    (get_str "isoTimestamp" v).
End render.

(** ** The connection *)

Inductive ForwarderEvent := LagTerminated (app_id : N) | LocalTerminated (app_id : N).

#[export] Instance forwarder_event_eq_dec : EqDecision ForwarderEvent.
Proof. solve_decision. Defined.

(** Where the handler of the connection is: in its loop, waiting for the
    writer, finished, or unwound by a panic. *)
Inductive Phase := Running | Draining | Finished | Panicked.

#[export] Instance phase_eq_dec : EqDecision Phase.
Proof. solve_decision. Defined.

(** A running [local_forwarder]: whether its notice future is terminated and
    the message it is sending, if it is at the inner [select!]. *)
Record LocalForwarder (num : Type) := mk_local_fwd {
  lf_bus_id : SubscriptionId;
  lf_slow_done : bool;
  lf_sending : option (OutboundMessage num)
}.
Arguments mk_local_fwd {_}.
Arguments lf_bus_id {_}.
Arguments lf_slow_done {_}.
Arguments lf_sending {_}.

(** A running task: [local_forwarder], or [forward_peer_subscription] with its
    stream. *)
Inductive Forwarder (num : Type) :=
| FLocal (f : LocalForwarder num)
| FPeer (k : stream_key).
Arguments FLocal {_}.
Arguments FPeer {_}.

(** [ConnState]; a [FwdSub] is its peer and topic, the task it can abort is in
    the table of tasks. *)
Record ConnState := mk_conn {
  local_subs : gmap N SubscriptionId;
  fwd_subs : gmap N stream_key;
  next_app_id : N
}.

Definition conn_new : ConnState := mk_conn ∅ ∅ 1.

Section session.
  Context {tl : TopicLibs} {time : TimeLib} {num : Type} `{!SerdeNumber num, !SerdeInt num}.
  Context `{!BusLibs num, !Mpsc (EventEnvelope num), !Mpsc (OutboundMessage num)}.

(** Everything one connection touches: its queues, its tasks, what was written
    to the socket, and the bus and hub it shares with the rest of the node. *)
Record Session := mk_session {
  s_conn : ConnState;
  s_out : chan (OutboundMessage num);
  s_terminal : chan (OutboundMessage num);
  s_events : list ForwarderEvent;
  s_tasks : gmap N (Forwarder num);
  s_writer : bool;
  s_wire : list (OutboundMessage num);
  s_phase : Phase;
  s_bus : EventBus num;
  s_hub : PeerStreamHub
}.

Definition session_new (b : EventBus num) (h : PeerStreamHub) : Session :=
  mk_session conn_new (chan_new WS_OUTBOUND_CAPACITY) (chan_new 1) [] ∅ true [] Running b h.

Definition set_conn c s :=
  mk_session c (s_out s) (s_terminal s) (s_events s) (s_tasks s) (s_writer s) (s_wire s) (s_phase s) (s_bus s) (s_hub s).
Definition set_out c s :=
  mk_session (s_conn s) c (s_terminal s) (s_events s) (s_tasks s) (s_writer s) (s_wire s) (s_phase s) (s_bus s) (s_hub s).
Definition set_terminal c s :=
  mk_session (s_conn s) (s_out s) c (s_events s) (s_tasks s) (s_writer s) (s_wire s) (s_phase s) (s_bus s) (s_hub s).
Definition set_events l s :=
  mk_session (s_conn s) (s_out s) (s_terminal s) l (s_tasks s) (s_writer s) (s_wire s) (s_phase s) (s_bus s) (s_hub s).
Definition set_tasks t s :=
  mk_session (s_conn s) (s_out s) (s_terminal s) (s_events s) t (s_writer s) (s_wire s) (s_phase s) (s_bus s) (s_hub s).
Definition set_writer w s :=
  mk_session (s_conn s) (s_out s) (s_terminal s) (s_events s) (s_tasks s) w (s_wire s) (s_phase s) (s_bus s) (s_hub s).
Definition set_wire l s :=
  mk_session (s_conn s) (s_out s) (s_terminal s) (s_events s) (s_tasks s) (s_writer s) l (s_phase s) (s_bus s) (s_hub s).
Definition set_phase p s :=
  mk_session (s_conn s) (s_out s) (s_terminal s) (s_events s) (s_tasks s) (s_writer s) (s_wire s) p (s_bus s) (s_hub s).
Definition set_bus b s :=
  mk_session (s_conn s) (s_out s) (s_terminal s) (s_events s) (s_tasks s) (s_writer s) (s_wire s) (s_phase s) b (s_hub s).
Definition set_hub h s :=
  mk_session (s_conn s) (s_out s) (s_terminal s) (s_events s) (s_tasks s) (s_writer s) (s_wire s) (s_phase s) (s_bus s) h.

Implicit Types (s : Session) (m : OutboundMessage num).

(** *** Replies *)

(** [terminal_tx.try_send], with its result ignored. *)
Definition terminate m s : Session := set_terminal (chan_try_send m (s_terminal s)).2 s.

(** [send_or_terminate] *)
Definition send_or_terminate m s : Session :=
  match chan_try_send m (s_out s) with
  | (SendOk, c) => set_out c s
  | (SendFull, _) => terminate m s
  | (SendClosed, _) => s
  end.

(** *** The dispatcher *)

Context (topic_error_text : TopicParseError → string).

(** The constants of a node: its name, and whether it has peer senders. *)
Context (core_name : string) (has_senders : bool).

Definition add_fwd (app_id : N) (k : stream_key) s : Session :=
  let c := s_conn s in
  set_conn (mk_conn (local_subs c) (<[app_id := k]> (fwd_subs c)) (next_app_id c))
    (set_tasks (<[app_id := FPeer k]> (s_tasks s)) s).

Definition add_local (app_id : N) (id : SubscriptionId) s : Session :=
  let c := s_conn s in
  set_conn (mk_conn (<[app_id := id]> (local_subs c)) (fwd_subs c) (next_app_id c))
    (set_tasks (<[app_id := FLocal (mk_local_fwd id false None)]> (s_tasks s)) s).

Definition bump_app_id s : Session :=
  let c := s_conn s in
  set_conn (mk_conn (local_subs c) (fwd_subs c) (wrap64 (next_app_id c + 1))) s.

(** The first segment of a topic. *)
Definition topic_head (tp : string) : string := default "" (head (split_on "/" tp)).

Definition is_peer_topic (tp : string) : bool :=
  negb (topic_head tp =? core_name)%string && negb (str_is_empty (topic_head tp)) && has_senders.

(** [peer_context(&first)] found a peer without the capability. *)
Definition capability_denied (ctx : option PeerCapabilities) : bool :=
  match ctx with Some c => negb (caps_contains c caps_stream_subscribe) | None => false end.

(** [next_id.fetch_add(1)], the first thing [EventBus::subscribe] does. *)
Definition draw_id (b : EventBus num) : EventBus num :=
  mk_bus (wrap64 (next_id b + 1)) (subs b) (registry b) (replay_cache b) (max_event_size b)
    (chans b) (queues b) (notices b).

(** The arm of [Subscribe]. [ctx] and [sender] are what the peer table answers
    for the first segment: the negotiated capabilities and whether there is a
    tunnel. [now] and [now'] are the two readings of the clock. [Err] is a panic
    and the state it leaves: a capacity of zero panics after the bus drew an
    id. *)
Definition on_subscribe (ctx : option PeerCapabilities) (sender : bool) (now now' : Z)
    (tp : string) (lim cap : option N) s : result Session Session :=
  let c := s_conn s in
  if WS_MAX_SUBSCRIPTIONS_PER_CONN <=? size (local_subs c) + size (fwd_subs c) then
    Ok (send_or_terminate (OutError _ 429 now (Some tp)
      (Some ("subscription cap reached (" +:+ pretty WS_MAX_SUBSCRIPTIONS_PER_CONN
             +:+ " max per connection)")) None) s)
  else
  let first := topic_head tp in
  match topic_parse tp with
  | None => Err (set_phase Panicked s)
  | Some (Err e) =>
      Ok (send_or_terminate (OutError _ 400 now (Some tp) (Some (topic_error_text e)) None) s)
  | Some (Ok pattern) =>
      if is_peer_topic tp && capability_denied ctx then
        Ok (send_or_terminate (OutError _ 403 now (Some tp) (Some "peer capability denied") None) s)
      else
        let app_id := next_app_id c in
        let s1 := send_or_terminate (OutSubscribeAck _ now tp app_id) (bump_app_id s) in
        if is_peer_topic tp then
          match hub_subscribe (first, tp) sender (s_hub s1) with
          | (false, h) =>
              Ok (send_or_terminate (OutError _ 400 now' (Some tp)
                (Some ("unknown peer `" +:+ first +:+ "`")) (Some app_id)) (set_hub h s1))
          | (true, h) => Ok (add_fwd app_id (first, tp) (set_hub h s1))
          end
        else
          match subscribe pattern (mk_opts lim (N.to_nat <$> cap) Disconnect) (s_bus s1) with
          | None => Err (set_phase Panicked (set_bus (draw_id (s_bus s1)) s1))
          | Some (id, b) => Ok (add_local app_id id (set_bus b s1))
          end
  end.

(** [conn.local_subs.remove] and, if it was there, [unsubscribe_events]. *)
Definition remove_local (app_id : N) s : Session :=
  let c := s_conn s in
  match local_subs c !! app_id with
  | Some id =>
      set_bus (unsubscribe id (s_bus s)).2
        (set_conn (mk_conn (delete app_id (local_subs c)) (fwd_subs c) (next_app_id c)) s)
  | None => s
  end.

(** [conn.fwd_subs.remove] and, if it was there, abort and release. *)
Definition remove_fwd (app_id : N) s : Session :=
  let c := s_conn s in
  match fwd_subs c !! app_id with
  | Some k =>
      set_hub (hub_unsubscribe k (s_hub s))
        (set_tasks (delete app_id (s_tasks s))
           (set_conn (mk_conn (local_subs c) (delete app_id (fwd_subs c)) (next_app_id c)) s))
  | None => s
  end.

(** A frame of text, as [serde_json::from_str] reads it. *)
Definition on_text (ctx : option PeerCapabilities) (sender : bool) (now now' : Z)
    (parsed : result string InboundMessage) s : result Session Session :=
  match parsed with
  | Ok (InSubscribe tp lim cap) => on_subscribe ctx sender now now' tp lim cap s
  | Ok (InUnsubscribe id) =>
      Ok (send_or_terminate (OutUnsubscribeAck _ now id) (remove_fwd id (remove_local id s)))
  | Ok (InPing d) => Ok (send_or_terminate (OutPong _ now d) s)
  | Err e =>
      Ok (send_or_terminate (OutError _ 400 now None (Some ("invalid json: " +:+ e)) None) s)
  end.

(** The arm of [fwd_event_rx]. *)
Definition on_forwarder_event (e : ForwarderEvent) s : Session :=
  match e with
  | LagTerminated app_id => remove_fwd app_id s
  | LocalTerminated app_id => remove_local app_id s
  end.

(** After the writer: every subscription that is left is released. *)
Definition cleanup s : Session :=
  let c := s_conn s in
  mk_session (mk_conn ∅ ∅ (next_app_id c)) (s_out s) (s_terminal s) (s_events s)
    (base.filter (λ t, fwd_subs c !! t.1 = None) (s_tasks s))
    (s_writer s) (s_wire s) Finished
    (foldr (λ t b, (unsubscribe t.2 b).2) (s_bus s) (map_to_list (local_subs c)))
    (foldr (λ t h, hub_unsubscribe t.2 h) (s_hub s) (map_to_list (fwd_subs c))).

(** *** The writer *)

(** Every sender of the outbound queue is gone: the dispatcher's and those of
    the tasks. *)
Definition senders_gone s : bool :=
  bool_decide (s_phase s ≠ Running) && bool_decide (s_tasks s = ∅).

Definition writer_exits s : Session :=
  set_writer false (set_out (chan_drop_rx (s_out s)) (set_terminal (chan_drop_rx (s_terminal s)) s)).

(** [send_text]; [ok] is whether the socket took the frame. *)
Definition send_text (ok : bool) m s : Session :=
  if ok then set_wire (s_wire s ++ [m]) s else writer_exits s.

(** One round of the writer: the terminal queue goes first. [None] waits. *)
Definition writer_poll (ok : bool) s : option Session :=
  if s_writer s then
    match chan_pop (s_terminal s) with
    | (Some m, c) => Some (send_text ok m (set_terminal c s))
    | (None, _) =>
        match chan_pop (s_out s) with
        | (Some m, c) => Some (send_text ok m (set_out c s))
        | (None, _) => if senders_gone s then Some (writer_exits s) else None
        end
    end
  else None.

(** *** Forwarders *)

(** What the notice future of a bus subscription yields: the notice, an error
    when the bus has dropped its end, or nothing yet. *)
Definition slow_consumer_rx (id : SubscriptionId) (b : EventBus num) : option (option SlowConsumerNotice) :=
  match notices b !! id with
  | Some n => Some (Some n)
  | None => match subs b !! id with Some _ => None | None => Some None end
  end.

Definition stream_gap (now : Z) (app_id : N) (n : SlowConsumerNotice) : OutboundMessage num :=
  OutStreamGap _ now app_id (sc_stream_id n) (sc_last_delivered_sequence n) (sc_reason n) true.

(** The task returns: the receiver is dropped and the dispatcher told. *)
Definition local_exits (app_id : N) (f : LocalForwarder num) s : Session :=
  set_events (s_events s ++ [LocalTerminated app_id])
    (set_bus (rx_drop (lf_bus_id f) (s_bus s)) (set_tasks (delete app_id (s_tasks s)) s)).

Definition set_task (app_id : N) (f : LocalForwarder num) s : Session :=
  set_tasks (<[app_id := FLocal f]> (s_tasks s)) s.

(** One round of [local_forwarder], at the outer or the inner [select!]: the
    notice goes first in both. A full outbound queue, or an empty subscription,
    waits. *)
Definition local_poll (now : Z) (app_id : N) (f : LocalForwarder num) s : option Session :=
  match (if lf_slow_done f then None else slow_consumer_rx (lf_bus_id f) (s_bus s)) with
  | Some (Some n) => Some (local_exits app_id f (terminate (stream_gap now app_id n) s))
  | Some None => Some (set_task app_id (mk_local_fwd (lf_bus_id f) true None) s)
  | None =>
      match lf_sending f with
      | None =>
          let '(r, b) := rx_try_recv (lf_bus_id f) (s_bus s) in
          match r with
          | Ok ev =>
              Some (set_bus b (set_task app_id
                (mk_local_fwd (lf_bus_id f) (lf_slow_done f) (Some (render_event_for_ws app_id ev))) s))
          | Err RecvEmpty => None
          | Err RecvDisconnected => Some (local_exits app_id f s)
          end
      | Some m =>
          if negb (chan_rx_alive (s_out s)) then Some (local_exits app_id f s)
          else
            match chan_acquire (s_out s) with
            | Some c =>
                Some (set_out (chan_store m c)
                  (set_task app_id (mk_local_fwd (lf_bus_id f) (lf_slow_done f) None) s))
            | None => None
            end
      end
  end.

(** What [broadcast::Receiver::recv] returns. *)
Inductive PeerRecv := PeerValue (v : json num) | PeerLagged (skipped : N) | PeerClosed.

Definition peer_gap (now : Z) (app_id : N) (reason : string) : OutboundMessage num :=
  OutStreamGap _ now app_id None None reason true.

Definition peer_exits (app_id : N) (e : list ForwarderEvent) s : Session :=
  set_events (s_events s ++ e) (set_tasks (delete app_id (s_tasks s)) s).

(** One round of [forward_peer_subscription]. *)
Definition peer_poll (now : Z) (app_id : N) (k : stream_key) (r : PeerRecv) s : Session :=
  match r with
  | PeerValue v =>
      match chan_try_send (render_peer_event now app_id k.2 v) (s_out s) with
      | (SendOk, c) => set_out c s
      | (SendFull, _) =>
          peer_exits app_id [LagTerminated app_id] (terminate (peer_gap now app_id "ws_outbound_full") s)
      | (SendClosed, _) => peer_exits app_id [] s
      end
  | PeerLagged n =>
      peer_exits app_id [LagTerminated app_id]
        (terminate (peer_gap now app_id ("broadcast_lag(" +:+ pretty n +:+ ")")) s)
  | PeerClosed =>
      peer_exits app_id [LagTerminated app_id]
        (set_out (chan_try_send (OutError _ 502 now (Some k.2) (Some "peer stream closed") (Some app_id))
           (s_out s)).2 s)
  end.

(** ** Steps

    [session_step] is what the tasks of the connection do on their own or on a
    frame of the client; a frame that is neither text nor close changes
    nothing. *)
Inductive session_step : Session → Session → Prop :=
| ss_text ctx sender now now' parsed s s' :
    s_phase s = Running → (next_app_id (s_conn s) + 1 < 2 ^ 64)%N →
    (next_id (s_bus s) + 1 < 2 ^ 64)%N →
    on_text ctx sender now now' parsed s = Ok s' → session_step s s'
| ss_panic ctx sender now now' parsed s s' :
    s_phase s = Running → (next_app_id (s_conn s) + 1 < 2 ^ 64)%N →
    (next_id (s_bus s) + 1 < 2 ^ 64)%N →
    on_text ctx sender now now' parsed s = Err s' → session_step s s'
| ss_event e l s :
    s_phase s = Running → s_events s = e :: l →
    session_step s (on_forwarder_event e (set_events l s))
| ss_close s : s_phase s = Running → session_step s (set_phase Draining s)
| ss_writer ok s s' : writer_poll ok s = Some s' → session_step s s'
| ss_local now app_id f s s' :
    s_tasks s !! app_id = Some (FLocal f) → local_poll now app_id f s = Some s' → session_step s s'
| ss_cleanup s : s_phase s = Draining → s_writer s = false → session_step s (cleanup s).

(** A connection in its node: [others] lists the streams the other connections
    hold. The bus moves, other connections come and go, the upstream tasks end
    and the peers send. A broadcast receiver sees the channel closed only when
    the hub has forgotten the stream. *)
Inductive world_step : Session * list stream_key → Session * list stream_key → Prop :=
| ws_session s s' others :
    session_step s s' → (N.of_nat (S (size (fwd_subs (s_conn s)) + length others)) < 2 ^ 64)%N →
    world_step (s, others) (s', others)
| ws_bus b s others : bus_step (s_bus s) b → world_step (s, others) (set_bus b s, others)
| ws_subscribe k sender h s others :
    hub_subscribe k sender (s_hub s) = (true, h) →
    (N.of_nat (S (size (fwd_subs (s_conn s)) + length others)) < 2 ^ 64)%N →
    world_step (s, others) (set_hub h s, k :: others)
| ws_unsubscribe k s l1 l2 :
    world_step (s, l1 ++ k :: l2) (set_hub (hub_unsubscribe k (s_hub s)) s, l1 ++ l2)
| ws_upstream_ends k s others : world_step (s, others) (set_hub (hub_task_ends k (s_hub s)) s, others)
| ws_peer now app_id k r s others :
    s_tasks s !! app_id = Some (FPeer k) → (r = PeerClosed → receiver_closed k (s_hub s) = true) →
    world_step (s, others) (peer_poll now app_id k r s, others).
End session.
Arguments Session {_ _} _ {_ _}.

(** ** Facts *)

(** *** The hub with its holders in any order *)

Lemma count_perm (k : stream_key) l l' : l ≡ₚ l' → PeerStreams.count k l = PeerStreams.count k l'.
Proof. intros H. unfold PeerStreams.count. by rewrite H. Qed.

Lemma hub_inv_perm h l l' : l ≡ₚ l' → hub_inv (h, l) → hub_inv (h, l').
Proof.
  intros Hp [Hl Hc]. split; simpl in *; [by rewrite <- Hp|]. intros k. specialize (Hc k).
  by rewrite <- (count_perm k l l' Hp).
Qed.

Lemma hub_inv_release h (ks others : list stream_key) :
  hub_inv (h, ks ++ others) → hub_inv (foldr hub_unsubscribe h ks, others).
Proof.
  revert others. induction ks as [|k ks IH]; intros others H; [done|]. simpl.
  apply (hub_inv_step (foldr hub_unsubscribe h ks, [] ++ k :: others)); [constructor|].
  apply IH. revert H. apply hub_inv_perm. simpl. by rewrite Permutation_middle.
Qed.

(** *** The bus never revives a subscription *)

Section bus_mono.
  Context {tl : TopicLibs} {time : TimeLib} {num : Type} `{!SerdeNumber num}.
  Context `{!BusLibs num, !Mpsc (EventEnvelope num)}.
  Implicit Types b : EventBus num.

Definition bus_mono b b' : Prop :=
  (next_id b <= next_id b')%N ∧
  ∀ id, (id < next_id b)%N → subs b !! id = None → subs b' !! id = None.

#[export] Instance bus_mono_preorder : PreOrder bus_mono.
Proof.
  split; [done|]. intros b1 b2 b3 [H1 H1'] [H2 H2']. split; [lia|].
  intros id Hid Hn. apply H2'; [lia|]. by apply H1'.
Qed.

Lemma bus_mono_subs b b' : next_id b' = next_id b → subs b' = subs b → bus_mono b b'.
Proof. intros E1 E2. split; [by rewrite E1|]. by rewrite E2. Qed.

Lemma subs_unsubscribe id b j :
  subs (unsubscribe id b).2 !! j = if decide (j = id) then None else subs b !! j.
Proof.
  unfold unsubscribe. destruct (subs b !! id) as [sub|] eqn:E; simpl.
  - assert (subs (close_outbound id sub (set_subs (delete id) b)) = delete id (subs b)) as ->.
    { unfold close_outbound. by destruct (sub_outbound sub); [|destruct (queues _ !! _)]. }
    case_decide; subst; [apply lookup_delete_eq|by rewrite lookup_delete_ne].
  - case_decide; by subst.
Qed.

Lemma bus_mono_unsubscribe id b : bus_mono b (unsubscribe id b).2.
Proof.
  destruct (remove_one_globals b id) as (Hn & _). split; [unfold remove_one in Hn; by rewrite Hn|].
  intros j _ Hj. rewrite subs_unsubscribe. by case_decide.
Qed.

Lemma unsubscribe_gone id b : subs (unsubscribe id b).2 !! id = None.
Proof. by rewrite subs_unsubscribe, decide_True. Qed.

Lemma publish_view_None env v o v' : publish_view env v = Some (o, v') → v_sub v = None → v_sub v' = None.
Proof. unfold publish_view. intros H Hn. rewrite Hn in H. by injection H as _ <-. Qed.

Lemma rx_try_recv_subs id b :
  subs (rx_try_recv id b).2 = subs b ∧ next_id (rx_try_recv id b).2 = next_id b.
Proof.
  unfold rx_try_recv. destruct (chans b !! id) as [c|], (queues b !! id) as [q|]; simpl; try done.
  - by destruct (chan_pop c) as [[]].
  - by destruct (chan_pop c) as [[]].
  - by destruct (try_recv q) as [[]].
Qed.

Lemma rx_drop_subs id b : subs (rx_drop id b) = subs b ∧ next_id (rx_drop id b) = next_id b.
Proof. unfold rx_drop. by destruct (chans b !! id), (queues b !! id). Qed.

Lemma subscribe_subs tp o b id b' :
  (next_id b + 1 < 2 ^ 64)%N → subscribe tp o b = Some (id, b') →
  id = next_id b ∧ next_id b' = (next_id b + 1)%N ∧ ∀ j, j ≠ id → subs b' !! j = subs b !! j.
Proof.
  intros Hlt. unfold subscribe.
  assert (wrap64 (next_id b + 1) = (next_id b + 1)%N) as -> by (by apply N.mod_small).
  destruct (slow_consumer_policy o); try (destruct (_ =? 0); [done|]); intros [= <- <-];
    (split_and!; [done..|]; intros j Hj; simpl; by rewrite lookup_insert_ne).
Qed.

Lemma bus_mono_step b b' : bus_step b b' → bus_mono b b'.
Proof.
  intros H. destruct H as [tp o b id b' Hlt Hs|id b|env order b res b' Hen Hp|id b|id b| |].
  - destruct (subscribe_subs tp o b id b' Hlt Hs) as (-> & Hn & Hj). split; [lia|].
    intros j Hlt' Hnone. rewrite Hj by lia. done.
  - apply bus_mono_unsubscribe.
  - destruct res as [r|e].
    + destruct (try_publish_spec env order b r b' Hen Hp) as (_ & Hv & _ & _ & _ & _ & _ & Hn & _).
      split; [by rewrite Hn|]. intros id _ Hid. destruct (Hv id) as [o Ho].
      exact (publish_view_None env _ o _ Ho Hid).
    + unfold try_publish in Hp. destruct (_ <? _)%N; [|by destruct (fan_out _ _ _) as [[]|]].
      injection Hp as _ <-. by apply bus_mono_subs.
  - apply bus_mono_subs; apply rx_try_recv_subs.
  - apply bus_mono_subs; apply rx_drop_subs.
  - by apply bus_mono_subs.
  - by apply bus_mono_subs.
Qed.

Lemma bus_mono_unsubscribe_all (l : list (N * SubscriptionId)) b :
  bus_mono b (foldr (λ t b, (unsubscribe t.2 b).2) b l).
Proof.
  induction l as [|t l IH]; [done|]. simpl. etransitivity; [exact IH|]. apply bus_mono_unsubscribe.
Qed.

Lemma unsubscribe_all_gone (l : list (N * SubscriptionId)) b t :
  (t.2 < next_id b)%N → t ∈ l → subs (foldr (λ t b, (unsubscribe t.2 b).2) b l) !! t.2 = None.
Proof.
  intros Hlt Hin. induction l as [|t' l IH]; [by apply elem_of_nil in Hin|]. simpl.
  apply elem_of_cons in Hin as [->|Hin]; [apply unsubscribe_gone|].
  apply bus_mono_unsubscribe; [|by apply IH].
  eapply N.lt_le_trans; [exact Hlt|]. apply bus_mono_unsubscribe_all.
Qed.
End bus_mono.

(** *** The invariant of a connection *)

Section invariant.
  Context {tl : TopicLibs} {time : TimeLib} {num : Type} `{!SerdeNumber num, !SerdeInt num}.
  Context `{!BusLibs num, !Mpsc (EventEnvelope num), !Mpsc (OutboundMessage num)}.
  Context {laws : MpscLaws (OutboundMessage num)}.
  Context (topic_error_text : TopicParseError → string) (core_name : string) (has_senders : bool).
  Implicit Types (s : Session num) (m : OutboundMessage num) (others : list stream_key).

(** The streams a connection holds. *)
Definition held s : list stream_key := (map_to_list (fwd_subs (s_conn s))).*2.

Record session_ok s others : Prop := {
  so_cap : size (local_subs (s_conn s)) + size (fwd_subs (s_conn s)) ≤ WS_MAX_SUBSCRIPTIONS_PER_CONN;
  so_local_lt a id : local_subs (s_conn s) !! a = Some id →
    (a < next_app_id (s_conn s))%N ∧ (id < next_id (s_bus s))%N;
  so_fwd_lt a k : fwd_subs (s_conn s) !! a = Some k → (a < next_app_id (s_conn s))%N;
  so_task_lt a f : s_tasks s !! a = Some f → (a < next_app_id (s_conn s))%N;
  so_hub : hub_inv (s_hub s, held s ++ others);
  so_local_task a id : local_subs (s_conn s) !! a = Some id →
    (∃ f, s_tasks s !! a = Some (FLocal f) ∧ lf_bus_id f = id) ∨ LocalTerminated a ∈ s_events s;
  so_fwd_task a k : fwd_subs (s_conn s) !! a = Some k →
    s_tasks s !! a = Some (FPeer k) ∨ LagTerminated a ∈ s_events s ∨ s_writer s = false;
  so_task_local a f : s_tasks s !! a = Some (FLocal f) →
    (lf_bus_id f < next_id (s_bus s))%N ∧
    (local_subs (s_conn s) !! a = Some (lf_bus_id f) ∨ subs (s_bus s) !! lf_bus_id f = None);
  so_task_fwd a k : s_tasks s !! a = Some (FPeer k) → fwd_subs (s_conn s) !! a = Some k;
  so_alive : chan_rx_alive (s_out s) = s_writer s;
  so_disj a id : local_subs (s_conn s) !! a = Some id → fwd_subs (s_conn s) !! a = None
}.

(** Steps that leave the tables and the tasks alone. *)
Lemma ok_frame s s' others :
  s_conn s' = s_conn s → s_tasks s' = s_tasks s → s_hub s' = s_hub s →
  (∀ e, e ∈ s_events s → e ∈ s_events s') → bus_mono (s_bus s) (s_bus s') →
  (s_writer s = false → s_writer s' = false) → chan_rx_alive (s_out s') = s_writer s' →
  session_ok s others → session_ok s' others.
Proof.
  intros Hc Ht Hh He [Hn Hm] Hw Ha [H1 H2 H3 H4 H5 H6 H7 H8 H9 H10 H11].
  split; unfold held; rewrite ?Hc, ?Ht, ?Hh; try done.
  - intros a id Hl. destruct (H2 a id Hl). split; [done|lia].
  - intros a id Hl. destruct (H6 a id Hl); auto.
  - intros a k Hl. destruct (H7 a k Hl) as [|[|]]; auto.
  - intros a f Hf. destruct (H8 a f Hf) as [Hlt [|]]; (split; [lia|auto]).
Qed.

Lemma try_send_alive m (c : chan (OutboundMessage num)) :
  chan_rx_alive (chan_try_send m c).2 = chan_rx_alive c ∧
  ((chan_try_send m c).1 = SendClosed → chan_rx_alive c = false).
Proof.
  destruct (chan_rx_alive c) eqn:Ea.
  - destruct (chan_permits c) eqn:Ep.
    + by rewrite chan_try_send_full.
    + destruct (chan_try_send_ok m c) as (c' & -> & _ & _ & _ & ?); [done|lia|done].
  - by rewrite chan_try_send_closed.
Qed.

(** Replies only touch the two queues. *)
Lemma terminate_frame m s :
  s_conn (terminate m s) = s_conn s ∧ s_tasks (terminate m s) = s_tasks s ∧
  s_hub (terminate m s) = s_hub s ∧ s_events (terminate m s) = s_events s ∧
  s_bus (terminate m s) = s_bus s ∧ s_writer (terminate m s) = s_writer s ∧
  s_out (terminate m s) = s_out s ∧ s_phase (terminate m s) = s_phase s.
Proof. done. Qed.

Lemma reply_frame m s :
  s_conn (send_or_terminate m s) = s_conn s ∧ s_tasks (send_or_terminate m s) = s_tasks s ∧
  s_hub (send_or_terminate m s) = s_hub s ∧ s_events (send_or_terminate m s) = s_events s ∧
  s_bus (send_or_terminate m s) = s_bus s ∧ s_writer (send_or_terminate m s) = s_writer s ∧
  chan_rx_alive (s_out (send_or_terminate m s)) = chan_rx_alive (s_out s).
Proof.
  unfold send_or_terminate. destruct (try_send_alive m (s_out s)) as [Ha _].
  by destruct (chan_try_send m (s_out s)) as [[]].
Qed.

Lemma reply_ok m s others : session_ok s others → session_ok (send_or_terminate m s) others.
Proof.
  intros H. destruct (reply_frame m s) as (E1 & E2 & E3 & E4 & E5 & E6 & E7).
  apply (ok_frame s); rewrite ?E1, ?E2, ?E3, ?E4, ?E5, ?E6, ?E7; try done. apply H.
Qed.

Lemma terminate_ok m s others : session_ok s others → session_ok (terminate m s) others.
Proof. intros H. apply (ok_frame s); try done. apply H. Qed.

Lemma bus_ok_set b s others : bus_mono (s_bus s) b → session_ok s others → session_ok (set_bus b s) others.
Proof. intros Hm H. apply (ok_frame s); try done. apply H. Qed.

Lemma phase_ok p s others : session_ok s others → session_ok (set_phase p s) others.
Proof. intros H. apply (ok_frame s); try done. apply H. Qed.

Lemma held_insert s a k : fwd_subs (s_conn s) !! a = None →
  (map_to_list (<[a := k]> (fwd_subs (s_conn s)))).*2 ≡ₚ k :: held s.
Proof. intros H. unfold held. by rewrite map_to_list_insert. Qed.

Lemma held_delete s a k : fwd_subs (s_conn s) !! a = Some k →
  k :: (map_to_list (delete a (fwd_subs (s_conn s)))).*2 ≡ₚ held s.
Proof. intros H. unfold held. by rewrite <- (map_to_list_delete _ a k H). Qed.

Lemma held_length s : length (held s) = size (fwd_subs (s_conn s)).
Proof. unfold held. by rewrite length_fmap, length_map_to_list. Qed.

(** The tables shrink. *)
Lemma remove_local_ok a s others : session_ok s others → session_ok (remove_local a s) others.
Proof.
  intros H. unfold remove_local. destruct (local_subs (s_conn s) !! a) as [id|] eqn:E; [|done].
  destruct H as [H1 H2 H3 H4 H5 H6 H7 H8 H9 H10 H11].
  pose proof (bus_mono_unsubscribe id (s_bus s)) as [Hn Hm]. split; simpl; try done.
  - rewrite map_size_delete, E. lia.
  - intros a' id' [Hne Hl]%lookup_delete_Some. destruct (H2 a' id' Hl). split; [done|lia].
  - intros a' id' [Hne Hl]%lookup_delete_Some. by apply H6.
  - intros a' f Hf. destruct (H8 a' f Hf) as [Hlt Hor]. split; [lia|].
    destruct Hor as [Hl|Hnone]; [|right; by apply Hm].
    destruct (decide (a = a')) as [->|Hne]; [|left; by rewrite lookup_delete_ne].
    rewrite E in Hl. injection Hl as ->. right. apply unsubscribe_gone.
  - intros a' id' [_ Hl]%lookup_delete_Some. by eapply H11.
Qed.

Lemma remove_fwd_ok a s others : session_ok s others → session_ok (remove_fwd a s) others.
Proof.
  intros H. unfold remove_fwd. destruct (fwd_subs (s_conn s) !! a) as [k|] eqn:E; [|done].
  destruct H as [H1 H2 H3 H4 H5 H6 H7 H8 H9 H10 H11]. split; simpl; try done.
  - rewrite map_size_delete, E. lia.
  - intros a' k' [_ Hl]%lookup_delete_Some. by eapply H3.
  - intros a' f [_ Hf]%lookup_delete_Some. by eapply H4.
  - apply (hub_inv_step (s_hub s, [] ++ k :: ((map_to_list (delete a (fwd_subs (s_conn s)))).*2 ++ others)));
      [exact (hs_unsubscribed k (s_hub s) [] _)|].
    revert H5. apply hub_inv_perm. simpl. rewrite <- (held_delete s a k E). done.
  - intros a' id Hl. destruct (H6 a' id Hl) as [(f & Hf & Hid)|]; [|by right]. left. exists f.
    split; [|done]. rewrite lookup_delete_ne; [done|]. intros <-. by rewrite (H11 a id Hl) in E.
  - intros a' k' [Hne Hl]%lookup_delete_Some. rewrite lookup_delete_ne by done. by apply H7.
  - intros a' f [_ Hf]%lookup_delete_Some. by apply H8.
  - intros a' k' [Hne Hf]%lookup_delete_Some. rewrite lookup_delete_ne by done. by apply H9.
  - intros a' id Hl. apply lookup_delete_None. right. by eapply H11.
Qed.

(** The tables grow. *)
Definition fresh (a : N) s : Prop :=
  local_subs (s_conn s) !! a = None ∧ fwd_subs (s_conn s) !! a = None ∧ s_tasks s !! a = None.

Lemma next_fresh s others : session_ok s others → fresh (next_app_id (s_conn s)) s.
Proof.
  intros H. unfold fresh. split_and!.
  - destruct (local_subs _ !! _) eqn:E; [|done]. apply (so_local_lt _ _ H) in E as [? _]. lia.
  - destruct (fwd_subs _ !! _) eqn:E; [|done]. apply (so_fwd_lt _ _ H) in E. lia.
  - destruct (s_tasks s !! _) eqn:E; [|done]. apply (so_task_lt _ _ H) in E. lia.
Qed.

Lemma bump_ok s others : (next_app_id (s_conn s) + 1 < 2 ^ 64)%N →
  session_ok s others → session_ok (bump_app_id s) others.
Proof.
  intros Hlt [H1 H2 H3 H4 H5 H6 H7 H8 H9 H10 H11].
  split; simpl; rewrite ?wrap64_small by done; try done.
  - intros a id Hl. destruct (H2 a id Hl). split; [lia|done].
  - intros a k Hl. specialize (H3 a k Hl). lia.
  - intros a f Hl. specialize (H4 a f Hl). lia.
Qed.

Lemma add_fwd_ok a k sender h s others :
  fresh a s → (a < next_app_id (s_conn s))%N →
  size (local_subs (s_conn s)) + size (fwd_subs (s_conn s)) < WS_MAX_SUBSCRIPTIONS_PER_CONN →
  (N.of_nat (S (size (fwd_subs (s_conn s)) + length others)) < 2 ^ 64)%N →
  hub_subscribe k sender (s_hub s) = (true, h) →
  session_ok s others → session_ok (add_fwd a k (set_hub h s)) others.
Proof.
  intros (Fl & Ff & Ft) Ha Hcap Hlen Hs [H1 H2 H3 H4 H5 H6 H7 H8 H9 H10 H11].
  split; simpl; try done.
  - rewrite map_size_insert, Ff. lia.
  - intros a' k' [[<- _]|[_ Hl]]%lookup_insert_Some; eauto.
  - intros a' f [[<- _]|[_ Hl]]%lookup_insert_Some; eauto.
  - apply (hub_inv_perm _ (k :: (held s ++ others))).
    { unfold held at 2. simpl. rewrite (held_insert s a k Ff). done. }
    apply (hub_inv_step (s_hub s, held s ++ others)); [|done].
    econstructor; [done|]. rewrite length_app, held_length. lia.
  - intros a' id Hl. rewrite lookup_insert_ne by congruence. auto.
  - intros a' k' [[<- <-]|[Hne Hl]]%lookup_insert_Some.
    + rewrite lookup_insert_eq. by left.
    + rewrite lookup_insert_ne by done. auto.
  - intros a' f [[_ ?]|[_ Hl]]%lookup_insert_Some; [done|]. auto.
  - intros a' k' [[<- [= <-]]|[Hne Hl]]%lookup_insert_Some.
    + apply lookup_insert_eq.
    + rewrite lookup_insert_ne by done. auto.
  - intros a' id Hl. rewrite lookup_insert_ne by congruence. eauto.
Qed.

Lemma add_local_ok a id b s others :
  fresh a s → (a < next_app_id (s_conn s))%N →
  size (local_subs (s_conn s)) + size (fwd_subs (s_conn s)) < WS_MAX_SUBSCRIPTIONS_PER_CONN →
  (id < next_id b)%N → bus_mono (s_bus s) b →
  session_ok s others → session_ok (add_local a id (set_bus b s)) others.
Proof.
  intros (Fl & Ff & Ft) Ha Hcap Hid [Hn Hm] [H1 H2 H3 H4 H5 H6 H7 H8 H9 H10 H11].
  split; simpl; try done.
  - rewrite map_size_insert, Fl. lia.
  - intros a' id' [[<- <-]|[_ Hl]]%lookup_insert_Some; [done|]. destruct (H2 a' id' Hl). split; [done|lia].
  - intros a' f [[<- _]|[_ Hl]]%lookup_insert_Some; eauto.
  - intros a' id' [[<- <-]|[Hne Hl]]%lookup_insert_Some.
    + left. rewrite lookup_insert_eq. eauto.
    + rewrite lookup_insert_ne by done. auto.
  - intros a' k Hl. rewrite lookup_insert_ne by congruence. auto.
  - intros a' f [[<- [= <-]]|[Hne Hl]]%lookup_insert_Some.
    + split; [done|]. left. apply lookup_insert_eq.
    + destruct (H8 a' f Hl) as [Hlt Hor]. split; [lia|]. rewrite lookup_insert_ne by done.
      destruct Hor; auto.
  - intros a' k [[_ ?]|[_ Hl]]%lookup_insert_Some; [done|]. auto.
  - intros a' id' [[<- _]|[_ Hl]]%lookup_insert_Some; [done|]. eauto.
Qed.

(** A task ends and says so, or cannot because the writer is gone. *)
Lemma exits_ok a f e s others :
  s_tasks s !! a = Some f →
  match f with FLocal _ => LocalTerminated a ∈ e | FPeer _ => LagTerminated a ∈ e ∨ s_writer s = false end →
  session_ok s others → session_ok (peer_exits a e s) others.
Proof.
  intros Hf He [H1 H2 H3 H4 H5 H6 H7 H8 H9 H10 H11]. split; simpl; try done.
  - intros a' f' [_ Hl]%lookup_delete_Some. eauto.
  - intros a' id Hl. destruct (decide (a = a')) as [<-|Hne].
    + right. apply elem_of_app. destruct (H6 a id Hl) as [(f' & Hf' & _)|]; [|by left].
      right. rewrite Hf in Hf'. by injection Hf' as ->.
    + rewrite lookup_delete_ne by done. destruct (H6 a' id Hl); [auto|]. right. apply elem_of_app. by left.
  - intros a' k Hl. destruct (decide (a = a')) as [<-|Hne].
    + right. destruct (H7 a k Hl) as [Hf'|[|]]; [|left; apply elem_of_app; by left|by right].
      rewrite Hf in Hf'. injection Hf' as ->. destruct He; [left; apply elem_of_app; by right|by right].
    + rewrite lookup_delete_ne by done.
      destruct (H7 a' k Hl) as [|[|]]; [auto| |auto]. right. left. apply elem_of_app. by left.
  - intros a' f' [_ Hl]%lookup_delete_Some. auto.
  - intros a' k [_ Hl]%lookup_delete_Some. auto.
Qed.

(** A local task moves. *)
Lemma set_task_ok a f f' s others :
  s_tasks s !! a = Some (FLocal f) → lf_bus_id f' = lf_bus_id f →
  session_ok s others → session_ok (set_task a f' s) others.
Proof.
  intros Hf Eid [H1 H2 H3 H4 H5 H6 H7 H8 H9 H10 H11]. split; simpl; try done.
  - intros a' g [[<- _]|[_ Hl]]%lookup_insert_Some; eauto.
  - intros a' id Hl. destruct (H6 a' id Hl) as [(g & Hg & Hid)|]; [|by right]. left.
    destruct (decide (a = a')) as [<-|Hne].
    + exists f'. rewrite lookup_insert_eq. split; [done|]. rewrite Hf in Hg. injection Hg as <-. congruence.
    + exists g. by rewrite lookup_insert_ne.
  - intros a' k Hl. destruct (decide (a = a')) as [<-|Hne].
    + destruct (H7 a k Hl) as [Hk|]; [|by right]. congruence.
    + rewrite lookup_insert_ne by done. auto.
  - intros a' g [[<- [= <-]]|[_ Hl]]%lookup_insert_Some; [|auto]. rewrite Eid. auto.
  - intros a' k [[_ ?]|[_ Hl]]%lookup_insert_Some; [done|]. auto.
Qed.

(** A message of a task is taken: its entry is gone. *)
Lemma pop_event_ok e l s others :
  s_events s = e :: l →
  match e with
  | LocalTerminated a => local_subs (s_conn s) !! a = None
  | LagTerminated a => fwd_subs (s_conn s) !! a = None
  end → session_ok s others → session_ok (set_events l s) others.
Proof.
  intros E He [H1 H2 H3 H4 H5 H6 H7 H8 H9 H10 H11]. split; simpl; try done.
  - intros a id Hl. destruct (H6 a id Hl) as [|Hin]; [by left|]. right. rewrite E in Hin.
    apply elem_of_cons in Hin as [<-|]; [congruence|done].
  - intros a k Hl. destruct (H7 a k Hl) as [|[Hin|]]; [by left| |auto]. right. rewrite E in Hin.
    apply elem_of_cons in Hin as [<-|]; [congruence|auto].
Qed.

Lemma on_event_ok e l s others :
  s_events s = e :: l → session_ok s others →
  session_ok (on_forwarder_event e (set_events l s)) others.
Proof.
  intros E H. destruct e as [a|a]; simpl.
  - assert (remove_fwd a (set_events l s) = set_events l (remove_fwd a s)) as ->.
    { unfold remove_fwd. simpl. by destruct (fwd_subs (s_conn s) !! a). }
    apply (pop_event_ok (LagTerminated a)).
    + unfold remove_fwd. by destruct (fwd_subs (s_conn s) !! a).
    + unfold remove_fwd. destruct (fwd_subs (s_conn s) !! a) eqn:Ea; [|done]. apply lookup_delete_eq.
    + by apply remove_fwd_ok.
  - assert (remove_local a (set_events l s) = set_events l (remove_local a s)) as ->.
    { unfold remove_local. simpl. by destruct (local_subs (s_conn s) !! a). }
    apply (pop_event_ok (LocalTerminated a)).
    + unfold remove_local. by destruct (local_subs (s_conn s) !! a).
    + unfold remove_local. destruct (local_subs (s_conn s) !! a) eqn:Ea; [|done]. apply lookup_delete_eq.
    + by apply remove_local_ok.
Qed.

(** The arm of [Subscribe]: whatever it returns or panics with. *)
Lemma on_subscribe_ok ctx sender now now' tp lim cap s others r :
  (next_app_id (s_conn s) + 1 < 2 ^ 64)%N → (next_id (s_bus s) + 1 < 2 ^ 64)%N →
  (N.of_nat (S (size (fwd_subs (s_conn s)) + length others)) < 2 ^ 64)%N →
  on_subscribe topic_error_text core_name has_senders ctx sender now now' tp lim cap s = r →
  session_ok s others →
  match r with Ok s' | Err s' => session_ok s' others end.
Proof.
  intros Ha Hb Hl <- H. unfold on_subscribe.
  destruct (WS_MAX_SUBSCRIPTIONS_PER_CONN <=? _) eqn:Ecap; [by apply reply_ok|].
  apply Nat.leb_gt in Ecap. destruct (topic_parse tp) as [[pattern|e]|]; [|by apply reply_ok|by apply phase_ok].
  destruct (is_peer_topic core_name has_senders tp && capability_denied ctx); [by apply reply_ok|].
  set (a := next_app_id (s_conn s)).
  destruct (reply_frame (OutSubscribeAck num now tp a) (bump_app_id s)) as (E1 & E2 & E3 & E4 & E5 & E6 & E7).
  assert (H1 : session_ok (send_or_terminate (OutSubscribeAck num now tp a) (bump_app_id s)) others)
    by (by apply reply_ok, bump_ok).
  set (s1 := send_or_terminate _ _) in *.
  assert (Hfresh : fresh a s1).
  { unfold fresh. rewrite E1, E2. exact (next_fresh s others H). }
  assert (Hlt : (a < next_app_id (s_conn s1))%N).
  { rewrite E1. simpl. rewrite wrap64_small by done. lia. }
  destruct (is_peer_topic core_name has_senders tp).
  - destruct (hub_subscribe (topic_head tp, tp) sender (s_hub s1)) as [[] h] eqn:Eh.
    + eapply add_fwd_ok; eauto; by rewrite E1.
    + apply reply_ok. apply (ok_frame s1); try done; [|apply H1].
      unfold hub_subscribe in Eh. destruct (s_hub s1 !! _); [done|]. destruct sender; [done|]. by injection Eh as <-.
  - destruct (subscribe pattern _ (s_bus s1)) as [[id b]|] eqn:Es.
    + rewrite <- (f_equal next_id E5 : next_id (s_bus s1) = next_id (s_bus s)) in Hb.
      destruct (subscribe_subs _ _ _ _ _ Hb Es) as (-> & Hn & Hj).
      apply add_local_ok; [done|done|by rewrite E1|lia| |done].
      apply bus_mono_step. by eapply bs_subscribe.
    + apply phase_ok, bus_ok_set; [|done]. split; simpl; [|done].
      rewrite E5. simpl. rewrite wrap64_small by done. lia.
Qed.

Lemma on_text_ok ctx sender now now' parsed s others r :
  (next_app_id (s_conn s) + 1 < 2 ^ 64)%N → (next_id (s_bus s) + 1 < 2 ^ 64)%N →
  (N.of_nat (S (size (fwd_subs (s_conn s)) + length others)) < 2 ^ 64)%N →
  on_text topic_error_text core_name has_senders ctx sender now now' parsed s = r →
  session_ok s others →
  match r with Ok s' | Err s' => session_ok s' others end.
Proof.
  intros Ha Hb Hl <- H. unfold on_text. destruct parsed as [[tp lim cap|id|d]|e].
  - eapply on_subscribe_ok; eauto.
  - by apply reply_ok, remove_fwd_ok, remove_local_ok.
  - by apply reply_ok.
  - by apply reply_ok.
Qed.

Lemma writer_exits_ok s others : session_ok s others → session_ok (writer_exits s) others.
Proof. intros H. apply (ok_frame s); try done. simpl. apply chan_drop_rx_spec. Qed.

Lemma writer_ok ok s s' others : writer_poll ok s = Some s' → session_ok s others → session_ok s' others.
Proof.
  unfold writer_poll. destruct (s_writer s) eqn:Ew; [|done]. intros Hp H.
  pose proof (chan_pop_spec (s_terminal s)) as Ht. pose proof (chan_pop_spec (s_out s)) as Ho.
  destruct (chan_pop (s_terminal s)) as [[m|] c].
  - injection Hp as <-. assert (session_ok (set_terminal c s) others) as H1
      by (apply (ok_frame s); try done; apply H).
    unfold send_text. destruct ok; [|by apply writer_exits_ok]. apply (ok_frame s); try done. apply H.
  - destruct (chan_pop (s_out s)) as [[m|] c'].
    + injection Hp as <-. destruct Ho as (_ & _ & _ & _ & Ha).
      assert (session_ok (set_out c' s) others) as H1.
      { apply (ok_frame s); try done. simpl. rewrite Ha. apply H. }
      unfold send_text. destruct ok; [|by apply writer_exits_ok]. apply (ok_frame (set_out c' s)); try done.
      apply H1.
    + destruct (senders_gone s); [|done]. injection Hp as <-. by apply writer_exits_ok.
Qed.

Lemma local_exits_ok a f s others :
  s_tasks s !! a = Some (FLocal f) → session_ok s others → session_ok (local_exits a f s) others.
Proof.
  intros Hf H. apply (bus_ok_set (rx_drop (lf_bus_id f) (s_bus s)) (peer_exits a [LocalTerminated a] s)).
  - apply bus_mono_subs; apply rx_drop_subs.
  - eapply exits_ok; [done|by left|done].
Qed.

Lemma local_poll_ok now a f s s' others :
  s_tasks s !! a = Some (FLocal f) → local_poll now a f s = Some s' →
  session_ok s others → session_ok s' others.
Proof.
  intros Hf Hp H. unfold local_poll in Hp.
  destruct (if lf_slow_done f then None else slow_consumer_rx (lf_bus_id f) (s_bus s)) as [[n|]|].
  - injection Hp as <-. apply local_exits_ok; [done|by apply terminate_ok].
  - injection Hp as <-. by eapply set_task_ok.
  - destruct (lf_sending f) as [m|].
    + destruct (negb (chan_rx_alive (s_out s))) eqn:Ea; [injection Hp as <-; by apply local_exits_ok|].
      destruct (chan_acquire (s_out s)) as [c|] eqn:Ec; [|done]. injection Hp as <-.
      apply (ok_frame (set_task a (mk_local_fwd (lf_bus_id f) (lf_slow_done f) None) s)); try done.
      * simpl. destruct (chan_store_spec m c) as (_ & _ & _ & ->).
        apply chan_acquire_some in Ec as (Hal & _ & _ & _ & _ & ->). by rewrite <- (so_alive _ _ H), Hal.
      * by eapply set_task_ok.
    + pose proof (rx_try_recv_subs (lf_bus_id f) (s_bus s)) as [E1 E2].
      destruct (rx_try_recv (lf_bus_id f) (s_bus s)) as [[ev|[]] b]; [|done|]; injection Hp as <-.
      * apply bus_ok_set; [by apply bus_mono_subs|]. by eapply set_task_ok.
      * by apply local_exits_ok.
Qed.

Lemma peer_poll_ok now a k (r : PeerRecv) s others :
  s_tasks s !! a = Some (FPeer k) → session_ok s others → session_ok (peer_poll now a k r s) others.
Proof.
  intros Hf H. unfold peer_poll. destruct r as [v|n|].
  - destruct (try_send_alive (render_peer_event now a k.2 v) (s_out s)) as [Ha Hc].
    destruct (chan_try_send _ (s_out s)) as [[] c]; simpl in *.
    + apply (ok_frame s); try done. simpl. rewrite Ha. apply H.
    + eapply exits_ok; [done|left; by left|by apply terminate_ok].
    + eapply exits_ok; [done| |done]. right. rewrite <- (so_alive _ _ H). by apply Hc.
  - eapply exits_ok; [done|left; by left|by apply terminate_ok].
  - eapply (exits_ok _ (FPeer k)); [done|left; by left|].
    apply (ok_frame s); try done. simpl. rewrite (proj1 (try_send_alive _ _)). apply H.
Qed.

Lemma cleanup_ok s others : session_ok s others → session_ok (cleanup s) others.
Proof.
  intros [H1 H2 H3 H4 H5 H6 H7 H8 H9 H10 H11]. unfold cleanup.
  pose proof (bus_mono_unsubscribe_all (map_to_list (local_subs (s_conn s))) (s_bus s)) as [Hn Hm].
  split; simpl; try done.
  - rewrite !map_size_empty. apply Nat.le_0_l.
  - intros a f [Hf _]%map_lookup_filter_Some. eauto.
  - unfold held. simpl. rewrite map_to_list_empty. simpl.
    assert (∀ l : list (N * stream_key), foldr (λ t h, hub_unsubscribe t.2 h) (s_hub s) l
              = foldr hub_unsubscribe (s_hub s) l.*2) as ->.
    { intros l. by rewrite foldr_fmap. }
    by apply hub_inv_release.
  - intros a f [Hf _]%map_lookup_filter_Some. destruct (H8 a f Hf) as [Hlt Hor]. split; [lia|]. right.
    destruct Hor as [Hl|Hnone]; [|by apply Hm].
    apply (unsubscribe_all_gone _ _ (a, lf_bus_id f)); [done|]. by apply elem_of_map_to_list.
  - intros a k [Hf Hnone]%map_lookup_filter_Some. simpl in Hnone. specialize (H9 a k Hf). congruence.
Qed.

Abbreviation step := (session_step topic_error_text core_name has_senders).
Abbreviation wstep := (world_step topic_error_text core_name has_senders).

Lemma session_step_ok s s' others :
  step s s' → (N.of_nat (S (size (fwd_subs (s_conn s)) + length others)) < 2 ^ 64)%N →
  session_ok s others → session_ok s' others.
Proof.
  intros Hs Hl H. destruct Hs as
    [ctx sender now now' parsed s s' Hph Ha Hb Ht|ctx sender now now' parsed s s' Hph Ha Hb Ht
    |e l s Hph He|s Hph|ok s s' Hw|now a f s s' Hf Hp|s Hph Hw].
  - exact (on_text_ok _ _ _ _ _ _ _ _ Ha Hb Hl Ht H).
  - exact (on_text_ok _ _ _ _ _ _ _ _ Ha Hb Hl Ht H).
  - by apply on_event_ok.
  - by apply phase_ok.
  - by eapply writer_ok.
  - by eapply local_poll_ok.
  - by apply cleanup_ok.
Qed.

(** The hub moves under the other connections. *)
Lemma hub_other_ok h s others others' :
  (hub_inv (s_hub s, held s ++ others) → hub_inv (h, held s ++ others')) →
  session_ok s others → session_ok (set_hub h s) others'.
Proof. intros Hh [H1 H2 H3 H4 H5 H6 H7 H8 H9 H10 H11]. split; simpl; auto. Qed.

Lemma world_step_ok w w' : wstep w w' → session_ok w.1 w.2 → session_ok w'.1 w'.2.
Proof.
  intros Hw H. destruct Hw as [s s' others Hs Hl|b s others Hb|k sender h s others Hs Hl|k s l1 l2|k s others
    |now a k r s others Hf Hr]; simpl in *.
  - by eapply session_step_ok.
  - apply bus_ok_set; [by apply bus_mono_step|done].
  - eapply hub_other_ok; [|done]. intros Hh.
    apply (hub_inv_perm _ (k :: (held s ++ others))); [by rewrite Permutation_middle|].
    apply (hub_inv_step (s_hub s, held s ++ others)); [|done].
    econstructor; [done|]. rewrite length_app, held_length. lia.
  - eapply hub_other_ok; [|done]. intros Hh. rewrite app_assoc in Hh |- *.
    exact (hub_inv_step _ _ (hs_unsubscribed k (s_hub s) (held s ++ l1) l2) Hh).
  - eapply hub_other_ok; [|done]. intros Hh. apply (hub_inv_step (s_hub s, held s ++ others)); [constructor|done].
  - by apply peer_poll_ok.
Qed.

Lemma session_new_ok b h others : hub_inv (h, others) → session_ok (session_new b h) others.
Proof.
  intros Hh. split; simpl; try done.
  - rewrite !map_size_empty. apply Nat.le_0_l.
  - by destruct (chan_new_spec (A:=OutboundMessage num) WS_OUTBOUND_CAPACITY) as (_ & _ & _ & ->).
Qed.

Lemma session_reachable_ok b h others0 s others :
  rtc hub_step (hub_new, []) (h, others0) →
  rtc wstep (session_new b h, others0) (s, others) → session_ok s others.
Proof.
  intros Hh Hw. apply (rtc_invariant wstep (λ w, session_ok w.1 w.2) _ _ world_step_ok) in Hw; [done|].
  apply session_new_ok. exact (hub_inv_reachable _ Hh).
Qed.

Lemma refcount_of_inv h holders k : hub_inv (h, holders) →
  refcount k h = let n := PeerStreams.count k holders in if n =? 0 then None else Some (N.of_nat n).
Proof.
  intros [_ Hc]. specialize (Hc k). simpl in *. unfold refcount.
  destruct (h !! k) as [e|]; simpl; [destruct Hc as [-> Hpos]|by rewrite Hc].
  by destruct (PeerStreams.count k holders); [lia|].
Qed.

(** C12: the books of a connection balance, whatever the client sends, the bus
    and the peers do, and the other connections do in between. It never holds
    more than 64 subscriptions; the count of every shared peer stream is the
    number of its subscriptions, this connection's and the others'; an entry
    of a table has a running task, or the dispatcher has been told (or, for a
    peer subscription, the writer is gone); and a running task has its entry,
    or its bus subscription is closed and the task is about to end. *)
Theorem session_accounting b h others0 s others :
  rtc hub_step (hub_new, []) (h, others0) →
  rtc wstep (session_new b h, others0) (s, others) →
  size (local_subs (s_conn s)) + size (fwd_subs (s_conn s)) ≤ WS_MAX_SUBSCRIPTIONS_PER_CONN ∧
  (∀ k, refcount k (s_hub s) = let n := PeerStreams.count k (held s ++ others) in
     if n =? 0 then None else Some (N.of_nat n)) ∧
  (∀ a id, local_subs (s_conn s) !! a = Some id →
     (∃ f, s_tasks s !! a = Some (FLocal f) ∧ lf_bus_id f = id) ∨ LocalTerminated a ∈ s_events s) ∧
  (∀ a k, fwd_subs (s_conn s) !! a = Some k →
     s_tasks s !! a = Some (FPeer k) ∨ LagTerminated a ∈ s_events s ∨ s_writer s = false) ∧
  (∀ a f, s_tasks s !! a = Some (FLocal f) →
     local_subs (s_conn s) !! a = Some (lf_bus_id f) ∨ subs (s_bus s) !! lf_bus_id f = None) ∧
  (∀ a k, s_tasks s !! a = Some (FPeer k) → fwd_subs (s_conn s) !! a = Some k).
Proof.
  intros Hh Hw. pose proof (session_reachable_ok _ _ _ _ _ Hh Hw) as H. split_and!.
  - apply H.
  - intros k. apply refcount_of_inv, H.
  - apply H.
  - apply H.
  - intros a f Hf. by apply (so_task_local _ _ H).
  - apply H.
Qed.

(** A finished connection keeps no entry. *)
Definition emptied s : Prop := s_phase s = Finished → local_subs (s_conn s) = ∅ ∧ fwd_subs (s_conn s) = ∅.

Lemma reply_phase m s : s_phase (send_or_terminate m s) = s_phase s.
Proof. unfold send_or_terminate. by destruct (chan_try_send m (s_out s)) as [[]]. Qed.

Lemma remove_phase a s : s_phase (remove_local a s) = s_phase s ∧ s_phase (remove_fwd a s) = s_phase s.
Proof. unfold remove_local, remove_fwd. by destruct (local_subs _ !! _), (fwd_subs _ !! _). Qed.

Lemma on_text_phase ctx sender now now' parsed s :
  s_phase s = Running →
  match on_text topic_error_text core_name has_senders ctx sender now now' parsed s with
  | Ok s' => s_phase s' = Running
  | Err s' => s_phase s' = Panicked
  end.
Proof.
  intros Hp. unfold on_text. destruct parsed as [[tp lim cap|id|d]|e]; rewrite ?reply_phase; try done.
  - unfold on_subscribe.
    destruct (_ <=? _); [by rewrite reply_phase|].
    destruct (topic_parse tp) as [[pattern|e]|]; [|by rewrite reply_phase|done].
    destruct (_ && capability_denied ctx); [by rewrite reply_phase|].
    destruct (is_peer_topic core_name has_senders tp).
    + destruct (hub_subscribe _ _ _) as [[] h]; [|rewrite reply_phase]; simpl; by rewrite reply_phase.
    + destruct (subscribe _ _ _) as [[]|]; [|done]. simpl. by rewrite reply_phase.
  - by rewrite (proj2 (remove_phase _ _)), (proj1 (remove_phase _ _)).
Qed.

Lemma local_poll_frame now a f s s' : local_poll now a f s = Some s' →
  s_conn s' = s_conn s ∧ s_phase s' = s_phase s ∧ s_hub s' = s_hub s.
Proof.
  unfold local_poll. intros H.
  destruct (if lf_slow_done f then None else slow_consumer_rx (lf_bus_id f) (s_bus s)) as [[n|]|];
    [by injection H as <-..|].
  destruct (lf_sending f) as [m|].
  - destruct (negb _); [by injection H as <-|]. destruct (chan_acquire _); [by injection H as <-|done].
  - destruct (rx_try_recv _ _) as [[ev|[]] b]; [|done|]; by injection H as <-.
Qed.

Lemma writer_poll_frame ok s s' : writer_poll ok s = Some s' →
  s_conn s' = s_conn s ∧ s_phase s' = s_phase s ∧ s_tasks s' = s_tasks s.
Proof.
  unfold writer_poll, send_text. destruct (s_writer s); [|done]. intros H.
  destruct (chan_pop (s_terminal s)) as [[]]; [injection H as <-; by destruct ok|].
  destruct (chan_pop (s_out s)) as [[]]; [injection H as <-; by destruct ok|].
  by destruct (senders_gone s); [injection H as <-|].
Qed.

Lemma peer_poll_frame now a k (r : PeerRecv) s :
  s_conn (peer_poll now a k r s) = s_conn s ∧ s_phase (peer_poll now a k r s) = s_phase s.
Proof.
  unfold peer_poll. destruct r as [v|n|]; try done. by destruct (chan_try_send _ _) as [[]].
Qed.

Lemma emptied_step w w' : wstep w w' → emptied w.1 → emptied w'.1.
Proof.
  intros Hw H. destruct Hw as [s s' others Hs Hl|b s others Hb|k sender h s others Hs Hl|k s l1 l2|k s others
    |now a k r s others Hf Hr]; simpl in *; try done.
  - destruct Hs as [ctx sender now now' parsed s s' Hph Ha Hb Ht|ctx sender now now' parsed s s' Hph Ha Hb Ht
      |e l s Hph He|s Hph|ok s s' Hw|now a f s s' Hf Hp|s Hph Hw]; try done.
    + pose proof (on_text_phase ctx sender now now' parsed s Hph) as Hp. rewrite Ht in Hp. unfold emptied. congruence.
    + pose proof (on_text_phase ctx sender now now' parsed s Hph) as Hp. rewrite Ht in Hp. unfold emptied. congruence.
    + unfold emptied. destruct e as [a|a]; simpl.
      * rewrite (proj2 (remove_phase a _)). simpl. congruence.
      * rewrite (proj1 (remove_phase a _)). simpl. congruence.
    + apply writer_poll_frame in Hw as (E1 & E2 & _). unfold emptied. by rewrite E1, E2.
    + apply local_poll_frame in Hp as (E1 & E2 & _). unfold emptied. by rewrite E1, E2.
  - unfold emptied. destruct (peer_poll_frame now a k r s) as [-> ->]. done.
Qed.

End invariant.

(** *** Waiting for the writer *)

Section draining.
  Context {tl : TopicLibs} {time : TimeLib} {num : Type} `{!SerdeNumber num, !SerdeInt num}.
  Context `{!BusLibs num, !Mpsc (EventEnvelope num), !Mpsc (OutboundMessage num)}.
  Context {laws : MpscLaws (OutboundMessage num)} {env_laws : MpscLaws (EventEnvelope num)}.
  Context (topic_error_text : TopicParseError → string) (core_name : string) (has_senders : bool).
  Implicit Types (s : Session num) (m : OutboundMessage num).

(** A forwarder with nothing to do: its subscription is live and empty. *)
Definition idle (f : LocalForwarder num) (b : EventBus num) : Prop :=
  lf_sending f = None ∧ is_Some (subs b !! lf_bus_id f) ∧ notices b !! lf_bus_id f = None ∧
  (rx_try_recv (lf_bus_id f) b).1 = Err RecvEmpty.

Lemma pop_empty (c : chan (OutboundMessage num)) : chan_contents c = [] → (chan_pop c).1 = None.
Proof.
  intros E. pose proof (chan_pop_spec c) as H. destruct (chan_pop c) as [r c'].
  destruct H as (-> & _). by rewrite E.
Qed.

Lemma idle_waits now a f s : idle f (s_bus s) → local_poll now a f s = None.
Proof.
  intros (Es & [sub Hs] & Hn & Hr). unfold local_poll, slow_consumer_rx. rewrite Es, Hs, Hn.
  destruct (rx_try_recv (lf_bus_id f) (s_bus s)) as [r b]. simpl in Hr. subst r. by destruct (lf_slow_done f).
Qed.

(** Closing a connection does not release it. Once the client is gone the
    handler waits for the writer, the writer waits for every sender of its
    queue, and an idle forwarder keeps one: as long as one task is left and
    each local one is idle, nothing in the connection can move, and its
    subscriptions stay on the bus and in the hub until some event arrives. *)
Theorem close_waits_for_event s :
  s_phase s = Draining → s_writer s = true →
  chan_contents (s_out s) = [] → chan_contents (s_terminal s) = [] →
  s_tasks s ≠ ∅ →
  (∀ a f, s_tasks s !! a = Some (FLocal f) → idle f (s_bus s)) →
  ∀ s', ¬ session_step topic_error_text core_name has_senders s s'.
Proof.
  intros Hp Hw Ho Ht Hne Hidle s' Hs. destruct Hs as
    [ctx sender now now' parsed s s' Hph|ctx sender now now' parsed s s' Hph
    |e l s Hph He|s Hph|ok s s' Hwp|now a f s s' Hf Hpoll|s Hph Hwf]; try congruence.
  - unfold writer_poll in Hwp. rewrite Hw in Hwp. apply pop_empty in Ho, Ht.
    destruct (chan_pop (s_terminal s)) as [[] ?]; [done|]. destruct (chan_pop (s_out s)) as [[] ?]; [done|].
    unfold senders_gone in Hwp. rewrite (bool_decide_eq_false_2 (s_tasks s = ∅) Hne), andb_false_r in Hwp. done.
  - by rewrite (idle_waits now a f s (Hidle a f Hf)) in Hpoll.
Qed.

(** *** A local forwarder loses only what it is told to *)

(** The events of a subscription on their way out: queued for the writer, in
    the hands of the forwarder, queued on the bus. *)
Definition in_flight (f : LocalForwarder num) : list (OutboundMessage num) := option_list (lf_sending f).
Definition on_bus (a : N) (id : SubscriptionId) (b : EventBus num) :
    list (OutboundMessage num) :=
  match chans b !! id with
  | Some c => map (render_event_for_ws a) (chan_contents c)
  | None => []
  end.
Definition pipeline (a : N) (f : LocalForwarder num) s : list (OutboundMessage num) :=
  chan_contents (s_out s) ++ in_flight f ++ on_bus a (lf_bus_id f) (s_bus s).

Lemma on_bus_set_chan a id c b :
  on_bus a id (set_chan id c b) = map (render_event_for_ws a) (chan_contents c).
Proof. unfold on_bus. simpl. by rewrite lookup_insert_eq. Qed.

(** C25: a forwarder neither loses, repeats nor reorders the events of its
    subscription. Each of its rounds moves the first event from the bus to its
    hands or from there to the end of the writer's queue; it ends only when
    everything was passed on or the writer is gone. The exceptions are the two
    answers of the notice: a slow consumer gets a gap on the terminal queue and
    loses what is left, and when the bus drops its end (the limit is reached)
    the event in its hands is lost without a gap while those behind it are
    still sent. *)
Theorem forwarder_conserves now a f s s' c :
  s_tasks s !! a = Some (FLocal f) → chans (s_bus s) !! lf_bus_id f = Some c →
  local_poll now a f s = Some s' →
  match (if lf_slow_done f then None else slow_consumer_rx (lf_bus_id f) (s_bus s)) with
  | None =>
      (∃ f', s_tasks s' !! a = Some (FLocal f') ∧ lf_bus_id f' = lf_bus_id f ∧
         pipeline a f' s' = pipeline a f s) ∨
      (s_tasks s' !! a = None ∧ s_out s' = s_out s ∧
         (chan_rx_alive (s_out s) = false ∨ pipeline a f s = chan_contents (s_out s)))
  | Some None =>
      ∃ f', s_tasks s' !! a = Some (FLocal f') ∧ lf_bus_id f' = lf_bus_id f ∧
        pipeline a f' s' = chan_contents (s_out s) ++ on_bus a (lf_bus_id f) (s_bus s)
  | Some (Some n) =>
      s_tasks s' !! a = None ∧ s_out s' = s_out s ∧
      s_terminal s' = (chan_try_send (stream_gap now a n) (s_terminal s)).2
  end.
Proof.
  intros Hf Hc Hp. unfold local_poll in Hp.
  destruct (if lf_slow_done f then None else slow_consumer_rx (lf_bus_id f) (s_bus s)) as [[n|]|].
  - injection Hp as <-. split_and!; [apply lookup_delete_eq|done|done].
  - injection Hp as <-. eexists. split; [apply lookup_insert_eq|]. done.
  - unfold pipeline, in_flight. destruct (lf_sending f) as [m|].
    + destruct (chan_rx_alive (s_out s)) eqn:Ea; simpl in Hp.
      * destruct (chan_acquire (s_out s)) as [q|] eqn:Eq; [|done]. injection Hp as <-. left. eexists.
        split; [apply lookup_insert_eq|]. split; [done|]. simpl.
        destruct (chan_store_spec m q) as (-> & _). apply chan_acquire_some in Eq as (_ & _ & -> & _).
        by rewrite <- app_assoc.
      * injection Hp as <-. right. split_and!; [apply lookup_delete_eq|done|by left].
    + unfold rx_try_recv in Hp. rewrite Hc in Hp. pose proof (chan_pop_spec c) as Hpop.
      destruct (chan_pop c) as [[ev|] c']; destruct Hpop as (Hh & Ht & _).
      * injection Hp as <-. left. eexists. split; [apply lookup_insert_eq|]. split; [done|]. simpl.
        rewrite on_bus_set_chan, Ht. unfold on_bus. rewrite Hc. by destruct (chan_contents c); simplify_eq/=.
      * destruct (bool_decide _); [done|]. injection Hp as <-. right.
        split_and!; [apply lookup_delete_eq|done|right]. unfold on_bus. rewrite Hc.
        destruct (chan_contents c); [by rewrite app_nil_r|done].
Qed.
End draining.

(** *** The relay of a peer's events *)

(** [Number] keeps the integers it is built from. *)
Class SerdeIntLaws (num : Type) `{!SerdeNumber num, !SerdeInt num} : Prop := {
  num_u64_roundtrip n : (n < 2 ^ 64)%N → num_as_u64 (num_of_u64 n) = Some n;
  num_i64_roundtrip z : (- 2 ^ 63 <= z < 2 ^ 63)%Z → num_as_i64 (num_of_i64 z) = Some z
}.

Section relay.
  Context {time : TimeLib} {num : Type} `{!SerdeNumber num, !SerdeInt num, !SerdeIntLaws num, !JsonText num}.
  Implicit Types ev : EventEnvelope num.

(** The widths of the fields. *)
Definition envelope_typed ev : Prop :=
  (sequence ev < 2 ^ 64)%N ∧ (payload_version ev < 2 ^ 32)%N ∧ (envelope_version ev < 2 ^ 8)%N.

Lemma as_i64_range z : (- 2 ^ 63 <= as_i64 z < 2 ^ 63)%Z.
Proof. unfold as_i64. pose proof (Z.mod_pos_bound (z + 2 ^ 63) (2 ^ 64)). lia. Qed.

Lemma relay_event now a tp ev : envelope_typed ev →
  render_peer_event now a tp (ndjson_event_line ev) = render_event_for_ws a ev.
Proof.
  intros (Hs & Hp & He). unfold render_peer_event, render_event_for_ws, ndjson_event_line, get_str, get_u64, get_key.
  repeat first [rewrite map_get_insert_eq | rewrite map_get_insert_ne by discriminate].
  cbn -[N.pow Z.pow N.modulo topic timestamp_ms]. rewrite num_i64_roundtrip by apply as_i64_range.
  cbn -[N.pow Z.pow N.modulo topic timestamp_ms].
  rewrite !num_u64_roundtrip by lia. simpl. rewrite !N.mod_small by lia.
  by destruct (format_rfc3339 (timestamp ev)).
Qed.

(** C24: a subscriber of a remote topic sees what a local one would. When the
    peer writes its events as lines, in whatever frames the transport cuts
    them, the messages the connection forwards are exactly the messages it
    would render for those envelopes from its own bus, in the same order,
    given that the JSON text of each line reads back as its value. *)
Theorem relay_exact now a tp (evs : list (EventEnvelope num)) (frames : list Frame) (tail : string) :
  payload frames = ndjson_body (map ndjson_event_line evs) +:+ tail →
  str_contains newline tail = false →
  Forall envelope_typed evs →
  Forall (λ ev, str_contains newline (json_print (ndjson_event_line ev)) = false ∧
                json_parse (json_print (ndjson_event_line ev)) = Ok (ndjson_event_line ev)) evs →
  map (render_peer_event now a tp) (stream_values "" frames) = map (render_event_for_ws a) evs.
Proof.
  intros Hp Ht Hty Htx. rewrite (stream_values_exact frames (map ndjson_event_line evs) tail Hp Ht).
  - rewrite map_map. apply map_ext_Forall. apply Forall_forall. intros ev Hin. apply relay_event.
    by apply (Forall_forall _ evs).
  - by apply List.Forall_map.
Qed.
End relay.

(** ** Closed instances *)

Module SessionExamples.
Import ConcreteNumber ConcreteTime TopicExamples ListChannel BusExamples.

#[export] Instance serde_int : SerdeInt number := {|
  num_of_i64 z := match z with Z0 => PosInt 0 | Zpos p => PosInt (Npos p) | Zneg p => NegInt p end;
  num_as_i64 n :=
    match n with
    | PosInt n => if (n <? 2 ^ 63)%N then Some (Z.of_N n) else None
    | NegInt p => Some (Zneg p)
    | Float _ => None
    end
|}.
#[export] Instance serde_int_laws : SerdeIntLaws number.
Proof.
  split; [done|]. intros [|p|p] Hz; simpl; [done| |done].
  destruct (N.ltb_spec (Npos p) (2 ^ 63)) as [|H]; [done|]. simpl in H. lia.
Qed.

Definition error_text (e : TopicParseError) : string := "topic".

Abbreviation step := (session_step error_text "hub" true).
Abbreviation wstep := (world_step error_text "hub" true).

Definition text (now : Z) (i : InboundMessage) (s : Session number) : Session number :=
  match on_text error_text "hub" true None true now now (Ok i) s with Ok s' => s' | Err s' => s' end.
Definition writes (ok : bool) (s : Session number) : Session number := default s (writer_poll ok s).
Definition polls (a : N) (s : Session number) : Session number :=
  match s_tasks s !! a with
  | Some (FLocal f) => default s (local_poll 0 a f s)
  | _ => s
  end.
Definition publishes (n : N) (order : list SubscriptionId) (s : Session number) : Session number :=
  match published n order (s_bus s) with Some (_, b) => set_bus b s | None => s end.

(** Two subscriptions, one local and one to a peer; the acknowledgements are
    written; the client goes away. *)
Definition s0 : Session number := session_new bus0 hub_new.
Definition s1 := text 10 (InSubscribe "hub/led/**" None None) s0.
Definition s2 := text 11 (InSubscribe "cloud/led/**" None None) s1.
Definition s3 := writes true (writes true s2).
Definition s4 := set_phase Draining s3.

(** An event arrives, and the socket refuses it. *)
Definition s5 := polls 1 (polls 1 (publishes 1 [1]%N s4)).
Definition s6 := cleanup (writes false s5).

Example wire_acks : s_wire s3 =
  [OutSubscribeAck _ 10 "hub/led/**" 1; OutSubscribeAck _ 11 "cloud/led/**" 2].
Proof. vm_compute. reflexivity. Qed.

Lemma session_reaches s s' :
  session_step error_text "hub" true s s' →
  (N.of_nat (S (size (fwd_subs (s_conn s)) + 0)) <? 2 ^ 64)%N = true → wstep (s, []) (s', []).
Proof. intros Hs Hl. apply ws_session; [done|]. by apply N.ltb_lt. Qed.

Lemma text_reaches now i s :
  bool_decide (s_phase s = Running) = true →
  (next_app_id (s_conn s) + 1 <? 2 ^ 64)%N = true → (next_id (s_bus s) + 1 <? 2 ^ 64)%N = true →
  (N.of_nat (S (size (fwd_subs (s_conn s)) + 0)) <? 2 ^ 64)%N = true →
  wstep (s, []) (text now i s, []).
Proof.
  intros Hp%bool_decide_eq_true Ha%N.ltb_lt Hb%N.ltb_lt Hl. apply session_reaches; [|done].
  unfold text. destruct (on_text _ _ _ _ _ _ _ _ _) as [s'|s'] eqn:E.
  - by apply (ss_text _ _ _ None true now now (Ok i)).
  - by apply (ss_panic _ _ _ None true now now (Ok i)).
Qed.

Lemma writes_reaches ok s :
  (N.of_nat (S (size (fwd_subs (s_conn s)) + 0)) <? 2 ^ 64)%N = true →
  rtc wstep (s, []) (writes ok s, []).
Proof.
  intros Hl. unfold writes. destruct (writer_poll ok s) as [s'|] eqn:E; [|done].
  apply rtc_once, session_reaches; [|done]. by eapply ss_writer.
Qed.

Lemma polls_reaches a s :
  (N.of_nat (S (size (fwd_subs (s_conn s)) + 0)) <? 2 ^ 64)%N = true →
  rtc wstep (s, []) (polls a s, []).
Proof.
  intros Hl. unfold polls. destruct (s_tasks s !! a) as [[f|]|] eqn:Ef; [|done|done].
  destruct (local_poll 0 a f s) as [s'|] eqn:E; [|done].
  apply rtc_once, session_reaches; [|done]. by eapply ss_local.
Qed.

Lemma s2_reachable : rtc wstep (s0, []) (s2, []).
Proof. eapply rtc_l; [|eapply rtc_l; [|done]]; apply text_reaches; vm_compute; reflexivity. Qed.

Lemma s4_reachable : rtc wstep (s0, []) (s4, []).
Proof.
  etransitivity; [exact s2_reachable|].
  etransitivity; [apply (writes_reaches true s2); vm_compute; reflexivity|].
  etransitivity; [apply (writes_reaches true (writes true s2)); vm_compute; reflexivity|].
  apply rtc_once, session_reaches; [|vm_compute; reflexivity]. apply ss_close. vm_compute. reflexivity.
Qed.

Example s2_quiet : s_events s2 = [].
Proof. vm_compute. reflexivity. Qed.

Lemma session_accounting_witness :
  rtc wstep (s0, []) (s2, []) ∧ refcount ("cloud", "cloud/led/**") (s_hub s2) = Some 1%N ∧
  (∃ f, s_tasks s2 !! 1%N = Some (FLocal f) ∧ lf_bus_id f = 1%N) ∧
  s_tasks s2 !! 2%N = Some (FPeer ("cloud", "cloud/led/**")).
Proof.
  destruct (session_accounting error_text "hub" true bus0 hub_new [] s2 [] (rtc_refl _ _) s2_reachable)
    as (_ & Hr & Hl & Hf & _).
  split; [exact s2_reachable|]. split; [rewrite Hr; vm_compute; reflexivity|]. split.
  - destruct (Hl 1%N 1%N) as [H|H]; [vm_compute; reflexivity|exact H|].
    rewrite s2_quiet in H. destruct (not_elem_of_nil _ H).
  - destruct (Hf 2%N ("cloud", "cloud/led/**")) as [H|[H|H]]; [vm_compute; reflexivity|exact H| |].
    + rewrite s2_quiet in H. destruct (not_elem_of_nil _ H).
    + vm_compute in H. discriminate H.
Defined.

(** The connection is closed, nothing in it can move, and both subscriptions
    are still held. *)
Lemma close_waits_for_event_witness :
  rtc wstep (s0, []) (s4, []) ∧ (∀ s', ¬ step s4 s') ∧
  bool_decide (is_Some (subs (s_bus s4) !! 1%N)) = true ∧
  refcount ("cloud", "cloud/led/**") (s_hub s4) = Some 1%N.
Proof.
  split; [exact s4_reachable|]. split; [|split; vm_compute; reflexivity].
  apply close_waits_for_event; [vm_compute; reflexivity..| |].
  - intros H. apply (f_equal (base.lookup 2%N)) in H. vm_compute in H. discriminate H.
  - assert (s_tasks s4 = <[2%N := FPeer ("cloud", "cloud/led/**")]>
      {[1%N := FLocal (mk_local_fwd 1%N false None)]}) as -> by (vm_compute; reflexivity).
    intros a f [[_ ?]|[_ [<- [= <-]]%lookup_singleton_Some]]%lookup_insert_Some; [done|].
    split; [reflexivity|]. split; [|split; vm_compute; reflexivity].
    apply (bool_decide_eq_true_1 (is_Some _)). vm_compute. reflexivity.
Defined.

Lemma s6_reachable : rtc wstep (s0, []) (s6, []).
Proof.
  etransitivity; [exact s4_reachable|].
  eapply rtc_l.
  { apply (ws_bus _ _ _ (s_bus (publishes 1 [1]%N s4))). eapply (bs_publish (event 1) [1]%N);
      [|vm_compute; reflexivity].
    split; [by apply NoDup_singleton|]. intros id.
    assert (subs (s_bus s4) = {[1%N := default (mk_sub pattern OMpsc None Disconnect 0 None true)
      (subs (s_bus s4) !! 1%N)]}) as -> by (vm_compute; reflexivity).
    rewrite lookup_singleton_is_Some, list_elem_of_singleton. done. }
  change (set_bus (s_bus (publishes 1 [1]%N s4)) s4) with (publishes 1 [1]%N s4).
  etransitivity; [apply (polls_reaches 1); vm_compute; reflexivity|].
  etransitivity; [apply (polls_reaches 1); vm_compute; reflexivity|].
  etransitivity; [apply (writes_reaches false s5); vm_compute; reflexivity|].
  apply rtc_once, session_reaches; [|vm_compute; reflexivity].
  change s6 with (cleanup (writes false s5)).
  refine (ss_cleanup _ _ _ (writes false s5) _ _); vm_compute; reflexivity.
Qed.


(** A limit of two: the forwarder holds the first event when the second one
    ends the subscription, and drops it. *)
Definition l1 := text 10 (InSubscribe "hub/led/**" (Some 2%N) None) s0.
Definition l2 := publishes 2 [1]%N (polls 1 (publishes 1 [1]%N l1)).
Definition holding : LocalForwarder number :=
  mk_local_fwd 1%N false (Some (render_event_for_ws 1 (event 1))).

Lemma forwarder_conserves_witness :
  pipeline 1 holding l2 = [OutSubscribeAck _ 10 "hub/led/**" 1;
    render_event_for_ws 1 (event 1); render_event_for_ws 1 (event 2)] ∧
  ∃ f' s', local_poll 0 1 holding l2 = Some s' ∧
    pipeline 1 f' s' = [OutSubscribeAck _ 10 "hub/led/**" 1; render_event_for_ws 1 (event 2)].
Proof.
  split; [vm_compute; reflexivity|].
  set (s' := set_task 1 (mk_local_fwd 1%N true None) l2).
  assert (E : local_poll 0 1 holding l2 = Some s') by (vm_compute; reflexivity).
  assert (Hf : s_tasks l2 !! 1%N = Some (FLocal holding)) by (vm_compute; reflexivity).
  destruct (chans (s_bus l2) !! lf_bus_id holding) as [c|] eqn:Ec; [|vm_compute in Ec; discriminate Ec].
  pose proof (forwarder_conserves 0 1 holding l2 s' c Hf Ec E) as H.
  assert (Es : (if lf_slow_done holding then None
    else slow_consumer_rx (lf_bus_id holding) (s_bus l2)) = Some None) by (vm_compute; reflexivity).
  rewrite Es in H. destruct H as (f' & _ & _ & H). exists f', s'. split; [exact E|].
  rewrite H. vm_compute. reflexivity.
Defined.

(** The codec of one line. *)
#[export] Instance line_text : JsonText number := {|
  json_print _ := "line";
  json_parse s := if (s =? "line")%string then Ok (ndjson_event_line (event 1)) else Err "expected value"
|}.
Definition cut : list Frame := [Data "li"; Data ("ne" +:+ String newline "l"); Trailers; Data "i"].

Example line_cut_payload : payload cut = ndjson_body (map ndjson_event_line [event 1]) +:+ "li".
Proof. vm_compute. reflexivity. Qed.

Lemma relay_exact_witness :
  map (render_peer_event 99 7 "cloud/led/**") (stream_values "" cut)
  = [render_event_for_ws 7 (event 1)].
Proof.
  refine (relay_exact 99 7 "cloud/led/**" [event 1] cut "li" line_cut_payload _ _ _); [vm_compute; reflexivity| |].
  - constructor; [|constructor]. split_and!; vm_compute; reflexivity.
  - constructor; [|constructor]. split; vm_compute; reflexivity.
Defined.

(** Both queues are full: the reply to a ping reaches neither. *)
Definition full_queues : Session number :=
  set_terminal (chan_try_send (OutPong _ 0 None) (s_terminal s0)).2
    (set_out (Nat.iter WS_OUTBOUND_CAPACITY (λ c, (chan_try_send (OutPong _ 0 None) c).2) (s_out s0)) s0).

Example reply_lost : text 5 (InPing (Some "x")) full_queues = full_queues.
Proof. vm_compute. reflexivity. Qed.
End SessionExamples.
