(* ===== verification/ActorMacro.v ===== *)
(** The [actor] attribute macro ([boardwalk-macros/src/lib.rs]): how an
    inherent [impl] block is rewritten into an [Actor] implementation, and what
    the generated [transition], [on_start] and [on_stop] do. *)

From S2P Require Import Prelude F64 Json Query Resource Runtime Executor.

(** ** The parsed block *)

(** An attribute: the segments of its path, and its tokens. *)
Record Attribute := mk_attribute { at_path : list string; at_tokens : string }.

(** An item of the [impl] block; only methods are looked into. *)
Inductive ImplItem :=
| ItemFn (ident : string) (attrs : list Attribute)
| ItemOther (tokens : string).

#[export] Instance attribute_eq_dec : EqDecision Attribute.
Proof. solve_decision. Defined.

(** [attr.path().segments.last().map(..).unwrap_or_default()] *)
Definition marker (a : Attribute) : string := default "" (last (at_path a)).

(** [attr.path().is_ident(name)] *)
Definition is_ident (name : string) (a : Attribute) : bool := bool_decide (at_path a = [name]).

Definition cfg_attrs (attrs : list Attribute) : list Attribute :=
  base.filter (λ a, is_ident "cfg" a || is_ident "cfg_attr" a = true) attrs.

(** [name.to_string().replace('_', "-")] *)
Definition wire_name (ident : string) : string := replace_byte "_" "-" ident.

(** ** The expansion *)

(** The loop over the attributes of one method. *)
Record Marks := mk_marks {
  mk_keep : list Attribute;
  mk_transition : bool;
  mk_on_start : bool;
  mk_on_stop : bool
}.

Definition mark_attr (m : Marks) (a : Attribute) : Marks :=
  if String.eqb (marker a) "transition" then mk_marks (mk_keep m) true (mk_on_start m) (mk_on_stop m)
  else if String.eqb (marker a) "on_start" then
    mk_marks (mk_keep m) (mk_transition m) true (mk_on_stop m)
  else if String.eqb (marker a) "on_stop" then
    mk_marks (mk_keep m) (mk_transition m) (mk_on_start m) true
  else mk_marks (mk_keep m ++ [a]) (mk_transition m) (mk_on_start m) (mk_on_stop m).

Definition marks_of (attrs : list Attribute) : Marks :=
  foldl mark_attr (mk_marks [] false false false) attrs.

Record Arm := mk_arm { ar_method : string; ar_wire : string; ar_cfgs : list Attribute }.

Record Expansion := mk_expansion {
  xp_items : list ImplItem;                             (** the block, markers removed *)
  xp_transitions : list Arm;
  xp_on_start : option (string * list Attribute);
  xp_on_stop : option (string * list Attribute)
}.

(** [if marked && slot.is_none() { slot = Some(..) }] *)
Definition fill_slot {T} (marked : bool) (v : T) (slot : option T) : option T :=
  if marked then match slot with None => Some v | Some _ => slot end else slot.

Definition expand_item (x : Expansion) (item : ImplItem) : Expansion :=
  match item with
  | ItemOther _ =>
      mk_expansion (xp_items x ++ [item]) (xp_transitions x) (xp_on_start x) (xp_on_stop x)
  | ItemFn ident attrs =>
      let m := marks_of attrs in
      let cfgs := cfg_attrs (mk_keep m) in
      mk_expansion (xp_items x ++ [ItemFn ident (mk_keep m)])
        (if mk_transition m then xp_transitions x ++ [mk_arm ident (wire_name ident) cfgs]
         else xp_transitions x)
        (fill_slot (mk_on_start m) (ident, cfgs) (xp_on_start x))
        (fill_slot (mk_on_stop m) (ident, cfgs) (xp_on_stop x))
  end.

(** [actor] *)
Definition expand (items : list ImplItem) : Expansion :=
  foldl expand_item (mk_expansion [] [] None None) items.

(** ** The generated implementation *)

Section generated.
  (** Whether a [cfg] attribute holds in the build at hand. *)
  Context (cfg_on : Attribute → bool).

Definition compiled_in (attrs : list Attribute) : bool := forallb cfg_on (cfg_attrs attrs).

(** The arm [match __name] selects: the first one compiled in. *)
Definition dispatch (x : Expansion) (name : string) : option string :=
  ar_method <$> List.find (λ a, compiled_in (ar_cfgs a) && String.eqb (ar_wire a) name)
                  (xp_transitions x).

Definition hook (slot : option (string * list Attribute)) : option string :=
  '(ident, cfgs) ← slot; if compiled_in cfgs then Some ident else None.

Context {num A : Type}.

(** The bodies of the methods, by name. *)
Record Methods := mk_methods {
  me_transition : string → TransitionCtx → TransitionInput num → A →
    option (result TransitionError (TransitionOutcome num) * A);
  me_lifecycle : string → ActorCtx → A → option (result ActorError unit * A)
}.

Definition unknown_transition (name : string) : TransitionError :=
  TNotAllowed ("unknown transition `" +:+ name +:+ "`").

(** The generated [transition] *)
Definition generated_transition (x : Expansion) (ms : Methods) (ctx : TransitionCtx) (name : string)
    (input : TransitionInput num) (a : A)
    : option (result TransitionError (TransitionOutcome num) * A) :=
  match dispatch x name with
  | Some method => me_transition ms method ctx input a
  | None => Some (Err (unknown_transition name), a)
  end.

(** The generated [on_start] and [on_stop], or the trait's defaults. *)
Definition generated_hook (slot : option (string * list Attribute)) (ms : Methods) (ctx : ActorCtx)
    (a : A) : option (result ActorError unit * A) :=
  match hook slot with
  | Some method => me_lifecycle ms method ctx a
  | None => Some (Ok tt, a)
  end.
End generated.
Arguments Methods num A : clear implicits.
Arguments mk_methods {num A}.

(** ** Facts *)

Definition carries (name : string) (attrs : list Attribute) : bool :=
  existsb (λ a, String.eqb (marker a) name) attrs.

Definition is_marker (a : Attribute) : bool :=
  String.eqb (marker a) "transition" || String.eqb (marker a) "on_start"
  || String.eqb (marker a) "on_stop".

Lemma marks_of_spec attrs :
  marks_of attrs = mk_marks (base.filter (λ a, is_marker a = false) attrs)
    (carries "transition" attrs) (carries "on_start" attrs) (carries "on_stop" attrs).
Proof.
  unfold marks_of. induction attrs as [|a attrs IH] using rev_ind; [done|].
  rewrite foldl_snoc, IH, filter_app. unfold carries. rewrite !existsb_app. simpl.
  rewrite !orb_false_r, filter_cons, filter_nil. unfold mark_attr, is_marker.
  destruct (String.eqb_spec (marker a) "transition") as [E|]; [try rewrite E|
    destruct (String.eqb_spec (marker a) "on_start") as [E|]; [try rewrite E|
      destruct (String.eqb_spec (marker a) "on_stop") as [E|]; [try rewrite E|]]];
    simpl; by rewrite ?orb_false_r, ?orb_true_r, ?app_nil_r.
Qed.

Definition arm_of (item : ImplItem) : list Arm :=
  match item with
  | ItemFn ident attrs =>
      if carries "transition" attrs
      then [mk_arm ident (wire_name ident) (cfg_attrs (mk_keep (marks_of attrs)))] else []
  | ItemOther _ => []
  end.

Definition stripped (item : ImplItem) : ImplItem :=
  match item with
  | ItemFn ident attrs => ItemFn ident (mk_keep (marks_of attrs))
  | ItemOther _ => item
  end.

Lemma expand_arms items : xp_transitions (expand items) = concat (map arm_of items).
Proof.
  unfold expand. induction items as [|item items IH] using rev_ind; [done|].
  rewrite foldl_snoc, map_app, concat_app, <- IH. simpl. rewrite app_nil_r.
  destruct item as [ident attrs|]; simpl; [|by rewrite app_nil_r].
  rewrite marks_of_spec at 1. simpl. case_match; [done|by rewrite app_nil_r].
Qed.

Lemma expand_items items : xp_items (expand items) = map stripped items.
Proof.
  unfold expand. induction items as [|item items IH] using rev_ind; [done|].
  rewrite foldl_snoc, map_app, <- IH. by destruct item.
Qed.

(** The markers are none of the attributes that gate compilation. *)
Lemma cfg_attrs_keep attrs : cfg_attrs (mk_keep (marks_of attrs)) = cfg_attrs attrs.
Proof.
  rewrite marks_of_spec. simpl. unfold cfg_attrs. rewrite list_filter_filter.
  apply list_filter_iff. intros a. split; [tauto|]. intros H. split; [done|].
  unfold is_ident in H. bool_to_prop. unfold is_marker, marker.
  destruct H as [H|H]; bool_to_prop; by rewrite H.
Qed.

Lemma wire_name_inj s1 s2 :
  str_contains "-" s1 = false → str_contains "-" s2 = false → wire_name s1 = wire_name s2 → s1 = s2.
Proof.
  unfold wire_name, replace_byte. revert s2.
  induction s1 as [|c s1 IH]; intros [|d s2]; try done.
  rewrite !str_contains_cons. simpl. intros H1 H2 H. bool_to_prop.
  destruct H1 as [Hc H1], H2 as [Hd H2]. injection H as Hcd Hs. f_equal; [|by apply IH].
  destruct (Ascii.eqb c "_") eqn:Ec, (Ascii.eqb d "_") eqn:Ed; rewrite ?ascii_eqb_spec in *;
    bool_to_prop; congruence.
Qed.

(** The methods of the block that are compiled in. *)
Definition live_methods (cfg_on : Attribute → bool) (items : list ImplItem) : list string :=
  omap (λ item, match item with
                | ItemFn ident attrs => if compiled_in cfg_on attrs then Some ident else None
                | ItemOther _ => None
                end) items.

Lemma compiled_in_cfgs cfg_on attrs :
  compiled_in cfg_on (cfg_attrs (mk_keep (marks_of attrs))) = compiled_in cfg_on attrs.
Proof.
  rewrite cfg_attrs_keep. unfold compiled_in, cfg_attrs. rewrite list_filter_filter.
  f_equal. apply list_filter_iff. tauto.
Qed.

Lemma elem_of_arms items arm :
  arm ∈ concat (map arm_of items) ↔
  ∃ attrs, ItemFn (ar_method arm) attrs ∈ items ∧ carries "transition" attrs = true ∧
    ar_wire arm = wire_name (ar_method arm) ∧ ar_cfgs arm = cfg_attrs (mk_keep (marks_of attrs)).
Proof.
  rewrite list_elem_of_In, in_concat. split.
  - intros (l & Hl & Harm). apply in_map_iff in Hl as (item & <- & Hitem).
    destruct item as [ident attrs|]; simpl in Harm; [|done].
    destruct (carries "transition" attrs) eqn:Ec; [|done]. destruct Harm as [<-|[]]. simpl.
    exists attrs. by rewrite list_elem_of_In.
  - intros (attrs & Hitem & Hc & Hw & Hcfg). rewrite list_elem_of_In in Hitem.
    exists (arm_of (ItemFn (ar_method arm) attrs)). split; [by apply in_map|]. simpl. rewrite Hc. left.
    destruct arm as [i w c]; simpl in *. by subst.
Qed.

(** A method marked [name] and compiled in. *)
Definition live_marked (cfg_on : Attribute → bool) (name : string) (items : list ImplItem)
    (ident : string) : Prop :=
  ∃ attrs, ItemFn ident attrs ∈ items ∧ carries name attrs = true ∧ compiled_in cfg_on attrs = true.

Lemma dispatch_sound cfg_on items name ident :
  dispatch cfg_on (expand items) name = Some ident →
  live_marked cfg_on "transition" items ident ∧ wire_name ident = name.
Proof.
  unfold dispatch. rewrite expand_arms. intros H. apply fmap_Some in H as (arm & Hf & ->).
  apply List.find_some in Hf as [Hin Hb]. bool_to_prop. destruct Hb as [Hcfg Hw].
  apply String.eqb_eq in Hw. apply list_elem_of_In, elem_of_arms in Hin as (attrs & Hi & Hc & Hwn & Hcf).
  rewrite Hcf, compiled_in_cfgs in Hcfg. split; [by exists attrs|]. congruence.
Qed.

(** The generated dispatch reaches exactly the marked methods. In any build
    configuration, a transition name selects a method exactly when that method
    is marked, compiled in and spelled like the name with [_] for [-]; the
    block keeps its items in order, less the markers. Rust identifiers have no
    [-], which makes the wire names of two methods distinct. *)
Theorem dispatch_exact (cfg_on : Attribute → bool) (items : list ImplItem) (name ident : string) :
  (∀ i, live_marked cfg_on "transition" items i → str_contains "-" i = false) →
  (dispatch cfg_on (expand items) name = Some ident ↔
   live_marked cfg_on "transition" items ident ∧ wire_name ident = name) ∧
  (dispatch cfg_on (expand items) name = None ↔
   ∀ i, live_marked cfg_on "transition" items i → wire_name i ≠ name) ∧
  xp_items (expand items) = map stripped items.
Proof.
  intros Hplain.
  assert (∀ i, live_marked cfg_on "transition" items i → wire_name i = name →
            dispatch cfg_on (expand items) name = Some i) as Hcomplete.
  { intros i Hlive Hi. destruct (dispatch cfg_on (expand items) name) as [j|] eqn:Ed.
    - destruct (dispatch_sound _ _ _ _ Ed) as [Hj Hw]. f_equal. apply wire_name_inj; [eauto..|congruence].
    - exfalso. unfold dispatch in Ed. apply fmap_None in Ed. rewrite expand_arms in Ed.
      destruct Hlive as (attrs & Hin & Hc & Hcfg).
      assert (mk_arm i (wire_name i) (cfg_attrs (mk_keep (marks_of attrs)))
                ∈ concat (map arm_of items)) as Harm by (apply elem_of_arms; by exists attrs).
      apply list_elem_of_In in Harm. apply (List.find_none _ _ Ed) in Harm. simpl in Harm.
      by rewrite compiled_in_cfgs, Hcfg, Hi, string_eqb_refl in Harm. }
  split_and!; [split; [apply dispatch_sound|intros [? ?]; by apply Hcomplete]| |apply expand_items].
  destruct (dispatch cfg_on (expand items) name) as [j|] eqn:Ed; split; try done.
  - intros H. destruct (dispatch_sound _ _ _ _ Ed) as [Hj Hw]. by destruct (H j Hj).
  - intros _ i Hi Hw. by specialize (Hcomplete i Hi Hw).
Qed.

(** *** The hooks *)

(** The first method marked [name], whatever its configuration. *)
Definition marked_fn (name : string) (item : ImplItem) : option (string * list Attribute) :=
  match item with
  | ItemFn ident attrs => if carries name attrs then Some (ident, attrs) else None
  | ItemOther _ => None
  end.

Definition first_marked (name : string) (items : list ImplItem) : option (string * list Attribute) :=
  head (omap (marked_fn name) items).

Lemma head_omap_snoc {T U} (f : T → option U) l x :
  head (omap f (l ++ [x])) = match head (omap f l) with Some y => Some y | None => f x end.
Proof.
  rewrite omap_app. simpl. destruct (omap f l); [|done]. simpl. by destruct (f x).
Qed.

Lemma expand_hooks items :
  xp_on_start (expand items) =
    (λ p, (p.1, cfg_attrs (mk_keep (marks_of p.2)))) <$> first_marked "on_start" items ∧
  xp_on_stop (expand items) =
    (λ p, (p.1, cfg_attrs (mk_keep (marks_of p.2)))) <$> first_marked "on_stop" items.
Proof.
  unfold expand, first_marked. induction items as [|item items IH] using rev_ind; [done|].
  rewrite foldl_snoc, !head_omap_snoc. set (x := foldl _ _ items) in *. destruct IH as [IH1 IH2].
  assert (mk_on_start (marks_of (match item with ItemFn _ a => a | _ => [] end))
    = carries "on_start" (match item with ItemFn _ a => a | _ => [] end)) as E1 by by rewrite marks_of_spec.
  assert (mk_on_stop (marks_of (match item with ItemFn _ a => a | _ => [] end))
    = carries "on_stop" (match item with ItemFn _ a => a | _ => [] end)) as E2 by by rewrite marks_of_spec.
  split; destruct item as [ident attrs|]; simpl in *; rewrite ?E1, ?E2, ?IH1, ?IH2; unfold fill_slot;
    destruct (head (omap (marked_fn "on_start") items)), (head (omap (marked_fn "on_stop") items));
    try done; by destruct (carries "on_start" attrs), (carries "on_stop" attrs).
Qed.

(** The lifecycle hooks: the first marked method is the hook, if it is
    compiled in; a later one never is, even when the first is compiled out. *)
Theorem hook_is_first (cfg_on : Attribute → bool) (items : list ImplItem) :
  hook cfg_on (xp_on_start (expand items)) =
    ('(ident, attrs) ← first_marked "on_start" items;
     if compiled_in cfg_on attrs then Some ident else None) ∧
  hook cfg_on (xp_on_stop (expand items)) =
    ('(ident, attrs) ← first_marked "on_stop" items;
     if compiled_in cfg_on attrs then Some ident else None).
Proof.
  destruct (expand_hooks items) as [-> ->].
  split; (destruct (first_marked _ items) as [[ident attrs]|]; [|done]); simpl;
    by rewrite compiled_in_cfgs.
Qed.

(** ** A block of the documentation *)

Module MacroExamples.
Definition attr (path : list string) : Attribute := mk_attribute path "".
Definition cfg_test : Attribute := mk_attribute ["cfg"] "(test)".
Definition cfg_not_test : Attribute := mk_attribute ["cfg"] "(not(test))".

Definition block : list ImplItem := [
  ItemFn "turn_on" [attr ["boardwalk"; "transition"]];
  ItemOther "const N: u8 = 1;";
  ItemFn "boot_test" [cfg_test; attr ["on_start"]];
  ItemFn "boot" [cfg_not_test; attr ["on_start"]];
  ItemFn "reset" [cfg_test; attr ["transition"]; attr ["doc"]]
].

(** A release build. *)
Definition release (a : Attribute) : bool := negb (bool_decide (a = cfg_test)).

Lemma dispatch_exact_witness :
  dispatch release (expand block) "turn-on" = Some "turn_on" ∧
  dispatch release (expand block) "reset" = None.
Proof.
  assert (∀ i, live_marked release "transition" block i → str_contains "-" i = false) as H.
  { intros i (attrs & Hin & Hc & Hcfg). unfold block in Hin.
    repeat (apply elem_of_cons in Hin as [Hin|Hin]; [simplify_eq; done|]). by apply elem_of_nil in Hin. }
  split.
  - apply (dispatch_exact release block "turn-on" "turn_on" H). split; [|done].
    exists [attr ["boardwalk"; "transition"]]. split; [apply elem_of_cons; by left|done].
  - apply (dispatch_exact release block "reset" "reset" H). intros i (attrs & Hin & Hc & Hcfg).
    unfold block in Hin.
    repeat (apply elem_of_cons in Hin as [Hin|Hin]; [simplify_eq; done|]). by apply elem_of_nil in Hin.
Defined.

(** The release build of the block starts without its hook: the one marked
    first is compiled out and the other is not looked at. *)
Example hook_masked_by_cfg :
  hook release (xp_on_start (expand block)) = None ∧
  live_marked release "on_start" block "boot".
Proof.
  split; [done|]. exists [cfg_not_test; attr ["on_start"]]. split; [|done].
  unfold block. rewrite !elem_of_cons. auto.
Qed.
End MacroExamples.
