(* ===== verification/Honest.v ===== *)
(** What an actor owes its hypermedia ([runtime/actor.rs], [http/routes.rs],
    [http/render.rs]): the affordances of its snapshot and the answers of its
    [transition] agree, and a client that follows the rendered document is
    never refused for the state of the resource. *)

From S2P Require Import Prelude F64 Json Query Lexer Parser Topic.
From S2P Require Import Envelope Sequencer Replay Policy CoalesceQueue Mpsc Bus BusSpec BusProps Publish.
From S2P Require Import Capabilities Http Peer Admission Acceptors Gateway Resource Persistence Redb.
From S2P Require Import Runtime Executor Node Core Server Registrar Siren Render Handlers.

(** ** Publishing, as an actor sees it *)

(** [W] is whatever publishing acts on: the node's event bus. *)
Class Publisher (num W : Type) := {
  pub_transition : TransitionCtx → string → string → N → json num → W →
    result TransitionError unit * W;                (** [TransitionCtx::publish] *)
  pub_actor : ActorCtx → string → string → N → json num → W →
    result ActorError unit * W                      (** [ActorCtx::publish] *)
}.

(** A failed publish is an internal error: it never reads as a refusal. *)
Class PublisherLaws (num W : Type) `{!Publisher num W} : Prop :=
  pub_transition_internal c stream kind version data (w : W) e :
    (pub_transition c stream kind version data w).1 = Err e → ∃ msg, e = TInternal msg.

Section bus_publisher.
  Context {tl : TopicLibs} {time : TimeLib} {num : Type} `{!SerdeNumber num}.
  Context `{!BusLibs num} `{!Mpsc (EventEnvelope num)}.

  (** What a publish does not decide: the clock, the order in which the
      subscriber table is walked, and how the started delivery ends. *)
  Context (clock : EventBus num → OffsetDateTime) (order : EventBus num → list SubscriptionId).
  Context (deliver : task num → EventBus num → EventBus num).

Definition delivered_bus {E} (r : result E (task num) * EventBus num) : result E unit * EventBus num :=
  match r with
  | (Ok t, b) => (Ok tt, deliver t b)
  | (Err e, b) => (Err e, b)
  end.

#[local] Instance bus_publisher : Publisher num (EventBus num) := {|
  pub_transition := λ c stream kind version data b,
    delivered_bus (transition_publish c stream kind version data (clock b) (order b) b);
  pub_actor := λ a stream kind version data b,
    delivered_bus (actor_publish a stream kind version data (clock b) (order b) b)
|}.

#[local] Instance bus_publisher_laws : PublisherLaws num (EventBus num).
Proof.
  intros c stream kind version data b e. cbn [pub_transition bus_publisher].
  unfold transition_publish, publish_for_resource.
  destruct (tc_actor c) as [a|]; [|intros [= <-]; eauto].
  destruct (negb (ac_publisher a)); [intros [= <-]; eauto|].
  destruct (publish_envelope _ _ _ _ b) as [[t|err] b'].
  - done.
  - intros [= <-]. unfold transition_publish_error. eauto.
Qed.
End bus_publisher.

(** ** The contract *)

Section honest.
  Context {num : Type}.

(** The transition is offered: available under that name. *)
Definition offers (snap : ResourceSnapshot num) (name : string) : Prop :=
  ∃ t, t ∈ rs_transitions snap ∧ affordance_name t = name ∧ ta_available t = true.

(** The errors a client reads as "not in this state". *)
Definition refused {T} (r : result TransitionError T) : bool :=
  match r with Err (TNotAllowed _) | Err (TConflict _) => true | _ => false end.

(** [ha_ok]: the states the actor can be in. There the snapshot is taken
    without changing anything; an offered transition is not refused, and one
    that is not offered is an error that changes nothing. *)
Class HonestActor (A : Type) `{!Actor num A} := {
  ha_ok : A → Prop;
  ha_snapshot a : ha_ok a → ∃ snap, actor_snapshot a = Some (Ok snap, a) ∧
    ∀ ctx name input,
      (offers snap name →
       ∀ r a', actor_transition ctx name input a = Some (r, a') → refused r = false) ∧
      (¬ offers snap name → ∃ e, actor_transition ctx name input a = Some (Err e, a))
}.
End honest.
Arguments HonestActor num A {_}.

(** ** What the client sees *)

Section client.
  Context {hl : HttpLib} {ul : UrlLib} {uo : UrlOps} {tl : TopicLibs} {fl : FormLib}.
  Context {num : Type} `{!SerdeNumber num, !BodyLib num} {A : Type} `{!Actor num A, !HonestActor num A}.
  Context `{!Mpsc (Command num)} {S : Type} `{!ResourceSnapshotRepository num S}.
  Implicit Types (core : Core num A S) (headers : HeaderMap) (e : Entity num).

Lemma action_of_name h id (t : TransitionAffordance num) a :
  action_of h id t a → an_name a = affordance_name t.
Proof. by intros (Hname & _). Qed.

(** The names of the actions of a rendered resource. *)
Lemma rendered_names h snap policy e :
  joinable h → can_invoke_transition policy = true → render_resource h snap policy = Some e →
  map an_name (en_actions e)
  = map affordance_name (base.filter (λ t, ta_available t = true) (rs_transitions snap)).
Proof.
  intros Hj Hp. unfold render_resource. rewrite Hp. intros H.
  apply bind_Some in H as (self & _ & H). apply bind_Some in H as (up & _ & H).
  apply bind_Some in H as (ty & _ & H). apply bind_Some in H as (e3 & H3 & H).
  match type of H3 with with_transitions _ _ _ ?e0 = _ =>
    destruct (with_transitions_spec h (rs_id snap) (rs_transitions snap) e0 Hj)
      as (e' & l & He' & Hf & ->); assert (en_actions e0 = []) as H0
  end.
  { simpl. by apply (apply_properties_frame _ en_actions). }
  rewrite H3 in He'. simplify_eq. rewrite H0 in *. simpl in *.
  assert (en_actions e = l) as ->.
  { destruct (can_stream policy).
    - match type of H with with_streams _ _ _ _ ?e0 = _ =>
        destruct (with_streams_spec h (rs_kind snap) (rs_id snap) (rs_streams snap) e0 Hj)
          as (e' & l' & He' & _ & ->) end. rewrite H in He'. by simplify_eq.
    - by simplify_eq. }
  clear -Hf. induction Hf as [|t a ts l Ha Hf IH]; [done|]. simpl. f_equal; [|done].
  by eapply action_of_name.
Qed.

Lemma offers_rendered h snap policy e name :
  joinable h → can_invoke_transition policy = true → render_resource h snap policy = Some e →
  (name ∈ map an_name (en_actions e) ↔ offers snap name).
Proof.
  intros Hj Hp He. rewrite (rendered_names h snap policy e Hj Hp He).
  rewrite list_elem_of_fmap. setoid_rewrite list_elem_of_filter. unfold offers. naive_solver.
Qed.

(** What the executor answers for a transition served in the state [a]. *)
Definition served_outcome (actx : ActorCtx) (name : string) (a : A) (ctx : TransitionCtx)
    (input : TransitionInput num) : result TransitionError (TransitionOutcome num) :=
  match actor_transition (with_actor actx ctx) name input a with
  | Some (r, _) => r
  | None => Err (TInternal "actor task dropped reply slot")
  end.

Lemma outcome_not_409 (o : TransitionOutcome num) :
  rp_status (transition_outcome_response o) ≠ 409%N.
Proof. destruct o; simpl; repeat case_match; done. Qed.

Lemma refused_status (err : TransitionError) :
  refused (T:=unit) (Err err) = false ↔
  rp_status (num:=num) (transition_error_response (resource_transition_error err)) ≠ 409%N.
Proof. by destruct err. Qed.

(** C20: A client that follows the document is never refused for the state of
    the resource, and one that does not follow it changes nothing. Take a
    resource whose actor is honest, the document rendered from its snapshot for
    a caller that may invoke transitions, and a transition request with a
    well-formed input served in the same state: a transition the document has an
    action for is never answered 409; any other is answered with a problem
    document, and neither the actor nor the server's state changes. *)
Theorem document_honest core headers provenance (h : Hrefs) (policy : RenderPolicy) doc
    (entry : Entry num) (id name body : string) (command : CommandId) (actx : ActorCtx) (a : A) snap
    (after : snapshot_answer num) (now : Z) :
  ha_ok a → actor_snapshot a = Some (Ok snap, a) →
  get_by_id id (n_directory (c_node core)) = Some (Some entry) →
  joinable h → can_invoke_transition policy = true →
  (∀ snap', entry_snapshot entry (n_id (c_node core)) (Ok snap) = Ok snap' →
     render_resource h snap' policy = Some doc) →
  is_ok (transition_input (num:=num) headers body) = true →
  let '(r, core') := transition_response core headers provenance id name body command
                       (served_outcome actx name a) after now in
  ∃ resp, r = Some resp ∧
    if decide (name ∈ map an_name (en_actions doc)) then rp_status resp ≠ 409%N
    else is_problem resp ∧ core' = core ∧
      ∀ ctx input, ∃ err, actor_transition ctx name input a = Some (Err err, a).
Proof.
  intros Hok Hsnap Hent Hj Hp Hdoc Hin.
  destruct (ha_snapshot a Hok) as (snap0 & Hs0 & Hhon). rewrite Hsnap in Hs0. simplify_eq.
  specialize (Hdoc _ eq_refl).
  pose proof (offers_rendered h _ policy doc name Hj Hp Hdoc) as Hoff.
  change (name ∈ map an_name (en_actions doc) ↔ offers snap0 name) in Hoff.
  unfold transition_response. destruct (transition_input headers body) as [input|]; [|done].
  unfold run_resource_transition. rewrite Hent. unfold served_outcome.
  set (ctx := with_actor actx _). destruct (Hhon ctx name input) as [Hyes Hno].
  case_decide as Hd; rewrite Hoff in Hd.
  - specialize (Hyes Hd). destruct (actor_transition ctx name input a) as [[[o|err] a']|].
    + destruct o as [output snapshot|job output].
      * destruct (entry_snapshot entry _ after) as [|err]; eexists; (split; [done|]); [done|by destruct err].
      * eexists. split; [done|]. apply outcome_not_409.
    + specialize (Hyes _ _ eq_refl). eexists. split; [done|]. by apply refused_status.
    + eexists. by split.
  - destruct (Hno Hd) as [err Herr]. rewrite Herr. eexists. split; [done|].
    split_and!; [apply transition_error_problem|done|]. intros ctx' input'. by apply Hhon.
Qed.
End client.
