(* ===== verification/Led.v ===== *)
(** The LED actor of the examples and tests
    ([examples/hello-led/boardwalk-mock-led/src/lib.rs]): a two-state resource
    built with the [actor] macro. *)

From S2P Require Import Prelude F64 Json Query Topic Envelope Policy Mpsc Capabilities Http Resource.
From S2P Require Import Persistence Runtime Executor ActorMacro Node Core Siren Render Handlers Honest.
From S2P Require Gateway.

Record Led := mk_led { on : bool }.

(** [#[derive(Default)]] *)
Definition led_default : Led := mk_led false.

Section led.
  Context {num W : Type} `{!Publisher num W}.
  Implicit Types (l : Led) (w : W).

(** [Led::state] *)
Definition led_state l : string := if on l then "on" else "off".

(** [transition]: the affordance of one switch. *)
Definition led_transition (name title allowed_state : string) (available : bool)
    : TransitionAffordance num :=
  let d := transition_spec_default in
  mk_affordance
    (mk_transition_spec name (Some title) [allowed_state] (ts_input_schema d) (ts_output_schema d)
       Sync (ts_idempotency d) Unsafe (ts_required_scopes d) (ts_fields d))
    available
    (if available then None else Some ("only available in `" +:+ allowed_state +:+ "` state")).

(** [Led::transition_affordances] *)
Definition transition_affordances l : list (TransitionAffordance num) :=
  let state := led_state l in
  [led_transition "turn-on" "Turn on" "off" (String.eqb state "off");
   led_transition "turn-off" "Turn off" "on" (String.eqb state "on")].

(** [Led::snapshot] *)
Definition led_snapshot l : ResourceSnapshot num :=
  build_streams [mk_snapshot_stream "state" Object]
    (build_transitions (transition_affordances l)
      (build_state (led_state l) (build_name "LED" (builder "led")))).

(** [Resource::spec] *)
Definition led_spec l : ResourceSpec num :=
  mk_resource_spec "led" (Some "LED") [] None [mk_stream_spec "state" Object].

(** [completed] *)
Definition led_completed (ctx : TransitionCtx) l : result TransitionError (TransitionOutcome num) :=
  completed ctx None (led_snapshot l).

(** The tail of both switches: [self.on = value], then the event, then the
    answer. *)
Definition led_switch (ctx : TransitionCtx) (value : bool) w
    : option (result TransitionError (TransitionOutcome num) * (Led * W)) :=
  let l := mk_led value in
  let '(r, w') := pub_transition ctx "state" "resource.state.changed" 1
                    (JString (led_state l)) w in
  Some (match r with Ok _ => led_completed ctx l | Err e => Err e end, (l, w')).

Definition turn_on (ctx : TransitionCtx) (_ : TransitionInput num) (a : Led * W)
    : option (result TransitionError (TransitionOutcome num) * (Led * W)) :=
  if on a.1 then Some (Err (TNotAllowed "`turn-on` is only available while the LED is off"), a)
  else led_switch ctx true a.2.

Definition turn_off (ctx : TransitionCtx) (_ : TransitionInput num) (a : Led * W)
    : option (result TransitionError (TransitionOutcome num) * (Led * W)) :=
  if negb (on a.1) then Some (Err (TNotAllowed "`turn-off` is only available while the LED is on"), a)
  else led_switch ctx false a.2.

(** The [impl] block under [#[boardwalk::actor]]. *)
Definition led_block : list ImplItem := [
  ItemFn "turn_on" [mk_attribute ["boardwalk"; "transition"] ""];
  ItemFn "turn_off" [mk_attribute ["boardwalk"; "transition"] ""]
].

Definition led_methods : Methods num (Led * W) :=
  mk_methods
    (λ method, if String.eqb method "turn_on" then turn_on
               else if String.eqb method "turn_off" then turn_off else λ _ _ _, None)
    (λ _ _ _, None).

#[export] Instance led_actor : Actor num (Led * W) := {|
  actor_spec := λ a, led_spec a.1;
  actor_snapshot := λ a, Some (Ok (led_snapshot a.1), a);
  actor_transition := generated_transition (λ _, true) (expand led_block) led_methods;
  actor_on_start := generated_hook (λ _, true) (xp_on_start (expand led_block)) led_methods;
  actor_on_stop := generated_hook (λ _, true) (xp_on_stop (expand led_block)) led_methods
|}.

(** ** Facts *)

Lemma led_dispatch name :
  dispatch (λ _, true) (expand led_block) name
  = if String.eqb name "turn-on" then Some "turn_on"
    else if String.eqb name "turn-off" then Some "turn_off" else None.
Proof.
  unfold dispatch. change (xp_transitions (expand led_block))
    with [mk_arm "turn_on" "turn-on" []; mk_arm "turn_off" "turn-off" []].
  cbn -[String.eqb]. rewrite (String.eqb_sym "turn-on" name), (String.eqb_sym "turn-off" name).
  repeat case_match; done.
Qed.

Lemma led_offers l name :
  offers (led_snapshot l) name ↔ name = if on l then "turn-off" else "turn-on".
Proof.
  unfold offers. simpl. split.
  - intros (t & Ht & <- & Ha). unfold transition_affordances in Ht.
    rewrite !elem_of_cons, elem_of_nil in Ht.
    destruct Ht as [->|[->|[]]]; unfold led_state in *; simpl in *; by destruct (on l).
  - intros ->. unfold transition_affordances, led_state. destruct (on l); simpl.
    + eexists. split; [apply elem_of_cons; right; apply elem_of_cons; by left|done].
    + eexists. split; [apply elem_of_cons; by left|done].
Qed.

(** One transition of the LED, on every branch. *)
Lemma led_transition_eq ctx name input l w :
  actor_transition ctx name input (l, w) =
  if String.eqb name (if on l then "turn-off" else "turn-on") then led_switch ctx (negb (on l)) w
  else Some (Err (if String.eqb name (if on l then "turn-on" else "turn-off")
                  then TNotAllowed ("`" +:+ name +:+ "` is only available while the LED is "
                                        +:+ (if on l then "off" else "on"))
                  else unknown_transition name), (l, w)).
Proof.
  cbn [actor_transition led_actor]. unfold generated_transition. rewrite led_dispatch.
  destruct (String.eqb_spec name "turn-on") as [->|Hon]; simpl.
  { unfold turn_on. simpl. by destruct (on l). }
  destruct (String.eqb_spec name "turn-off") as [->|Hoff]; simpl.
  { unfold turn_off. simpl. by destruct (on l). }
  destruct (on l); rewrite (proj2 (String.eqb_neq _ _) Hon), (proj2 (String.eqb_neq _ _) Hoff);
    by destruct l.
Qed.

Lemma led_completed_not_refused ctx l : refused (led_completed ctx l) = false.
Proof.
  unfold led_completed, completed, resource_id_required, ctx_resource_id. by destruct (tc_actor ctx).
Qed.

#[export] Program Instance led_honest `{!PublisherLaws num W} : HonestActor num (Led * W) := {|
  ha_ok := λ _, True
|}.
Next Obligation.
  intros Hp [l w] _. exists (led_snapshot l). split; [done|]. intros ctx name input.
  rewrite led_offers, led_transition_eq. split.
  - intros -> r a'. rewrite string_eqb_refl. unfold led_switch.
    destruct (pub_transition _ _ _ _ _ w) as [[u|e] w'] eqn:Ew; intros [= <- <-].
    + apply led_completed_not_refused.
    + destruct (pub_transition_internal ctx "state" "resource.state.changed" 1
        (JString (led_state (mk_led (negb (on l))))) w e) as [msg ->]; [by rewrite Ew|done].
  - intros Hn. rewrite (proj2 (String.eqb_neq _ _) Hn). eauto.
Qed.

(** What switching the LED does. The switch of the other position is the
    only transition that is not an error of the state; it moves the LED and
    publishes the new position on the stream [state] before it answers, and the
    answer carries the snapshot of the new state under the actor's own id. When
    the event cannot be published the answer is that error, but the LED has
    moved all the same: the caller is told of a failure and the next snapshot
    shows the new state. *)
Theorem led_switches ctx (actx : ActorCtx) (name : string) (input : TransitionInput num) l w :
  name = (if on l then "turn-off" else "turn-on") →
  let '(published, w') := pub_transition (with_actor actx ctx) "state" "resource.state.changed" 1
                            (JString (if on l then "off" else "on")) w in
  ∃ r, actor_transition (with_actor actx ctx) name input (l, w) = Some (r, (mk_led (negb (on l)), w')) ∧
    match published with
    | Err e => r = Err e
    | Ok _ => ∃ snap, r = Ok (Completed None snap) ∧ rs_id snap = ac_resource_id actx ∧
        rs_node snap = tc_node_id ctx ∧ rs_state snap = Some (if on l then "off" else "on") ∧
        ¬ offers snap name
    end.
Proof.
  intros ->. rewrite led_transition_eq, string_eqb_refl. unfold led_switch.
  replace (led_state (mk_led (negb (on l)))) with (if on l then "off" else "on") by by destruct (on l).
  destruct (pub_transition _ _ _ _ _ w) as [[u|e] w']; (eexists; split; [done|]); [|done].
  eexists. split; [done|]. split_and!; [done..|by destruct (on l)|].
  change (¬ offers (led_snapshot (mk_led (negb (on l)))) (if on l then "turn-off" else "turn-on")).
  rewrite led_offers. by destruct (on l).
Qed.
End led.

(** ** A lamp on a node *)

Module LedExamples.
Import ListHttp TopicExamples StringUrl.
#[local] Existing Instance ListChannel.mpsc.
#[local] Existing Instance CoreExamples.n_number.

(** A bus that only keeps what was published, and is full after two events. *)
#[local] Instance log_publisher : Publisher N (list (json N)) := {|
  pub_transition := λ _ _ _ _ data w,
    if decide (length w < 2) then (Ok tt, w ++ [data]) else (Err (TInternal "publish failed"), w);
  pub_actor := λ _ _ _ _ data w, (Ok tt, w ++ [data])
|}.
#[local] Instance log_publisher_laws : PublisherLaws N (list (json N)).
Proof. intros c st k v d w e. simpl. case_decide; simpl; intros [=]; subst. eauto. Qed.

#[local] Instance body_lib : BodyLib N := {|
  body_json := λ s, if String.eqb s "{}" then Ok (JObject []) else Err "expected value";
  body_form := λ s, Err "no form"
|}.

Definition lamp : Led * list (json N) := (led_default, []).
Definition identity : ActorCtx := with_publisher (actor_ctx_new "hub" "led-1" "led" []).
Definition node1 : Node N (Led * list (json N)) := (register_with_id "led-1" lamp (node_new "hub" 4)).2.
Definition core1 : Core N (Led * list (json N)) (Mutex N) := core_from "hub" node1 (Some memory_default).
Definition entry1 : Entry N := mk_entry "led-1" "led" (led_spec led_default) 0.

Definition json_request : HeaderMap :=
  hm_append "content-type" "application/json" (hm_append "host" "hub" hm_new).

Definition lamp_shown : ResourceSnapshot N :=
  match entry_snapshot entry1 "hub" (Ok (led_snapshot led_default)) with
  | Ok snap => snap | Err _ => builder "" end.
Definition document : option (Entity N) := render_resource RenderExamples.hub lamp_shown Gateway.render_local.

Lemma led_switches_witness :
  ∃ snap, actor_transition (with_actor identity (with_node "cmd" request_ctx_default "hub")) "turn-on" [] lamp
          = Some (Ok (Completed None snap), (mk_led true, [JString "on"])) ∧ rs_id snap = "led-1".
Proof.
  destruct (led_switches (with_node "cmd" request_ctx_default "hub") identity "turn-on" []
    led_default [] eq_refl) as (r & Hr & snap & -> & Hid & _).
  exists snap. by split.
Defined.

(** The document of the lamp offers [turn-on] only; [turn-off] is a problem. *)
Lemma document_honest_witness :
  ∃ doc resp, document = Some doc ∧ map an_name (en_actions doc) = ["turn-on"] ∧
    transition_response core1 json_request Gateway.provenance_default "led-1" "turn-off" "{}" "cmd"
      (served_outcome identity "turn-off" lamp) (Err (RInternal "x")) 0 = (Some resp, core1) ∧
    is_problem resp.
Proof.
  destruct document as [doc|] eqn:Ed; [|vm_compute in Ed; discriminate Ed].
  assert (map an_name (en_actions doc) = ["turn-on"]) as Hn.
  { apply (f_equal (fmap (λ d, map an_name (en_actions d)))) in Ed. vm_compute in Ed.
    injection Ed as Ed. by symmetry. }
  pose proof (document_honest core1 json_request Gateway.provenance_default RenderExamples.hub
    Gateway.render_local doc entry1 "led-1" "turn-off" "{}" "cmd" identity lamp (led_snapshot led_default)
    (Err (RInternal "x")) 0 I eq_refl eq_refl RenderExamples.hub_joinable eq_refl) as H.
  destruct (transition_response _ _ _ _ _ _ _ _ _ _) as [r core'].
  destruct H as (resp & -> & H); [|vm_compute; reflexivity|].
  { intros snap' [= <-]. exact Ed. }
  rewrite Hn, decide_False in H; [|intros Hin; apply list_elem_of_singleton in Hin; discriminate Hin].
  destruct H as (Hp & -> & _). by exists doc, resp.
Defined.

(** The program of [hello-led/src/main.rs]: the lamp is found by a query, is
    off, is switched on through its proxy, and its event and snapshot say so. *)
Definition quoted (s : string) : string := String "034" (s +:+ String "034" EmptyString).

Definition answers (a : Led * list (json N)) (id : string) : snapshot_answer N := Ok (led_snapshot a.1).

Definition hello_led (n : Node N (Led * list (json N))) (id : string) (a : Led * list (json N))
    : option (list (option string) * list (json N)) :=
  found ← node_query ("where kind = " +:+ quoted "led") n (answers a);
  proxy ← match found with
          | Ok es => e ← List.find (λ e, String.eqb (e_id e) id) es; Some (mk_proxy e n)
          | Err _ => None
          end;
  '(_, a') ← serve identity (proxy_transition proxy "turn-on" [] "cmd" 0) a;
  match proxy_snapshot proxy (answers a), proxy_snapshot proxy (answers a') with
  | Ok before, Ok after => Some ([rs_state before; rs_state after], a'.2)
  | _, _ => None
  end.

Example hello_led_runs :
  hello_led node1 "led-1" lamp = Some ([Some "off"; Some "on"], [JString "on"]).
Proof. vm_compute. reflexivity. Qed.

(** The third switch is answered with an error, and the lamp has moved. *)
Example failed_publish_moves :
  actor_transition (with_actor identity (with_node "cmd" request_ctx_default "hub")) "turn-on" []
    (mk_led false, [JString "on"; JString "off"])
  = Some (Err (TInternal "publish failed"), (mk_led true, [JString "on"; JString "off"])).
Proof. reflexivity. Qed.
End LedExamples.
