(* ===== verification/Job.v ===== *)
(** The job runner of the examples ([examples/job-runner/src]): jobs advanced
    by a spawned task while their actor serves [cancel] and [retry], and the
    queue that registers them. The task and the actor share the job's data
    behind one mutex; the regions that hold it are the steps. *)

From S2P Require Import Prelude F64 Json Query Topic Envelope Policy Mpsc Capabilities Http Resource.
From S2P Require Import Runtime Executor ActorMacro Node Persistence Redb Core Server Peer Siren Render Handlers.
From S2P Require Import Honest EventStream.

(** ** Constants ([lib.rs], [address.rs]) *)

Definition QUEUE_ID : string := "queue-default".
Definition QUEUE_NAME : string := "default".
Definition NODE_NAME : string := "runner".
Definition FIXED_SUBMITTED_AT : string := "2026-01-01T00:00:00Z".
Definition FIXED_STARTED_AT : string := "2026-01-01T00:00:01Z".
Definition FIXED_FINISHED_AT : string := "2026-01-01T00:00:02Z".
Definition STREAM_OUTBOUND_CAPACITY : N := 16.
Definition JOB_KIND : string := "job".

Definition job_resource (job_id : string) : ResourceRef := mk_ref NODE_NAME JOB_KIND job_id.

(** ** [u32] arithmetic *)

Definition U32_MAX : N := 2 ^ 32 - 1.

(** [a + b] on an unsigned type: with overflow checks it panics ([None]),
    without it wraps. *)
Definition add_checked (checks : bool) (modulus a b : N) : option N :=
  if (a + b <? modulus)%N then Some (a + b)%N
  else if checks then None else Some ((a + b) mod modulus)%N.

Definition progress_percent (step total : N) : N :=
  N.min (N.min (step * 100) U32_MAX / N.max total 1) 99.

(** ** Streams ([streams.rs]) *)

Inductive JobStream := Lifecycle | Progress | Logs.

Definition ALL : list JobStream := [Lifecycle; Progress; Logs].

Definition stream_name (s : JobStream) : string :=
  match s with Lifecycle => "lifecycle" | Progress => "progress" | Logs => "logs" end.

Definition event_kind (s : JobStream) : string :=
  match s with Lifecycle => "job.lifecycle" | Progress => "job.progress" | Logs => "job.log" end.

Definition payload_version (s : JobStream) : N := 1.

Definition stream_spec (s : JobStream) : StreamSpec := mk_stream_spec (stream_name s) Object.

(** [expect]: [None] would be a panic. *)
Definition stream_policy (s : JobStream) : option SlowConsumerPolicy :=
  match s with
  | Progress => match from_query "coalesce" (Some "data.coalesceKey") with
                | Ok p => Some p
                | Err _ => None
                end
  | Lifecycle | Logs => Some Backpressure
  end.

(** The subscription [href] is printed from. *)
Definition stream_subscription (s : JobStream) (r : ResourceRef) : option SubscriptionUrl :=
  policy ← stream_policy s;
  Some (su_slow_consumer policy (su_with_replay true
    (su_with_capacity STREAM_OUTBOUND_CAPACITY (for_resource_ref r (stream_name s))))).

Definition stream_href {hl : HttpLib} {fl : FormLib} (s : JobStream) (r : ResourceRef) : option string :=
  relative_href <$> stream_subscription s r.

(** ** The API types ([api.rs]) *)

Inductive FakeCommand := SuccessAfterTicks (ticks : N) | FailAtStep (step : N).

Definition total_steps (c : FakeCommand) : N :=
  match c with SuccessAfterTicks ticks => N.max ticks 1 | FailAtStep step => N.max step 1 end.

Record SubmitJob := mk_submit {
  sj_command : FakeCommand;
  sj_labels : list (string * string);
  sj_owner : option string;
  sj_priority : N
}.

Record RetryJob := mk_retry { reset_logs : bool }.

(** [serde_json::from_value] at the two input types. *)
Class JobSerde (num : Type) := {
  submit_from_value : json num → result string SubmitJob;
  retry_from_value : json num → result string RetryJob
}.

Section handle.
  Context {hl : HttpLib} {fl : FormLib} {num : Type}.

Record JobStreams := mk_job_streams { js_lifecycle : string; js_progress : string; js_logs : string }.

Definition streams_for_job (job_id : string) : option JobStreams :=
  let resource := job_resource job_id in
  l ← stream_href Lifecycle resource; p ← stream_href Progress resource;
  g ← stream_href Logs resource; Some (mk_job_streams l p g).

Record JobHandle := mk_job_handle { jh_job_id : string; jh_href : string; jh_streams : JobStreams }.

(** [JobHandle::for_job] *)
Definition for_job (job_id : string) : option JobHandle :=
  let href := resource_href (job_resource job_id) in
  streams ← streams_for_job job_id; Some (mk_job_handle job_id href streams).

Definition to_outcome_job (created : bool) (h : JobHandle) : AcceptedJob :=
  job_for_resource (job_resource (jh_job_id h)) created.

(** The derived [Serialize], in camel case. *)
Definition handle_to_value (h : JobHandle) : json num :=
  let s := jh_streams h in
  JObject (map_insert "streams" (JObject (map_insert "logs" (JString (js_logs s))
             (map_insert "progress" (JString (js_progress s))
               (map_insert "lifecycle" (JString (js_lifecycle s)) []))))
    (map_insert "href" (JString (jh_href h)) (map_insert "jobId" (JString (jh_job_id h)) []))).
End handle.

(** ** The data of a job *)

Inductive JobState := JQueued | JRunning | JSucceeded | JFailed | JCancelling | JCancelled.

#[export] Instance job_state_eq_dec : EqDecision JobState.
Proof. solve_decision. Defined.

Definition as_str (s : JobState) : string :=
  match s with
  | JQueued => "queued"
  | JRunning => "running"
  | JSucceeded => "succeeded"
  | JFailed => "failed"
  | JCancelling => "cancelling"
  | JCancelled => "cancelled"
  end.

Definition can_cancel (s : JobState) : bool := match s with JQueued | JRunning => true | _ => false end.
Definition can_retry (s : JobState) : bool := match s with JFailed => true | _ => false end.

Definition example_labels : list (string * string) := [("example", "jobs")].

Section job.
  Context {hl : HttpLib} {fl : FormLib} {num : Type} `{!SerdeNumber num, !JobSerde num}.
  Context {W : Type} `{!Publisher num W}.
  (** Whether the build checks arithmetic overflow. *)
  Context (overflow_checks : bool).

Record JobData := mk_job_data {
  jd_queue : string;
  jd_command : FakeCommand;
  jd_labels : list (string * string);
  jd_state : JobState;
  jd_owner : option string;
  jd_priority : N;                            (** [u8] *)
  jd_attempt : N;                             (** [u32] *)
  jd_step : N;                                (** [u32] *)
  jd_progress : N;                            (** [u8] *)
  jd_submitted_at : string;
  jd_started_at : option string;
  jd_finished_at : option string;
  jd_result : option (json num);
  jd_error : option (json num)
}.
Implicit Types (d : JobData) (w : W).

(** The fields that change after submission, assigned together. *)
Definition assign d (state : JobState) (attempt step progress : N) (started finished : option string)
    (result error : option (json num)) : JobData :=
  mk_job_data (jd_queue d) (jd_command d) (jd_labels d) state (jd_owner d) (jd_priority d) attempt
    step progress (jd_submitted_at d) started finished result error.

(** The data of [Job::from_submit] *)
Definition data_from_submit (queue : string) (input : SubmitJob) : JobData :=
  let labels := foldl (λ m kv, map_insert kv.1 kv.2 m) example_labels (sj_labels input) in
  mk_job_data queue (sj_command input) labels JQueued (sj_owner input) (sj_priority input) 1 0 0
    FIXED_SUBMITTED_AT None None None None.

(** [JobData::cancel] *)
Definition data_cancel d : result TransitionError JobData :=
  let to state finished :=
    assign d state (jd_attempt d) (jd_step d) (jd_progress d) (jd_started_at d) finished
      (jd_result d) (jd_error d) in
  match jd_state d with
  | JQueued => Ok (to JCancelled (Some FIXED_FINISHED_AT))
  | JRunning => Ok (to JCancelling (jd_finished_at d))
  | JSucceeded | JFailed | JCancelling | JCancelled =>
      Err (TConflict ("cannot cancel " +:+ as_str (jd_state d) +:+ " job"))
  end.

Definition cancel_spec : TransitionSpec num :=
  spec_effect UnsafeIdempotent (spec_idempotency Supported
    (spec_allowed_states ["queued"; "running"] (spec_title "Cancel job" (sync "cancel")))).

Definition retry_spec : TransitionSpec num :=
  spec_effect Unsafe (spec_idempotency IdemNone
    (spec_allowed_states ["failed"] (spec_title "Retry job" (async_job "retry")))).

(** [JobData::transitions] *)
Definition job_transitions d : list (TransitionAffordance num) :=
  [if can_cancel (jd_state d) then affordance_available cancel_spec
   else affordance_unavailable cancel_spec "cancel is only available for queued or running jobs";
   if can_retry (jd_state d) then affordance_available retry_spec
   else affordance_unavailable retry_spec "retry is only available for failed jobs"].

Definition option_json (value : option string) : json num := from_option JString JNull value.

Definition json_u (n : N) : json num := JNumber (num_of_u64 n).

(** [JobData::properties] *)
Definition job_properties d : list (string * json num) :=
  foldl (λ m kv, map_insert kv.1 kv.2 m) [] [
    ("queue", JString (jd_queue d));
    ("owner", option_json (jd_owner d));
    ("priority", json_u (jd_priority d));
    ("attempt", json_u (jd_attempt d));
    ("step", json_u (jd_step d));
    ("total_steps", json_u (total_steps (jd_command d)));
    ("progress", json_u (jd_progress d));
    ("submitted_at", JString (jd_submitted_at d));
    ("started_at", option_json (jd_started_at d));
    ("finished_at", option_json (jd_finished_at d));
    ("result", default JNull (jd_result d));
    ("error", default JNull (jd_error d))].

(** [JobData::snapshot] *)
Definition job_snapshot d : ResourceSnapshot num :=
  build_transitions (job_transitions d)
    (build_labels (jd_labels d)
      (build_properties (job_properties d) (build_state (as_str (jd_state d)) (builder "job")))).

(** ** Events ([events.rs]): what is published, as the arguments of [publish] *)

Record Publication := mk_pub { pb_stream : JobStream; pb_data : json num }.

Definition lifecycle_event (job_id : string) d (reason : option string) : json num :=
  JObject (map_insert "reason" (option_json reason) (map_insert "state" (JString (as_str (jd_state d)))
    (map_insert "attempt" (json_u (jd_attempt d)) (map_insert "jobId" (JString job_id) [])))).

Definition progress_event (job_id : string) d (message : string) : json num :=
  JObject (map_insert "message" (JString message)
    (map_insert "totalSteps" (json_u (total_steps (jd_command d)))
    (map_insert "step" (json_u (jd_step d)) (map_insert "percent" (json_u (jd_progress d))
    (map_insert "coalesceKey" (JString (job_id +:+ ":" +:+ pretty (jd_attempt d)))
    (map_insert "attempt" (json_u (jd_attempt d)) (map_insert "jobId" (JString job_id) []))))))).

Definition log_event (job_id : string) d (level line : string) : json num :=
  JObject (map_insert "line" (JString line) (map_insert "level" (JString level)
    (map_insert "attempt" (json_u (jd_attempt d)) (map_insert "jobId" (JString job_id) [])))).

(** [publish_lifecycle] *)
Definition publish_lifecycle (ctx : TransitionCtx) d (reason : option string) w
    : result TransitionError unit * W :=
  pub_transition ctx (stream_name Lifecycle) (event_kind Lifecycle) (payload_version Lifecycle)
    (lifecycle_event (default "" (ctx_resource_id ctx)) d reason) w.

(** [publish_lifecycle_from_actor], [publish_progress_from_actor] and
    [publish_log_from_actor]; the task ignores their results. *)
Definition publish_from_actor (ctx : ActorCtx) w (p : Publication) : W :=
  (pub_actor ctx (stream_name (pb_stream p)) (event_kind (pb_stream p)) (payload_version (pb_stream p))
     (pb_data p) w).2.

Definition lifecycle_pub (ctx : ActorCtx) d (reason : option string) : Publication :=
  mk_pub Lifecycle (lifecycle_event (ac_resource_id ctx) d reason).
Definition progress_pub (ctx : ActorCtx) d (message : string) : Publication :=
  mk_pub Progress (progress_event (ac_resource_id ctx) d message).
Definition log_pub (ctx : ActorCtx) d (level line : string) : Publication :=
  mk_pub Logs (log_event (ac_resource_id ctx) d level line).

(** ** The task ([run_job]) *)

(** Where the spawned task stands; it keeps the context it was given. *)
Inductive Runner :=
| NotSpawned
| Delayed (ctx : ActorCtx)            (** in the first [sleep], or waiting for the lock *)
| Looping (ctx : ActorCtx)            (** at the top of the loop *)
| Returned
| Aborted
| Panicked.

(** The first region. *)
Definition start_region (ctx : ActorCtx) d : JobData * list Publication * Runner :=
  match jd_state d with
  | JQueued =>
      let d' := assign d JRunning (jd_attempt d) (jd_step d) (jd_progress d) (Some FIXED_STARTED_AT)
                  (jd_finished_at d) (jd_result d) (jd_error d) in
      (d', [lifecycle_pub ctx d' None; log_pub ctx d' "info" "job started"], Looping ctx)
  | _ => (d, [], Returned)
  end.

(** The events of a step that does not finish the job. *)
Definition progress_region (ctx : ActorCtx) d (step total : N)
    : JobData * list Publication * Runner :=
  let d' := assign d (jd_state d) (jd_attempt d) step (progress_percent step total)
              (jd_started_at d) (jd_finished_at d) (jd_result d) (jd_error d) in
  (d', [progress_pub ctx d' "job progress"; log_pub ctx d' "info" "job progress"], Looping ctx).

Definition command_failed : json num :=
  JObject (map_insert "message" (JString "fake command failed")
    (map_insert "code" (JString "command_failed") [])).

(** One round of the loop. *)
Definition round_region (ctx : ActorCtx) d : JobData * list Publication * Runner :=
  match jd_state d with
  | JRunning =>
      match add_checked overflow_checks (2 ^ 32) (jd_step d) 1 with
      | None => (d, [], Panicked)
      | Some step =>
          match jd_command d with
          | SuccessAfterTicks ticks =>
              let total := N.max ticks 1 in
              if (total <=? step)%N then
                let d' := assign d JSucceeded (jd_attempt d) step 100 (jd_started_at d)
                            (Some FIXED_FINISHED_AT)
                            (Some (JObject (map_insert "status" (JString "ok") []))) (jd_error d) in
                (d', [lifecycle_pub ctx d' None], Returned)
              else progress_region ctx d step total
          | FailAtStep at_step =>
              let fail_at := N.max at_step 1 in
              if (fail_at <=? step)%N then
                let d' := assign d JFailed (jd_attempt d) step (jd_progress d) (jd_started_at d)
                            (Some FIXED_FINISHED_AT) (jd_result d) (Some command_failed) in
                (d', [lifecycle_pub ctx d' None; log_pub ctx d' "error" "fake command failed"], Returned)
              else progress_region ctx d step fail_at
          end
      end
  | JCancelling =>
      let d' := assign d JCancelled (jd_attempt d) (jd_step d) (jd_progress d) (jd_started_at d)
                  (Some FIXED_FINISHED_AT) (jd_result d) (jd_error d) in
      (d', [lifecycle_pub ctx d' (Some "user_cancelled")], Returned)
  | JQueued => (d, [], Looping ctx)
  | JSucceeded | JFailed | JCancelled => (d, [], Returned)
  end.

Definition region (r : Runner) d : option (ActorCtx * (JobData * list Publication * Runner)) :=
  match r with
  | Delayed ctx => Some (ctx, start_region ctx d)
  | Looping ctx => Some (ctx, round_region ctx d)
  | _ => None
  end.

(** [JoinHandle::abort] *)
Definition abort (r : Runner) : Runner :=
  match r with Delayed _ | Looping _ => Aborted | _ => r end.

(** ** The actor *)

(** [jb_runner]: the handle is held. *)
Record Job := mk_job { jb_shared : JobData; jb_runner : bool; jb_task : Runner }.

Definition from_submit (queue : string) (input : SubmitJob) : Job :=
  mk_job (data_from_submit queue input) false NotSpawned.

Definition job_spec : ResourceSpec num :=
  mk_resource_spec "job" None example_labels None (map stream_spec ALL).

Definition set_shared (j : Job) d : Job := mk_job d (jb_runner j) (jb_task j).

Definition cancel (ctx : TransitionCtx) (_ : TransitionInput num) (a : Job * W)
    : option (result TransitionError (TransitionOutcome num) * (Job * W)) :=
  match data_cancel (jb_shared a.1) with
  | Err e => Some (Err e, a)
  | Ok d =>
      let '(r, w) := publish_lifecycle ctx d (Some "user_cancelled") a.2 in
      Some (let? _ := r in
            completed ctx
              (Some (JObject (map_insert "state" (JString (as_str (jd_state d)))
                 (map_insert "accepted" (JBool true) [])))) (job_snapshot d),
            (set_shared a.1 d, w))
  end.

(** The assignments of [retry]. *)
Definition reset d (attempt : N) : JobData :=
  assign d JQueued attempt 0 0 None None None None.

Definition retry (ctx : TransitionCtx) (input : TransitionInput num) (a : Job * W)
    : option (result TransitionError (TransitionOutcome num) * (Job * W)) :=
  match deserialize retry_from_value input with
  | Err e => Some (Err e, a)
  | Ok _ =>
      let d := jb_shared a.1 in
      if negb (can_retry (jd_state d)) then
        Some (Err (TConflict ("retry is not available for " +:+ as_str (jd_state d) +:+ " jobs")), a)
      else
        attempt ← add_checked overflow_checks (2 ^ 32) (jd_attempt d) 1;
        let d' := reset d attempt in
        let '(r, w) := publish_lifecycle ctx d' (Some "retried") a.2 in
        let a' := (set_shared a.1 d', w) in
        match r, resource_id_required ctx with
        | Err e, _ | Ok _, Err e => Some (Err e, a')
        | Ok _, Ok id =>
            handle ← for_job id;
            Some (outcome_accepted (to_outcome_job false handle) (Ok (handle_to_value handle)), a')
        end
  end.

(** [boot] and [teardown] *)
Definition boot (ctx : ActorCtx) (a : Job * W) : option (result ActorError unit * (Job * W)) :=
  Some (Ok tt, (mk_job (jb_shared a.1) true (Delayed ctx), a.2)).

Definition teardown (_ : ActorCtx) (a : Job * W) : option (result ActorError unit * (Job * W)) :=
  let j := a.1 in
  Some (Ok tt, (mk_job (jb_shared j) false (if jb_runner j then abort (jb_task j) else jb_task j), a.2)).

Definition job_block : list ImplItem := [
  ItemFn "cancel" [mk_attribute ["boardwalk"; "transition"] ""];
  ItemFn "retry" [mk_attribute ["boardwalk"; "transition"] ""];
  ItemFn "boot" [mk_attribute ["boardwalk"; "on_start"] ""];
  ItemFn "teardown" [mk_attribute ["boardwalk"; "on_stop"] ""]
].

Definition job_methods : Methods num (Job * W) :=
  mk_methods
    (λ method, if String.eqb method "cancel" then cancel
               else if String.eqb method "retry" then retry else λ _ _ _, None)
    (λ method, if String.eqb method "boot" then boot
               else if String.eqb method "teardown" then teardown else λ _ _, None).

Definition job_actor : Actor num (Job * W) := {|
  actor_spec := λ _, job_spec;
  actor_snapshot := λ a, Some (Ok (job_snapshot (jb_shared a.1)), a);
  actor_transition := generated_transition (λ _, true) (expand job_block) job_methods;
  actor_on_start := generated_hook (λ _, true) (xp_on_start (expand job_block)) job_methods;
  actor_on_stop := generated_hook (λ _, true) (xp_on_stop (expand job_block)) job_methods
|}.
#[local] Existing Instance job_actor.

(** ** The system: commands, the task and the rest of the node *)

Definition after_region (j : Job) d (r : Runner) : Job := mk_job d (jb_runner j) r.

(** The label counts the regions the task runs. *)
Inductive job_step : nat → Job * W → Job * W → Prop :=
| js_command ctx name input r a a' :
    actor_transition ctx name input a = Some (r, a') → job_step 0 a a'
| js_start ctx r a a' : jb_task a.1 = NotSpawned → actor_on_start ctx a = Some (r, a') → job_step 0 a a'
| js_stop ctx r a a' : actor_on_stop ctx a = Some (r, a') → job_step 0 a a'
| js_region ctx j w d pubs r : region (jb_task j) (jb_shared j) = Some (ctx, (d, pubs, r)) →
    job_step 1 (j, w) (after_region j d r, foldl (publish_from_actor ctx) w pubs)
(** [teardown] while the task publishes: what it assigned stays, the rest of
    its events is lost *)
| js_region_aborted n ctx j w d pubs r : jb_runner j = true →
    region (jb_task j) (jb_shared j) = Some (ctx, (d, pubs, r)) →
    job_step 1 (j, w) (mk_job d false Aborted, foldl (publish_from_actor ctx) w (take n pubs))
(** the bus moves on *)
| js_world j w w' : job_step 0 (j, w) (j, w').

Inductive job_run : nat → Job * W → Job * W → Prop :=
| jr_refl a : job_run 0 a a
| jr_step n m a b c : job_run n a b → job_step m b c → job_run (n + m) a c.
End job.
Arguments JobData num : clear implicits.
Arguments Publication num : clear implicits.
Arguments Job num : clear implicits.

(** ** The queue ([queue.rs]) *)

(** [TransitionCtx::register_actor] at [Job]. *)
Class JobRegistry (num W : Type) :=
  reg_job : TransitionCtx → Job num → W → result TransitionError string * W.

(** A registration that fails is not a refusal. *)
Class JobRegistryLaws (num W : Type) `{!JobRegistry num W} : Prop :=
  reg_job_not_refused c (j : Job num) (w : W) : refused (reg_job c j w).1 = false.

Section node_registry.
  Context {num A : Type} `{!Actor num A} `{!Mpsc (Command num)}.
  (** How a job becomes an actor of the node, and the minted ids. *)
  Context (embed : Job num → A) (mint : Node num A → string).

#[local] Instance node_registry : JobRegistry num (Node num A) :=
  λ c j n, ctx_register_actor c (mint n) (embed j) n.

#[local] Instance node_registry_laws : JobRegistryLaws num (Node num A).
Proof.
  intros c j n. unfold reg_job, node_registry, ctx_register_actor. destruct (tc_node c); [|done].
  destruct (register_actor _ _ n) as [[id|[]] n']; done.
Qed.
End node_registry.

Section queue.
  Context {hl : HttpLib} {fl : FormLib} {num : Type} `{!SerdeNumber num, !JobSerde num}.
  Context {W : Type} `{!JobRegistry num W}.
  Context (overflow_checks : bool).

Record JobQueue := mk_queue { qu_name : string; qu_submitted : N (** [u64] *) }.

Definition queue_new (name : string) : JobQueue := mk_queue name 0.

Definition queue_spec (q : JobQueue) : ResourceSpec num :=
  mk_resource_spec "job.queue" (Some (qu_name q)) example_labels None [].

Definition submit_spec : TransitionSpec num :=
  spec_effect Unsafe (spec_idempotency Supported
    (spec_allowed_states ["open"] (spec_title "Submit job" (async_job "submit")))).

Definition queue_properties (q : JobQueue) : list (string * json num) :=
  foldl (λ m kv, map_insert kv.1 kv.2 m) [] [
    ("submitted_count", json_u (qu_submitted q)); ("queued_count", json_u 0);
    ("running_count", json_u 0); ("succeeded_count", json_u 0); ("failed_count", json_u 0);
    ("cancelled_count", json_u 0)].

Definition queue_snapshot (q : JobQueue) : ResourceSnapshot num :=
  build_transitions [affordance_available submit_spec]
    (build_labels example_labels
      (build_properties (queue_properties q)
        (build_state "open" (build_name (qu_name q) (builder "job.queue"))))).

Definition submit (ctx : TransitionCtx) (input : TransitionInput num) (a : JobQueue * W)
    : option (result TransitionError (TransitionOutcome num) * (JobQueue * W)) :=
  match deserialize submit_from_value input with
  | Err e => Some (Err e, a)
  | Ok submitted_job =>
      let '(r, w) := reg_job ctx (from_submit (qu_name a.1) submitted_job) a.2 in
      match r with
      | Err e => Some (Err e, (a.1, w))
      | Ok id =>
          n ← add_checked overflow_checks (2 ^ 64) (qu_submitted a.1) 1;
          handle ← for_job id;
          Some (outcome_accepted (to_outcome_job true handle) (Ok (handle_to_value handle)),
                (mk_queue (qu_name a.1) n, w))
      end
  end.

Definition queue_block : list ImplItem := [ItemFn "submit" [mk_attribute ["boardwalk"; "transition"] ""]].

Definition queue_methods : Methods num (JobQueue * W) :=
  mk_methods (λ method, if String.eqb method "submit" then submit else λ _ _ _, None) (λ _ _ _, None).

Definition queue_actor : Actor num (JobQueue * W) := {|
  actor_spec := λ a, queue_spec a.1;
  actor_snapshot := λ a, Some (Ok (queue_snapshot a.1), a);
  actor_transition := generated_transition (λ _, true) (expand queue_block) queue_methods;
  actor_on_start := generated_hook (λ _, true) (xp_on_start (expand queue_block)) queue_methods;
  actor_on_stop := generated_hook (λ _, true) (xp_on_stop (expand queue_block)) queue_methods
|}.
End queue.

(** [boardwalk()] of [lib.rs] *)
Definition example_boardwalk {W} (w : W) : Boardwalk (JobQueue * W) :=
  use_actor_with_id QUEUE_ID (queue_new QUEUE_NAME, w) (set_name NODE_NAME boardwalk_new).

(** [RunningExample::url] *)
Definition running_url (addr path : string) : string :=
  if starts_with "/" path then "http://" +:+ addr +:+ path else "http://" +:+ addr +:+ "/" +:+ path.
