(* ===== verification/JobProps.v ===== *)
(** What the job runner guarantees: the invariant of a job's data under every
    interleaving of its task and its actor, the termination of the task, what a
    retried job does, the honesty of the affordances, and where the links of a
    job handle lead. *)

From S2P Require Import Prelude F64 Json Query Topic Envelope Sequencer Policy CoalesceQueue Mpsc.
From S2P Require Import Capabilities Http Resource.
From S2P Require Import Runtime Executor ActorMacro Node Core Peer Siren Render Handlers Honest.
From S2P Require Import EventStream Job.

(** ** Progress *)

Lemma progress_percent_below step total : (progress_percent step total ≤ 99)%N.
Proof. unfold progress_percent. lia. Qed.

(** The percentage is exact, rounded down and kept below 100, as long as
    [step * 100] fits 32 bits; it never decreases as the steps go by, but past
    42949672 steps it stops moving: a job of fifty million steps or more never
    gets past 85 percent before it ends. *)
Theorem progress_percent_exact (step total : N) :
  (0 < total)%N → (step ≤ total)%N →
  ((step ≤ 42949672)%N → progress_percent step total = N.min (step * 100 / total) 99) ∧
  (progress_percent step total ≤ progress_percent (step + 1) total)%N ∧
  ((50000000 ≤ total)%N → (progress_percent step total ≤ 85)%N).
Proof.
  unfold progress_percent, U32_MAX. change (2 ^ 32 - 1)%N with 4294967295%N. intros Ht Hs.
  rewrite (N.max_l total 1) by lia. split_and!.
  - intros H. by rewrite (N.min_l (step * 100)) by lia.
  - apply N.min_le_compat_r. apply N.Div0.div_le_mono. lia.
  - intros H. etransitivity; [apply N.le_min_l|].
    transitivity (4294967295 / 50000000)%N; [|vm_compute; discriminate].
    etransitivity; [apply N.Div0.div_le_mono, N.le_min_r|]. apply N.div_le_compat_l. lia.
Qed.

Lemma progress_percent_exact_witness : progress_percent 1 3 = 33%N.
Proof.
  destruct (progress_percent_exact 1 3) as [H _]; [lia..|]. rewrite H by lia. reflexivity.
Defined.

Section facts.
  Context {hl : HttpLib} {fl : FormLib} {num : Type} `{!SerdeNumber num, !JobSerde num}.
  Context {W : Type} `{!Publisher num W}.
  Context (overflow_checks : bool).
  #[local] Existing Instance job_actor.
  Implicit Types (d : JobData num) (j : Job num) (a : Job num * W) (w : W).
  #[local] Abbreviation step_of := (job_step (W:=W) overflow_checks).
  #[local] Abbreviation run_of := (job_run (W:=W) overflow_checks).

Lemma job_dispatch name :
  dispatch (λ _, true) (expand job_block) name
  = if String.eqb name "cancel" then Some "cancel"
    else if String.eqb name "retry" then Some "retry" else None.
Proof.
  unfold dispatch. change (xp_transitions (expand job_block))
    with [mk_arm "cancel" "cancel" []; mk_arm "retry" "retry" []].
  cbn -[String.eqb]. rewrite (String.eqb_sym "cancel" name), (String.eqb_sym "retry" name).
  repeat case_match; done.
Qed.

Lemma job_transition_eq ctx name input a :
  actor_transition (Actor:=job_actor overflow_checks) ctx name input a =
  if String.eqb name "cancel" then cancel ctx input a
  else if String.eqb name "retry" then retry overflow_checks ctx input a
  else Some (Err (unknown_transition name), a).
Proof.
  cbn [actor_transition job_actor]. unfold generated_transition. rewrite job_dispatch.
  destruct (String.eqb name "cancel"); [reflexivity|].
  destruct (String.eqb name "retry"); reflexivity.
Qed.

(** The only ways a command changes the data: a cancellation, or a reset. *)
Lemma command_effect ctx name input a r a' :
  actor_transition (Actor:=job_actor overflow_checks) ctx name input a = Some (r, a') →
  a' = a ∨
  (∃ d, data_cancel (jb_shared a.1) = Ok d ∧ a'.1 = set_shared a.1 d) ∨
  (∃ n, can_retry (jd_state (jb_shared a.1)) = true ∧
        add_checked overflow_checks (2 ^ 32) (jd_attempt (jb_shared a.1)) 1 = Some n ∧
        a'.1 = set_shared a.1 (reset (jb_shared a.1) n)).
Proof.
  rewrite job_transition_eq. destruct (String.eqb name "cancel"); [|destruct (String.eqb name "retry")].
  - unfold cancel. destruct (data_cancel (jb_shared a.1)) as [d|e]; [|intros [= <- <-]; by left].
    destruct (publish_lifecycle _ _ _ _) as [[[]|e] w]; intros [= <- <-]; right; left; eauto.
  - unfold retry. destruct (deserialize _ _); [|intros [= <- <-]; by left].
    destruct (can_retry (jd_state (jb_shared a.1))); [|intros [= <- <-]; by left]. cbn [negb].
    destruct (add_checked _ _ _ _) as [n|]; [|done]. cbn -[for_job publish_lifecycle].
    destruct (publish_lifecycle _ _ _ _) as [[[]|e] w]; [|intros [= <- <-]; right; right; eauto].
    destruct (resource_id_required ctx) as [id|e]; [|intros [= <- <-]; right; right; eauto].
    destruct (for_job id); [|done]. intros [= <- <-]. right; right; eauto.
  - intros [= <- <-]. by left.
Qed.

(** ** The invariant *)

Definition terminal (s : JobState) : bool :=
  match s with JSucceeded | JFailed | JCancelled => true | _ => false end.

Definition live (r : Runner) : bool := match r with Delayed _ | Looping _ => true | _ => false end.

(** Where the task stands and what the data says. *)
Definition phase_ok (r : Runner) d : Prop :=
  match r with
  | NotSpawned | Delayed _ =>
      (jd_state d = JQueued ∨ jd_state d = JCancelled) ∧ jd_attempt d = 1%N ∧ jd_step d = 0%N
  | Looping _ =>
      (jd_state d = JRunning ∨ jd_state d = JCancelling) ∧ jd_attempt d = 1%N ∧
      (jd_step d < total_steps (jd_command d))%N
  | Returned => terminal (jd_state d) = true ∨ jd_state d = JQueued ∧ jd_attempt d = 2%N
  | Aborted => True
  | Panicked => False
  end.

Record data_ok d : Prop := {
  do_width : (total_steps (jd_command d) < 2 ^ 32)%N;
  do_step : (jd_step d ≤ total_steps (jd_command d))%N;
  do_progress : if decide (jd_state d = JSucceeded)
                then jd_progress d = 100%N ∧ jd_step d = total_steps (jd_command d)
                else (jd_progress d ≤ 99)%N;
  do_finished : is_Some (jd_finished_at d) ↔ terminal (jd_state d) = true;
  do_result : is_Some (jd_result d) ↔ jd_state d = JSucceeded;
  do_error : is_Some (jd_error d) ↔ jd_state d = JFailed;
  do_command : match jd_command d with
               | SuccessAfterTicks _ => jd_state d ≠ JFailed
               | FailAtStep _ => jd_state d ≠ JSucceeded
               end
}.

Record job_ok j : Prop := {
  jo_data : data_ok (jb_shared j);
  jo_phase : phase_ok (jb_task j) (jb_shared j);
  jo_attempt : jd_attempt (jb_shared j) = 1%N ∨
    jd_attempt (jb_shared j) = 2%N ∧ jd_step (jb_shared j) = 0%N ∧ live (jb_task j) = false ∧
    jb_task j ≠ NotSpawned ∧
    (jd_state (jb_shared j) = JQueued ∨ jd_state (jb_shared j) = JCancelled)
}.

(** One field of [data_ok] after an assignment that keeps what it says. *)
#[local] Ltac ok_field Hr He Hc :=
  first [ done | lia | rewrite Hr; split; discriminate | rewrite He; split; discriminate
        | match goal with d : JobData _ |- _ => destruct (jd_command d); first [discriminate|done] end
        | split; eauto ].

Lemma cancel_ok d d' :
  data_cancel d = Ok d' → data_ok d →
  data_ok d' ∧ jd_command d' = jd_command d ∧ jd_attempt d' = jd_attempt d ∧ jd_step d' = jd_step d ∧
  (jd_state d = JQueued ∧ jd_state d' = JCancelled ∨ jd_state d = JRunning ∧ jd_state d' = JCancelling).
Proof.
  unfold data_cancel. destruct (jd_state d) eqn:E; intros [= <-] [Hw Hs Hp Hf Hr He Hc];
    rewrite E in *; (split; [constructor; simpl; ok_field Hr He Hc|split_and!; auto]).
Qed.

Lemma from_submit_ok queue input :
  (total_steps (sj_command input) < 2 ^ 32)%N → job_ok (from_submit queue input).
Proof.
  intros Hw. split; simpl.
  - constructor; simpl; try done; try lia; try by destruct (sj_command input).
  - auto.
  - auto.
Qed.

Lemma start_region_ok ctx d d' pubs r :
  start_region ctx d = (d', pubs, r) → data_ok d → phase_ok (Delayed ctx) d →
  data_ok d' ∧ phase_ok r d' ∧ jd_attempt d' = 1%N ∧ jd_command d' = jd_command d ∧
  (r = Looping ctx ∧ jd_step d' = 0%N ∨ r = Returned).
Proof.
  unfold start_region. intros H [Hw Hs Hp Hf Hr He Hc] ([E|E] & Ha & Hst); rewrite E in *;
    injection H as <- <- <-; simpl; rewrite ?E, ?Ha, ?Hst.
  - split_and!; auto; [constructor; simpl; rewrite ?Hst; ok_field Hr He Hc
      |unfold total_steps; destruct (jd_command d); lia].
  - split_and!; try done; [|by left|by right]. by constructor; rewrite ?E.
Qed.

Lemma step_below_width d :
  data_ok d → (jd_step d < total_steps (jd_command d))%N →
  add_checked overflow_checks (2 ^ 32) (jd_step d) 1 = Some (jd_step d + 1)%N.
Proof.
  intros [Hw _ _ _ _ _ _] Hs. unfold add_checked.
  rewrite (proj2 (N.ltb_lt _ _)); [done|]. lia.
Qed.

Lemma progress_region_ok ctx d step d' pubs r :
  (1 ≤ step)%N → (step < total_steps (jd_command d))%N →
  progress_region ctx d step (total_steps (jd_command d)) = (d', pubs, r) →
  jd_state d = JRunning → jd_attempt d = 1%N → data_ok d →
  data_ok d' ∧ phase_ok r d' ∧ r = Looping ctx ∧ jd_attempt d' = 1%N ∧
  jd_command d' = jd_command d ∧ jd_step d' = step.
Proof.
  unfold progress_region. intros H1 Hlt [= <- <- <-] E Ha [Hw Hs Hp Hf Hr He Hc].
  rewrite E in *. simpl. split_and!; auto.
  constructor; simpl; rewrite ?E; try done; [lia|].
  apply progress_percent_below.
Qed.

(** What one round does to a job that its task is looping on. *)
Lemma round_region_ok ctx d d' pubs r :
  round_region overflow_checks ctx d = (d', pubs, r) → data_ok d → phase_ok (Looping ctx) d →
  data_ok d' ∧ phase_ok r d' ∧ jd_attempt d' = 1%N ∧ jd_command d' = jd_command d ∧
  (r = Looping ctx ∧ jd_step d' = (jd_step d + 1)%N ∨ r = Returned) ∧
  (jd_state d = JRunning →
     if (total_steps (jd_command d) <=? jd_step d + 1)%N
     then r = Returned ∧ jd_state d' = match jd_command d with
            | SuccessAfterTicks _ => JSucceeded | FailAtStep _ => JFailed end
     else r = Looping ctx ∧ jd_state d' = JRunning).
Proof.
  intros H Hok ([E|E] & Ha & Hlt); unfold round_region in H; rewrite E in H.
  - rewrite (step_below_width d Hok Hlt) in H. pose proof Hok as [Hw Hs Hp Hf Hr He Hc]. rewrite E in *.
    assert (∀ total, total = total_steps (jd_command d) → (total <=? jd_step d + 1)%N = false →
      progress_region ctx d (jd_step d + 1) total = (d', pubs, r) →
      data_ok d' ∧ phase_ok r d' ∧ r = Looping ctx ∧ jd_attempt d' = 1%N ∧
      jd_command d' = jd_command d ∧ jd_step d' = (jd_step d + 1)%N ∧ jd_state d' = JRunning) as Hpr.
    { intros total -> Et Hreg. apply N.leb_gt in Et.
      destruct (progress_region_ok ctx d (jd_step d + 1) d' pubs r) as (? & ? & ? & ? & ? & ?); [lia|done..|].
      split_and!; try done. unfold progress_region in Hreg. injection Hreg as <- _ _. exact E. }
    destruct (total_steps (jd_command d) <=? jd_step d + 1)%N eqn:Et.
    2: { destruct (Hpr (total_steps (jd_command d)) eq_refl Et) as (? & ? & -> & ? & ? & ? & ?).
         - destruct (jd_command d); simpl in *; by rewrite Et in H.
         - split_and!; auto. }
    clear Hpr. apply N.leb_le in Et.
    destruct (jd_command d) as [n|n] eqn:Ec; simpl in Et, Hlt;
      rewrite (proj2 (N.leb_le _ _) Et) in H; injection H as <- <- <-; simpl; rewrite Ec, Ha;
      (split_and!; [|by left|done|done|by right|done]); constructor; simpl; rewrite ?Ec; simpl; try done;
      try lia; try (split; [done|by eexists]); try (split; [by eexists|done]).
    + by rewrite He.
    + by rewrite Hr.
  - pose proof Hok as [Hw Hs Hp Hf Hr He Hc]. rewrite E in *. injection H as <- <- <-. simpl.
    split_and!; try done; [|by left|by right]. constructor; simpl; ok_field Hr He Hc.
Qed.

Lemma abort_phase r d : phase_ok r d → phase_ok (abort r) d ∧ live (abort r) = false.
Proof. by destruct r. Qed.

(** The regions the task can still run. *)
Definition regions_left j : nat :=
  let total := N.to_nat (total_steps (jd_command (jb_shared j))) in
  match jb_task j with
  | NotSpawned | Delayed _ => S total
  | Looping _ => total - N.to_nat (jd_step (jb_shared j))
  | _ => 0
  end.

Lemma cancelled_ok j d :
  data_cancel (jb_shared j) = Ok d → job_ok j →
  job_ok (set_shared j d) ∧ regions_left (set_shared j d) = regions_left j.
Proof.
  intros Hc [Hd Hp Ha]. destruct (cancel_ok _ _ Hc Hd) as (Hd' & Hcmd & Hat & Hst & Hs). split.
  - split; simpl; [done| |].
    + destruct Hs as [[E E']|[E E']], (jb_task j); simpl in *; rewrite ?Hat, ?Hst, ?Hcmd, ?E';
        rewrite ?E in Hp; intuition (auto; congruence).
    + rewrite Hat, Hst. destruct Hs as [[E E']|[E E']]; rewrite E' in *; rewrite E in Ha; 
        intuition (auto; congruence).
  - unfold regions_left. simpl. by rewrite Hcmd, Hst.
Qed.

Lemma reset_ok j n :
  can_retry (jd_state (jb_shared j)) = true →
  add_checked overflow_checks (2 ^ 32) (jd_attempt (jb_shared j)) 1 = Some n → job_ok j →
  n = 2%N ∧ job_ok (set_shared j (reset (jb_shared j) n)) ∧
  regions_left (set_shared j (reset (jb_shared j) n)) = 0.
Proof.
  intros Hr Hn [Hd Hp Ha].
  assert (jd_state (jb_shared j) = JFailed) as E by (by destruct (jd_state (jb_shared j))).
  assert (jd_attempt (jb_shared j) = 1%N) as Hat by (rewrite E in Ha; naive_solver).
  rewrite Hat in Hn. unfold add_checked in Hn. simpl in Hn. simplify_eq.
  assert (live (jb_task j) = false ∧ jb_task j ≠ NotSpawned ∧ jb_task j ≠ Panicked) as (Hl & Hns & Hnp).
  { destruct (jb_task j); simpl in *; rewrite ?E in Hp; naive_solver. }
  split_and!; [done| |].
  - split; simpl; [|destruct (jb_task j); simpl; auto; done|by right; auto 6].
    destruct Hd as [Hw Hs Hpr Hf Hre He Hc]. constructor; simpl; try done; try lia.
    by destruct (jd_command (jb_shared j)).
  - unfold regions_left. simpl. by destruct (jb_task j).
Qed.

Lemma region_ok j ctx d pubs r :
  region overflow_checks (jb_task j) (jb_shared j) = Some (ctx, (d, pubs, r)) → job_ok j →
  data_ok d ∧ phase_ok r d ∧ jd_attempt d = 1%N ∧ jd_command d = jd_command (jb_shared j) ∧
  ∀ b, S (regions_left (mk_job d b r)) ≤ regions_left j.
Proof.
  intros H [Hd Hp _]. unfold region in H. unfold regions_left. simpl.
  destruct (jb_task j) as [|c|c| | |]; try done; injection H as <- H.
  - destruct (start_region_ok _ _ _ _ _ H Hd Hp) as (Hd' & Hp' & Hat & Hcmd & Hl).
    split_and!; try done. intros _. rewrite Hcmd. destruct Hl as [[-> ->]| ->]; lia.
  - destruct (round_region_ok _ _ _ _ _ H Hd Hp) as (Hd' & Hp' & Hat & Hcmd & Hl & _).
    destruct Hp as (_ & _ & Hlt). split_and!; try done. intros _. rewrite Hcmd.
    destruct Hl as [[-> ->]| ->]; lia.
Qed.

(** Every step keeps the invariant, and spends the regions it counts. *)
Lemma job_step_ok n a b :
  step_of n a b → job_ok a.1 → job_ok b.1 ∧ n + regions_left b.1 ≤ regions_left a.1.
Proof.
  intros Hs Hok. destruct Hs as [ctx name input r a a' H|ctx r a a' Ht H|ctx r a a' H
    |ctx j w d pubs r H|n ctx j w d pubs r Hh H|j w w']; simpl in *.
  - destruct (command_effect _ _ _ _ _ _ H) as [->|[(d & Hc & ->)|(n & Hr & Hn & ->)]]; [auto|..].
    + destruct (cancelled_ok _ _ Hc Hok) as [? ->]. auto.
    + destruct (reset_ok _ _ Hr Hn Hok) as (_ & ? & ->). split; [done|lia].
  - injection H as <- <-. destruct Hok as [Hd Hp Ha]. rewrite Ht in *. simpl in *. split.
    + split; simpl; [done..|]. destruct Ha as [Ha|Ha]; [auto|]. exfalso. tauto.
    + unfold regions_left. simpl. rewrite Ht. lia.
  - injection H as <- <-. destruct Hok as [Hd Hp Ha]. simpl in *. split.
    + split; simpl; [done| |]; destruct (jb_runner a.1); try done; [by apply abort_phase|].
      destruct (jb_task a.1); simpl in *; intuition.
    + unfold regions_left. simpl. destruct (jb_runner a.1), (jb_task a.1); simpl; lia.
  - destruct (region_ok _ _ _ _ _ H Hok) as (Hd & Hp & Ha & _ & Hl). split; [|apply Hl].
    split; simpl; auto.
  - destruct (region_ok _ _ _ _ _ H Hok) as (Hd & Hp & Ha & _ & Hl). split; [split; simpl; auto|].
    specialize (Hl true). unfold regions_left in *. simpl in *. lia.
  - auto.
Qed.

Lemma job_run_ok n a b :
  run_of n a b → job_ok a.1 → job_ok b.1 ∧ n + regions_left b.1 ≤ regions_left a.1.
Proof.
  induction 1 as [|n m a b c Hr IH Hs]; intros Ha; [auto|].
  destruct (IH Ha) as [Hb Hn]. destruct (job_step_ok _ _ _ Hs Hb). split; [done|lia].
Qed.

(** The command holds [u32]s. *)
Definition command_wf (c : FakeCommand) : Prop :=
  match c with SuccessAfterTicks n | FailAtStep n => (n < 2 ^ 32)%N end.

Lemma submitted_ok queue input :
  command_wf (sj_command input) → job_ok (from_submit (num:=num) queue input).
Proof. intros H. apply from_submit_ok. destruct (sj_command input); simpl in *; lia. Qed.

Lemma submitted_regions queue input :
  regions_left (from_submit (num:=num) queue input) = S (N.to_nat (total_steps (sj_command input))).
Proof. done. Qed.

(** C19: The data of a job is consistent in every interleaving of its task, the
    commands of its actor, a stop at any point (inside a publish too) and the
    rest of the node. The step never passes the total and never overflows its
    32 bits; the progress is 100 exactly when the job succeeded; the end time
    is set exactly in a terminal state, the result exactly on success, the
    error exactly on failure; a job whose command succeeds never fails and one
    whose command fails never succeeds; the task never panics, and while it is
    in its loop the job is running or cancelling. *)
Theorem job_invariant (queue : string) (input : SubmitJob) (w : W) (n : nat) a :
  command_wf (sj_command input) → run_of n (from_submit queue input, w) a →
  data_ok (jb_shared a.1) ∧ phase_ok (jb_task a.1) (jb_shared a.1) ∧
  (jd_progress (jb_shared a.1) ≤ 100)%N ∧
  (jd_progress (jb_shared a.1) = 100%N ↔ jd_state (jb_shared a.1) = JSucceeded) ∧
  (jd_attempt (jb_shared a.1) ≤ 2)%N.
Proof.
  intros Hwf Hr. destruct (job_run_ok _ _ _ Hr (submitted_ok queue input Hwf)) as [[Hd Hp Ha] _].
  pose proof (do_progress _ Hd) as Hpr. split_and!; [done..| | |].
  - case_decide; lia.
  - case_decide; [naive_solver|]. split; [lia|done].
  - destruct Ha as [->|[-> _]]; lia.
Qed.

(** ** Termination *)

(** The task alone: its next region, if it has one. *)
Definition advance a : Job num * W :=
  match region overflow_checks (jb_task a.1) (jb_shared a.1) with
  | Some (ctx, (d, pubs, r)) => (after_region a.1 d r, foldl (publish_from_actor ctx) a.2 pubs)
  | None => a
  end.

(** Where the task takes the job when nobody interferes any more. *)
Definition destined d : JobState :=
  match jd_state d with
  | JQueued | JRunning =>
      match jd_command d with SuccessAfterTicks _ => JSucceeded | FailAtStep _ => JFailed end
  | JCancelling => JCancelled
  | s => s
  end.

Lemma region_destined j ctx d pubs r :
  region overflow_checks (jb_task j) (jb_shared j) = Some (ctx, (d, pubs, r)) → job_ok j →
  destined d = destined (jb_shared j) ∧ (live r = true ∨ r = Returned ∧ jd_state d = destined d).
Proof.
  intros H [Hd Hp _]. unfold region in H. destruct (jb_task j) as [|c|c| | |]; try done;
    injection H as <- H; unfold destined.
  - unfold start_region in H. destruct Hp as ([E|E] & _); rewrite E in *; injection H as <- <- <-; simpl;
      rewrite ?E; auto.
  - destruct (round_region_ok _ _ _ _ _ H Hd Hp) as (_ & _ & _ & Hcmd & _ & Hrun).
    rewrite Hcmd. destruct Hp as ([E|E] & _).
    + specialize (Hrun E). rewrite E. case_match; destruct Hrun as [-> ->]; [|auto].
      destruct (jd_command (jb_shared j)); auto.
    + unfold round_region in H. rewrite E in *. injection H as <- <- <-. simpl. auto.
Qed.

Lemma live_regions j : job_ok j → live (jb_task j) = true → 0 < regions_left j.
Proof.
  intros [_ Hp _] Hl. unfold regions_left. destruct (jb_task j); try done; [lia|].
  destruct Hp as (_ & _ & ?). lia.
Qed.

Lemma advance_finishes k a :
  job_ok a.1 → live (jb_task a.1) = true → regions_left a.1 ≤ k →
  let b := Nat.iter k advance a in
  jb_task b.1 = Returned ∧ jd_state (jb_shared b.1) = destined (jb_shared a.1).
Proof.
  cbv zeta. revert a. induction k as [|k IH]; intros [j w] Hok Hl Hk.
  { pose proof (live_regions _ Hok Hl). simpl in *. lia. }
  rewrite Nat.iter_succ_r. unfold advance at 2 4. simpl in *.
  destruct (region overflow_checks (jb_task j) (jb_shared j)) as [[ctx [[d pubs] r]]|] eqn:Er.
  2: { by destruct (jb_task j). }
  destruct (job_step_ok 1 (j, w) _ (js_region overflow_checks ctx j w d pubs r Er) Hok) as [Hok' Hleft].
  destruct (region_destined _ _ _ _ _ Er Hok) as [Hd Hr]. simpl in *.
  set (a' := (after_region j d r, foldl (publish_from_actor ctx) w pubs)) in *.
  destruct Hr as [Hr|[-> Hend]].
  - destruct (IH a') as [H1 H2]; [done..|unfold a'; simpl; lia|]. rewrite H1, H2. done.
  - assert (Nat.iter k advance a' = a') as ->; [|by rewrite <- Hd].
    clear. induction k as [|k IH]; [done|]. by rewrite Nat.iter_succ, IH.
Qed.

(** C17: The task of a job always ends. However commands, stops and the task
    interleave, the task holds the lock at most [total_steps + 1] times; and
    from any moment at which it is alive, running it alone for that many rounds
    makes it return, with the job succeeded or failed as its command says, or
    cancelled when a cancellation was pending. *)
Theorem runner_terminates (queue : string) (input : SubmitJob) (w : W) (n : nat) a :
  command_wf (sj_command input) → run_of n (from_submit queue input, w) a →
  let rounds := S (N.to_nat (total_steps (sj_command input))) in
  n ≤ rounds ∧
  (live (jb_task a.1) = true →
   let b := Nat.iter rounds advance a in
   jb_task b.1 = Returned ∧ terminal (jd_state (jb_shared b.1)) = true ∧
   jd_state (jb_shared b.1) = destined (jb_shared a.1)).
Proof.
  intros Hwf Hr. destruct (job_run_ok _ _ _ Hr (submitted_ok queue input Hwf)) as [Hok Hn].
  simpl fst in Hn. rewrite submitted_regions in Hn. split; [lia|]. intros Hl.
  destruct (advance_finishes (S (N.to_nat (total_steps (sj_command input)))) a Hok Hl) as [H1 H2]; [lia|].
  split_and!; [done| |done]. rewrite H2. unfold destined. destruct Hok as [_ Hp _].
  destruct (jb_task a.1); try done; destruct Hp as ([E|E] & _); rewrite E; try done;
    by destruct (jd_command (jb_shared a.1)).
Qed.

(** ** Retrying *)

Lemma retried_step n a b :
  step_of n a b → job_ok a.1 → jd_attempt (jb_shared a.1) = 2%N → jd_attempt (jb_shared b.1) = 2%N.
Proof.
  intros Hs Hok Hat. pose proof Hok as [_ _ [Ha|(_ & _ & Hl & _ & Hst)]]; [congruence|].
  destruct Hs as [ctx name input r a a' H|ctx r a a' Ht H|ctx r a a' H
    |ctx j w d pubs r H|n ctx j w d pubs r Hh H|j w w']; simpl in *; try by injection H as <- <-.
  - destruct (command_effect _ _ _ _ _ _ H) as [->|[(d & Hc & ->)|(n & Hr & Hn & ->)]]; [done|..].
    + destruct (cancel_ok _ _ Hc (jo_data _ Hok)) as (_ & _ & E & _). simpl. congruence.
    + destruct Hst as [E|E]; by rewrite E in Hr.
  - by destruct (jb_task j).
  - by destruct (jb_task j).
  - done.
Qed.

Lemma retried_run n a b :
  run_of n a b → job_ok a.1 → jd_attempt (jb_shared a.1) = 2%N →
  job_ok b.1 ∧ jd_attempt (jb_shared b.1) = 2%N.
Proof.
  induction 1 as [|n m a b c Hr IH Hs]; intros Ha Hat; [auto|].
  destruct (IH Ha Hat) as [Hb Hbt]. destruct (job_step_ok _ _ _ Hs Hb). split; [done|].
  by eapply retried_step.
Qed.

(** A retried job never runs. A retry is accepted only on a failed job, and
    the client is told that the job was queued again; but the task that ran it
    has returned or was aborted, and nothing spawns another: from then on, in
    every continuation, no region of a task runs, the job stays queued at step
    0 until somebody cancels it, and it can not be retried again. *)
Theorem retried_job_never_runs (queue : string) (input : SubmitJob) (w : W) (n m : nat) a b c
    (ctx : TransitionCtx) (fields : TransitionInput num) (job : AcceptedJob) (out : option (json num)) :
  command_wf (sj_command input) → run_of n (from_submit queue input, w) a →
  retry overflow_checks ctx fields a = Some (Ok (Accepted job out), b) → run_of m b c →
  jd_state (jb_shared a.1) = JFailed ∧ aj_created job = false ∧
  m = 0 ∧ live (jb_task c.1) = false ∧ jd_step (jb_shared c.1) = 0%N ∧
  (jd_state (jb_shared c.1) = JQueued ∨ jd_state (jb_shared c.1) = JCancelled) ∧
  jd_attempt (jb_shared c.1) = 2%N.
Proof.
  intros Hwf Hr Hretry Hm. destruct (job_run_ok _ _ _ Hr (submitted_ok queue input Hwf)) as [Hok _].
  assert (can_retry (jd_state (jb_shared a.1)) = true ∧ aj_created job = false ∧
    ∃ n, add_checked overflow_checks (2 ^ 32) (jd_attempt (jb_shared a.1)) 1 = Some n ∧
      b.1 = set_shared a.1 (reset (jb_shared a.1) n)) as (Hcan & Hcr & k & Hk & Hb).
  { unfold retry in Hretry. destruct (deserialize _ fields); [|done].
    destruct (can_retry (jd_state (jb_shared a.1))); [|done]. cbn [negb] in Hretry.
    destruct (add_checked _ _ _ _) as [k|]; [|done]. cbn -[for_job publish_lifecycle] in Hretry.
    destruct (publish_lifecycle _ _ _ _) as [[[]|e] w']; [|done].
    destruct (resource_id_required ctx); [|done]. destruct (for_job _) as [h|]; [|done].
    cbn in Hretry. simplify_eq. eauto. }
  destruct (reset_ok _ _ Hcan Hk Hok) as (-> & Hbok & Hleft). rewrite <- Hb in *.
  assert (jd_attempt (jb_shared b.1) = 2%N) as Hbt by (by rewrite Hb).
  destruct (retried_run _ _ _ Hm Hbok Hbt) as [Hcok Hct].
  destruct (job_run_ok _ _ _ Hm Hbok) as [_ Hmn].
  pose proof Hcok as [_ _ [Ha|(_ & Hst & Hl & _ & Hs)]]; [congruence|].
  split_and!; try done; [by destruct (jd_state (jb_shared a.1))|lia].
Qed.
End facts.

(** ** Honest affordances *)

Lemma policy_of_stream s : is_Some (stream_policy s) ∧
  ∀ p, stream_policy s = Some p →
    policy_wf p ∧ p = match s with Progress => Coalesce ["data"; "coalesceKey"] | _ => Backpressure end.
Proof.
  destruct s; (split; [by eexists|]); intros p [= <-]; split; done.
Qed.

Section honest_instances.
  Context {hl : HttpLib} {fl : FormLib} {num : Type} `{!SerdeNumber num, !JobSerde num}.
  Context {W : Type} (overflow_checks : bool).

Lemma for_job_total id : is_Some (for_job id).
Proof. by eexists. Qed.

Section job_honest.
  Context `{!Publisher num W, !PublisherLaws num W}.
  #[local] Existing Instance job_actor.
  Implicit Types (d : JobData num).

Lemma job_offers d name :
  offers (job_snapshot d) name ↔
  name = "cancel" ∧ can_cancel (jd_state d) = true ∨ name = "retry" ∧ can_retry (jd_state d) = true.
Proof.
  unfold offers. simpl. unfold job_transitions. split.
  - intros (t & Ht & <- & Hav). rewrite !elem_of_cons, elem_of_nil in Ht.
    destruct Ht as [->|[->|[]]]; destruct (jd_state d); simpl in *; auto; discriminate.
  - intros [[-> H]|[-> H]]; rewrite H; eexists.
    + split; [apply elem_of_cons; by left|done].
    + split; [apply elem_of_cons; right; apply elem_of_cons; by left|done].
Qed.

Lemma lifecycle_not_refused ctx d reason w :
  refused (publish_lifecycle ctx d reason w).1 = false.
Proof.
  destruct (publish_lifecycle ctx d reason w) as [[u|e] w'] eqn:E; [done|].
  unfold publish_lifecycle in E. simpl.
  edestruct (pub_transition_internal (num:=num) (W:=W)) as [msg ->]; [by rewrite E|done].
Qed.

Lemma id_required_not_refused ctx : refused (resource_id_required ctx) = false.
Proof. unfold resource_id_required. by destruct (ctx_resource_id ctx). Qed.

#[export] Program Instance job_honest : HonestActor num (Job num * W) (Actor0:=job_actor overflow_checks) := {|
  ha_ok := λ _, True
|}.
Next Obligation.
  intros [j w] _. exists (job_snapshot (jb_shared j)). split; [done|]. intros ctx name input.
  rewrite job_offers, job_transition_eq. unfold cancel, retry, data_cancel. simpl. split.
  - intros [[-> Hc]|[-> Hc]] r a'; cbn [String.eqb Ascii.eqb Bool.eqb].
    + destruct (jd_state (jb_shared j)) eqn:Es; try done; simpl;
        pose proof (lifecycle_not_refused ctx) as Hp; unfold refused in Hp;
        (match goal with |- context [publish_lifecycle ctx ?d ?rs w] =>
           specialize (Hp d rs w); destruct (publish_lifecycle ctx d rs w) as [[[]|e] w'] end);
        intros [= <- <-]; simpl in *; try exact Hp;
        unfold completed; pose proof (id_required_not_refused ctx) as Hi;
        by destruct (resource_id_required ctx).
    + rewrite Hc. destruct (deserialize retry_from_value input) as [u|e] eqn:Ed; simpl.
      2: { intros [= <- <-]. unfold deserialize in Ed. destruct (retry_from_value _); by simplify_eq/=. }
      destruct (add_checked _ _ _ _) as [n|]; [|done]. cbn -[for_job publish_lifecycle].
      pose proof (lifecycle_not_refused ctx (reset (jb_shared j) n) (Some "retried") w) as Hp.
      destruct (publish_lifecycle _ _ _ w) as [[[]|e] w']; [|intros [= <- <-]; exact Hp].
      pose proof (id_required_not_refused ctx) as Hi.
      destruct (resource_id_required ctx) as [id|e]; [|intros [= <- <-]; exact Hi].
      by intros [= <- <-].
  - intros Hn. destruct (String.eqb_spec name "cancel") as [->|].
    { destruct (jd_state (jb_shared j)); simpl in *; eauto; exfalso; tauto. }
    destruct (String.eqb_spec name "retry") as [->|]; [|eauto].
    destruct (deserialize retry_from_value input); [|eauto].
    destruct (can_retry (jd_state (jb_shared j))); simpl; [exfalso; tauto|eauto].
Qed.
End job_honest.

Section queue_honest.
  Context `{!JobRegistry num W, !JobRegistryLaws num W}.

Lemma queue_transition_eq ctx name input (a : JobQueue * W) :
  actor_transition (Actor:=queue_actor overflow_checks) ctx name input a =
  if String.eqb name "submit" then submit overflow_checks ctx input a
  else Some (Err (unknown_transition name), a).
Proof.
  cbn [actor_transition queue_actor]. unfold generated_transition, dispatch.
  change (xp_transitions (expand queue_block)) with [mk_arm "submit" "submit" []].
  cbn -[String.eqb]. rewrite (String.eqb_sym "submit" name). by destruct (String.eqb name "submit").
Qed.

#[export] Program Instance queue_honest
    : HonestActor num (JobQueue * W) (Actor0:=queue_actor overflow_checks) := {| ha_ok := λ _, True |}.
Next Obligation.
  intros [q w] _. exists (queue_snapshot q). split; [done|]. intros ctx name input.
  assert (offers (num:=num) (queue_snapshot q) name ↔ name = "submit") as ->.
  { unfold offers. simpl. split.
    - by intros (t & ->%list_elem_of_singleton & <- & _).
    - intros ->. eexists. split; [by apply list_elem_of_singleton|done]. }
  rewrite queue_transition_eq. split.
  - intros -> r a'. rewrite string_eqb_refl. unfold submit.
    destruct (deserialize submit_from_value input) as [sj|e] eqn:Ed.
    2: { intros [= <- <-]. unfold deserialize in Ed. destruct (submit_from_value _); by simplify_eq/=. }
    pose proof (reg_job_not_refused ctx (from_submit (qu_name q) sj) w) as Hreg. simpl.
    destruct (reg_job ctx _ w) as [[id|e] w']; [|intros [= <- <-]; exact Hreg].
    destruct (add_checked _ _ _ _) as [n|]; [|done]. by intros [= <- <-].
  - intros Hn. rewrite (proj2 (String.eqb_neq _ _) Hn). eauto.
Qed.

(** What submitting a job does. An input that is not a job is an error that
    changes nothing; a registration that fails is passed on and not counted;
    otherwise a job in its initial state, queued at attempt 1 and carrying the
    queue's name, has been registered under the id that comes back, the count
    of submissions has gone up by one, and the client is told that the resource
    was created, with its location. *)
Theorem submit_exact (ctx : TransitionCtx) (input : TransitionInput num) (q : JobQueue) (w : W) :
  (qu_submitted q + 1 < 2 ^ 64)%N →
  match submit_from_value (into_value input) with
  | Err msg => submit overflow_checks ctx input (q, w) = Some (Err (TInvalidInput msg), (q, w))
  | Ok sj =>
      let job := from_submit (qu_name q) sj in
      jd_state (num:=num) (jb_shared job) = JQueued ∧ jd_attempt (jb_shared job) = 1%N ∧
      jb_task job = NotSpawned ∧
      match reg_job ctx job w with
      | (Err e, w') => submit overflow_checks ctx input (q, w) = Some (Err e, (q, w'))
      | (Ok id, w') => ∃ out,
          submit overflow_checks ctx input (q, w)
          = Some (Ok (Accepted (mk_accepted_job id "job" ("/resources/" +:+ urlencode id) true) (Some out)),
                  (mk_queue (qu_name q) (qu_submitted q + 1), w'))
      end
  end.
Proof.
  intros Hlt. unfold submit, deserialize. destruct (submit_from_value (into_value input)) as [sj|msg]; [|done].
  simpl. split_and!; [done..|]. destruct (reg_job ctx _ w) as [[id|e] w']; [|done].
  unfold add_checked. rewrite (proj2 (N.ltb_lt _ _) Hlt). eexists. done.
Qed.
End queue_honest.
End honest_instances.

(** ** The links of a job handle *)

Section job_links.
  Context {hl : HttpLib} {fl : FormLib} {flaws : FormLaws} {tl : TopicLibs} {time : TimeLib}.
  Context {num : Type} `{!SerdeNumber num}.

Lemma stream_name_plain s : plain_part (stream_name s) = true.
Proof. by destruct s. Qed.

(** The envelope a job publishes on one of its streams. *)
Definition job_envelope (actx : ActorCtx) (s : JobStream) (data : json num) (e : EmissionContext)
    (al : Allocated) (now : OffsetDateTime) : EventEnvelope num :=
  envelope_of (mk_plan (ac_node actx) (ac_resource_id actx) (ac_resource_kind actx) (stream_name s)
    (event_kind s) (payload_version s) data) e al now.

Lemma job_topic_parses id s :
  plain_part id = true →
  ∃ p, topic_parse (ref_topic (stream_name s) (job_resource id)) = Some (Ok p) ∧ filter p = None ∧
    ∀ t, matches_topic p t = true ↔ t = ref_topic (stream_name s) (job_resource id).
Proof.
  intros Hp. unfold plain_part in Hp. bool_to_prop. destruct Hp as [[Hs Hq] Hw].
  destruct (literal_topic_exact (ref_topic (stream_name s) (job_resource id)))
    as (p & Ht & Hf & _ & Hm); [done| | |by exists p].
  - unfold ref_topic. rewrite !str_contains_app. simpl. rewrite Hq. by destruct s.
  - replace (split_on "/" (ref_topic (stream_name s) (job_resource id)))
      with [NODE_NAME; JOB_KIND; id; stream_name s].
    { simpl. rewrite Hw. by destruct s. }
    symmetry. apply (split_on_join "/" [NODE_NAME; JOB_KIND; id; stream_name s]); [done|].
    repeat constructor; try done. by destruct s.
Qed.

Lemma ref_topic_inj id s s' :
  ref_topic (stream_name s) (job_resource id) = ref_topic (stream_name s') (job_resource id) → s = s'.
Proof.
  intros H. unfold ref_topic in H. simpl in H. rewrite !append_String in H. simplify_eq.
  by destruct s, s'.
Qed.

(** The links of a job handle lead to that job's events. The link of each
    stream parses back to a subscription with replay, room for 16 events and the
    stream's policy, whose topic is literal; on a node that carries the
    example's name it matches, of all that the job's task publishes, exactly the
    events of that stream. The progress stream is coalesced under a key that
    every progress event has, the job id with its attempt, so a slow reader
    keeps the latest progress of each attempt. *)
Theorem job_links_reach (id : string) (s : JobStream) :
  plain_part id = true →
  ∃ u q opts p, stream_subscription s (job_resource id) = Some u ∧
    events_query_of (form_parse (form_serialize (su_pairs u))) = Ok q ∧
    subscribe_opts_from_query q = Ok opts ∧ eq_replay q = true ∧
    resolved_outbound_capacity opts = 16 ∧
    slow_consumer_policy opts
      = match s with Progress => Coalesce ["data"; "coalesceKey"] | _ => Backpressure end ∧
    eq_topic q = Some (su_topic u) ∧ topic_parse (su_topic u) = Some (Ok p) ∧ filter p = None ∧
    (∀ labels s' data e al now,
       let ctx := with_publisher (actor_ctx_new NODE_NAME id JOB_KIND labels) in
       matches_topic p (topic (job_envelope ctx s' data e al now)) = true ↔ s' = s) ∧
    (∀ ctx d message e al now, ac_resource_id ctx = id →
       extract_key (job_envelope ctx Progress (pb_data (progress_pub ctx d message)) e al now)
         ["data"; "coalesceKey"] = Some (JString (id +:+ ":" +:+ pretty (jd_attempt d)))).
Proof.
  intros Hid. destruct (policy_of_stream s) as [[pol Hpol] Hwf]. destruct (Hwf pol Hpol) as [Hpw ->].
  set (pol := match s with Progress => _ | _ => _ end) in *.
  set (u := su_slow_consumer pol (su_with_replay true
    (su_with_capacity STREAM_OUTBOUND_CAPACITY (for_resource_ref (job_resource id) (stream_name s))))).
  destruct (subscription_url_roundtrip u Hpw) as (q & opts & Hq & Ho & Ht & Hr & Hp & _ & Hc).
  { by intros c [= <-]. }
  destruct (job_topic_parses id s Hid) as (p & Hparse & Hf & Hm).
  exists u, q, opts, p. split_and!; try done.
  - unfold stream_subscription. by rewrite Hpol.
  - intros labels s' data e al now. cbv zeta. rewrite Hm.
    change (topic _) with (ref_topic (stream_name s') (job_resource id)).
    split; [apply ref_topic_inj|by intros ->].
  - intros ctx d message e al now Hctx. cbn -[pretty map_insert]. rewrite Hctx.
    by repeat first [rewrite map_get_insert_eq | rewrite map_get_insert_ne by discriminate].
Qed.
End job_links.

(** ** Concrete jobs *)

Module JobExamples.
Import ListHttp TopicExamples ConcreteTime.
#[local] Existing Instance CoreExamples.n_number.

(** Query strings in plain text. *)
#[local] Instance text_form : FormLib := {|
  form_serialize := λ l, join "&" (map (λ kv, kv.1 +:+ "=" +:+ kv.2) l);
  form_parse := λ _, []
|}.

#[local] Instance log_publisher : Publisher N (list (json N)) := {|
  pub_transition := λ _ _ _ _ data w, (Ok tt, w ++ [data]);
  pub_actor := λ _ _ _ _ data w, (Ok tt, w ++ [data])
|}.

(** Inputs with the number of steps under a key. *)
#[local] Instance serde : JobSerde N := {|
  submit_from_value := λ v, match v with
    | JObject m => match map_get "ticks" m with
                   | Some (JNumber n) => Ok (mk_submit (SuccessAfterTicks n) [] None 0)
                   | _ => Err "missing field `command`"
                   end
    | _ => Err "invalid type"
    end;
  retry_from_value := λ _, Ok (mk_retry false)
|}.

(** A registry that hands out one id. *)
#[local] Instance registry : JobRegistry N (list (Job N)) := λ _ j w, (Ok "job-1", w ++ [j]).

Definition ctx1 : ActorCtx := with_publisher (actor_ctx_new "runner" "job-1" "job" []).
Definition request1 : TransitionCtx := with_actor ctx1 (with_node "cmd" request_ctx_default "runner").

Definition world : Type := Job N * list (json N).
Definition submitted (c : FakeCommand) : world := (from_submit "default" (mk_submit c [] None 0), []).
Definition booted (c : FakeCommand) : world := (mk_job (jb_shared (submitted c).1) true (Delayed ctx1), []).

Lemma booted_run c : job_run (W:=list (json N)) true 0 (submitted c) (booted c).
Proof. apply (jr_step true 0 0 _ _ _ (jr_refl true _)). by eapply (js_start true ctx1 (Ok tt)). Defined.

Lemma advance_run n c a :
  job_run (W:=list (json N)) true n (submitted c) a → live (jb_task a.1) = true →
  job_run (W:=list (json N)) true (n + 1) (submitted c) (advance true a).
Proof.
  intros Hr Hl. eapply jr_step; [exact Hr|]. destruct a as [j w]. unfold advance. simpl in *.
  destruct (region true (jb_task j) (jb_shared j)) as [[ctx [[d pubs] r]]|] eqn:E; [|by destruct (jb_task j)].
  by apply (js_region true ctx j w d pubs r).
Defined.

Lemma job_invariant_witness :
  (jd_progress (jb_shared (advance true (advance true (booted (SuccessAfterTicks 2)))).1) ≤ 100)%N.
Proof.
  apply (job_invariant true "default" (mk_submit (SuccessAfterTicks 2) [] None 0) [] 2
    (advance true (advance true (booted (SuccessAfterTicks 2))))); [reflexivity|].
  apply (advance_run 1); [|reflexivity]. apply (advance_run 0); [|reflexivity]. apply booted_run.
Defined.

Lemma runner_terminates_witness :
  let b := Nat.iter 3 (advance true) (booted (SuccessAfterTicks 2)) in
  jb_task b.1 = Returned ∧ jd_state (jb_shared b.1) = JSucceeded.
Proof.
  destruct (runner_terminates true "default" (mk_submit (SuccessAfterTicks 2) [] None 0) [] 0
    (booted (SuccessAfterTicks 2)) eq_refl (booted_run _)) as [_ H].
  destruct (H eq_refl) as (H1 & _ & H2). exact (conj H1 H2).
Defined.

Definition failed : world := advance true (advance true (booted (FailAtStep 1))).
Definition requeued : world :=
  match retry true request1 [] failed with Some (_, b) => b | None => failed end.

Lemma retried_job_never_runs_witness :
  jd_state (jb_shared requeued.1) = JQueued ∧ live (jb_task requeued.1) = false.
Proof.
  destruct (retry true request1 [] failed) as [[r b]|] eqn:E; [|vm_compute in E; discriminate E].
  assert (b = requeued) as -> by (unfold requeued; by rewrite E).
  destruct r as [[|job out]|]; [vm_compute in E; discriminate E| |vm_compute in E; discriminate E].
  pose proof (retried_job_never_runs true "default" (mk_submit (FailAtStep 1) [] None 0) [] 2 0
    failed requeued requeued request1 [] job out eq_refl
    (advance_run 1 _ _ (advance_run 0 _ _ (booted_run _) eq_refl) eq_refl) E (jr_refl true _))
    as (_ & _ & _ & Hl & _).
  split; [reflexivity|exact Hl].
Defined.

(** A cancelled job: the task sees the cancellation and returns. *)
Example cancel_then_return :
  ∃ b, cancel request1 [] (advance true (booted (SuccessAfterTicks 5))) = Some b ∧
    jd_state (jb_shared b.2.1) = JCancelling ∧
    jd_state (jb_shared (advance true b.2).1) = JCancelled ∧ jb_task (advance true b.2).1 = Returned.
Proof. eexists. split; [reflexivity|]. by vm_compute. Qed.

Lemma submit_exact_witness :
  ∃ out w, submit true request1 [("ticks", JNumber 3%N)] (queue_new "default", [])
  = Some (Ok (Accepted (mk_accepted_job "job-1" "job" "/resources/job-1" true) (Some out)),
          (mk_queue "default" 1, w)).
Proof.
  pose proof (submit_exact true request1 [("ticks", JNumber 3%N)] (queue_new "default") [] eq_refl) as H.
  destruct (submit_from_value (into_value [("ticks", JNumber 3%N)])) as [sj|] eqn:E;
    [|vm_compute in E; discriminate E].
  destruct H as (_ & _ & _ & out & H). by eexists _, _.
Defined.

#[local] Existing Instance EventStreamExamples.form_lib.
#[local] Existing Instance EventStreamExamples.form_laws.

Lemma job_links_reach_witness :
  ∃ u p, stream_subscription Progress (job_resource "job-1") = Some u ∧
    topic_parse (su_topic u) = Some (Ok p) ∧ matches_topic p "runner/job/job-1/progress" = true.
Proof.
  destruct (job_links_reach (num:=N) "job-1" Progress) as (u & q & opts & p & Hu & _ & _ & _ & _ & _ & _ & Hp & _ & Hm & _);
    [vm_compute; reflexivity|].
  exists u, p. split_and!; [exact Hu|exact Hp|].
  apply (proj2 (Hm [] Progress JNull emission_default (mk_allocated "e" 1) 0%Z) eq_refl).
Defined.
End JobExamples.
