(* ===== verification/Tunnel.v ===== *)
(** Dialling through a forward proxy ([tunnel.rs]): the environment lookup of
    the proxy with [NO_PROXY] and the loopback exception, the CONNECT request,
    and the plan of [dial_initiator] up to the upgrade request. The parser of
    [std::net::IpAddr] is modelled with it. *)

From S2P Require Import Prelude Capabilities Http Peer Admission.

(** ** [std::net::IpAddr::from_str] *)

Inductive IpAddr := V4 (octets : list N) | V6 (groups : list N).

(** [char::to_digit] for the radices 10 and 16. *)
Definition to_digit (radix : N) (c : ascii) : option N :=
  let d := if is_ascii_digit c then Some (byte_code c - 48)%N
           else if in_range 97 102 c then Some (byte_code c - 87)%N
           else if in_range 65 70 c then Some (byte_code c - 55)%N else None in
  match d with Some d => if (d <? radix)%N then Some d else None | None => None end.

Definition read_given_char (c : ascii) (s : string) : option string :=
  match s with String d s' => if Ascii.eqb d c then Some s' else None | EmptyString => None end.

(** The digits at the front: their value, how many, and the rest. *)
Fixpoint read_digits (radix acc : N) (count : nat) (s : string) : N * nat * string :=
  match s with
  | String c s' =>
      match to_digit radix c with
      | Some d => read_digits radix (acc * radix + d) (S count) s'
      | None => (acc, count, s)
      end
  | EmptyString => (acc, count, s)
  end.

Definition read_number (radix : N) (max_digits : nat) (allow_zero_prefix : bool) (bound : N) (s : string)
    : option (N * string) :=
  let '(value, count, rest) := read_digits radix 0 0 s in
  if (max_digits <? count)%nat || (count =? 0)%nat then None
  else if negb allow_zero_prefix && starts_with "0" s && (1 <? count)%nat then None
  else if (value <? bound)%N then Some (value, rest) else None.

(** [read_separator]; the parser is only advanced on success. *)
Definition read_separator {T} (sep : ascii) (index : nat) (inner : string → option (T * string))
    (s : string) : option (T * string) :=
  match index with 0 => inner s | S _ => s' ← read_given_char sep s; inner s' end.

Definition read_octet (index : nat) (s : string) : option (N * string) :=
  read_separator "." index (read_number 10 3 false 256) s.

Definition read_ipv4_addr (s : string) : option (list N * string) :=
  '(a, s) ← read_octet 0 s; '(b, s) ← read_octet 1 s; '(c, s) ← read_octet 2 s;
  '(d, s) ← read_octet 3 s; Some ([a; b; c; d], s).

(** [read_groups] with [left] slots left, the next one of index [i]; whether
    it ended in an embedded IPv4 address. *)
Fixpoint read_groups (left i : nat) (s : string) : list N * bool * string :=
  match left with
  | 0 => ([], false, s)
  | S left' =>
      let v4 := match left' with
                | 0 => None
                | S _ => read_separator ":" i read_ipv4_addr s
                end in
      match v4 with
      | Some ([a; b; c; d], s') => ([(a * 256 + b)%N; (c * 256 + d)%N], true, s')
      | _ =>
          match read_separator ":" i (read_number 16 4 true 65536) s with
          | Some (g, s') => let '(gs, v4, s'') := read_groups left' (S i) s' in (g :: gs, v4, s'')
          | None => ([], false, s)
          end
      end
  end.

Definition read_ipv6_addr (s : string) : option (list N * string) :=
  let '(head, head_ipv4, s) := read_groups 8 0 s in
  if (length head =? 8)%nat then Some (head, s)
  else if head_ipv4 then None
  else
    s ← read_given_char ":" s; s ← read_given_char ":" s;
    let '(tail, _, s) := read_groups (8 - (length head + 1)) 0 s in
    Some (head ++ repeat 0%N (8 - length head - length tail) ++ tail, s).

Definition ip_parse (s : string) : option IpAddr :=
  let whole {T} (p : T * string) (f : T → IpAddr) := if str_is_empty p.2 then Some (f p.1) else None in
  match read_ipv4_addr s with
  | Some p => whole p V4
  | None => p ← read_ipv6_addr s; whole p V6
  end.

Definition ip_is_loopback (ip : IpAddr) : bool :=
  match ip with
  | V4 (a :: _) => (a =? 127)%N
  | V4 [] => false
  | V6 groups => bool_decide (groups = [0; 0; 0; 0; 0; 0; 0; 1]%N)
  end.

(** ** Which hosts bypass the proxy *)

Definition strip_suffix_char (c : ascii) (s : string) : option string :=
  match str_last s with
  | Some d => if Ascii.eqb d c then Some (str_init s) else None
  | None => None
  end.

Definition is_loopback_host (host : string) : bool :=
  if eq_ignore_ascii_case host "localhost" then true
  else
    let bare := default host (h ← strip_prefix "[" host; strip_suffix_char "]" h) in
    match ip_parse bare with Some ip => ip_is_loopback ip | None => false end.

(** [str::trim_start_matches('.')] *)
Fixpoint trim_start_dots (s : string) : string :=
  match s with String "." s' => trim_start_dots s' | _ => s end.

Definition no_proxy_entry (entry : string) : string := trim_start_dots (trim entry).

(** A byte that continues a UTF-8 sequence. *)
Definition is_continuation (c : ascii) : bool := in_range 128 191 c.

Fixpoint str_drop (n : nat) (s : string) : string :=
  match n, s with S n', String _ s' => str_drop n' s' | _, _ => s end.

(** [host[i..]]: [None] is the panic outside of a character boundary. *)
Definition slice_from (s : string) (i : nat) : option string :=
  if (String.length s <? i)%nat then None
  else match String.get i s with
       | Some c => if is_continuation c then None else Some (str_drop i s)
       | None => Some (str_drop i s)
       end.

(** The closure of [any], with [None] for a panic. *)
Definition entry_matches (host entry : string) : option bool :=
  if String.eqb entry "*" || eq_ignore_ascii_case host entry then Some true
  else if (String.length entry <? String.length host)%nat then
    let i := String.length host - String.length entry in
    match String.get (i - 1) host with
    | None => None
    | Some c => if Ascii.eqb c "." then
                  suffix ← slice_from host i; Some (eq_ignore_ascii_case suffix entry)
                else Some false
    end
  else Some false.

Fixpoint any_entry (host : string) (entries : list string) : option bool :=
  match entries with
  | [] => Some false
  | entry :: entries' =>
      b ← entry_matches host entry; if b : bool then Some true else any_entry host entries'
  end.

Definition no_proxy_matches (list host : string) : option bool :=
  any_entry host (base.filter (λ e, str_is_empty e = false) (map no_proxy_entry (split_on "," list))).

(** ** The proxy of the environment *)

Inductive TunnelError :=
| TuUpgrade (msg : string)
| TuUrl (msg : string)
| TuProxy (msg : string)
| TuH2 (e : string)
| TuIo (e : string)
| TuHyper (e : string)
| TuResponse (msg : string).

Section env.
  Context {hl : HttpLib} {ul : UrlLib}.
  Implicit Types (lookup : string → option string) (host scheme : string).

(** [lookup(key).filter(|value| !value.trim().is_empty())] *)
Definition lookup_set lookup (key : string) : option string :=
  match lookup key with Some v => if is_blank v then None else Some v | None => None end.

Definition or_else {T} (a b : option T) : option T := match a with Some _ => a | None => b end.

Definition is_tls_scheme scheme : bool := String.eqb scheme "https" || String.eqb scheme "wss".

Definition proxy_keys scheme : string * string :=
  if is_tls_scheme scheme then ("HTTPS_PROXY", "https_proxy") else ("HTTP_PROXY", "http_proxy").

(** [proxy_from_env_with]; the outer [None] is a panic. *)
Definition proxy_from_env_with lookup scheme host : option (result TunnelError (option ProxyConfig)) :=
  if is_loopback_host host then Some (Ok None)
  else
    bypass ← match or_else (lookup_set lookup "NO_PROXY") (lookup_set lookup "no_proxy") with
             | Some list => no_proxy_matches list host
             | None => Some false
             end;
    if bypass : bool then Some (Ok None)
    else
      let '(upper, lower) := proxy_keys scheme in
      match or_else (lookup_set lookup upper) (lookup_set lookup lower) with
      | None => Some (Ok None)
      | Some raw => Some (map_err TuProxy (let? p := proxy_from_url_str (trim raw) in Ok (Some p)))
      end.

(** ** Dialling *)

(** [url::Url::port]. *)
Class UrlPort := { url_port : Url → option N }.
(** [base64::STANDARD.encode]. *)
Class Base64Lib := { base64_encode : string → string }.
Context {up : UrlPort} {b64 : Base64Lib} {dl : DigestLib}.

(** [ProxyAuth::basic_header_value] *)
Definition basic_header_value (auth : ProxyAuth) : result TunnelError HeaderValue :=
  let raw := pa_username auth +:+ ":" +:+ expose (pa_password auth) in
  ok_or (value_from_str ("Basic " +:+ base64_encode raw)) (TuProxy "credentials not header-safe").

(** The request of [connect_via_proxy]: its URI and headers. *)
Definition connect_request (proxy : ProxyConfig) host (port : N)
    : result TunnelError (string * HeaderMap) :=
  let authority := host +:+ ":" +:+ pretty port in
  let builder := header "host" authority (Some hm_new) in
  let? builder :=
    match pc_auth proxy with
    | Some auth => let? value := basic_header_value auth in
                   Ok (header_value ("proxy-authorization", value) builder)
    | None => Ok builder
    end in
  let? headers := ok_or builder (TuProxy "build CONNECT request") in
  Ok (authority, headers).

(** What [connect_via_proxy] makes of the proxy's status. *)
Definition connect_response (proxy : ProxyConfig) (authority : string) (status : N)
    : result TunnelError unit :=
  if (200 <=? status)%N && (status <? 300)%N then Ok tt
  else Err (TuProxy ("CONNECT " +:+ authority +:+ " via " +:+ pc_host proxy +:+ ":"
                       +:+ pretty (pc_port proxy) +:+ " refused: " +:+ pretty status)).

(** What [dial_initiator] does on the wire before the upgrade request: where it
    opens the TCP connection, the CONNECT request it sends there if that is a
    proxy, and the name of the TLS session on top. *)
Record DialPlan := mk_dial_plan {
  dp_tcp : string * N;
  dp_connect : option (string * HeaderMap);
  dp_tls : option string;
  dp_path : string;
  dp_authority : string
}.

(** [dial_initiator] up to the upgrade request; [None] is a panic. *)
Definition dial_plan (remote_url local_name : string) (connection_id : Uuid) (proxy : ProxySelection)
    lookup : option (result TunnelError DialPlan) :=
  match url_parse remote_url with
  | Err e => Some (Err (TuUrl e))
  | Ok url =>
      let scheme := url_scheme url in
      if negb (existsb (String.eqb scheme) ["http"; "ws"; "https"; "wss"]) then
        Some (Err (TuUrl ("scheme `" +:+ scheme +:+ "` not supported")))
      else match url_host_str url with
      | None => Some (Err (TuUrl "no host"))
      | Some host =>
          let port := default (if is_tls_scheme scheme then 443%N else 80%N)
                        (url_port_or_known_default url) in
          (* the environment is read only without an explicit proxy *)
          from_env ← match ps_explicit proxy with
                     | Some _ => Some (Ok None)
                     | None => proxy_from_env_with lookup scheme host
                     end;
          Some (
            let? selected := select_proxy proxy from_env in
            let? transport :=
              match selected with
              | Some s => let? req := connect_request s host port in
                          Ok ((pc_host s, pc_port s), Some req)
              | None => Ok ((host, port), None)
              end in
            let tls := if String.eqb scheme "http" || String.eqb scheme "ws" then None else Some host in
            let authority := match url_port url with
                             | Some p => host +:+ ":" +:+ pretty p
                             | None => host
                             end in
            Ok (mk_dial_plan transport.1 transport.2 tls (dial_path local_name connection_id) authority))
      end
  end.
End env.

(** ** Facts *)

(** A string slice is UTF-8: no continuation byte follows an ASCII one. *)
Definition utf8_steps (s : string) : Prop :=
  ∀ i c d, String.get i s = Some c → is_ascii c = true → String.get (S i) s = Some d →
    is_continuation d = false.

(** The entry is a wildcard, the host, or a domain the host is in. *)
Definition covers (entry host : string) : Prop :=
  entry = "*" ∨ to_ascii_lowercase host = to_ascii_lowercase entry ∨
  ∃ sub domain, host = sub +:+ "." +:+ domain ∧ to_ascii_lowercase domain = to_ascii_lowercase entry.

Lemma length_str_map f s : String.length (str_map f s) = String.length s.
Proof. induction s as [|c s IH]; simpl; congruence. Qed.

Lemma lowercase_length a b : to_ascii_lowercase a = to_ascii_lowercase b → String.length a = String.length b.
Proof.
  intros H. apply (f_equal String.length) in H. unfold to_ascii_lowercase in H.
  by rewrite !length_str_map in H.
Qed.

Lemma eq_ignore_ascii_case_spec a b :
  eq_ignore_ascii_case a b = true ↔ to_ascii_lowercase a = to_ascii_lowercase b.
Proof. unfold eq_ignore_ascii_case. apply String.eqb_eq. Qed.

Lemma get_split n s c :
  String.get n s = Some c → ∃ p, String.length p = n ∧ s = p +:+ String c (str_drop (S n) s).
Proof.
  revert s. induction n as [|n IH]; intros [|d s] H; simplify_eq/=.
  - by exists EmptyString.
  - destruct (IH s H) as (p & <- & Hs). exists (String d p). split; [done|].
    rewrite append_String. by rewrite Hs at 1.
Qed.

Lemma str_drop_app p s : str_drop (String.length p) (p +:+ s) = s.
Proof. induction p as [|c p IH]; [by destruct s|exact IH]. Qed.

Lemma get_app p s i : String.get (String.length p + i) (p +:+ s) = String.get i s.
Proof. induction p as [|c p IH]; [done|exact IH]. Qed.

Lemma get_some n s : n < String.length s → ∃ c, String.get n s = Some c.
Proof.
  revert s. induction n as [|n IH]; intros [|d s] H; simpl in *; try lia; [by eexists|]. apply IH. lia.
Qed.

Lemma slice_after_ascii s i c :
  utf8_steps s → String.get i s = Some c → is_ascii c = true →
  slice_from s (S i) = Some (str_drop (S i) s).
Proof.
  intros Hu Hc Ha. unfold slice_from. destruct (get_split i s c Hc) as (p & Hp & Hs).
  destruct (String.length s <? S i)%nat eqn:El.
  { apply Nat.ltb_lt in El. rewrite Hs in El. rewrite length_append in El. simpl in El. lia. }
  destruct (String.get (S i) s) as [d|] eqn:Ed; [|done]. by rewrite (Hu i c d).
Qed.

Lemma entry_matches_spec host entry :
  utf8_steps host → ∃ b, entry_matches host entry = Some b ∧ (b = true ↔ covers entry host).
Proof.
  intros Hu. unfold entry_matches, covers.
  destruct (String.eqb_spec entry "*") as [->|Hstar]; [exists true; split; [done|]; split; [by left|done]|]. simpl.
  destruct (eq_ignore_ascii_case host entry) eqn:Eq.
  { apply eq_ignore_ascii_case_spec in Eq. exists true. split; [done|]. split; [by right; left|done]. }
  assert (to_ascii_lowercase host ≠ to_ascii_lowercase entry) as Hne.
  { intros H. apply eq_ignore_ascii_case_spec in H. congruence. }
  destruct (String.length entry <? String.length host)%nat eqn:El.
  2: { apply Nat.ltb_ge in El. exists false. split; [done|]. split; [done|].
       intros [?|[?|(sub & dom & -> & Hd)]]; [done..|]. apply lowercase_length in Hd.
       rewrite !length_append in El. simpl in El. lia. }
  apply Nat.ltb_lt in El. set (i := String.length host - String.length entry) in *.
  destruct (get_some (i - 1) host) as [c Hc]; [lia|]. rewrite Hc.
  destruct (get_split (i - 1) host c Hc) as (p & Hp & Hs).
  assert (S (i - 1) = i) as Hi by lia. rewrite Hi in Hs.
  assert (∀ sub dom, host = sub +:+ "." +:+ dom → to_ascii_lowercase dom = to_ascii_lowercase entry →
            c = "."%char ∧ dom = str_drop i host) as Hsub.
  { intros sub dom Hh Hd. apply lowercase_length in Hd.
    assert (String.length sub = i - 1) as Hsl.
    { unfold i. rewrite Hh, !length_append. simpl. lia. }
    split.
    - rewrite Hh, <- Hsl, <- (Nat.add_0_r (String.length sub)), get_app in Hc. by injection Hc.
    - rewrite Hh, <- Hi, <- Hsl. change (S (String.length sub)) with (1 + String.length sub).
      replace (1 + String.length sub) with (String.length (sub +:+ ".")) by (rewrite length_append; simpl; lia).
      by rewrite <- append_assoc, str_drop_app. }
  destruct (Ascii.eqb_spec c ".") as [->|Hdot].
  - rewrite <- Hi, (slice_after_ascii host (i - 1) ".") by done. cbn [mbind option_bind]. rewrite Hi.
    eexists. split; [done|]. rewrite eq_ignore_ascii_case_spec. split.
    + intros Hd. right; right. exists p, (str_drop i host). split; [exact Hs|done].
    + intros [?|[?|(sub & dom & Hh & Hd)]]; [done..|]. by destruct (Hsub sub dom Hh Hd) as [_ <-].
  - exists false. split; [done|]. split; [done|].
    intros [?|[?|(sub & dom & Hh & Hd)]]; [done..|]. by destruct (Hsub sub dom Hh Hd).
Qed.

Lemma any_entry_spec host entries :
  utf8_steps host →
  ∃ b, any_entry host entries = Some b ∧ (b = true ↔ ∃ e, e ∈ entries ∧ covers e host).
Proof.
  intros Hu. induction entries as [|e entries (b & IH & Hb)]; simpl.
  { exists false. split; [done|]. split; [done|]. by intros (e & He%elem_of_nil & _). }
  destruct (entry_matches_spec host e Hu) as ([] & -> & Hm); simpl.
  - exists true. split; [done|]. split; [|done]. intros _. exists e.
    split; [apply elem_of_cons; by left|by apply Hm].
  - exists b. split; [done|]. rewrite Hb. setoid_rewrite elem_of_cons.
    split; [naive_solver|]. intros (x & [->|Hx] & Hc); [|eauto]. by apply Hm in Hc.
Qed.

Lemma no_proxy_matches_spec (list host : string) :
  utf8_steps host →
  ∃ b, no_proxy_matches list host = Some b ∧
    (b = true ↔ ∃ e, e ∈ split_on "," list ∧ no_proxy_entry e ≠ EmptyString ∧ covers (no_proxy_entry e) host).
Proof.
  intros Hu. unfold no_proxy_matches.
  destruct (any_entry_spec host (base.filter (λ e, str_is_empty e = false)
    (map no_proxy_entry (split_on "," list))) Hu) as (b & -> & Hb).
  exists b. split; [done|]. rewrite Hb. setoid_rewrite list_elem_of_filter. setoid_rewrite list_elem_of_fmap.
  split.
  - intros (e & (Hne & x & -> & Hx) & Hc). exists x. split_and!; try done. intros H. by rewrite H in Hne.
  - intros (x & Hx & Hne & Hc). exists (no_proxy_entry x). split; [|done]. split; [|eauto].
    by destruct (no_proxy_entry x).
Qed.

(** [NO_PROXY] matching is what it says, and never slices inside a
    character. A host bypasses the proxy exactly when some entry of the list,
    stripped of blanks and leading dots, is [*], is the host in any case, or is
    a domain the host is under; an entry that is a mere suffix of the host's
    last label does not match. *)
Theorem no_proxy_matches_correct (list host : string) :
  utf8_steps host →
  ∃ b, no_proxy_matches list host = Some b ∧
    (b = true ↔ ∃ e, e ∈ split_on "," list ∧ no_proxy_entry e ≠ EmptyString ∧ covers (no_proxy_entry e) host).
Proof. apply no_proxy_matches_spec. Qed.

(** *** Loopback addresses *)

Lemma octet_reads (a : N) (r : string) :
  (a < 256)%N →
  read_number 10 3 false 256 (pretty a +:+ String "." r) = Some (a, String "." r) ∧
  read_number 10 3 false 256 (pretty a) = Some (a, EmptyString).
Proof.
  intros Ha.
  assert (Forall (λ a : N, ∀ r,
    read_number 10 3 false 256 (pretty a +:+ String "." r) = Some (a, String "." r) ∧
    read_number 10 3 false 256 (pretty a) = Some (a, EmptyString)) (map N.of_nat (seq 0 256))) as H.
  { repeat (apply Forall_cons; split; [intros ?; split; vm_compute; reflexivity|]). apply Forall_nil. done. }
  rewrite Forall_forall in H. apply H. rewrite list_elem_of_In.
  apply in_map_iff. exists (N.to_nat a). split; [lia|]. apply in_seq. lia.
Qed.

(** Every address of 127.0.0.0/8 is a loopback host. *)
Lemma loopback_v4 (a b c : N) :
  (a < 256)%N → (b < 256)%N → (c < 256)%N →
  is_loopback_host ("127." +:+ pretty a +:+ "." +:+ pretty b +:+ "." +:+ pretty c) = true.
Proof.
  intros Ha Hb Hc. set (rest := pretty a +:+ "." +:+ pretty b +:+ "." +:+ pretty c).
  assert (read_ipv4_addr ("127." +:+ rest) = Some ([127; a; b; c]%N, EmptyString)) as Hr.
  { unfold read_ipv4_addr. change (read_octet 0 ("127." +:+ rest)) with (Some (127%N, "." +:+ rest)).
    cbn [mbind option_bind]. unfold read_octet, read_separator. cbn -[pretty read_number rest].
    unfold rest. rewrite !append_String, !append_nil_l. cbn -[pretty read_number].
    rewrite (proj1 (octet_reads a _ Ha)). cbn -[pretty read_number].
    rewrite (proj1 (octet_reads b _ Hb)). cbn -[pretty read_number].
    by rewrite (proj2 (octet_reads c EmptyString Hc)). }
  unfold is_loopback_host. change (eq_ignore_ascii_case ("127." +:+ rest) "localhost") with false.
  change (strip_prefix "[" ("127." +:+ rest)) with (@None string). cbn [mbind option_bind default].
  unfold ip_parse. by rewrite Hr.
Qed.

Example loopback_hosts :
  map is_loopback_host ["localhost"; "LOCALHOST"; "[::1]"; "0:0:0:0:0:0:0:1"; "[::0.0.0.1]"] =
    [true; true; true; true; true] ∧
  map is_loopback_host ["127.0.0.1.example.com"; "127.1"; "127.0.0.01"; "::ffff:127.0.0.1"; "128.0.0.1";
                        "[::1"; "localhost.example.com"; "::"; "1::1::1"] =
    [false; false; false; false; false; false; false; false; false].
Proof. vm_compute. done. Qed.

(** *** The environment *)

Section env_facts.
  Context {hl : HttpLib} {ul : UrlLib} {up : UrlPort} {b64 : Base64Lib}.
  Implicit Types (lookup : string → option string) (host scheme : string).

(** The list of hosts to bypass, if one is set. *)
Definition no_proxy_list lookup : option string :=
  or_else (lookup_set lookup "NO_PROXY") (lookup_set lookup "no_proxy").

Definition bypassed lookup host : Prop :=
  is_loopback_host host = true ∨
  ∃ list e, no_proxy_list lookup = Some list ∧ e ∈ split_on "," list ∧
    no_proxy_entry e ≠ EmptyString ∧ covers (no_proxy_entry e) host.

Lemma bypass_decided lookup host :
  utf8_steps host →
  ∃ b, match no_proxy_list lookup with
       | Some list => no_proxy_matches list host
       | None => Some false
       end = Some b ∧
    (b = true ↔ ∃ list e, no_proxy_list lookup = Some list ∧ e ∈ split_on "," list ∧
       no_proxy_entry e ≠ EmptyString ∧ covers (no_proxy_entry e) host).
Proof.
  intros Hu. destruct (no_proxy_list lookup) as [list|].
  - destruct (no_proxy_matches_spec list host Hu) as (b & -> & Hb). exists b. naive_solver.
  - exists false. split; [done|]. naive_solver.
Qed.


(** *** The dial *)

Definition supported (scheme : string) : bool := existsb (String.eqb scheme) ["http"; "ws"; "https"; "wss"].

Lemma supported_tls {T} scheme (host : T) :
  supported scheme = true →
  (if String.eqb scheme "http" || String.eqb scheme "ws" then None else Some host)
  = if is_tls_scheme scheme then Some host else None.
Proof.
  unfold supported, is_tls_scheme. simpl.
  destruct (String.eqb_spec scheme "http") as [->|]; [done|].
  destruct (String.eqb_spec scheme "ws") as [->|]; [done|].
  destruct (String.eqb_spec scheme "https") as [->|]; [done|].
  by destruct (String.eqb_spec scheme "wss") as [->|].
Qed.

(** What a CONNECT request carries. *)
Definition connects (auth : option ProxyAuth) (authority : string) (req : string * HeaderMap) : Prop :=
  let builder := header "host" authority (Some hm_new) in
  req.1 = authority ∧
  match auth with
  | None => builder = Some req.2
  | Some a => ∃ v, basic_header_value a = Ok v ∧
      header_value ("proxy-authorization", v) builder = Some req.2
  end.

Lemma connect_request_spec proxy host port req :
  connect_request proxy host port = Ok req → connects (pc_auth proxy) (host +:+ ":" +:+ pretty port) req.
Proof.
  unfold connect_request, connects. generalize (host +:+ ":" +:+ pretty port). intros authority.
  destruct (pc_auth proxy) as [a|].
  - destruct (basic_header_value a) as [v|e]; [|done]. cbn -[header header_value].
    destruct (header_value _ _) as [m|] eqn:E; [|done]. intros [= <-]. eauto.
  - cbn -[header]. destruct (header "host" authority (Some hm_new)) as [m|]; [|done]. by intros [= <-].
Qed.

(** What a dial does with the proxy it selected. An explicit proxy is used
    for every target, loopback included, and the environment is not read; a
    dial without proxy goes to the target itself. Through a proxy the CONNECT
    request names the target's host and port, and carries the proxy's
    credentials exactly when it has some, those of the configuration first. The
    TLS session is always with the target, never with the proxy, and is there
    exactly for [https] and [wss]. *)
Theorem dial_plan_spec (remote_url local_name : string) (connection_id : Uuid) (sel : ProxySelection) lookup
    (p : DialPlan) (u : Url) (host : string) :
  url_parse remote_url = Ok u → url_host_str u = Some host →
  dial_plan remote_url local_name connection_id sel lookup = Some (Ok p) →
  let port := default (if is_tls_scheme (url_scheme u) then 443%N else 80%N) (url_port_or_known_default u) in
  supported (url_scheme u) = true ∧
  (dp_tls p = if is_tls_scheme (url_scheme u) then Some host else None) ∧
  ((dp_connect p = None ∧ dp_tcp p = (host, port) ∧ ps_explicit sel = None ∧
    proxy_from_env_with lookup (url_scheme u) host = Some (Ok None)) ∨
   (∃ proxy req, dp_connect p = Some req ∧ dp_tcp p = (pc_host proxy, pc_port proxy) ∧
      (ps_explicit sel = Some proxy ∨
       ps_explicit sel = None ∧ proxy_from_env_with lookup (url_scheme u) host = Some (Ok (Some proxy))) ∧
      connects (or_else (ps_auth sel) (pc_auth proxy)) (host +:+ ":" +:+ pretty port) req)).
Proof.
  intros Hu Hh. unfold dial_plan. rewrite Hu, Hh. cbv zeta.
  fold (supported (url_scheme u)). destruct (supported (url_scheme u)) eqn:Es; [|done]. cbn [negb].
  set (port := default _ (url_port_or_known_default u)). intros H.
  apply bind_Some in H as (from_env & Henv & H). injection H as H. split; [done|].
  assert (∀ s, connect_request (mk_proxy_config (pc_host s) (pc_port s) (or_else (ps_auth sel) (pc_auth s)))
            host port = connect_request (match ps_auth sel with
              | Some auth => mk_proxy_config (pc_host s) (pc_port s) (Some auth) | None => s end) host port)
    as Hreq by (intros [h pt a]; by destruct (ps_auth sel)).
  unfold select_proxy in H.
  assert (∃ selected, match ps_explicit sel with Some e => Ok (Some e) | None => from_env end = Ok selected)
    as [selected Hsel] by (destruct (ps_explicit sel), from_env; eauto; done).
  rewrite Hsel in H. cbn in H. destruct selected as [s|].
  - assert (∃ req, connect_request (match ps_auth sel with
      | Some auth => mk_proxy_config (pc_host s) (pc_port s) (Some auth) | None => s end) host port = Ok req
      ∧ dp_connect p = Some req ∧ dp_tcp p = (pc_host s, pc_port s) ∧
      dp_tls p = if is_tls_scheme (url_scheme u) then Some host else None) as (req & Hr & Hc & Ht & Hl).
    { destruct (ps_auth sel) as [a|]; (destruct (connect_request _ host port) as [req|]; [|done]);
        cbn in H; injection H as <-; exists req; cbn; rewrite (supported_tls _ host Es); auto. }
    split; [done|]. right. exists s, req. split_and!; [done..| |].
    + destruct (ps_explicit sel); simplify_eq; auto.
    + rewrite <- Hreq in Hr. by apply connect_request_spec in Hr.
  - assert (match ps_auth sel with Some _ => None | None => @None ProxyConfig end = None) as E
      by by destruct (ps_auth sel).
    rewrite ?E in H. injection H as <-. cbn. rewrite (supported_tls _ host Es). split; [done|].
    left. destruct (ps_explicit sel); by simplify_eq.
Qed.
End env_facts.

(** ** Concrete dials *)

Module TunnelExamples.
Import ListHttp.

(** URLs of the form [scheme://host]. *)
#[local] Instance url_lib : UrlLib := {|
  Url := string;
  url_parse := Ok;
  url_scheme := λ s, match split_first ":" s with Some (a, _) => a | None => "" end;
  url_host_str := λ s, '(_, b) ← split_first ":" s; strip_prefix "//" b;
  url_port_or_known_default := λ _, None;
  url_username := λ _, "";
  url_password := λ _, None;
  urldecode := Ok
|}.
#[local] Instance url_ports : UrlPort := {| url_port := λ _, None |}.
#[local] Instance base64 : Base64Lib := {| base64_encode := λ s, s |}.

Definition env (key : string) : option string :=
  if String.eqb key "NO_PROXY" then Some "localhost, .internal.example"
  else if String.eqb key "HTTPS_PROXY" then Some "http://proxy"
  else if String.eqb key "HTTP_PROXY" then Some "socks5://broken" else None.

Lemma ascii_steps s : str_forallb is_ascii s = true → utf8_steps s.
Proof.
  intros H i c d _ _ Hd. revert i Hd. induction s as [|e s IH]; intros i Hd; [done|].
  simpl in H. apply andb_true_iff in H as [He Hs]. destruct i as [|i].
  - change (String.get 0 s = Some d) in Hd. destruct s as [|e' s]; [done|]. injection Hd as <-.
    simpl in Hs. apply andb_true_iff in Hs as [He' _]. unfold is_ascii in He'. apply N.ltb_lt in He'.
    unfold is_continuation, in_range. apply andb_false_iff. left. apply N.leb_gt. lia.
  - by apply (IH Hs i).
Qed.

Lemma no_proxy_matches_correct_witness :
  ∃ b, no_proxy_matches "localhost, .internal.example" "db.INTERNAL.example" = Some b ∧ b = true.
Proof.
  destruct (no_proxy_matches_correct "localhost, .internal.example" "db.INTERNAL.example")
    as (b & Hb & Hs); [by apply ascii_steps|].
  exists b. split; [exact Hb|]. apply Hs. exists " .internal.example".
  split; [apply list_elem_of_In; vm_compute; auto|]. split; [vm_compute; discriminate|].
  right; right. exists "db", "INTERNAL.example". split; reflexivity.
Defined.


(** The broken proxy for [http] fails only the dials it is for. *)
Example broken_http_proxy :
  is_ok <$> proxy_from_env_with env "ws" "gw.example.com" = Some false ∧
  is_ok <$> proxy_from_env_with env "wss" "gw.example.com" = Some true.
Proof. vm_compute. done. Qed.

Definition egress : ProxySelection :=
  mk_proxy_selection (Some (mk_proxy_config "egress" 3128 None)) (Some (mk_proxy_auth "u" (mk_secret "p"))).

Lemma dial_plan_spec_witness :
  ∃ p, dial_plan "wss://localhost" "hub" (7 : @Uuid http_lib) egress env = Some (Ok p) ∧
    dp_tcp p = ("egress", 3128%N) ∧ dp_tls p = Some "localhost".
Proof.
  assert (is_ok <$> dial_plan "wss://localhost" "hub" (7 : @Uuid http_lib) egress env = Some true) as Hok
    by (vm_compute; reflexivity).
  destruct (dial_plan "wss://localhost" "hub" (7 : @Uuid http_lib) egress env) as [[p|]|] eqn:E;
    [|discriminate Hok..].
  exists p. destruct (dial_plan_spec "wss://localhost" "hub" (7 : @Uuid http_lib) egress env p
    ("wss://localhost" : @Url url_lib) "localhost" eq_refl eq_refl E) as (_ & Ht & [(_ & _ & H & _)|(proxy & req & _ & Hd & Hp & _)]).
  - discriminate H.
  - destruct Hp as [[= <-]|[H _]]; [|discriminate H]. split; [reflexivity|]. split; [exact Hd|exact Ht].
Defined.
End TunnelExamples.
