(* ===== verification/Router.v ===== *)
(** The route table of [http/routes.rs] ([router_with]): which handler a request
    reaches, and what the handlers that forward to a peer may ask of it. The
    router of axum is a parameter with its documented contract. *)

From S2P Require Import Prelude Capabilities Http Peer Admission Acceptors Gateway Render.
From S2P Require Import Topic.

(** ** The table *)

Inductive Seg := Static (text : string) | Param (name : string).

#[export] Instance seg_eq_dec : EqDecision Seg.
Proof. solve_decision. Defined.

(** The handlers of the table. *)
Inductive Handler :=
| Hroot | Hresources_get | Hresources_post | Hresource_get | Hresource_transition_post
| Hlocal_meta_get | Hlocal_meta_type_get | Hserver_get | Hserver_resources_get
| Hserver_resource_get | Hserver_resource_transition_post | Hmeta_get | Hmeta_type_get
| Hserver_events_stream | Hevents_unsubscribe | Hevents_ws | Hpeers_upgrade | Hinitiate_peer.

#[export] Instance handler_eq_dec : EqDecision Handler.
Proof. solve_decision. Defined.

(** What a path accepts: handlers by method, or one for any method. *)
Record Endpoint := mk_endpoint {
  ep_get : option Handler;
  ep_post : option Handler;
  ep_any : option Handler
}.
Definition get (h : Handler) : Endpoint := mk_endpoint (Some h) None None.
Definition post (h : Handler) : Endpoint := mk_endpoint None (Some h) None.
Definition get_post (g p : Handler) : Endpoint := mk_endpoint (Some g) (Some p) None.
Definition any (h : Handler) : Endpoint := mk_endpoint None None (Some h).

Abbreviation Route := (list Seg * Endpoint)%type.

(** [router_with] *)
Definition routes : list Route := [
  ([Static ""], get Hroot);
  ([Static "resources"], get_post Hresources_get Hresources_post);
  ([Static "resources"; Param "id"], get Hresource_get);
  ([Static "resources"; Param "id"; Static "transitions"; Param "transition"],
     post Hresource_transition_post);
  ([Static "meta"], get Hlocal_meta_get);
  ([Static "meta"; Param "type"], get Hlocal_meta_type_get);
  ([Static "servers"; Param "name"], get Hserver_get);
  ([Static "servers"; Param "name"; Static "resources"], get Hserver_resources_get);
  ([Static "servers"; Param "name"; Static "resources"; Param "id"], get Hserver_resource_get);
  ([Static "servers"; Param "name"; Static "resources"; Param "id"; Static "transitions";
    Param "transition"], post Hserver_resource_transition_post);
  ([Static "servers"; Param "name"; Static "meta"], get Hmeta_get);
  ([Static "servers"; Param "name"; Static "meta"; Param "type"], get Hmeta_type_get);
  ([Static "servers"; Param "name"; Static "events"], get Hserver_events_stream);
  ([Static "servers"; Param "name"; Static "events"; Static "unsubscribe"], post Hevents_unsubscribe);
  ([Static "events"], get Hevents_ws);
  ([Static "peers"; Param "name"], any Hpeers_upgrade);
  ([Static "_initiate_peer"; Param "id"], get Hinitiate_peer)
].

(** ** Matching *)

(** A parameter takes one segment that is not empty. *)
Definition seg_matches (p : Seg) (s : string) : bool :=
  match p with Static t => String.eqb s t | Param _ => negb (str_is_empty s) end.

Fixpoint pattern_matches (ps : list Seg) (ss : list string) : bool :=
  match ps, ss with
  | [], [] => true
  | p :: ps', s :: ss' => seg_matches p s && pattern_matches ps' ss'
  | _, _ => false
  end.

(** The segments after the leading slash. *)
Definition path_segments (path : string) : option (list string) :=
  match path with
  | String c rest => if Ascii.eqb c "/" then Some (split_on "/" rest) else None
  | EmptyString => None
  end.

Definition route_matches (path : string) (r : Route) : Prop :=
  ∃ ss, path_segments path = Some ss ∧ pattern_matches r.1 ss = true.

(** axum's lookup: it returns a matching route if there is one. It documents a
    priority among several, which is left open here. *)
Class AxumRouter := { router_at : list Route → string → option Route }.

Class AxumLaws `{AxumRouter} : Prop := {
  router_sound table path r : router_at table path = Some r → r ∈ table ∧ route_matches path r;
  router_complete table path r : r ∈ table → route_matches path r → router_at table path ≠ None
}.

(** The endpoint's handler; [get] also answers HEAD. *)
Definition handler_for (e : Endpoint) (m : Method) : option Handler :=
  match ep_any e with
  | Some h => Some h
  | None =>
      match m with
      | GET => ep_get e
      | POST => ep_post e
      | OtherMethod name => if String.eqb name "HEAD" then ep_get e else None
      end
  end.

Inductive RouteResult := NotFound404 | MethodNotAllowed405 | RunHandler (h : Handler).

Definition route_request `{AxumRouter} (m : Method) (path : string) : RouteResult :=
  match router_at routes path with
  | None => NotFound404
  | Some r => match handler_for r.2 m with Some h => RunHandler h | None => MethodNotAllowed405 end
  end.

(** The names of the peers of the root document ([peer_render_policies]):
    those that still have a context when they are asked. *)
Definition peer_render_policies {hl : HttpLib} (names : list string)
    (peer_context : string → option AdmittedPeerConnection) : list PeerRenderPolicy :=
  omap (λ name, (λ c, mk_peer_render_policy name (negotiated_capabilities c)) <$> peer_context name) names.

(** ** The table is unambiguous *)

(** Two patterns no path can match both. *)
Fixpoint disjoint_patterns (p q : list Seg) : bool :=
  match p, q with
  | [], [] => false
  | x :: p', y :: q' =>
      match x, y with
      | Static a, Static b => if String.eqb a b then disjoint_patterns p' q' else true
      | Static a, Param _ | Param _, Static a => str_is_empty a || disjoint_patterns p' q'
      | Param _, Param _ => disjoint_patterns p' q'
      end
  | _, _ => true
  end.

Lemma disjoint_patterns_sound p q ss :
  disjoint_patterns p q = true → pattern_matches p ss = true → pattern_matches q ss = true → False.
Proof.
  revert q ss. induction p as [|x p IH]; intros [|y q] [|s ss]; simpl; try done.
  intros Hd Hp Hq. apply andb_true_iff in Hp as [Hx Hp], Hq as [Hy Hq].
  destruct x as [a|?], y as [b|?]; simpl in *.
  - destruct (String.eqb_spec a b) as [->|Hab]; [by eapply IH|].
    apply String.eqb_eq in Hx, Hy. congruence.
  - apply orb_true_iff in Hd as [Hd|Hd]; [|by eapply IH]. apply String.eqb_eq in Hx as ->. by rewrite Hd in Hy.
  - apply orb_true_iff in Hd as [Hd|Hd]; [|by eapply IH]. apply String.eqb_eq in Hy as ->. by rewrite Hd in Hx.
  - by eapply IH.
Qed.

Definition pairwise_disjoint (table : list Route) : bool :=
  forallb (λ ij, Nat.eqb ij.1 ij.2 ||
    match table !! ij.1, table !! ij.2 with
    | Some r, Some r' => disjoint_patterns r.1 r'.1
    | _, _ => true
    end) (list_prod (seq 0 (length table)) (seq 0 (length table))).

Lemma routes_disjoint : pairwise_disjoint routes = true.
Proof. vm_compute. reflexivity. Qed.

Lemma routes_unique_segments ss r r' :
  r ∈ routes → r' ∈ routes → pattern_matches r.1 ss = true → pattern_matches r'.1 ss = true → r = r'.
Proof.
  intros [i Hi]%list_elem_of_lookup [j Hj]%list_elem_of_lookup Hr Hr'.
  destruct (decide (i = j)) as [->|Hij]; [congruence|]. exfalso.
  pose proof routes_disjoint as H. unfold pairwise_disjoint in H. rewrite forallb_forall in H.
  specialize (H (i, j)). cbn [fst snd] in H. rewrite Hi, Hj, (proj2 (Nat.eqb_neq i j) Hij) in H. cbn [orb] in H.
  eapply disjoint_patterns_sound; [apply H|done..].
  apply in_prod; apply in_seq; apply lookup_lt_Some in Hi, Hj; lia.
Qed.

Lemma routes_unique path r r' :
  r ∈ routes → r' ∈ routes → route_matches path r → route_matches path r' → r = r'.
Proof.
  intros Hi Hj (ss & Hs & Hr) (ss' & Hs' & Hr'). rewrite Hs in Hs'. injection Hs' as <-.
  by eapply routes_unique_segments.
Qed.

(** The first route of the table that matches. *)
Definition first_match (path : string) : option Route :=
  ss ← path_segments path; List.find (λ r, pattern_matches r.1 ss) routes.

Definition route_request_spec (m : Method) (path : string) : RouteResult :=
  match first_match path with
  | None => NotFound404
  | Some r => match handler_for r.2 m with Some h => RunHandler h | None => MethodNotAllowed405 end
  end.

Section routed.
  Context `{AxumLaws}.

Lemma router_first path : router_at routes path = first_match path.
Proof.
  destruct (first_match path) as [r|] eqn:Ef.
  - unfold first_match in Ef. apply bind_Some in Ef as (ss & Hs & Ef).
    apply List.find_some in Ef as [Hin Hm]. rewrite <- list_elem_of_In in Hin.
    assert (route_matches path r) as Hr by (by exists ss).
    destruct (router_at routes path) as [r'|] eqn:Er; [|by apply (router_complete routes path r) in Er].
    apply router_sound in Er as [Hin' Hr']. f_equal. by eapply routes_unique.
  - destruct (router_at routes path) as [r'|] eqn:Er; [|done].
    apply router_sound in Er as [Hin' (ss & Hs & Hm)]. unfold first_match in Ef. rewrite Hs in Ef. cbn [mbind option_bind] in Ef.
    apply list_elem_of_In in Hin'. by rewrite (List.find_none _ _ Ef _ Hin') in Hm.
Qed.

(** The table leaves nothing to the router. No path matches two routes, so
    whatever priority a router has among matching routes, every request gets
    the handler of the first route that matches; 405 when that route does not
    take the method; 404 when none matches. *)
Theorem routing_deterministic (m : Method) (path : string) :
  route_request m path = route_request_spec m path ∧
  (∀ r r', r ∈ routes → r' ∈ routes → route_matches path r → route_matches path r' → r = r').
Proof.
  split; [|intros; by eapply routes_unique]. unfold route_request, route_request_spec. by rewrite router_first.
Qed.
End routed.

(** ** What a forwarding handler asks of the peer *)

Section intents.
  Context {tl : TopicLibs}.

(** The method [maybe_forward_or_404] is called with; [None] for the handlers
    that serve locally. *)
Definition forwards (h : Handler) : option Method :=
  match h with
  | Hserver_get | Hserver_resources_get | Hserver_resource_get | Hmeta_get | Hmeta_type_get
  | Hserver_events_stream => Some GET
  | Hserver_resource_transition_post | Hevents_unsubscribe => Some POST
  | _ => None
  end.

(** The intent of each forwarding handler. *)
Definition handler_intent (h : Handler) (query : option string) : option ProxyIntent :=
  match h with
  | Hserver_get => Some (read_or_query query)
  | Hserver_resources_get => Some (list_or_query query)
  | Hserver_resource_get => Some Read
  | Hmeta_get | Hmeta_type_get => Some Metadata
  | Hserver_resource_transition_post => Some Invoke
  | Hevents_unsubscribe => Some Subscribe
  | Hserver_events_stream => if has_query_param query "topic" then Some Subscribe else None
  | _ => None
  end.

Definition nonempty (s : string) : Prop := str_is_empty s = false.

Lemma from_parts_segments m path query ss :
  path_segments path = Some ss → Forall nonempty ss →
  from_parts m path query =
  match ss with
  | servers :: peer :: rest =>
      if negb (String.eqb servers "servers") then None
      else if str_is_empty peer then None else intent_of m rest query
  | _ => None
  end.
Proof.
  intros Hs Hne. unfold path_segments in Hs. destruct path as [|c rest]; [done|].
  destruct (Ascii.eqb_spec c "/") as [->|]; [|done]. injection Hs as <-. unfold from_parts.
  assert (base.filter nonempty (split_on "/" (String "/" rest)) = split_on "/" rest) as E.
  { simpl. destruct (split_on_cons "/" rest) as (p & ps & Ep). rewrite Ep in *.
    rewrite filter_cons_False by done. clear Ep. induction Hne as [|s l Hs Hl IH]; [done|].
    rewrite filter_cons_True by done. f_equal. exact IH. }
  unfold nonempty in E. by rewrite E.
Qed.

Lemma matched_nonempty ps ss :
  forallb (λ p, match p with Static t => negb (str_is_empty t) | Param _ => true end) ps = true →
  pattern_matches ps ss = true → Forall nonempty ss.
Proof.
  revert ss. induction ps as [|p ps IH]; intros [|s ss]; simpl; try done.
  intros Hps Hm. apply andb_true_iff in Hps as [Hp Hps], Hm as [Hs Hm]. constructor; [|by apply IH].
  unfold nonempty. destruct p; simpl in *; [|by apply negb_true_iff].
  apply String.eqb_eq in Hs as ->. by apply negb_true_iff.
Qed.

(** The pattern of a forwarding route below [/servers/{name}]. *)
Definition forward_pattern (h : Handler) : list Seg :=
  match h with
  | Hserver_resources_get => [Static "resources"]
  | Hserver_resource_get => [Static "resources"; Param "id"]
  | Hserver_resource_transition_post =>
      [Static "resources"; Param "id"; Static "transitions"; Param "transition"]
  | Hmeta_get => [Static "meta"]
  | Hmeta_type_get => [Static "meta"; Param "type"]
  | Hserver_events_stream => [Static "events"]
  | Hevents_unsubscribe => [Static "events"; Static "unsubscribe"]
  | _ => []
  end.

Lemma handler_for_some e m h :
  handler_for e m = Some h → ep_get e = Some h ∨ ep_post e = Some h ∨ ep_any e = Some h.
Proof. unfold handler_for. destruct (ep_any e), m; repeat case_match; intros; simplify_eq; auto. Qed.

Lemma forwarding_routes r m h :
  r ∈ routes → handler_for r.2 m = Some h → is_Some (forwards h) →
  r.1 = Static "servers" :: Param "name" :: forward_pattern h.
Proof.
  intros Hin Hh [m' Hf]. apply handler_for_some in Hh. unfold routes in Hin.
  repeat (apply elem_of_cons in Hin as [->|Hin];
    [destruct Hh as [Hh|[Hh|Hh]]; inversion Hh; subst h; first [done|discriminate Hf]|]).
  by apply elem_of_nil in Hin.
Qed.

Lemma pattern_cons p ps ss :
  pattern_matches (p :: ps) ss = true →
  ∃ s ss', ss = s :: ss' ∧ seg_matches p s = true ∧ pattern_matches ps ss' = true.
Proof. destruct ss as [|s ss']; [done|]. intros [? ?]%andb_true_iff. eauto. Qed.

Lemma pattern_nil ss : pattern_matches [] ss = true → ss = [].
Proof. by destruct ss. Qed.

Lemma forward_intent h m' rest query :
  forwards h = Some m' → pattern_matches (forward_pattern h) rest = true →
  intent_of m' rest query = handler_intent h query.
Proof.
  intros Hf Hm. destruct h; try discriminate Hf; injection Hf as <-; unfold forward_pattern in Hm;
    repeat (apply pattern_cons in Hm as (? & ? & -> & Hs & Hm); simpl in Hs;
            first [apply String.eqb_eq in Hs as ->
                  |apply negb_true_iff in Hs; let E := fresh in rename Hs into E]);
    apply pattern_nil in Hm as ->; simpl;
    repeat match goal with E : str_is_empty _ = false |- _ => rewrite E; clear E end; done.
Qed.

(** What is asked of a peer is what the route says. Every request that
    reaches a forwarding handler parses to that handler's own intent, from the
    same path the router matched; so the capabilities checked are those of the
    handler, and no request of the table can carry the intents [Register] and
    [Admin]: registering on a peer and managing its peers can not be forwarded
    at all. The one forwarding request without an intent is an event stream
    without topic, which the gateway answers 404 [unknown server]. *)
Theorem routed_intent (m m' : Method) (path : string) (query : option string) (h : Handler) :
  route_request_spec m path = RunHandler h → forwards h = Some m' →
  from_parts m' path query = handler_intent h query ∧
  handler_intent h query ≠ Some Register ∧ handler_intent h query ≠ Some Admin ∧
  (handler_intent h query = None ↔ h = Hserver_events_stream ∧ has_query_param query "topic" = false).
Proof.
  unfold route_request_spec. destruct (first_match path) as [r|] eqn:Ef; [|done].
  destruct (handler_for r.2 m) as [h'|] eqn:Eh; [|done]. intros [= ->] Hf.
  unfold first_match in Ef. apply bind_Some in Ef as (ss & Hs & Ef).
  apply List.find_some in Ef as [Hin Hm]. rewrite <- list_elem_of_In in Hin.
  pose proof (forwarding_routes r m h Hin Eh (mk_is_Some _ _ Hf)) as Hps.
  rewrite (from_parts_segments m' path query ss Hs);
    [|apply (matched_nonempty r.1); [rewrite Hps; by destruct h|done]].
  split.
  - rewrite Hps in Hm. destruct ss as [|servers [|peer rest]]; simpl in Hm; [done|by rewrite andb_false_r in Hm|].
    apply andb_true_iff in Hm as [H1 Hm]. apply andb_true_iff in Hm as [H2 Hm].
    rewrite H1. simpl. apply negb_true_iff in H2. rewrite H2. by apply forward_intent.
  - unfold handler_intent, read_or_query, list_or_query.
    split_and!; [repeat case_match; done|repeat case_match; done|].
    split; [|intros [-> ->]; done]. destruct h; try done; case_match; done.
Qed.
End intents.

(** ** A router *)

Module RouterExamples.
Import TopicExamples.

(** The last match wins. *)
#[local] Instance last_router : AxumRouter := {|
  router_at := λ table path,
    ss ← path_segments path; List.find (λ r, pattern_matches r.1 ss) (reverse table)
|}.
#[local] Instance last_router_laws : AxumLaws.
Proof.
  split; simpl.
  - intros table path r H. apply bind_Some in H as (ss & Hs & H). apply List.find_some in H as [Hin Hm].
    rewrite <- list_elem_of_In, elem_of_reverse in Hin. split; [done|]. by exists ss.
  - intros table path r Hin (ss & Hs & Hm). rewrite Hs. simpl. intros H.
    apply elem_of_reverse, list_elem_of_In in Hin. by rewrite (List.find_none _ _ H _ Hin) in Hm.
Qed.

Lemma routing_deterministic_witness :
  route_request POST "/servers/hub/resources" = MethodNotAllowed405 ∧
  route_request GET "/servers/hub/resources/" = NotFound404.
Proof.
  split; rewrite (proj1 (routing_deterministic _ _)); vm_compute; reflexivity.
Defined.

Lemma routed_intent_witness :
  from_parts GET "/servers/hub/events" None = None ∧
  from_parts POST "/servers/hub/resources/abc/transitions/turn-on" None = Some Invoke.
Proof.
  split.
  - refine (proj1 (routed_intent GET GET "/servers/hub/events" None Hserver_events_stream _ _));
      vm_compute; reflexivity.
  - refine (proj1 (routed_intent POST POST "/servers/hub/resources/abc/transitions/turn-on" None
      Hserver_resource_transition_post _ _)); vm_compute; reflexivity.
Defined.
End RouterExamples.
