(* ===== verification/Wire.v ===== *)
(** The JSON form of the WebSocket messages ([events/wire.rs]), as the derived
    [Serialize] and [Deserialize] of their attributes spell it: internally
    tagged by [type], renamed fields, options left out or null. *)

From S2P Require Import Prelude F64 Json Query Topic Envelope Mpsc EventStream Session.

Section wire.
  Context {num : Type} `{!SerdeNumber num, !SerdeInt num}.
  #[local] Abbreviation object := (list (string * json num)).
  Implicit Types (m : object) (v : json num).

(** ** Serialize *)

Definition ju (n : N) : json num := JNumber (num_of_u64 n).
Definition ji (z : Z) : json num := JNumber (num_of_i64 z).

(** An option without [skip_serializing_if]: null when absent. *)
Definition put_null {T} (k : string) (f : T → json num) (o : option T) m : object :=
  map_insert k (from_option f JNull o) m.
(** With it: left out when absent. *)
Definition put_some {T} (k : string) (f : T → json num) (o : option T) m : object :=
  match o with Some x => map_insert k (f x) m | None => m end.
Definition put (k : string) v m : object := map_insert k v m.
Definition tagged (t : string) : object := [("type", JString t)].

Definition subscription_ref_value (r : SubscriptionRef) : json num :=
  match r with Single id => ju id | Multiple ids => JArray (map ju ids) end.

Definition inbound_to_object (i : InboundMessage) : object :=
  match i with
  | InSubscribe topic limit capacity =>
      put_null "outboundCapacity" ju capacity (put_null "limit" ju limit
        (put "topic" (JString topic) (tagged "subscribe")))
  | InUnsubscribe id => put "subscriptionId" (ju id) (tagged "unsubscribe")
  | InPing data => put_null "data" JString data (tagged "ping")
  end.

Definition outbound_to_object (o : OutboundMessage num) : object :=
  match o with
  | OutSubscribeAck _ timestamp topic id =>
      put "subscriptionId" (ju id) (put "topic" (JString topic)
        (put "timestamp" (ji timestamp) (tagged "subscribe-ack")))
  | OutUnsubscribeAck _ timestamp id =>
      put "subscriptionId" (ju id) (put "timestamp" (ji timestamp) (tagged "unsubscribe-ack"))
  | OutEvent _ topic r timestamp data event_id stream_id stream sequence node_id resource_id resource_kind
      payload_kind payload_version envelope_version iso_timestamp =>
      put_some "isoTimestamp" JString iso_timestamp (put_some "envelopeVersion" ju envelope_version
      (put_some "payloadVersion" ju payload_version (put_some "payloadKind" JString payload_kind
      (put_some "resourceKind" JString resource_kind (put_some "resourceId" JString resource_id
      (put_some "nodeId" JString node_id (put_some "sequence" ju sequence
      (put_some "stream" JString stream (put_some "streamId" JString stream_id
      (put_some "eventId" JString event_id (put "data" data (put "timestamp" (ji timestamp)
      (put "subscriptionId" (subscription_ref_value r) (put "topic" (JString topic)
        (tagged "event")))))))))))))))
  | OutPong _ timestamp data =>
      put_null "data" JString data (put "timestamp" (ji timestamp) (tagged "pong"))
  | OutError _ code timestamp topic message id =>
      put_some "subscriptionId" ju id (put_null "message" JString message
        (put_null "topic" JString topic (put "timestamp" (ji timestamp) (put "code" (ju code)
          (tagged "error")))))
  | OutStreamGap _ timestamp id stream_id last reason terminated =>
      put "terminated" (JBool terminated) (put "reason" (JString reason)
        (put_some "lastDeliveredSequence" ju last (put_some "streamId" JString stream_id
          (put "subscriptionId" (ju id) (put "timestamp" (ji timestamp) (tagged "stream-gap"))))))
  end.

(** ** Deserialize, of an object

    Unknown fields are ignored; a required field must be there and well typed;
    an option is absent when missing or null. *)

Definition as_string v : option string := match v with JString s => Some s | _ => None end.
Definition as_bool v : option bool := match v with JBool b => Some b | _ => None end.

(** An unsigned integer below [bound]: [u64], [usize], [u32], [u16] and [u8]. *)
Definition as_uint (bound : N) v : option N :=
  match v with
  | JNumber n => x ← num_as_u64 n; if (x <? bound)%N then Some x else None
  | _ => None
  end.
Definition as_u64 : json num → option N := as_uint (2 ^ 64).
Definition as_i64 v : option Z := match v with JNumber n => num_as_i64 n | _ => None end.

Definition req {T} (k : string) (f : json num → option T) m : option T := v ← map_get k m; f v.
Definition opt {T} (k : string) (f : json num → option T) m : option (option T) :=
  match map_get k m with
  | None | Some JNull => Some None
  | Some v => x ← f v; Some (Some x)
  end.

(** [untagged]: the first variant that fits. *)
Definition as_subscription_ref v : option SubscriptionRef :=
  match as_u64 v with
  | Some id => Some (Single id)
  | None => match v with
            | JArray l => ids ← mapM as_u64 l; Some (Multiple ids)
            | _ => None
            end
  end.

Definition inbound_of_object m : option InboundMessage :=
  tag ← req "type" as_string m;
  if String.eqb tag "subscribe" then
    topic ← req "topic" as_string m; limit ← opt "limit" as_u64 m;
    capacity ← opt "outboundCapacity" as_u64 m; Some (InSubscribe topic limit capacity)
  else if String.eqb tag "unsubscribe" then
    id ← req "subscriptionId" as_u64 m; Some (InUnsubscribe id)
  else if String.eqb tag "ping" then data ← opt "data" as_string m; Some (InPing data)
  else None.

Definition outbound_of_object m : option (OutboundMessage num) :=
  tag ← req "type" as_string m;
  if String.eqb tag "subscribe-ack" then
    timestamp ← req "timestamp" as_i64 m; topic ← req "topic" as_string m;
    id ← req "subscriptionId" as_u64 m; Some (OutSubscribeAck _ timestamp topic id)
  else if String.eqb tag "unsubscribe-ack" then
    timestamp ← req "timestamp" as_i64 m; id ← req "subscriptionId" as_u64 m;
    Some (OutUnsubscribeAck _ timestamp id)
  else if String.eqb tag "event" then
    topic ← req "topic" as_string m; r ← req "subscriptionId" as_subscription_ref m;
    timestamp ← req "timestamp" as_i64 m; data ← req "data" Some m;
    event_id ← opt "eventId" as_string m; stream_id ← opt "streamId" as_string m;
    stream ← opt "stream" as_string m; sequence ← opt "sequence" as_u64 m;
    node_id ← opt "nodeId" as_string m; resource_id ← opt "resourceId" as_string m;
    resource_kind ← opt "resourceKind" as_string m; payload_kind ← opt "payloadKind" as_string m;
    payload_version ← opt "payloadVersion" (as_uint (2 ^ 32)) m;
    envelope_version ← opt "envelopeVersion" (as_uint (2 ^ 8)) m;
    iso_timestamp ← opt "isoTimestamp" as_string m;
    Some (OutEvent _ topic r timestamp data event_id stream_id stream sequence node_id resource_id
            resource_kind payload_kind payload_version envelope_version iso_timestamp)
  else if String.eqb tag "pong" then
    timestamp ← req "timestamp" as_i64 m; data ← opt "data" as_string m; Some (OutPong _ timestamp data)
  else if String.eqb tag "error" then
    code ← req "code" (as_uint (2 ^ 16)) m; timestamp ← req "timestamp" as_i64 m;
    topic ← opt "topic" as_string m; message ← opt "message" as_string m;
    id ← opt "subscriptionId" as_u64 m; Some (OutError _ code timestamp topic message id)
  else if String.eqb tag "stream-gap" then
    timestamp ← req "timestamp" as_i64 m; id ← req "subscriptionId" as_u64 m;
    stream_id ← opt "streamId" as_string m; last ← opt "lastDeliveredSequence" as_u64 m;
    reason ← req "reason" as_string m; terminated ← req "terminated" as_bool m;
    Some (OutStreamGap _ timestamp id stream_id last reason terminated)
  else None.
End wire.

(** ** Round trips *)

(** The widths of the fields. *)
Definition u64_ok (o : option N) : Prop := from_option (λ n, (n < 2 ^ 64)%N) True o.
Definition uint_ok (bound : N) (o : option N) : Prop := from_option (λ n, (n < bound)%N) True o.
Definition i64_ok (z : Z) : Prop := (- 2 ^ 63 <= z < 2 ^ 63)%Z.
Definition ref_ok (r : SubscriptionRef) : Prop :=
  match r with Single id => (id < 2 ^ 64)%N | Multiple ids => Forall (λ id, (id < 2 ^ 64)%N) ids end.

Definition inbound_ok (i : InboundMessage) : Prop :=
  match i with
  | InSubscribe _ limit capacity => u64_ok limit ∧ u64_ok capacity
  | InUnsubscribe id => (id < 2 ^ 64)%N
  | InPing _ => True
  end.

Definition outbound_ok {num} (o : OutboundMessage num) : Prop :=
  match o with
  | OutSubscribeAck _ timestamp _ id | OutUnsubscribeAck _ timestamp id => i64_ok timestamp ∧ (id < 2 ^ 64)%N
  | OutEvent _ _ r timestamp _ _ _ _ sequence _ _ _ _ payload_version envelope_version _ =>
      ref_ok r ∧ i64_ok timestamp ∧ u64_ok sequence ∧ uint_ok (2 ^ 32) payload_version ∧
      uint_ok (2 ^ 8) envelope_version
  | OutPong _ timestamp _ => i64_ok timestamp
  | OutError _ code timestamp _ _ id => (code < 2 ^ 16)%N ∧ i64_ok timestamp ∧ u64_ok id
  | OutStreamGap _ timestamp id _ last _ _ => i64_ok timestamp ∧ (id < 2 ^ 64)%N ∧ u64_ok last
  end.

Section roundtrip.
  Context {num : Type} `{!SerdeNumber num, !SerdeInt num, !SerdeIntLaws num}.
  #[local] Abbreviation object := (list (string * json num)).
  Implicit Types (m : object).

Lemma get_put_eq k (v : json num) m : map_get k (put k v m) = Some v.
Proof. apply map_get_insert_eq. Qed.
Lemma get_put_ne k k' (v : json num) m : k ≠ k' → map_get k (put k' v m) = map_get k m.
Proof. apply map_get_insert_ne. Qed.
Lemma get_null_ne {T} k k' (f : T → json num) o m : k ≠ k' → map_get k (put_null k' f o m) = map_get k m.
Proof. apply map_get_insert_ne. Qed.
Lemma get_some_ne {T} k k' (f : T → json num) o m : k ≠ k' → map_get k (put_some k' f o m) = map_get k m.
Proof. destruct o; [apply map_get_insert_ne|done]. Qed.

Lemma as_uint_ju bound n : (n < bound)%N → (bound ≤ 2 ^ 64)%N → as_uint (num:=num) bound (ju n) = Some n.
Proof.
  intros Hn Hb. simpl. rewrite num_u64_roundtrip by lia. simpl. by rewrite (proj2 (N.ltb_lt _ _) Hn).
Qed.

(** An option reads back, whichever way it was written. *)
Lemma opt_null {T} k (f : T → json num) g o m :
  from_option (λ x, g (f x) = Some x ∧ f x ≠ JNull) True o → opt k g (put_null k f o m) = Some o.
Proof.
  intros H. unfold opt, put_null. rewrite map_get_insert_eq.
  destruct o as [x|]; simpl in *; [|done]. destruct H as [Hg Hn]. destruct (f x) eqn:E; rewrite ?Hg; done.
Qed.

Lemma opt_some {T} k (f : T → json num) g o m :
  map_get k m = None → from_option (λ x, g (f x) = Some x ∧ f x ≠ JNull) True o →
  opt k g (put_some k f o m) = Some o.
Proof.
  intros Hk H. unfold opt, put_some. destruct o as [x|]; simpl in *; [|by rewrite Hk].
  rewrite map_get_insert_eq. destruct H as [Hg Hn]. destruct (f x) eqn:E; rewrite ?Hg; done.
Qed.

(** Reading a key skips the other fields. *)
Lemma req_put_eq {T} k (g : json num → option T) v m : req k g (put k v m) = g v.
Proof. unfold req. by rewrite get_put_eq. Qed.
Lemma req_put_ne {T} k k' (g : json num → option T) v m : k ≠ k' → req k g (put k' v m) = req k g m.
Proof. intros. unfold req. by rewrite get_put_ne. Qed.
Lemma req_null_ne {T U} k k' (g : json num → option T) (f : U → json num) o m :
  k ≠ k' → req k g (put_null k' f o m) = req k g m.
Proof. intros. unfold req. by rewrite get_null_ne. Qed.
Lemma req_some_ne {T U} k k' (g : json num → option T) (f : U → json num) o m :
  k ≠ k' → req k g (put_some k' f o m) = req k g m.
Proof. intros. unfold req. by rewrite get_some_ne. Qed.
Lemma opt_put_ne {T} k k' (g : json num → option T) v m : k ≠ k' → opt k g (put k' v m) = opt k g m.
Proof. intros. unfold opt. by rewrite get_put_ne. Qed.
Lemma opt_null_ne {T U} k k' (g : json num → option T) (f : U → json num) o m :
  k ≠ k' → opt k g (put_null k' f o m) = opt k g m.
Proof. intros. unfold opt. by rewrite get_null_ne. Qed.
Lemma opt_some_ne {T U} k k' (g : json num → option T) (f : U → json num) o m :
  k ≠ k' → opt k g (put_some k' f o m) = opt k g m.
Proof. intros. unfold opt. by rewrite get_some_ne. Qed.

Lemma strings_read o : from_option (λ x, as_string (JString (num:=num) x) = Some x ∧ JString (num:=num) x ≠ JNull) True o.
Proof. by destruct o. Qed.
Lemma uints_read bound o : uint_ok bound o → (bound ≤ 2 ^ 64)%N →
  from_option (λ x, as_uint (num:=num) bound (ju x) = Some x ∧ ju (num:=num) x ≠ JNull) True o.
Proof. destruct o; [|done]. intros H Hb. split; [by apply as_uint_ju|done]. Qed.

Lemma ids_read ids :
  Forall (λ id, (id < 2 ^ 64)%N) ids → mapM (as_uint (num:=num) (2 ^ 64)) (map ju ids) = Some ids.
Proof.
  induction 1 as [|id ids Hid Hids IH]; [done|]. cbn -[ju as_uint].
  rewrite as_uint_ju by done. cbn -[ju as_uint]. by rewrite IH.
Qed.

Lemma ref_read r : ref_ok r → as_subscription_ref (num:=num) (subscription_ref_value r) = Some r.
Proof.
  destruct r as [id|ids]; intros H; unfold as_subscription_ref, as_u64; cbn [subscription_ref_value].
  - by rewrite as_uint_ju.
  - cbn. by rewrite (ids_read ids H).
Qed.

Lemma req_tag t : req "type" as_string (tagged (num:=num) t) = Some t.
Proof. done. Qed.

(** The field asked for is not further in. *)
#[local] Ltac absent :=
  repeat first [rewrite get_put_ne by discriminate | rewrite get_null_ne by discriminate
               | rewrite get_some_ne by discriminate]; reflexivity.

(** Walk to the field that is asked for. *)
#[local] Ltac skip_fields :=
  repeat first [rewrite req_put_ne by discriminate | rewrite req_null_ne by discriminate
               | rewrite req_some_ne by discriminate | rewrite opt_put_ne by discriminate
               | rewrite opt_null_ne by discriminate | rewrite opt_some_ne by discriminate].

Lemma as_i64_ji z : i64_ok z → as_i64 (num:=num) (ji z) = Some z.
Proof. intros H. simpl. by apply num_i64_roundtrip. Qed.

(** One field of a message that was just written. *)
#[local] Ltac field_reads :=
  skip_fields;
  first [ rewrite req_put_eq; first [ reflexivity | by apply as_i64_ji | by apply as_uint_ju | by apply ref_read ]
        | apply opt_null; first [apply strings_read | by apply uints_read]
        | apply opt_some; [absent | first [apply strings_read | by apply uints_read]] ].

(** The decoder at a message with the tag [t]: the branch of the tag, and then
    field by field. *)
#[local] Ltac read_message t :=
  match goal with |- _ ?m = Some ?o =>
    let H := fresh in
    assert (req "type" as_string m = Some t) as H by (cbv [inbound_to_object outbound_to_object];
      skip_fields; apply req_tag);
    unfold inbound_of_object, outbound_of_object, as_u64; rewrite H; clear H
  end;
  cbn [mbind option_bind String.eqb Ascii.eqb Bool.eqb];
  cbv [inbound_to_object outbound_to_object];
  repeat (eapply bind_Some; eexists; split; [field_reads|]); reflexivity.

Lemma inbound_reads (i : InboundMessage) :
  inbound_ok i → inbound_of_object (num:=num) (inbound_to_object i) = Some i.
Proof.
  destruct i as [topic limit capacity|id|data]; intros H; cbn [inbound_ok] in H; destruct_and?.
  - read_message "subscribe".
  - read_message "unsubscribe".
  - read_message "ping".
Qed.

Lemma outbound_reads (o : OutboundMessage num) :
  outbound_ok o → outbound_of_object (outbound_to_object o) = Some o.
Proof.
  destruct o; intros H; cbn [outbound_ok] in H; destruct_and?.
  - read_message "subscribe-ack".
  - read_message "unsubscribe-ack".
  - read_message "event".
  - read_message "pong".
  - read_message "error".
  - read_message "stream-gap".
Qed.
Lemma as_uint_below bound (v : json num) n : as_uint bound v = Some n → (n < bound)%N.
Proof.
  destruct v; try done. simpl. intros (x & _ & Hx)%bind_Some. case_match; [|done].
  simplify_eq. by apply N.ltb_lt.
Qed.

Lemma opt_below k bound m o : opt (num:=num) k (as_uint bound) m = Some o → uint_ok bound o.
Proof.
  unfold opt. destruct (map_get k m) as [v|]; [|by intros [= <-]].
  destruct v; first [intros (x & Hx & [= <-])%bind_Some; by apply as_uint_below in Hx|by intros [= <-]].
Qed.

Definition INBOUND_FIELDS : list string := ["type"; "topic"; "limit"; "outboundCapacity"; "subscriptionId"; "data"].

Lemma get_unknown k k' (v : json num) m :
  k ∉ INBOUND_FIELDS → k' ∈ INBOUND_FIELDS → map_get k' (map_insert k v m) = map_get k' m.
Proof. intros Hk Hk'. apply map_get_insert_ne. congruence. Qed.

(** C31: Messages survive the wire. Every message whose fields fit their widths
    is read back from the object it is written as, in both directions, so two
    different messages are never written alike; what a client sends is read as
    a message only with its integers in range, and fields the server does not
    know make no difference. *)
Theorem wire_roundtrip :
  (∀ i : InboundMessage, inbound_ok i → inbound_of_object (num:=num) (inbound_to_object i) = Some i) ∧
  (∀ o : OutboundMessage num, outbound_ok o → outbound_of_object (outbound_to_object o) = Some o) ∧
  (∀ o o' : OutboundMessage num, outbound_ok o → outbound_ok o' →
     outbound_to_object o = outbound_to_object o' → o = o') ∧
  (∀ m i, inbound_of_object (num:=num) m = Some i → inbound_ok i) ∧
  (∀ k v m, k ∉ INBOUND_FIELDS → inbound_of_object (num:=num) (map_insert k v m) = inbound_of_object m).
Proof.
  split_and!; [apply inbound_reads|apply outbound_reads|..].
  - intros o o' Ho Ho' E. apply outbound_reads in Ho, Ho'. rewrite E in Ho. congruence.
  - intros m i H. unfold inbound_of_object in H. apply bind_Some in H as (tag & _ & H).
    destruct (String.eqb tag "subscribe"); [|destruct (String.eqb tag "unsubscribe");
      [|destruct (String.eqb tag "ping"); [|done]]].
    + apply bind_Some in H as (topic & _ & H). apply bind_Some in H as (limit & Hl & H).
      apply bind_Some in H as (cap & Hc & [= <-]). by split; eapply opt_below.
    + apply bind_Some in H as (id & Hid & [= <-]). apply bind_Some in Hid as (v & _ & Hv).
      by apply as_uint_below in Hv.
    + by apply bind_Some in H as (data & _ & [= <-]).
  - intros k v m Hk. unfold inbound_of_object, req, opt.
    rewrite !(get_unknown k _ v m Hk) by (unfold INBOUND_FIELDS; set_solver). done.
Qed.
End roundtrip.

(** ** Messages of a session *)

Module WireExamples.
Import ConcreteNumber SessionExamples.

Lemma wire_roundtrip_witness :
  inbound_of_object (num:=number) (inbound_to_object (InSubscribe "hub/led/abc/state" (Some 5%N) None))
  = Some (InSubscribe "hub/led/abc/state" (Some 5%N) None).
Proof. apply (proj1 (wire_roundtrip (num:=number))). split; [reflexivity|exact I]. Defined.

Example ping_reads :
  inbound_of_object [("extra", JNull); ("type", JString (num:=number) "ping")] = Some (InPing None) ∧
  inbound_of_object [("type", JString (num:=number) "unsubscribe")] = None ∧
  inbound_of_object [("subscriptionId", JNumber (NegInt 1)); ("type", JString "unsubscribe")] = None.
Proof. by vm_compute. Qed.

(** An event without envelope fields: the options are left out. *)
Example bare_event :
  outbound_to_object (num:=number)
    (OutEvent _ "t" (Single 3) 7 JNull None None None None None None None None None None None)
  = [("data", JNull); ("subscriptionId", JNumber (PosInt 3)); ("timestamp", JNumber (PosInt 7));
     ("topic", JString "t"); ("type", JString "event")].
Proof. by vm_compute. Qed.
End WireExamples.
