(* ===== verification/Assembly.v ===== *)
(** The server builder's configuration ([server.rs]), the state it hands to the
    router, and the reconnect loops of its peer clients ([peer.rs],
    [PeerClient::spawn]). *)

From S2P Require Import Prelude F64 Json Query Lexer Parser Topic Envelope Mpsc.
From S2P Require Import Capabilities Http Peer Admission Acceptors Gateway Resource Persistence Redb.
From S2P Require Import Runtime Executor Node Core Server Registrar Siren Render Handlers.

(** ** The builder *)

Section builder.
  Context {hl : HttpLib} {ul : UrlLib} {A : Type}.

(** [Boardwalk] in full: what [Server] keeps of it, and the rest. *)
Record Config := mk_config {
  cf_boardwalk : Boardwalk A;
  cf_peers : list Url;
  cf_peer_links : list PeerLinkConfig;
  cf_accepted_peer_tokens : list PeerAdmissionConfig;
  cf_unauthenticated_local_peers : option UnauthenticatedPeerPolicy;
  cf_actor_factories : gmap string (ActorFactory A);
  cf_persist_path : option string
}.
Implicit Types c : Config.

(** [Boardwalk::new] *)
Definition config_new : Config := mk_config boardwalk_new [] [] [] None ∅ None.

Definition on_boardwalk (f : Boardwalk A → Boardwalk A) c : Config :=
  mk_config (f (cf_boardwalk c)) (cf_peers c) (cf_peer_links c) (cf_accepted_peer_tokens c)
    (cf_unauthenticated_local_peers c) (cf_actor_factories c) (cf_persist_path c).

Definition register_actor_factory (kind : string) (factory : ActorFactory A) c : Config :=
  mk_config (cf_boardwalk c) (cf_peers c) (cf_peer_links c) (cf_accepted_peer_tokens c)
    (cf_unauthenticated_local_peers c) (<[kind := factory]> (cf_actor_factories c)) (cf_persist_path c).

(** [link]; [None] is the panic on a URL that does not parse. *)
Definition link (url : string) c : option Config :=
  match url_parse url with
  | Ok u => Some (mk_config (cf_boardwalk c) (cf_peers c ++ [u]) (cf_peer_links c)
                    (cf_accepted_peer_tokens c) (cf_unauthenticated_local_peers c)
                    (cf_actor_factories c) (cf_persist_path c))
  | Err _ => None
  end.

Definition link_peer (l : PeerLink) c : Config :=
  mk_config (cf_boardwalk c) (cf_peers c) (cf_peer_links c ++ [pl_inner l]) (cf_accepted_peer_tokens c)
    (cf_unauthenticated_local_peers c) (cf_actor_factories c) (cf_persist_path c).

Definition accept_peer (a : PeerAdmission) c : Config :=
  mk_config (cf_boardwalk c) (cf_peers c) (cf_peer_links c) (cf_accepted_peer_tokens c ++ [pa_inner a])
    (cf_unauthenticated_local_peers c) (cf_actor_factories c) (cf_persist_path c).

(** [accept_peer_token]; [None] is the panic on an invalid configuration. *)
Definition accept_peer_token (route_name token_id token : string) c : option Config :=
  match peer_admission_shared_token route_name token_id token with
  | Ok a => Some (accept_peer a c)
  | Err _ => None
  end.

Definition allow_unauthenticated_local_peers c : Config :=
  mk_config (cf_boardwalk c) (cf_peers c) (cf_peer_links c) (cf_accepted_peer_tokens c)
    (Some local_development) (cf_actor_factories c) (cf_persist_path c).

Definition persist (path : string) c : Config :=
  mk_config (cf_boardwalk c) (cf_peers c) (cf_peer_links c) (cf_accepted_peer_tokens c)
    (cf_unauthenticated_local_peers c) (cf_actor_factories c) (Some path).

(** One call on the builder. *)
Inductive BuilderCall :=
| CallName (n : string)
| CallNodeId (id : string)
| CallUseActor (a : A)
| CallUseActorWithId (id : string) (a : A)
| CallFactory (kind : string) (factory : ActorFactory A)
| CallLink (url : string)
| CallLinkPeer (l : PeerLink)
| CallAcceptToken (route_name token_id token : string)
| CallAcceptPeer (a : PeerAdmission)
| CallAllowUnauthenticated
| CallPersist (path : string).

Definition call (c : Config) (b : BuilderCall) : option Config :=
  match b with
  | CallName n => Some (on_boardwalk (set_name n) c)
  | CallNodeId id => Some (on_boardwalk (set_node_id id) c)
  | CallUseActor a => Some (on_boardwalk (use_actor a) c)
  | CallUseActorWithId id a => Some (on_boardwalk (use_actor_with_id id a) c)
  | CallFactory kind factory => Some (register_actor_factory kind factory c)
  | CallLink url => link url c
  | CallLinkPeer l => Some (link_peer l c)
  | CallAcceptToken route token_id token => accept_peer_token route token_id token c
  | CallAcceptPeer a => Some (accept_peer a c)
  | CallAllowUnauthenticated => Some (allow_unauthenticated_local_peers c)
  | CallPersist path => Some (persist path c)
  end.

Fixpoint configure (calls : list BuilderCall) (c : Config) : option Config :=
  match calls with [] => Some c | b :: calls' => c' ← call c b; configure calls' c' end.

(** ** The state of the router *)

(** The fields of [AppState] that a configuration decides: [build] always
    installs a peer handler and senders. *)
Record AppState := mk_app_state {
  st_peering : bool;
  st_peer_admission : list PeerAdmissionConfig;
  st_unauthenticated_local_peers : option UnauthenticatedPeerPolicy;
  st_factories : gmap string (ActorFactory A)
}.

Definition app_state (c : Config) : AppState :=
  mk_app_state true (cf_accepted_peer_tokens c) (cf_unauthenticated_local_peers c) (cf_actor_factories c).

(** [router(core)]: the state of a router without a server. *)
Definition bare_app_state : AppState := mk_app_state false [] None ∅.

(** [peers_upgrade] on that state. *)
Definition serve_upgrade {dl : DigestLib} (st : AppState) (duplicate : bool) (peer_name : string)
    (connection_id : option Uuid) (headers : HeaderMap) : Upgrade :=
  peers_upgrade (st_peering st) duplicate (st_peer_admission st) (st_unauthenticated_local_peers st)
    peer_name connection_id headers.

(** ** Facts *)

Definition opens_peering (b : BuilderCall) : bool :=
  match b with CallAcceptToken _ _ _ | CallAcceptPeer _ | CallAllowUnauthenticated => true | _ => false end.
Definition accepts_token (b : BuilderCall) : bool :=
  match b with CallAcceptToken _ _ _ | CallAcceptPeer _ => true | _ => false end.
Definition adds_factory (b : BuilderCall) : bool :=
  match b with CallFactory _ _ => true | _ => false end.

Lemma call_frame c b c' :
  call c b = Some c' →
  (accepts_token b = false → cf_accepted_peer_tokens c' = cf_accepted_peer_tokens c) ∧
  (accepts_token b = true → cf_accepted_peer_tokens c' ≠ []) ∧
  (cf_accepted_peer_tokens c ≠ [] → cf_accepted_peer_tokens c' ≠ []) ∧
  (opens_peering b = false → cf_unauthenticated_local_peers c' = cf_unauthenticated_local_peers c) ∧
  (adds_factory b = false → cf_actor_factories c' = cf_actor_factories c).
Proof.
  destruct b; simpl; unfold link, accept_peer_token; intros H; repeat case_match; simplify_eq/=;
    split_and!; try done; intros; by destruct (cf_accepted_peer_tokens c).
Qed.

Lemma configure_frame calls c c' :
  configure calls c = Some c' →
  (forallb (λ b, negb (opens_peering b)) calls = true →
     cf_accepted_peer_tokens c' = cf_accepted_peer_tokens c ∧
     cf_unauthenticated_local_peers c' = cf_unauthenticated_local_peers c) ∧
  (cf_accepted_peer_tokens c ≠ [] ∨ existsb accepts_token calls = true →
     cf_accepted_peer_tokens c' ≠ []) ∧
  (forallb (λ b, negb (adds_factory b)) calls = true → cf_actor_factories c' = cf_actor_factories c).
Proof.
  revert c. induction calls as [|b calls IH]; intros c H; simpl in H.
  { simplify_eq. split_and!; [done| |done]. by intros [?|?]. }
  apply bind_Some in H as (c1 & H1 & H2). destruct (IH c1 H2) as (Ha & Hb & Hc).
  destruct (call_frame c b c1 H1) as (F1 & F2 & F3 & F4 & F5). split_and!.
  - simpl. intros [Hop Hrest]%andb_true_iff. apply negb_true_iff in Hop.
    destruct (Ha Hrest) as [-> ->]. split; [apply F1; by destruct b|by apply F4].
  - simpl. intros Hor. apply Hb. destruct Hor as [Hn|Hn]; [left; auto|].
    apply orb_true_iff in Hn as [Hn|Hn]; [left; auto|by right].
  - simpl. intros [Hf Hrest]%andb_true_iff. apply negb_true_iff in Hf. by rewrite (Hc Hrest), F5.
Qed.
End builder.
Arguments Config {_ _} A.
Arguments BuilderCall {_ _} A.
Arguments AppState {_} A.

Section closed.
  Context {hl : HttpLib} {ul : UrlLib} {uo : UrlOps} {tl : TopicLibs} {fl : FormLib} {dl : DigestLib}.
  Context {num : Type} `{!SerdeNumber num, !BodyLib num} {A : Type} `{!Actor num A}.
  Context `{!Mpsc (Command num)} {S : Type} `{!ResourceSnapshotRepository num S, !ResourceIdentityRepository S}.

(** C38: A server is closed by default. Whatever else is called on the builder,
    in any order: without [accept_peer], [accept_peer_token] and
    [allow_unauthenticated_local_peers] no upgrade request switches protocols,
    it is 400 without a connection id and 403 otherwise; as soon as one token
    is accepted the opt-in for unauthenticated peers counts for nothing, and a
    request without credentials is refused; and without a factory a
    registration request is answered 501 and changes nothing. *)
Theorem closed_by_default (calls : list (BuilderCall A)) (c : Config A) :
  configure calls config_new = Some c →
  (forallb (λ b, negb (opens_peering b)) calls = true →
   ∀ duplicate peer_name connection_id headers, ∃ text,
     serve_upgrade (app_state c) duplicate peer_name connection_id headers
     = Refuse (match connection_id with Some _ => 403 | None => 400 end) text) ∧
  (existsb accepts_token calls = true →
   ∀ duplicate peer_name id headers,
     is_ok (required_header headers PEER_TOKEN_ID_HEADER) = false ∨ bearer_token headers = None →
     ∃ text, serve_upgrade (app_state c) duplicate peer_name (Some id) headers = Refuse 401 text) ∧
  (forallb (λ b, negb (adds_factory b)) calls = true →
   ∀ (core : Core num A S) headers uri body uuid answers now,
     resources_post core (st_factories (app_state c)) headers uri body uuid answers now
     = (Some (text_response 501 "runtime resource registration is not enabled"), core)).
Proof.
  intros H. destruct (configure_frame calls config_new c H) as (Ha & Hb & Hc). split_and!.
  - intros Hcalls duplicate peer_name connection_id headers. destruct (Ha Hcalls) as [E1 E2].
    unfold serve_upgrade, app_state, peers_upgrade. simpl. rewrite E1, E2. simpl.
    destruct connection_id; by eexists.
  - intros Hcalls duplicate peer_name id headers Hcred.
    unfold serve_upgrade, app_state, peers_upgrade. simpl.
    assert (cf_accepted_peer_tokens c ≠ []) as Hne by (apply Hb; by right).
    unfold admit_peer_connection. destruct (cf_accepted_peer_tokens c) as [|a l]; [done|].
    destruct (required_header headers PEER_TOKEN_ID_HEADER) as [token|e]; simpl; [|by eexists].
    destruct Hcred as [?|Hbt]; [done|]. rewrite Hbt. by eexists.
  - intros Hcalls core headers uri body uuid answers now. unfold resources_post.
    rewrite decide_True; [done|]. simpl. by rewrite (Hc Hcalls).
Qed.
End closed.

(** ** The reconnect loops *)

Section client_loop.
  Context {hl : HttpLib} `{!EqDecision Uuid, !Countable Uuid}.

Inductive client_phase :=
| AtTop                          (** before the first [select!] of a round *)
| Attempting (id : Uuid)         (** inside [attempt_once] *)
| Backoff (ms : N)               (** in the sleep of the second [select!] *)
| Stopped (dropped : option Uuid). (** the attempt it was stopped in, if any *)

(** A task of [PeerClient::spawn]. The last two fields count its dials and the
    milliseconds it slept between them. *)
Record Client := mk_client {
  cl_phase : client_phase;
  cl_attempt : N;                       (** [u32] *)
  cl_dials : nat;
  cl_slept : N
}.

Definition client_new : Client := mk_client AtTop 0 0 0.

(** The clients of a server; they share the pending confirmations. *)
Record Clients := mk_clients { cs_init : PeerInitState; cs_tasks : list Client }.

Definition clients_new (n : nat) : Clients := mk_clients ∅ (replicate n client_new).

(** [attempt_once] up to its first wait. *)
Definition begin_attempt (id : Uuid) (c : Client) (s : PeerInitState) : Client * PeerInitState :=
  (mk_client (Attempting id) (cl_attempt c) (S (cl_dials c)) (cl_slept c), register id s).

(** The attempt returned: [consume], the counter and the backoff, with the
    generator of the thread the task runs on. *)
Definition end_attempt (clock random : N) (id : Uuid) (ok : bool) (c : Client) (s : PeerInitState)
    : Client * PeerInitState :=
  let attempt := next_attempt ok (cl_attempt c) in
  (mk_client (Backoff (backoff_ms clock attempt random).1) attempt (cl_dials c) (cl_slept c),
   (consume id s).2).

Definition wake_up (ms : N) (c : Client) : Client :=
  mk_client AtTop (cl_attempt c) (cl_dials c) (cl_slept c + ms).

(** The shutdown is signalled, or the task aborted: an attempt is dropped where
    it stands. *)
Definition stop_client (c : Client) : Client :=
  mk_client (Stopped (match cl_phase c with Attempting id => Some id | _ => None end))
    (cl_attempt c) (cl_dials c) (cl_slept c).

Inductive loop_step : Client → PeerInitState → Client → PeerInitState → Prop :=
| lo_dial c s id : cl_phase c = AtTop →
    loop_step c s (begin_attempt id c s).1 (begin_attempt id c s).2
| lo_end c s id clock random ok : cl_phase c = Attempting id →
    loop_step c s (end_attempt clock random id ok c s).1 (end_attempt clock random id ok c s).2
| lo_wake c s ms : cl_phase c = Backoff ms → loop_step c s (wake_up ms c) s
| lo_stop c s : (∀ d, cl_phase c ≠ Stopped d) → loop_step c s (stop_client c) s.

Inductive clients_step : Clients → Clients → Prop :=
| cs_client cs i c c' s' :
    cs_tasks cs !! i = Some c → loop_step c (cs_init cs) c' s' →
    clients_step cs (mk_clients s' (<[i := c']> (cs_tasks cs)))
(** a confirmation lands on the router of the node *)
| cs_confirm cs text :
    clients_step cs (mk_clients (initiate_peer text (cs_init cs)).2 (cs_tasks cs)).

(** *** Facts *)

Lemma backoff_range clock attempt state :
  (1 ≤ attempt)%N → (200 ≤ (backoff_ms clock attempt state).1 ≤ 30999)%N.
Proof.
  intros Ha. rewrite backoff_delay. pose proof (N.mod_lt (xorshift clock state) 1000 ltac:(done)) as Hj.
  assert (2 ≤ 2 ^ N.min attempt 10)%N as Hp.
  { change 2%N with (2 ^ 1)%N at 1. apply N.pow_le_mono_r; [done|lia]. }
  revert Hj Hp. generalize (2 ^ N.min attempt 10)%N, (xorshift clock state mod 1000)%N. lia.
Qed.

Lemma confirm_shrinks text (s : PeerInitState) : (initiate_peer text s).2 ⊆ s.
Proof.
  unfold initiate_peer. destruct (uuid_parse_str text) as [id|]; [|done]. unfold consume.
  destruct (bool_decide (id ∈ s)); simpl; set_solver.
Qed.

(** The id a client answers for: that of its attempt, or of the one it was
    stopped in. *)
Definition pending_of (c : Client) : option Uuid :=
  match cl_phase c with Attempting id => Some id | Stopped d => d | _ => None end.

Record client_ok (c : Client) : Prop := {
  ck_backoff : ∀ ms, cl_phase c = Backoff ms → (200 ≤ ms ≤ 30999)%N;
  ck_paced : match cl_phase c with
             | AtTop => (200 * N.of_nat (cl_dials c) ≤ cl_slept c)%N
             | _ => (200 * N.of_nat (cl_dials c) ≤ cl_slept c + 200)%N
             end
}.

Record clients_ok (cs : Clients) : Prop := {
  cso_each : Forall client_ok (cs_tasks cs);
  cso_pending : ∀ id, id ∈ cs_init cs → ∃ c, c ∈ cs_tasks cs ∧ pending_of c = Some id
}.

Lemma loop_step_ok c s c' s' : loop_step c s c' s' → client_ok c → client_ok c'.
Proof.
  intros Hs [Hb Hd]. destruct Hs as [c s id Ht|c s id clock random ok Ha|c s ms Hm|c s Hn].
  - rewrite Ht in *. split; simpl; [done|lia].
  - rewrite Ha in *.
    assert (1 ≤ next_attempt ok (cl_attempt c))%N as H1
      by (unfold next_attempt, saturating_add_u32; destruct ok; lia).
    pose proof (backoff_range clock _ random H1) as Hr. split; simpl; [by intros ? [= <-]|done].
  - rewrite Hm in *. specialize (Hb ms eq_refl). split; simpl; [done|lia].
  - split; simpl; [done|destruct (cl_phase c); lia].
Qed.

(** A step of one client keeps the ids of the others, and moves its own with it. *)
Lemma loop_step_pending c s c' s' id :
  loop_step c s c' s' → id ∈ s' →
  pending_of c' = Some id ∨ id ∈ s ∧ (pending_of c = Some id → pending_of c' = Some id).
Proof.
  unfold pending_of. destruct 1 as [c s i Ht|c s i clock random ok Ha|c s ms Hm|c s Hn]; simpl.
  - unfold register. intros [?%elem_of_singleton|?]%elem_of_union; [left; congruence|right].
    split; [done|]. by rewrite Ht.
  - rewrite Ha. unfold consume. simpl. intros [? Hne%not_elem_of_singleton]%elem_of_difference. right.
    split; [done|]. congruence.
  - intros ?. right. split; [done|]. by rewrite Hm.
  - intros ?. right. split; [done|]. destruct (cl_phase c) as [| | |d] eqn:E; try done. by destruct (Hn d).
Qed.

Lemma clients_step_ok cs cs' : clients_step cs cs' → clients_ok cs → clients_ok cs'.
Proof.
  intros Hs [He Hp]. destruct Hs as [cs i c c' s' Hi Hs|cs text]; split; simpl.
  - apply Forall_insert; [done|]. eapply loop_step_ok; [done|]. by eapply Forall_lookup_1.
  - intros id Hid. assert (i < length (cs_tasks cs)) as Hlt by by eapply lookup_lt_Some.
    assert (c' ∈ <[i := c']> (cs_tasks cs)) as Hc'
      by (apply list_elem_of_lookup; exists i; by apply list_lookup_insert_eq).
    destruct (loop_step_pending _ _ _ _ id Hs Hid) as [?|[Hin Hk]]; [eauto|].
    destruct (Hp id Hin) as (d & [j Hj]%list_elem_of_lookup & Hd).
    destruct (decide (i = j)) as [<-|Hne].
    + rewrite Hi in Hj. simplify_eq. eauto.
    + exists d. split; [|done]. apply list_elem_of_lookup. exists j. by rewrite list_lookup_insert_ne.
  - done.
  - intros id Hid%confirm_shrinks. by apply Hp.
Qed.

Lemma clients_new_ok n : clients_ok (clients_new n).
Proof.
  split; simpl; [|set_solver]. apply Forall_forall. intros c [-> _]%elem_of_replicate. by split.
Qed.

Lemma pending_size (l : list Client) :
  size (list_to_set (omap pending_of l) : gset Uuid) ≤ length l.
Proof.
  induction l as [|c l IH]; [done|]. simpl.
  assert (∀ id (X : gset Uuid), size ({[id]} ∪ X) ≤ S (size X)) as Hs.
  { intros id X. rewrite size_union_alt, size_singleton.
    pose proof (subseteq_size (X ∖ {[id]}) X ltac:(set_solver)). lia. }
  destruct (pending_of c) as [id|]; simpl.
  - etransitivity; [apply Hs|]. by apply le_n_S.
  - by apply le_S.
Qed.

(** C36: Peer clients redial at a bounded rate and accept confirmations for their
    own dials only. In every run of the clients of a server, whatever the
    attempts return and whoever confirms: between two dials a client has slept
    at least 200 ms, and no sleep is longer than 30,999 ms; a confirmation is
    answered 200 only for the connection id of a running attempt, or of one
    that was dropped when its client was stopped, so at most one id per client
    is pending. *)
Theorem reconnect_paced (n : nat) (cs : Clients) :
  rtc clients_step (clients_new n) cs →
  (∀ c, c ∈ cs_tasks cs →
     (200 * (N.of_nat (cl_dials c) - 1) ≤ cl_slept c)%N ∧
     (∀ ms, cl_phase c = Backoff ms → 200 ≤ ms ≤ 30999)%N) ∧
  (∀ text, (initiate_peer text (cs_init cs)).1.1 = 200%N →
     ∃ id c, uuid_parse_str text = Some id ∧ c ∈ cs_tasks cs ∧
       (cl_phase c = Attempting id ∨ cl_phase c = Stopped (Some id))) ∧
  size (cs_init cs) ≤ length (cs_tasks cs).
Proof.
  intros Hr. assert (clients_ok cs) as [He Hp].
  { revert Hr. apply rtc_invariant; [intros x y Hx Hs; by eapply clients_step_ok|apply clients_new_ok]. }
  split_and!.
  - intros c Hc. rewrite Forall_forall in He. destruct (He c Hc) as [Hb Hd].
    split; [destruct (cl_phase c); lia|done].
  - intros text Ht. unfold initiate_peer in Ht. destruct (uuid_parse_str text) as [id|]; [|done].
    unfold consume in Ht. destruct (bool_decide_reflect (id ∈ cs_init cs)) as [Hin|]; [|done].
    destruct (Hp id Hin) as (c & Hc & Hid). exists id, c. split_and!; [done|done|].
    unfold pending_of in Hid. destruct (cl_phase c); simplify_eq; auto.
  - etransitivity; [apply (subseteq_size _ (list_to_set (omap pending_of (cs_tasks cs))))|].
    + intros id (c & Hc & Hid)%Hp. apply elem_of_list_to_set, list_elem_of_omap. eauto.
    + apply pending_size.
Qed.
End client_loop.

(** ** Shutting down *)

(** What [listen_until_on] does once the listener has stopped, in order: it
    aborts the peer tasks, then stops the actors one after the other. *)
Inductive Teardown :=
| AbortPeer (i : nat)
| StopActor (id : string)              (** [handle.shutdown(within)] *)
| JoinTask (id : string)
| AbortTask (id : string).

(** [Node::shutdown] on the entries with whether their task handle is still
    there; [exits] says which tasks end in time once asked. *)
Definition node_shutdown (exits : string → bool) (entries : list (string * bool)) : list Teardown :=
  concat (map (λ e, StopActor e.1 ::
    (if e.2 : bool then [if exits e.1 then JoinTask e.1 else AbortTask e.1] else [])) entries).

Definition teardown (peer_tasks : nat) (exits : string → bool) (entries : list (string * bool))
    : list Teardown :=
  map AbortPeer (seq 0 peer_tasks) ++ node_shutdown exits entries.

(** Every task whose handle is there is asked to stop and then ended: joined
    when it exits in time, aborted when it does not, and all peer tasks are gone
    by then. *)
Lemma teardown_ends n exits entries id :
  (id, true) ∈ entries →
  ∃ before after, teardown n exits entries
    = map AbortPeer (seq 0 n) ++ before
        ++ [StopActor id; if exits id then JoinTask id else AbortTask id] ++ after.
Proof.
  intros (l1 & l2 & ->)%list_elem_of_split. unfold teardown, node_shutdown.
  rewrite map_app, concat_app. simpl. by eexists _, _.
Qed.

(** ** Concrete servers *)

Module AssemblyExamples.
Import ListHttp TopicExamples StringUrl.
#[local] Existing Instance ListChannel.mpsc.
#[local] Existing Instance CoreExamples.n_number.
#[local] Existing Instance ExecutorExamples.counter.

#[local] Instance no_form : FormLib := {| form_serialize := λ _, ""; form_parse := λ _, [] |}.
#[local] Instance no_body : BodyLib N := {| body_json := λ _, Err ""; body_form := λ _, Err "" |}.
#[local] Instance digest : DigestLib := {| base64_sha1 := λ s, s |}.

Definition calls : list (BuilderCall nat) := [CallName "hub"; CallUseActor 0; CallPersist "hub.redb"].

Lemma closed_by_default_witness :
  ∃ c text, configure calls config_new = Some c ∧
    serve_upgrade (app_state c) false "edge" (Some (7 : @Uuid http_lib)) hm_new = Refuse 403 text.
Proof.
  destruct (configure calls config_new) as [c|] eqn:E; [|discriminate E].
  destruct (closed_by_default (num:=N) (S:=Mutex N) calls c E) as (H & _).
  destruct (H eq_refl false "edge" (Some (7 : @Uuid http_lib)) hm_new) as [text Ht].
  exists c, text. by split.
Defined.

#[local] Instance uuid_dec : EqDecision (@Uuid http_lib) := Nat.eq_dec.
#[local] Instance uuid_countable : Countable (@Uuid http_lib) := nat_countable.

(** Two clients; the first one dials twice. *)
Definition redialing : Clients :=
  mk_clients {[2 : @Uuid http_lib]}
    [mk_client (Attempting (2 : @Uuid http_lib)) 1 2 (backoff_ms 0 1 9).1; client_new].

Lemma redialing_run : rtc clients_step (clients_new 2) redialing.
Proof.
  eapply rtc_l; [by eapply (cs_client _ 0), (lo_dial _ _ (1 : @Uuid http_lib))|].
  eapply rtc_l; [by eapply (cs_client _ 0), (lo_end _ _ (1 : @Uuid http_lib) 0 9 false)|].
  eapply rtc_l; [by eapply (cs_client _ 0), lo_wake|].
  eapply rtc_l; [by eapply (cs_client _ 0), (lo_dial _ _ (2 : @Uuid http_lib))|]. apply rtc_refl.
Qed.

Lemma reconnect_paced_witness :
  (200 * (2 - 1) ≤ (backoff_ms 0 1 9).1)%N ∧ size (cs_init redialing) ≤ 2.
Proof.
  destruct (reconnect_paced 2 redialing redialing_run) as (H1 & _ & H3).
  split; [|exact H3]. destruct (H1 (mk_client (Attempting (2 : @Uuid http_lib)) 1 2 (backoff_ms 0 1 9).1)) as [H _].
  - by left.
  - exact H.
Defined.
End AssemblyExamples.
