(* ===== verification/Front.v ===== *)
(** A node as its clients see it: [router_with] of [http/routes.rs] and the
    handlers behind it as one function of a request. The extractors run first,
    then the handler, which serves from the core or goes through the gateway. *)

From S2P Require Import Prelude F64 Json Query Lexer Parser Topic Envelope Mpsc.
From S2P Require Import Capabilities Http Peer Admission Acceptors Gateway Resource Persistence Redb.
From S2P Require Import Runtime Executor Node Core Server Registrar Siren Render Handlers EventStream.
From S2P Require Import Router Assembly.

(** ** Requests and replies *)

(** Why axum refuses to upgrade a request to a WebSocket. *)
Inductive WsRejection := WsMethodNotGet | WsBadHeader | WsNotUpgradable.

Definition ws_status (w : WsRejection) : N :=
  match w with WsMethodNotGet => 405 | WsBadHeader => 400 | WsNotUpgradable => 426 end.

(** The extractors of axum. [path_param], of [Path], is the percent decoding of
    one captured segment, [None] when what it decodes to is not UTF-8;
    [ws_upgrade] is the check of [WebSocketUpgrade]. *)
Class AxumExtract {hl : HttpLib} := {
  path_param : string → option string;
  ws_upgrade : Method → HeaderMap → option WsRejection
}.

(** The limit axum puts on a body it collects into [Bytes]. *)
Definition DEFAULT_BODY_LIMIT : N := 2097152.

Section front.
  Context {hl : HttpLib} `{!EqDecision Uuid, !Countable Uuid} {ul : UrlLib} {uo : UrlOps}.
  Context {tl : TopicLibs} {fl : FormLib} {dl : DigestLib} {axr : AxumRouter} {axp : AxumExtract}.
  Context {num : Type} `{!SerdeNumber num, !BodyLib num} {A : Type} `{!Actor num A}.
  Context `{!Mpsc (Command num)} {S : Type}.
  Context `{!ResourceSnapshotRepository num S, !ResourceIdentityRepository S}.

(** [tunnel_leg] says that the request came down a tunnel. *)
Record Incoming := mk_incoming {
  in_method : Method;
  in_uri : Uri;
  in_headers : HeaderMap;
  in_body : string;
  in_tunnel_leg : bool
}.

Inductive Reply :=
| Served (r : option (Response num))   (** [None]: the handler panicked *)
| Streaming (q : EventsQuery)          (** the stream of [EventStream] *)
| Websocket                            (** a connection of [Session] *)
| Upgrading (u : Upgrade)              (** a tunnel *)
| Rejected (status : N).               (** answered by the router or an extractor *)

(** What the server keeps: its core, the state of its router and the pending
    confirmations of its own dials. *)
Record Front := mk_front {
  fr_core : Core num A S;
  fr_state : AppState A;
  fr_init : PeerInitState
}.

(** What a request meets outside of the front: the answers of the actors, the
    clock, fresh ids, the tunnel table at each instant, and the peers. *)
Record Env := mk_env {
  ev_answers : string → snapshot_answer num;
  ev_outcome : string → string → TransitionCtx → TransitionInput num →
    result TransitionError (TransitionOutcome num);
  ev_after : string → snapshot_answer num;
  ev_now : Z;
  ev_uuid : Uuid;
  ev_correlation : Uuid;
  ev_command : CommandId;
  ev_tables : nat → Acceptors;
  ev_contexts : string → option AdmittedPeerConnection;
  ev_exchange : TaskId → Request → Response num
}.
Implicit Types (fr : Front) (env : Env) (i : Incoming).

(** ** Extractors *)

(** The segments a pattern captures. *)
Fixpoint captures (ps : list Seg) (ss : list string) : list string :=
  match ps, ss with
  | Param _ :: ps', s :: ss' => s :: captures ps' ss'
  | Static _ :: ps', _ :: ss' => captures ps' ss'
  | _, _ => []
  end.

Definition path_params (ps : list Seg) (path : string) : option (list string) :=
  mapM path_param (captures ps (default [] (path_segments path))).

Definition query_pairs (uri : Uri) : list (string * string) := form_parse (default "" (uri_query uri)).

(** [Query<QueryParams>] and [Query<PeerQuery>] *)
Definition query_params (uri : Uri) : result string (option string * option string) :=
  let? ql := field_once "ql" (query_pairs uri) in
  let? server := field_once "server" (query_pairs uri) in
  Ok (ql, server).

Definition peer_query (uri : Uri) : result string (option Uuid) :=
  let? id := field_once "connectionId" (query_pairs uri) in opt_parse uuid_parse_str id.

(** ** The gateway *)

(** [maybe_forward_or_404] on the state of the front. *)
Definition routed fr env (name : string) (method : Method) (uri : Uri) (headers : HeaderMap)
    (body : string) : Routed :=
  (run (ev_tables env) 0 (maybe_forward_or_404 (c_name (fr_core fr)) (st_peering (fr_state fr))
     (st_peer_admission (fr_state fr)) (ev_correlation env) name method uri headers body)).2.

Definition answer_of env (r : Routed) : option (Response num) :=
  match r with
  | ServeLocally => None
  | Answer status text => Some (text_response status text)
  | SendTo tunnel req => Some (ev_exchange env tunnel req)
  end.

(** [maybe_forward_get_or_404] *)
Definition forward_get fr env i : forwarder := λ name uri,
  answer_of env (routed fr env name GET uri (in_headers i) "").

Definition forward_post fr env i (name : string) : option (Response num) :=
  answer_of env (routed fr env name POST (in_uri i) (in_headers i) (in_body i)).

(** ** Dispatch *)

Definition served fr (h : handled) : Reply * Front :=
  (Served h.1, mk_front h.2 (fr_state fr) (fr_init fr)).

Definition with_query fr i (k : option string → option string → Reply * Front) : Reply * Front :=
  match query_params (in_uri i) with
  | Ok (ql, server) => k ql server
  | Err _ => (Rejected 400, fr)
  end.

(** The extractor of [bytes::Bytes]. *)
Definition with_bytes fr i (k : string → Reply * Front) : Reply * Front :=
  if (DEFAULT_BODY_LIMIT <? N.of_nat (String.length (in_body i)))%N then (Rejected 413, fr) else k (in_body i).

(** The handlers that serve from the core alone. *)
Definition resources_get fr env i (ql : option string) : handled :=
  resources_response (fr_core fr) (in_headers i) (in_uri i) ql (ev_answers env) (ev_now env).

Definition resource_get fr env i (id : string) : handled :=
  resource_response (fr_core fr) (in_headers i) (in_uri i) id (ev_answers env) (ev_now env).

Definition local_meta_get fr env i : handled :=
  (meta_response (fr_core fr) (in_headers i) (in_uri i) (ev_answers env), fr_core fr).

Definition local_meta_type_get fr env i (ty : string) : handled :=
  (meta_type_response (fr_core fr) (in_headers i) (in_uri i) ty (ev_answers env), fr_core fr).

Definition resource_transition_post fr env i (id transition body : string) : handled :=
  transition_response (fr_core fr) (in_headers i) (caller_provenance (in_tunnel_leg i) (in_headers i))
    id transition body (ev_command env) (ev_outcome env id transition)
    (ev_after env id) (ev_now env).

(** The handlers, after their path parameters. *)
Definition handle fr env i (h : Handler) (params : list string) : Reply * Front :=
  let core := fr_core fr in
  let headers := in_headers i in
  let uri := in_uri i in
  let answers := ev_answers env in
  let now := ev_now env in
  match h, params with
  | Hroot, [] => with_query fr i (λ ql server,
      served fr (root core headers uri ql server
        (if st_peering (fr_state fr)
         then peer_render_policies (sender_names (ev_tables env 0)) (ev_contexts env) else [])
        (forward_get fr env i) answers now))
  | Hresources_get, [] => with_query fr i (λ ql _, served fr (resources_get fr env i ql))
  | Hresources_post, [] => with_bytes fr i (λ body,
      served fr (resources_post core (st_factories (fr_state fr)) headers uri body (ev_uuid env) answers now))
  | Hresource_get, [id] => served fr (resource_get fr env i id)
  | Hresource_transition_post, [id; transition] => with_bytes fr i (λ body,
      served fr (resource_transition_post fr env i id transition body))
  | Hlocal_meta_get, [] => served fr (local_meta_get fr env i)
  | Hlocal_meta_type_get, [ty] => served fr (local_meta_type_get fr env i ty)
  | Hserver_get, [name] => with_query fr i (λ ql _,
      served fr (server_get core (forward_get fr env i) name headers uri ql answers now))
  | Hserver_resources_get, [name] => with_query fr i (λ ql _,
      served fr (server_resources_get core (forward_get fr env i) name headers uri ql answers now))
  | Hserver_resource_get, [name; id] =>
      served fr (server_resource_get core (forward_get fr env i) name id headers uri answers now)
  | Hserver_resource_transition_post, [name; id; transition] => with_bytes fr i (λ body,
      served fr (server_resource_transition_post core (forward_post fr env i name) name
        (in_tunnel_leg i) headers id transition body (ev_command env)
        (ev_outcome env id transition) (ev_after env id) now))
  | Hmeta_get, [name] => served fr (meta_get core (forward_get fr env i) name headers uri answers)
  | Hmeta_type_get, [name; ty] =>
      served fr (meta_type_get core (forward_get fr env i) name ty headers uri answers)
  | Hserver_events_stream, [name] =>
      match events_query_of (query_pairs uri) with
      | Err _ => (Rejected 400, fr)
      | Ok q => match forward_get fr env i name uri with
                | Some response => (Served (Some response), fr)
                | None => (Streaming q, fr)
                end
      end
  | Hevents_unsubscribe, [name] =>
      (Served (Some (events_unsubscribe core (forward_post fr env i name) name)), fr)
  | Hevents_ws, [] =>
      match ws_upgrade (in_method i) headers with
      | Some w => (Rejected (ws_status w), fr)
      | None => (Websocket, fr)
      end
  | Hpeers_upgrade, [name] =>
      match peer_query uri with
      | Err _ => (Rejected 400, fr)
      | Ok connection_id =>
          (Upgrading (serve_upgrade (fr_state fr)
             (has_active_peer name (ev_tables env 0) (ev_tables env 1)) name connection_id headers), fr)
      end
  | Hinitiate_peer, [id] =>
      let '(status, text, init) := initiate_peer id (fr_init fr) in
      (Served (Some (text_response status text)), mk_front core (fr_state fr) init)
  | _, _ => (Rejected 500, fr)   (* axum: the number of parameters is that of the pattern *)
  end.

(** The server: routing, extraction, handling. A HEAD request runs the handler
    of GET; that its body is then dropped is not modelled. *)
Definition serve_request env fr i : Reply * Front :=
  match router_at routes (uri_path (in_uri i)) with
  | None => (Rejected 404, fr)
  | Some r =>
      match handler_for r.2 (in_method i) with
      | None => (Rejected 405, fr)
      | Some h =>
          match path_params r.1 (uri_path (in_uri i)) with
          | None => (Rejected 400, fr)
          | Some params => handle fr env i h params
          end
      end
  end.
End front.

(** ** Facts *)

Section facts.
  Context {hl : HttpLib} `{!EqDecision Uuid, !Countable Uuid} {ul : UrlLib} {uo : UrlOps}.
  Context {tl : TopicLibs} {fl : FormLib} {dl : DigestLib} `{!AxumRouter, !AxumLaws} {axp : AxumExtract}.
  Context {num : Type} `{!SerdeNumber num, !BodyLib num} {A : Type} `{!Actor num A}.
  Context `{!Mpsc (Command num)} {S : Type}.
  Context `{!ResourceSnapshotRepository num S, !ResourceIdentityRepository S}.
  Implicit Types (fr : Front (num:=num) (A:=A) (S:=S)) (env : Env (num:=num)) (i : Incoming).

(** The gateway is asked nothing about the own name. *)
Lemma routed_own fr env method uri headers body :
  routed fr env (c_name (fr_core fr)) method uri headers body = ServeLocally.
Proof. unfold routed, maybe_forward_or_404. by rewrite String.eqb_refl. Qed.

Lemma build_hrefs_scheme headers uri uri' server :
  uri_scheme_str uri = uri_scheme_str uri' → build_hrefs headers uri server = build_hrefs headers uri' server.
Proof. intros Hu. unfold build_hrefs. by rewrite Hu. Qed.

(** The same request but for its path. *)
Record same_but_path i i' : Prop := {
  sp_method : in_method i' = in_method i;
  sp_headers : in_headers i' = in_headers i;
  sp_body : in_body i' = in_body i;
  sp_leg : in_tunnel_leg i' = in_tunnel_leg i;
  sp_query : uri_query (in_uri i') = uri_query (in_uri i);
  sp_scheme : uri_scheme_str (in_uri i') = uri_scheme_str (in_uri i)
}.

(** The route of a path below the own name, and the one it abbreviates. *)
Definition alias (h : Handler) : option Handler :=
  match h with
  | Hresources_get => Some Hserver_resources_get
  | Hresource_get => Some Hserver_resource_get
  | Hresource_transition_post => Some Hserver_resource_transition_post
  | Hlocal_meta_get => Some Hmeta_get
  | Hlocal_meta_type_get => Some Hmeta_type_get
  | _ => None
  end.

Lemma handle_alias fr env i i' h h' params :
  same_but_path i i' → alias h = Some h' →
  handle fr env i' h' (c_name (fr_core fr) :: params) = handle fr env i h params.
Proof.
  intros [Hm Hh Hb Hl Hq Hsc] Ha.
  assert (∀ headers server, build_hrefs headers (in_uri i') server = build_hrefs headers (in_uri i) server) as Hr
    by (intros; by apply build_hrefs_scheme).
  assert (query_params (in_uri i') = query_params (in_uri i)) as Hqp
    by (unfold query_params, query_pairs; by rewrite Hq).
  assert (∀ uri, forward_get fr env i' (c_name (fr_core fr)) uri = None) as Hf
    by (intros; unfold forward_get; by rewrite routed_own).
  destruct h; try discriminate Ha; injection Ha as <-; destruct params as [|p [|p' [|]]]; try done; simpl;
    unfold with_query, with_bytes, server_resources_get, server_resource_get, meta_get, meta_type_get, serve_or_forward,
      server_resource_transition_post, resources_get, resource_get, local_meta_get, local_meta_type_get,
      resource_transition_post; rewrite ?Hf, ?String.eqb_refl, ?Hqp, ?Hh, ?Hb, ?Hl;
    unfold resources_response, resource_response, meta_response, meta_type_response; rewrite ?Hr; done.
Qed.

Definition matching (ss : list string) : option Route := List.find (λ r, pattern_matches r.1 ss) routes.

Lemma matching_some ss r : matching ss = Some r → r ∈ routes ∧ pattern_matches r.1 ss = true.
Proof. intros [Hin Hm]%List.find_some. split; [by apply list_elem_of_In|done]. Qed.

Lemma matching_none ss r : matching ss = None → r ∈ routes → pattern_matches r.1 ss = false.
Proof. intros Hn Hin%list_elem_of_In. by apply (List.find_none _ _ Hn). Qed.

Lemma matching_unique ss r : r ∈ routes → pattern_matches r.1 ss = true → matching ss = Some r.
Proof.
  intros Hin Hm. destruct (matching ss) as [r'|] eqn:E.
  - apply matching_some in E as [Hin' Hm']. f_equal. by eapply routes_unique_segments.
  - rewrite (matching_none ss r E Hin) in Hm. done.
Qed.

(** Below the own name the table repeats the routes of [/resources] and
    [/meta], except for registration. *)
Definition aliased (r r' : Route) : bool :=
  bool_decide (r'.1 = Static "servers" :: Param "name" :: r.1) &&
  bool_decide (ep_get r'.2 = ep_get r.2 ≫= alias) && bool_decide (ep_any r'.2 = None) &&
  bool_decide (ep_any r.2 = None) &&
  (bool_decide (r.1 = [Static "resources"]) || bool_decide (ep_post r'.2 = ep_post r.2 ≫= alias)) &&
  forallb (λ o, match o with Some h => bool_decide (is_Some (alias h)) | None => true end)
    (if bool_decide (r.1 = [Static "resources"]) then [ep_get r.2] else [ep_get r.2; ep_post r.2]).

Definition heads (s : string) (ps : list Seg) : bool :=
  match ps with Static t :: _ => String.eqb s t | Param _ :: _ => true | [] => false end.

Lemma aliases_up :
  forallb (λ r, negb (heads "resources" r.1 || heads "meta" r.1) || existsb (aliased r) routes) routes = true.
Proof. vm_compute. reflexivity. Qed.

Lemma aliases_down :
  forallb (λ r', match r'.1 with
                 | Static t :: Param n :: ps =>
                     negb (String.eqb t "servers") || negb (heads "resources" ps || heads "meta" ps)
                     || existsb (λ r, bool_decide (r'.1 = Static "servers" :: Param "name" :: r.1)) routes
                 | Param _ :: _ | Static _ :: Static _ :: _ :: _ => false
                 | _ => true
                 end) routes = true.
Proof. vm_compute. reflexivity. Qed.

Definition aliased_path (rest : list string) : Prop := head rest = Some "resources" ∨ head rest = Some "meta".

Lemma heads_match ps rest :
  aliased_path rest → pattern_matches ps rest = true → heads "resources" ps || heads "meta" ps = true.
Proof.
  intros Hrest Hm. destruct rest as [|s rest]; [by destruct Hrest|].
  destruct ps as [|[t|n] ps]; [done| |done]. simpl in *. apply andb_true_iff in Hm as [->%String.eqb_eq _].
  apply orb_true_iff. destruct Hrest as [[= ->]|[= ->]]; [by left|by right].
Qed.

Lemma alias_up r rest :
  r ∈ routes → aliased_path rest → pattern_matches r.1 rest = true →
  ∃ r', r' ∈ routes ∧ aliased r r' = true.
Proof.
  intros Hin%list_elem_of_In Hrest Hm. pose proof aliases_up as Hup. rewrite forallb_forall in Hup.
  specialize (Hup r Hin). rewrite (heads_match _ _ Hrest Hm) in Hup. cbn [negb orb] in Hup.
  apply existsb_exists in Hup as (r' & Hin' & Ha). exists r'. split; [by apply list_elem_of_In|done].
Qed.

Lemma alias_down r' seg rest :
  r' ∈ routes → aliased_path rest → pattern_matches r'.1 ("servers" :: seg :: rest) = true →
  ∃ r, r ∈ routes ∧ pattern_matches r.1 rest = true.
Proof.
  intros Hin%list_elem_of_In Hrest Hm. pose proof aliases_down as Hdown. rewrite forallb_forall in Hdown.
  specialize (Hdown r' Hin). destruct r'.1 as [|[t|n] [|y ps]] eqn:Ep; cbn [pattern_matches seg_matches] in Hm; try done.
  { by rewrite andb_false_r in Hm. }
  apply andb_true_iff in Hm as [Ht Hm]. apply andb_true_iff in Hm as [Hy Hm].
  pose proof (heads_match ps rest Hrest Hm) as Hh. destruct y as [u|n]; [by destruct ps|].
  rewrite String.eqb_sym, Ht, Hh in Hdown. cbn [negb orb] in Hdown.
  apply existsb_exists in Hdown as (r & Hr & Heq%bool_decide_eq_true). exists r.
  split; [by apply list_elem_of_In|]. by injection Heq as _ _ ->.
Qed.

(** The handlers of two aliased endpoints, method by method. *)
Lemma aliased_handlers r r' m :
  aliased r r' = true → (r.1 = [Static "resources"] → m ≠ POST) →
  match handler_for r.2 m with
  | None => handler_for r'.2 m = None
  | Some h => ∃ h', alias h = Some h' ∧ handler_for r'.2 m = Some h'
  end.
Proof.
  assert (∀ o : option Handler,
    (∀ h, o = Some h → is_Some (alias h)) →
    match o with
    | None => o ≫= alias = None
    | Some h => ∃ h', alias h = Some h' ∧ o ≫= alias = Some h'
    end) as Haux.
  { intros [h|] Ho; [|done]. destruct (Ho h eq_refl) as [h' Hh']. exists h'. by rewrite <- Hh'. }
  unfold aliased. rewrite !andb_true_iff, !bool_decide_eq_true.
  intros (((((_ & Hg) & Hany') & Hany) & Hpo) & Hall) Hpost. rewrite forallb_forall in Hall.
  assert (∀ h, Some h ∈ (if bool_decide (r.1 = [Static "resources"]) then [ep_get r.2] else [ep_get r.2; ep_post r.2])
    → is_Some (alias h)) as Hal.
  { intros h Hh%list_elem_of_In. apply (bool_decide_unpack _). by rewrite (Hall (Some h) Hh). }
  unfold handler_for. rewrite Hany, Hany', Hg.
  assert (∀ h, ep_get r.2 = Some h → is_Some (alias h)) as HG
    by (intros h Hh; apply Hal; case_bool_decide; rewrite Hh; by left).
  destruct m as [| |n]; [by apply Haux| |destruct (String.eqb n "HEAD"); [by apply Haux|done]].
  assert (r.1 ≠ [Static "resources"]) as Hne by (intros Hr; by apply Hpost).
  rewrite bool_decide_eq_false_2 in Hpo, Hal by done. apply bool_decide_eq_true in Hpo as ->.
  apply Haux. intros h Hh. apply Hal. rewrite Hh. by right; left.
Qed.

Lemma alias_routes (seg : string) (rest : list string) (m : Method) :
  str_is_empty seg = false → aliased_path rest → (rest = ["resources"] → m ≠ POST) →
  match matching rest with
  | None => matching ("servers" :: seg :: rest) = None
  | Some r => ∃ r', matching ("servers" :: seg :: rest) = Some r' ∧
      r'.1 = Static "servers" :: Param "name" :: r.1 ∧ 
      match handler_for r.2 m with
      | None => handler_for r'.2 m = None
      | Some h => ∃ h', alias h = Some h' ∧ handler_for r'.2 m = Some h'
      end
  end.
Proof.
  intros Hseg Hrest Hpost. destruct (matching rest) as [r|] eqn:E.
  - apply matching_some in E as [Hin Hm]. destruct (alias_up r rest Hin Hrest Hm) as (r' & Hin' & Ha).
    assert (r'.1 = Static "servers" :: Param "name" :: r.1) as Hp
      by (unfold aliased in Ha; rewrite !andb_true_iff, !bool_decide_eq_true in Ha; tauto).
    exists r'. split_and!; [|done|].
    + apply matching_unique; [done|]. rewrite Hp. simpl. by rewrite Hseg.
    + apply aliased_handlers; [done|]. intros Hres. apply Hpost. rewrite Hres in Hm.
      destruct rest as [|s [|]]; simpl in Hm; try done; [|by rewrite andb_false_r in Hm].
      rewrite andb_true_r in Hm. by apply String.eqb_eq in Hm as ->.
  - destruct (matching ("servers" :: seg :: rest)) as [r'|] eqn:E'; [|done].
    apply matching_some in E' as [Hin' Hm']. destruct (alias_down r' seg rest Hin' Hrest Hm') as (r & Hin & Hm).
    by rewrite (matching_none rest r E Hin) in Hm.
Qed.


(** *** Other servers *)

(** A name that is not the own one is never served here. *)
Lemma routed_remote fr env (name : string) method uri headers body :
  name ≠ c_name (fr_core fr) → is_Some (answer_of env (routed fr env name method uri headers body)).
Proof.
  intros Hne. unfold routed, maybe_forward_or_404. rewrite (proj2 (String.eqb_neq _ _) Hne).
  destruct (from_parts method (uri_path uri) (uri_query uri)) as [intent|]; [|by eexists].
  destruct (negb (st_peering (fr_state fr))); [by eexists|]. rewrite run_pbind.
  destruct (run _ 0 (resolve_caller_ingress _ _)) as [t [caller|d]]; simpl.
  - repeat (case_match; simpl; try by eexists).
  - destruct (admission_denied d) as [? [status reason]]. by eexists.
Qed.

Lemma servers_forward :
  forallb (λ r, negb (heads "servers" r.1) ||
    match r.1 with
    | Static _ :: Param _ :: _ =>
        forallb (λ o, match o with Some h => bool_decide (is_Some (forwards h)) | None => true end)
          [ep_get r.2; ep_post r.2; ep_any r.2]
    | _ => false
    end) routes = true.
Proof. vm_compute. reflexivity. Qed.

Lemma servers_route r m h seg rest :
  r ∈ routes → pattern_matches r.1 ("servers" :: seg :: rest) = true → handler_for r.2 m = Some h →
  is_Some (forwards h) ∧ ∃ t n ps, r.1 = Static t :: Param n :: ps.
Proof.
  intros Hin%list_elem_of_In Hm Hh. pose proof servers_forward as Hf. rewrite forallb_forall in Hf.
  specialize (Hf r Hin).
  assert (heads "servers" r.1 = true) as Hs.
  { destruct r.1 as [|[t|n] ps]; [done| |done]. cbn [pattern_matches seg_matches] in Hm.
    by apply andb_true_iff in Hm as [Ht _]. }
  rewrite Hs in Hf. cbn [negb orb] in Hf. destruct r.1 as [|[t|n] [|[u|n'] ps]]; try done.
  split; [|by eexists _, _, _]. rewrite forallb_forall in Hf.
  assert (Some h ∈ [ep_get r.2; ep_post r.2; ep_any r.2]) as Ho.
  { apply handler_for_some in Hh. rewrite !elem_of_cons. naive_solver. }
  apply list_elem_of_In in Ho. apply (bool_decide_unpack _). by rewrite (Hf (Some h) Ho).
Qed.

(** C10: requests for another server stay clear of this one. Whatever comes in
    below [/servers/<name>] for a name that is not the own one, on every route
    and with every method: nothing of the node changes, and the answer is a
    rejection of the router or what the gateway gives for that name, its own
    refusal or the response of the tunnel the request was sent down. *)
Theorem remote_isolated env fr i (seg name : string) (rest : list string) :
  path_segments (uri_path (in_uri i)) = Some ("servers" :: seg :: rest) →
  path_param seg = Some name → name ≠ c_name (fr_core fr) →
  (serve_request env fr i).2 = fr ∧
  ((∃ status, (serve_request env fr i).1 = Rejected status) ∨
   ∃ method body resp, (serve_request env fr i).1 = Served (Some resp) ∧
     answer_of env (routed fr env name method (in_uri i) (in_headers i) body) = Some resp).
Proof.
  intros Hs Hname Hne. unfold serve_request. rewrite router_first. unfold first_match. rewrite Hs.
  cbn [mbind option_bind]. fold (matching ("servers" :: seg :: rest)).
  destruct (matching ("servers" :: seg :: rest)) as [r|] eqn:Em; [|by eauto].
  apply matching_some in Em as [Hin Hm]. destruct (handler_for r.2 (in_method i)) as [h|] eqn:Eh; [|by eauto].
  destruct (servers_route r _ h seg rest Hin Hm Eh) as ([m' Hf] & t & n & ps & Hps).
  unfold path_params. rewrite Hs, Hps. simpl. rewrite Hname. simpl.
  destruct (mapM path_param (captures ps rest)) as [params|]; [|by eauto]. simpl.
  destruct (routed_remote fr env name GET (in_uri i) (in_headers i) "" Hne) as [rg Hg].
  destruct (routed_remote fr env name POST (in_uri i) (in_headers i) (in_body i) Hne) as [rp Hp].
  assert (forward_get fr env i name (in_uri i) = Some rg) as Hfg by done.
  assert (forward_post fr env i name = Some rp) as Hfp by done.
  destruct fr as [core st init]. destruct h; try discriminate Hf;
    destruct params as [|p [|p' [|]]]; try (by eauto); cbn [handle fr_core];
    unfold with_query, with_bytes, served, server_get, server_resources_get, server_resource_get, meta_get, meta_type_get,
      serve_or_forward, server_resource_transition_post, events_unsubscribe;
    simpl in Hne; rewrite ?Hfg, ?Hfp, ?(proj2 (String.eqb_neq _ _) Hne); simpl;
    repeat match goal with |- context [match ?x with Ok _ => _ | Err _ => _ end] => destruct x as [[]|]; simpl
           | |- context [(DEFAULT_BODY_LIMIT <? ?n)%N] => destruct (DEFAULT_BODY_LIMIT <? n)%N; simpl end;
    split; try done; eauto 8.
Qed.

(** *** What a request can change *)

Definition same_node (c c' : Core num A S) : Prop := c_name c' = c_name c ∧ c_node c' = c_node c.

Lemma list_same_node answers now c : same_node c (list_resources answers now c).2.
Proof. unfold list_resources. by destruct (list_reads _ _ _). Qed.

Lemma get_same_node id answers now c : same_node c (get_resource id answers now c).2.
Proof. unfold get_resource. repeat (case_match; simpl; try done). Qed.

Lemma query_same_node ql answers now c : same_node c (query_resources ql answers now c).2.
Proof.
  unfold query_resources. destruct (parse ql) as [[q|]|]; [|done..].
  pose proof (list_same_node answers now c). by destruct (list_resources answers now c).
Qed.

Lemma query_response_same core h ql policy answers now :
  same_node core (query_response core h ql policy answers now).2.
Proof.
  unfold query_response. pose proof (query_same_node ql answers now core).
  by destruct (query_resources ql answers now core).
Qed.

Lemma resources_same core headers uri ql answers now :
  same_node core (resources_response core headers uri ql answers now).2 ∧
  same_node core (server_response core headers uri ql answers now).2.
Proof.
  unfold resources_response, server_response. destruct (build_hrefs _ _ _) as [h|]; [|done].
  destruct ql as [ql|]; [by split; apply query_response_same|].
  pose proof (list_same_node answers now core). by destruct (list_resources answers now core).
Qed.

Lemma resource_same core headers uri id answers now :
  same_node core (resource_response core headers uri id answers now).2.
Proof.
  unfold resource_response. destruct (build_hrefs _ _ _) as [h|]; [|done].
  pose proof (get_same_node id answers now core). by destruct (get_resource id answers now core).
Qed.

Lemma transition_same core headers provenance id transition body command outcome after now :
  same_node core (transition_response core headers provenance id transition body command outcome after now).2.
Proof.
  unfold transition_response. destruct (transition_input headers body) as [input|]; [|done].
  unfold run_resource_transition. repeat (case_match; simplify_eq/=; try done).
Qed.

Lemma root_same core headers uri ql server peers forward answers now :
  same_node core (root core headers uri ql server peers forward answers now).2.
Proof.
  unfold root. destruct (build_hrefs _ _ _) as [h|]; [|done].
  repeat (case_match; try done); apply query_response_same.
Qed.

(** The parameters of a handler's pattern. *)
Definition arity (h : Handler) : nat :=
  match h with
  | Hroot | Hresources_get | Hresources_post | Hlocal_meta_get | Hevents_ws => 0
  | Hresource_transition_post | Hserver_resource_get | Hmeta_type_get => 2
  | Hserver_resource_transition_post => 3
  | _ => 1
  end.

Fixpoint pattern_arity (ps : list Seg) : nat :=
  match ps with [] => 0 | Static _ :: ps' => pattern_arity ps' | Param _ :: ps' => Datatypes.S (pattern_arity ps') end.

Lemma captures_length ps ss : pattern_matches ps ss = true → length (captures ps ss) = pattern_arity ps.
Proof.
  revert ss. induction ps as [|[t|n] ps IH]; intros [|s ss]; simpl; try done;
    intros [_ Hm]%andb_true_iff; by rewrite IH.
Qed.

Lemma arities :
  forallb (λ r : Route, forallb (λ o, match o with Some h => Nat.eqb (arity h) (pattern_arity r.1) | None => true end)
    [ep_get r.2; ep_post r.2; ep_any r.2]) routes = true.
Proof. vm_compute. reflexivity. Qed.

Lemma params_fit r m h ss params :
  r ∈ routes → pattern_matches r.1 ss = true → handler_for r.2 m = Some h →
  mapM path_param (captures r.1 ss) = Some params → length params = arity h.
Proof.
  intros Hin%list_elem_of_In Hm Hh Hp. pose proof arities as Ha. rewrite forallb_forall in Ha.
  specialize (Ha r Hin). rewrite forallb_forall in Ha.
  assert (Some h ∈ [ep_get r.2; ep_post r.2; ep_any r.2]) as Ho.
  { apply handler_for_some in Hh. rewrite !elem_of_cons. naive_solver. }
  apply list_elem_of_In, Ha, Nat.eqb_eq in Ho. rewrite Ho, <- (captures_length r.1 ss Hm).
  symmetry. apply mapM_Some, Forall2_length in Hp. done.
Qed.

(** What handling a request may do to the front. *)
Definition framed fr (p : Reply (num:=num) * Front (num:=num) (A:=A) (S:=S)) : Prop :=
  same_node (fr_core fr) (fr_core p.2) ∧ fr_state p.2 = fr_state fr ∧ fr_init p.2 ⊆ fr_init fr ∧
  (∀ status, p.1 = Rejected status → p.2 = fr ∧ status ∈ [400; 404; 405; 413; 426]%N).

Lemma served_framed fr (h : handled (num:=num) (A:=A) (S:=S)) :
  same_node (fr_core fr) h.2 → framed fr (served fr h).
Proof. intros Hh. by split_and!. Qed.

Lemma rejected_framed fr status : status ∈ [400; 404; 405; 413; 426]%N → framed fr (Rejected status, fr).
Proof. intros Hs. split_and!; try done. by intros ? [= <-]. Qed.

Lemma with_query_framed fr i k : (∀ ql server, framed fr (k ql server)) → framed fr (with_query fr i k).
Proof.
  intros Hk. unfold with_query. destruct (query_params (in_uri i)) as [[ql server]|]; [apply Hk|].
  apply rejected_framed. by left.
Qed.

Lemma with_bytes_framed fr i k : (∀ body, framed fr (k body)) → framed fr (with_bytes fr i k).
Proof.
  intros Hk. unfold with_bytes. case_match; [|apply Hk]. apply rejected_framed. set_solver.
Qed.

Lemma forward_framed fr (h : handled (num:=num) (A:=A) (S:=S)) forward name uri :
  same_node (fr_core fr) h.2 → framed fr (served fr (serve_or_forward (fr_core fr) forward name uri h)).
Proof. intros Hh. apply served_framed. unfold serve_or_forward. by destruct (forward name uri). Qed.

Lemma handle_framed env fr i h params :
  length params = arity h → h ≠ Hresources_post → framed fr (handle fr env i h params).
Proof.
  intros Hl Hne. destruct h; try done; simpl in Hl;
    destruct params as [|p [|p' [|p'' [|]]]]; try discriminate Hl; cbn [handle];
    repeat first [apply with_query_framed; intros ql server|apply with_bytes_framed; intros body];
    first [apply forward_framed|apply served_framed|idtac];
    try first [apply root_same|apply resources_same|apply resource_same|apply transition_same|done].
  - unfold server_resource_transition_post. case_match; [done|apply transition_same].
  - case_match; [case_match; by split_and!|]. apply rejected_framed. by left.
  - case_match; [|by split_and!]. apply rejected_framed. destruct w; simpl; set_solver.
  - case_match; [by split_and!|]. apply rejected_framed. by left.
  - pose proof (confirm_shrinks p (fr_init fr)) as Hc.
    destruct (initiate_peer p (fr_init fr)) as [[status text] init]. by split_and!.
Qed.

Lemma registered_name (core : Core num A S) headers uri new_id answers now :
  c_name (registered_response core headers uri new_id answers now).2 = c_name core.
Proof.
  unfold registered_response. destruct (build_hrefs _ _ _) as [h|]; [|done].
  destruct (get_same_node new_id answers now core) as [Hn _]. by destruct (get_resource new_id answers now core).
Qed.

Lemma post_name core factories headers uri body uuid answers now :
  c_name (resources_post core factories headers uri body uuid answers now).2 = c_name core.
Proof. unfold resources_post. repeat (case_match; try done). by rewrite registered_name. Qed.

Lemma post_node core factories headers uri body uuid answers now :
  c_node (resources_post core factories headers uri body uuid answers now).2 = c_node core ∨
  factories ≠ ∅ ∧ is_form_content_type headers = true.
Proof.
  unfold resources_post. destruct (decide (factories = ∅)); [by left|].
  destruct (is_form_content_type headers); [by right|by left].
Qed.

Lemma post_route r m :
  r ∈ routes → handler_for r.2 m = Some Hresources_post → m = POST ∧ r.1 = [Static "resources"].
Proof.
  intros Hin Hh. unfold routes in Hin.
  repeat (apply elem_of_cons in Hin as [->|Hin];
    [unfold handler_for in Hh; destruct m as [| |n]; simpl in Hh; try done; by destruct (String.eqb n "HEAD")|]).
  by apply elem_of_nil in Hin.
Qed.

Lemma serve_cases env fr i :
  framed fr (serve_request env fr i) ∨
  in_method i = POST ∧ path_segments (uri_path (in_uri i)) = Some ["resources"] ∧
  serve_request env fr i = served fr (resources_post (fr_core fr) (st_factories (fr_state fr))
    (in_headers i) (in_uri i) (in_body i) (ev_uuid env) (ev_answers env) (ev_now env)).
Proof.
  pose proof (rejected_framed fr) as Hrej.
  unfold serve_request. rewrite router_first. unfold first_match.
  destruct (path_segments (uri_path (in_uri i))) as [ss|] eqn:Es; cbn [mbind option_bind];
    [|left; apply Hrej; by right; left].
  fold (matching ss). destruct (matching ss) as [r|] eqn:Em; [|left; apply Hrej; by right; left].
  apply matching_some in Em as [Hin Hm].
  destruct (handler_for r.2 (in_method i)) as [h|] eqn:Eh; [|left; apply Hrej; by right; right; left].
  unfold path_params. rewrite Es. simpl.
  destruct (mapM path_param (captures r.1 ss)) as [params|] eqn:Ep; [|left; apply Hrej; by left].
  pose proof (params_fit r _ h ss params Hin Hm Eh Ep) as Hl.
  destruct (decide (h = Hresources_post)) as [->|Hne]; [|left; by apply handle_framed].
  destruct params; [|done]. destruct (post_route r (in_method i) Hin Eh) as [Hmeth Hps].
  rewrite Hps in Hm. destruct ss as [|s [|]]; cbn [pattern_matches seg_matches] in Hm; try done;
    [|by rewrite andb_false_r in Hm].
  rewrite andb_true_r in Hm. apply String.eqb_eq in Hm as ->.
  cbn [handle]. unfold with_bytes. case_match; [left; apply Hrej; set_solver|by right].
Qed.

End facts.

(** ** A node and its clients *)

Module FrontExamples.
Import ListHttp TopicExamples HandlersExamples.
#[local] Existing Instance ListChannel.mpsc.
#[local] Existing Instance CoreExamples.n_number.
#[local] Existing Instance ExecutorExamples.counter.
#[local] Existing Instance HandlersExamples.url_lib.
#[local] Existing Instance HandlersExamples.url_ops.
#[local] Existing Instance HandlersExamples.body_lib.
#[local] Existing Instance AssemblyExamples.no_form.
#[local] Existing Instance AssemblyExamples.digest.
#[local] Existing Instance AssemblyExamples.uuid_dec.
#[local] Existing Instance AssemblyExamples.uuid_countable.
#[local] Existing Instance RouterExamples.last_router.
#[local] Existing Instance RouterExamples.last_router_laws.
#[local] Instance plain_extract : AxumExtract := {| path_param := Some; ws_upgrade := λ _ _, Some WsBadHeader |}.

(** The node of one counter, named hub, with peering on and no tunnel. *)
Definition front : Front (num:=N) (A:=nat) (S:=Mutex N) :=
  mk_front CoreExamples.core1 (mk_app_state true [] None ∅) ∅.

Definition env : Env (num:=N) :=
  mk_env (CoreExamples.live "3") (λ _ _ _ _, Err TBusy) CoreExamples.gone 5 (1 : @Uuid http_lib)
    (2 : @Uuid http_lib) "cmd" (λ _, acceptors_new) (λ _, None) (λ _ _, text_response 200 "edge").

Definition get_path (path : string) : Incoming :=
  mk_incoming GET ((path, None) : @Uri http_lib) (request "hub" "") "" false.

Definition status_of (r : Reply (num:=N)) : option N :=
  match r with Served (Some resp) => Some (rp_status resp) | Rejected n => Some n | _ => None end.

Example statuses_of_paths :
  map (λ p, status_of (serve_request env front (get_path p)).1)
    ["/resources/c-1"; "/servers/hub/resources/c-1"; "/servers/edge/resources/c-1"; "/resources/c-2"; "/nowhere"]
  = [Some 200; Some 200; Some 404; Some 404; Some 404]%N.
Proof. vm_compute. reflexivity. Qed.


Lemma remote_isolated_witness :
  (serve_request env front (get_path "/servers/edge/resources/c-1")).2 = front.
Proof.
  refine (proj1 (remote_isolated env front (get_path "/servers/edge/resources/c-1") "edge" "edge"
    ["resources"; "c-1"] _ _ _)); [reflexivity..|discriminate].
Defined.

End FrontExamples.
