(* ===== verification/Watch.v ===== *)
(** The hypermedia loop closed: a client reads the link of a stream in a
    document, subscribes to its topic, runs the transition the document offers
    and receives the event. The parts are those of the other files: the
    renderer, the topics, the bus with both publish paths, the contexts of the
    runtime and the actor macro. *)

From S2P Require Import Prelude F64 Json Query Lexer Parser Topic Envelope Sequencer Replay Policy.
From S2P Require Import CoalesceQueue Mpsc Bus BusSpec BusProps Publish Alone Capabilities Http Peer Gateway Resource.
From S2P Require Import Persistence Runtime Executor ActorMacro Node Core Siren Render Handlers Honest Led.
From S2P Require Import EventStream PeerStreams Session.

Section watch.
  Context {tl : TopicLibs} {time : TimeLib} {num : Type} `{!SerdeNumber num, !SerdeNumberLaws num}.
  Context `{!BusLibs num} `{!Mpsc (EventEnvelope num), !MpscLaws (EventEnvelope num)} {ul : UrlLib}.
  Implicit Types (env : EventEnvelope num) (sid : SubscriptionId) (b : EventBus num) (p : TopicPattern).

(** ** A fresh subscription *)

(** What [subscribe] makes of the view of a new channel subscription, and what
    it leaves of the others. *)
Lemma subscribe_view p opts b sid b1 :
  bus_ok b → is_coalesce (slow_consumer_policy opts) = false → subscribe p opts b = Some (sid, b1) →
  sid = next_id b ∧ 0 < resolved_outbound_capacity opts ∧
  view sid b1 = mk_view (Some (mk_sub p OMpsc (limit opts) (slow_consumer_policy opts) 0 None true))
    (Some (chan_new (resolved_outbound_capacity opts))) None None ∧
  ∀ j, j ≠ sid → view j b1 = view j b.
Proof.
  intros Hok Hnc Hs. pose proof (bo_fresh b Hok (next_id b) (N.le_refl _)) as Hf.
  injection Hf as _ _ Hq Hn. unfold subscribe in Hs.
  destruct (slow_consumer_policy opts); try done;
    destruct (Nat.eqb_spec (resolved_outbound_capacity opts) 0) as [|H0]; try done; injection Hs as <- <-;
    (split_and!; [done|lia| |intros j Hj]); unfold view; simpl;
    rewrite ?lookup_insert_eq, ?lookup_insert_ne, ?Hq, ?Hn by done; done.
Qed.

(** The new subscription is ready for whatever comes. *)
Lemma subscribed_undisturbed p opts b sid b1 env :
  bus_ok b → is_coalesce (slow_consumer_policy opts) = false → limit opts ≠ Some 0%N →
  subscribe p opts b = Some (sid, b1) → (∀ id, undisturbed env (view id b)) →
  ∀ id, undisturbed env (view id b1).
Proof.
  intros Hok Hnc Hl Hs Hu id. destruct (subscribe_view p opts b sid b1 Hok Hnc Hs) as (-> & Hc & Hv & Hoth).
  destruct (decide (id = next_id b)) as [->|Hne]; [|rewrite Hoth by done; apply Hu].
  rewrite Hv. intros sub (Es & _)%target_sub. simpl in Es. injection Es as <-. simpl. split_and!; [done..|].
  intros _ c [= <-] _. by destruct (chan_new_spec (A:=EventEnvelope num) (resolved_outbound_capacity opts)) as (_ & -> & _).
Qed.

(** It receives the first event that matches. *)
Lemma first_event p opts b sid b1 env order b2 r b3 :
  bus_ok b → is_coalesce (slow_consumer_policy opts) = false →
  subscribe p opts b = Some (sid, b1) → matches_event p (topic env) (data env) = true →
  (∀ id, view id b2 = view id b1) → enumerates order b2 → try_publish env order b2 = Some (Ok r, b3) →
  (rx_try_recv sid b3).1 = Ok env ∧ notices b3 !! sid = None.
Proof.
  intros Hok Hnc Hs Hm Hv2 Hen Ht. destruct (subscribe_view p opts b sid b1 Hok Hnc Hs) as (_ & Hc & Hv & _).
  apply try_publish_spec in Ht as (_ & Hpub & _); [|done]. destruct (Hpub sid) as [o Ho].
  rewrite Hv2, Hv in Ho. unfold publish_view in Ho. simpl in Ho. rewrite Hm in Ho. simpl in Ho.
  destruct (chan_new_spec (A:=EventEnvelope num) (resolved_outbound_capacity opts)) as (Hcc & Hcp & _ & Hca).
  destruct (chan_try_send_ok env (chan_new (resolved_outbound_capacity opts)) Hca) as (c' & Hsend & Hcont & _);
    [by rewrite Hcp|].
  rewrite Hsend, Hcc in *. simpl in Hcont.
  assert (chans b3 !! sid = Some c' ∧ notices b3 !! sid = None) as [Hchan Hnot].
  { unfold after_delivery in Ho. case_match; [|by injection Ho]. unfold removed in Ho. simpl in Ho.
    by injection Ho. }
  split; [|done]. unfold rx_try_recv. rewrite Hchan. pose proof (chan_pop_spec c') as Hpop. rewrite Hcont in Hpop.
  destruct (chan_pop c') as [[e|] c'']; destruct Hpop as (Hr & _); simplify_eq/=. done.
Qed.

(** Without an event there is nothing to receive. *)
Lemma no_event p opts b sid b1 b2 :
  bus_ok b → is_coalesce (slow_consumer_policy opts) = false →
  subscribe p opts b = Some (sid, b1) → (∀ id, view id b2 = view id b1) →
  (rx_try_recv sid b2).1 = Err RecvEmpty.
Proof.
  intros Hok Hnc Hs Hv2. destruct (subscribe_view p opts b sid b1 Hok Hnc Hs) as (_ & Hc & Hv & _).
  pose proof (Hv2 sid) as Hv'. rewrite Hv in Hv'. injection Hv' as Hsub Hchan _ _.
  unfold rx_try_recv. rewrite Hchan.
  pose proof (chan_pop_spec (chan_new (A:=EventEnvelope num) (resolved_outbound_capacity opts))) as Hpop.
  destruct (chan_new_spec (A:=EventEnvelope num) (resolved_outbound_capacity opts)) as (Hcc & _).
  rewrite Hcc in Hpop. destruct (chan_pop _) as [[e|] c'']; destruct Hpop as (Hr & _); [done|].
  simpl. by rewrite Hsub.
Qed.

(** ** A listening connection *)

Context `{!SerdeInt num, !Mpsc (OutboundMessage num), !MpscLaws (OutboundMessage num)}.
Context (topic_error_text : TopicParseError → string) (core_name : string) (has_senders : bool).
Implicit Types (s : Session num).

(** The connection holds the subscription [sid] under its own number [app],
    waits for events, and its socket is up with nothing queued. *)
Record listening (app : N) (slow_done : bool) sid s : Prop := {
  li_task : s_tasks s !! app = Some (FLocal (mk_local_fwd sid slow_done None));
  li_writer : s_writer s = true;
  li_terminal : chan_contents (s_terminal s) = [];
  li_out : chan_contents (s_out s) = [];
  li_alive : chan_rx_alive (s_out s) = true;
  li_room : 0 < chan_permits (s_out s)
}.

Lemma rx_try_recv_rest sid b : subs (rx_try_recv sid b).2 = subs b ∧ notices (rx_try_recv sid b).2 = notices b.
Proof. unfold rx_try_recv. by repeat (case_match; simpl). Qed.

(** No notice is pending, so that events are taken from the subscription. *)
Definition attentive (slow_done : bool) sid b : Prop :=
  (if slow_done then None else slow_consumer_rx sid b) = None.

Lemma attentive_writes app d sid ev s :
  listening app d sid s → attentive d sid (s_bus s) → (rx_try_recv sid (s_bus s)).1 = Ok ev →
  ∃ s', rtc (session_step topic_error_text core_name has_senders) s s' ∧ s_wire s' = s_wire s ++ [render_event_for_ws app ev].
Proof.
  intros [Ht Hw Hterm Hout Ha Hr] Hat Hrecv. destruct (rx_try_recv_rest sid (s_bus s)) as [Esubs Enot].
  destruct (rx_try_recv sid (s_bus s)) as [res b] eqn:Erx. simpl in *. subst res.
  assert (attentive d sid b) as Hat' by (unfold attentive, slow_consumer_rx in *; by rewrite Esubs, Enot).
  destruct (chan_acquire_ready _ Ha Hr) as [c Hc].
  destruct (chan_acquire_some _ _ Hc) as (_ & _ & Hcont & _).
  set (m := render_event_for_ws app ev).
  destruct (chan_store_spec m c) as (Hstore & _). rewrite Hcont, Hout in Hstore. simpl in Hstore.
  set (f1 := mk_local_fwd sid d (Some m)). set (s1 := Session.set_bus b (set_task app f1 s)).
  set (s2 := set_out (chan_store m c) (set_task app (mk_local_fwd sid d None) s1)).
  pose proof (chan_pop_spec (s_terminal s)) as Hpt. rewrite Hterm in Hpt.
  pose proof (chan_pop_spec (chan_store m c)) as Hpo. rewrite Hstore in Hpo.
  destruct (chan_pop (s_terminal s)) as [rt ct] eqn:Ept. destruct Hpt as [-> _].
  destruct (chan_pop (chan_store m c)) as [ro co] eqn:Epo. destruct Hpo as [-> _]. simpl in Ept, Epo.
  exists (set_wire (s_wire s ++ [m]) (set_out co s2)). split; [|done].
  eapply rtc_l; [|eapply rtc_l; [|eapply rtc_once]].
  - eapply (ss_local _ _ _ 0 app _ s s1); [exact Ht|]. unfold local_poll. simpl.
    unfold attentive in Hat. rewrite Hat, Erx. done.
  - eapply (ss_local _ _ _ 0 app f1 s1 s2); [simpl; by rewrite lookup_insert_eq|].
    unfold local_poll. simpl. unfold attentive in Hat'. rewrite Hat', Ha, Hc. done.
  - apply (ss_writer _ _ _ true). unfold writer_poll. simpl. by rewrite Hw, Ept, Epo.
Qed.

(** An event that waits in the subscription is written to the socket. *)
Lemma forwarder_writes app sid ev s :
  listening app false sid s → notices (s_bus s) !! sid = None → (rx_try_recv sid (s_bus s)).1 = Ok ev →
  ∃ s', rtc (session_step topic_error_text core_name has_senders) s s' ∧ s_wire s' = s_wire s ++ [render_event_for_ws app ev].
Proof.
  intros Hl Hn Hrecv. destruct (subs (s_bus s) !! sid) as [sub|] eqn:Es.
  { apply (attentive_writes app false sid); [done| |done]. unfold attentive, slow_consumer_rx. by rewrite Hn, Es. }
  destruct Hl as [Ht Hw Hterm Hout Ha Hr].
  destruct (attentive_writes app true sid ev (set_task app (mk_local_fwd sid true None) s)) as (s' & Hs & Hwire);
    [split; try done; simpl; by rewrite lookup_insert_eq|done|done|].
  exists s'. split; [|done]. eapply rtc_l; [|exact Hs]. eapply (ss_local _ _ _ 0); [exact Ht|].
  unfold local_poll, slow_consumer_rx. simpl. by rewrite Hn, Es.
Qed.

(** ** A published event *)

(** [b1] is the bus on which the topic of a stream link was just subscribed
    to; nothing else waits on it. *)
Record watched (h : Hrefs) (kind id st : string) (opts : SubscribeOpts) b sid b1 : Prop := {
  wa_plain : forallb plain_part [h_server h; kind; id; st] = true;
  wa_bus : bus_ok b;
  wa_ids : (next_id b + 1 < 2 ^ 64)%N;
  wa_calm : ∀ env j, undisturbed env (view j b);
  wa_policy : is_coalesce (slow_consumer_policy opts) = false;
  wa_limit : limit opts ≠ Some 0%N;
  wa_sub : ∃ p, topic_parse (stream_topic h kind id st) = Some (Ok p) ∧ subscribe p opts b = Some (sid, b1)
}.

Lemma watched_publish h (a : ActorCtx) st opts b sid b1 c payload_kind version d now order :
  watched h (ac_resource_kind a) (ac_resource_id a) st opts b sid b1 →
  h_server h = ac_node a → tc_actor c = Some a → ac_publisher a = true → enumerates order b1 →
  let '(res, b2) := delivered_bus deliver_out (transition_publish c st payload_kind version d now order b1) in
  match res with
  | Ok _ => ∃ e, ((rx_try_recv sid b2).1 = Ok e ∧ notices b2 !! sid = None) ∧ data e = d ∧ resource_id e = ac_resource_id a ∧
      causation_id e = Some (tc_command_id c) ∧ correlation_id e = rq_request_id (tc_request c)
  | Err err => err = transition_publish_error (TooLarge (max_event_size b1)) ∧
      (rx_try_recv sid b2).1 = Err RecvEmpty
  end.
Proof.
  intros [Hplain Hok Hlt Hcalm Hnc Hlim (p & Hp & Hs)] Hnode Hc Ha Hen.
  destruct (stream_link_reaches (num:=num) h _ _ _ Hplain) as (p' & Hp' & Hfilter & Hmatch).
  assert (p' = p) as -> by congruence.
  unfold transition_publish, publish_for_resource. rewrite Hc, Ha. cbn [negb].
  unfold publish_envelope, allocate_on_bus. cbn [pl_node_id pl_resource_id pl_stream].
  destruct (allocate _ (registry b1)) as [al rg].
  set (env := envelope_of _ _ _ _). set (b2 := set_streams (rg, replay_cache b1) b1).
  assert (∀ id, view id b2 = view id b1) as Hv2 by done.
  assert (bus_ok b2) as Hok2.
  { destruct (subscribe_ok p opts b sid b1 Hlt Hok Hs) as [H1 H2]. by split. }
  assert (enumerates order b2) as Hen2 by done.
  assert (∀ id, undisturbed env (view id b2)) as Hu2.
  { intros id. rewrite Hv2. exact (subscribed_undisturbed p opts b sid b1 env Hok Hnc Hlim Hs (Hcalm env) id). }
  destruct (publish_start env order b2) as [[t|err] b3] eqn:Est; simpl.
  - destruct (started_delivers env order b2 t b3 Hok2 Hen2 Hu2 Est) as [r Ht].
    exists env. split; [|by split_and!]. apply (first_event p opts b sid b1 env order b2 r _ Hok Hnc Hs); [|done..].
    unfold matches_event. rewrite Hfilter, (proj2 (Hmatch env eq_refl eq_refl eq_refl)); [done|by rewrite Hnode].
  - unfold publish_start in Est. destruct (_ <? _)%N; [|by destruct (Publish.snapshot _ _ _)].
    injection Est as <- <-. split; [done|]. by apply (no_event p opts b sid b1).
Qed.

(** ** A lamp and its watcher *)

End watch.

(** ** A concrete client *)

Module WatchExamples.
Import ConcreteNumber ConcreteTime ListHttp TopicExamples StringUrl ListChannel BusExamples.

Definition lamp : ActorCtx := with_publisher (actor_ctx_new "hub" "led-1" "led" []).
Definition command : TransitionCtx := with_node "cmd" request_ctx_default "hub".
Definition clock (_ : EventBus number) : OffsetDateTime := 0%Z.
Definition walk (b : EventBus number) : list SubscriptionId := elements (dom (subs b) : gset SubscriptionId).

Lemma walk_enumerates b : enumerates (walk b) b.
Proof.
  unfold walk. split; [apply NoDup_elements|]. intros id. by rewrite elem_of_elements, elem_of_dom.
Qed.

(** The subscription to the link of the lamp's stream, on an empty bus. *)
Definition watching : option (SubscriptionId * EventBus number) :=
  match topic_parse (stream_topic RenderExamples.hub "led" "led-1" "state") with
  | Some (Ok p) => subscribe p (opts (Some 3%N) 4 Disconnect) bus0
  | _ => None
  end.

Lemma watching_watched sid b1 :
  watching = Some (sid, b1) →
  watched RenderExamples.hub "led" "led-1" "state" (opts (Some 3%N) 4 Disconnect) bus0 sid b1.
Proof.
  intros Hw. split; [done|apply bus_new_ok|done| |done|done|].
  - intros env j sub (Hs & _)%target_sub. simpl in Hs. by rewrite lookup_empty in Hs.
  - unfold watching in Hw. destruct (topic_parse _) as [[p|]|]; [|done..]. by exists p.
Qed.

Definition switched : option (result TransitionError (TransitionOutcome number) * (Led * EventBus number)) :=
  '(sid, b1) ← watching;
  actor_transition (Actor:=led_actor (Publisher0:=bus_publisher clock walk deliver_out))
    (with_actor lamp command) "turn-on" [] (led_default, b1).

(** A connection that has subscribed and waits. *)
Definition connection (sid : SubscriptionId) (b : EventBus number) : Session number :=
  set_tasks {[1%N := FLocal (mk_local_fwd sid false None)]} (session_new b hub_new).

Lemma connection_listens sid b : listening 1 false sid (connection sid b).
Proof. split; try done. simpl. unfold WS_OUTBOUND_CAPACITY. lia. Qed.

Definition error_text (e : TopicParseError) : string := "topic".

End WatchExamples.
